(* ===== verification/_CoqProject ===== *)
-Q . S2P
Prelude.v
Endian.v
Buffer.v
BufferSpec.v
ByteQueue.v
Sys.v
Sockops.v
Echo.v
EchoClient.v
EchoFd.v
AsyncNet.v
Daytime.v
Rendezvous.v
Sample.v
Tests.v
ProcessPool.v
Netlink.v
FdPass.v
FdPair.v
Inotify.v
Reactor.v
ReactorSpec.v
Rtt.v
Thread.v
ThreadPool.v
PoolSteps.v
Threads.v
Handshake.v
Hook.v
Atomic.v
Bar.v
Inventory.v
Registry.v
RegistrySpec.v
Loop.v
LoopSpec.v
LoopThreads.v
RttServer.v
RttServerSpec.v
RttDomain.v
