(* ===== verification/Prelude.v ===== *)
(** * A verification of the ex-netlink repository

    ** The program

    The repository is a collection of C++ networking and threading components.
    Its core is a round-trip-time service: a client ([set/rtt/rtt_client.cpp])
    sends a 24-byte package with its clock, a server
    ([set/rtt/rtt_server.cpp]) answers with two readings of its own, and the
    client computes the time on the wire and the clock difference.  The server
    is built from a ring buffer ([set/buffer]), a reactor over [poll]
    ([set/rtt/Poll.h] and the socket classes), a layer over the socket calls
    ([set/rtt/Sockops.h]), an event loop ([set/loop]) and threads
    ([set/thread_pool]).  Around it stand smaller programs: an echo server with two
    clients, a pool of processes, a netlink listener, a pair of processes that
    hand connections over, a directory watcher, client and server pairs that show
    one feature of the sockets each, an observer registry, two string classes,
    three programs on atomics and a kernel probe in C.

    ** The files

    - [Prelude] (this file): machine integers with their wrap-around, outcomes of
      C++ code (value, exception, failed assertion, undefined behaviour, exit),
      state passing, windows of arrays, the tactics shared by all files.
    - [Endian]: [set/buffer/yendian.h], [host2network] and [network2host] at the
      four widths.
    - [Buffer]: [set/buffer/buffer.h], every operation of [circulation_buffer];
      [BufferSpec]: the byte queue it implements ([QueueSpec]), the refinement,
      and the faults; [ByteQueue]: the interface (a type class with laws) the
      server's handler is proved against, discharged by the ring buffer.
    - [Sys]: the operating system as a parameter ([kernel]: from the history of
      calls to a reply), the monad [M] of programs over it.
    - [Sockops]: [set/rtt/Sockops.h].  [Reactor]: [Fd.h], [Socket.h],
      [Connector.h], [IReactor.h] (a type class, [Poll] its instance), [Poll.h],
      [Accept.h]; [ReactorSpec]: its tables and dispatch.
    - [Rtt]: [rtt_common.h] and [rtt_client.cpp].  [RttServer]:
      [rtt_server.h] and [rtt_server.cpp], with [startDomain] split along its
      branches ([domain_turn], [serve_all], [serve], [on_pollin], [receive],
      [answer], [queue_answer], [on_pollout], [on_pollerr]); [RttServerSpec]:
      the handler of a connection that carries a translation, and the findings;
      [RttDomain]: the table of connections and [startDomain] over every kernel.
    - [Loop]: [set/loop/Loop.cpp]; the priority queue of timers is an interface
      with laws, so that equal timestamps may fire in any order; [LoopSpec];
      [LoopThreads]: the accesses of the loop's thread and of those that call it.
    - [Thread]: [Count.h] and [Thread.h].  [ThreadPool]: [ThreadPool.h] as a step
      relation of workers and clients; [PoolSteps]: the same a statement at a time,
      with the mutex, shown to implement the first.
    - [Echo]: [set/echo/echo.server.cpp], which [set/echo_fd] has too.
      [EchoClient]: [set/echo/echo.client.cpp], and client and server together.
      [EchoFd]: [set/echo_fd/echo.client.cpp], the device list and the lookup of
      an interface.
    - [FdPass]: [set/unixsocket/main.cpp], both processes and the control message;
      [FdPair]: the two processes joined by their channel.
      [Netlink]: [main.cpp].  [Inotify]: [set/inotify/main.cpp].  [AsyncNet]:
      [set/poll/main.cpp].  [Daytime]: [set/time].  [Rendezvous]:
      [set/abstractunix] and [set/muticast].  [Sample]: [set/sample],
      [include/algor] and [set/macro].  [Tests]: the programs of [test].
    - [Threads]: programs with mutexes, condition variables and flags as trees,
      and the step relation that runs several of them; [Handshake]: the client and
      server threads of [set/tcp_rest], [set/api] and [set/sigurg] as such trees.
    - [ProcessPool]: [set/process_pool].  [Bar]: [set/str].  [Atomic]: [set/atomic],
      a module per program.  [Hook]: [set/hook/kprobe_example.c].
    - [Inventory]: [set/inventory/main.cpp], an operation at a time; [Registry]: the
      same program run by any number of threads, a statement at a time, with its
      mutexes and reference counts; [RegistrySpec]: the second refines the first.

    ** What the theorems show

    - The ring buffer behaves as a queue of bytes for every sequence of
      operations that passes a computable check ([buffer_refines_queue]), and for
      every sequence at all while the bytes appended fit behind the padding; the
      sequences the check refuses contain the faults of [buffer_faults_reachable].
    - The client of the round-trip service makes exactly the calls of its protocol and
      computes both results from the four stamps ([Connect_protocol]).  The server, as
      it stands, answers nobody: its constructor does not return
      ([server_never_starts]), its reactor registers no socket
      ([poll_never_registers]), and its service loop ends at the first byte it receives,
      because no connector is given its translation ([startDomain_answers_nobody]);
      its table of connections is consistent from the empty table on
      ([slots_invariant]).  [RttServerSpec] also has lemmas about the handler for a
      connector that does carry a translation ([request_any_segmentation],
      [partial_answer_completed], [rtt_end_to_end]); they describe code the program
      does not reach.
    - [connectAsync] returns for every kernel that stops answering [EAGAIN], and
      closes the descriptor exactly on the error paths.  The dispatch of the reactor
      counts interested sockets, in array order ([event_handler_spec]).
    - The loop runs each callback once, in order; due timers fire in order of
      their timestamps; [run] returns after a [quit] and only then.  With other threads
      calling it, the timers are never accessed by two threads at once and nothing
      deadlocks unless a timer calls [runAt] ([loop_threads_share]); the two queues,
      [is_quit_] and [io_handle_] are raced for ([loop_races_reachable]).
    - In every interleaving, with any clients that call [push] and [stop], the thread
      pool runs each task once, in the order of the pushes, and loses no wake-up; a run
      is bounded but for spurious wake-ups.  While the pool lives, it drains before its
      workers leave.  This holds of the single statements of the code too
      ([pool_steps_refine], [pool_code_completes]).  The program [main] destroys the
      pool while its threads run, and always ends through [std::terminate]
      ([pool_main_outcome]).
    - Whatever the interleaving of terminal and connection, the echo client
      forwards what is typed and shows what comes back, up to a read that fills its
      buffer, where it runs past the end ([client_relays]); with the server, over a
      network that delivers prefixes, the terminal shows a prefix of what was typed
      ([echo_end_to_end]).  The load generator's byte-by-byte reading of its device
      list is a split into lines.
    - A descriptor sent as a control message is the one received; the parent hands
      over the connections in the order it accepted them, and the child serves
      every one that is ready, but prints a request that fills its buffer without an
      end ([child_pass_serves]).  With both processes and a channel that keeps the
      order, the connections that are answered are those that were accepted, and each
      is held or was closed once ([fd_pair_end_to_end]).
    - However the threads of the registry interleave, no request is touched after its
      destructor, every run ends, and a run without a destructor inside [remove] ends
      with all threads done; operations that do not overlap do what [Inventory] says
      ([registry_no_dangling], [registry_completes], [registry_refines_inventory]).
    - The counter of the kernel probe never exceeds the calls, whatever the CPUs do, and
      equals their number when no two overlap ([probe_count_bounds]).
    - In the programs with a client and a server thread no connection is attempted
      before the server listens, in any interleaving; and there is one in which the
      client waits for ever.
    - The netlink walk (safe on arbitrary bytes, exact on well-formed datagrams), the
      walk over inotify events, the handshake of [Thread] (with its condition
      variable, mutex and spurious wake-ups), and the
      programs on atomics do what they are meant to; an asynchronous connect returns
      the socket it opened or leaves none open; client and service of an abstract
      Unix address meet at the same bytes.
    - The findings are theorems too: what the code does where it departs from its
      intent, such as a constructor of the server that never returns, a reactor
      that rejects every socket, a clock difference that wraps around, or an
      answer that is queued from past the end of its object.

    ** Conventions

    A w-bit integer is a [Z] and every operation of the source is followed by its
    reduction; signed overflow, accesses outside a block, uses of indeterminate or
    released memory and relocking a held mutex are values of [ub].  Loops of the
    source that need not end take fuel: [connect_retry] (theorem: enough fuel
    exists whenever the kernel stops answering [EAGAIN]), [run_loop] (both
    directions are theorems: it returns after a quit, and runs out of any fuel
    without one), [startDomain], [echo_loop], [client_loop] and the other service
    loops (endless by design; their theorems hold for every fuel, whatever the
    outcome), [walk], [timer_loop], [event_walk] and [device_loop] (the fuel the code
    is run with is proved to be enough).
    Threads are step relations whose steps are critical sections, atomic
    accesses, blocking calls or, in [PoolSteps], [LoopThreads] and [Registry], single
    statements.

    ** What is not modelled

    The kernel, the C and C++ libraries and the resolver are parameters or
    contracts; so are the text of an IPv6 address and the decoding of the
    resolver's list in [Sample], the registration of a probe in [Hook] and what the
    compiler puts into [__func__] at file scope.  [Billboard::send] and [recv] of the
    process pool have no definition in the source.  Signals are installed and blocked,
    but no handler interrupts a program.  Not modelled is the generated build
    configuration. *)

From Stdlib Require Strings.Byte.
From stdpp Require Export base numbers list gmap strings relations.

#[global] Open Scope Z_scope.

(** ** Machine integers

    A w-bit unsigned C++ integer is a [Z] kept in [[0, 2^w)]; every arithmetic
    operator of the source is followed by the reduction written here. *)

Declare Scope cpp_scope.
Delimit Scope cpp_scope with cpp.

Definition u64 (z : Z) : Z := z mod 2 ^ 64.
Definition u32 (z : Z) : Z := z mod 2 ^ 32.
Definition u16 (z : Z) : Z := z mod 2 ^ 16.

(** Two's complement reading of the low [w] bits of [z]. *)
Definition signed (w z : Z) : Z :=
  let m := z mod 2 ^ w in if m <? 2 ^ (w - 1) then m else m - 2 ^ w.
Definition i64 (z : Z) : Z := signed 64 z.
Definition i32 (z : Z) : Z := signed 32 z.

Notation "a ⊕ b" := (u64 (a + b)) (at level 50, left associativity) : cpp_scope.
Notation "a ⊖ b" := (u64 (a - b)) (at level 50, left associativity) : cpp_scope.
Notation "a ⊗ b" := (u64 (a * b)) (at level 40, left associativity) : cpp_scope.
#[global] Open Scope cpp_scope.

Definition is_u64 (z : Z) : Prop := 0 ≤ z < 2 ^ 64.

Lemma u64_small z : 0 ≤ z < 2 ^ 64 → u64 z = z.
Proof. apply Z.mod_small. Qed.

Lemma u64_range z : 0 ≤ u64 z < 2 ^ 64.
Proof. apply Z.mod_pos_bound. lia. Qed.

Lemma u64_wrap_neg z : - 2 ^ 64 ≤ z < 0 → u64 z = z + 2 ^ 64.
Proof.
  intros H. unfold u64. rewrite <- (Z.mod_add z 1) by lia.
  rewrite Z.mod_small; lia.
Qed.

Lemma u64_congr a b k : a = b + k * 2 ^ 64 → u64 a = u64 b.
Proof. intros ->. unfold u64. by rewrite Z.mod_add. Qed.

Lemma u64_mod_eq z : ∃ k, u64 z = z + k * 2 ^ 64.
Proof.
  exists (- (z / 2 ^ 64)). unfold u64. rewrite Z.mod_eq by lia. lia.
Qed.

(** [u64_solve] eliminates every reduction whose argument is in range. *)
Ltac u64_step :=
  match goal with
  | |- context [u64 ?z] => rewrite (u64_small z) by lia
  | H : context [u64 ?z] |- _ => rewrite (u64_small z) in H by lia
  end.
Ltac u64_solve := repeat u64_step.

(** [zbool] turns the boolean comparisons of the code into propositions. *)
Ltac zbool :=
  repeat match goal with
  | H : (_ <? _) = true |- _ => apply Z.ltb_lt in H
  | H : (_ <? _) = false |- _ => apply Z.ltb_ge in H
  | H : (_ <=? _) = true |- _ => apply Z.leb_le in H
  | H : (_ <=? _) = false |- _ => apply Z.leb_gt in H
  | H : (_ =? _) = true |- _ => apply Z.eqb_eq in H
  | H : (_ =? _) = false |- _ => apply Z.eqb_neq in H
  | H : (_ && _)%bool = true |- _ => apply andb_prop in H as [? ?]
  | H : negb _ = true |- _ => apply negb_true_iff in H
  | H : negb _ = false |- _ => apply negb_false_iff in H
  end.

(** [zcase b] splits on a comparison [b] occurring in the goal; [zcases]
    splits on all those that are the scrutinee of an [if]. *)
Ltac zcase b :=
  let E := fresh "E" in destruct b eqn:E; zbool.
Ltac zcases :=
  repeat match goal with
  | |- context [if (?a <? ?b) then _ else _] => zcase (a <? b)
  | |- context [if (?a <=? ?b) then _ else _] => zcase (a <=? b)
  | |- context [if (?a =? ?b) then _ else _] => zcase (a =? b)
  end.

#[global] Instance byte_eq_dec : EqDecision Byte.byte := Strings.Byte.byte_eq_dec.

(** ** Outcomes of C++ code

    A call returns a value, throws, fails an [assert], reaches undefined
    behaviour, ends the process, or (only for loops run with fuel) is cut
    short. *)

Inductive ub : Type :=
| OutOfBounds        (** access outside an array or an allocation *)
| Indeterminate      (** use of an uninitialised value *)
| BadShift           (** shift count not below the width *)
| SignedOverflow
| DanglingPointer    (** access to, or release of, freed memory *)
| NullPointer
| MissingReturn      (** flowing off the end of a non-void function *)
| BadFormat          (** an argument of [printf] that its conversion does not take *)
| LockAlreadyHeld.   (** locking a [std::mutex] the thread already owns *)

Inductive exn : Type :=
| bad_alloc
| bad_weak_ptr
| bad_any_cast
| bad_function_call
| system_error (code : Z)
| user_exception.

Inductive outcome (A : Type) : Type :=
| Ok (a : A)
| Throw (e : exn)
| AssertFail
| Undef (u : ub)
| Exit (code : Z)
| NoFuel.
Arguments Ok {A} a.
Arguments Throw {A} e.
Arguments AssertFail {A}.
Arguments Undef {A} u.
Arguments Exit {A} code.
Arguments NoFuel {A}.

#[global] Instance ub_eq_dec : EqDecision ub.
Proof. solve_decision. Defined.
#[global] Instance exn_eq_dec : EqDecision exn.
Proof. solve_decision. Defined.

#[global] Instance outcome_ret : MRet outcome := λ A a, Ok a.
#[global] Instance outcome_bind : MBind outcome := λ A B f m,
  match m with
  | Ok a => f a
  | Throw e => Throw e
  | AssertFail => AssertFail
  | Undef u => Undef u
  | Exit c => Exit c
  | NoFuel => NoFuel
  end.

(** [assert(b)] of [<assert.h>], with assertions enabled (the build type is
    Debug by default). *)
Definition cassert (b : bool) : outcome unit := if b then Ok tt else AssertFail.

Lemma bind_Ok {A B} (m : outcome A) (f : A → outcome B) b :
  m ≫= f = Ok b ↔ ∃ a, m = Ok a ∧ f a = Ok b.
Proof.
  destruct m; cbn; split; try discriminate;
    try (intros (? & [=] & ?)); [by eauto|by subst].
Qed.

(** Two outcomes of the same kind, with related results. *)
Definition orel {A B} (R : A → B → Prop) (x : outcome A) (y : outcome B) : Prop :=
  match x, y with
  | Ok a, Ok b => R a b
  | Throw e, Throw e' => e = e'
  | AssertFail, AssertFail => True
  | Undef u, Undef u' => u = u'
  | Exit c, Exit c' => c = c'
  | NoFuel, NoFuel => True
  | _, _ => False
  end.

Lemma orel_bind {A B A' B'} (R : A → B → Prop) (S : A' → B' → Prop) x y f g :
  orel R x y → (∀ a b, R a b → orel S (f a) (g b)) → orel S (x ≫= f) (y ≫= g).
Proof. destruct x, y; cbn; auto; try done. Qed.

(** ** Windows of arrays, indexed by [Z] *)

Definition lenZ {A} (l : list A) : Z := Z.of_nat (length l).

Definition slice {A} (l : list A) (i n : Z) : list A :=
  take (Z.to_nat n) (drop (Z.to_nat i) l).

Definition splice {A} (l : list A) (i : Z) (d : list A) : list A :=
  take (Z.to_nat i) l ++ d ++ drop (Z.to_nat i + length d) l.

(** [load l i n] and [store l i d] are the accesses of [std::copy_n] and
    [memcpy]: the whole window has to lie inside the array.  The window read is
    read in full before any write, which is what libstdc++ does for bytes (it
    calls [memmove]). *)
Definition load {A} (l : list A) (i n : Z) : outcome (list A) :=
  if (0 <=? i) && (0 <=? n) && (i + n <=? lenZ l) then Ok (slice l i n)
  else Undef OutOfBounds.

Definition store {A} (l : list A) (i : Z) (d : list A) : outcome (list A) :=
  if (0 <=? i) && (i + lenZ d <=? lenZ l) then Ok (splice l i d)
  else Undef OutOfBounds.

Section windows.
Context {A : Type}.
Implicit Types l d : list A.

Lemma lenZ_nonneg l : 0 ≤ lenZ l.
Proof. unfold lenZ. lia. Qed.

Lemma lenZ_app l d : lenZ (l ++ d) = lenZ l + lenZ d.
Proof. unfold lenZ. rewrite length_app. lia. Qed.

Lemma lenZ_replicate n (x : A) : 0 ≤ n → lenZ (replicate (Z.to_nat n) x) = n.
Proof. unfold lenZ. rewrite length_replicate. lia. Qed.

Lemma lookup_slice l i n k :
  slice l i n !! k =
    if decide (k < Z.to_nat n)%nat then l !! (Z.to_nat i + k)%nat else None.
Proof.
  unfold slice. rewrite lookup_take, lookup_drop. done.
Qed.

Lemma lookup_splice l i d k :
  (Z.to_nat i ≤ length l)%nat →
  splice l i d !! k =
    if decide (k < Z.to_nat i)%nat then l !! k
    else if decide (k < Z.to_nat i + length d)%nat
         then d !! (k - Z.to_nat i)%nat else l !! k.
Proof.
  intros Hi. unfold splice. rewrite lookup_app, lookup_take.
  assert (Hl : length (take (Z.to_nat i) l) = Z.to_nat i)
    by (rewrite length_take; lia).
  case_decide as Hk.
  - destruct (l !! k) eqn:E; [done|]. apply lookup_ge_None_1 in E. lia.
  - rewrite Hl. rewrite lookup_app.
    case_decide as Hk2.
    + destruct (d !! (k - Z.to_nat i)%nat) eqn:E; [done|].
      apply lookup_ge_None_1 in E. lia.
    + rewrite lookup_ge_None_2 by lia. rewrite lookup_drop. f_equal. lia.
Qed.

Lemma length_slice l i n :
  0 ≤ i → 0 ≤ n → i + n ≤ lenZ l → lenZ (slice l i n) = n.
Proof.
  unfold lenZ, slice. intros. rewrite length_take, length_drop. lia.
Qed.

Lemma length_splice l i d :
  0 ≤ i → i + lenZ d ≤ lenZ l → length (splice l i d) = length l.
Proof.
  unfold lenZ, splice. intros.
  rewrite !length_app, length_take, length_drop. lia.
Qed.

Lemma lenZ_splice l i d :
  0 ≤ i → i + lenZ d ≤ lenZ l → lenZ (splice l i d) = lenZ l.
Proof. intros. unfold lenZ at 1. rewrite length_splice; done. Qed.

Lemma slice_0 l i : slice l i 0 = [].
Proof. done. Qed.

Lemma slice_split l i n m :
  0 ≤ i → 0 ≤ n → 0 ≤ m → i + n ≤ lenZ l →
  slice l i (n + m) = slice l i n ++ slice l (i + n) m.
Proof.
  unfold lenZ. intros. apply list_eq; intros k.
  assert (Hn : length (slice l i n) = Z.to_nat n)
    by (unfold slice; rewrite length_take, length_drop; lia).
  rewrite lookup_app, !lookup_slice, Hn.
  destruct (decide (k < Z.to_nat n)%nat) as [Hk|Hk].
  - rewrite decide_True by lia.
    destruct (l !! _) eqn:E; [done|]. apply lookup_ge_None_1 in E. lia.
  - repeat case_decide; try lia; [f_equal; lia|done].
Qed.

Lemma slice_splice_same l i d :
  0 ≤ i → i + lenZ d ≤ lenZ l → slice (splice l i d) i (lenZ d) = d.
Proof.
  unfold lenZ. intros. apply list_eq; intros k.
  rewrite lookup_slice, lookup_splice by lia.
  repeat case_decide; try lia; [f_equal; lia|].
  symmetry. apply lookup_ge_None_2. lia.
Qed.

Lemma slice_splice_inside l i d j n :
  0 ≤ i → i + lenZ d ≤ lenZ l → i ≤ j → 0 ≤ n → j + n ≤ i + lenZ d →
  slice (splice l i d) j n = slice d (j - i) n.
Proof.
  unfold lenZ. intros. apply list_eq; intros k.
  rewrite !lookup_slice, lookup_splice by lia.
  repeat case_decide; try lia; [f_equal; lia|done].
Qed.

Lemma slice_splice_disjoint l i d j n :
  0 ≤ i → i + lenZ d ≤ lenZ l → 0 ≤ j → 0 ≤ n →
  j + n ≤ i ∨ i + lenZ d ≤ j →
  slice (splice l i d) j n = slice l j n.
Proof.
  unfold lenZ. intros. apply list_eq; intros k.
  rewrite !lookup_slice, lookup_splice by lia.
  repeat case_decide; try lia; done.
Qed.

Lemma slice_slice l i n j m :
  0 ≤ i → 0 ≤ j → 0 ≤ m → j + m ≤ n →
  slice (slice l i n) j m = slice l (i + j) m.
Proof.
  intros. apply list_eq; intros k. rewrite !lookup_slice.
  repeat case_decide; try lia; [f_equal; lia|done].
Qed.

Lemma drop_slice l i m n :
  0 ≤ i → 0 ≤ n → drop (Z.to_nat n) (slice l i m) = slice l (i + n) (m - n).
Proof.
  intros. apply list_eq; intros k. rewrite lookup_drop, !lookup_slice.
  repeat case_decide; try lia; [f_equal; lia|done].
Qed.

Lemma take_slice l i m n :
  n ≤ m → take (Z.to_nat n) (slice l i m) = slice l i n.
Proof.
  intros. apply list_eq; intros k. rewrite lookup_take, !lookup_slice.
  repeat case_decide; try lia; done.
Qed.

Lemma slice_all l : slice l 0 (lenZ l) = l.
Proof. unfold slice, lenZ. rewrite drop_0. apply take_ge. lia. Qed.

Lemma slice_splice_eq l i d n :
  n = lenZ d → 0 ≤ i → i + lenZ d ≤ lenZ l → slice (splice l i d) i n = d.
Proof. intros ->. apply slice_splice_same. Qed.

Lemma slice_cut l n :
  0 ≤ n ≤ lenZ l → slice l 0 n ++ slice l n (lenZ l - n) = l.
Proof.
  intros H. rewrite <- (slice_split l 0) by lia.
  replace (n + (lenZ l - n)) with (lenZ l) by lia. apply slice_all.
Qed.

(** A second write of the same window hides the first. *)
Lemma splice_splice l i d d' :
  0 ≤ i → lenZ d = lenZ d' → i + lenZ d ≤ lenZ l → splice (splice l i d) i d' = splice l i d'.
Proof.
  unfold lenZ. intros. apply list_eq; intros k.
  pose proof (length_splice l i d ltac:(lia)) as Hl. unfold lenZ in Hl.
  rewrite !lookup_splice by (rewrite ?Hl; lia).
  repeat case_decide; try lia; done.
Qed.

Lemma load_Ok l i n :
  0 ≤ i → 0 ≤ n → i + n ≤ lenZ l → load l i n = Ok (slice l i n).
Proof.
  intros. unfold load.
  by rewrite !(proj2 (Z.leb_le _ _)) by lia.
Qed.

Lemma load_Undef l i n :
  i < 0 ∨ n < 0 ∨ lenZ l < i + n → load l i n = Undef OutOfBounds.
Proof.
  intros H. unfold load.
  destruct (0 <=? i) eqn:E1, (0 <=? n) eqn:E2, (i + n <=? lenZ l) eqn:E3;
    try done; zbool; lia.
Qed.

Lemma store_Ok l i d :
  0 ≤ i → i + lenZ d ≤ lenZ l → store l i d = Ok (splice l i d).
Proof.
  intros. unfold store.
  by rewrite !(proj2 (Z.leb_le _ _)) by lia.
Qed.

Lemma store_Undef l i d :
  i < 0 ∨ lenZ l < i + lenZ d → store l i d = Undef OutOfBounds.
Proof.
  intros H. unfold store.
  destruct (0 <=? i) eqn:E1, (i + lenZ d <=? lenZ l) eqn:E3;
    try done; zbool; lia.
Qed.
End windows.

(** [len_solve] proves linear facts about lengths of windows. *)
Ltac len_solve :=
  repeat match goal with
  | |- context [lenZ (splice _ _ _)] => rewrite lenZ_splice by len_solve
  | |- context [lenZ (slice _ _ _)] => rewrite length_slice by len_solve
  | |- context [lenZ (_ ++ _)] => rewrite lenZ_app
  | |- context [lenZ (replicate (Z.to_nat _) _)] => rewrite lenZ_replicate by len_solve
  end;
  lia.

Lemma slice_fmap {A B} (f : A → B) l i n : slice (f <$> l) i n = f <$> slice l i n.
Proof. unfold slice. by rewrite fmap_take, fmap_drop. Qed.

Lemma lenZ_fmap {A B} (f : A → B) l : lenZ (f <$> l) = lenZ l.
Proof. unfold lenZ. by rewrite length_fmap. Qed.

Lemma filter_all {A} (P : A → Prop) {HP : ∀ x, Decision (P x)} (l : list A) :
  (∀ x, x ∈ l → P x) → filter P l = l.
Proof.
  induction l as [|x l IH]; [done|]. intros H. rewrite filter_cons, decide_True.
  - rewrite IH; [done|]. intros y Hy. apply H. by right.
  - apply H. by left.
Qed.

(** ** State passing

    [SM S A]: code that reads and changes a state [S]; the state reached is kept
    when it throws, so that handlers and destructors can be modelled. *)
Definition SM (S A : Type) : Type := S → outcome A * S.

#[global] Instance SM_ret {S} : MRet (SM S) := λ A a s, (Ok a, s).
#[global] Instance SM_bind {S} : MBind (SM S) := λ A B f m s,
  let '(o, s') := m s in
  match o with
  | Ok a => f a s'
  | Throw e => (Throw e, s')
  | AssertFail => (AssertFail, s')
  | Undef u => (Undef u, s')
  | Exit c => (Exit c, s')
  | NoFuel => (NoFuel, s')
  end.

Definition slift {S A} (o : outcome A) : SM S A := λ s, (o, s).
Definition sget {S A} (f : S → A) : SM S A := λ s, (Ok (f s), s).
Definition smod {S} (f : S → S) : SM S unit := λ s, (Ok tt, f s).

Lemma sm_bind_Ok {S A B} (m : SM S A) (f : A → SM S B) s a s' :
  m s = (Ok a, s') → (m ≫= f) s = f a s'.
Proof. intros E. unfold mbind, SM_bind. by rewrite E. Qed.

Lemma filter_all_bool {A} (f : A → bool) (l : list A) :
  (∀ x, x ∈ l → f x = true) → List.filter f l = l.
Proof.
  induction l as [|x l IH]; [done|]. intros H. cbn [List.filter].
  rewrite (H x) by (by left). rewrite IH; [done|]. intros y Hy. apply H. by right.
Qed.

(** ** Sums over lists *)

Lemma sum_cons {A} (f : A → nat) x l :
  sum_list_with f (x :: l) = (f x + sum_list_with f l)%nat.
Proof. reflexivity. Qed.

Lemma sum_insert {A} (f : A → nat) (l : list A) i x y :
  l !! i = Some x →
  (sum_list_with f (<[i := y]> l) + f x = sum_list_with f l + f y)%nat.
Proof.
  revert i. induction l as [|z l IH]; intros [|i] Hi; try done.
  - injection Hi as ->. change (<[0%nat := y]> (x :: l)) with (y :: l). rewrite !sum_cons. lia.
  - specialize (IH i Hi). change (<[S i := y]> (z :: l)) with (z :: <[i := y]> l).
    rewrite !sum_cons. lia.
Qed.
