(* ===== verification/Endian.v ===== *)
(** * Endian: [set/buffer/yendian.h]

    The byte-order templates [host2network] and [network2host], specialised in
    the source at the four unsigned widths, and the memory image of an unsigned
    integer.  The host is little-endian (the x86-64 of the build image), so the
    [htobeNN]/[beNNtoh] of [<endian.h>] reverse the bytes.

    Theorems: the two templates are inverse to each other, the memory image of
    a converted value is the big-endian one, and reading [sizeof(T)] bytes of a
    network stream with [network2host] is the usual Horner scheme on bytes. *)

From S2P Require Import Prelude.
From coqutil Require Import Byte Word.LittleEndianList Z.BitOps.

(** The types the templates are specialised at. *)
Inductive utype : Type := uint8_t | uint16_t | uint32_t | uint64_t.

#[global] Instance utype_eq_dec : EqDecision utype.
Proof. solve_decision. Defined.

Definition sizeof (t : utype) : nat :=
  match t with uint8_t => 1 | uint16_t => 2 | uint32_t => 4 | uint64_t => 8 end.

Definition bits (t : utype) : Z := 8 * Z.of_nat (sizeof t).

(** Values of type [t]. *)
Definition in_range (t : utype) (x : Z) : Prop := 0 ≤ x < 2 ^ bits t.

(** Reversal of the low [n] bytes: [__bswap_16/32/64]. *)
Definition bswap (n : nat) (x : Z) : Z := le_combine (rev (le_split n x)).

(** [htons] of the C library. *)
Definition htons (port : Z) : Z := bswap 2 port.

Definition host2network (t : utype) (host : Z) : Z :=
  match t with
  | uint64_t => bswap 8 host
  | uint32_t => bswap 4 host
  | uint16_t => bswap 2 host
  | uint8_t => host
  end.

Definition network2host (t : utype) (net : Z) : Z :=
  match t with
  | uint64_t => bswap 8 net
  | uint32_t => bswap 4 net
  | uint16_t => bswap 2 net
  | uint8_t => net
  end.

(** Reference definitions: big-endian value and big-endian image. *)
Definition be_combine (bs : list Byte.byte) : Z :=
  foldl (λ acc b, acc * 256 + byte.unsigned b) 0 bs.
Definition be_split (n : nat) (x : Z) : list Byte.byte := rev (le_split n x).

(** ** Little-endian lists as sums *)

Lemma byte_land_shiftl b x :
  0 ≤ b < 256 → Z.land b (Z.shiftl x 8) = 0.
Proof.
  intros Hb. apply Z.bits_inj; intros i. rewrite Z.land_spec, Z.bits_0.
  destruct (Z.ltb_spec i 0); [by rewrite Z.testbit_neg_r by lia|].
  destruct (Z.ltb_spec i 8).
  - by rewrite Z.shiftl_spec_low, andb_false_r by lia.
  - rewrite <- (Z.mod_small b (2 ^ 8)) by lia.
    by rewrite Z.mod_pow2_bits_high by lia.
Qed.

Lemma le_combine_cons b bs :
  le_combine (b :: bs) = byte.unsigned b + 256 * le_combine bs.
Proof.
  change (le_combine (b :: bs)) with
    (Z.lor (byte.unsigned b) (Z.shiftl (le_combine bs) 8)).
  pose proof (byte.unsigned_range b) as Hb.
  rewrite or_to_plus by (by apply byte_land_shiftl).
  rewrite Z.shiftl_mul_pow2 by lia.
  lia.
Qed.

Lemma le_combine_app_sum bs cs :
  le_combine (bs ++ cs) =
    le_combine bs + 2 ^ (8 * lenZ bs) * le_combine cs.
Proof.
  unfold lenZ. induction bs as [|b bs IH].
  - rewrite le_combine_nil. simpl length.
    change (Z.of_nat 0) with 0. rewrite Z.mul_0_r, Z.pow_0_r, Z.mul_1_l. done.
  - rewrite <- app_comm_cons, !le_combine_cons, IH. simpl length.
    rewrite Nat2Z.inj_succ, Z.mul_succ_r, Z.pow_add_r by lia. lia.
Qed.

Lemma le_combine_range bs : 0 ≤ le_combine bs < 2 ^ (8 * lenZ bs).
Proof. apply le_combine_bound. Qed.

Lemma le_combine_rev bs : le_combine (rev bs) = be_combine bs.
Proof.
  unfold be_combine.
  assert (G : ∀ acc, foldl (λ a b, a * 256 + byte.unsigned b) acc bs =
                     acc * 2 ^ (8 * lenZ bs) + le_combine (rev bs));
    [|by rewrite G].
  unfold lenZ. induction bs as [|b bs IH]; intros acc.
  - simpl. rewrite le_combine_nil, Z.mul_0_r, Z.pow_0_r. lia.
  - cbn [foldl rev]. rewrite IH, le_combine_app_sum, le_combine_cons, le_combine_nil.
    unfold lenZ. rewrite length_rev. simpl length.
    rewrite Nat2Z.inj_succ, Z.mul_succ_r, Z.pow_add_r by lia. lia.
Qed.

Lemma le_combine_split_small n x :
  0 ≤ x < 2 ^ (8 * Z.of_nat n) → le_combine (le_split n x) = x.
Proof.
  intros H. rewrite le_combine_split, Z.mul_comm. by apply Z.mod_small.
Qed.

(** ** The templates *)

Lemma le_split_bswap n x : le_split n (bswap n x) = be_split n x.
Proof.
  unfold bswap, be_split. apply split_le_combine'.
  by rewrite length_rev, length_le_split.
Qed.

Lemma bswap_bswap n x :
  0 ≤ x < 2 ^ (8 * Z.of_nat n) → bswap n (bswap n x) = x.
Proof.
  intros H. unfold bswap at 1. rewrite le_split_bswap. unfold be_split.
  rewrite rev_involutive. by apply le_combine_split_small.
Qed.

Lemma bswap_range n x : 0 ≤ bswap n x < 2 ^ (8 * Z.of_nat n).
Proof.
  unfold bswap.
  pose proof (le_combine_range (rev (le_split n x))) as H.
  unfold lenZ in H. by rewrite length_rev, length_le_split in H.
Qed.

Lemma bswap_le_combine bs : bswap (length bs) (le_combine bs) = be_combine bs.
Proof. unfold bswap. by rewrite split_le_combine, le_combine_rev. Qed.

Lemma le_split_1 x : in_range uint8_t x → le_split 1 x = [byte.of_Z x].
Proof. done. Qed.

Lemma host2network_range t x : in_range t x → in_range t (host2network t x).
Proof. unfold in_range, bits. destruct t; cbn [host2network]; intros; auto using bswap_range. Qed.

Lemma network2host_range t x : in_range t x → in_range t (network2host t x).
Proof. unfold in_range, bits. destruct t; cbn [network2host]; intros; auto using bswap_range. Qed.

(** [host2network] writes the value in network order: its memory image on the
    little-endian host is the big-endian image of the value. *)
Lemma host2network_image t x :
  le_split (sizeof t) (host2network t x) = be_split (sizeof t) x.
Proof.
  destruct t; cbn [host2network sizeof]; auto using le_split_bswap.
Qed.

(** The value of [sizeof(T)] bytes of a network stream. *)
Lemma network2host_stream t bs :
  length bs = sizeof t → network2host t (le_combine bs) = be_combine bs.
Proof.
  destruct t; cbn [sizeof network2host]; intros H; rewrite <- ?H;
    auto using bswap_le_combine.
  destruct bs as [|b [|]]; try discriminate.
  by rewrite le_combine_cons, le_combine_nil, Z.mul_0_r, Z.add_0_r.
Qed.

Lemma be_combine_split t x : in_range t x → be_combine (be_split (sizeof t) x) = x.
Proof.
  intros H. unfold be_split. rewrite <- le_combine_rev, rev_involutive.
  by apply le_combine_split_small.
Qed.

Lemma length_be_split n x : length (be_split n x) = n.
Proof. unfold be_split. by rewrite length_rev, length_le_split. Qed.

Create HintDb endian discriminated.
Create Rewrite HintDb endian.
#[export] Hint Resolve host2network_range network2host_range : endian.
#[export] Hint Rewrite host2network_image length_be_split : endian.

(** the conversions are inverse to each other at every width. *)
Theorem network2host_host2network t x :
  in_range t x →
  network2host t (host2network t x) = x ∧ host2network t (network2host t x) = x.
Proof.
  unfold in_range, bits.
  destruct t; cbn [host2network network2host sizeof]; auto using bswap_bswap.
Qed.

Lemma network2host_host2network_witness :
  network2host uint16_t (host2network uint16_t 9909) = 9909 ∧
  host2network uint16_t (network2host uint16_t 9909) = 9909.
Proof. apply network2host_host2network. split; [discriminate|reflexivity]. Defined.
