(* ===== verification/Buffer.v ===== *)
(** * Buffer: [set/buffer/buffer.h]

    [luluyuzhi::circulation_buffer], the growable ring buffer the RTT server
    keeps two of per connection.  Cells are bytes or indeterminate (memory a
    [new uint8_t[n]] without initialiser returns); indices are [size_t] values
    with their wrap-around; every copy is checked against the block it reads
    and the block it writes ([std::copy_n] on bytes copies like [memmove], so the
    two may overlap).

    This file holds the operations.  [BufferSpec] proves them against a byte
    queue. *)

From S2P Require Import Prelude Endian.
From coqutil Require Import Byte Word.LittleEndianList.

(** A byte of memory; [None] is indeterminate. *)
Abbreviation cell := (option Byte.byte).

(** [buf_] is the block the pointer owns ([nullptr] owns no cell, so it is the
    empty block). *)
Record circulation_buffer : Type := mkbuf {
  buf_ : list cell;
  length_ : Z;
  readindex_ : Z;
  writeindex_ : Z
}.

Definition padding : Z := 4.

(** [new uint8_t[n]]: above [PTRDIFF_MAX] the request throws. *)
Definition new_array (init : cell) (n : Z) : outcome (list cell) :=
  if n <? 2 ^ 63 then Ok (replicate (Z.to_nat n) init) else Throw bad_alloc.

(** The bytes of a window, all of which must be initialised. *)
Fixpoint defined (l : list cell) : outcome (list Byte.byte) :=
  match l with
  | [] => Ok []
  | None :: _ => Undef Indeterminate
  | Some b :: l' => bs ← defined l'; Ok (b :: bs)
  end.

(** [x << k] at type [t]: narrow types are promoted to the 32-bit [int]. *)
Definition shl (t : utype) (x k : Z) : outcome Z :=
  let w := Z.max 32 (bits t) in
  if k <? w then Ok (Z.shiftl x k mod 2 ^ w) else Undef BadShift.

(** ** Construction, destruction and moves *)

Definition circulation_buffer_new (length : Z) : outcome circulation_buffer :=
  m ← new_array (Some Byte.x00) length;
  Ok {| buf_ := m; length_ := length; readindex_ := padding; writeindex_ := padding |}.

Definition circulation_buffer_destroy (b : circulation_buffer) : circulation_buffer :=
  {| buf_ := []; length_ := 0; readindex_ := padding; writeindex_ := padding |}.

(** The moved-from object keeps its sizes and loses its block. *)
Definition move_construct (ot : circulation_buffer)
    : circulation_buffer * circulation_buffer :=
  (ot, {| buf_ := []; length_ := length_ ot;
          readindex_ := readindex_ ot; writeindex_ := writeindex_ ot |}).

(** [operator=(circulation_buffer&&)] on two distinct objects: the new target,
    the moved-from source and the block the target owned, which is not
    released. *)
Definition move_assign (this ot : circulation_buffer)
    : circulation_buffer * circulation_buffer * list cell :=
  (ot, {| buf_ := []; length_ := length_ ot;
          readindex_ := readindex_ ot; writeindex_ := writeindex_ ot |},
   buf_ this).

(** ** Sizes *)

Definition readed_size (b : circulation_buffer) : Z :=
  if writeindex_ b <? readindex_ b
  then length_ b ⊖ readindex_ b ⊕ writeindex_ b
  else writeindex_ b ⊖ readindex_ b.

Definition writed_size (b : circulation_buffer) : Z :=
  if writeindex_ b <=? readindex_ b ⊖ padding
  then readindex_ b ⊖ padding ⊖ writeindex_ b
  else length_ b ⊖ writeindex_ b ⊕ readindex_ b ⊖ padding.

(** ** Growth *)

Definition relocation_location (b : circulation_buffer) : outcome circulation_buffer :=
  let L := length_ b in let r := readindex_ b in let w := writeindex_ b in
  if w <? r then
    if w <? L ⊖ r then
      t ← load (buf_ b) 0 w;
      d ← load (buf_ b) (r - padding) (L ⊖ r ⊕ padding);
      m1 ← store (buf_ b) 0 d;
      m2 ← store m1 (L ⊖ r ⊕ padding) t;
      (* [readindex_] is overwritten before it is read again *)
      let r' := padding in
      Ok {| buf_ := m2; length_ := L; readindex_ := r'; writeindex_ := L ⊖ r' ⊕ w |}
    else
      t ← load (buf_ b) (r - padding) (L ⊖ r ⊕ padding);
      d ← load (buf_ b) 0 w;
      m1 ← store (buf_ b) (L ⊖ r ⊕ padding) d;
      m2 ← store m1 0 t;
      Ok {| buf_ := m2; length_ := L; readindex_ := padding;
            writeindex_ := L ⊖ r ⊕ w ⊕ padding |}
  else Ok b.

Definition make_memory (b : circulation_buffer) (length : Z) : outcome circulation_buffer :=
  if length <? writed_size b then Ok b else
  b1 ← relocation_location b;
  let new_length := length_ b1 ⊕ (length ⊖ writed_size b1) ⊗ 2 in
  new_buf ← new_array None new_length;
  d ← load (buf_ b1) (readindex_ b1 - padding) (writeindex_ b1);
  m ← store new_buf 0 d;
  Ok {| buf_ := m; length_ := new_length;
        readindex_ := readindex_ b1; writeindex_ := writeindex_ b1 |}.

(** ** Writing *)

(** [append(data, length)]: [data] is the array the pointer points into. *)
Definition append (b : circulation_buffer) (data : list cell) (length : Z)
    : outcome circulation_buffer :=
  b ← (if writed_size b <? length then make_memory b length else Ok b);
  let L := length_ b in let r := readindex_ b in let w := writeindex_ b in
  if (r <=? w) && (length <=? L ⊖ w) then
    d ← load data 0 length;
    m ← store (buf_ b) w d;
    Ok {| buf_ := m; length_ := L; readindex_ := r; writeindex_ := w ⊕ length |}
  else if w <? r then
    d ← load data 0 length;
    m ← store (buf_ b) w d;
    Ok {| buf_ := m; length_ := L; readindex_ := r; writeindex_ := w ⊕ length |}
  else
    d1 ← load data 0 (L ⊖ w);
    m1 ← store (buf_ b) w d1;
    d2 ← load data (L - w) (length ⊖ L ⊕ w);
    m2 ← store m1 0 d2;
    Ok {| buf_ := m2; length_ := L; readindex_ := r; writeindex_ := length ⊖ L ⊕ w |}.

(** ** Reading *)

Definition peek (b : circulation_buffer) (t : utype) : outcome Z :=
  let L := length_ b in let r := readindex_ b in let w := writeindex_ b in
  let sz := Z.of_nat (sizeof t) in
  _ ← cassert (sz <=? readed_size b);
  be16 ← (if w <? r then
            let re_size := L ⊖ r in
            if sz <? re_size then
              c ← load (buf_ b) r sz; bs ← defined c; Ok (le_combine bs)
            else
              cl ← load (buf_ b) r re_size; bl ← defined cl;
              cr ← load (buf_ b) 0 (sz ⊖ re_size); br ← defined cr;
              sh ← shl t (le_combine br) (re_size ⊗ 8);
              Ok ((le_combine bl + sh) mod 2 ^ bits t)
          else
            _ ← cassert (sz <=? w ⊖ r);
            c ← load (buf_ b) r sz; bs ← defined c; Ok (le_combine bs));
  Ok (network2host t be16).

Definition retrieve_all (b : circulation_buffer) : circulation_buffer :=
  {| buf_ := buf_ b; length_ := length_ b; readindex_ := padding; writeindex_ := padding |}.

Definition set_readindex (b : circulation_buffer) (r : Z) : circulation_buffer :=
  {| buf_ := buf_ b; length_ := length_ b; readindex_ := r; writeindex_ := writeindex_ b |}.

Definition skip (b : circulation_buffer) (len : Z) : outcome circulation_buffer :=
  _ ← cassert (len <=? readed_size b);
  if len <? readed_size b then
    if writeindex_ b <? readindex_ b then
      if len <? length_ b ⊖ readindex_ b
      then Ok (set_readindex b (readindex_ b ⊕ len))
      else Ok (set_readindex b (len ⊖ length_ b ⊕ readindex_ b))
    else Ok (set_readindex b (readindex_ b ⊕ len))
  else Ok (retrieve_all b).
