(* ===== verification/BufferSpec.v ===== *)
(** * BufferSpec: the ring buffer implements a byte queue

    Well-formed buffers and the bytes they hold; each operation of [Buffer]
    against the same operation on a list of bytes; the refinement of whole
    sequences, and the states from which growing, skipping or peeking go wrong. *)

From S2P Require Import Prelude Endian Buffer.
From coqutil Require Import Byte Word.LittleEndianList.

(** ** Well-formed buffers and their contents *)

(** Unread bytes are either one run [[r, w)] that starts at or after the
    padding, or wrap around the end with at least [padding] free cells before
    [r].  The capacity bound is what keeps [size_t] sums of two indices exact. *)
Record wf (b : circulation_buffer) : Prop := {
  wf_len : lenZ (buf_ b) = length_ b;
  wf_cap : padding ≤ length_ b < 2 ^ 62;
  wf_idx :
    (padding ≤ readindex_ b ∧ readindex_ b ≤ writeindex_ b ∧ writeindex_ b ≤ length_ b) ∨
    (0 ≤ writeindex_ b ∧ writeindex_ b ≤ readindex_ b - padding ∧
     readindex_ b ≤ length_ b)
}.

Definition contents (b : circulation_buffer) : list cell :=
  if writeindex_ b <? readindex_ b
  then slice (buf_ b) (readindex_ b) (length_ b - readindex_ b) ++
       slice (buf_ b) 0 (writeindex_ b)
  else slice (buf_ b) (readindex_ b) (writeindex_ b - readindex_ b).

(** [b] holds the bytes [q], all initialised, in order. *)
Definition represents (b : circulation_buffer) (q : list Byte.byte) : Prop :=
  wf b ∧ contents b = Some <$> q.

(** Opens a well-formed buffer into its two index cases. *)
Ltac open_wf H :=
  let Hl := fresh "Hlen" in let Hc := fresh "Hcap" in
  destruct H as [Hl Hc [(?&?&?)|(?&?&?)]]; unfold padding in *;
  cbn [buf_ length_ readindex_ writeindex_] in *.

Ltac wf_split := constructor; cbn [buf_ length_ readindex_ writeindex_];
  unfold padding; try lia.

(** Chooses the branch of a comparison that the context decides. *)
Ltac zdecide :=
  repeat match goal with
  | |- context [?a <? ?b] =>
      first [rewrite (proj2 (Z.ltb_lt a b)) by lia
            |rewrite (proj2 (Z.ltb_ge a b)) by lia]
  | |- context [?a <=? ?b] =>
      first [rewrite (proj2 (Z.leb_le a b)) by lia
            |rewrite (proj2 (Z.leb_gt a b)) by lia]
  end; cbn [andb].

Lemma wf_readed_contents b : wf b → lenZ (contents b) = readed_size b.
Proof.
  intros H. unfold contents, readed_size. destruct b as [m L r w]. open_wf H;
    zdecide; u64_solve; rewrite ?lenZ_app, !length_slice; lia.
Qed.

Lemma readed_size_represents b q : represents b q → readed_size b = lenZ q.
Proof.
  intros [Hwf Hq]. by rewrite <- wf_readed_contents, Hq, lenZ_fmap.
Qed.

Lemma writed_size_wf b :
  wf b →
  writed_size b =
    if writeindex_ b <? readindex_ b
    then readindex_ b - padding - writeindex_ b
    else length_ b - writeindex_ b + readindex_ b - padding.
Proof.
  intros H. unfold writed_size. destruct b as [m L r w]. open_wf H.
  - destruct (decide (w ≤ r - 4)); [lia|].
    u64_solve. zdecide. u64_solve. lia.
  - u64_solve. zdecide. u64_solve. lia.
Qed.

(** Read and free bytes add up to the capacity less the padding. *)
Lemma sizes_add b :
  wf b → readed_size b + writed_size b = length_ b - padding.
Proof.
  intros H. rewrite writed_size_wf by done. unfold readed_size.
  destruct b as [m L r w]. open_wf H; zdecide; u64_solve; lia.
Qed.

(** ** Writing without growth *)

(** The part of [append] after the capacity test. *)
Lemma append_room b data n :
  wf b → n ≤ writed_size b →
  append b data n =
    (let L := length_ b in let r := readindex_ b in let w := writeindex_ b in
     if w <? r then
       d ← load data 0 n; m ← store (buf_ b) w d;
       Ok {| buf_ := m; length_ := L; readindex_ := r; writeindex_ := w ⊕ n |}
     else if n <=? L - w then
       d ← load data 0 n; m ← store (buf_ b) w d;
       Ok {| buf_ := m; length_ := L; readindex_ := r; writeindex_ := w ⊕ n |}
     else
       d1 ← load data 0 (L - w); m1 ← store (buf_ b) w d1;
       d2 ← load data (L - w) (n ⊖ L ⊕ w); m2 ← store m1 0 d2;
       Ok {| buf_ := m2; length_ := L; readindex_ := r; writeindex_ := n ⊖ L ⊕ w |}).
Proof.
  intros Hwf Hn. unfold append. rewrite (proj2 (Z.ltb_ge _ _)) by lia.
  cbn [mbind outcome_bind]. destruct b as [m L r w]. open_wf Hwf; zdecide; u64_solve.
  - by destruct (n <=? L - w).
  - done.
Qed.

Lemma append_linear b data n :
  wf b → readindex_ b ≤ writeindex_ b → 0 ≤ n ≤ length_ b - writeindex_ b →
  n = lenZ data →
  ∃ b', append b data n = Ok b' ∧ wf b' ∧ length_ b' = length_ b ∧
        contents b' = contents b ++ data ∧
        readindex_ b' = readindex_ b ∧ writeindex_ b' = writeindex_ b + n.
Proof.
  intros Hwf Hlin Hn ->.
  assert (Hroom : lenZ data ≤ writed_size b).
  { rewrite writed_size_wf by done. destruct b as [m L r w]. open_wf Hwf; zdecide; lia. }
  rewrite append_room by done. destruct b as [m L r w]. open_wf Hwf; [|lia].
  zdecide. rewrite load_Ok, slice_all by lia. cbn [mbind outcome_bind].
  rewrite store_Ok by lia. u64_solve. eexists; split; [done|].
  split; [|split; [done|split; [|done]]].
  - wf_split. len_solve.
  - unfold contents; cbn [buf_ length_ readindex_ writeindex_]. zdecide.
    replace (w + lenZ data - r) with ((w - r) + lenZ data) by lia.
    rewrite slice_split by len_solve.
    rewrite slice_splice_disjoint by lia.
    replace (r + (w - r)) with w by lia.
    by rewrite slice_splice_same by lia.
Qed.

Lemma append_wrapped b data n :
  wf b → writeindex_ b < readindex_ b → 0 ≤ n ≤ writed_size b →
  n = lenZ data →
  ∃ b', append b data n = Ok b' ∧ wf b' ∧ length_ b' = length_ b ∧
        contents b' = contents b ++ data.
Proof.
  intros Hwf Hwr Hn ->. rewrite append_room by (done || lia).
  rewrite writed_size_wf in Hn by done.
  destruct b as [m L r w]. open_wf Hwf; [lia|].
  rewrite (proj2 (Z.ltb_lt w r)) in Hn |- * by lia.
  rewrite load_Ok, slice_all by lia. cbn [mbind outcome_bind].
  rewrite store_Ok by lia. u64_solve. eexists; split; [done|].
  split; [|split; [done|]].
  - wf_split. len_solve.
  - unfold contents; cbn [buf_ length_ readindex_ writeindex_]. zdecide.
    rewrite <- app_assoc, slice_splice_disjoint by lia. f_equal.
    rewrite slice_split by len_solve.
    rewrite slice_splice_disjoint by lia.
    by rewrite Z.add_0_l, slice_splice_same by lia.
Qed.

Lemma append_wrapping b data n :
  wf b → readindex_ b ≤ writeindex_ b →
  length_ b - writeindex_ b < n ≤ writed_size b →
  n = lenZ data →
  ∃ b', append b data n = Ok b' ∧ wf b' ∧ length_ b' = length_ b ∧
        contents b' = contents b ++ data ∧ readindex_ b' = readindex_ b ∧
        writeindex_ b' = n - (length_ b - writeindex_ b).
Proof.
  intros Hwf Hlin Hn ->. rewrite append_room by (done || lia).
  rewrite writed_size_wf in Hn by done.
  destruct b as [m L r w]. open_wf Hwf; [|lia].
  rewrite (proj2 (Z.ltb_ge w r)) in Hn |- * by lia. zdecide.
  pose proof (lenZ_nonneg data) as Hd.
  rewrite (load_Ok data 0) by lia. cbn [mbind outcome_bind].
  rewrite (store_Ok m) by len_solve. cbn [mbind outcome_bind].
  assert (Hw' : lenZ data ⊖ L ⊕ w = lenZ data - (L - w)).
  { unfold u64. rewrite Zplus_mod_idemp_l, Z.mod_small; lia. }
  rewrite Hw', (load_Ok data (L - w)) by lia. cbn [mbind outcome_bind].
  rewrite store_Ok by len_solve.
  eexists; split; [done|]. split; [|split; [done|split; [|done]]].
  - wf_split. len_solve.
  - unfold contents; cbn [buf_ length_ readindex_ writeindex_]. zdecide.
    rewrite slice_splice_disjoint
      by len_solve.
    replace (L - r) with ((w - r) + (L - w)) by lia.
    rewrite slice_split by len_solve.
    rewrite slice_splice_disjoint by len_solve.
    replace (r + (w - r)) with w by lia. rewrite <- app_assoc. f_equal.
    rewrite !slice_splice_eq
      by len_solve.
    apply slice_cut. lia.
Qed.

(** ** Growth *)

(** The states from which growing keeps the unread bytes: the run starts right
    after the padding, or it wraps and either the part before the end is not
    longer than the part at the start, or [readindex_] is twice the padding. *)
Definition growable (b : circulation_buffer) : bool :=
  if writeindex_ b <? readindex_ b
  then (length_ b - readindex_ b <=? writeindex_ b) || (readindex_ b =? 2 * padding)
  else readindex_ b =? padding.

Lemma relocation_location_short b :
  wf b → writeindex_ b < readindex_ b → length_ b - readindex_ b ≤ writeindex_ b →
  ∃ b', relocation_location b = Ok b' ∧ wf b' ∧ length_ b' = length_ b ∧
        readindex_ b' = padding ∧ padding ≤ writeindex_ b' ∧
        contents b' = contents b.
Proof.
  intros Hwf Hwr Hs. unfold relocation_location.
  destruct b as [m L r w]. open_wf Hwf; [lia|]. u64_solve. zdecide.
  rewrite load_Ok by lia. cbn [mbind outcome_bind].
  rewrite load_Ok by lia. cbn [mbind outcome_bind].
  rewrite store_Ok by len_solve. cbn [mbind outcome_bind].
  rewrite store_Ok by len_solve. u64_solve.
  eexists; split; [done|]. split; [|split; [done|]].
  - wf_split. len_solve.
  - cbn [readindex_ writeindex_]. split; [done|]. split; [lia|].
    unfold contents; cbn [buf_ length_ readindex_ writeindex_]. zdecide.
    replace (L - r + w + 4 - 4) with ((L - r) + w) by lia.
    rewrite slice_split by len_solve. f_equal.
    + rewrite slice_splice_inside by len_solve.
      rewrite slice_slice by lia. f_equal. lia.
    + rewrite slice_splice_disjoint by len_solve.
      replace (4 + (L - r)) with (L - r + 4) by lia.
      by rewrite slice_splice_eq by len_solve.
Qed.

Lemma relocation_location_twice b :
  wf b → readindex_ b = 2 * padding → writeindex_ b < length_ b - readindex_ b →
  writeindex_ b < readindex_ b →
  ∃ b', relocation_location b = Ok b' ∧ wf b' ∧ length_ b' = length_ b ∧
        readindex_ b' = padding ∧ padding ≤ writeindex_ b' ∧
        contents b' = contents b.
Proof.
  intros Hwf Hr Hs Hwr. unfold relocation_location.
  destruct b as [m L r w]. open_wf Hwf; [lia|]. u64_solve. zdecide.
  rewrite load_Ok by lia. cbn [mbind outcome_bind].
  rewrite load_Ok by lia. cbn [mbind outcome_bind].
  rewrite store_Ok by len_solve. cbn [mbind outcome_bind].
  rewrite store_Ok by len_solve. u64_solve.
  eexists; split; [done|]. split; [|split; [done|]].
  - wf_split. len_solve.
  - cbn [readindex_ writeindex_]. split; [done|]. split; [lia|].
    unfold contents; cbn [buf_ length_ readindex_ writeindex_]. zdecide.
    replace (L - 4 + w - 4) with ((L - r) + w) by lia.
    rewrite slice_split by len_solve. f_equal.
    + rewrite slice_splice_disjoint by len_solve.
      rewrite slice_splice_inside by len_solve.
      rewrite slice_slice by lia. f_equal. lia.
    + replace (4 + (L - r)) with (L - r + 4) by lia.
      by rewrite slice_splice_eq by len_solve.
Qed.

Lemma relocation_location_ok b :
  wf b → growable b = true →
  ∃ b', relocation_location b = Ok b' ∧ wf b' ∧ length_ b' = length_ b ∧
        readindex_ b' = padding ∧ padding ≤ writeindex_ b' ∧
        contents b' = contents b.
Proof.
  intros Hwf Hg. unfold growable in Hg.
  destruct (writeindex_ b <? readindex_ b) eqn:E; zbool.
  - destruct (length_ b - readindex_ b <=? writeindex_ b) eqn:E2; zbool.
    + by apply relocation_location_short.
    + cbn [orb] in Hg. zbool. by apply relocation_location_twice.
  - exists b. unfold relocation_location. rewrite (proj2 (Z.ltb_ge _ _)) by lia.
    repeat split; try done; try apply Hwf; unfold padding in *; lia.
Qed.

(** Growing to fit [n] more bytes leaves a run that starts at the padding and
    has [n] free cells behind it. *)
Lemma make_memory_ok b n :
  wf b → growable b = true → writed_size b < n → length_ b + 2 * n < 2 ^ 62 →
  ∃ b', make_memory b n = Ok b' ∧ wf b' ∧ readindex_ b' = padding ∧
        padding ≤ writeindex_ b' ∧ n ≤ length_ b' - writeindex_ b' ∧
        contents b' = contents b.
Proof.
  intros Hwf Hg Hn Hmax. unfold make_memory.
  destruct (relocation_location_ok b Hwf Hg)
    as (b1 & -> & Hwf1 & HL & Hr & Hw & Hc).
  rewrite (proj2 (Z.ltb_ge n _)) by lia. cbn [mbind outcome_bind].
  assert (Hws0 : writed_size b1 = writed_size b).
  { pose proof (wf_readed_contents b Hwf). pose proof (wf_readed_contents b1 Hwf1).
    pose proof (sizes_add b Hwf). pose proof (sizes_add b1 Hwf1).
    rewrite Hc in *. lia. }
  assert (Hws : writed_size b1 = length_ b1 - writeindex_ b1)
    by (rewrite writed_size_wf, Hr by done; zdecide; lia).
  rewrite Hws in *. destruct b1 as [m1 L1 r1 w1].
  cbn [buf_ length_ readindex_ writeindex_] in *. subst r1. rewrite <- HL in *.
  open_wf Hwf1; [|lia]. u64_solve.
  unfold new_array. zdecide. cbn [mbind outcome_bind].
  rewrite load_Ok by lia. cbn [mbind outcome_bind].
  rewrite store_Ok by len_solve.
  eexists; split; [done|]. split.
  - wf_split. len_solve.
  - cbn [readindex_ writeindex_ length_]. split; [done|]. split; [lia|]. split; [lia|].
    rewrite <- Hc. unfold contents; cbn [buf_ length_ readindex_ writeindex_]. zdecide.
    rewrite slice_splice_inside by len_solve.
    rewrite slice_slice by lia. f_equal; lia.
Qed.

(** ** Each operation against the queue *)

(** When [append] keeps the queue: there is room, or growing is safe. *)
Definition append_safe (b : circulation_buffer) (n : Z) : bool :=
  (n <=? writed_size b) || growable b.

(** When [skip] leaves room accounting intact: the new read position does not
    fall inside the padding at the start of the block. *)
Definition skip_safe (b : circulation_buffer) (n : Z) : bool :=
  (n =? readed_size b) || (readindex_ b <=? writeindex_ b) ||
  (n <? length_ b - readindex_ b) || (length_ b - readindex_ b + padding <=? n).

(** When [peek<T>] does not shift by the full width of [T]. *)
Definition peek_safe (b : circulation_buffer) (t : utype) : bool :=
  negb ((writeindex_ b <? readindex_ b) &&
        (length_ b - readindex_ b =? Z.of_nat (sizeof t)) && (32 <=? bits t)).

Lemma append_fits b data :
  wf b → lenZ data ≤ writed_size b →
  ∃ b', append b data (lenZ data) = Ok b' ∧ wf b' ∧ length_ b' = length_ b ∧
        contents b' = contents b ++ data.
Proof.
  intros Hwf Hn. pose proof (lenZ_nonneg data).
  destruct (decide (writeindex_ b < readindex_ b)).
  - by apply append_wrapped.
  - destruct (decide (lenZ data ≤ length_ b - writeindex_ b)).
    + destruct (append_linear b data (lenZ data)) as (b' & ? & ? & ? & ? & _);
        (done || lia || eauto).
    + destruct (append_wrapping b data (lenZ data)) as (b' & ? & ? & ? & ? & _);
        (done || lia || eauto).
Qed.

Lemma append_after_grow b b' data n :
  writed_size b < n → make_memory b n = Ok b' → n ≤ writed_size b' →
  append b data n = append b' data n.
Proof.
  intros H1 H2 H3. unfold append at 1. rewrite (proj2 (Z.ltb_lt _ _)), H2 by lia.
  unfold append. by rewrite (proj2 (Z.ltb_ge _ _)) by lia.
Qed.

Lemma append_grows b data :
  wf b → writed_size b < lenZ data → growable b = true →
  length_ b + 2 * lenZ data < 2 ^ 62 →
  ∃ b', append b data (lenZ data) = Ok b' ∧ wf b' ∧
        contents b' = contents b ++ data.
Proof.
  intros Hwf Hn Hg Hmax.
  destruct (make_memory_ok b (lenZ data)) as (b1 & E & Hwf1 & Hr & Hw & Hroom & Hc);
    try done.
  assert (lenZ data ≤ writed_size b1)
    by (rewrite writed_size_wf by done; zdecide; lia).
  rewrite (append_after_grow b b1) by done.
  destruct (append_fits b1 data) as (b2 & E2 & Hwf2 & _ & Hc2); try done.
  exists b2. by rewrite Hc2, Hc.
Qed.

Lemma append_represents b q d :
  represents b q → append_safe b (lenZ d) = true →
  length_ b + 2 * lenZ d < 2 ^ 62 →
  ∃ b', append b (Some <$> d) (lenZ d) = Ok b' ∧ represents b' (q ++ d).
Proof.
  intros [Hwf Hq] Hs Hmax. unfold append_safe in Hs.
  rewrite <- (lenZ_fmap (@Some Byte.byte)) in *.
  assert (∃ b', append b (Some <$> d) (lenZ (Some <$> d)) = Ok b' ∧ wf b' ∧
                contents b' = contents b ++ (Some <$> d)) as (b' & E & Hwf' & Hc).
  { destruct (lenZ (Some <$> d) <=? writed_size b) eqn:E; zbool.
    - destruct (append_fits b (Some <$> d)) as (b' & ? & ? & ? & ?); eauto.
    - apply append_grows; done. }
  exists b'. split; [done|]. split; [done|]. by rewrite Hc, Hq, fmap_app.
Qed.

Lemma drop_contents_wrapped b n :
  wf b → writeindex_ b < readindex_ b → 0 ≤ n →
  drop (Z.to_nat n) (contents b) =
    slice (buf_ b) (readindex_ b + n) (length_ b - readindex_ b - n) ++
    slice (buf_ b) (Z.max 0 (n - (length_ b - readindex_ b)))
                   (writeindex_ b - Z.max 0 (n - (length_ b - readindex_ b))).
Proof.
  intros Hwf Hwr Hn. unfold contents. destruct b as [m L r w].
  open_wf Hwf; [lia|]. zdecide.
  rewrite skipn_app, drop_slice by lia. f_equal.
  pose proof (length_slice m r (L - r)) as HL. unfold lenZ in *.
  replace (Z.to_nat n - length (slice m r (L - r)))%nat
    with (Z.to_nat (Z.max 0 (n - (L - r)))) by lia.
  rewrite drop_slice by lia. done.
Qed.

(** [skip] moves [readindex_] in each of its four branches. *)
Definition skips_to (b : circulation_buffer) (n : Z) (b' : circulation_buffer) : Prop :=
  skip b n = Ok b' ∧ length_ b' = length_ b ∧
  contents b' = drop (Z.to_nat n) (contents b).

Lemma skip_all b :
  wf b → skips_to b (readed_size b) (retrieve_all b) ∧ wf (retrieve_all b).
Proof.
  intros Hwf. unfold skips_to, skip. rewrite Z.leb_refl, Z.ltb_irrefl.
  pose proof (wf_readed_contents b Hwf) as Hrd.
  split; [split; [done|]; split; [done|]|].
  - rewrite drop_ge by (unfold lenZ in *; lia).
    unfold contents; cbn. by rewrite Z.sub_diag.
  - destruct Hwf. unfold retrieve_all. unfold padding in *. wf_split.
Qed.

Lemma skip_linear b n :
  wf b → readindex_ b ≤ writeindex_ b → 0 ≤ n < readed_size b →
  ∃ b', skips_to b n b' ∧ wf b' ∧
        readindex_ b' ≤ writeindex_ b' ∧ writeindex_ b' = writeindex_ b ∧
        readindex_ b' = readindex_ b + n.
Proof.
  intros Hwf Hlin Hn. exists (set_readindex b (readindex_ b + n)).
  unfold skips_to, skip. zdecide. cbn [cassert mbind outcome_bind].
  unfold readed_size, contents, set_readindex in *. destruct b as [m L r w].
  open_wf Hwf; [|lia].
  rewrite (proj2 (Z.ltb_ge w r)) in * by lia. u64_solve. zdecide.
  split; [|split; [wf_split; done|split; [cbn; lia|done]]].
  split; [done|]. split; [done|].
  rewrite drop_slice by lia. f_equal; lia.
Qed.

Lemma skip_wrapped_before b n :
  wf b → writeindex_ b < readindex_ b → 0 ≤ n < length_ b - readindex_ b →
  n < readed_size b →
  ∃ b', skips_to b n b' ∧ wf b'.
Proof.
  intros Hwf Hwr Hn Hrd. exists (set_readindex b (readindex_ b + n)).
  unfold skips_to. rewrite drop_contents_wrapped by (done || lia).
  unfold skip. zdecide. cbn [cassert mbind outcome_bind].
  unfold readed_size, contents, set_readindex in *. destruct b as [m L r w].
  open_wf Hwf; [lia|].
  rewrite (proj2 (Z.ltb_lt w r)) in * by lia. u64_solve. zdecide. u64_solve.
  split; [|wf_split; done]. split; [done|]. split; [done|].
  rewrite Z.max_l by lia. f_equal; f_equal; lia.
Qed.

(** Past the end of the block the new position is [n - (length_ - readindex_)];
    the bytes are right whatever it is, the padding only when it is not inside
    the first [padding] cells. *)
Lemma skip_wrapped_past b n :
  wf b → writeindex_ b < readindex_ b → length_ b - readindex_ b ≤ n →
  n < readed_size b →
  let b' := set_readindex b (n - (length_ b - readindex_ b)) in
  skips_to b n b' ∧ readindex_ b' < writeindex_ b ∧
  (padding ≤ readindex_ b' → wf b').
Proof.
  intros Hwf Hwr Hn Hrd b'. subst b'.
  unfold skips_to. rewrite drop_contents_wrapped by (done || (destruct Hwf; lia)).
  unfold skip. zdecide. cbn [cassert mbind outcome_bind].
  unfold readed_size, contents, set_readindex in *. destruct b as [m L r w].
  open_wf Hwf; [lia|].
  rewrite (proj2 (Z.ltb_lt w r)) in * by lia. u64_solve. zdecide.
  assert (Hr' : n ⊖ L ⊕ r = n - (L - r))
    by (unfold u64; rewrite Zplus_mod_idemp_l, Z.mod_small; lia).
  rewrite Hr'. split; [|split; [lia|intros; wf_split; done]].
  split; [done|]. split; [done|].
  rewrite Z.max_r by lia. unfold slice at 2.
  replace (Z.to_nat (L - r - n)) with 0%nat by lia. done.
Qed.

Lemma skip_represents b q n :
  represents b q → 0 ≤ n ≤ lenZ q → skip_safe b n = true →
  ∃ b', skip b n = Ok b' ∧ represents b' (drop (Z.to_nat n) q) ∧
        length_ b' = length_ b.
Proof.
  intros Hrep Hn Hs. pose proof (readed_size_represents b q Hrep) as Hrd.
  destruct Hrep as [Hwf Hq].
  enough (∃ b', skips_to b n b' ∧ wf b') as (b' & (E & HL & Hc) & Hwf').
  { exists b'. split; [done|]. split; [|done]. split; [done|].
    by rewrite Hc, Hq, fmap_drop. }
  unfold skip_safe in Hs.
  destruct (decide (n = readed_size b)) as [->|]; [eexists; by apply skip_all|].
  destruct (decide (writeindex_ b < readindex_ b));
    [|destruct (skip_linear b n) as (b' & ? & ? & _); done || lia || eauto].
  destruct (decide (n < length_ b - readindex_ b));
    [apply skip_wrapped_before; done || lia|].
  destruct (skip_wrapped_past b n) as (Hb & _ & Hwf'); try done; try lia.
  eexists. split; [done|]. apply Hwf'. cbn [set_readindex readindex_].
  rewrite (proj2 (Z.eqb_neq _ _)), (proj2 (Z.leb_gt (readindex_ b) _)),
    (proj2 (Z.ltb_ge _ _)) in Hs by lia. cbn [orb] in Hs. zbool. lia.
Qed.

(** ** Reading *)

Lemma defined_fmap bs : defined (Some <$> bs) = Ok bs.
Proof. induction bs as [|b bs IH]; [done|]. cbn. by setoid_rewrite IH. Qed.

(** The window at the read position, in the two layouts. *)
Lemma window_linear b q n :
  represents b q → 0 ≤ n ≤ lenZ q →
  (writeindex_ b < readindex_ b → n ≤ length_ b - readindex_ b) →
  load (buf_ b) (readindex_ b) n = Ok (Some <$> take (Z.to_nat n) q).
Proof.
  intros Hrep Hn Hlin. pose proof (readed_size_represents b q Hrep) as Hrd.
  destruct Hrep as [Hwf Hq].
  assert (Some <$> take (Z.to_nat n) q = take (Z.to_nat n) (contents b)) as ->
    by (by rewrite Hq, fmap_take).
  unfold contents, readed_size in *. destruct b as [m L r w].
  open_wf Hwf.
  - rewrite (proj2 (Z.ltb_ge w r)) in * by lia. u64_solve.
    by rewrite load_Ok, take_slice by lia.
  - rewrite (proj2 (Z.ltb_lt w r)) in * by lia. u64_solve.
    rewrite load_Ok by lia. rewrite take_app_le, take_slice; [done|lia|].
    pose proof (length_slice m r (L - r)). unfold lenZ in *. lia.
Qed.

Lemma window_wrapped b q n :
  represents b q → writeindex_ b < readindex_ b →
  length_ b - readindex_ b ≤ n ≤ lenZ q →
  ∃ ql qr, take (Z.to_nat n) q = ql ++ qr ∧ lenZ ql = length_ b - readindex_ b ∧
    load (buf_ b) (readindex_ b) (length_ b - readindex_ b) = Ok (Some <$> ql) ∧
    load (buf_ b) 0 (n - (length_ b - readindex_ b)) = Ok (Some <$> qr).
Proof.
  intros Hrep Hwr Hn. pose proof (readed_size_represents b q Hrep) as Hrd.
  destruct Hrep as [Hwf Hq].
  assert (E : Some <$> take (Z.to_nat n) q = take (Z.to_nat n) (contents b))
    by (by rewrite Hq, fmap_take).
  unfold contents, readed_size in *. destruct b as [m L r w]. open_wf Hwf; [lia|].
  rewrite (proj2 (Z.ltb_lt w r)) in * by lia. u64_solve.
  assert (Hs : lenZ (slice m r (L - r)) = L - r) by len_solve.
  rewrite firstn_app, (take_ge (slice m r (L - r))) in E by (unfold lenZ in *; lia).
  replace (Z.to_nat n - length (slice m r (L - r)))%nat
    with (Z.to_nat (n - (L - r))) in E by (unfold lenZ in *; lia).
  rewrite take_slice in E by lia.
  apply fmap_app_inv in E as (ql & qr & Hl & Hr & E).
  exists ql, qr. rewrite !load_Ok, <- Hl, <- Hr by lia.
  split; [done|]. split; [|done]. by rewrite <- Hs, Hl, lenZ_fmap.
Qed.

(** The two halves of a wrapped integer are put back together. *)
Lemma le_combine_halves t ql qr :
  lenZ ql + lenZ qr = Z.of_nat (sizeof t) →
  negb ((lenZ ql =? Z.of_nat (sizeof t)) && (32 <=? bits t)) = true →
  (sh ← shl t (le_combine qr) (lenZ ql ⊗ 8);
   Ok ((le_combine ql + sh) mod 2 ^ bits t)) = Ok (le_combine (ql ++ qr)).
Proof.
  intros Hsz Hsafe. pose proof (lenZ_nonneg ql). pose proof (lenZ_nonneg qr).
  assert (Hb : bits t = 8 * (lenZ ql + lenZ qr)) by (unfold bits; lia).
  assert (lenZ ql + lenZ qr ≤ 8) by (rewrite Hsz; destruct t; cbn; lia).
  unfold shl. u64_solve.
  rewrite (proj2 (Z.ltb_lt _ _)) by
    (apply negb_true_iff, andb_false_iff in Hsafe as [Hs|Hs]; zbool; lia).
  cbn [mbind outcome_bind]. f_equal.
  rewrite Z.shiftl_mul_pow2, (Z.mul_comm (lenZ ql)), le_combine_app_sum by lia.
  pose proof (le_combine_range (ql ++ qr)) as Hr.
  rewrite lenZ_app, <- Hb, le_combine_app_sum in Hr.
  pose proof (le_combine_range ql). pose proof (le_combine_range qr).
  pose proof (Z.pow_pos_nonneg 2 (8 * lenZ ql)).
  assert (2 ^ bits t ≤ 2 ^ Z.max 32 (bits t)) by (apply Z.pow_le_mono_r; lia).
  rewrite (Z.mod_small (_ * _)) by nia.
  rewrite Z.mod_small by nia. lia.
Qed.

Lemma peek_represents b q t :
  represents b q → Z.of_nat (sizeof t) ≤ lenZ q → peek_safe b t = true →
  peek b t = Ok (be_combine (take (sizeof t) q)).
Proof.
  intros Hrep Hn Hs. unfold peek.
  pose proof (readed_size_represents b q Hrep) as Hrd.
  rewrite Hrd, (proj2 (Z.leb_le (Z.of_nat (sizeof t)) (lenZ q))) by lia.
  cbn [cassert mbind outcome_bind].
  assert (Hlen : length (take (sizeof t) q) = sizeof t)
    by (rewrite length_take; unfold lenZ in Hn; lia).
  pose proof (window_linear b q (Z.of_nat (sizeof t)) Hrep) as Hlin.
  pose proof (window_wrapped b q (Z.of_nat (sizeof t)) Hrep) as Hwrap.
  rewrite Nat2Z.id in *. unfold peek_safe in Hs.
  destruct (writeindex_ b <? readindex_ b) eqn:Ew; zbool.
  - assert (HL : length_ b ⊖ readindex_ b = length_ b - readindex_ b).
    { destruct Hrep as [Hwf _], b as [m L r w]. open_wf Hwf; u64_solve; lia. }
    rewrite HL. destruct (Z.of_nat (sizeof t) <? length_ b - readindex_ b) eqn:E; zbool.
    + rewrite Hlin by lia. cbn [mbind outcome_bind].
      rewrite defined_fmap. cbn [mbind outcome_bind].
      by rewrite network2host_stream.
    + destruct (Hwrap Ew ltac:(lia)) as (ql & qr & Hq & Hql & -> & Hr).
      rewrite <- Hql in *.
      rewrite (u64_small (Z.of_nat (sizeof t) - lenZ ql))
        by (pose proof (lenZ_nonneg ql); destruct t; cbn in *; lia).
      cbn [mbind outcome_bind]. rewrite defined_fmap.
      cbn [mbind outcome_bind]. rewrite Hr.
      cbn [mbind outcome_bind]. rewrite defined_fmap. cbn [mbind outcome_bind].
      pose proof (le_combine_halves t ql qr) as HH.
      cbn [mbind outcome_bind] in HH. 
      rewrite HH; [|rewrite <- lenZ_app, <- Hq; unfold lenZ; lia|apply negb_true_iff; exact Hs].
      cbn [mbind outcome_bind]. by rewrite <- Hq, network2host_stream.
  - assert (HL : writeindex_ b ⊖ readindex_ b = lenZ q).
    { rewrite <- Hrd. unfold readed_size. by rewrite (proj2 (Z.ltb_ge _ _)). }
    rewrite HL, (proj2 (Z.leb_le (Z.of_nat (sizeof t)) (lenZ q))) by lia. cbn [cassert mbind outcome_bind].
    rewrite Hlin by lia. cbn [mbind outcome_bind].
    rewrite defined_fmap. cbn [mbind outcome_bind]. by rewrite network2host_stream.
Qed.

(** ** The abstract specification: a queue of bytes *)

(** The interface of the class, one constructor per public operation. *)
Inductive op : Type :=
| OpAppend (d : list Byte.byte)
| OpPeek (t : utype)
| OpSkip (n : Z)
| OpRetrieveAll
| OpReadedSize.

Module QueueSpec.
(** What each operation promises, on the plain list of unread bytes. *)
Definition exec (q : list Byte.byte) (o : op) : outcome (list Byte.byte * option Z) :=
  match o with
  | OpAppend d => Ok (q ++ d, None)
  | OpPeek t =>
      if Z.of_nat (sizeof t) <=? lenZ q
      then Ok (q, Some (be_combine (take (sizeof t) q))) else AssertFail
  | OpSkip n => if n <=? lenZ q then Ok (drop (Z.to_nat n) q, None) else AssertFail
  | OpRetrieveAll => Ok ([], None)
  | OpReadedSize => Ok (q, Some (lenZ q))
  end.

Fixpoint run (q : list Byte.byte) (os : list op)
    : outcome (list Byte.byte * list (option Z)) :=
  match os with
  | [] => Ok (q, [])
  | o :: os =>
      '(q, v) ← exec q o;
      '(q, vs) ← run q os;
      Ok (q, v :: vs)
  end.
End QueueSpec.

(** The same operations on the ring buffer. *)
Definition exec (b : circulation_buffer) (o : op) : outcome (circulation_buffer * option Z) :=
  match o with
  | OpAppend d => b ← append b (Some <$> d) (lenZ d); Ok (b, None)
  | OpPeek t => v ← peek b t; Ok (b, Some v)
  | OpSkip n => b ← skip b n; Ok (b, None)
  | OpRetrieveAll => Ok (retrieve_all b, None)
  | OpReadedSize => Ok (b, Some (readed_size b))
  end.

Fixpoint run (b : circulation_buffer) (os : list op)
    : outcome (circulation_buffer * list (option Z)) :=
  match os with
  | [] => Ok (b, [])
  | o :: os =>
      '(b, v) ← exec b o;
      '(b, vs) ← run b os;
      Ok (b, v :: vs)
  end.

(** The operations that are safe in a state, as a computable check. *)
Definition op_safe (b : circulation_buffer) (o : op) : bool :=
  match o with
  | OpAppend d => append_safe b (lenZ d) && (length_ b + 2 * lenZ d <? 2 ^ 62)
  | OpPeek t => peek_safe b t
  | OpSkip n => (0 <=? n) && ((readed_size b <? n) || skip_safe b n)
  | OpRetrieveAll | OpReadedSize => true
  end.

Fixpoint safe_run (b : circulation_buffer) (os : list op) : bool :=
  match os with
  | [] => true
  | o :: os =>
      op_safe b o && match exec b o with Ok (b', _) => safe_run b' os | _ => true end
  end.

Definition sim {V} (p : circulation_buffer * V) (s : list Byte.byte * V) : Prop :=
  represents p.1 s.1 ∧ p.2 = s.2.

Lemma peek_assert b t :
  readed_size b < Z.of_nat (sizeof t) → peek b t = AssertFail.
Proof. intros H. unfold peek.
  by rewrite (proj2 (Z.leb_gt (Z.of_nat (sizeof t)) (readed_size b))).
Qed.

Lemma skip_assert b n : readed_size b < n → skip b n = AssertFail.
Proof. intros H. unfold skip. by rewrite (proj2 (Z.leb_gt n (readed_size b))). Qed.

Lemma retrieve_all_represents b q : represents b q → represents (retrieve_all b) [].
Proof.
  intros [Hwf _]. destruct (skip_all b Hwf) as [(_ & _ & Hc) Hwf'].
  split; [done|]. rewrite Hc. apply drop_ge.
  pose proof (wf_readed_contents b Hwf). unfold lenZ in *. lia.
Qed.

Lemma exec_refines b q o :
  represents b q → op_safe b o = true → orel sim (exec b o) (QueueSpec.exec q o).
Proof.
  intros Hrep Hs. pose proof (readed_size_represents b q Hrep) as Hrd.
  destruct o as [d|t|n| |]; cbn [exec QueueSpec.exec op_safe] in *.
  - zbool. destruct (append_represents b q d) as (b' & -> & Hb'); done.
  - destruct (Z.of_nat (sizeof t) <=? lenZ q) eqn:E; zbool.
    + by rewrite (peek_represents b q).
    + by rewrite peek_assert by lia.
  - destruct (n <=? lenZ q) eqn:E; zbool.
    + rewrite (proj2 (Z.ltb_ge (readed_size b) n)) in * by lia.
      destruct (skip_represents b q n) as (b' & -> & Hb' & _); try done.
    + by rewrite skip_assert by lia.
  - split; [by eapply retrieve_all_represents|done].
  - split; [done|]. cbn. by rewrite Hrd.
Qed.

Lemma run_refines b q os :
  represents b q → safe_run b os = true → orel sim (run b os) (QueueSpec.run q os).
Proof.
  revert b q. induction os as [|o os IH]; intros b q Hrep Hs; [done|].
  cbn [run QueueSpec.run safe_run] in *. apply andb_prop in Hs as [Ho Hos].
  pose proof (exec_refines b q o Hrep Ho) as Hsim.
  destruct (exec b o) as [[b' v]| | | | |], (QueueSpec.exec q o) as [[q' v']| | | | |];
    cbn in Hsim |- *; try done.
  destruct Hsim as [Hrep' Hv]. cbn in Hrep', Hv. subst v'.
  eapply orel_bind; [by apply IH|].
  intros [b2 vs] [q2 vs'] [? ?]. cbn in *. subst. by split.
Qed.

(** ** A static discipline

    A buffer that is only given, over its life, as many bytes as fit behind the
    padding never wraps and never grows: every sequence of operations on it is
    safe, with no condition on the state to check. *)

Fixpoint total_append (os : list op) : Z :=
  match os with
  | [] => 0
  | OpAppend d :: os => lenZ d + total_append os
  | _ :: os => total_append os
  end.

Definition valid_op (o : op) : Prop :=
  match o with OpSkip n => 0 ≤ n | _ => True end.

Lemma total_append_nonneg os : 0 ≤ total_append os.
Proof.
  induction os as [|[d| | | |] os IH]; cbn [total_append]; try lia.
  pose proof (lenZ_nonneg d). lia.
Qed.

Lemma exec_linear b o os :
  wf b → readindex_ b ≤ writeindex_ b → valid_op o → 3 * length_ b < 2 ^ 62 →
  writeindex_ b + total_append (o :: os) ≤ length_ b →
  op_safe b o = true ∧
  ∀ b' v, exec b o = Ok (b', v) →
    wf b' ∧ readindex_ b' ≤ writeindex_ b' ∧ length_ b' = length_ b ∧
    writeindex_ b' + total_append os ≤ length_ b'.
Proof.
  intros Hwf Hlin Hval Hcap Hbud. pose proof (total_append_nonneg os) as Hos.
  assert (Hw0 : padding ≤ writeindex_ b) by (destruct Hwf; unfold padding in *; lia).
  destruct o as [d|t|n| |]; cbn [exec op_safe total_append valid_op] in *.
  - pose proof (lenZ_nonneg d) as Hd0.
    assert (Hroom : lenZ d ≤ writed_size b).
    { rewrite writed_size_wf by done. destruct Hwf. zdecide. lia. }
    split.
    + unfold append_safe. rewrite (proj2 (Z.leb_le _ _) Hroom).
      cbn [orb andb]. apply Z.ltb_lt. unfold padding in *. lia.
    + destruct (append_linear b (Some <$> d) (lenZ d))
        as (b' & -> & Hwf' & HL & _ & Hr & Hw);
        try done; try (by rewrite lenZ_fmap); try lia.
      intros ? ? [= <- <-]. split; [done|]. lia.
  - split; [unfold peek_safe; zdecide; done|].
    intros b' v E. destruct (peek b t); try discriminate. injection E as <- <-.
    split; [done|]; lia.
  - split; [unfold skip_safe; zdecide; by rewrite !orb_true_r|].
    intros b' v E. destruct (skip b n) as [b2| | | | |] eqn:Es; try discriminate.
    injection E as <- <-.
    destruct (Z.lt_total (readed_size b) n) as [H|[H|H]];
      [by rewrite skip_assert in Es by lia| |].
    + subst n. destruct (skip_all b Hwf) as [(E' & HL & _) Hwf'].
      rewrite Es in E'. injection E' as ->. split; [done|].
      unfold retrieve_all; cbn. unfold padding in *. lia.
    + destruct (skip_linear b n) as (b' & (E' & HL & _) & Hwf' & ? & ?); try done; try lia.
      rewrite Es in E'. injection E' as ->. split; [done|]. lia.
  - split; [done|]. intros ? ? [= <- <-].
    destruct (skip_all b Hwf) as [_ Hwf']. split; [done|]. cbn. unfold padding in *. lia.
  - split; [done|]. intros ? ? [= <- <-]. split; [done|]; lia.
Qed.

Lemma linear_safe_run os b :
  wf b → readindex_ b ≤ writeindex_ b → Forall valid_op os → 3 * length_ b < 2 ^ 62 →
  writeindex_ b + total_append os ≤ length_ b → safe_run b os = true.
Proof.
  revert b. induction os as [|o os IH]; intros b Hwf Hlin Hval Hcap Hbud; [done|].
  inversion Hval; subst. cbn [safe_run].
  destruct (exec_linear b o os) as [-> Hnext]; try done. cbn [andb].
  destruct (exec b o) as [[b' v]| | | | |]; try done.
  destruct (Hnext b' v eq_refl) as (? & ? & HL & ?). apply IH; try done; lia.
Qed.

(** ** Properties *)

Lemma circulation_buffer_new_represents L :
  padding ≤ L < 2 ^ 62 →
  ∃ b, circulation_buffer_new L = Ok b ∧ represents b [] ∧
       length_ b = L ∧ readindex_ b = padding ∧ writeindex_ b = padding.
Proof.
  intros HL. unfold circulation_buffer_new, new_array.
  rewrite (proj2 (Z.ltb_lt _ _)) by lia. eexists; split; [done|].
  split; [|done]. unfold padding in *. split; [|done]. wf_split. len_solve.
Qed.

(** C1: Refinement.  From construction with a length of at least the padding
    ([4 <= L < 2^62]; a shorter block has no cell behind the padding) on, any
    sequence of [append], [peek<T>], [skip], [retrieve_all] and [readed_size]
    whose steps pass the computable check [op_safe] behaves as the same sequence on a queue of bytes: same
    values, same failing assertions, and the same unread bytes at the end. *)
Theorem buffer_refines_queue L os b :
  padding ≤ L < 2 ^ 62 → circulation_buffer_new L = Ok b → safe_run b os = true →
  orel sim (run b os) (QueueSpec.run [] os).
Proof.
  intros HL Hb Hs. destruct (circulation_buffer_new_represents L HL) as (b' & E & Hrep & _).
  rewrite Hb in E. injection E as <-. by apply run_refines.
Qed.

(** C8: Static discipline.  When the bytes appended over the life of a buffer
    of capacity [L] fit behind the padding, no step needs a check: every
    sequence behaves as on a queue, whatever is peeked or skipped. *)
Theorem buffer_budget_refines_queue L os b :
  padding ≤ L < 2 ^ 60 → circulation_buffer_new L = Ok b → Forall valid_op os →
  padding + total_append os ≤ L →
  orel sim (run b os) (QueueSpec.run [] os).
Proof.
  intros HL Hb Hval Hbud.
  destruct (circulation_buffer_new_represents L ltac:(lia)) as (b' & E & Hrep & HL' & Hr & Hw).
  rewrite Hb in E. injection E as <-. apply run_refines; [done|].
  apply linear_safe_run; [apply Hrep|lia|done|lia|lia].
Qed.

(** Accounting.  In a well-formed buffer [readed_size] is the number of
    unread bytes, and [readed_size + writed_size] is the capacity less the
    padding, so a full buffer still keeps [padding] cells between its two
    ends. *)
Theorem buffer_accounting b :
  wf b →
  readed_size b = lenZ (contents b) ∧
  readed_size b + writed_size b = length_ b - padding ∧
  0 ≤ readed_size b ∧ 0 ≤ writed_size b.
Proof.
  intros Hwf. pose proof (sizes_add b Hwf). pose proof (wf_readed_contents b Hwf).
  pose proof (lenZ_nonneg (contents b)).
  assert (0 ≤ writed_size b); [|lia].
  rewrite writed_size_wf by done. destruct b as [m L r w]. open_wf Hwf; zdecide; lia.
Qed.

(** Growth.  From a growable state, [append] of more bytes than there is
    room for reallocates and still ends with exactly the old unread bytes
    followed by the new ones. *)
Theorem append_growth_keeps_bytes b q d :
  represents b q → writed_size b < lenZ d → growable b = true →
  length_ b + 2 * lenZ d < 2 ^ 62 →
  ∃ b', append b (Some <$> d) (lenZ d) = Ok b' ∧ represents b' (q ++ d) ∧
        length_ b < length_ b' ∧ 0 ≤ writed_size b'.
Proof.
  intros Hrep Hn Hg Hmax.
  destruct (append_represents b q d) as (b' & E & Hrep'); try done.
  { unfold append_safe. by rewrite Hg, orb_true_r. }
  exists b'. split; [done|]. split; [done|].
  pose proof (readed_size_represents b q Hrep) as Hr1.
  pose proof (readed_size_represents b' _ Hrep') as Hr2. rewrite lenZ_app in Hr2.
  destruct Hrep as [Hwf _], Hrep' as [Hwf' _].
  pose proof (sizes_add b Hwf). pose proof (sizes_add b' Hwf').
  assert (0 ≤ writed_size b'); [|lia].
  rewrite writed_size_wf by done. destruct b' as [m L r w]. open_wf Hwf'; zdecide; lia.
Qed.

(** Finding.  When [skip] crosses the end of the block and stops inside the
    first [padding] cells, [readindex_ - padding] wraps around in [writed_size]:
    the free space reads as more than [2^63] bytes, the growth test of [append]
    is defeated, and a long append writes past the end of the block. *)
Theorem skip_into_padding_overflows b n data :
  wf b → writeindex_ b < readindex_ b →
  length_ b - readindex_ b ≤ n → n < length_ b - readindex_ b + padding →
  n < readed_size b → 2 * length_ b ≤ lenZ data < 2 ^ 62 →
  ∃ b', skip b n = Ok b' ∧ 2 ^ 63 < writed_size b' ∧
        append b' data (lenZ data) = Undef OutOfBounds.
Proof.
  intros Hwf Hwr Hn1 Hn2 Hn Hd.
  destruct (skip_wrapped_past b n) as ((E & _) & Hlt & _); try done.
  exists (set_readindex b (n - (length_ b - readindex_ b))). split; [done|].
  unfold set_readindex in *. destruct b as [m L r w]. open_wf Hwf; [lia|].
  set (r' := n - (L - r)) in *.
  assert (Hws : writed_size {| buf_ := m; length_ := L; readindex_ := r'; writeindex_ := w |}
                = r' - 4 + 2 ^ 64 - w).
  { unfold writed_size, padding; cbn [length_ readindex_ writeindex_].
    rewrite (u64_wrap_neg (r' - 4)) by lia. zdecide. u64_solve. lia. }
  split; [lia|]. unfold append. rewrite Hws.
  rewrite (proj2 (Z.ltb_ge _ _)) by lia. cbn [mbind outcome_bind].
  cbn [buf_ length_ readindex_ writeindex_]. rewrite (u64_small (L - w)) by lia. zdecide.
  rewrite (load_Ok data 0) by lia. cbn [mbind outcome_bind].
  rewrite store_Ok by len_solve. cbn [mbind outcome_bind].
  u64_solve. rewrite load_Ok by lia. cbn [mbind outcome_bind].
  rewrite store_Undef; [done|right; len_solve].
Qed.

(** Finding.  Growing a buffer whose unread run does not start at the
    padding copies [writeindex_] cells from [readindex_ - padding]; when that
    runs past the block the copy reads out of bounds. *)
Theorem growth_reads_past_block b data n :
  wf b → readindex_ b ≤ writeindex_ b → writed_size b < n < 2 ^ 61 →
  length_ b < readindex_ b - padding + writeindex_ b →
  append b data n = Undef OutOfBounds.
Proof.
  intros Hwf Hlin Hn Hpast. pose proof (wf_cap b Hwf) as Hcap.
  assert (0 ≤ writed_size b ≤ length_ b).
  { rewrite writed_size_wf by done. destruct b as [m L r w]. open_wf Hwf; zdecide; lia. }
  unfold append. rewrite (proj2 (Z.ltb_lt (writed_size b) n)) by lia.
  unfold make_memory. rewrite (proj2 (Z.ltb_ge n (writed_size b))) by lia.
  unfold relocation_location. rewrite (proj2 (Z.ltb_ge (writeindex_ b) _)) by lia.
  cbn [mbind outcome_bind]. u64_solve. unfold new_array.
  rewrite (proj2 (Z.ltb_lt _ (2 ^ 63))) by lia. cbn [mbind outcome_bind].
  rewrite (load_Undef (buf_ b)); [done|]. rewrite wf_len by done. lia.
Qed.

(** Finding.  In the branch of [relocation_location] that keeps a copy of
    the bytes at the start of the block, [readindex_] is reset before it is
    used to compute [writeindex_], so the number of unread bytes changes
    (unless [readindex_] happened to be twice the padding). *)
Theorem relocation_miscounts b :
  wf b → writeindex_ b < readindex_ b → writeindex_ b < length_ b - readindex_ b →
  readindex_ b ≠ 2 * padding →
  ∃ b', relocation_location b = Ok b' ∧ readed_size b' ≠ readed_size b.
Proof.
  intros Hwf Hwr Hs Hr. unfold relocation_location, readed_size.
  destruct b as [m L r w]. open_wf Hwf; [lia|]. u64_solve. zdecide.
  rewrite load_Ok by lia. cbn [mbind outcome_bind].
  rewrite load_Ok by lia. cbn [mbind outcome_bind].
  rewrite store_Ok by len_solve. cbn [mbind outcome_bind].
  rewrite store_Ok by len_solve. u64_solve.
  eexists; split; [done|]. cbn [buf_ length_ readindex_ writeindex_].
  destruct (L - 4 + w <? 4) eqn:E; zbool; u64_solve; lia.
Qed.

(** Finding.  [peek<T>] on a run that wraps exactly [sizeof(T)] bytes
    before the end of the block shifts by the full width of [T]: undefined
    behaviour at 32 and 64 bits, where the type is not promoted. *)
Theorem peek_full_width_shift b q t :
  represents b q → writeindex_ b < readindex_ b →
  length_ b - readindex_ b = Z.of_nat (sizeof t) → 32 ≤ bits t →
  Z.of_nat (sizeof t) ≤ lenZ q →
  peek b t = Undef BadShift.
Proof.
  intros Hrep Hwr HL Ht Hn. pose proof (readed_size_represents b q Hrep) as Hrd.
  destruct (window_wrapped b q (Z.of_nat (sizeof t)) Hrep) as (ql & qr & _ & Hql & Hl & Hr);
    try done; try lia.
  rewrite HL, ?Z.sub_diag in *. unfold peek.
  rewrite (proj2 (Z.leb_le _ (readed_size b))), (proj2 (Z.ltb_lt _ (readindex_ b))) by lia.
  cbn [cassert mbind outcome_bind].
  rewrite HL, (u64_small (Z.of_nat _)) by (destruct t; cbn; lia).
  rewrite Z.ltb_irrefl, Hl. cbn [mbind outcome_bind].
  rewrite defined_fmap. cbn [mbind outcome_bind].
  rewrite Z.sub_diag, (u64_small 0), Hr by lia. cbn [mbind outcome_bind].
  rewrite defined_fmap. cbn [mbind outcome_bind]. unfold shl.
  rewrite (u64_small (_ * 8)) by (destruct t; cbn; lia).
  by rewrite (proj2 (Z.ltb_ge _ _)) by (unfold bits in *; lia).
Qed.

(** ** Concrete runs *)

Definition zeros (n : nat) : list cell := replicate n (Some Byte.x00).
Definition ascii_bytes (l : list Z) : list Byte.byte := byte.of_Z <$> l.

(** The operations of [test/buffer/buffer.ts.cpp] on a 20-byte buffer. *)
Definition ts_ops : list op :=
  let digits := ascii_bytes [49; 50; 51; 52; 53; 54; 55; 56; 57; 48] in
  let down := ascii_bytes [52; 51; 50; 49] in
  [OpAppend digits; OpPeek uint8_t; OpPeek uint64_t; OpSkip 8; OpPeek uint16_t;
   OpAppend digits; OpAppend down; OpSkip 6; OpPeek uint64_t; OpAppend down; OpSkip 10].

Definition fresh (L : Z) : circulation_buffer :=
  {| buf_ := zeros (Z.to_nat L); length_ := L; readindex_ := padding; writeindex_ := padding |}.

Lemma buffer_refines_queue_witness :
  safe_run (fresh 20) ts_ops = true ∧
  orel sim (run (fresh 20) ts_ops) (QueueSpec.run [] ts_ops) ∧
  ∃ b, run (fresh 20) ts_ops =
       Ok (b, [None; Some 0x31; Some 0x3132333435363738; None; Some 0x3930;
               None; None; None; Some 0x3536373839303433; None; None]).
Proof.
  split; [vm_compute; reflexivity|]. split.
  - apply (buffer_refines_queue 20); [unfold padding; lia|reflexivity|vm_compute; reflexivity].
  - eexists. vm_compute. reflexivity.
Defined.

Definition budget_ops : list op :=
  [OpAppend (ascii_bytes [1; 2; 3; 4; 5]); OpSkip 2; OpAppend (ascii_bytes [6; 7]);
   OpPeek uint32_t; OpSkip 5; OpReadedSize].

Lemma buffer_budget_refines_queue_witness :
  orel sim (run (fresh 16) budget_ops) (QueueSpec.run [] budget_ops) ∧
  snd <$> (match QueueSpec.run [] budget_ops with Ok p => Some p | _ => None end) =
    Some [None; None; None; Some 0x03040506; None; Some 0].
Proof.
  split; [|vm_compute; reflexivity].
  apply (buffer_budget_refines_queue 16);
    [unfold padding; lia|reflexivity|repeat constructor; cbn; lia|vm_compute; discriminate].
Defined.

(** A wrapped buffer of 20 cells: two unread bytes at the end, eight at the start. *)
Definition wrapped20 : circulation_buffer :=
  {| buf_ := zeros 20; length_ := 20; readindex_ := 18; writeindex_ := 8 |}.

Ltac wf_concrete := constructor; [reflexivity|unfold padding; cbn; lia..].

Lemma wrapped20_wf : wf wrapped20.
Proof. wf_concrete. Defined.

Lemma buffer_accounting_witness :
  readed_size wrapped20 = lenZ (contents wrapped20) ∧
  readed_size wrapped20 + writed_size wrapped20 = 16 ∧
  0 ≤ readed_size wrapped20 ∧ 0 ≤ writed_size wrapped20.
Proof. exact (buffer_accounting wrapped20 wrapped20_wf). Defined.

Lemma append_growth_keeps_bytes_witness :
  ∃ b', append wrapped20 (Some <$> replicate 9 Byte.x01) 9 = Ok b' ∧
        represents b' (replicate 10 Byte.x00 ++ replicate 9 Byte.x01) ∧
        20 < length_ b' ∧ 0 ≤ writed_size b'.
Proof.
  apply (append_growth_keeps_bytes wrapped20 (replicate 10 Byte.x00) (replicate 9 Byte.x01));
    [split; [exact wrapped20_wf|reflexivity]|reflexivity|reflexivity|reflexivity].
Defined.

Lemma skip_into_padding_overflows_witness :
  ∃ b', skip wrapped20 3 = Ok b' ∧ 2 ^ 63 < writed_size b' ∧
        append b' (zeros 40) 40 = Undef OutOfBounds.
Proof.
  apply (skip_into_padding_overflows wrapped20 3 (zeros 40) wrapped20_wf);
    vm_compute; try split; congruence.
Defined.

Definition linear20 : circulation_buffer :=
  {| buf_ := zeros 20; length_ := 20; readindex_ := 12; writeindex_ := 14 |}.

Lemma growth_reads_past_block_witness : append linear20 (zeros 30) 30 = Undef OutOfBounds.
Proof.
  apply (growth_reads_past_block linear20);
    [wf_concrete|..]; vm_compute; try split; congruence.
Defined.

Definition wrapped40 : circulation_buffer :=
  {| buf_ := zeros 40; length_ := 40; readindex_ := 18; writeindex_ := 8 |}.

Lemma relocation_miscounts_witness :
  ∃ b', relocation_location wrapped40 = Ok b' ∧ readed_size b' ≠ readed_size wrapped40.
Proof.
  apply (relocation_miscounts wrapped40);
    [wf_concrete|..]; vm_compute; congruence.
Defined.

Definition wrapped_at8 : circulation_buffer :=
  {| buf_ := zeros 20; length_ := 20; readindex_ := 12; writeindex_ := 8 |}.

Lemma peek_full_width_shift_witness : peek wrapped_at8 uint64_t = Undef BadShift.
Proof.
  apply (peek_full_width_shift wrapped_at8 (replicate 16 Byte.x00));
    [split; [wf_concrete|reflexivity]|..];
    vm_compute; congruence.
Defined.

(** From construction, [append d1; skip (L - 6)] with [L - 5] bytes leaves one
    unread byte in the last cell but one. *)
Lemma one_byte_left L b d1 :
  10 ≤ L < 2 ^ 60 → circulation_buffer_new L = Ok b → lenZ d1 = L - 5 →
  ∃ b', (∀ os, run b (OpAppend d1 :: OpSkip (L - 6) :: os) =
               '(c, vs) ← run b' os; Ok (c, None :: None :: vs)) ∧
        wf b' ∧ length_ b' = L ∧ readindex_ b' = L - 2 ∧ writeindex_ b' = L - 1.
Proof.
  intros HL Hb Hd. unfold padding in *.
  destruct (circulation_buffer_new_represents L) as (b0 & E & [Hwf _] & HL0 & Hr0 & Hw0);
    [unfold padding; lia|]. rewrite Hb in E. injection E as <-. unfold padding in *.
  destruct (append_linear b (Some <$> d1) (lenZ d1))
    as (b1 & E1 & Hwf1 & HL1 & _ & Hr1 & Hw1);
    [done|lia|lia|by rewrite lenZ_fmap|].
  destruct (skip_linear b1 (L - 6)) as (b2 & (E2 & HL2 & _) & Hwf2 & _ & Hw2 & Hr2);
    [done|lia| |].
  { unfold readed_size. zdecide. u64_solve. lia. }
  exists b2. split; [|split; [done|lia]].
  intros os. cbn [run exec]. rewrite E1. cbn [mbind outcome_bind].
  rewrite E2. cbn [mbind outcome_bind]. by destruct (run b2 os) as [[? ?]| | | | |].
Qed.

(** Five more bytes wrap, and skipping three of the six unread bytes stops inside
    the padding at the start of the block. *)
Lemma skip_then_overflow L b d2 d3 :
  wf b → 10 ≤ L → length_ b = L → readindex_ b = L - 2 → writeindex_ b = L - 1 →
  lenZ d2 = 5 → 2 * L ≤ lenZ d3 < 2 ^ 60 →
  run b [OpAppend d2; OpSkip 3; OpAppend d3] = Undef OutOfBounds.
Proof.
  intros Hwf HL HLb Hr Hw Hd2 Hd3.
  destruct (append_wrapping b (Some <$> d2) (lenZ d2))
    as (b1 & E1 & Hwf1 & HL1 & _ & Hr1 & Hw1); [done|lia| |by rewrite lenZ_fmap|].
  { rewrite writed_size_wf by done. unfold padding. zdecide. lia. }
  pose proof (wf_cap b1 Hwf1).
  destruct (skip_into_padding_overflows b1 3 (Some <$> d3)) as (b2 & E2 & _ & E3);
    [done|lia|lia|unfold padding; lia| |rewrite lenZ_fmap; lia|].
  { unfold readed_size. zdecide. u64_solve. lia. }
  rewrite lenZ_fmap in E3. cbn [run exec]. rewrite E1. cbn [mbind outcome_bind].
  rewrite E2. cbn [mbind outcome_bind]. by rewrite E3.
Qed.

Lemma queue_append_skip q d n os :
  0 ≤ n ≤ lenZ q + lenZ d →
  QueueSpec.run q (OpAppend d :: OpSkip n :: os) =
    '(q', vs) ← QueueSpec.run (drop (Z.to_nat n) (q ++ d)) os; Ok (q', None :: None :: vs).
Proof.
  intros Hn. cbn [QueueSpec.run QueueSpec.exec mbind outcome_bind].
  rewrite (proj2 (Z.leb_le n _)) by (rewrite lenZ_app; lia). cbn [mbind outcome_bind].
  by destruct (QueueSpec.run _ os) as [[? ?]| | | | |].
Qed.

(** A block shorter than the padding: the free space wraps around, so that
    [append] does not grow, and it writes at the fourth cell of a block that
    has no such cell. *)
Lemma append_below_padding L b d :
  0 ≤ L < padding → circulation_buffer_new L = Ok b → 0 < lenZ d < 2 ^ 62 →
  append b (Some <$> d) (lenZ d) = Undef OutOfBounds.
Proof.
  unfold padding. intros HL Hb Hd. unfold circulation_buffer_new, new_array in Hb.
  rewrite (proj2 (Z.ltb_lt _ _)) in Hb by lia. injection Hb as <-.
  assert (Hfree : L ⊖ 4 = 2 ^ 64 + L - 4) by (rewrite u64_wrap_neg; lia).
  unfold append, writed_size. cbn [buf_ length_ readindex_ writeindex_]. unfold padding.
  rewrite (u64_small (4 - 4)) by lia. zdecide.
  assert (Hws : L ⊖ 4 ⊕ 4 ⊖ 4 = 2 ^ 64 + L - 4).
  { rewrite Hfree. replace (u64 (2 ^ 64 + L - 4 + 4)) with L; [done|].
    unfold u64. replace (2 ^ 64 + L - 4 + 4) with (L + 1 * 2 ^ 64) by lia.
    rewrite Z.mod_add, Z.mod_small; lia. }
  rewrite Hws, (proj2 (Z.ltb_ge _ _)) by lia. cbn [mbind outcome_bind].
  cbn [buf_ length_ readindex_ writeindex_]. rewrite Hfree.
  rewrite (proj2 (Z.leb_le (lenZ d) _)) by lia. cbn [andb Z.leb Z.compare Pos.compare].
  rewrite load_Ok by (rewrite ?lenZ_fmap; lia). cbn [mbind outcome_bind].
  rewrite store_Undef; [done|right].
  rewrite length_slice, lenZ_replicate by (rewrite ?lenZ_fmap; lia). lia.
Qed.

(** C39: Faults behind the interface.  A buffer constructed with any length
    [10 <= L < 2^60] is driven outside its block by two short sequences of
    public calls, whatever the bytes are, on which a queue of bytes has a
    result: append [L - 5] bytes, skip [L - 6], append five, skip three and
    append at least twice the length writes past the block (the skip left
    [readindex_] inside the padding and the growth test sees free space of more
    than [2^63]); append [L - 5] bytes, skip [L - 6] and append at least twice
    the length reads past the block while growing.  A buffer constructed with a
    length below the padding writes outside its block at the first append. *)
Theorem buffer_faults_reachable L b d1 d2 d3 :
  0 ≤ L < 2 ^ 60 → circulation_buffer_new L = Ok b → 2 * L ≤ lenZ d3 < 2 ^ 60 →
  let wrapped := [OpAppend d1; OpSkip (L - 6); OpAppend d2; OpSkip 3; OpAppend d3] in
  let grown := [OpAppend d1; OpSkip (L - 6); OpAppend d3] in
  (10 ≤ L → lenZ d1 = L - 5 → lenZ d2 = 5 →
     run b wrapped = Undef OutOfBounds ∧
     QueueSpec.run [] wrapped = Ok (drop 3 (drop (Z.to_nat (L - 6)) d1 ++ d2) ++ d3,
                                    replicate 5 None) ∧
     run b grown = Undef OutOfBounds ∧
     QueueSpec.run [] grown = Ok (drop (Z.to_nat (L - 6)) d1 ++ d3, replicate 3 None)) ∧
  (L < padding → d3 ≠ [] → run b [OpAppend d3] = Undef OutOfBounds).
Proof.
  intros HL Hb Hd3 wrapped grown. split.
  - intros HL10 Hd1 Hd2.
    destruct (one_byte_left L b d1) as (b1 & Hrun & Hwf & HL1 & Hr & Hw); [lia|done..|].
    assert (Hws : writed_size b1 = L - 5)
      by (rewrite writed_size_wf by done; unfold padding; zdecide; lia).
    subst wrapped grown.
    rewrite !Hrun, (skip_then_overflow L) by (done || lia).
    rewrite !queue_append_skip by (unfold lenZ in *; rewrite ?length_drop; cbn; lia).
    split; [done|]. split; [done|]. split; [|done].
    cbn [run exec]. by rewrite (growth_reads_past_block b1) by (done || unfold padding; lia).
  - intros Hp Hne. cbn [run exec]. rewrite (append_below_padding L); [done|unfold padding in *; lia|done|].
    destruct d3; [done|]. unfold lenZ in *. cbn [length] in *. lia.
Qed.

Lemma buffer_faults_reachable_witness :
  run (fresh 20) [OpAppend (replicate 15 Byte.x01); OpSkip 14;
                  OpAppend (replicate 5 Byte.x02); OpSkip 3;
                  OpAppend (replicate 40 Byte.x03)] = Undef OutOfBounds ∧
  run (fresh 0) [OpAppend (replicate 1 Byte.x01)] = Undef OutOfBounds.
Proof.
  split.
  - apply (buffer_faults_reachable 20 (fresh 20) (replicate 15 Byte.x01) (replicate 5 Byte.x02)
             (replicate 40 Byte.x03)); done || (vm_compute; split; congruence) || lia.
  - apply (buffer_faults_reachable 0 (fresh 0) [] [] (replicate 1 Byte.x01));
      done || (vm_compute; split; congruence) || lia.
Defined.
