(* ===== verification/ByteQueue.v ===== *)
(** * ByteQueue: what a connection's buffer promises to the server

    The request handler of the RTT server only relies on the interface below:
    four operations and a representation predicate with laws.  The ring buffer
    discharges it as long as its bytes have not wrapped around; [bq_room] is how
    many more bytes may be appended before that can change. *)

From S2P Require Import Prelude Endian Buffer BufferSpec.

Class ByteQueueOps (B : Type) : Type := {
  bq_size : B → Z;
  bq_append : B → list cell → Z → outcome B;
  bq_peek : B → utype → outcome Z;
  bq_skip : B → Z → outcome B
}.

Class ByteQueue (B : Type) `{!ByteQueueOps B} : Type := {
  bq_rep : B → list Byte.byte → Prop;
  bq_room : B → Z;
  bq_size_rep b q : bq_rep b q → bq_size b = lenZ q;
  bq_append_rep b q d rest :
    bq_rep b q → lenZ d ≤ bq_room b →
    ∃ b', bq_append b ((Some <$> d) ++ rest) (lenZ d) = Ok b' ∧
          bq_rep b' (q ++ d) ∧ bq_room b' = bq_room b - lenZ d;
  bq_peek_rep b q t :
    bq_rep b q → Z.of_nat (sizeof t) ≤ lenZ q →
    bq_peek b t = Ok (be_combine (take (sizeof t) q));
  bq_skip_rep b q n :
    bq_rep b q → 0 ≤ n ≤ lenZ q →
    ∃ b', bq_skip b n = Ok b' ∧ bq_rep b' (drop (Z.to_nat n) q) ∧ bq_room b ≤ bq_room b'
}.

(** ** The ring buffer as a [ByteQueue] *)

#[global] Instance ring_ops : ByteQueueOps circulation_buffer :=
  { bq_size := readed_size; bq_append := append; bq_peek := peek; bq_skip := skip }.

Definition ring_rep (b : circulation_buffer) (q : list Byte.byte) : Prop :=
  represents b q ∧ readindex_ b ≤ writeindex_ b.

Definition ring_room (b : circulation_buffer) : Z := length_ b - writeindex_ b.

(** Only the first [n] cells of the source array matter. *)
Lemma append_prefix b d rest :
  wf b → readindex_ b ≤ writeindex_ b → lenZ d ≤ ring_room b →
  append b (d ++ rest) (lenZ d) = append b d (lenZ d).
Proof.
  intros Hwf Hlin Hn. unfold ring_room in Hn. pose proof (lenZ_nonneg d). pose proof (lenZ_nonneg rest).
  assert (lenZ d ≤ writed_size b).
  { rewrite writed_size_wf by done. destruct b as [m L r w]. open_wf Hwf; zdecide; lia. }
  rewrite !append_room by done. cbv zeta.
  rewrite (proj2 (Z.ltb_ge (writeindex_ b) _)), (proj2 (Z.leb_le (lenZ d) _)) by lia.
  rewrite !load_Ok by (rewrite ?lenZ_app; lia). cbn [mbind outcome_bind].
  do 2 f_equal. unfold slice, lenZ. rewrite !drop_0, Nat2Z.id, take_app_length. 
  by rewrite take_ge.
Qed.

Lemma ring_size_rep b q : ring_rep b q → readed_size b = lenZ q.
Proof. intros [H _]. by apply readed_size_represents. Qed.

Lemma ring_append_rep b q d rest :
  ring_rep b q → lenZ d ≤ ring_room b →
  ∃ b', append b ((Some <$> d) ++ rest) (lenZ d) = Ok b' ∧
        ring_rep b' (q ++ d) ∧ ring_room b' = ring_room b - lenZ d.
Proof.
  intros [[Hwf Hq] Hlin] Hn. rewrite <- (lenZ_fmap (@Some Byte.byte) d) in *.
  rewrite append_prefix by done. unfold ring_room in *. pose proof (lenZ_nonneg (Some <$> d)).
  destruct (append_linear b (Some <$> d) (lenZ (Some <$> d)))
    as (b' & E & Hwf' & HL & Hc & Hr & Hw); try done.
  exists b'. split; [done|]. split; [|lia]. split; [|lia].
  split; [done|]. by rewrite Hc, Hq, fmap_app.
Qed.

Lemma ring_peek_rep b q t :
  ring_rep b q → Z.of_nat (sizeof t) ≤ lenZ q →
  peek b t = Ok (be_combine (take (sizeof t) q)).
Proof.
  intros [H Hlin] Hn. apply peek_represents; [done..|].
  unfold peek_safe. by rewrite (proj2 (Z.ltb_ge (writeindex_ b) _)).
Qed.

Lemma ring_skip_rep b q n :
  ring_rep b q → 0 ≤ n ≤ lenZ q →
  ∃ b', skip b n = Ok b' ∧ ring_rep b' (drop (Z.to_nat n) q) ∧ ring_room b ≤ ring_room b'.
Proof.
  intros [H Hlin] Hn. pose proof (readed_size_represents b q H) as Hrd.
  destruct H as [Hwf Hq]. unfold ring_room.
  assert (padding ≤ writeindex_ b) by (destruct Hwf; unfold padding in *; lia).
  destruct (decide (n = readed_size b)) as [->|].
  - destruct (skip_all b Hwf) as [(E & HL & Hc) Hwf']. eexists. split; [done|].
    split; [|cbn; lia]. split; [|cbn; lia]. split; [done|].
    by rewrite Hc, Hq, fmap_drop.
  - destruct (skip_linear b n) as (b' & (E & HL & Hc) & Hwf' & ? & ?); [done..|lia|].
    exists b'. split; [done|]. split; [|lia]. split; [|done].
    split; [done|]. by rewrite Hc, Hq, fmap_drop.
Qed.

(** Appending more cells than the source array has reads past it. *)
Lemma ring_append_overread b q data n :
  ring_rep b q → lenZ data < n ≤ ring_room b → append b data n = Undef OutOfBounds.
Proof.
  intros [[Hwf _] Hlin] Hn. unfold ring_room in Hn. pose proof (lenZ_nonneg data).
  assert (n ≤ writed_size b).
  { rewrite writed_size_wf by done. destruct b as [m L r w]. open_wf Hwf; zdecide; lia. }
  rewrite append_room by done. cbv zeta.
  rewrite (proj2 (Z.ltb_ge (writeindex_ b) _)), (proj2 (Z.leb_le n _)) by lia.
  rewrite load_Undef by lia. done.
Qed.

#[global] Instance ring_queue : ByteQueue circulation_buffer :=
  { bq_rep := ring_rep; bq_room := ring_room; bq_size_rep := ring_size_rep;
    bq_append_rep := ring_append_rep; bq_peek_rep := ring_peek_rep;
    bq_skip_rep := ring_skip_rep }.

(** A new buffer of capacity [L] has room for [L - padding] bytes. *)
Lemma ring_new L :
  padding ≤ L < 2 ^ 62 →
  ∃ b, circulation_buffer_new L = Ok b ∧ bq_rep b [] ∧ bq_room b = L - padding.
Proof.
  intros HL. destruct (circulation_buffer_new_represents L HL) as (b & E & Hrep & ? & ? & ?).
  exists b. split; [done|]. split; [split; [done|lia]|]. cbn. unfold ring_room. lia.
Qed.
