(* ===== verification/Sys.v ===== *)
(** * Sys: the operating system as the code sees it

    System and resolver calls are not part of the repository: the kernel is a
    parameter, a function from the history of calls and the next call to its
    reply.  A program is run against a kernel and a world (the history and the
    thread's [errno]), so a theorem for all kernels holds for every behaviour
    of the operating system, and a concrete kernel makes a run computable. *)

From S2P Require Import Prelude.

(** ** Data shared with the kernel (Linux, x86-64) *)

Record sockaddr_in : Type := mkaddr {
  sin_family : Z; sin_port : Z; sin_addr : Z
}.

Record pollfd : Type := mkpollfd { fd : Z; events : Z; revents : Z }.

#[global] Instance sockaddr_in_eq_dec : EqDecision sockaddr_in.
Proof. solve_decision. Defined.
#[global] Instance pollfd_eq_dec : EqDecision pollfd.
Proof. solve_decision. Defined.

Definition AF_INET : Z := 2.
Definition POLLIN : Z := 1.
Definition POLLOUT : Z := 4.
Definition POLLERR : Z := 8.
Definition POLLRDNORM : Z := 64.
Definition O_NONBLOCK : Z := 2048.
Definition F_GETFL : Z := 3.
Definition F_SETFL : Z := 4.
Definition SHUT_WR : Z := 1.
Definition SHUT_RDWR : Z := 2.
Definition EINTR : Z := 4.
Definition EAGAIN : Z := 11.
Definition EWOULDBLOCK : Z := 11.
Definition ETIMEDOUT : Z := 110.
Definition EINPROGRESS : Z := 115.
Definition SOL_SOCKET : Z := 1.
Definition IPPROTO_TCP : Z := 6.
Definition SO_REUSEADDR : Z := 2.
Definition SO_ERROR : Z := 4.
Definition TCP_NODELAY : Z := 1.
Definition FD_SETSIZE : Z := 1024.
Definition SO_REUSEPORT : Z := 15.
Definition MSG_OOB : Z := 1.
Definition F_SETOWN : Z := 8.
Definition SOCK_STREAM : Z := 1.
Definition SIGHUP : Z := 1.
Definition SIGALRM : Z := 14.
Definition SIGPIPE : Z := 13.
Definition SIGCHLD : Z := 17.
Definition SIGURG : Z := 23.
Definition SA_RESTART : Z := 268435456.
Definition SA_INTERRUPT : Z := 536870912.
Definition SIG_BLOCK : Z := 0.
Definition WNOHANG : Z := 1.
Definition O_WRONLY : Z := 1.
Definition SOCK_DGRAM : Z := 2.
Definition SIG_SETMASK : Z := 2.
Definition O_RDONLY : Z := 0.

(** ** Calls and replies *)

Inductive syscall : Type :=
| sys_socket (domain type protocol : Z)
| sys_setsockopt (fd level optname optval : Z)
| sys_getsockopt (fd level optname : Z)
| sys_fcntl (fd cmd arg : Z)
| sys_shutdown (fd how : Z)
| sys_close (fd : Z)
| sys_bind (fd : Z) (addr : sockaddr_in)
| sys_bind_netlink (fd groups : Z)
| sys_listen (fd backlog : Z)
| sys_accept (fd : Z)
| sys_connect (fd : Z) (addr : sockaddr_in)
| sys_select (nfds : Z) (readfds writefds : list Z) (timeout : option Z)
| sys_poll (fds : list pollfd) (timeout : Z)
| sys_read (fd count : Z)
| sys_recv (fd count flags : Z)
| sys_write (fd : Z) (data : list Byte.byte)
| sys_send (fd : Z) (data : list Byte.byte) (flags : Z)
| sys_sigprocmask (how : Z) (sigs : list Z)
| sys_sigaction (sig flags : Z)
| sys_waitpid (pid options : Z)
| sys_access (path : string)
| sys_mkfifo (path : string) (mode : Z)
| sys_open (path : string) (flags : Z)
| sys_socketpair
| sys_fork
| sys_gettid
| sys_gettimeofday
| sys_getservbyname (name proto : string)
| sys_gethostbyname (name : string)
| sys_inet_net_pton (af : Z) (text : string)
| sys_print (what : string)       (** [printf], [std::cout], [perror] *)
| sys_misc (name : string) (args : list Z) (data : list Byte.byte).  (** any other call *)

(** [r_errno] is the value the call leaves in [errno], if it sets it; [r_bytes]
    is what it copies out; [r_ints] are its other out-parameters. *)
Record reply : Type := mkreply {
  r_ret : Z; r_errno : option Z; r_bytes : list Byte.byte; r_ints : list Z
}.

#[global] Instance syscall_eq_dec : EqDecision syscall.
Proof. solve_decision. Defined.

Abbreviation event := (syscall * reply)%type.

Definition kernel : Type := list event → syscall → reply.

Record world : Type := mkworld { trace : list event; errno : Z }.

(** ** Programs *)

Definition M (A : Type) : Type := kernel → world → outcome A * world.

#[global] Instance M_ret : MRet M := λ A a k w, (Ok a, w).
#[global] Instance M_bind : MBind M := λ A B f m k w,
  let '(o, w') := m k w in
  match o with
  | Ok a => f a k w'
  | Throw e => (Throw e, w')
  | AssertFail => (AssertFail, w')
  | Undef u => (Undef u, w')
  | Exit c => (Exit c, w')
  | NoFuel => (NoFuel, w')
  end.

Definition lift {A} (o : outcome A) : M A := λ k w, (o, w).
Definition throw {A} (e : exn) : M A := lift (Throw e).
Definition undef {A} (u : ub) : M A := lift (Undef u).

Definition call (c : syscall) : M reply := λ k w,
  let r := k (trace w) c in
  (Ok r, {| trace := trace w ++ [(c, r)];
            errno := match r_errno r with Some e => e | None => errno w end |}).

Definition get_errno : M Z := λ k w, (Ok (errno w), w).

Definition print (s : string) : M unit := _ ← call (sys_print s); mret tt.

(** The characters of a string argument. *)
Definition text (s : string) : list Byte.byte := String.list_byte_of_string s.

(** Other calls the programs make. *)
Definition sys_inet_addr (s : string) : syscall := sys_misc "inet_addr" [] (text s).
Definition sys_getsockname (fd : Z) : syscall := sys_misc "getsockname" [fd] [].
Definition sys_getpeername (fd : Z) : syscall := sys_misc "getpeername" [fd] [].
Definition sys_getpid : syscall := sys_misc "getpid" [] [].

(** A buffer of [n] bytes after a call copied [r_bytes r] to its start. *)
Definition copied_in (buf : list Byte.byte) (r : reply) : list Byte.byte :=
  take (length buf) (r_bytes r ++ drop (length (r_bytes r)) buf).

(** The C string at the start of [buf]: [%s] and [strlen] read up to a zero byte,
    which has to be there. *)
Fixpoint c_string (buf : list Byte.byte) : outcome (list Byte.byte) :=
  match buf with
  | [] => Undef OutOfBounds
  | Byte.x00 :: _ => Ok []
  | b :: buf => s ← c_string buf; Ok (b :: s)
  end.

(** The same in a block some cells of which ([None]) were never written. *)
Fixpoint cell_string (l : list (option Byte.byte)) : outcome (list Byte.byte) :=
  match l with
  | [] => Undef OutOfBounds
  | None :: _ => Undef Indeterminate
  | Some Byte.x00 :: _ => Ok []
  | Some b :: l => s ← cell_string l; Ok (b :: s)
  end.

(** The [i]-th integer out-parameter (0 when the kernel did not fill it). *)
Definition r_int (r : reply) (i : nat) : Z := default 0 (r_ints r !! i).

(** The history a run adds, and the calls in it. *)
Definition calls (l : list event) : list syscall := l.*1.

(** ** Scripted kernels

    A kernel that answers from a list, one reply per call, for concrete runs. *)
Definition ok_reply (v : Z) : reply := mkreply v None [] [].
Definition err_reply (e : Z) : reply := mkreply (-1) (Some e) [] [].
Definition data_reply (bs : list Byte.byte) : reply := mkreply (lenZ bs) None bs [].
Definition ints_reply (v : Z) (l : list Z) : reply := mkreply v None [] l.
Definition script (l : list reply) : kernel :=
  λ h _, default (err_reply 38) (l !! length h).

Definition world0 : world := {| trace := []; errno := 0 |}.

(** ** Reasoning about runs *)

Lemma run_bind {A B} (m : M A) (f : A → M B) k w :
  (m ≫= f) k w =
    let '(o, w') := m k w in
    match o with
    | Ok a => f a k w'
    | Throw e => (Throw e, w') | AssertFail => (AssertFail, w')
    | Undef u => (Undef u, w') | Exit c => (Exit c, w') | NoFuel => (NoFuel, w')
    end.
Proof. reflexivity. Qed.

Lemma run_bind_Ok {A B} (m : M A) (f : A → M B) k w a w' :
  m k w = (Ok a, w') → (m ≫= f) k w = f a k w'.
Proof. intros E. unfold mbind, M_bind. by rewrite E. Qed.

Lemma run_call c k w :
  call c k w =
    (Ok (k (trace w) c),
     {| trace := trace w ++ [(c, k (trace w) c)];
        errno := match r_errno (k (trace w) c) with Some e => e | None => errno w end |}).
Proof. reflexivity. Qed.

Lemma run_lift_bind {A B} (a : A) (f : A → M B) k w : (lift (Ok a) ≫= f) k w = f a k w.
Proof. reflexivity. Qed.

(** A call and a line of output, followed by the rest. *)
Lemma run_call_bind {B} c (f : reply → M B) k w :
  (call c ≫= f) k w = f (k (trace w) c) k
    {| trace := trace w ++ [(c, k (trace w) c)];
       errno := match r_errno (k (trace w) c) with Some e => e | None => errno w end |}.
Proof. reflexivity. Qed.

Lemma run_print_bind {B} s (f : unit → M B) k w :
  (print s ≫= f) k w = f tt k
    {| trace := trace w ++ [(sys_print s, k (trace w) (sys_print s))];
       errno := match r_errno (k (trace w) (sys_print s)) with Some e => e | None => errno w end |}.
Proof. reflexivity. Qed.

(** Inversion of a run that returned. *)
Lemma bind_inv {A B} (m : M A) (f : A → M B) k w b w' :
  (m ≫= f) k w = (Ok b, w') → ∃ a w1, m k w = (Ok a, w1) ∧ f a k w1 = (Ok b, w').
Proof.
  rewrite run_bind. destruct (m k w) as [[a|?| |?|?|] w1]; try discriminate. by exists a, w1.
Qed.

Lemma call_inv c k w r w' :
  call c k w = (Ok r, w') → r = k (trace w) c ∧ trace w' = trace w ++ [(c, r)].
Proof. intros [= <- <-]. done. Qed.

Lemma lift_inv {A} (o : outcome A) k w a w' : lift o k w = (Ok a, w') → o = Ok a ∧ w' = w.
Proof. by intros [= -> <-]. Qed.

Lemma mret_inv {A} (a b : A) k w w' :
  (mret a : M A) k w = (Ok b, w') → b = a ∧ w' = w.
Proof. by intros [= -> <-]. Qed.

Lemma print_inv s k w u w' :
  print s k w = (Ok u, w') → ∃ r, trace w' = trace w ++ [(sys_print s, r)].
Proof. intros [= _ <-]. by eexists. Qed.

(** [replies k h cs rs]: after the history [h], the kernel answers the calls [cs]
    with [rs]. *)
Fixpoint replies (k : kernel) (h : list event) (cs : list syscall) (rs : list reply) : Prop :=
  match cs, rs with
  | c :: cs, r :: rs => k h c = r ∧ replies k (h ++ [(c, r)]) cs rs
  | [], [] => True
  | _, _ => False
  end.

(** The world after one more exchange. *)
Definition advance (w : world) (c : syscall) (r : reply) : world :=
  {| trace := trace w ++ [(c, r)];
     errno := match r_errno r with Some e => e | None => errno w end |}.

Lemma call_replies c r cs rs k w :
  replies k (trace w) (c :: cs) (r :: rs) →
  call c k w = (Ok r, advance w c r) ∧ replies k (trace (advance w c r)) cs rs.
Proof. intros [Hk Hr]. unfold call. by rewrite Hk. Qed.

Lemma replies_script (l : list reply) cs :
  length cs = length l → replies (script l) [] cs l.
Proof.
  assert (G : ∀ l1 l2 cs h, length cs = length l2 → length h = length l1 →
                            replies (script (l1 ++ l2)) h cs l2).
  { intros l1 l2. revert l1. induction l2 as [|r l2 IH]; intros l1 [|c cs'] h Hl Hh; try done.
    cbn in *. split.
    - unfold script. by rewrite Hh, list_lookup_middle.
    - replace (l1 ++ r :: l2) with ((l1 ++ [r]) ++ l2) by (by rewrite <- app_assoc).
      apply IH; [lia|]. rewrite !length_app. cbn. lia. }
  intros H. by apply (G [] l cs []).
Qed.

(** A zero byte ends a string, whatever follows. *)
Lemma c_string_app s tl : Byte.x00 ∉ s → c_string (s ++ Byte.x00 :: tl) = Ok s.
Proof.
  induction s as [|b s IH]; intros Hn; [done|]. cbn [app c_string].
  assert (b ≠ Byte.x00) by set_solver. destruct b; try done; rewrite IH by set_solver; done.
Qed.

Lemma cell_string_name name tl :
  Byte.x00 ∉ name → cell_string ((Some <$> name) ++ Some Byte.x00 :: tl) = Ok name.
Proof.
  induction name as [|b name IH]; intros Hn; [done|]. cbn [fmap list_fmap app cell_string].
  assert (b ≠ Byte.x00) by set_solver. destruct b; try done; rewrite IH by set_solver; done.
Qed.

(** What a C string function sees of some bytes: those before the first zero. *)
Fixpoint cut0 (bs : list Byte.byte) : list Byte.byte :=
  match bs with [] => [] | b :: bs => if bool_decide (b = Byte.x00) then [] else b :: cut0 bs end.

Lemma cut0_text bs : Byte.x00 ∉ bs → cut0 bs = bs.
Proof.
  induction bs as [|b bs IH]; [done|]. rewrite not_elem_of_cons. intros [Hb Hn]. cbn.
  rewrite bool_decide_eq_false_2 by congruence. by rewrite IH.
Qed.

Lemma cut0_no_zero bs : Byte.x00 ∉ cut0 bs.
Proof.
  induction bs as [|b bs IH]; cbn; [apply not_elem_of_nil|].
  case_bool_decide; [apply not_elem_of_nil|]. rewrite not_elem_of_cons. by split.
Qed.

Lemma cut0_padded bs n : cut0 (bs ++ replicate n Byte.x00) = cut0 bs.
Proof.
  induction bs as [|b bs IH]; cbn; [by destruct n|]. by rewrite IH.
Qed.

Lemma c_string_cut bs : c_string bs = if bool_decide (Byte.x00 ∈ bs) then Ok (cut0 bs) else Undef OutOfBounds.
Proof.
  induction bs as [|b bs IH]; [done|]. cbn [c_string cut0].
  destruct (decide (b = Byte.x00)) as [->|Hb].
  { rewrite (bool_decide_eq_true_2 (Byte.x00 ∈ _)) by (by left). done. }
  assert (bool_decide (Byte.x00 ∈ b :: bs) = bool_decide (Byte.x00 ∈ bs)) as ->
    by (apply bool_decide_ext; rewrite elem_of_cons; naive_solver).
  assert (c_string (b :: bs) = (s ← c_string bs; Ok (b :: s))) as E by (by destruct b).
  cbn [c_string] in E. rewrite E, IH, (bool_decide_eq_false_2 (b = _)) by done.
  by destruct (bool_decide (Byte.x00 ∈ bs)).
Qed.

(** A zeroed buffer of [n] bytes after a call that copied at most [n] into it, and the
    string in it: only a buffer that was filled may have no terminator. *)
Lemma copied_padded n r :
  (length (r_bytes r) ≤ n)%nat →
  copied_in (replicate n Byte.x00) r = r_bytes r ++ replicate (n - length (r_bytes r)) Byte.x00.
Proof.
  intros Hl. unfold copied_in. rewrite drop_replicate, length_replicate.
  apply take_ge. rewrite length_app, length_replicate. lia.
Qed.

Lemma c_string_copied n r :
  lenZ (r_bytes r) ≤ Z.of_nat n →
  c_string (copied_in (replicate n Byte.x00) r) =
    if bool_decide (lenZ (r_bytes r) = Z.of_nat n ∧ Byte.x00 ∉ r_bytes r) then Undef OutOfBounds
    else Ok (cut0 (r_bytes r)).
Proof.
  unfold lenZ. intros Hl. rewrite c_string_cut, copied_padded, cut0_padded by lia.
  destruct (decide (Byte.x00 ∈ r_bytes r)) as [Hin|Hn].
  - rewrite bool_decide_eq_true_2 by (apply elem_of_app; by left).
    by rewrite bool_decide_eq_false_2 by tauto.
  - destruct (decide (Z.of_nat (length (r_bytes r)) = Z.of_nat n)) as [E|E].
    + replace (n - length (r_bytes r))%nat with 0%nat by lia.
      rewrite app_nil_r, bool_decide_eq_false_2 by done. by rewrite bool_decide_eq_true_2.
    + rewrite bool_decide_eq_true_2, bool_decide_eq_false_2; [done|tauto|].
      apply elem_of_app. right. apply elem_of_replicate. split; [done|lia].
Qed.

(** [read] returns the number of bytes it copied, which is at most what it was asked for,
    or nothing positive, and then it copied nothing. *)
Definition read_contract (k : kernel) : Prop :=
  ∀ h fd n, let r := k h (sys_read fd n) in
    (r_ret r ≤ 0 ∧ r_bytes r = []) ∨ (r_ret r = lenZ (r_bytes r) ∧ r_ret r ≤ n).

(** [sys_inv H] peels the next statement off a run [H] that returned. *)
Ltac sys_inv H :=
  let a := fresh "v" in let w1 := fresh "w" in let E := fresh "E" in
  apply bind_inv in H as (a & w1 & E & H);
  lazymatch type of E with
  | call _ _ _ = _ => apply call_inv in E as [? E]
  | lift _ _ _ = _ => apply lift_inv in E as [? ->]
  | print _ _ _ = _ => apply print_inv in E as [? E]
  | _ => idtac
  end.

(** A program only ever appends to the history. *)
Definition extends {A} (m : M A) : Prop :=
  ∀ k w, ∃ l, trace (m k w).2 = trace w ++ l.

Lemma extends_ret {A} (a : A) : extends (mret a).
Proof. intros k w. exists []. by rewrite app_nil_r. Qed.

Lemma extends_lift {A} (o : outcome A) : extends (lift o).
Proof. intros k w. exists []. by rewrite app_nil_r. Qed.

Lemma extends_call c : extends (call c).
Proof. intros k w. by eexists. Qed.

Lemma extends_errno : extends get_errno.
Proof. intros k w. exists []. by rewrite app_nil_r. Qed.

Lemma extends_bind {A B} (m : M A) (f : A → M B) :
  extends m → (∀ a, extends (f a)) → extends (m ≫= f).
Proof.
  intros Hm Hf k w. destruct (Hm k w) as [l Hl]. rewrite run_bind.
  destruct (m k w) as [[a|e| |u|c|] w'] eqn:E; cbn in *; try by exists l.
  destruct (Hf a k w') as [l' Hl']. exists (l ++ l').
  by rewrite Hl', Hl, app_assoc.
Qed.

Lemma extends_print s : extends (print s).
Proof. apply extends_bind; [apply extends_call|intros; apply extends_ret]. Qed.

Create HintDb sys discriminated.
#[export] Hint Resolve extends_ret extends_lift extends_call extends_errno
  extends_bind extends_print : sys.
Create Rewrite HintDb sys.
#[export] Hint Rewrite @run_bind run_call : sys.

(** [sys_run] executes the straight-line part of a run. *)
Ltac sys_run :=
  repeat (progress (cbn [mbind M_bind mret M_ret call lift throw undef get_errno
                         print trace errno fst snd]) || rewrite run_bind).

(** [sys_case] splits on the next test the run depends on. *)
Ltac sys_case :=
  match goal with
  | |- context [if ?b then _ else _] => let E := fresh "E" in destruct b eqn:E
  end.

