(* ===== verification/Sockops.v ===== *)
(** * Sockops: [set/rtt/Sockops.h]

    The thin layer over the socket calls: each function turns a failing call
    into a [std::error_condition] made from [errno].  [connectAsync] is the one
    with control flow of its own (a retry loop, a [select] with a timeout, the
    pending socket error). *)

From S2P Require Import Prelude Sys.

(** ** [std::error_condition] *)

Inductive error_category : Type := generic_category | system_category.

Record error_condition : Type := mkcond { ec_value : Z; ec_category : error_category }.

#[global] Instance error_category_eq_dec : EqDecision error_category.
Proof. solve_decision. Defined.
#[global] Instance error_condition_eq_dec : EqDecision error_condition.
Proof. solve_decision. Defined.

(** [return {};] and [return {errno, std::system_category()};] *)
Definition no_error : error_condition := mkcond 0 generic_category.
Definition from_errno : M error_condition :=
  e ← get_errno; mret (mkcond e system_category).

(** [operator bool] *)
Definition is_error (c : error_condition) : bool := negb (ec_value c =? 0).

(** ** The two categories of the source

    Objects of classes without members, created once: they are told apart by their name
    alone.  [strerror_r] may write its text into the buffer it is given. *)
Inductive own_category : Type := net_system_category | custom_category.

Definition category_name (c : own_category) : string :=
  match c with net_system_category => "net_system_category" | custom_category => "custom_category" end.

Definition sys_strerror_r (e size : Z) : syscall := sys_misc "strerror_r" [e; size] [].

(** [message] is the same code in both. *)
Definition category_message (c : own_category) (e : Z) : M (list Byte.byte) :=
  let res := replicate 128 Byte.x00 in
  r ← call (sys_strerror_r e (lenZ res));
  mret (copied_in res r).

(** ** The wrappers *)

Definition setSocketNotDelay (fd : Z) : M error_condition :=
  e ← call (sys_setsockopt fd IPPROTO_TCP TCP_NODELAY 1);
  if r_ret e <? 0 then from_errno else mret no_error.

Definition setSocketNotBlock (fd : Z) : M error_condition :=
  flag ← call (sys_fcntl fd F_GETFL 0);
  if 0 <=? r_ret flag then
    if negb (Z.lor (r_ret flag) O_NONBLOCK =? 0) then mret no_error
    else
      let flag' := Z.lor (r_ret flag) O_NONBLOCK in
      e ← call (sys_fcntl fd F_SETFL flag');
      if r_ret e <? 0 then from_errno else mret no_error
  else from_errno.

Definition setAddressReuse (fd : Z) : M error_condition :=
  e ← call (sys_setsockopt fd SOL_SOCKET SO_REUSEADDR 1);
  if r_ret e <? 0 then from_errno else mret no_error.

(** The out-parameter [fd] is returned next to the condition. *)
Definition createSocket : M (Z * error_condition) :=
  r ← call (sys_socket AF_INET 1 0);
  if 0 <? r_ret r then mret (r_ret r, no_error)
  else c ← from_errno; mret (r_ret r, c).

Inductive ShutType : Type := WR | RDWR.
Definition shut_how (t : ShutType) : Z :=
  match t with WR => SHUT_WR | RDWR => SHUT_RDWR end.

Definition shutdown (fd : Z) (type : ShutType) : M error_condition :=
  err ← call (sys_shutdown fd (shut_how type));
  if negb (r_ret err =? 0) then from_errno else mret no_error.

Definition close (fd : Z) : M error_condition :=
  err ← call (sys_close fd);
  if negb (r_ret err =? 0) then from_errno else mret no_error.

Definition connect (fd : Z) (peer_addr : sockaddr_in) : M error_condition :=
  r ← call (sys_connect fd peer_addr);
  if r_ret r <? 0 then from_errno else mret no_error.

Definition accept (fd : Z) : M (Z * error_condition) :=
  r ← call (sys_accept fd);
  if r_ret r <? 0 then c ← from_errno; mret (r_ret r, c)
  else mret (r_ret r, no_error).

Definition listen (fd backlog : Z) : M error_condition :=
  error ← call (sys_listen fd backlog);
  if r_ret error <? 0 then from_errno else mret no_error.

(** [hold_error_condition_out] is set (it is initialised to a [printf]). *)
Definition hold_error_condition (cond : error_condition) : M unit :=
  if is_error cond && bool_decide (ec_category cond = system_category)
  then print "message" else mret tt.

(** ** [connectAsync] *)

(** [close(fd); return {errno, std::system_category()};] *)
Definition close_errno (fd : Z) : M error_condition :=
  _ ← close fd; from_errno.

(** The retry loop: [Some c] when it returns [c], [None] when it breaks. *)
Fixpoint connect_retry (fuel : nat) (fd : Z) (peer_addr : sockaddr_in)
    : M (option error_condition) :=
  match fuel with
  | O => lift NoFuel
  | S fuel =>
      r ← call (sys_connect fd peer_addr);
      if r_ret r =? 0 then mret (Some no_error) else
      save_errno ← get_errno;
      if (r_ret r =? -1) && (save_errno =? EAGAIN) then connect_retry fuel fd peer_addr
      else if (r_ret r =? -1) && (save_errno =? EINPROGRESS) then mret None
      else c ← close_errno fd; mret (Some c)
  end.

(** [FD_SET] writes one bit of a 1024-bit set. *)
Definition FD_SET (fd : Z) : M unit :=
  if (0 <=? fd) && (fd <? FD_SETSIZE) then mret tt else undef OutOfBounds.

(** The wait for a connection in progress, after the retry loop broke. *)
Definition await_connect (fd timeout : Z) : M error_condition :=
  ret ← call (sys_select (fd + 1) [] [fd] (Some timeout));
  if r_ret ret =? 1 then
    if bool_decide (fd ∈ r_ints ret) then
      ret ← call (sys_getsockopt fd SOL_SOCKET SO_ERROR);
      let error := r_int ret 0 in
      if (r_ret ret =? -1) || negb (error =? 0) then close_errno fd
      else mret no_error
    else close_errno fd
  else
    _ ← close fd;
    mret (mkcond ETIMEDOUT generic_category).

Definition connectAsync (fuel : nat) (fd : Z) (peer_addr : sockaddr_in) (timeout : Z)
    : M error_condition :=
  _ ← setSocketNotBlock fd;
  _ ← FD_SET fd;
  early ← connect_retry fuel fd peer_addr;
  match early with
  | Some c => mret c
  | None => await_connect fd timeout
  end.

(** ** Name resolution *)

Inductive Portocol : Type := TCP | UDP.
Inductive PortocolVersion : Type := IPV4 | IPV6.

Definition version_family (v : PortocolVersion) : Z :=
  match v with IPV4 => AF_INET | IPV6 => 10 end.

Definition PortocolTable : list string := ["tcp"; "udp"].
Definition PortocolVersionTable : list string := ["ipv4"; "ipv6"].
Definition portocol_index (p : Portocol) : nat := match p with TCP => 0 | UDP => 1 end.

Definition cover2Protocol (p : Portocol) : outcome string :=
  match PortocolTable !! portocol_index p with
  | Some s => Ok s | None => Undef OutOfBounds
  end.
Definition cover2ProtocolVersion (p : Portocol) : outcome string :=
  match PortocolVersionTable !! portocol_index p with
  | Some s => Ok s | None => Undef OutOfBounds
  end.

(** [struct servent*] and [struct hostent*]: null when [r_ret] is 0. *)
Definition servent_port (r : reply) : option Z :=
  if r_ret r =? 0 then None else Some (r_int r 0).

Record hostent : Type := mkhost { h_addrtype : Z; h_length : Z; h_addr_list : list Z }.
Definition hostent_of (r : reply) : option hostent :=
  if r_ret r =? 0 then None
  else Some (mkhost (r_int r 0) (r_int r 1) (drop 2 (r_ints r))).

Record NetServerDB : Type := mkdb {
  addrs_ : list sockaddr_in; version_ : PortocolVersion; port_ : Z
}.

(** The loop of the constructor: one entry per address of the host, each made
    from [h_addr_list[0]]. *)
Fixpoint db_entries (first : Z) (rest : list Z) (family port : Z) : list sockaddr_in :=
  match rest with
  | [] => []
  | _ :: rest => mkaddr family port first :: db_entries first rest family port
  end.

Definition NetServerDB_new (server_name port_server_name : string)
    (portocal : Portocol) (version : PortocolVersion) : M NetServerDB :=
  proto ← lift (cover2Protocol portocal);
  server_info ← call (sys_getservbyname port_server_name proto);
  match servent_port server_info with
  | None => undef NullPointer
  | Some port =>
      host ← call (sys_gethostbyname server_name);
      match hostent_of host with
      | None => mret (mkdb [] version port)
      | Some h =>
          mret (mkdb (db_entries (default 0 (h_addr_list h !! 0%nat)) (h_addr_list h)
                        (version_family version) port) version port)
      end
  end.

Fixpoint print_addrs (l : list Z) : M unit :=
  match l with
  | [] => mret tt
  | _ :: l => _ ← print "IP addr"; print_addrs l
  end.

(** Returns the result and the out-parameter [addr]; [unfind] is the [printf] for a host
    without addresses. *)
Definition echo_addr_of (unfind : M unit) (server_name : string) (addr : sockaddr_in)
    : M (bool * sockaddr_in) :=
  server_info ← call (sys_getservbyname "echo" "tcp");
  match servent_port server_info with
  | None => mret (false, addr)
  | Some port =>
      let addr := mkaddr AF_INET port (sin_addr addr) in
      host ← call (sys_gethostbyname server_name);
      match hostent_of host with
      | None => mret (false, addr)
      | Some h =>
          if (h_addrtype h =? AF_INET) && (h_length h =? 4) then
            _ ← print_addrs (h_addr_list h);
            match h_addr_list h !! 0%nat with
            | Some a => mret (true, mkaddr AF_INET port a)
            | None => _ ← unfind; mret (false, addr)
            end
          else mret (true, addr)
      end
  end.

(** Here the [%s] of that [printf] is given a [std::string_view]. *)
Definition constructor_echo_addr : string → sockaddr_in → M (bool * sockaddr_in) :=
  echo_addr_of (undef BadFormat).

(** ** Lemmas *)

(** What [close] adds to the history. *)
Lemma close_errno_run fd k w :
  ∃ r e, close_errno fd k w = (Ok (mkcond e system_category),
           {| trace := trace w ++ [(sys_close fd, r)]; errno := e |}).
Proof.
  unfold close_errno, close. sys_run. destruct (r_ret _ =? 0); by eexists _, _.
Qed.

Lemma close_run fd k w :
  ∃ r c e, close fd k w = (Ok c, {| trace := trace w ++ [(sys_close fd, r)]; errno := e |}).
Proof.
  unfold close. sys_run.
  destruct (r_ret _ =? 0); cbn; by do 3 eexists.
Qed.

Lemma setSocketNotBlock_run fd k w :
  ∃ c e r, setSocketNotBlock fd k w =
    (Ok c, {| trace := trace w ++ [(sys_fcntl fd F_GETFL 0, r)]; errno := e |}).
Proof.
  unfold setSocketNotBlock. sys_run.
  destruct (0 <=? r_ret _) eqn:E; cbn [from_errno]; [|by do 3 eexists].
  assert (Hnz : Z.lor (r_ret (k (trace w) (sys_fcntl fd F_GETFL 0))) O_NONBLOCK ≠ 0).
  { intros H0. apply Z.lor_eq_0_iff in H0 as [_ H0]. discriminate. }
  rewrite (proj2 (Z.eqb_neq _ _) Hnz). by do 3 eexists.
Qed.

(** A call of the retry loop that is made again: it failed, and [errno] is not anything
    else than [EAGAIN]. *)
Definition is_retry (fd : Z) (a : sockaddr_in) (ev : event) : Prop :=
  ev.1 = sys_connect fd a ∧ r_ret ev.2 = -1 ∧ ∀ e, r_errno ev.2 = Some e → e = EAGAIN.

(** Whether a history ends with the socket connected: [connect] succeeded at once, or the
    socket became writable without a pending error. *)
Definition connected_log (fd : Z) (l : list event) : bool :=
  match reverse l with
  | (sys_connect _ _, r) :: _ => r_ret r =? 0
  | (sys_getsockopt _ _ _, r2) :: (sys_select _ _ _ _, r1) :: _ =>
      (r_ret r1 =? 1) && bool_decide (fd ∈ r_ints r1) && negb (r_ret r2 =? -1) && (r_int r2 0 =? 0)
  | _ => false
  end.

(** Whether it ends with a [select] that did not report the socket alone. *)
Definition timed_out_log (l : list event) : bool :=
  match reverse l with (sys_select _ _ _ _, r) :: _ => negb (r_ret r =? 1) | _ => false end.

(** [connect] is over, one way or another. *)
Definition tried (fd : Z) (a : sockaddr_in) (l : list event) (r : reply) : list event :=
  l ++ [(sys_connect fd a, r)].

Lemma connected_tried fd a l r : connected_log fd (tried fd a l r) = (r_ret r =? 0).
Proof. unfold connected_log, tried. by rewrite reverse_snoc. Qed.
Lemma timed_out_tried fd a l r : timed_out_log (tried fd a l r) = false.
Proof. unfold timed_out_log, tried. by rewrite reverse_snoc. Qed.

Lemma connect_retry_run fuel fd a k w :
  ∃ l e, Forall (is_retry fd a) l ∧
    ((connect_retry fuel fd a k w = (NoFuel, {| trace := trace w ++ l; errno := e |}) ∧ length l = fuel) ∨
     ∃ r, (connect_retry fuel fd a k w =
             (Ok (Some no_error), {| trace := trace w ++ tried fd a l r; errno := e |}) ∧ r_ret r = 0) ∨
          (connect_retry fuel fd a k w = (Ok None, {| trace := trace w ++ tried fd a l r; errno := e |})) ∨
          ∃ r', connect_retry fuel fd a k w =
             (Ok (Some (mkcond e system_category)),
              {| trace := trace w ++ tried fd a l r ++ [(sys_close fd, r')]; errno := e |}) ∧ r_ret r ≠ 0).
Proof.
  revert w. induction fuel as [|fuel IH]; intros w; cbn [connect_retry].
  { exists [], (errno w). split; [done|]. left. rewrite app_nil_r. by destruct w. }
  sys_run. set (r := k (trace w) _) in *.
  destruct (r_ret r =? 0) eqn:E0; zbool.
  { eexists [], _. split; [done|]. right. exists r. by left. }
  sys_run. set (e' := match r_errno r with Some e => e | None => errno w end).
  destruct ((r_ret r =? -1) && (e' =? EAGAIN)) eqn:E1; zbool.
  - destruct (IH {| trace := trace w ++ [(sys_connect fd a, r)]; errno := e' |})
      as (l & e & Hl & HIH). cbn [trace] in HIH.
    exists ((sys_connect fd a, r) :: l), e.
    assert (Hr : is_retry fd a (sys_connect fd a, r)).
    { split; [done|]. split; [done|]. cbn. intros e2 He2. subst e'. by rewrite He2 in *. }
    split; [by constructor|].
    destruct HIH as [(-> & Hlen)|(r' & [(-> & Hz)|[->|(r2 & -> & Hz)]])].
    + left. rewrite <- app_assoc. split; [done|]. cbn. by f_equal.
    + right. exists r'. left. by rewrite <- app_assoc.
    + right. exists r'. right; left. by rewrite <- app_assoc.
    + right. exists r'. right; right. exists r2. by rewrite <- app_assoc.
  - destruct ((r_ret r =? -1) && (e' =? EINPROGRESS)).
    { eexists [], _. split; [done|]. right. exists r. by right; left. }
    sys_run.
    destruct (close_errno_run fd k {| trace := trace w ++ [(sys_connect fd a, r)]; errno := e' |})
      as (r' & e2 & ->). exists [], e2. split; [done|]. right. exists r. right; right.
    exists r'. split; [|done]. cbn. by rewrite <- app_assoc.
Qed.

Lemma retries_no_close fd a l : Forall (is_retry fd a) l → sys_close fd ∉ calls l.
Proof.
  intros Hl Hin. apply list_elem_of_fmap in Hin as ([c r] & Hc & Hin).
  rewrite Forall_forall in Hl. destruct (Hl _ Hin) as [He _]. cbn in *. congruence.
Qed.

Lemma calls_app l l' : calls (l ++ l') = calls l ++ calls l'.
Proof. apply fmap_app. Qed.

Lemma tried_no_close fd a l r : Forall (is_retry fd a) l → sys_close fd ∉ calls (tried fd a l r).
Proof.
  intros Hl%retries_no_close. unfold tried. rewrite calls_app. cbn.
  rewrite elem_of_app, list_elem_of_singleton. naive_solver.
Qed.

(** What a run does with the descriptor, after the history [h]. *)
Definition fd_discipline (fd : Z) (a : sockaddr_in) (fuel : nat) (h : list event)
    (p : outcome error_condition * world) : Prop :=
  ∃ l, trace p.2 = h ++ l ∧
    ((p.1 = Ok no_error ∧ (sys_close fd ∉ calls l) ∧ connected_log fd l = true) ∨
     (∃ c l' r, p.1 = Ok c ∧ l = l' ++ [(sys_close fd, r)] ∧ (sys_close fd ∉ calls l') ∧
        connected_log fd l' = false ∧
        c = if timed_out_log l' then mkcond ETIMEDOUT generic_category
            else mkcond (errno p.2) system_category) ∨
     (∃ ev l', p.1 = NoFuel ∧ l = ev :: l' ∧ length l' = fuel ∧ Forall (is_retry fd a) l')).

Lemma await_connect_run fd timeout k w :
  ∃ l, (sys_close fd ∉ calls l) ∧
    ((∃ e, await_connect fd timeout k w = (Ok no_error, {| trace := trace w ++ l; errno := e |}) ∧
           ∀ h, connected_log fd (h ++ l) = true) ∨
     (∃ c r e, await_connect fd timeout k w =
             (Ok c, {| trace := trace w ++ (l ++ [(sys_close fd, r)]); errno := e |}) ∧
           (∀ h, connected_log fd (h ++ l) = false) ∧
           ∀ h, c = if timed_out_log (h ++ l) then mkcond ETIMEDOUT generic_category
                    else mkcond e system_category)).
Proof.
  unfold await_connect. sys_run. set (c1 := sys_select (fd + 1) [] [fd] (Some timeout)).
  set (r1 := k (trace w) _). set (w1 := mkworld (trace w ++ _) _).
  assert (H1 : sys_close fd ∉ calls [(c1, r1)]) by (cbn; by rewrite list_elem_of_singleton).
  assert (H0 : ∀ h, connected_log fd (h ++ [(c1, r1)]) = false)
    by (intros h; unfold connected_log; by rewrite reverse_snoc).
  assert (Ht : ∀ h, timed_out_log (h ++ [(c1, r1)]) = negb (r_ret r1 =? 1))
    by (intros h; unfold timed_out_log; by rewrite reverse_snoc).
  destruct (r_ret r1 =? 1) eqn:E1; [destruct (bool_decide (fd ∈ r_ints r1)) eqn:E2|].
  - sys_run. set (c2 := sys_getsockopt fd SOL_SOCKET SO_ERROR) in *.
    set (r2 := k (trace w1) _). set (w2 := mkworld (trace w1 ++ _) _).
    exists [(c1, r1); (c2, r2)]. split; [cbn; rewrite elem_of_cons, list_elem_of_singleton; naive_solver|].
    assert (Hc : ∀ h, connected_log fd (h ++ [(c1, r1); (c2, r2)]) = negb ((r_ret r2 =? -1) || negb (r_int r2 0 =? 0))).
    { intros h. unfold connected_log. change [(c1, r1); (c2, r2)] with ([(c1, r1)] ++ [(c2, r2)]).
      rewrite app_assoc, !reverse_snoc. cbn. rewrite E1, E2. cbn. by rewrite negb_orb, negb_involutive. }
    assert (Hn : ∀ h, timed_out_log (h ++ [(c1, r1); (c2, r2)]) = false).
    { intros h. unfold timed_out_log. change [(c1, r1); (c2, r2)] with ([(c1, r1)] ++ [(c2, r2)]).
      by rewrite app_assoc, reverse_snoc. }
    destruct ((r_ret r2 =? -1) || _) eqn:E3.
    + right. destruct (close_errno_run fd k w2) as (r & e & ->).
      eexists _, r, e. split; [cbn; by rewrite <- !app_assoc|]. split; [intros h; by rewrite Hc|]. intros h. by rewrite Hn.
    + left. eexists. split; [subst w2 w1; cbn; by rewrite <- app_assoc|]. intros h. by rewrite Hc.
  - exists [(c1, r1)]. split; [done|]. right. destruct (close_errno_run fd k w1) as (r & e & ->).
    eexists _, r, e. split; [cbn; by rewrite <- app_assoc|]. split; [done|]. intros h. by rewrite Ht.
  - exists [(c1, r1)]. split; [done|]. right. rewrite run_bind. destruct (close_run fd k w1) as (r & c & e & ->).
    eexists _, r, e. split; [cbn; by rewrite <- app_assoc|]. split; [done|]. intros h. by rewrite Ht.
Qed.

(** C28: Descriptor discipline of [connectAsync], for every kernel and a descriptor below
    1024.  It returns no error and leaves the descriptor open exactly when the socket is
    connected: [connect] succeeded, or [select] reported the socket writable and
    [SO_ERROR] is 0.  Otherwise the descriptor has been closed, once and as the last call,
    and the result is [timed_out] when [select] did not report the socket, and [errno] as
    it is then in all other cases.  The only other case is that all the rounds allowed
    were used up by [connect] failing with [EAGAIN]. *)
Theorem connectAsync_discipline fuel fd a timeout k w :
  0 ≤ fd < FD_SETSIZE →
  fd_discipline fd a fuel (trace w) (connectAsync fuel fd a timeout k w).
Proof.
  intros Hfd. unfold connectAsync, fd_discipline.
  rewrite run_bind. destruct (setSocketNotBlock_run fd k w) as (c & e & r & ->).
  set (w1 := mkworld _ e). rewrite run_bind. unfold FD_SET.
  rewrite (proj2 (Z.leb_le 0 fd)), (proj2 (Z.ltb_lt fd FD_SETSIZE)) by lia. cbn [andb].
  cbn [mret M_ret]. rewrite run_bind. set (ev := (sys_fcntl fd F_GETFL 0, r)) in *.
  assert (Hcons : ∀ l, sys_close fd ∉ calls l → sys_close fd ∉ calls (ev :: l)) by (intros l Hl; cbn; by rewrite elem_of_cons; intros [?|?]).
  destruct (connect_retry_run fuel fd a k w1) as (l & e' & Hl & H).
  pose proof (λ r, tried_no_close fd a l r Hl) as Hcl.
  destruct H as [(-> & Hlen)|(r' & [(-> & Hz)|[->|(r2 & -> & Hz)]])].
  - exists (ev :: l). split; [cbn; by rewrite <- app_assoc|]. right; right. by do 2 eexists.
  - exists (ev :: tried fd a l r'). split; [cbn; by rewrite <- app_assoc|]. left. split; [done|].
    split; [by apply Hcons|]. change (ev :: ?x) with ([ev] ++ x). unfold tried. rewrite app_assoc.
    fold (tried fd a ([ev] ++ l) r'). rewrite connected_tried. by apply Z.eqb_eq.
  - set (w2 := mkworld _ e').
    destruct (await_connect_run fd timeout k w2) as (l2 & Hl2 & [(e2 & -> & Hc)|(c2 & r2 & e2 & -> & Hc & Ht)]).
    + exists ((ev :: tried fd a l r') ++ l2). split; [cbn; by rewrite <- !app_assoc|]. left. split; [done|].
      split; [|apply Hc]. rewrite calls_app, elem_of_app. intros [H|H]; [|done]. by apply (Hcons (tried fd a l r')) in H.
    + exists (((ev :: tried fd a l r') ++ l2) ++ [(sys_close fd, r2)]). split; [cbn; by rewrite <- !app_assoc|].
      right; left. exists c2, ((ev :: tried fd a l r') ++ l2), r2. split; [done|]. split; [done|]. split; [|by split].
      rewrite calls_app, elem_of_app. intros [H|H]; [|done]. by apply (Hcons (tried fd a l r')) in H.
  - exists ((ev :: tried fd a l r') ++ [(sys_close fd, r2)]). split; [cbn; by rewrite <- !app_assoc|]. right; left.
    exists (mkcond e' system_category), (ev :: tried fd a l r'), r2.
    assert (ev :: tried fd a l r' = tried fd a (ev :: l) r') as E by done.
    split; [done|]. split; [done|]. split; [by apply Hcons|].
    rewrite E, connected_tried, timed_out_tried. split; [by apply Z.eqb_neq|done].
Qed.

(** Every reply to a [connect] that comes after [n] earlier ones ends the
    retry loop: success, a result other than -1, or an [errno] other than
    [EAGAIN]. *)
Definition retry_bounded (k : kernel) (fd : Z) (a : sockaddr_in) (n : nat) : Prop :=
  ∀ h, (n ≤ count_occ syscall_eq_dec (calls h) (sys_connect fd a))%nat →
    let r := k h (sys_connect fd a) in
    r_ret r ≠ -1 ∨ ∃ e, r_errno r = Some e ∧ e ≠ EAGAIN.

Lemma connect_retry_terminates k fd a n fuel w :
  retry_bounded k fd a n → (0 < fuel)%nat →
  (n < fuel + count_occ syscall_eq_dec (calls (trace w)) (sys_connect fd a))%nat →
  ∃ c w', connect_retry fuel fd a k w = (Ok c, w').
Proof.
  intros Hb. revert w. induction fuel as [|fuel IH]; intros w Hf Hn; [lia|].
  cbn [connect_retry]. sys_run. pose proof (Hb (trace w)) as Hr. cbn zeta in Hr.
  set (r := k (trace w) _) in *. destruct (r_ret r =? 0); [by do 2 eexists|].
  sys_run. set (e' := match r_errno r with Some e => e | None => errno w end).
  destruct ((r_ret r =? -1) && (e' =? EAGAIN)) eqn:E1; zbool.
  - assert (Hlt : (count_occ syscall_eq_dec (calls (trace w)) (sys_connect fd a) < n)%nat).
    { destruct (decide (count_occ syscall_eq_dec (calls (trace w)) (sys_connect fd a) < n)%nat)
        as [|Hge]; [done|].
      destruct (Hr ltac:(lia)) as [Hne|(e & He & Hne)]; [done|].
      subst e'. rewrite He in *. done. }
    apply IH; [lia|]. cbn [trace]. rewrite calls_app, count_occ_app.
    change (calls [(sys_connect fd a, r)]) with [sys_connect fd a].
    rewrite count_occ_cons_eq by done. cbn. lia.
  - destruct ((r_ret r =? -1) && (e' =? EINPROGRESS)); [by do 2 eexists|].
    sys_run. destruct (close_errno_run fd k
      {| trace := trace w ++ [(sys_connect fd a, r)]; errno := e' |}) as (r' & e2 & ->).
    by do 2 eexists.
Qed.

(** C29: Termination of [connectAsync].  If the kernel asks to retry at most [n]
    times, more than [n] rounds of the loop are enough: for a descriptor below 1024, the
    size of an [fd_set], the call returns. *)
Theorem connectAsync_terminates k fd a n fuel timeout w :
  retry_bounded k fd a n → (n < fuel)%nat → 0 ≤ fd < FD_SETSIZE →
  ∃ c w', connectAsync fuel fd a timeout k w = (Ok c, w').
Proof.
  intros Hb Hf Hfd. unfold connectAsync. rewrite run_bind.
  destruct (setSocketNotBlock_run fd k w) as (c & e & r & ->).
  set (w1 := mkworld _ e). rewrite run_bind. unfold FD_SET.
  rewrite (proj2 (Z.leb_le 0 fd)), (proj2 (Z.ltb_lt fd FD_SETSIZE)) by lia. cbn [andb].
  cbn [mret M_ret]. rewrite run_bind.
  destruct (connect_retry_terminates k fd a n fuel w1 Hb) as ([c'|] & w2 & ->);
    [lia|lia|by do 2 eexists|].
  destruct (await_connect_run fd timeout k w2) as (l & _ & [(e' & -> & _)|(c2 & r2 & e2 & -> & _)]);
    by do 2 eexists.
Qed.

(** Finding.  [setSocketNotBlock] tests [flag | O_NONBLOCK], which is never
    zero, so it only ever reads the flags: for every kernel the single call it
    makes is [F_GETFL], and no socket is made non-blocking by it. *)
Theorem setSocketNotBlock_never_sets fd k w :
  ∃ c r, setSocketNotBlock fd k w = (Ok c, (setSocketNotBlock fd k w).2) ∧
         trace (setSocketNotBlock fd k w).2 = trace w ++ [(sys_fcntl fd F_GETFL 0, r)] ∧
         (0 ≤ r_ret r → c = no_error).
Proof.
  destruct (setSocketNotBlock_run fd k w) as (c & e & r & E). rewrite E.
  exists c, r. split; [done|]. split; [done|]. intros Hr.
  revert E. unfold setSocketNotBlock. sys_run. intros E.
  destruct (0 <=? r_ret _) eqn:E0.
  - destruct (negb _) eqn:E1 in E; [by injection E as <-|].
    exfalso. zbool. apply Z.lor_eq_0_iff in E1 as [_ E1]. discriminate.
  - exfalso. injection E as _ E _. apply app_inj_tail in E as [_ [= <-]]. zbool. lia.
Qed.

(** Finding.  A connection in progress that the peer refuses is reported
    with the stale [errno] of the [connect] call ([EINPROGRESS]), not with the
    pending error the code just read from the socket. *)
Theorem connectAsync_reports_stale_errno fuel fd a timeout pending :
  0 ≤ fd < FD_SETSIZE → pending ≠ 0 →
  let k := script [ok_reply 0; err_reply EINPROGRESS; ints_reply 1 [fd];
                   ints_reply 0 [pending]; ok_reply 0] in
  (connectAsync (S fuel) fd a timeout k world0).1 = Ok (mkcond EINPROGRESS system_category).
Proof.
  intros Hfd Hp k. unfold connectAsync, FD_SET.
  rewrite (proj2 (Z.leb_le 0 fd)), (proj2 (Z.ltb_lt fd FD_SETSIZE)) by lia.
  subst k. destruct pending as [|p|p]; [done|..];
    cbv -[bool_decide elem_of]; by rewrite bool_decide_true by set_solver.
Qed.

Lemma print_addrs_run l k w : ∃ w', print_addrs l k w = (Ok tt, w').
Proof.
  revert w. induction l as [|a l IH]; intros w; cbn [print_addrs]; [by eexists|].
  sys_run. apply IH.
Qed.

Lemma db_entries_replicate a l f p :
  db_entries a l f p = replicate (length l) (mkaddr f p a).
Proof. induction l as [|x l IH]; cbn; [done|by rewrite IH]. Qed.

(** Finding.  [NetServerDB] makes one entry per address of the host but
    fills every one of them from the first address; with no service entry it
    dereferences a null pointer. *)
Theorem NetServerDB_repeats_first name serv proto ver k w :
  ∃ pname r1 r2, cover2Protocol proto = Ok pname ∧
    r1 = k (trace w) (sys_getservbyname serv pname) ∧
    r2 = k (trace w ++ [(sys_getservbyname serv pname, r1)]) (sys_gethostbyname name) ∧
    (NetServerDB_new name serv proto ver k w).1 =
      match servent_port r1 with
      | None => Undef NullPointer
      | Some port =>
          let addrs := match hostent_of r2 with Some h => h_addr_list h | None => [] end in
          Ok (mkdb (replicate (length addrs)
                      (mkaddr (version_family ver) port (default 0 (addrs !! 0%nat)))) ver port)
      end.
Proof.
  destruct proto; eexists _, _, _; (split; [reflexivity|]); (split; [reflexivity|]);
    (split; [reflexivity|]); unfold NetServerDB_new; rewrite run_bind;
    cbn [lift cover2Protocol PortocolTable portocol_index lookup list_lookup]; sys_run;
    match goal with |- context [servent_port ?r] => destruct (servent_port r) end;
    try done; sys_run;
    match goal with |- context [hostent_of ?r] => destruct (hostent_of r) end;
    cbn; by rewrite ?db_entries_replicate.
Qed.

(** The echo address is only reported as found with the echo port and, for
    an IPv4 host, its first address; a missing service or an unknown host is reported
    as not found.  Finding: for an IPv4 host without addresses the message hands an
    object to [%s]. *)
Theorem constructor_echo_addr_spec name addr k w :
  let r1 := k (trace w) (sys_getservbyname "echo" "tcp") in
  let r2 := k (trace w ++ [(sys_getservbyname "echo" "tcp", r1)]) (sys_gethostbyname name) in
  (constructor_echo_addr name addr k w).1 =
    match servent_port r1, hostent_of r2 with
    | None, _ => Ok (false, addr)
    | Some port, None => Ok (false, mkaddr AF_INET port (sin_addr addr))
    | Some port, Some h =>
        if (h_addrtype h =? AF_INET) && (h_length h =? 4) then
          match h_addr_list h with
          | a :: _ => Ok (true, mkaddr AF_INET port a)
          | [] => Undef BadFormat
          end
        else Ok (true, mkaddr AF_INET port (sin_addr addr))
    end.
Proof.
  intros r1 r2. unfold constructor_echo_addr, echo_addr_of. sys_run. fold r1.
  destruct (servent_port r1) as [port|]; [|done]. sys_run. fold r2.
  destruct (hostent_of r2) as [h|]; [|done].
  destruct ((h_addrtype h =? AF_INET) && (h_length h =? 4)); [|done].
  rewrite run_bind.
  match goal with |- context [print_addrs _ k ?w1] =>
    destruct (print_addrs_run (h_addr_list h) k w1) as (w' & ->) end.
  by destruct (h_addr_list h).
Qed.

(** ** Concrete runs *)

Definition loopback (port : Z) : sockaddr_in := mkaddr AF_INET port 0x0100007f.

(** A kernel that accepts every call, with the connection still in progress. *)
Definition pending_kernel : kernel := λ _ c,
  match c with sys_connect _ _ => err_reply EINPROGRESS | _ => ok_reply 0 end.

Lemma connectAsync_discipline_witness :
  fd_discipline 5 (loopback 7) 1 [] (connectAsync 1 5 (loopback 7) 3 pending_kernel world0) ∧
  (connectAsync 1 5 (loopback 7) 3 pending_kernel world0).1 =
    Ok (mkcond ETIMEDOUT generic_category).
Proof.
  split; [|reflexivity].
  apply (connectAsync_discipline 1 5 (loopback 7) 3 pending_kernel world0).
  unfold FD_SETSIZE; lia.
Defined.

Lemma connectAsync_terminates_witness :
  ∃ c w', connectAsync 1 5 (loopback 7) 3 pending_kernel world0 = (Ok c, w').
Proof.
  apply (connectAsync_terminates pending_kernel 5 (loopback 7) 0 1 3 world0);
    [intros h _; right; exists EINPROGRESS; split; [reflexivity|discriminate]
    |lia|unfold FD_SETSIZE; lia].
Defined.

Lemma connectAsync_reports_stale_errno_witness :
  (connectAsync 1 5 (loopback 7) 3
     (script [ok_reply 0; err_reply EINPROGRESS; ints_reply 1 [5];
              ints_reply 0 [111]; ok_reply 0]) world0).1 =
    Ok (mkcond EINPROGRESS system_category).
Proof.
  apply (connectAsync_reports_stale_errno 0 5 (loopback 7) 3 111);
    [unfold FD_SETSIZE; lia|discriminate].
Defined.

(** Finding: a message is 128 characters long whatever the error, zeroes included; and it
    has nothing but zeroes when [strerror_r] returns a text of its own instead of writing
    into the buffer, as the GNU version may. *)
Theorem category_message_padded c e k w :
  ∃ m w', category_message c e k w = (Ok m, w') ∧ length m = 128%nat ∧
    (r_bytes (k (trace w) (sys_strerror_r e 128)) = [] → m = replicate 128 Byte.x00).
Proof.
  unfold category_message, mbind, M_bind, call. cbn [mret M_ret].
  eexists _, _. split; [reflexivity|].
  change (lenZ (replicate 128 Byte.x00)) with 128.
  set (r := k (trace w) (sys_strerror_r e 128)). split.
  - unfold copied_in. rewrite length_take, length_app, length_drop, length_replicate. lia.
  - intros E. unfold copied_in. rewrite E. reflexivity.
Qed.
