(* ===== verification/Echo.v ===== *)
(** * Echo: [set/echo/echo.common.h] and [set/echo/echo.server.cpp]

    The echo server: it blocks some signals, installs a child handler, opens a
    named pipe, listens, and then serves all connections from one [poll] loop.
    ([set/echo_fd/echo.server.cpp] is the same file, built without
    [WAIT_WAKEUP].) *)

From S2P Require Import Prelude Sys Sockops.


Definition NAMEDPIPENAME : string := "/tmp/NAMEDPIPENAME".

(** ** Signals and the pipe *)

(** [while (int pid = waitpid(...) > 0)]: [pid] is the result of the comparison,
    so every line reports 1. *)
Fixpoint sigchild_handle (fuel : nat) : M unit :=
  match fuel with
  | O => lift NoFuel
  | S fuel =>
      r ← call (sys_waitpid (-1) WNOHANG);
      if 0 <? r_ret r then _ ← print "handle subprocess 1"; sigchild_handle fuel
      else mret tt
  end.

(** [None] is [SIG_ERR]; otherwise the handler that was installed before. *)
Definition signal_t (s : Z) : M (option Z) :=
  let sa_flags := if s =? SIGALRM then Z.lor 0 SA_INTERRUPT else Z.lor 0 SA_RESTART in
  r ← call (sys_sigaction s sa_flags);
  if negb (r_ret r =? 0) then mret None else mret (Some (r_int r 0)).

Definition create_fifo : M Z :=
  a ← call (sys_access NAMEDPIPENAME);
  _ ← (if negb (r_ret a =? 0) then
         e ← call (sys_mkfifo NAMEDPIPENAME 511);
         if negb (r_ret e =? 0) then _ ← print "make fifo fail"; lift (Exit (-1)) else mret tt
       else mret tt);
  fifo_id ← call (sys_open NAMEDPIPENAME O_WRONLY);
  if r_ret fifo_id =? -1 then _ ← print "open named fifo fail"; lift (Exit (-1))
  else mret (r_ret fifo_id).

(** [constructor_echo_addr] of [echo.common.h]: the code of the function of the
    same name in [Sockops.h], for the fixed host name, which is a C string. *)
Definition server_name : string := "echo.server".
Definition echo_addr (addr : sockaddr_in) : M (bool * sockaddr_in) :=
  echo_addr_of (print "unfind server") server_name addr.

(** The one of [set/echo_fd/echo.common.h]: the addresses are not printed. *)
Definition echo_fd_addr (addr : sockaddr_in) : M (bool * sockaddr_in) :=
  server_info ← call (sys_getservbyname "echo" "tcp");
  match servent_port server_info with
  | None => mret (false, addr)
  | Some port =>
      let addr := mkaddr AF_INET port (sin_addr addr) in
      host ← call (sys_gethostbyname server_name);
      match hostent_of host with
      | None => mret (false, addr)
      | Some h =>
          if (h_addrtype h =? AF_INET) && (h_length h =? 4) then
            match h_addr_list h !! 0%nat with
            | Some a => mret (true, mkaddr AF_INET port a)
            | None => _ ← print "unfind server"; mret (false, addr)
            end
          else mret (true, addr)
      end
  end.

(** ** The server *)

Record server : Type := mkserver { client_fds : list pollfd; count : Z }.

Definition READABLE : Z := Z.lor POLLRDNORM POLLERR.

(** A new connection.  [garbage] is what the stack held in the [revents] of the
    local [pollfd], which is copied into the array without being set. *)
Definition accept_client (garbage : Z) (s : server) (sock_fd : Z) : M server :=
  r ← call (sys_accept sock_fd);
  if r_ret r <? 0 then _ ← print "accept error :"; lift (Exit (-1))
  else
    _ ← print "generate new connect";
    mret {| client_fds := client_fds s ++
              [{| fd := r_ret r; events := READABLE; revents := garbage |}];
            count := count s ⊕ 1 |}.

(** One connection with an event: [buf] is 1024 zeroes before the [read]. *)
Definition echo_client (p : pollfd) : M pollfd :=
  let connected_fd := fd p in
  r ← call (sys_read connected_fd 1024);
  let n := r_ret r in
  if 0 <? n then
    _ ← print "read messsage";
    d ← lift (load (take 1024 (r_bytes r ++ replicate 1024 Byte.x00)) 0 n);
    _ ← call (sys_send connected_fd d 0);
    mret p
  else if n =? 0 then
    _ ← call (sys_close connected_fd);
    mret {| fd := -1; events := events p; revents := revents p |}
  else _ ← print "read error"; mret p.

(** The loop over the connections. *)
Fixpoint echo_clients (l : list pollfd) : M (list pollfd) :=
  match l with
  | [] => mret []
  | p :: l =>
      p ← (if fd p =? -1 then mret p
           else if negb (Z.land (revents p) READABLE =? 0) then echo_client p
           else mret p);
      l ← echo_clients l;
      mret (p :: l)
  end.

(** What [poll] wrote back. *)
Fixpoint set_revents (l : list pollfd) (rs : list Z) : list pollfd :=
  match l with
  | [] => []
  | p :: l => {| fd := fd p; events := events p; revents := default 0 (head rs) |}
                :: set_revents l (tail rs)
  end.

(** One turn of the loop of [main]; slot 0 is the listening socket. *)
Definition echo_turn (garbage : Z) (sock_fd : Z) (s : server) : M server :=
  n ← call (sys_poll (client_fds s) 1000);
  if r_ret n <? 0 then _ ← print "poll error"; lift (Exit (-1))
  else if r_ret n =? 0 then mret s
  else
    let s := {| client_fds := set_revents (client_fds s) (r_ints n); count := count s |} in
    match client_fds s with
    | [] => undef OutOfBounds
    | p0 :: _ =>
        s ← (if negb (Z.land (revents p0) POLLRDNORM =? 0)
             then accept_client garbage s sock_fd else mret s);
        match client_fds s with
        | [] => undef OutOfBounds
        | p0 :: l => l ← echo_clients l; mret {| client_fds := p0 :: l; count := count s |}
        end
    end.

Fixpoint echo_loop (fuel : nat) (garbage : Z) (sock_fd : Z) (s : server) : M unit :=
  match fuel with
  | O => lift NoFuel
  | S fuel => s ← echo_turn garbage sock_fd s; echo_loop fuel garbage sock_fd s
  end.

(** [wait_wakeup]: whether [WAIT_WAKEUP] is defined; [construct] is the
    [constructor_echo_addr] of the header; [addr] is the local before it is filled. *)
Definition echo_main (wait_wakeup : bool) (construct : sockaddr_in → M (bool * sockaddr_in))
    (fuel : nat) (garbage : Z) (addr : sockaddr_in) : M unit :=
  _ ← call (sys_sigprocmask SIG_BLOCK [SIGHUP; SIGPIPE; SIGURG]);
  _ ← signal_t SIGCHLD;
  _ ← (if wait_wakeup then _ ← create_fifo; mret tt else mret tt);
  sock ← call (sys_socket AF_INET 1 0);
  let sock_fd := r_ret sock in
  '(ok, addr) ← construct addr;
  if negb ok then lift (Exit (-1)) else
  e ← call (sys_bind sock_fd addr);
  if negb (r_ret e =? 0) then _ ← print "bind error :"; lift (Exit (-1)) else
  e ← call (sys_listen sock_fd 100);
  if negb (r_ret e =? 0) then _ ← print "listen error :"; lift (Exit (-1)) else
  echo_loop fuel garbage sock_fd
    {| client_fds := [{| fd := sock_fd; events := POLLRDNORM; revents := 0 |}]; count := 0 |}.

(** The handlers and the pipe of [set/echo_fd/echo.server.cpp], a copy of the code. *)
Definition echo_fd_sigchild_handle : nat → M unit := sigchild_handle.
Definition echo_fd_signal_t : Z → M (option Z) := signal_t.
Definition echo_fd_create_fifo : M Z := create_fifo.

(** The two programs. *)
Definition echo_server_main : nat → Z → sockaddr_in → M unit := echo_main true echo_addr.
Definition echo_fd_server_main : nat → Z → sockaddr_in → M unit := echo_main false echo_fd_addr.

(** ** What a turn does to each connection *)

(** [poll] reported the connection. *)
Definition reported (p : pollfd) : Prop := fd p ≠ -1 ∧ Z.land (revents p) READABLE ≠ 0.

(** The events of one connection, and its slot afterwards. *)
Inductive served : pollfd → list event → pollfd → Prop :=
| served_free p : fd p = -1 → served p [] p
| served_idle p : Z.land (revents p) READABLE = 0 → served p [] p
| served_echo p r o1 o2 :
    reported p → 0 < r_ret r → r_ret r = lenZ (r_bytes r) →
    served p [(sys_read (fd p) 1024, r); (sys_print "read messsage", o1);
              (sys_send (fd p) (r_bytes r) 0, o2)] p
| served_close p r o :
    reported p → r_ret r = 0 →
    served p [(sys_read (fd p) 1024, r); (sys_close (fd p), o)]
           {| fd := -1; events := events p; revents := revents p |}
| served_error p r o :
    reported p → r_ret r < 0 →
    served p [(sys_read (fd p) 1024, r); (sys_print "read error", o)] p.

Lemma load_read_buffer bs n :
  0 < n → n = lenZ bs → n ≤ 1024 → load (take 1024 (bs ++ replicate 1024 Byte.x00)) 0 n = Ok bs.
Proof.
  intros Hn Hl Hm. unfold lenZ in Hl.
  rewrite load_Ok by (unfold lenZ; rewrite ?length_take, ?length_app, ?length_replicate; lia).
  f_equal. unfold slice. rewrite drop_0, take_take.
  replace (Z.to_nat n `min` 1024)%nat with (length bs) by lia. apply take_app_length.
Qed.

Lemma echo_client_served k p w :
  read_contract k → reported p →
  ∃ evs p' w', echo_client p k w = (Ok p', w') ∧ trace w' = trace w ++ evs ∧ served p evs p'.
Proof.
  intros Hk Hf. specialize (Hk (trace w) (fd p) 1024). cbv zeta in Hk.
  unfold echo_client. rewrite run_call_bind.
  set (r := k (trace w) (sys_read (fd p) 1024)) in *. cbv zeta.
  destruct (0 <? r_ret r) eqn:E; zbool.
  - destruct Hk as [Hk|[Hr Hm]]; [lia|].
    rewrite run_print_bind, load_read_buffer by (done || lia).
    rewrite run_lift_bind, run_call_bind.
    eexists _, _, _. split; [reflexivity|]. cbn [trace].
    split; [rewrite <- !app_assoc; reflexivity|]. by apply served_echo.
  - destruct (r_ret r =? 0) eqn:E0; zbool.
    + rewrite run_call_bind. eexists _, _, _. split; [reflexivity|]. cbn [trace].
      split; [rewrite <- !app_assoc; reflexivity|]. by apply served_close.
    + rewrite run_print_bind. eexists _, _, _. split; [reflexivity|]. cbn [trace].
      split; [rewrite <- !app_assoc; reflexivity|]. apply served_error; [done|lia].
Qed.

Lemma echo_clients_run k l w :
  read_contract k →
  ∃ evss l' w', echo_clients l k w = (Ok l', w') ∧ trace w' = trace w ++ concat evss ∧
                Forall3 served l evss l'.
Proof.
  intros Hk. revert w. induction l as [|p l IH]; intros w; cbn [echo_clients].
  - exists [], [], w. split; [done|]. split; [by rewrite app_nil_r|constructor].
  - assert (∃ evs p' w1,
      (if fd p =? -1 then mret p
       else if negb (Z.land (revents p) READABLE =? 0) then echo_client p else mret p) k w
        = (Ok p', w1) ∧ trace w1 = trace w ++ evs ∧ served p evs p') as (evs & p' & w1 & E1 & T1 & S1).
    { destruct (fd p =? -1) eqn:Ef; zbool;
        [exists [], p, w; rewrite app_nil_r; split; [done|]; split; [done|by apply served_free]|].
      destruct (Z.land (revents p) READABLE =? 0) eqn:Er; zbool; cbn [negb];
        [exists [], p, w; rewrite app_nil_r; split; [done|]; split; [done|by apply served_idle]|].
      by apply echo_client_served. }
    rewrite (run_bind_Ok _ _ _ _ _ _ E1).
    destruct (IH w1) as (evss & l' & w2 & E2 & T2 & S2).
    rewrite (run_bind_Ok _ _ _ _ _ _ E2). exists (evs :: evss), (p' :: l'), w2.
    split; [done|]. split; [by rewrite T2, T1, <- app_assoc|by constructor].
Qed.

(** C32: The echo loop.  In a pass over the connections every connection in use
    that [poll] reported, and no other, is read once, and what was read is sent back on the same
    connection, unchanged and before the next connection is looked at; an end of
    file closes it and frees its slot; the others are left alone.  The pass always
    completes. *)
Theorem echo_clients_serve k l w :
  read_contract k →
  ∃ evss l' w', echo_clients l k w = (Ok l', w') ∧ trace w' = trace w ++ concat evss ∧
                Forall3 served l evss l'.
Proof. apply echo_clients_run. Qed.

(** Replies with data for every read, and success otherwise. *)
Definition talkative : kernel := λ _ c,
  match c with
  | sys_read _ n => data_reply (take (Z.to_nat n) [Byte.x68; Byte.x69])
  | _ => ok_reply 0
  end.

Lemma talkative_contract : read_contract talkative.
Proof.
  intros h f n. cbv zeta. cbn [talkative r_ret r_bytes data_reply]. unfold lenZ.
  destruct (Z_le_gt_dec n 0); [left; replace (Z.to_nat n) with 0%nat by lia; done|].
  right. split; [done|]. rewrite length_take. lia.
Defined.

Lemma echo_clients_serve_witness :
  ∃ evss l' w', echo_clients [mkpollfd 5 READABLE POLLRDNORM; mkpollfd (-1) 0 0] talkative world0
                  = (Ok l', w') ∧ trace w' = trace world0 ++ concat evss ∧
    Forall3 served [mkpollfd 5 READABLE POLLRDNORM; mkpollfd (-1) 0 0] evss l'.
Proof. apply (echo_clients_serve talkative). exact talkative_contract. Defined.

(** Finding.  The [revents] of a new connection is never set, and the pass
    that follows the [accept] in the same turn looks at it: when the stack held a
    bit of the mask there, the server reads from a connection [poll] has not
    reported, and blocks in it until the peer sends. *)
Theorem echo_reads_unpolled garbage sock_fd k w conn cs rs :
  Z.land garbage READABLE ≠ 0 → 0 ≤ conn →
  let s := {| client_fds := [mkpollfd sock_fd POLLRDNORM 0]; count := 0 |} in
  replies k (trace w)
    (sys_poll (client_fds s) 1000 :: sys_accept sock_fd ::
     sys_print "generate new connect" :: cs)
    (ints_reply 1 [POLLRDNORM] :: ok_reply conn :: ok_reply 0 :: rs) →
  ∃ w1, trace w1 = trace w ++
          [(sys_poll (client_fds s) 1000, ints_reply 1 [POLLRDNORM]);
           (sys_accept sock_fd, ok_reply conn); (sys_print "generate new connect", ok_reply 0)] ∧
        echo_turn garbage sock_fd s k w =
          (p ← echo_client (mkpollfd conn READABLE garbage);
           mret {| client_fds := [mkpollfd sock_fd POLLRDNORM POLLRDNORM; p]; count := 0 ⊕ 1 |}) k w1.
Proof.
  intros Hg Hconn s Hr.
  destruct (call_replies _ _ _ _ _ _ Hr) as [Hc1 Hr1].
  destruct (call_replies _ _ _ _ _ _ Hr1) as [Hc2 Hr2].
  destruct (call_replies _ _ _ _ _ _ Hr2) as [Hc3 _].
  set (w3 := advance (advance (advance w _ _) _ _) _ _) in *.
  exists w3. split; [subst w3; cbn; by rewrite <- !app_assoc|].
  unfold echo_turn. rewrite (run_bind_Ok _ _ _ _ _ _ Hc1).
  change (r_ret (ints_reply 1 [POLLRDNORM]) <? 0) with false.
  change (r_ret (ints_reply 1 [POLLRDNORM]) =? 0) with false.
  set (s1 := {| client_fds := set_revents (client_fds s) _; count := _ |}).
  change s1 with {| client_fds := [mkpollfd sock_fd POLLRDNORM POLLRDNORM]; count := 0 |}.
  cbv iota zeta. cbn [client_fds].
  change (negb (Z.land (revents (mkpollfd sock_fd POLLRDNORM POLLRDNORM)) POLLRDNORM =? 0)) with true.
  cbv iota.
  assert (Ha : accept_client garbage {| client_fds := [mkpollfd sock_fd POLLRDNORM POLLRDNORM]; count := 0 |}
                 sock_fd k (advance w (sys_poll (client_fds s) 1000) (ints_reply 1 [POLLRDNORM])) =
    (Ok {| client_fds := [mkpollfd sock_fd POLLRDNORM POLLRDNORM; mkpollfd conn READABLE garbage];
           count := 0 ⊕ 1 |}, w3)).
  { unfold accept_client. rewrite (run_bind_Ok _ _ _ _ _ _ Hc2). cbn [r_ret ok_reply].
    rewrite (proj2 (Z.ltb_ge conn 0)) by done.
    rewrite (run_bind_Ok (print _) _ _ _ tt w3); [done|].
    unfold print. by rewrite (run_bind_Ok _ _ _ _ _ _ Hc3). }
  rewrite (run_bind_Ok _ _ _ _ _ _ Ha). cbn [client_fds echo_clients fd revents].
  rewrite (proj2 (Z.eqb_neq conn (-1))), (proj2 (Z.eqb_neq _ 0) Hg) by lia. cbn [negb].
  rewrite !run_bind.
  destruct (echo_client (mkpollfd conn READABLE garbage) k w3) as [[p| | | | |] w4]; done.
Qed.

Lemma echo_reads_unpolled_witness :
  let s := {| client_fds := [mkpollfd 3 POLLRDNORM 0]; count := 0 |} in
  let k := script [ints_reply 1 [POLLRDNORM]; ok_reply 9; ok_reply 0; ok_reply 0; ok_reply 0] in
  ∃ w1, trace w1 = trace world0 ++
          [(sys_poll (client_fds s) 1000, ints_reply 1 [POLLRDNORM]);
           (sys_accept 3, ok_reply 9); (sys_print "generate new connect", ok_reply 0)] ∧
        echo_turn 64 3 s k world0 =
          (p ← echo_client (mkpollfd 9 READABLE 64);
           mret {| client_fds := [mkpollfd 3 POLLRDNORM POLLRDNORM; p]; count := 0 ⊕ 1 |}) k w1.
Proof.
  apply (echo_reads_unpolled 64 3 (script _) world0 9 [] []); [discriminate|lia|].
  repeat split.
Defined.
