(* ===== verification/EchoClient.v ===== *)
(** * EchoClient: [set/echo/echo.client.cpp]

    The interactive client of the echo server: one [select] loop over the terminal
    and the connection.  [REDIRECT_STDIN] and [WAIT_WAKEUP] are defined by the header
    it includes.  The last part puts the client and the server of [Echo] together. *)

From S2P Require Import Prelude Endian Sys Sockops Echo.

Definition ECHOFILEPATH : string := "/workspaces/ex-netlink/set/echo/echo.doc.txt".

Definition sys_sigignore (s : Z) : syscall := sys_misc "sigignore" [s] [].
Definition sys_dup2 (a b : Z) : syscall := sys_misc "dup2" [a; b] [].
(** [fgets] on the standard input: [r_ret] is 0 for a null result. *)
Definition sys_fgets (n : Z) : syscall := sys_misc "fgets" [n] [].
Definition sys_fputs (s : list Byte.byte) : syscall := sys_misc "fputs" [] s.

(** [char read_buf[1024]] after [bzero] and a call that copied into it. *)
Definition read_buf (r : reply) : list Byte.byte := copied_in (replicate 1024 Byte.x00) r.

(** ** The loop *)

(** [set] lists the descriptors whose bit is set. *)
Record client : Type := mkclient { stand_id_flag : Z; fds : list Z }.

(** [select] over the first ten descriptors rewrites the first word of the set when it
    succeeds; when it fails the set stays as it was. *)
Definition select_set (set : list Z) (r : reply) : list Z :=
  if r_ret r <? 0 then set else r_ints r ++ filter (λ fd, 64 ≤ fd) set.

Inductive stdin_result : Type := Stdin_eof | Stdin_quit | Stdin_sent.

Definition on_stdin (sock_fd : Z) : M stdin_result :=
  line ← call (sys_fgets 1024);
  if r_ret line =? 0 then
    _ ← call (sys_shutdown sock_fd SHUT_WR); mret Stdin_eof
  else if bool_decide (read_buf line !! 0%nat = Some Byte.x71) then
    _ ← call (sys_close sock_fd); _ ← print "reconnect ..."; mret Stdin_quit
  else
    s ← lift (c_string (read_buf line));
    e ← call (sys_write sock_fd s);
    _ ← (if r_ret e <? 0 then print "send error" else mret tt);
    mret Stdin_sent.

Definition on_socket (sock_fd : Z) : M unit :=
  e ← call (sys_read sock_fd 1024);
  if r_ret e =? 0 then
    _ ← call (sys_close sock_fd); _ ← print "peer close"; lift (Exit 0)
  else if r_ret e <? 0 then _ ← print "read error"; lift (Exit (-1))
  else
    s ← lift (c_string (read_buf e));
    _ ← call (sys_fputs s); mret tt.

(** One turn: [None] is [goto reconnect]. *)
Definition client_turn (sock_fd : Z) (c : client) : M (option client) :=
  let set := if stand_id_flag c =? 0 then 0 :: fds c else fds c in
  _ ← FD_SET sock_fd;
  let set := sock_fd :: set in
  r ← call (sys_select 10 set [] None);
  let set := select_set set r in
  in_ ← (if bool_decide (0 ∈ set) then r ← on_stdin sock_fd; mret (Some r) else mret None);
  match in_ with
  | Some Stdin_eof => mret (Some (mkclient 1 (filter (λ fd, fd ≠ 0) set)))
  | Some Stdin_quit => mret None
  | _ =>
      _ ← (if bool_decide (sock_fd ∈ set) then on_socket sock_fd else mret tt);
      mret (Some (mkclient (stand_id_flag c) set))
  end.

Fixpoint client_loop (fuel : nat) (sock_fd : Z) (c : client) : M unit :=
  match fuel with
  | O => lift NoFuel
  | S fuel =>
      r ← client_turn sock_fd c;
      match r with Some c => client_loop fuel sock_fd c | None => mret tt end
  end.

(** ** The connection *)

Definition wait_wakeup : M unit :=
  a ← call (sys_access NAMEDPIPENAME);
  _ ← (if negb (r_ret a =? 0) then print "access pip error" else mret tt);
  pipo_fd ← call (sys_open NAMEDPIPENAME O_RDONLY);
  if r_ret pipo_fd <? 0 then _ ← print "open pipo error"; lift (Exit (-1)) else mret tt.

(** From the label [reconnect] to the loop; [htonl(INADDR_ANY)] is 0. *)
Definition client_connect : M Z :=
  sock ← call (sys_socket AF_INET SOCK_STREAM 0);
  let sock_fd := r_ret sock in
  if sock_fd <? 0 then _ ← print "create socket error"; lift (Exit (-1)) else
  doc_fd ← call (sys_open ECHOFILEPATH O_RDONLY);
  _ ← call (sys_dup2 (r_ret doc_fd) 0);
  _ ← call (sys_setsockopt sock_fd SOL_SOCKET SO_REUSEADDR 1);
  _ ← call (sys_setsockopt sock_fd SOL_SOCKET SO_REUSEPORT 1);
  e ← call (sys_bind sock_fd (mkaddr AF_INET (htons 3344) 0));
  if negb (r_ret e =? 0) then _ ← print "bind error"; lift (Exit (-1)) else
  '(ok, addr) ← echo_addr (mkaddr 0 0 0);
  if negb (ok : bool) then lift (Exit (-1)) else
  e ← call (sys_connect sock_fd addr);
  if negb (r_ret e =? 0) then _ ← print "connect error"; lift (Exit (-1)) else
  mret sock_fd.

(** [sessions] bounds the reconnections; [garbage] is what the stack holds in [set]
    (it is not initialised). *)
Fixpoint client_sessions (sessions fuel : nat) (garbage : nat → list Z) : M unit :=
  match sessions with
  | O => lift NoFuel
  | S sessions =>
      sock_fd ← client_connect;
      _ ← client_loop fuel sock_fd (mkclient 0 (garbage sessions));
      client_sessions sessions fuel garbage
  end.

Definition echo_client_main (sessions fuel : nat) (garbage : nat → list Z) : M unit :=
  _ ← call (sys_sigignore SIGPIPE);
  _ ← wait_wakeup;
  client_sessions sessions fuel garbage.

(** ** What a run does to the streams *)

(** The bytes an event moves: typed on the terminal and meant for the server (a line
    that starts with [q] is a command), written or sent to a descriptor, received from
    one, received as text, shown to the user. *)
Definition typed_by (e : event) : list Byte.byte :=
  if bool_decide (e.1 = sys_fgets 1024) && negb (r_ret e.2 =? 0)
     && negb (bool_decide (r_bytes e.2 !! 0%nat = Some Byte.x71)) then cut0 (r_bytes e.2) else [].
Definition written_by (f : Z) (e : event) : list Byte.byte :=
  match e.1 with
  | sys_write g d | sys_send g d _ => if f =? g then d else []
  | _ => []
  end.
Definition received_by (f : Z) (e : event) : list Byte.byte :=
  match e.1 with
  | sys_read g _ => if (f =? g) && (0 <? r_ret e.2) then r_bytes e.2 else []
  | _ => []
  end.
Definition text_by (f : Z) (e : event) : list Byte.byte := cut0 (received_by f e).
Definition shown_by (e : event) : list Byte.byte :=
  match e.1 with
  | sys_misc name _ d => if String.eqb name "fputs" then d else []
  | _ => []
  end.

Definition typed (l : list event) : list Byte.byte := l ≫= typed_by.
Definition written (f : Z) (l : list event) : list Byte.byte := l ≫= written_by f.
Definition received (f : Z) (l : list event) : list Byte.byte := l ≫= received_by f.
Definition received_text (f : Z) (l : list event) : list Byte.byte := l ≫= text_by f.
Definition shown (l : list event) : list Byte.byte := l ≫= shown_by.

(** A property of histories that holds of a run when it holds of its pieces. *)
Class Piecewise (Q : list event → Prop) : Prop := {
  piecewise_nil : Q [];
  piecewise_app l1 l2 : Q l1 → Q l2 → Q (l1 ++ l2)
}.

(** [keeps Q F k m R]: against [k], the program [m] always adds a history with [Q], and
    its run is defined: it returns a value with [R], exits or is still running; or it
    ends undefined at an event with [F], after a history with [Q]. *)
Definition well_defined {A} (R : A → Prop) (o : outcome A) : Prop :=
  match o with Ok a => R a | Exit _ | NoFuel => True | _ => False end.

Definition keeps (Q : list event → Prop) (F : event → Prop) (k : kernel) {A} (m : M A) (R : A → Prop) : Prop :=
  ∀ w, ∃ l, trace (m k w).2 = trace w ++ l ∧
    ((Q l ∧ well_defined R (m k w).1) ∨
     ∃ l0 e, l = l0 ++ [e] ∧ Q l0 ∧ F e ∧ (m k w).1 = Undef OutOfBounds).

Abbreviation any := (λ _, True) (only parsing).
Abbreviation never := (λ _, False) (only parsing).

Section Keeps.
Context (Q : list event → Prop) {HQ : Piecewise Q} (F : event → Prop) (k : kernel).

Lemma keeps_lift {A} (o : outcome A) R : well_defined R o → keeps Q F k (lift o) R.
Proof. intros H w. exists []. rewrite app_nil_r. split; [done|]. left. split; [apply piecewise_nil|done]. Qed.

Lemma keeps_ret {A} (a : A) (R : A → Prop) : R a → keeps Q F k (mret a) R.
Proof. apply (keeps_lift (Ok a)). Qed.

Lemma keeps_bind {A B} (m : M A) (f : A → M B) R S :
  keeps Q F k m R → (∀ a, R a → keeps Q F k (f a) S) → keeps Q F k (m ≫= f) S.
Proof.
  intros Hm Hf w. destruct (Hm w) as (l & T & [[Hl Hd]|(l0 & e & -> & Hl & He & Ho)]); rewrite run_bind.
  - destruct (m k w) as [[a|e| |u|c|] w'] eqn:E; cbn in T, Hd |- *; try done; [|by exists l; eauto..].
    destruct (Hf a Hd w') as (l' & T' & H'). exists (l ++ l').
    rewrite T', T, app_assoc. split; [done|]. destruct H' as [[Hl' Hd']|(l0 & e & -> & Hl' & He & Ho)].
    + left. split; [by apply piecewise_app|done].
    + right. exists (l ++ l0), e. rewrite app_assoc. split; [done|]. by split; [apply piecewise_app|].
  - destruct (m k w) as [[a|?| |u|c|] w'] eqn:E; cbn in Ho; try done. injection Ho as ->.
    exists (l0 ++ [e]). split; [done|]. right. by exists l0, e.
Qed.

Lemma keeps_call c : (∀ r, Q [(c, r)]) → keeps Q F k (call c) any.
Proof. intros H w. eexists. split; [reflexivity|]. left. split; [apply H|done]. Qed.

Lemma keeps_print s : (∀ r, Q [(sys_print s, r)]) → keeps Q F k (print s) any.
Proof. intros H. eapply keeps_bind; [by apply keeps_call|]. intros; by apply keeps_ret. Qed.
End Keeps.

(** [keep_step] takes the next statement of a program. *)
Ltac keep_step :=
  lazymatch goal with
  | |- keeps _ _ _ (mret _) _ => apply keeps_ret; [apply _|]
  | |- keeps _ _ _ (lift _) _ => apply keeps_lift; [apply _|done]
  | |- keeps _ _ _ (call _) _ => apply keeps_call; done
  | |- keeps _ _ _ (print _) _ => apply keeps_print; [apply _|done]
  | |- keeps _ _ _ (call _ ≫= _) _ => eapply keeps_bind; [apply _|apply keeps_call; done|intros ? _]
  | |- keeps _ _ _ (print _ ≫= _) _ =>
      eapply keeps_bind; [apply _|apply keeps_print; [apply _|done]|intros ? _]
  | |- keeps _ _ _ (_ ≫= _) _ => eapply keeps_bind; [apply _| |]
  end.

(** What the client owes: the server gets what was typed, the user sees what came. *)
Definition relayed (sock_fd : Z) (l : list event) : Prop :=
  written sock_fd l = typed l ∧ shown l = received_text sock_fd l.

#[export] Instance relayed_piecewise sock_fd : Piecewise (relayed sock_fd).
Proof.
  split; [done|]. intros l1 l2 [H1 H2] [H3 H4].
  unfold relayed, written, typed, shown, received_text in *. rewrite !bind_app. by split; f_equal.
Qed.

(** A [read] that fills the buffer with text, so that nothing terminates it. *)
Definition full_read (sock_fd : Z) (e : event) : Prop :=
  e.1 = sys_read sock_fd 1024 ∧ lenZ (r_bytes e.2) = 1024 ∧ Byte.x00 ∉ r_bytes e.2.

(** [fgets] leaves room for its terminator. *)
Definition fgets_contract (k : kernel) : Prop :=
  ∀ h n, let r := k h (sys_fgets n) in r_ret r = 0 ∨ lenZ (r_bytes r) < n.

Lemma c_string_read_buf r :
  lenZ (r_bytes r) ≤ 1024 →
  c_string (read_buf r) =
    if bool_decide (lenZ (r_bytes r) = 1024 ∧ Byte.x00 ∉ r_bytes r) then Undef OutOfBounds
    else Ok (cut0 (r_bytes r)).
Proof. apply (c_string_copied 1024). Qed.

Lemma read_buf_head r :
  lenZ (r_bytes r) ≤ 1024 →
  bool_decide (read_buf r !! 0%nat = Some Byte.x71) = bool_decide (r_bytes r !! 0%nat = Some Byte.x71).
Proof.
  intros Hl. unfold read_buf. rewrite copied_padded by (unfold lenZ in Hl; lia). apply bool_decide_ext.
  destruct (r_bytes r) as [|b bs]; [|done]. cbn. split; [|done]. intros H. discriminate.
Qed.

Lemma on_stdin_keeps sock_fd k :
  fgets_contract k → keeps (relayed sock_fd) (full_read sock_fd) k (on_stdin sock_fd) any.
Proof.
  intros Hk w. unfold on_stdin. rewrite run_call_bind.
  specialize (Hk (trace w) 1024). cbv zeta in Hk.
  set (r := k (trace w) (sys_fgets 1024)) in *.
  destruct (r_ret r =? 0) eqn:E0; zbool.
  - rewrite run_call_bind. eexists. split; [cbn; rewrite <- app_assoc; reflexivity|]. left.
    split; [|done]. split; [|done]. unfold typed, written. cbn. unfold typed_by. cbn.
    by rewrite E0.
  - destruct Hk as [Hl|Hl]; [lia|]. rewrite read_buf_head by lia.
    destruct (bool_decide (r_bytes r !! 0%nat = Some Byte.x71)) eqn:Eq.
    + rewrite run_call_bind, run_print_bind. eexists. split; [cbn; rewrite <- !app_assoc; reflexivity|]. left.
      split; [|done]. split; [|done]. unfold typed, written. cbn. unfold typed_by. cbn.
      rewrite Eq. by rewrite andb_false_r.
    + rewrite c_string_read_buf, bool_decide_eq_false_2 by lia.
      rewrite run_lift_bind, run_call_bind.
      set (e := k _ (sys_write _ _)).
      assert (relayed sock_fd [(sys_fgets 1024, r); (sys_write sock_fd (cut0 (r_bytes r)), e)]).
      { split; [|done]. unfold typed, written. cbn. unfold typed_by, written_by. cbn.
        rewrite Eq, Z.eqb_refl, (proj2 (Z.eqb_neq _ _) E0). cbn. done. }
      destruct (r_ret e <? 0);
        [rewrite run_print_bind|rewrite (run_bind_Ok (mret tt) _ _ _ _ _ eq_refl)]; eexists;
        (split; [cbn; rewrite <- !app_assoc; reflexivity|left; split; [|done]]); [|done].
      by apply (piecewise_app [_; _] [_]).
Qed.

Lemma on_socket_keeps sock_fd k :
  read_contract k → keeps (relayed sock_fd) (full_read sock_fd) k (on_socket sock_fd) any.
Proof.
  intros Hk w. unfold on_socket. rewrite run_call_bind.
  specialize (Hk (trace w) sock_fd 1024). cbv zeta in Hk.
  set (r := k (trace w) (sys_read sock_fd 1024)) in *.
  assert (text_by sock_fd (sys_read sock_fd 1024, r) = if 0 <? r_ret r then cut0 (r_bytes r) else []) as HR
    by (unfold text_by, received_by; cbn; rewrite Z.eqb_refl; by destruct (0 <? r_ret r)).
  destruct (r_ret r =? 0) eqn:E0; zbool.
  - rewrite run_call_bind, run_print_bind. eexists. split; [cbn; rewrite <- !app_assoc; reflexivity|]. left.
    split; [|done]. split; [done|]. unfold shown, received_text. cbn [app mbind list_bind]. rewrite HR, E0. done.
  - destruct (r_ret r <? 0) eqn:E1; zbool.
    + rewrite run_print_bind. eexists. split; [cbn; rewrite <- !app_assoc; reflexivity|]. left.
      split; [|done]. split; [done|]. unfold shown, received_text. cbn [app mbind list_bind].
      rewrite HR, (proj2 (Z.ltb_ge 0 (r_ret r))) by lia. done.
    + destruct Hk as [Hl|(Hl & Hn)]; [lia|]. rewrite c_string_read_buf by lia.
      case_bool_decide as Ef.
      * eexists. split; [reflexivity|]. right. exists [], (sys_read sock_fd 1024, r).
        split; [done|]. split; [apply piecewise_nil|]. by split.
      * rewrite run_lift_bind, run_call_bind. eexists. split; [cbn; rewrite <- !app_assoc; reflexivity|]. left.
        split; [|done]. split; [done|]. unfold shown, received_text. cbn [app mbind list_bind].
        rewrite HR, (proj2 (Z.ltb_lt 0 (r_ret r))) by lia. cbn. by rewrite !app_nil_r.
Qed.

Lemma FD_SET_keeps Q `{!Piecewise Q} F k f : 0 ≤ f < FD_SETSIZE → keeps Q F k (FD_SET f) any.
Proof.
  intros H. unfold FD_SET. rewrite (proj2 (Z.leb_le 0 f)), (proj2 (Z.ltb_lt f FD_SETSIZE)) by lia.
  by apply keeps_ret.
Qed.

Section Client.
Context (k : kernel) (sock_fd : Z).
Context (Hline : fgets_contract k) (Hread : read_contract k) (Hfd : 0 ≤ sock_fd < FD_SETSIZE).

Lemma client_turn_keeps c : keeps (relayed sock_fd) (full_read sock_fd) k (client_turn sock_fd c) any.
Proof.
  unfold client_turn. keep_step; [by apply FD_SET_keeps; [apply _|]|intros _ _].
  keep_step. keep_step.
  - case_bool_decide; [|by keep_step; instantiate (1 := any)].
    keep_step; [by apply on_stdin_keeps|]. intros. by keep_step.
  - intros [[]|] _; try by keep_step.
    all: keep_step; [|intros; by keep_step];
      case_bool_decide; [by apply on_socket_keeps|by keep_step].
Qed.

Lemma client_loop_keeps fuel c :
  keeps (relayed sock_fd) (full_read sock_fd) k (client_loop fuel sock_fd c) any.
Proof.
  revert c. induction fuel as [|fuel IH]; intros c; cbn [client_loop]; [by keep_step|].
  keep_step; [by apply client_turn_keeps|]. intros [c'|] _; [apply IH|by keep_step].
Qed.
End Client.


(** ** The server's side *)

(** On every descriptor, what the server sends is what it received there. *)
Definition echoed (l : list event) : Prop := ∀ c, written c l = received c l.

#[export] Instance echoed_piecewise : Piecewise echoed.
Proof.
  split; [done|]. intros l1 l2 H1 H2 c. specialize (H1 c). specialize (H2 c).
  unfold written, received in *. rewrite !bind_app. by f_equal.
Qed.

Lemma served_echoed p l p' : served p l p' → echoed l.
Proof.
  intros [] c; try done; unfold written, received; cbn [app mbind list_bind];
    unfold written_by, received_by; cbn.
  - destruct (c =? fd p0); [|done]. by rewrite (proj2 (Z.ltb_lt 0 (r_ret r))), !app_nil_r by lia.
  - rewrite (proj2 (Z.ltb_ge 0 (r_ret r))), andb_false_r by lia. done.
  - rewrite (proj2 (Z.ltb_ge 0 (r_ret r))), andb_false_r by lia. done.
Qed.

Lemma echo_clients_keeps k l : read_contract k → keeps echoed never k (echo_clients l) any.
Proof.
  intros Hk w. destruct (echo_clients_run k l w Hk) as (evss & l' & w' & E & T & H).
  rewrite E. exists (concat evss). split; [done|]. left. split; [|done]. clear E T.
  induction H as [|p evs p' ps evss ps' Hp _ IH]; [done|].
  cbn. apply piecewise_app; [by eapply served_echoed|done].
Qed.

(** Slot 0 is never given up. *)
Lemma echo_turn_keeps garbage sock_fd s k :
  read_contract k → client_fds s ≠ [] →
  keeps echoed never k (echo_turn garbage sock_fd s) (λ s', client_fds s' ≠ []).
Proof.
  intros Hk Hs. unfold echo_turn. keep_step.
  destruct (r_ret a <? 0); [by keep_step; keep_step|].
  destruct (r_ret a =? 0); [by keep_step|]. cbv zeta. cbn [client_fds].
  destruct (client_fds s) as [|p ps]; [done|]. cbn [set_revents client_fds].
  apply (keeps_bind _ _ _ _ _ (λ s', client_fds s' ≠ [])).
  - destruct (negb _); [|by keep_step]. unfold accept_client. keep_step.
    destruct (r_ret _ <? 0); [by keep_step; keep_step|]. keep_step. by keep_step.
  - intros s' Hs'. destruct (client_fds s'); [done|].
    keep_step; [by apply echo_clients_keeps|]. intros. by keep_step.
Qed.

Lemma echo_loop_keeps fuel garbage sock_fd s k :
  read_contract k → client_fds s ≠ [] → keeps echoed never k (echo_loop fuel garbage sock_fd s) any.
Proof.
  intros Hk. revert s. induction fuel as [|fuel IH]; intros s Hs; cbn [echo_loop]; [by keep_step|].
  keep_step; [by apply echo_turn_keeps|]. intros s' Hs'. by apply IH.
Qed.

(** ** Client and server *)

Lemma typed_no_zero l : Byte.x00 ∉ typed l.
Proof.
  intros (e & H & _)%list_elem_of_bind. unfold typed_by in H.
  destruct (_ && _ && _); [by apply cut0_no_zero in H|by apply elem_of_nil in H].
Qed.

Lemma received_text_all f l : Byte.x00 ∉ received f l → received_text f l = received f l.
Proof.
  unfold received_text, received. induction l as [|e l IH]; [done|].
  cbn [mbind list_bind]. rewrite elem_of_app. intros H. unfold text_by at 1.
  rewrite cut0_text, IH by tauto. done.
Qed.

Lemma prefix_no_zero (a b : list Byte.byte) : a `prefix_of` b → Byte.x00 ∉ b → Byte.x00 ∉ a.
Proof. intros [c ->]. rewrite elem_of_app. tauto. Qed.

(** What a client has relayed, also when it ends in a full buffer. *)
Lemma client_streams fuel sock_fd c k :
  fgets_contract k → read_contract k → 0 ≤ sock_fd < FD_SETSIZE →
  let l := trace (client_loop fuel sock_fd c k world0).2 in
  written sock_fd l = typed l ∧
  ∃ l0, shown l = received_text sock_fd l0 ∧ received sock_fd l0 `prefix_of` received sock_fd l.
Proof.
  intros Hl Hr Hf.
  destruct (client_loop_keeps k sock_fd Hl Hr Hf fuel c world0) as (l & -> & H). cbn [trace world0 app].
  destruct H as [[[W S] _]|(l0 & [call0 r0] & -> & [W S] & (E & _) & _)].
  - split; [done|]. by exists l.
  - cbn in E. subst call0. unfold written, typed, shown, received in *. rewrite !bind_app, W, S.
    cbn. split; [by rewrite !app_nil_r|]. exists l0. rewrite app_nil_r. split; [done|].
    apply prefix_app_r. done.
Qed.

(** C11: Client and server together.  On kernels whose [fgets] and [read] keep their
    contracts, and when the network delivers to each side a prefix of what the other wrote,
    whatever the turns of the two processes and whatever is typed: the terminal has shown a
    prefix of what was typed, that is of the lines up to a zero byte: the echo never
    alters, reorders or invents a byte. *)
Theorem echo_end_to_end fuelc fuels sock_fd conn listen_fd garbage c kc ks :
  fgets_contract kc → read_contract kc → 0 ≤ sock_fd < FD_SETSIZE → read_contract ks →
  let s0 := {| client_fds := [mkpollfd listen_fd POLLRDNORM 0]; count := 0 |} in
  let client_side := trace (client_loop fuelc sock_fd c kc world0).2 in
  let server_side := trace (echo_loop fuels garbage listen_fd s0 ks world0).2 in
  received conn server_side `prefix_of` written sock_fd client_side →
  received sock_fd client_side `prefix_of` written conn server_side →
  shown client_side `prefix_of` typed client_side.
Proof.
  intros Hl Hr Hf Hs s0 client_side server_side Hup Hdown.
  destruct (client_streams fuelc sock_fd c kc Hl Hr Hf) as [W (l0 & S & P)]. fold client_side in W, S, P.
  assert (echoed server_side) as E.
  { destruct (echo_loop_keeps fuels garbage listen_fd s0 ks Hs ltac:(done) world0) as (ls & Ts & [[E _]|(? & ? & _ & _ & [] & _)]).
    unfold server_side. rewrite Ts. exact E. }
  rewrite W in Hup. rewrite (E conn) in Hdown.
  assert (received sock_fd l0 `prefix_of` typed client_side) as Hall by (etrans; [exact P|]; by etrans).
  rewrite S, received_text_all; [done|]. eapply prefix_no_zero; [exact Hall|apply typed_no_zero].
Qed.

(** ** Concrete runs *)

Definition hi : list Byte.byte := text "hi" ++ [Byte.x0a].

Definition chat : kernel := λ _ c,
  match c with
  | sys_select _ set _ _ => ints_reply (lenZ set) set
  | sys_read _ n => if 4 <? n then data_reply hi else ok_reply 0
  | sys_write _ d => ok_reply (lenZ d)
  | c => if bool_decide (c = sys_fgets 1024) then data_reply hi else ok_reply 0
  end.

Lemma chat_line : fgets_contract chat.
Proof.
  intros h n. cbv zeta. change (chat h (sys_fgets n)) with
    (if bool_decide (sys_fgets n = sys_fgets 1024) then data_reply hi else ok_reply 0).
  case_bool_decide as E; [|by left]. injection E as ->. by right.
Defined.

Lemma chat_read : read_contract chat.
Proof.
  intros h f n. cbv zeta. cbn [chat]. destruct (4 <? n) eqn:E; zbool; [|by left]. right.
  change (r_ret (data_reply hi)) with 3. split; [done|lia].
Defined.


(** The run of the witness is not empty: both lines went out and came back. *)
Example client_chats :
  let l := trace (client_loop 2 5 (mkclient 0 []) chat world0).2 in
  written 5 l = hi ++ hi ∧ shown l = hi ++ hi.
Proof. by vm_compute. Qed.

(** A connection in the first turn, a line on it in the second. *)
Definition echoing : kernel := λ h c,
  match c with
  | sys_poll [_] _ => ints_reply 1 [POLLRDNORM]
  | sys_poll _ _ => ints_reply 1 [0; POLLRDNORM]
  | sys_accept _ => ok_reply 9
  | sys_read _ n => if 4 <? n then data_reply hi else ok_reply 0
  | _ => ok_reply 0
  end.

Lemma echoing_contract : read_contract echoing.
Proof.
  intros h f n. cbv zeta. cbn [echoing]. destruct (4 <? n) eqn:E; zbool; [|by left].
  right. change (r_ret (data_reply hi)) with 3. split; [done|lia].
Defined.

Lemma echo_end_to_end_witness :
  shown (trace (client_loop 1 5 (mkclient 0 []) chat world0).2) `prefix_of`
  typed (trace (client_loop 1 5 (mkclient 0 []) chat world0).2).
Proof.
  apply (echo_end_to_end 1 2 5 9 3 0 (mkclient 0 []) chat echoing chat_line chat_read
           ltac:(vm_compute; split; congruence) echoing_contract);
    apply (bool_decide_unpack _); vm_compute; exact I.
Defined.

(** ** A full buffer *)

(** Finding.  The [read] may fill the whole buffer, and then nothing ends the
    string that [fputs] prints: 1024 bytes at once make the client read past its
    buffer. *)
Theorem full_read_overruns sock_fd bs k w :
  lenZ bs = 1024 → Byte.x00 ∉ bs →
  k (trace w) (sys_read sock_fd 1024) = data_reply bs →
  (on_socket sock_fd k w).1 = Undef OutOfBounds.
Proof.
  intros Hl Hz Hr. unfold on_socket. rewrite run_call_bind, Hr. cbn [r_ret data_reply]. rewrite Hl.
  change (1024 =? 0) with false. change (1024 <? 0) with false. cbv iota.
  rewrite c_string_read_buf by (cbn; lia). by rewrite bool_decide_eq_true_2.
Qed.

Lemma full_read_overruns_witness :
  (on_socket 5 (script [data_reply (replicate 1024 Byte.x61)]) world0).1 = Undef OutOfBounds.
Proof.
  apply (full_read_overruns 5 (replicate 1024 Byte.x61)).
  - reflexivity.
  - apply (bool_decide_unpack _). vm_compute. exact I.
  - reflexivity.
Defined.
