(* ===== verification/EchoFd.v ===== *)
(** * EchoFd: [set/echo_fd/echo.client.cpp]

    The load generator of the echo server: it reads a list of network devices, looks up
    the address of each, and starts one thread per device that opens connections from
    that address.  (Its server is the one of [Echo]; its header defines
    [REDIRECT_STDIN] but not [WAIT_WAKEUP].) *)

From S2P Require Import Prelude Endian Buffer BufferSpec Sys Sockops Echo EchoClient.
From coqutil Require Import Byte Word.LittleEndianList.

Definition SIOCGIFCONF : Z := 35090.
Definition SIOCGIFADDR : Z := 35093.
Definition IFREQ_SIZE : Z := 40.      (** [sizeof(struct ifreq)]: name 16, address 16, ... *)

(** The reply to [SIOCGIFCONF] holds [ifc_len] and the entries; [SIOCGIFADDR] is given the
    name in the entry and copies a socket address out. *)
Definition sys_ifconf (fd : Z) : syscall := sys_misc "ioctl" [fd; SIOCGIFCONF] [].
Definition sys_ifaddr (fd : Z) (name : list Byte.byte) : syscall :=
  sys_misc "ioctl" [fd; SIOCGIFADDR] name.
(** The start of a detached thread that runs [client_thread ip]. *)
Definition sys_thread (ip : Z) : syscall := sys_misc "thread" [ip] [].

(** ** One connection *)

Definition echo_fd_client (ip : Z) : M Z :=
  sock ← call (sys_socket AF_INET SOCK_STREAM 0);
  let sock_fd := r_ret sock in
  if sock_fd <? 0 then _ ← print "create socket error"; lift (Exit (-1)) else
  doc_fd ← call (sys_open ECHOFILEPATH O_RDONLY);
  _ ← call (sys_dup2 (r_ret doc_fd) 0);
  _ ← call (sys_setsockopt sock_fd SOL_SOCKET SO_REUSEADDR 1);
  _ ← call (sys_setsockopt sock_fd SOL_SOCKET SO_REUSEPORT 1);
  e ← call (sys_bind sock_fd (mkaddr AF_INET 0 (u32 ip)));
  if negb (r_ret e =? 0) then _ ← print "bind error"; lift (Exit (-1)) else
  '(ok, addr) ← echo_fd_addr (mkaddr 0 0 0);
  if negb (ok : bool) then lift (Exit (-1)) else
  e ← call (sys_connect sock_fd addr);
  if negb (r_ret e =? 0) then _ ← print "connect error"; mret (-1) else mret 0.

(** The body of a thread. *)
Fixpoint client_rounds (n : nat) (ip : Z) : M unit :=
  match n with
  | O => mret tt
  | S n => _ ← echo_fd_client ip; client_rounds n ip
  end.
Definition client_thread (ip : Z) : M unit := client_rounds (Z.to_nat 28000) ip.

(** ** The address of a device *)

(** The C string in the [std::string] a [string_view] was made from. *)
Definition dev_data (dev : list Byte.byte) : outcome (list Byte.byte) := c_string (dev ++ [Byte.x00]).

(** The loop over the entries: [n] turns are left, [i] is next.  An index past the ten
    entries is out of bounds. *)
Fixpoint if_scan (n : nat) (i : Z) (fd : Z) (dev : list Byte.byte) (reqs : list cell) : M Z :=
  match n with
  | O => mret 0
  | S n =>
      name ← lift (if i <? 10 then cell_string (drop (Z.to_nat (i * IFREQ_SIZE)) reqs)
                   else Undef OutOfBounds);
      r ← call (sys_ifaddr fd name);
      reqs ← (if r_ret r <? 0 then _ ← print "ioctl SIOCGIFADDR fail"; mret reqs
              else mret (splice reqs (i * IFREQ_SIZE + 16) (Some <$> take 16 (r_bytes r))));
      d ← lift (dev_data dev);
      if bool_decide (name = d) then
        lift (c ← load reqs (i * IFREQ_SIZE + 20) 4; bs ← defined c; Ok (i32 (le_combine bs)))
      else if_scan n (i + 1) fd dev reqs
  end.

Definition get_local_ip (dev : list Byte.byte) : M Z :=
  s ← call (sys_socket AF_INET SOCK_DGRAM 0);
  let fd := r_ret s in
  if fd <? 0 then _ ← print "create socket fail"; mret (-1) else
  r ← call (sys_ifconf fd);
  if r_ret r <? 0 then _ ← print "ioctl SIOCGIFCONF fail"; mret (-1) else
  let reqs := splice (replicate 400 None) 0 (Some <$> take 400 (r_bytes r)) in
  let intrface_num := u64 (r_int r 0) / IFREQ_SIZE in
  if_scan (Z.to_nat intrface_num) 0 fd dev reqs.

(** ** The device list *)

(** A complete name; [client] lists the addresses of the threads. *)
Definition on_device (dev_name : list Byte.byte) (client : list Z) : M (list Z) :=
  ip ← get_local_ip dev_name;
  if ip =? 0 then mret client
  else _ ← call (sys_thread ip); mret (client ++ [ip]).

(** [while (read(devfd, buf, 1))]: a failed [read] is not 0 and leaves [buf] alone. *)
Fixpoint device_loop (fuel : nat) (devfd : Z) (buf : cell) (dev_name : list Byte.byte)
    (client : list Z) : M (list Z) :=
  match fuel with
  | O => lift NoFuel
  | S fuel =>
      r ← call (sys_read devfd 1);
      if r_ret r =? 0 then mret client else
      let buf := match r_bytes r with b :: _ => Some b | [] => buf end in
      b ← lift (match buf with Some b => Ok b | None => Undef Indeterminate end);
      if negb (bool_decide (b = Byte.x0a)) then device_loop fuel devfd buf (dev_name ++ [b]) client
      else client ← on_device dev_name client; device_loop fuel devfd buf [] client
  end.

(** After the list the main thread spins for ever. *)
Definition echo_fd_client_main (fuel : nat) : M Z :=
  _ ← call (sys_sigignore SIGPIPE);
  dev ← call (sys_open "./echo.doc.txt" O_RDONLY);
  if r_ret dev <? 0 then _ ← print "open dev list fail"; mret (-1) else
  _ ← device_loop fuel (r_ret dev) None [] [];
  lift NoFuel.

(** ** The interfaces of the machine *)

(** An entry of the reply: the name, zeroes up to 16 bytes, and 24 bytes the program
    does not look at. *)
Record iface : Type := mkif { if_name : list Byte.byte; if_rest : list Byte.byte }.

Definition encode_if (f : iface) : list Byte.byte :=
  if_name f ++ replicate (16 - length (if_name f)) Byte.x00 ++ if_rest f.

Definition iface_ok (f : iface) : Prop :=
  (length (if_name f) < 16)%nat ∧ (Byte.x00 ∉ if_name f) ∧ length (if_rest f) = 24%nat.

(** [struct sockaddr_in] with the address [a]. *)
Definition sockaddr_bytes (a : Z) : list Byte.byte :=
  [Byte.x02; Byte.x00; Byte.x00; Byte.x00] ++ le_split 4 a ++ replicate 8 Byte.x00.

(** A kernel with the interfaces [ifs], at most ten of them, and the address [addr_of]
    of each name. *)
Record interfaces (k : kernel) (ifs : list iface) (addr_of : list Byte.byte → Z) : Prop := {
  if_ok : Forall iface_ok ifs;
  if_few : (length ifs ≤ 10)%nat;
  if_range n : 0 ≤ addr_of n < 2 ^ 32;
  if_sock h : 0 ≤ r_ret (k h (sys_socket AF_INET SOCK_DGRAM 0));
  if_conf h fd : k h (sys_ifconf fd) = mkreply 0 None (ifs ≫= encode_if) [40 * lenZ ifs];
  if_addr h fd n : n ∈ (if_name <$> ifs) →
    k h (sys_ifaddr fd n) = mkreply 0 None (sockaddr_bytes (addr_of n)) []
}.

(** What a lookup returns. *)
Definition address (ifs : list iface) (addr_of : list Byte.byte → Z) (dev : list Byte.byte) : Z :=
  if bool_decide (dev ∈ (if_name <$> ifs)) then i32 (addr_of dev) else 0.

Lemma length_encode_if f : iface_ok f → length (encode_if f) = 40%nat.
Proof. intros (? & _ & H). unfold encode_if. rewrite !length_app, length_replicate, H. lia. Qed.

Lemma length_encode_ifs ifs : Forall iface_ok ifs → length (ifs ≫= encode_if) = (40 * length ifs)%nat.
Proof.
  induction 1 as [|f ifs Hf _ IH]; [done|]. cbn [mbind list_bind length] in *.
  rewrite length_app, length_encode_if, IH by done. lia.
Qed.

(** The name of an entry. *)
Lemma encode_if_name f tl :
  iface_ok f → cell_string ((Some <$> encode_if f) ++ tl) = Ok (if_name f).
Proof.
  intros (Hl & Hz & _). unfold encode_if.
  replace (16 - length (if_name f))%nat with (S (15 - length (if_name f))) by lia.
  cbn [replicate]. rewrite fmap_app, <- app_assoc. by apply cell_string_name.
Qed.

(** The entry after its address was written. *)
Lemma splice_address (P tl : list cell) f a :
  iface_ok f →
  ∃ e : list cell,
    splice (P ++ (Some <$> encode_if f) ++ tl) (lenZ P + 16) (Some <$> sockaddr_bytes a) = P ++ e ++ tl ∧
    length e = 40%nat ∧ take 4 (drop 20 e) = Some <$> le_split 4 a.
Proof.
  intros (Hl & _ & Hr). unfold encode_if.
  set (nm := if_name f ++ replicate (16 - length (if_name f)) Byte.x00).
  assert (length nm = 16%nat) as Hn by (subst nm; rewrite length_app, length_replicate; lia).
  exists ((Some <$> nm) ++ (Some <$> sockaddr_bytes a) ++ (Some <$> drop 16 (if_rest f))).
  split; [|split].
  - unfold splice. replace (Z.to_nat (lenZ P + 16)) with (length P + 16)%nat by (unfold lenZ; lia).
    rewrite (app_assoc (if_name f)). fold nm. rewrite !fmap_app, <- !app_assoc.
    rewrite take_app_add, <- Nat.add_assoc, drop_app_add, <- app_assoc. f_equal.
    rewrite take_app_length' by (by rewrite length_fmap). f_equal. f_equal.
    rewrite length_fmap. change (length (sockaddr_bytes a)) with 16%nat.
    rewrite drop_app_ge by (rewrite length_fmap; lia). rewrite length_fmap, Hn.
    rewrite drop_app_le by (rewrite length_fmap; lia). by rewrite fmap_drop.
  - rewrite !length_app, !length_fmap, length_drop, Hn, Hr. reflexivity.
  - rewrite drop_app_ge by (rewrite length_fmap; lia). rewrite length_fmap, Hn. reflexivity.
Qed.

(** The calls of a lookup. *)
Definition lookup_call (c : syscall) : Prop :=
  match c with sys_read _ _ => False | sys_misc n _ _ => n ≠ "thread"%string | _ => True end.

Section Lookup.
Context (k : kernel) (ifs : list iface) (addr_of : list Byte.byte → Z).
Hypothesis Hk : interfaces k ifs addr_of.

Lemma if_scan_finds rest i P tl fd dev w :
  Byte.x00 ∉ dev → rest ⊆ ifs → Forall iface_ok rest →
  lenZ P = 40 * i → 0 ≤ i → i + lenZ rest ≤ 10 →
  ∃ l w', if_scan (length rest) i fd dev (P ++ (Some <$> (rest ≫= encode_if)) ++ tl) k w =
            (Ok (address rest addr_of dev), w') ∧
          trace w' = trace w ++ l ∧ Forall lookup_call (calls l).
Proof.
  intros Hd Hin Hok. revert i P w. induction Hok as [|f rest Hf Hok IH]; intros i P w HP Hi Hten.
  { exists [], w. by rewrite app_nil_r. }
  assert (lenZ (f :: rest) = 1 + lenZ rest) as Hlen by (unfold lenZ; cbn [length]; lia).
  pose proof (lenZ_nonneg rest).
  cbn [length if_scan mbind list_bind]. rewrite fmap_app, <- app_assoc.
  set (tl' := (Some <$> mbind encode_if rest) ++ tl) in *. unfold IFREQ_SIZE.
  rewrite (proj2 (Z.ltb_lt i 10)) by lia.
  replace (Z.to_nat (i * 40)) with (length P) by (unfold lenZ in HP; lia).
  rewrite drop_app_length, encode_if_name, run_lift_bind by done.
  rewrite run_call_bind, (if_addr _ _ _ Hk) by set_solver. cbn [r_ret r_bytes].
  change (0 <? 0) with false. cbv iota.
  rewrite (run_bind_Ok (mret _) _ _ _ _ _ eq_refl).
  change (take 16 (sockaddr_bytes ?a)) with (sockaddr_bytes a).
  destruct (splice_address P tl' f (addr_of (if_name f)) Hf) as (e & He & Hel & Hea).
  replace (i * 40 + 16) with (lenZ P + 16) by lia. rewrite He.
  unfold dev_data. rewrite (c_string_app dev []), run_lift_bind by done.
  unfold address. case_bool_decide as Hn.
  - subst dev. rewrite bool_decide_true by set_solver.
    rewrite load_Ok by (rewrite ?lenZ_app; unfold lenZ in *; lia).
    assert (slice (P ++ e ++ tl') (i * 40 + 20) 4 = Some <$> le_split 4 (addr_of (if_name f))) as ->.
    { unfold slice. replace (Z.to_nat (i * 40 + 20)) with (length P + 20)%nat by (unfold lenZ in HP; lia).
      rewrite drop_app_add, drop_app_le, take_app_le by (rewrite ?length_drop; lia). exact Hea. }
    cbn [mbind outcome_bind]. rewrite defined_fmap. cbn [mbind outcome_bind].
    rewrite (le_combine_split_small 4) by apply (if_range _ _ _ Hk).
    eexists [_], _. split; [reflexivity|]. split; [reflexivity|]. by repeat constructor.
  - rewrite app_assoc.
    destruct (IH ltac:(set_solver) (i + 1) (P ++ e)
                (advance w (sys_ifaddr fd (if_name f)) (mkreply 0 None (sockaddr_bytes (addr_of (if_name f))) [])))
      as (l & w' & E & T & F); [rewrite lenZ_app; unfold lenZ in *; lia|lia|lia|].
    subst tl'. eexists (_ :: l), w'. split; [|split].
    + etrans; [exact E|]. unfold address. do 2 f_equal. cbn [fmap list_fmap].
      erewrite bool_decide_ext; [done|]. set_solver.
    + rewrite T. cbn [advance trace]. by rewrite <- app_assoc.
    + by constructor.
Qed.

Lemma get_local_ip_finds dev w :
  Byte.x00 ∉ dev →
  ∃ l w', get_local_ip dev k w = (Ok (address ifs addr_of dev), w') ∧
          trace w' = trace w ++ l ∧ Forall lookup_call (calls l).
Proof.
  intros Hd. unfold get_local_ip. rewrite run_call_bind.
  pose proof (if_sock _ _ _ Hk (trace w)). cbv zeta.
  rewrite (proj2 (Z.ltb_ge _ 0)) by done. rewrite run_call_bind, (if_conf _ _ _ Hk).
  cbn [r_ret r_bytes]. change (0 <? 0) with false. cbv iota.
  pose proof (if_few _ _ _ Hk). pose proof (length_encode_ifs ifs (if_ok _ _ _ Hk)) as HL.
  change (r_int _ 0) with (40 * lenZ ifs).
  rewrite take_ge by lia. unfold splice. rewrite take_0, app_nil_l.
  rewrite u64_small by (unfold lenZ; lia).
  replace (Z.to_nat (40 * lenZ ifs / IFREQ_SIZE)) with (length ifs)
    by (unfold IFREQ_SIZE, lenZ; rewrite Z.mul_comm, Z.div_mul; lia).
  match goal with |- context [if_scan _ 0 ?fd dev ((Some <$> _) ++ ?tl) k ?w1] =>
    destruct (if_scan_finds ifs 0 [] tl fd dev w1 Hd) as (l & w' & E & T & F) end;
    [done|apply (if_ok _ _ _ Hk)|done|done|unfold lenZ; lia|].
  cbn [app] in E. rewrite E. eexists (_ :: _ :: l), w'. split; [done|].
  rewrite T. cbn [trace]. rewrite <- !app_assoc. split; [reflexivity|]. by repeat constructor.
Qed.
End Lookup.

(** ** The list read byte by byte *)

(** A kernel whose descriptor [devfd] reads the file [content], a byte at a time. *)
Definition reads (devfd : Z) (h : list event) : nat :=
  length (filter (λ e, e.1 = sys_read devfd 1) h).
Definition reads_file (k : kernel) (devfd : Z) (content : list Byte.byte) : Prop :=
  ∀ h, k h (sys_read devfd 1) = data_reply (take 1 (drop (reads devfd h) content)).

(** The addresses of the threads a history started. *)
Definition thread_of (e : event) : option Z :=
  match e.1 with
  | sys_misc name (ip :: _) _ => if String.eqb name "thread" then Some ip else None
  | _ => None
  end.
Definition started (h : list event) : list Z := omap thread_of h.

Lemma lookup_quiet devfd l :
  Forall lookup_call (calls l) → reads devfd l = 0%nat ∧ started l = [].
Proof.
  unfold reads, started, calls. induction l as [|[c r] l IH]; intros H; [done|].
  cbn [fmap list_fmap fst] in H. apply Forall_cons in H as [Hc H].
  destruct (IH H) as [H1 H2]. rewrite filter_cons. cbn [fst omap list_omap].
  rewrite decide_False by (intros ->; done). split; [done|].
  destruct c; cbn; try done. destruct args; [done|].
  cbn in Hc. apply String.eqb_neq in Hc. by rewrite Hc.
Qed.

Lemma reads_app devfd h l : reads devfd (h ++ l) = (reads devfd h + reads devfd l)%nat.
Proof. unfold reads. by rewrite filter_app, length_app. Qed.

Section DeviceList.
Context (k : kernel) (devfd : Z) (content : list Byte.byte).
Hypothesis Hfile : reads_file k devfd content.

(** [n] reads of one byte. *)
Fixpoint read_times (n : nat) : M unit :=
  match n with O => mret tt | S n => _ ← call (sys_read devfd 1); read_times n end.

(** The reference: a line is read, with its newline, and looked up; at last the rest of the
    file and its end are read. *)
Fixpoint by_lines (ls : list (list Byte.byte)) (tail : list Byte.byte) (client : list Z) : M (list Z) :=
  match ls with
  | [] => _ ← read_times (S (length tail)); mret client
  | l :: ls => _ ← read_times (S (length l)); client ← on_device l client; by_lines ls tail client
  end.

(** The world has read [pre] of the file and started [client]. *)
Definition at_byte (w : world) (pre : list Byte.byte) (client : list Z) : Prop :=
  reads devfd (trace w) = length pre ∧ started (trace w) = client.

Lemma read_byte w pre b rem client :
  content = pre ++ b :: rem → at_byte w pre client →
  ∃ w', at_byte w' (pre ++ [b]) client ∧ call (sys_read devfd 1) k w = (Ok (data_reply [b]), w').
Proof.
  intros Hc [Hr Hs]. eexists. split; [|rewrite run_call, Hfile, Hr, Hc, drop_app_length; reflexivity].
  split; cbn [trace].
  - rewrite reads_app, Hr, length_app. unfold reads. by rewrite filter_cons, decide_True.
  - rewrite <- Hs. unfold started. rewrite omap_app. cbn. by rewrite app_nil_r.
Qed.

(** The characters of a name. *)
Lemma device_chars l pre rem fuel buf dev client st w :
  content = pre ++ l ++ rem → Byte.x0a ∉ l → at_byte w pre st →
  ∃ buf' w', at_byte w' (pre ++ l) st ∧ read_times (length l) k w = (Ok tt, w') ∧
    device_loop (length l + fuel) devfd buf dev client k w =
    device_loop fuel devfd buf' (dev ++ l) client k w'.
Proof.
  revert pre buf dev w. induction l as [|b l IH]; intros pre buf dev w Hc Hn Hw.
  - exists buf, w. by rewrite !app_nil_r.
  - destruct (read_byte w pre b (l ++ rem) st Hc Hw) as (w1 & Hw1 & E).
    cbn [length Nat.add device_loop read_times]. rewrite !(run_bind_Ok _ _ _ _ _ _ E).
    change (r_ret (data_reply [b]) =? 0) with false. cbn [r_bytes data_reply].
    rewrite run_lift_bind, bool_decide_false by set_solver. cbn [negb].
    destruct (IH (pre ++ [b]) (Some b) (dev ++ [b]) w1) as (buf' & w' & Hw' & R' & E');
      [by rewrite Hc, <- app_assoc|set_solver|done|].
    exists buf', w'. rewrite <- !app_assoc in *. by rewrite E', R'.
Qed.

Lemma read_times_app n m w :
  read_times (n + m) k w = (_ ← read_times n; read_times m) k w.
Proof.
  revert w. induction n as [|n IH]; intros w; [done|]. cbn [Nat.add read_times].
  rewrite run_call_bind, IH. reflexivity.
Qed.

(** A program that does not read the list. *)
Definition no_reads {A} (m : M A) : Prop :=
  ∀ w, ∃ l, trace (m k w).2 = trace w ++ l ∧ reads devfd l = 0%nat.

Lemma no_reads_lift {A} (o : outcome A) : no_reads (lift o).
Proof. intros w. exists []. by rewrite app_nil_r. Qed.
Lemma no_reads_call c : c ≠ sys_read devfd 1 → no_reads (call c).
Proof. intros Hc w. eexists. split; [reflexivity|]. unfold reads. by rewrite filter_cons, decide_False. Qed.
Lemma no_reads_bind {A B} (m : M A) (f : A → M B) : no_reads m → (∀ a, no_reads (f a)) → no_reads (m ≫= f).
Proof.
  intros Hm Hf w. destruct (Hm w) as (l & T & Hl). rewrite run_bind.
  destruct (m k w) as [[a|?| |?|?|] w1]; cbn in T |- *; try (by exists l).
  destruct (Hf a w1) as (l' & T' & Hl'). exists (l ++ l'). by rewrite T', T, app_assoc, reads_app, Hl, Hl'.
Qed.
Lemma no_reads_print s : no_reads (print s).
Proof. apply no_reads_bind; [by apply no_reads_call|]. intros. apply (no_reads_lift (Ok tt)). Qed.

Ltac quiet_step :=
  lazymatch goal with
  | |- no_reads (mret ?a) => apply (no_reads_lift (Ok a))
  | |- no_reads (lift _) => apply no_reads_lift
  | |- no_reads (call _) => by apply no_reads_call
  | |- no_reads (print _) => apply no_reads_print
  | |- no_reads (_ ≫= _) => apply no_reads_bind; [|intros ?]
  | |- no_reads (if ?b then _ else _) => destruct b
  end.

Lemma if_scan_no_reads n i fd dev reqs : no_reads (if_scan n i fd dev reqs).
Proof.
  revert i reqs. induction n as [|n IH]; intros i reqs; cbn [if_scan]; repeat quiet_step. apply IH.
Qed.

Lemma on_device_no_reads dev client : no_reads (on_device dev client).
Proof. unfold on_device, get_local_ip. cbv zeta. repeat quiet_step. apply if_scan_no_reads. Qed.

(** The loop is the reference, whatever the lookups do. *)
Lemma device_loop_by_lines ls tail pre fuel buf client w :
  content = pre ++ (ls ≫= λ l, l ++ [Byte.x0a]) ++ tail →
  Forall (λ l, Byte.x0a ∉ l) ls → Byte.x0a ∉ tail →
  reads devfd (trace w) = length pre → (length ((ls ≫= λ l, l ++ [Byte.x0a]) ++ tail) < fuel)%nat →
  device_loop fuel devfd buf [] client k w = by_lines ls tail client k w.
Proof.
  intros Hc Hls Ht. revert pre fuel buf client w Hc.
  induction Hls as [|l ls Hn _ IH]; intros pre fuel buf client w Hc Hw Hf; cbn [by_lines].
  - cbn [mbind list_bind app] in *.
    replace fuel with (length tail + S (fuel - length tail - 1))%nat by lia.
    destruct (device_chars tail pre [] (S (fuel - length tail - 1)) buf [] client (started (trace w)) w)
      as (buf' & w' & [Hr Hs] & R & ->); [by rewrite app_nil_r|done|done|].
    replace (S (length tail)) with (length tail + 1)%nat by lia.
    rewrite run_bind, read_times_app, run_bind, R. cbn [device_loop read_times].
    rewrite !run_call_bind, Hfile, Hr, Hc, drop_ge by (rewrite ?length_app; lia). done.
  - cbn [mbind list_bind] in *. rewrite <- !app_assoc in *. cbn [app] in *.
    rewrite !length_app in Hf. cbn [length] in Hf. rewrite length_app in Hf.
    replace fuel with (length l + S (fuel - length l - 1))%nat by lia.
    destruct (device_chars l pre _ (S (fuel - length l - 1)) buf [] client (started (trace w)) w Hc Hn)
      as (buf' & w1 & Hw1 & R & ->); [done|].
    rewrite app_assoc in Hc. destruct (read_byte w1 (pre ++ l) _ _ _ Hc Hw1) as (w2 & Hw2 & E).
    replace (S (length l)) with (length l + 1)%nat by lia.
    rewrite run_bind, read_times_app, run_bind, R. cbn [device_loop read_times].
    rewrite !(run_bind_Ok _ _ _ _ _ _ E). cbn [app].
    change (r_ret (data_reply [Byte.x0a]) =? 0) with false. cbn [r_bytes data_reply].
    rewrite run_lift_bind, bool_decide_true by done. cbn [negb mret M_ret]. rewrite !run_bind.
    destruct (on_device_no_reads l client w2) as (lg & T & Q).
    destruct (on_device l client k w2) as [[client'|?| |?|?|] w3]; try done. cbn in T.
    apply (IH ((pre ++ l) ++ [Byte.x0a])); [by rewrite <- app_assoc| |rewrite length_app; lia].
    rewrite T, reads_app, Q, (proj1 Hw2). lia.
Qed.

Context (ifs : list iface) (addr_of : list Byte.byte → Z).
Hypothesis Hk : interfaces k ifs addr_of.

(** The end of a name. *)
Lemma device_newline pre rem fuel buf dev client w :
  content = pre ++ Byte.x0a :: rem → Byte.x00 ∉ dev → at_byte w pre client →
  let client' := client ++ filter (λ ip, ip ≠ 0) [address ifs addr_of dev] in
  ∃ w', at_byte w' (pre ++ [Byte.x0a]) client' ∧
    device_loop (S fuel) devfd buf dev client k w =
    device_loop fuel devfd (Some Byte.x0a) [] client' k w'.
Proof.
  intros Hc Hd Hw client'. destruct (read_byte w pre _ rem client Hc Hw) as (w1 & Hw1 & E).
  cbn [device_loop]. rewrite (run_bind_Ok _ _ _ _ _ _ E).
  change (r_ret (data_reply [Byte.x0a]) =? 0) with false. cbn [r_bytes data_reply].
  rewrite run_lift_bind, bool_decide_true by done. cbn [negb].
  destruct (get_local_ip_finds k ifs addr_of Hk dev w1 Hd) as (l & w2 & E2 & T2 & F2).
  destruct (lookup_quiet devfd l F2) as [Q1 Q2].
  assert (at_byte w2 (pre ++ [Byte.x0a]) client) as Hw2.
  { destruct Hw1 as [Hr Hs]. split; rewrite T2.
    - by rewrite reads_app, Hr, Q1, Nat.add_0_r.
    - rewrite <- Hs. unfold started in *. by rewrite omap_app, Q2, app_nil_r. }
  unfold on_device. rewrite !run_bind, E2. subst client'. rewrite filter_cons.
  destruct (address ifs addr_of dev =? 0) eqn:E0; zbool.
  - rewrite decide_False by (intros []; done). exists w2. by rewrite app_nil_r.
  - rewrite decide_True by done. rewrite run_bind.
    eexists. split; [|reflexivity]. destruct Hw2 as [Hr Hs]. split; cbn [trace].
    + rewrite reads_app, Hr. unfold reads. rewrite filter_cons, decide_False by done. cbn. lia.
    + rewrite <- Hs. unfold started. by rewrite omap_app.
Qed.

Lemma device_loop_lines ls tail pre fuel buf client w :
  content = pre ++ (ls ≫= λ l, l ++ [Byte.x0a]) ++ tail →
  Forall (λ l, (Byte.x0a ∉ l) ∧ (Byte.x00 ∉ l)) ls → Byte.x0a ∉ tail →
  at_byte w pre client → (length ((ls ≫= λ l, l ++ [Byte.x0a]) ++ tail) < fuel)%nat →
  ∃ w', device_loop fuel devfd buf [] client k w =
          (Ok (client ++ filter (λ ip, ip ≠ 0) (address ifs addr_of <$> ls)), w') ∧
        started (trace w') = client ++ filter (λ ip, ip ≠ 0) (address ifs addr_of <$> ls).
Proof.
  intros Hc Hls Ht. revert pre fuel buf client w Hc.
  induction Hls as [|l ls [Hn Hz] _ IH]; intros pre fuel buf client w Hc Hw Hf.
  - cbn [mbind list_bind app fmap list_fmap] in *. rewrite filter_nil, app_nil_r.
    replace fuel with (length tail + S (fuel - length tail - 1))%nat by lia.
    destruct (device_chars tail pre [] (S (fuel - length tail - 1)) buf [] client client w)
      as (buf' & w' & [Hr Hs] & _ & ->); [by rewrite app_nil_r|done|done|].
    cbn [device_loop]. rewrite run_call_bind, Hfile, Hr, Hc, drop_ge by (rewrite ?length_app; lia).
    cbn [take]. eexists. split; [reflexivity|]. cbn [trace]. rewrite <- Hs. unfold started.
    rewrite omap_app. cbn. by rewrite app_nil_r.
  - cbn [mbind list_bind fmap list_fmap] in *. rewrite <- !app_assoc in *. cbn [app] in *.
    rewrite !length_app in Hf. cbn [length] in Hf. rewrite length_app in Hf.
    replace fuel with (length l + S (fuel - length l - 1))%nat by lia.
    destruct (device_chars l pre _ (S (fuel - length l - 1)) buf [] client client w Hc Hn Hw)
      as (buf' & w1 & Hw1 & _ & ->).
    rewrite app_assoc in Hc.
    destruct (device_newline _ _ (fuel - length l - 1) buf' l client w1 Hc Hz Hw1) as (w2 & Hw2 & E).
    cbn [app]. rewrite E.
    destruct (IH ((pre ++ l) ++ [Byte.x0a]) (fuel - length l - 1)%nat (Some Byte.x0a)
                (client ++ filter (λ ip, ip ≠ 0) [address ifs addr_of l]) w2)
      as (w' & E' & S'); [by rewrite <- app_assoc|done|rewrite length_app; lia|].
    exists w'. rewrite E', S', <- !app_assoc. rewrite !filter_cons, filter_nil.
    by case_decide.
Qed.
End DeviceList.

(** C15: The device list.  When the file can be read (a [read] that fails makes the loop go
    on for ever, [device_list_error_spins]), the loop that reads it byte by byte and looks
    up a name at every newline is the same program as: read a line, look it up and start a
    thread unless the lookup gave 0, line after line, and drop what follows the last
    newline; this for every outcome of the lookups, failures included.  On a machine whose
    lookups succeed, with at most ten interfaces and for names without a zero byte, one
    thread is started for each name that is an interface, with its address, in the order of
    the file. *)
Theorem device_list_by_lines ls tail devfd fuel k w :
  let content := (ls ≫= λ l, l ++ [Byte.x0a]) ++ tail in
  reads_file k devfd content → Forall (λ l, Byte.x0a ∉ l) ls → Byte.x0a ∉ tail →
  reads devfd (trace w) = 0%nat → (length content < fuel)%nat →
  device_loop fuel devfd None [] [] k w = by_lines devfd ls tail [] k w ∧
  (∀ ifs addr_of, interfaces k ifs addr_of → Forall (λ l, Byte.x00 ∉ l) ls → started (trace w) = [] →
     let found := filter (λ ip, ip ≠ 0) (address ifs addr_of <$> ls) in
     ∃ w', device_loop fuel devfd None [] [] k w = (Ok found, w') ∧ started (trace w') = found).
Proof.
  intros content Hf Hls Ht Hr Hfuel. split.
  - by apply (device_loop_by_lines k devfd content Hf ls tail []).
  - intros ifs addr_of Hk Hz Hs found.
    apply (device_loop_lines k devfd _ Hf ifs addr_of Hk ls tail []); try done.
    apply Forall_and. by split.
Qed.

(** A machine with two interfaces and the list of three devices. *)
Definition eth (name : string) : iface := mkif (text name) (replicate 24 Byte.x00).
Definition machine_ifs : list iface := [eth "lo"; eth "ens160"].
Definition machine_addr (n : list Byte.byte) : Z :=
  if bool_decide (n = text "lo") then 16777343 else 2466097324.
Definition dev_file : list Byte.byte :=
  ([text "ens160"; text "ens224"; text "lo"] ≫= λ l, l ++ [Byte.x0a]) ++ text "x".
Definition machine (devfd : Z) : kernel := λ h c,
  match c with
  | sys_read f n => if bool_decide (f = devfd ∧ n = 1)
                    then data_reply (take 1 (drop (reads devfd h) dev_file)) else ok_reply 0
  | sys_socket _ _ _ => ok_reply 7
  | sys_misc _ [_; req] name =>
      if req =? SIOCGIFCONF then mkreply 0 None (machine_ifs ≫= encode_if) [80]
      else if req =? SIOCGIFADDR then mkreply 0 None (sockaddr_bytes (machine_addr name)) []
      else ok_reply 0
  | _ => ok_reply 0
  end.

Lemma machine_interfaces devfd : interfaces (machine devfd) machine_ifs machine_addr.
Proof.
  split; try done.
  - repeat constructor; apply (bool_decide_unpack _); vm_compute; exact I.
  - cbn. lia.
  - intros n. unfold machine_addr. case_bool_decide; lia.
Defined.

Lemma device_list_by_lines_witness :
  let ls := [text "ens160"; text "ens224"; text "lo"] in
  let found := filter (λ ip, ip ≠ 0) (address machine_ifs machine_addr <$> ls) in
  device_loop 40 5 None [] [] (machine 5) world0 = by_lines 5 ls (text "x") [] (machine 5) world0 ∧
  ∃ w', device_loop 40 5 None [] [] (machine 5) world0 = (Ok found, w') ∧ started (trace w') = found.
Proof.
  destruct (device_list_by_lines [text "ens160"; text "ens224"; text "lo"] (text "x") 5 40 (machine 5) world0)
    as [H1 H2].
  - intros h. reflexivity.
  - rewrite !Forall_cons, Forall_nil. split_and!; apply (bool_decide_unpack _); vm_compute; exact I.
  - apply (bool_decide_unpack _). vm_compute. exact I.
  - reflexivity.
  - vm_compute. lia.
  - split; [exact H1|]. apply (H2 machine_ifs machine_addr); [apply machine_interfaces| |reflexivity].
    rewrite !Forall_cons, Forall_nil. split_and!; apply (bool_decide_unpack _); vm_compute; exact I.
Defined.

Example machine_found :
  filter (λ ip, ip ≠ 0)
    (address machine_ifs machine_addr <$> [text "ens160"; text "ens224"; text "lo"])
  = [-1828869972; 16777343].
Proof. reflexivity. Qed.

(** Finding.  [read] reports an error as [-1], which is not 0: when the list cannot be
    read any further the loop goes on for ever with the last byte, and the name grows
    with every turn. *)
Theorem device_list_error_spins fuel devfd b dev client k w :
  (∀ h, k h (sys_read devfd 1) = err_reply 5) → b ≠ Byte.x0a →
  (device_loop fuel devfd (Some b) dev client k w).1 = NoFuel.
Proof.
  intros Hk Hb. revert dev w. induction fuel as [|fuel IH]; intros dev w; [done|].
  cbn [device_loop]. rewrite run_call_bind, Hk. change (r_ret (err_reply 5) =? 0) with false.
  cbn [r_bytes err_reply]. rewrite run_lift_bind, bool_decide_false by done. apply IH.
Qed.

(** Finding.  A lookup that fails returns [-1], but only 0 is taken for a failure: a
    thread is started all the same, for the address 255.255.255.255. *)
Lemma lookup_failure_starts_thread dev client k w :
  r_ret (k (trace w) (sys_socket AF_INET SOCK_DGRAM 0)) < 0 →
  ∃ w', on_device dev client k w = (Ok (client ++ [-1]), w').
Proof.
  intros H. unfold on_device, get_local_ip. rewrite run_bind, run_call_bind.
  rewrite (proj2 (Z.ltb_lt _ 0)) by done. rewrite run_print_bind. by eexists.
Qed.
