(* ===== verification/AsyncNet.v ===== *)
(** * AsyncNet: [set/poll/main.cpp]

    A connection attempt on a non-blocking socket, and the wait for its outcome. *)

From S2P Require Import Prelude Endian Sys.

Definition sys_inet_pton (af : Z) (host : string) : syscall := sys_misc "inet_pton" [af] (text host).
Definition sys_printf_ready (args : list Z) : syscall :=
  sys_misc "ready=%d, POLLIN=%d, POLLOUT=%d, POLLERR=%d" args [].
Definition sys_printf_error (e : Z) : syscall := sys_misc "error=%d, msg=%s" [e] [].

(** [ASYNC_CONTINUE()] *)
Definition ASYNC_CONTINUE : M bool :=
  e ← get_errno; mret ((e =? EAGAIN) || (e =? EINTR) || (e =? EINPROGRESS)).

Definition fcntl_enable (sockfd feature : Z) : M Z :=
  flags ← call (sys_fcntl sockfd F_GETFL 0);
  if r_ret flags <? 0 then mret (r_ret flags) else
  ret ← call (sys_fcntl sockfd F_SETFL (Z.lor (r_ret flags) feature));
  if r_ret ret <? 0 then mret (r_ret ret) else mret 0.

Definition async_socket : M Z :=
  s ← call (sys_socket AF_INET SOCK_STREAM 0);
  let sockfd := r_ret s in
  if sockfd <? 0 then _ ← print "socket fail"; mret sockfd else
  ret ← fcntl_enable sockfd O_NONBLOCK;
  if ret <? 0 then
    _ ← print "fcntl enable nonblock fail"; _ ← call (sys_close sockfd); mret ret
  else mret sockfd.

(** [inet_pton] fills the address when it returns 1.  [and] evaluates [errno] only after a
    failure, and after the first message. *)
Definition async_connect (sockfd : Z) (host : string) (port : Z) : M Z :=
  p ← call (sys_inet_pton AF_INET host);
  let servaddr := mkaddr AF_INET (htons port) (if r_ret p =? 1 then r_int p 0 else 0) in
  ret ← call (sys_connect sockfd servaddr);
  _ ← (if r_ret ret <? 0 then print "connect fail" else mret tt);
  fatal ← (if r_ret ret <? 0 then c ← ASYNC_CONTINUE; mret (negb c) else mret false);
  if (fatal : bool) then _ ← print "connect to fail"; mret (r_ret ret) else mret 0.

Definition async_net (host : string) (port : Z) : M Z :=
  sockfd ← async_socket;
  if sockfd <? 0 then mret sockfd else
  ret ← async_connect sockfd host port;
  if ret <? 0 then _ ← call (sys_close sockfd); mret ret else mret sockfd.

(** [garbage] is the [revents] of the local before [poll]. *)
Definition connection_refused (garbage : Z) : M Z :=
  sockfd ← async_net "127.0.0.1" 11111;
  r ← call (sys_poll [mkpollfd sockfd (Z.lor POLLIN POLLOUT) garbage] (-1));
  let revents := if r_ret r <? 0 then garbage else r_int r 0 in
  let bit b := if negb (Z.land revents b =? 0) then 1 else 0 in
  _ ← call (sys_printf_ready [r_ret r; bit POLLIN; bit POLLOUT; bit POLLERR]);
  g ← call (sys_getsockopt sockfd SOL_SOCKET SO_ERROR);
  error ← lift (if r_ret g <? 0 then Undef Indeterminate else Ok (r_int g 0));
  _ ← call (sys_printf_error error);
  mret 0.

Definition poll_main (garbage : Z) : M Z := _ ← connection_refused garbage; mret 0.

(** ** The descriptor *)

(** The events that close a descriptor, and those that open a socket. *)
Definition closed (l : list event) : list Z :=
  omap (λ e : event, match e.1 with sys_close f => Some f | _ => None end) l.
Definition opened (l : list event) : list Z :=
  omap (λ e : event, match e.1 with
                     | sys_socket _ _ _ => if 0 <=? r_ret e.2 then Some (r_ret e.2) else None
                     | _ => None end) l.

(** [owes l v] : a history [l] that ends with the result [v] opened one socket and
    returned it, or left none open. *)
Definition owes (l : list event) (v : Z) : Prop :=
  (0 ≤ v ∧ opened l = [v] ∧ closed l = []) ∨ (v < 0 ∧ opened l = closed l).

Lemma opened_app l1 l2 : opened (l1 ++ l2) = opened l1 ++ opened l2.
Proof. apply omap_app. Qed.
Lemma closed_app l1 l2 : closed (l1 ++ l2) = closed l1 ++ closed l2.
Proof. apply omap_app. Qed.

(** Steps that neither open nor close. *)
Definition neutral (l : list event) : Prop := opened l = [] ∧ closed l = [].

Lemma fcntl_enable_run fd feature k w :
  ∃ v l w', fcntl_enable fd feature k w = (Ok v, w') ∧ trace w' = trace w ++ l ∧ neutral l ∧
    (0 ≤ v → ∃ flags r, calls l = [sys_fcntl fd F_GETFL 0; sys_fcntl fd F_SETFL (Z.lor flags feature)] ∧
                        l.*2 !! 0%nat = Some r ∧ r_ret r = flags ∧ 0 ≤ flags).
Proof.
  unfold fcntl_enable. rewrite run_call_bind. destruct (r_ret _ <? 0) eqn:E1; zbool.
  - eexists _, [_], _. split; [reflexivity|]. split; [reflexivity|]. split; [done|intros; exfalso; lia].
  - rewrite run_call_bind. destruct (r_ret (k _ (sys_fcntl fd F_SETFL _)) <? 0) eqn:E2; zbool.
    + eexists _, [_; _], _. split; [reflexivity|]. cbn [trace]. rewrite <- app_assoc.
      split; [reflexivity|]. split; [done|intros; exfalso; cbn [trace] in E2; lia].
    + eexists _, [_; _], _. split; [reflexivity|]. cbn [trace]. rewrite <- app_assoc.
      split; [reflexivity|]. split; [done|]. intros _. eexists _, _. by split_and!.
Qed.

Lemma async_socket_owes k w :
  ∃ v l w', async_socket k w = (Ok v, w') ∧ trace w' = trace w ++ l ∧ owes l v.
Proof.
  unfold async_socket. rewrite run_call_bind. cbv zeta.
  set (s := k (trace w) _). destruct (r_ret s <? 0) eqn:Es; zbool.
  - rewrite run_print_bind. eexists _, [_; _], _. split; [reflexivity|]. cbn [trace].
    rewrite <- app_assoc. split; [reflexivity|]. right. split; [done|]. cbn.
    by rewrite (proj2 (Z.leb_gt 0 (r_ret s))).
  - match goal with |- context [(fcntl_enable ?f ?b ≫= _) k ?w1] =>
      destruct (fcntl_enable_run f b k w1) as (v & l & w2 & E & T & [N1 N2] & _) end.
    rewrite (run_bind_Ok _ _ _ _ _ _ E). cbn [trace] in T. rewrite <- app_assoc in T.
    assert (opened [(sys_socket AF_INET SOCK_STREAM 0, s)] = [r_ret s]) as O
      by (cbn; by rewrite (proj2 (Z.leb_le 0 (r_ret s)))).
    destruct (v <? 0) eqn:Ev; zbool.
    + rewrite run_print_bind, run_call_bind. eexists _, _, _. split; [reflexivity|].
      cbn [trace]. rewrite T, <- !app_assoc. split; [reflexivity|]. right. split; [done|].
      rewrite !opened_app, !closed_app, O, N1, N2. done.
    + eexists _, _, _. split; [reflexivity|]. split; [exact T|]. left.
      rewrite opened_app, closed_app, O, N1, N2. done.
Qed.

Lemma async_connect_run fd host port k w :
  ∃ v l w', async_connect fd host port k w = (Ok v, w') ∧ trace w' = trace w ++ l ∧ neutral l ∧ v ≤ 0.
Proof.
  unfold async_connect, ASYNC_CONTINUE, get_errno.
  rewrite run_call_bind. cbv zeta. rewrite run_call_bind.
  destruct (r_ret (k _ (sys_connect _ _)) <? 0) eqn:E1; zbool; cbn [trace] in E1.
  - rewrite run_print_bind. rewrite !run_bind. cbn [mret M_ret].
    destruct (negb _).
    + rewrite run_print_bind. eexists _, _, _. split; [reflexivity|]. cbn [trace].
      rewrite <- !app_assoc. split; [reflexivity|]. split; [done|lia].
    + eexists _, _, _. split; [reflexivity|]. cbn [trace].
      rewrite <- !app_assoc. split; [reflexivity|]. split; [done|lia].
  - rewrite !(run_bind_Ok (mret _) _ _ _ _ _ eq_refl).
    eexists _, _, _. split; [reflexivity|]. cbn [trace].
    rewrite <- !app_assoc. split; [reflexivity|]. split; [done|lia].
Qed.

(** C27: [async_net] against any kernel.  It always returns; a result that is not
    negative is the socket it opened, still open; a negative one leaves nothing open:
    every descriptor it got was closed, once. *)
Theorem async_net_owns_socket host port k w :
  ∃ v l w', async_net host port k w = (Ok v, w') ∧ trace w' = trace w ++ l ∧ owes l v.
Proof.
  unfold async_net. destruct (async_socket_owes k w) as (v & l & w1 & E & T & O).
  rewrite (run_bind_Ok _ _ _ _ _ _ E). destruct (v <? 0) eqn:Ev; zbool.
  - by exists v, l, w1.
  - destruct O as [(_ & O & C)|[? _]]; [|lia].
    destruct (async_connect_run v host port k w1) as (v2 & l2 & w2 & E2 & T2 & [N1 N2] & ?).
    rewrite (run_bind_Ok _ _ _ _ _ _ E2). destruct (v2 <? 0) eqn:Ev2; zbool.
    + rewrite run_call_bind. eexists _, _, _. split; [reflexivity|]. cbn [trace].
      rewrite T2, T, <- !app_assoc. split; [reflexivity|]. right. split; [done|].
      rewrite !opened_app, !closed_app, O, C, N1, N2. done.
    + exists v, (l ++ l2), w2. rewrite T2, T, <- app_assoc. split; [done|]. split; [done|]. left.
      by rewrite opened_app, closed_app, O, C, N1, N2.
Qed.

(** Finding.  The test for a connection in progress reads [errno] after a message was
    printed: when the write of the message fails, a connection in progress is taken for
    a failure and closed. *)
Theorem async_connect_loses_errno fd host port k w e :
  e ∉ [EAGAIN; EINTR; EINPROGRESS] →
  (∀ h a, k h (sys_connect fd a) = err_reply EINPROGRESS) →
  (∀ h, r_errno (k h (sys_print "connect fail")) = Some e) →
  ∃ w', async_connect fd host port k w = (Ok (-1), w').
Proof.
  intros He Hc Hp. unfold async_connect, ASYNC_CONTINUE, get_errno. rewrite run_call_bind. cbv zeta.
  rewrite run_call_bind, Hc. change (r_ret (err_reply EINPROGRESS) <? 0) with true. cbv iota.
  rewrite run_print_bind, Hp. rewrite !run_bind. cbn [errno mret M_ret].
  rewrite !not_elem_of_cons in He. destruct He as (H1 & H2 & H3 & _).
  rewrite (proj2 (Z.eqb_neq _ _) H1), (proj2 (Z.eqb_neq _ _) H2), (proj2 (Z.eqb_neq _ _) H3).
  cbn [orb negb]. rewrite run_print_bind. by eexists.
Qed.

(** Finding.  The result of [async_net] is not looked at: after a failure [poll] is
    asked to wait without limit for a descriptor that does not exist. *)
Lemma connection_refused_polls_nothing garbage k w v w' :
  async_net "127.0.0.1" 11111 k w = (Ok v, w') → v < 0 →
  ∃ r l, trace (connection_refused garbage k w).2 =
           trace w' ++ (sys_poll [mkpollfd v (Z.lor POLLIN POLLOUT) garbage] (-1), r) :: l.
Proof.
  intros E _. unfold connection_refused. rewrite (run_bind_Ok _ _ _ _ _ _ E), run_call_bind.
  cbv zeta. rewrite !run_call_bind. set (g := k _ (sys_getsockopt _ _ _)).
  destruct (r_ret g <? 0); [rewrite run_bind|rewrite run_lift_bind, run_call_bind];
    eexists _, _; cbn; rewrite <- !app_assoc; reflexivity.
Qed.
