(* ===== verification/Daytime.v ===== *)
(** * Daytime: [set/time/server.cpp] and [set/time/client.cpp]

    A daytime server that forks for every connection, and its client. *)

From S2P Require Import Prelude Endian Sys.

Definition sys_time : syscall := sys_misc "time" [] [].
(** [ctime]: the text of a time, 24 characters and a newline. *)
Definition sys_ctime (ticks : Z) : syscall := sys_misc "ctime" [ticks] [].
Definition sys_inet_aton (s : string) : syscall := sys_misc "inet_aton" [] (text s).
Definition sys_puts (s : list Byte.byte) : syscall := sys_misc "%s\n" [] s.

(** ** The server *)

(** [snprintf(buff, 256, "%.24s\r\n", s)]: at most 24 characters of the string, the end
    of line and a terminator; the rest of [buff] stays. *)
Definition daytime_line (s : list Byte.byte) : list Byte.byte := take 24 s ++ [Byte.x0d; Byte.x0a].
Definition format_time (buff s : list Byte.byte) : list Byte.byte :=
  let out := daytime_line s ++ [Byte.x00] in out ++ drop (length out) buff.

(** What the child does before it falls back into the loop. *)
Definition daytime_child (cd : Z) (buff : list Byte.byte) : M (list Byte.byte) :=
  ticks ← call sys_time;
  t ← call (sys_ctime (r_ret ticks));
  s ← lift (c_string (r_bytes t ++ [Byte.x00]));
  let buff := format_time buff s in
  n ← call (sys_write cd buff);
  if negb (r_ret n =? lenZ buff) then lift AssertFail else
  _ ← call (sys_shutdown cd SHUT_RDWR);
  mret buff.

(** One turn of the loop, in whichever process [fork] returns. *)
Definition daytime_turn (fd : Z) (buff : list Byte.byte) : M (list Byte.byte) :=
  c ← call (sys_accept fd);
  let cd := r_ret c in
  if cd <? 0 then _ ← print "accept error"; mret buff else
  pid ← call sys_fork;
  if r_ret pid =? 0 then daytime_child cd buff else mret buff.

Fixpoint daytime_loop (fuel : nat) (fd : Z) (buff : list Byte.byte) : M unit :=
  match fuel with
  | O => lift NoFuel
  | S fuel => buff ← daytime_turn fd buff; daytime_loop fuel fd buff
  end.

Definition reuse_option (fd opt : Z) : M unit :=
  e ← call (sys_setsockopt fd SOL_SOCKET opt 1);
  if negb (r_ret e =? 0) then print "setsocket error" else mret tt.

(** [garbage] is the address in the local before [inet_aton], which fills it when it
    succeeds; a failed [bind] is only reported. *)
Definition daytime_server (fuel : nat) (garbage : Z) : M Z :=
  s ← call (sys_socket AF_INET SOCK_STREAM 0);
  let fd := r_ret s in
  if fd <? 0 then _ ← print "socket error"; mret (-1) else
  _ ← reuse_option fd SO_REUSEPORT;
  _ ← reuse_option fd SO_REUSEADDR;
  a ← call (sys_inet_aton "127.0.0.1");
  let ip := if r_ret a =? 0 then garbage else r_int a 0 in
  bd ← call (sys_bind fd (mkaddr AF_INET (htons 13) ip));
  _ ← (if r_ret bd <? 0 then print "bind error" else mret tt);
  l ← call (sys_listen fd 1);
  if r_ret l <? 0 then _ ← print "listen error"; mret 0 else
  _ ← daytime_loop fuel fd (replicate 256 Byte.x00);
  mret 0.

(** ** The client *)

(** [atoi]: blanks, a sign, digits. *)
Definition digit (b : Byte.byte) : option Z :=
  let n := Z.of_N (Byte.to_N b) in if (48 <=? n) && (n <=? 57) then Some (n - 48) else None.
Definition blank (b : Byte.byte) : bool :=
  let n := Z.of_N (Byte.to_N b) in (n =? 32) || ((9 <=? n) && (n <=? 13)).
Fixpoint digits (acc : Z) (s : list Byte.byte) : Z :=
  match s with
  | b :: s => match digit b with Some d => digits (10 * acc + d) s | None => acc end
  | [] => acc
  end.
Fixpoint atoi (s : list Byte.byte) : Z :=
  match s with
  | Byte.x2d :: s => - digits 0 s
  | Byte.x2b :: s => digits 0 s
  | b :: s' => if blank b then atoi s' else digits 0 s
  | [] => 0
  end.

(** The element [argv[i]]: a null pointer behind the last argument. *)
Definition argument (argv : list (list Byte.byte)) (i : nat) : outcome (list Byte.byte) :=
  match argv !! i with
  | Some s => Ok s
  | None => if Nat.eqb i (length argv) then Undef NullPointer else Undef OutOfBounds
  end.

(** The loop over the connection: [buf] is not cleared between the reads. *)
Fixpoint daytime_reads (fuel : nat) (fd : Z) (buf : list Byte.byte) : M Z :=
  match fuel with
  | O => lift NoFuel
  | S fuel =>
      rs ← call (sys_read fd 256);
      if r_ret rs =? 0 then
        _ ← print "read 0, clinet will close."; _ ← call (sys_close fd); mret 0
      else if r_ret rs =? -1 then _ ← print "read EOF. clinet will close."; mret 0
      else
        let buf := copied_in buf rs in
        s ← lift (c_string buf);
        _ ← call (sys_puts s);
        daytime_reads fuel fd buf
  end.

Definition daytime_client (fuel : nat) (argv : list (list Byte.byte)) : M Z :=
  _ ← (if lenZ argv <? 2 then print "Usage variables number must greater" else mret tt);
  s ← call (sys_socket AF_INET SOCK_STREAM 0);
  let fd := r_ret s in
  if fd <? 0 then _ ← print "socket error"; mret 0 else
  port ← lift (argument argv 1);
  host ← lift (argument argv 2);
  ip ← call (sys_misc "inet_addr" [] host);
  e ← call (sys_connect fd (mkaddr AF_INET (htons (atoi port)) (r_ret ip)));
  if r_ret e <? 0 then _ ← print "connect error"; mret 0 else
  _ ← print "connected";
  daytime_reads fuel fd (replicate 256 Byte.x00).

(** ** Properties *)

Lemma length_format_time buff s :
  (27 ≤ length buff)%nat → length (format_time buff s) = length buff.
Proof.
  intros H. unfold format_time, daytime_line. cbv zeta.
  rewrite !length_app, length_drop, ?length_app, length_take. cbn [length]. lia.
Qed.

(** The child writes the line and a terminator into the connection. *)
Lemma daytime_child_writes cd buff s k w :
  lenZ buff = 256 → Byte.x00 ∉ s →
  (∀ h t, r_bytes (k h (sys_ctime t)) = s) →
  (∀ h, r_ret (k h (sys_write cd (format_time buff s))) = 256) →
  ∃ l w', daytime_child cd buff k w = (Ok (format_time buff s), w') ∧ trace w' = trace w ++ l ∧
    ∃ t, calls l = [sys_time; sys_ctime t; sys_write cd (format_time buff s); sys_shutdown cd SHUT_RDWR].
Proof.
  intros Hb Hz Hc Hw. unfold daytime_child. rewrite !run_call_bind, Hc.
  rewrite (c_string_app s []), run_lift_bind by done. cbv zeta. rewrite run_call_bind, Hw.
  assert (lenZ (format_time buff s) = 256) as ->
    by (unfold lenZ in *; rewrite length_format_time; lia).
  change (negb (256 =? 256)) with false. cbv iota. rewrite run_call_bind.
  eexists _, _. split; [reflexivity|]. cbn [trace]. rewrite <- !app_assoc. split; [reflexivity|].
  by eexists.
Qed.

Lemma c_string_format buff s :
  Byte.x00 ∉ s → c_string (format_time buff s) = Ok (daytime_line s).
Proof.
  intros Hz. unfold format_time. cbv zeta. rewrite <- app_assoc. cbn [app]. apply c_string_app.
  unfold daytime_line. rewrite not_elem_of_app. split; [|by apply (bool_decide_unpack _); vm_compute].
  intros H. by eapply Hz, subseteq_take.
Qed.

(** Server and client together.  When the child's write arrives in one piece, the
    client shows the 24 characters of the time and the end of the line, whatever was in
    the buffer of either side before. *)
Theorem daytime_shows_time cd fd buff buf s k w kc wc fuel :
  lenZ buff = 256 → lenZ buf = 256 → Byte.x00 ∉ s →
  (∀ h t, r_bytes (k h (sys_ctime t)) = s) →
  (∀ h d, r_ret (k h (sys_write cd d)) = lenZ d) →
  ∃ l w', daytime_child cd buff k w = (Ok (format_time buff s), w') ∧ trace w' = trace w ++ l ∧
  ∃ d, d ∈ omap (λ c, match c with sys_write f d => if f =? cd then Some d else None | _ => None end)
               (calls l) ∧
  (kc (trace wc) (sys_read fd 256) = data_reply d →
   ∃ r, daytime_reads (S fuel) fd buf kc wc =
     daytime_reads fuel fd d kc
       (advance (advance wc (sys_read fd 256) (data_reply d)) (sys_puts (daytime_line s)) r)).
Proof.
  intros Hb Hb' Hz Hc Hw.
  assert (lenZ (format_time buff s) = 256) as Hl
    by (unfold lenZ in *; rewrite length_format_time; lia).
  destruct (daytime_child_writes cd buff s k w Hb Hz Hc) as (l & w' & E & T & t & C);
    [intros; by rewrite Hw|].
  exists l, w'. split; [done|]. split; [done|]. exists (format_time buff s). split.
  { rewrite C. cbn. rewrite Z.eqb_refl. by left. }
  intros Hr. cbn [daytime_reads]. rewrite run_call_bind, Hr. cbn [r_ret data_reply]. rewrite Hl.
  change (256 =? 0) with false. change (256 =? -1) with false. cbv iota zeta.
  assert (copied_in buf (data_reply (format_time buff s)) = format_time buff s) as ->.
  { unfold copied_in. cbn [r_bytes data_reply]. unfold lenZ in *.
    rewrite (drop_ge buf), app_nil_r, take_ge by lia. done. }
  rewrite c_string_format, run_lift_bind, run_call_bind by done. by eexists.
Qed.

(** The child of the witness is told a time. *)
Definition clock : kernel := λ _ c,
  match c with
  | sys_write _ d => ok_reply (lenZ d)
  | sys_misc _ [_] _ => mkreply 1 None (text "Thu Jan  1 00:00:00 1970" ++ [Byte.x0a]) []
  | _ => ok_reply 0
  end.

Lemma daytime_shows_time_witness :
  let s := text "Thu Jan  1 00:00:00 1970" ++ [Byte.x0a] in
  let z := replicate 256 Byte.x00 in
  ∃ l w', daytime_child 4 z clock world0 = (Ok (format_time z s), w') ∧ trace w' = trace world0 ++ l ∧
  ∃ d, d ∈ omap (λ c, match c with sys_write f d => if f =? 4 then Some d else None | _ => None end)
               (calls l) ∧
  (script [data_reply (format_time z s)] (trace world0) (sys_read 3 256) = data_reply d →
   ∃ r, daytime_reads 1 3 z (script [data_reply (format_time z s)]) world0 =
     daytime_reads 0 3 d (script [data_reply (format_time z s)])
       (advance (advance world0 (sys_read 3 256) (data_reply d)) (sys_puts (daytime_line s)) r)).
Proof.
  apply (daytime_shows_time 4 3 (replicate 256 Byte.x00) (replicate 256 Byte.x00)
           (text "Thu Jan  1 00:00:00 1970" ++ [Byte.x0a]) clock world0
           (script [data_reply (format_time (replicate 256 Byte.x00)
                                 (text "Thu Jan  1 00:00:00 1970" ++ [Byte.x0a]))]) world0 0);
    try reflexivity.
  apply (bool_decide_unpack _). vm_compute. exact I.
Defined.

(** ** The processes *)

(** The turn of a child returns to the loop: it will accept connections next to the
    parent, and fork children of its own. *)
Definition not_close (e : event) : Prop := match e.1 with sys_close _ => False | _ => True end.

Lemma daytime_turn_open fd buff k w :
  ∃ l, trace (daytime_turn fd buff k w).2 = trace w ++ l ∧ Forall not_close l.
Proof.
  unfold daytime_turn, daytime_child. rewrite run_call_bind. cbv zeta.
  destruct (r_ret _ <? 0).
  { rewrite run_print_bind. eexists. cbn. rewrite <- app_assoc. split; [reflexivity|by repeat constructor]. }
  rewrite run_call_bind. destruct (r_ret (k _ sys_fork) =? 0).
  2: { eexists. cbn. rewrite <- app_assoc. split; [reflexivity|by repeat constructor]. }
  rewrite !run_call_bind. set (o := c_string _). rewrite run_bind. cbn [lift].
  destruct o; cbn [trace]; try (eexists; cbn; rewrite <- !app_assoc; split; [reflexivity|by repeat constructor]).
  cbv zeta. rewrite run_call_bind. destruct (negb _);
    [|rewrite run_call_bind]; eexists; cbn; rewrite <- !app_assoc; (split; [reflexivity|by repeat constructor]).
Qed.

(** Finding.  Neither the parent nor a child ever closes an accepted connection: in a
    run of any length, by any of the processes, there is no [close]. *)
Theorem daytime_never_closes fuel fd buff k w :
  ∃ l, trace (daytime_loop fuel fd buff k w).2 = trace w ++ l ∧ Forall not_close l.
Proof.
  revert buff w. induction fuel as [|fuel IH]; intros buff w; cbn [daytime_loop].
  - exists []. by rewrite app_nil_r.
  - destruct (daytime_turn_open fd buff k w) as (l & T & F). rewrite run_bind.
    destruct (daytime_turn fd buff k w) as [[b| | | | |] w1]; cbn [fst snd] in *; try by exists l.
    destruct (IH b w1) as (l2 & T2 & F2). exists (l ++ l2).
    rewrite T2, T, app_assoc. split; [done|by apply Forall_app].
Qed.

(** Finding.  Without its arguments the client prints how to use it, and goes on: it
    converts a null pointer to a port. *)
Lemma daytime_client_without_arguments fuel name k w :
  0 ≤ r_ret (k (trace w ++ [(sys_print "Usage variables number must greater",
                 k (trace w) (sys_print "Usage variables number must greater"))])
               (sys_socket AF_INET SOCK_STREAM 0)) →
  (daytime_client fuel [name] k w).1 = Undef NullPointer.
Proof.
  intros H. unfold daytime_client. change (lenZ [name] <? 2) with true. cbv iota.
  rewrite run_print_bind, run_call_bind. cbn [trace]. cbv zeta.
  by rewrite (proj2 (Z.ltb_ge _ 0)) by done.
Qed.
