(* ===== verification/Rendezvous.v ===== *)
(** * Rendezvous: [set/abstractunix] and [set/muticast]

    Two pairs of programs that meet at an address fixed in their source: a client and a
    service on an abstract Unix socket, a receiver and a sender of a multicast group. *)

From S2P Require Import Prelude Endian Buffer BufferSpec Sys.
From coqutil Require Import Byte Word.LittleEndianList.

(** ** Abstract Unix sockets *)

Definition AF_UNIX : Z := 1.
Definition SUN_SIZE : Z := 110.   (** [sizeof(struct sockaddr_un)]: 2 and 108 *)

(** [bind] and [connect] are given the first [size] bytes of the structure. *)
Definition sys_bind_un (fd : Z) (addr : list Byte.byte) : syscall := sys_misc "bind" [fd] addr.
Definition sys_connect_un (fd : Z) (addr : list Byte.byte) : syscall := sys_misc "connect" [fd] addr.
Definition sys_sleep (s : Z) : syscall := sys_misc "sleep" [s] [].

Definition filename : list Byte.byte := text "uds-tmp".
Definition filename1 : list Byte.byte := text "uds-tmp1".

(** [sun_family = AF_UNIX; sun_path[0] = 0; strcpy(sun_path + 1, name)] on a structure
    that holds [un], and the [size] passed with it. *)
Definition fill_un (un : list cell) (name : list Byte.byte) : outcome (list cell) :=
  un ← store un 0 (Some <$> le_split 2 AF_UNIX);
  un ← store un 2 [Some Byte.x00];
  store un 3 (Some <$> (name ++ [Byte.x00])).
Definition un_size (name : list Byte.byte) : Z := 2 + lenZ name + 1.

Definition un_bytes (un : list cell) (size : Z) : outcome (list Byte.byte) :=
  c ← load un 0 size; defined c.

(** [char buffer[BUFFER_SIZE] = {1, 2, 3}] *)
Definition un_payload : list Byte.byte := [Byte.x01; Byte.x02; Byte.x03] ++ replicate 1021 Byte.x00.

Fixpoint un_send_loop (fuel : nat) (fd : Z) : M Z :=
  match fuel with
  | O => lift NoFuel
  | S fuel =>
      _ ← call (sys_send fd un_payload 0);
      _ ← print "sending";
      _ ← call (sys_sleep (10 * 1000));
      un_send_loop fuel fd
  end.

(** [garbage] is the local [un], which is not cleared. *)
Definition unix_client (fuel : nat) (garbage : list cell) : M Z :=
  un ← lift (fill_un garbage filename);
  s ← call (sys_socket AF_UNIX SOCK_STREAM 0);
  let sock_fd := r_ret s in
  if sock_fd <? 0 then _ ← print "Request socket failed"; mret (-1) else
  un1 ← lift (fill_un (replicate (Z.to_nat SUN_SIZE) (Some Byte.x00)) filename1);
  a ← lift (un_bytes un1 (un_size filename1));
  e ← call (sys_bind_un sock_fd a);
  if r_ret e <? 0 then _ ← print "bind fail"; mret (-1) else
  a ← lift (un_bytes un (un_size filename));
  e ← call (sys_connect_un sock_fd a);
  if r_ret e <? 0 then _ ← print "connect socket failed"; mret (-1) else
  un_send_loop fuel sock_fd.

(** [errno] is read whether [accept] failed or not. *)
Fixpoint un_accept_loop (fuel : nat) (fd : Z) : M Z :=
  match fuel with
  | O => lift NoFuel
  | S fuel =>
      c ← call (sys_accept fd);
      let new_fd := r_ret c in
      e ← get_errno;
      if (new_fd <? 0) && (e =? EAGAIN) then un_accept_loop fuel fd
      else _ ← (if 0 <? new_fd then print "connect sucess" else mret tt); un_accept_loop fuel fd
  end.

Definition unix_service (fuel : nat) : M Z :=
  s ← call (sys_socket AF_UNIX SOCK_STREAM 0);
  let fd := r_ret s in
  if fd <? 0 then _ ← print "Request socket failed!"; mret (-1) else
  un ← lift (fill_un (replicate (Z.to_nat SUN_SIZE) (Some Byte.x00)) filename);
  a ← lift (un_bytes un (un_size filename));
  e ← call (sys_bind_un fd a);
  if r_ret e <? 0 then _ ← print "bind failed!"; mret (-1) else
  e ← call (sys_listen fd 10);
  if r_ret e <? 0 then _ ← print "listen failed!"; mret (-1) else
  un_accept_loop fuel fd.

(** The bytes of an abstract address: the family, a zero, the name without a terminator. *)
Definition abstract_name (name : list Byte.byte) : list Byte.byte :=
  le_split 2 AF_UNIX ++ Byte.x00 :: name.

(** A store over the middle of a list. *)
Lemma store_middle {A} (pre old tl d : list A) i :
  i = lenZ pre → length old = length d → store (pre ++ old ++ tl) i d = Ok (pre ++ d ++ tl).
Proof.
  intros -> Hl. rewrite store_Ok by (rewrite ?lenZ_app; unfold lenZ; lia). f_equal.
  unfold splice, lenZ. rewrite Nat2Z.id, take_app_length, drop_app_add. do 2 f_equal.
  by rewrite <- Hl, drop_app_length.
Qed.

Lemma fill_un_bytes un name :
  lenZ un = SUN_SIZE → lenZ name < 107 →
  ∃ un', fill_un un name = Ok un' ∧ un_bytes un' (un_size name) = Ok (abstract_name name).
Proof.
  unfold SUN_SIZE, lenZ. intros Hu Hn.
  destruct un as [|c1 [|c2 [|c3 un]]]; cbn [length] in Hu; try lia.
  rewrite <- (take_drop (length name + 1) un). set (old := take _ un). set (tl := drop _ un).
  assert (length old = length name + 1)%nat as Ho by (subst old; rewrite length_take; lia).
  exists ((Some <$> (abstract_name name)) ++ Some Byte.x00 :: tl). split.
  - unfold fill_un. rewrite (store_middle [] [c1; c2] (c3 :: old ++ tl)) by done.
    cbn [mbind outcome_bind]. rewrite app_nil_l.
    change ((Some <$> le_split 2 AF_UNIX) ++ c3 :: old ++ tl)
      with ([Some Byte.x01; Some Byte.x00] ++ [c3] ++ (old ++ tl)).
    rewrite store_middle by done. cbn [mbind outcome_bind].
    rewrite (store_middle [Some Byte.x01; Some Byte.x00; Some Byte.x00] old tl)
      by (done || rewrite length_fmap, length_app; cbn; lia).
    f_equal. rewrite !fmap_app. cbn. by rewrite <- app_assoc.
  - unfold un_bytes, un_size. set (a := abstract_name name).
    assert (2 + lenZ name + 1 = lenZ a) as ->
      by (subst a; unfold lenZ, abstract_name; rewrite length_app, length_le_split; cbn [length]; lia).
    rewrite load_Ok by (rewrite ?lenZ_app, ?lenZ_fmap; pose proof (lenZ_nonneg (Some Byte.x00 :: tl));
                        pose proof (lenZ_nonneg a); lia).
    unfold slice, lenZ. rewrite Nat2Z.id, drop_0, take_app_length' by (by rewrite length_fmap).
    cbn [mbind outcome_bind]. apply defined_fmap.
Qed.

(** The first address a program binds or connects to. *)
Definition bound (l : list event) : list (list Byte.byte) :=
  omap (λ e : event, match e.1 with
    | sys_misc n _ a => if String.eqb n "bind" then Some a else None | _ => None end) l.
Definition connected (l : list event) : list (list Byte.byte) :=
  omap (λ e : event, match e.1 with
    | sys_misc n _ a => if String.eqb n "connect" then Some a else None | _ => None end) l.

Lemma un_send_loop_quiet fuel fd k w :
  ∃ l, trace (un_send_loop fuel fd k w).2 = trace w ++ l ∧ bound l = [] ∧ connected l = [].
Proof.
  revert w. induction fuel as [|fuel IH]; intros w; cbn [un_send_loop].
  - exists []. by rewrite app_nil_r.
  - rewrite run_call_bind, run_print_bind, run_call_bind. edestruct IH as (l & T & B & C).
    rewrite T. eexists (_ :: _ :: _ :: l). cbn [trace]. rewrite <- !app_assoc. split; [reflexivity|].
    unfold bound, connected in *. cbn. by rewrite B, C.
Qed.

Lemma un_accept_loop_quiet fuel fd k w :
  ∃ l, trace (un_accept_loop fuel fd k w).2 = trace w ++ l ∧ bound l = [] ∧ connected l = [].
Proof.
  revert w. induction fuel as [|fuel IH]; intros w; cbn [un_accept_loop].
  - exists []. by rewrite app_nil_r.
  - rewrite run_call_bind. cbv zeta.
    rewrite (run_bind_Ok get_errno _ _ _ _ _ eq_refl). cbv beta.
    destruct (_ && _); [|destruct (0 <? r_ret _);
      [rewrite run_print_bind|rewrite (run_bind_Ok (mret tt) _ _ _ _ _ eq_refl)]];
    edestruct IH as (l & T & B & C); rewrite T; cbn [trace]; rewrite <- ?app_assoc;
    (eexists; split; [reflexivity|]); unfold bound, connected in *; cbn; by rewrite B, C.
Qed.

Lemma unix_client_addresses fuel garbage k w :
  lenZ garbage = SUN_SIZE → (∀ h c, 0 ≤ r_ret (k h c)) →
  ∃ l, trace (unix_client fuel garbage k w).2 = trace w ++ l ∧
    bound l = [abstract_name filename1] ∧ connected l = [abstract_name filename].
Proof.
  intros Hg Hk. unfold unix_client.
  destruct (fill_un_bytes garbage filename Hg ltac:(done)) as (un & E & Eb).
  rewrite E, run_lift_bind, run_call_bind. cbv zeta.
  rewrite (proj2 (Z.ltb_ge _ 0)) by apply Hk.
  destruct (fill_un_bytes (replicate (Z.to_nat SUN_SIZE) (Some Byte.x00)) filename1 eq_refl ltac:(done))
    as (un1 & E1 & E1b).
  rewrite E1, run_lift_bind, E1b, run_lift_bind, run_call_bind, (proj2 (Z.ltb_ge _ 0)) by apply Hk.
  rewrite Eb, run_lift_bind, run_call_bind, (proj2 (Z.ltb_ge _ 0)) by apply Hk.
  edestruct un_send_loop_quiet as (l & T & B & C). rewrite T. cbn [trace]. rewrite <- !app_assoc.
  eexists. split; [reflexivity|]. unfold bound, connected in *. cbn. by rewrite B, C.
Qed.

Lemma unix_service_address fuel k w :
  (∀ h c, 0 ≤ r_ret (k h c)) →
  ∃ l, trace (unix_service fuel k w).2 = trace w ++ l ∧
    bound l = [abstract_name filename] ∧ connected l = [].
Proof.
  intros Hk. unfold unix_service. rewrite run_call_bind. cbv zeta.
  rewrite (proj2 (Z.ltb_ge _ 0)) by apply Hk.
  destruct (fill_un_bytes (replicate (Z.to_nat SUN_SIZE) (Some Byte.x00)) filename eq_refl ltac:(done))
    as (un & E & Eb).
  rewrite E, run_lift_bind, Eb, run_lift_bind, run_call_bind, (proj2 (Z.ltb_ge _ 0)) by apply Hk.
  rewrite run_call_bind, (proj2 (Z.ltb_ge _ 0)) by apply Hk.
  edestruct un_accept_loop_quiet as (l & T & B & C). rewrite T. cbn [trace]. rewrite <- !app_assoc.
  eexists. split; [reflexivity|]. unfold bound, connected in *. cbn. by rewrite B, C.
Qed.

(** Client and service meet.  Whatever is in the structure the client does not
    clear, the address it connects to is, byte for byte, the one the service is bound
    to, and its own address is another one. *)
Theorem unix_rendezvous fuelc fuels garbage kc ks :
  lenZ garbage = SUN_SIZE → (∀ h c, 0 ≤ r_ret (kc h c)) → (∀ h c, 0 ≤ r_ret (ks h c)) →
  let client := trace (unix_client fuelc garbage kc world0).2 in
  let service := trace (unix_service fuels ks world0).2 in
  ∃ a own, connected client = [a] ∧ bound service = [a] ∧ bound client = [own] ∧ own ≠ a.
Proof.
  intros Hg Hc Hs client service.
  destruct (unix_client_addresses fuelc garbage kc world0 Hg Hc) as (lc & Tc & Bc & Cc).
  destruct (unix_service_address fuels ks world0 Hs) as (ls & Ts & Bs & _).
  subst client service. change (trace world0) with (@nil event) in *. cbn [app] in *.
  rewrite Tc, Ts, Bc, Cc, Bs. by eexists _, _.
Qed.

Lemma unix_rendezvous_witness :
  let k : kernel := λ _ _, ok_reply 3 in
  let client := trace (unix_client 2 (replicate 110 None) k world0).2 in
  let service := trace (unix_service 2 k world0).2 in
  ∃ a own, connected client = [a] ∧ bound service = [a] ∧ bound client = [own] ∧ own ≠ a.
Proof. apply (unix_rendezvous 2 2 (replicate 110 None)); [reflexivity|cbn; lia|cbn; lia]. Defined.

(** ** Multicast *)

Definition IP_ADD_MEMBERSHIP : Z := 35.
Definition sys_add_membership (fd multiaddr interface : Z) : syscall :=
  sys_misc "setsockopt" [fd; 0; IP_ADD_MEMBERSHIP; multiaddr; interface] [].
Definition sys_sendto (fd : Z) (data : list Byte.byte) (a : sockaddr_in) : syscall :=
  sys_misc "sendto" [fd; sin_family a; sin_port a; sin_addr a] data.
Definition sys_puts_buf (s : list Byte.byte) : syscall := sys_misc "puts" [] s.

Definition group_addr : M sockaddr_in :=
  a ← call (sys_inet_addr "224.224.224.224"); mret (mkaddr AF_INET (htons 9999) (r_ret a)).

(** The receiver's loop; [buf] is cleared only once, before it. *)
Fixpoint multicast_receive (fuel : nat) (sockfd : Z) (buf : list Byte.byte) : M unit :=
  match fuel with
  | O => lift NoFuel
  | S fuel =>
      r ← call (sys_recv sockfd 1024 0);
      if r_ret r =? -1 then print "recvfrom"
      else
        let buf := copied_in buf r in
        s ← lift (c_string buf);
        _ ← call (sys_puts_buf s);
        multicast_receive fuel sockfd buf
  end.

Definition multicast_client (fuel : nat) : M Z :=
  s ← call (sys_socket AF_INET SOCK_DGRAM 0);
  let sockfd := r_ret s in
  if sockfd =? -1 then _ ← print "socket"; mret (-1) else
  m ← call (sys_inet_addr "224.224.224.224");
  i ← call (sys_inet_addr "192.168.1.21");
  e ← call (sys_add_membership sockfd (r_ret m) (r_ret i));
  if r_ret e =? -1 then _ ← print "setsockopt"; mret (-1) else
  addr ← group_addr;
  ret ← call (sys_bind sockfd addr);
  if r_ret ret =? -1 then _ ← print "bind"; mret (-1) else
  _ ← multicast_receive fuel sockfd (replicate 1024 Byte.x00);
  _ ← call (sys_close sockfd);
  mret 0.

Fixpoint multicast_send (fuel : nat) (sockfd : Z) (addr : sockaddr_in) : M unit :=
  match fuel with
  | O => lift NoFuel
  | S fuel =>
      r ← call (sys_sendto sockfd (replicate 1024 Byte.x00) addr);
      if r_ret r =? -1 then print "sendto" else multicast_send fuel sockfd addr
  end.

Definition multicast_server (fuel : nat) : M Z :=
  s ← call (sys_socket AF_INET SOCK_DGRAM 0);
  let sockfd := r_ret s in
  if sockfd =? -1 then _ ← print "socket"; mret (-1) else
  addr ← group_addr;
  _ ← multicast_send fuel sockfd addr;
  _ ← call (sys_close sockfd);
  mret 0.

(** A datagram is shown, but followed by what an earlier, longer one left in the
    buffer. *)
Lemma c_string_stale d buf rest :
  Byte.x00 ∉ d → (length d ≤ length buf)%nat → c_string (drop (length d) buf) = Ok rest →
  c_string (copied_in buf (data_reply d)) = Ok (d ++ rest).
Proof.
  intros Hz Hl Hr. unfold copied_in. cbn [r_bytes data_reply].
  rewrite take_ge by (rewrite length_app, length_drop; lia).
  revert Hr. generalize (drop (length d) buf) as tl. clear Hl. intros tl Hr.
  induction d as [|b d IH]; [done|]. cbn [app c_string].
  assert (b ≠ Byte.x00) by set_solver. destruct b; try done; rewrite IH by set_solver; done.
Qed.

(** Finding.  [buf] is not cleared between the datagrams, and [recvfrom] adds no
    terminator: a datagram shorter than an earlier one is printed with the earlier one's
    tail. *)
Theorem multicast_shows_stale fuel sockfd d buf rest k w :
  Byte.x00 ∉ d → d ≠ [] → (length d ≤ length buf)%nat →
  c_string (drop (length d) buf) = Ok rest →
  k (trace w) (sys_recv sockfd 1024 0) = data_reply d →
  ∃ r, multicast_receive (S fuel) sockfd buf k w =
    multicast_receive fuel sockfd (copied_in buf (data_reply d)) k
      (advance (advance w (sys_recv sockfd 1024 0) (data_reply d)) (sys_puts_buf (d ++ rest)) r).
Proof.
  intros Hz _ Hl Hrest Hr. cbn [multicast_receive]. rewrite run_call_bind, Hr.
  change (r_ret (data_reply d)) with (lenZ d). pose proof (lenZ_nonneg d).
  rewrite (proj2 (Z.eqb_neq (lenZ d) (-1))) by lia. cbv zeta.
  rewrite (c_string_stale d buf rest), run_lift_bind, run_call_bind by done. by eexists.
Qed.

(** After [hello] the datagram [no] is shown as [nollo]. *)
Example multicast_stale_run :
  calls (trace (multicast_receive 2 3 (replicate 1024 Byte.x00)
                  (script [data_reply (text "hello"); ok_reply 0; data_reply (text "no"); ok_reply 0])
                  world0).2)
  = [sys_recv 3 1024 0; sys_puts_buf (text "hello"); sys_recv 3 1024 0; sys_puts_buf (text "nollo")].
Proof. by vm_compute. Qed.
