(* ===== verification/Sample.v ===== *)
(** * Sample: [set/sample/sample.cpp], [include/algor] and [set/macro]

    A tour of socket options and name lookups, and the example function the test
    suite starts with. *)

From S2P Require Import Prelude Endian Buffer Sys Sockops.
From coqutil Require Import Byte Word.LittleEndianList.

(** ** [include/algor/algor.cpp] *)

(** [int] addition: a sum outside the type is undefined. *)
Definition algor_add (a b : Z) : outcome Z :=
  if (- 2 ^ 31 <=? a + b) && (a + b <? 2 ^ 31) then Ok (a + b) else Undef SignedOverflow.

(** ** [set/sample/sample.cpp] *)

Definition TCP_MAXSEG : Z := 2.
Definition SO_RCVBUF : Z := 8.
Definition SO_SNDBUF : Z := 7.
Definition SO_RCVLOWAT : Z := 18.
Definition SO_SNDLOWAT : Z := 19.

Definition sys_say (fmt : string) (n : Z) : syscall := sys_misc fmt [n] [].
Definition sys_say_text (fmt : string) (s : list Byte.byte) : syscall := sys_misc fmt [] s.
Definition sys_getaddrinfo (host port : string) : syscall :=
  sys_misc "getaddrinfo" [] (text host ++ Byte.x20 :: text port).
Definition sys_freeaddrinfo : syscall := sys_misc "freeaddrinfo" [] [].

(** One block: the variable is 0 before the call, which fills it when it succeeds. *)
Definition show_option (so level opt : Z) (fmt : string) : M unit :=
  r ← call (sys_getsockopt so level opt);
  _ ← call (sys_say fmt (if r_ret r <? 0 then 0 else r_int r 0)); mret tt.

(** Decimal text of a byte, and the dotted form of four bytes in memory order, as
    [inet_ntop] writes it for [AF_INET]. *)
Definition dec_digit (d : Z) : Byte.byte := byte.of_Z (48 + d).
Definition dec_byte (b : Byte.byte) : list Byte.byte :=
  let n := byte.unsigned b in
  if n <? 10 then [dec_digit n]
  else if n <? 100 then [dec_digit (n / 10); dec_digit (n mod 10)]
  else [dec_digit (n / 100); dec_digit (n / 10 mod 10); dec_digit (n mod 10)].
Fixpoint dotted (bs : list Byte.byte) : list Byte.byte :=
  match bs with
  | [] => []
  | [b] => dec_byte b
  | b :: bs => dec_byte b ++ Byte.x2e :: dotted bs
  end.

Definition AF_INET6 : Z := 10.
Definition family_name (f : Z) : list Byte.byte :=
  if f =? AF_INET then text "AF_INET" else text "AF_INET6".

(** The loops over the names of a [struct hostent]: [h_aliases] are the strings of the
    reply, separated by zeroes; [h_addr_list] its addresses. *)
Fixpoint split_zero (acc s : list Byte.byte) : list (list Byte.byte) :=
  match s with
  | [] => []
  | Byte.x00 :: s => acc :: split_zero [] s
  | b :: s => split_zero (acc ++ [b]) s
  end.
Fixpoint say_all (fmt : string) (l : list (list Byte.byte)) : M unit :=
  match l with
  | [] => mret tt
  | s :: l => _ ← call (sys_say_text fmt s); say_all fmt l
  end.

Definition show_host : M unit :=
  r ← call (sys_gethostbyname "www.baidu.com");
  match hostent_of r with
  | None => _ ← call (sys_say_text "Get IP address error!" []); mret tt
  | Some h =>
      _ ← say_all "Aliases" (split_zero [] (r_bytes r));
      _ ← call (sys_say_text "Address type" (family_name (h_addrtype h)));
      say_all "IP addr" ((λ a, dotted (le_split 4 a)) <$> h_addr_list h)
  end.

(** [struct addrinfo]: the address family, the socket address it points to, and the
    canonical name, which only the first entry of a list has. *)
Record addrinfo : Type := mkai {
  ai_family : Z; ai_addr : list Byte.byte; ai_canonname : option (list Byte.byte)
}.

(** [struct sockaddr_in]: family, port in network order, address, padding. *)
Definition sockaddr_in_bytes (a : sockaddr_in) : list Byte.byte :=
  le_split 2 (sin_family a) ++ le_split 2 (sin_port a) ++ le_split 4 (sin_addr a) ++ replicate 8 Byte.x00.

(** [inet_ntop(family, src, ...)]: four bytes for [AF_INET]; an unknown family is an
    error.  The text of an IPv6 address is a parameter. *)
Definition inet_ntop (v6 : list Byte.byte → list Byte.byte) (family : Z) (src : list Byte.byte)
    : option (list Byte.byte) :=
  if family =? AF_INET then Some (dotted (take 4 src))
  else if family =? AF_INET6 then Some (v6 (take 16 src)) else None.

(** The loop over the result: the structure itself, not the address in it, is passed to
    [inet_ntop]; [%s] with a null pointer is undefined. *)
Fixpoint show_addrinfo (v6 : list Byte.byte → list Byte.byte) (result : list addrinfo) : M unit :=
  match result with
  | [] => mret tt
  | rp :: result =>
      _ ← call (sys_say_text "address type" (family_name (ai_family rp)));
      match inet_ntop v6 (ai_family rp) (ai_addr rp) with
      | None => print "inet_ntop error"
      | Some buf =>
          _ ← call (sys_say_text "address" buf);
          match ai_canonname rp with
          | None => undef NullPointer
          | Some s => _ ← call (sys_say_text "rp canonname" s); show_addrinfo v6 result
          end
      end
  end.

(** [lookup] reads the list of the result out of a reply. *)
Definition show_addresses (v6 : list Byte.byte → list Byte.byte) (lookup : reply → list addrinfo)
    : M unit :=
  e ← call (sys_getaddrinfo "45.113.192.101" "80");
  if negb (r_ret e =? 0) then print "getaddrinfo error"
  else _ ← show_addrinfo v6 (lookup e); _ ← call sys_freeaddrinfo; mret tt.

Definition sample_main (v6 : list Byte.byte → list Byte.byte) (lookup : reply → list addrinfo) : M Z :=
  s ← call (sys_socket AF_INET SOCK_STREAM 0);
  let so := r_ret s in
  _ ← show_option so IPPROTO_TCP TCP_MAXSEG "max segment size";
  _ ← show_option so SOL_SOCKET SO_RCVBUF "recv buffer size";
  _ ← show_option so SOL_SOCKET SO_SNDBUF "send buffer size";
  _ ← show_option so SOL_SOCKET SO_RCVLOWAT "recv buffer LOWAT size";
  _ ← show_option so SOL_SOCKET SO_SNDLOWAT "send buffer LOWAT size";
  _ ← show_host;
  _ ← print "---------------";
  _ ← show_addresses v6 lookup;
  mret 0.

(** ** Properties *)

(** [add] agrees with the test, and is exact whenever it is defined. *)
Lemma algor_add_exact a b : algor_add a b = Ok (a + b) ∨ (algor_add a b = Undef SignedOverflow ∧ i32 (a + b) ≠ a + b).
Proof.
  unfold algor_add. destruct (- 2 ^ 31 <=? a + b) eqn:E1, (a + b <? 2 ^ 31) eqn:E2; cbn [andb]; [by left|right..];
    zbool; (split; [done|]); unfold i32, signed; cbv zeta; change (2 ^ (32 - 1)) with (2 ^ 31);
    pose proof (Z.mod_pos_bound (a + b) (2 ^ 32) ltac:(lia));
    destruct (_ <? 2 ^ 31) eqn:E3; zbool; lia.
Qed.

Example algor_add_test : algor_add 1 1 = Ok 2.
Proof. reflexivity. Qed.

(** Finding.  [inet_ntop] is given the socket address instead of the address inside it:
    for every IPv4 result the text shown is made of the family and the port, the same
    for all hosts. *)
Theorem sample_shows_family_and_port v6 a :
  sin_family a = AF_INET → sin_port a = htons 80 →
  inet_ntop v6 AF_INET (sockaddr_in_bytes a) = Some (text "2.0.0.80").
Proof. intros Hf Hp. unfold inet_ntop, sockaddr_in_bytes. rewrite Hf, Hp. reflexivity. Qed.

(** Finding.  Only the first entry of the list has a canonical name; a host with a second
    address makes the program print a null pointer. *)
Lemma sample_second_entry v6 rp1 rp2 s k w :
  ai_family rp1 = AF_INET → ai_family rp2 = AF_INET →
  ai_canonname rp1 = Some s → ai_canonname rp2 = None →
  (show_addrinfo v6 [rp1; rp2] k w).1 = Undef NullPointer.
Proof.
  intros H1 H2 C1 C2. cbn [show_addrinfo]. rewrite H1, H2, C1, C2.
  unfold inet_ntop. change (AF_INET =? AF_INET) with true. cbv iota. by rewrite !run_call_bind.
Qed.

(** ** [set/macro/main.cpp]

    Inside a function [__func__] is its name, and [operator()] inside a lambda.  What it is
    at file scope and in the initialiser of a member is up to the compiler. *)
Section Macro.
Variables out_func out_func1 class_func : string.

Definition macro_lambda (func : string) : M unit := print ("lambda " +:+ func).

Definition macro_main : M Z :=
  _ ← macro_lambda "operator()";
  _ ← print "normal main";
  _ ← print ("out func " +:+ out_func);
  _ ← print ("class_func " +:+ class_func);
  _ ← macro_lambda "operator()";
  _ ← print ("out func1 " +:+ out_func1);
  mret 0.
End Macro.

(** [__func__] and [__FUNCTION__] show the same name inside a lambda, whatever the
    compiler does at file scope. *)
Theorem macro_names_agree out_func out_func1 class_func k w :
  ∃ w', macro_main out_func out_func1 class_func k w = (Ok 0, w') ∧
    (calls (trace w') !! length (trace w) = calls (trace w') !! (length (trace w) + 4)%nat).
Proof.
  unfold macro_main, macro_lambda, print. eexists. split; [reflexivity|].
  cbn [trace advance]. unfold calls. rewrite <- !app_assoc, fmap_app. cbn [app].
  rewrite !lookup_app_r by (rewrite length_fmap; lia). rewrite length_fmap.
  replace (length (trace w) - length (trace w))%nat with 0%nat by lia.
  replace (length (trace w) + 4 - length (trace w))%nat with 4%nat by lia. reflexivity.
Qed.
