(* ===== verification/Tests.v ===== *)
(** * Tests: the test programs of the repository

    [test/buffer/buffer.ts.cpp] with its assertions, and [test/algor_test.cpp].  They are
    translated like the rest of the code, so that passing them is a theorem. *)

From S2P Require Import Prelude Endian Buffer BufferSpec Sys Sample.
From coqutil Require Import Byte Word.LittleEndianList.

(** A string literal: its characters and the terminating zero. *)
Definition literal (s : string) : list Byte.byte := text s ++ [Byte.x00].

(** A pointer read as a pointer to [T], and [memcpy(&t, p, sizeof(T))]: an integer at offset [i] of an array. *)
Definition read_int (t : utype) (a : list Byte.byte) (i : Z) : outcome Z :=
  bs ← load a i (Z.of_nat (sizeof t)); Ok (le_combine bs).

(** What [std::cout << std::bitset<64>(x)] shows: the highest bit first. *)
Definition bitset64 (x : Z) : list bool := (λ i, Z.testbit x (63 - Z.of_nat i)) <$> seq 0 64.

(** The lines written: a character, and a bit set. *)
Inductive shown_line : Type := ShownChar (c : Z) | ShownBits (b : list bool).

(** [main] of [buffer.ts.cpp]: the lines it writes and its result. *)
Definition buffer_ts_main : outcome (list shown_line * Z) :=
  buff ← circulation_buffer_new 20;
  let buf := literal "1234567890" in
  buff ← append buff (Some <$> buf) 10;
  c ← peek buff uint8_t;
  c1 ← peek buff uint64_t;
  n1 ← read_int uint64_t buf 0;
  _ ← cassert (c1 =? network2host uint64_t n1);
  buff ← skip buff 8;
  c2 ← peek buff uint16_t;
  t ← read_int uint16_t buf 8;
  let b1 := network2host uint16_t t in
  _ ← cassert (c2 =? b1);
  buff ← append buff (Some <$> literal "1234567890") 10;
  buff ← append buff (Some <$> literal "4321") 4;
  buff ← skip buff 6;
  let tm := literal "56789043" in
  t1 ← read_int uint64_t tm 0;
  let b2 := network2host uint64_t t1 in
  c3 ← peek buff uint64_t;
  _ ← cassert (c3 =? b2);
  buff ← append buff (Some <$> literal "4321") 4;
  buff ← skip buff 10;
  Ok ([ShownChar c; ShownBits (bitset64 t1)], 0).

(** [EXPECT_EQ(add(1, 1), 2)] *)
Definition algor_test : outcome bool := r ← algor_add 1 1; Ok (r =? 2).

(** Both programs pass: no assertion fails, the buffer raises no fault, and the first line
    shows the digit 1. *)
Theorem repository_tests_pass :
  (∃ bits, buffer_ts_main = Ok ([ShownChar 49; ShownBits bits], 0)) ∧ algor_test = Ok true.
Proof. split; [eexists; vm_compute; reflexivity|reflexivity]. Qed.
