(* ===== verification/ProcessPool.v ===== *)
(** * ProcessPool: [set/process_pool/Billboard.h] and [set/process_pool/main.cpp]

    A pool of forked processes, each connected to its parent through a socket
    pair (the billboard).  [fork] is a system call with two returns: its reply is
    0 in the run that follows the child. *)

From stdpp Require Import pretty.
From S2P Require Import Prelude Sys Sockops.

(** ** Billboard *)

(** The two ends of the socket pair, the thread that owns it, the end in use. *)
Record Billboard : Type := mkBillboard {
  process_communication_ : Z * Z; current_thread_id_ : Z; fd_ : Z
}.

Definition process_communication_init : M (Z * Z) :=
  r ← call sys_socketpair; mret (r_int r 0, r_int r 1).

(** [current_thread_id] is the thread-local variable of [Billboard.h]. *)
Definition Billboard_new (current_thread_id : Z) : M Billboard :=
  _ ← print "Billboard";
  ends ← process_communication_init;
  mret {| process_communication_ := ends; current_thread_id_ := current_thread_id; fd_ := 0 |}.

Definition Billboard_start (current_thread_id : Z) (b : Billboard) : M Billboard :=
  let '(e0, e1) := process_communication_ b in
  if current_thread_id_ b =? current_thread_id then
    _ ← print "move Billboard in parent process";
    _ ← call (sys_close e0);
    mret {| process_communication_ := (e0, e1); current_thread_id_ := current_thread_id_ b;
            fd_ := e1 |}
  else
    _ ← call (sys_close e1);
    _ ← print "move Billboard in child process";
    mret {| process_communication_ := (e0, e1); current_thread_id_ := current_thread_id;
            fd_ := e0 |}.

(** ** ProcessHandle *)

Definition MAX_PROCESS_NAME : nat := 20.

(** Each turn of the loop assigns one character to the whole string. *)
Fixpoint name_loop (chars : list Ascii.ascii) (process_name_ : string) : string :=
  match chars with
  | [] => process_name_
  | c :: chars => name_loop chars (String c EmptyString)
  end.

(** [process_name_{'\0', MAX_PROCESS_NAME}] is the two-character string. *)
Definition process_name_of (process_name : string) : string :=
  name_loop (take MAX_PROCESS_NAME (String.list_ascii_of_string process_name))
            (String (Ascii.ascii_of_nat 0) (String (Ascii.ascii_of_nat 20) EmptyString)).

(** [std::any]: empty, or a value with its type. *)
Definition any_value : Type := option (string * Z).

(** [process_exec] by what it does; [None] is an empty [std::function]. *)
Definition process_exec : Type := any_value → Billboard → M Z.
Record ProcessHandle : Type := mkHandle {
  exec_ : option process_exec; process_name_ : string; user_data_ : any_value;
  billboard_ : option Billboard
}.

Definition ProcessHandle_new (process_name : string) (pexec : option process_exec)
    : ProcessHandle :=
  {| exec_ := pexec; process_name_ := process_name_of process_name; user_data_ := None;
     billboard_ := None |}.

(** The result is the moved-from parameter, which is empty. *)
Definition set_exec (h : ProcessHandle) (pexec : option process_exec)
    : ProcessHandle * option process_exec :=
  ({| exec_ := pexec; process_name_ := process_name_ h; user_data_ := user_data_ h;
      billboard_ := billboard_ h |}, None).

Definition set_user_data (h : ProcessHandle) (type : string) (data : Z) : ProcessHandle :=
  {| exec_ := exec_ h; process_name_ := process_name_ h; user_data_ := Some (type, data);
     billboard_ := billboard_ h |}.

(** A null pointer when the value has another type. *)
Definition get_user_data (h : ProcessHandle) (type : string) : option Z :=
  match user_data_ h with
  | Some (t, v) => if String.eqb t type then Some v else None
  | None => None
  end.

Definition get_process_name (h : ProcessHandle) : string := process_name_ h.

Definition set_billboard (h : ProcessHandle) (b : Billboard) : ProcessHandle :=
  {| exec_ := exec_ h; process_name_ := process_name_ h; user_data_ := user_data_ h;
     billboard_ := Some b |}.

Definition get_billboard (h : ProcessHandle) : outcome Billboard :=
  match billboard_ h with Some b => Ok b | None => Undef NullPointer end.

(** [invoke]: every exception becomes -1. *)
Definition invoke (h : ProcessHandle) : M Z := λ k w,
  let '(o, w') :=
    (b ← lift (get_billboard h);
     match exec_ h with Some f => f (user_data_ h) b | None => throw bad_function_call end) k w in
  match o with
  | Throw _ => (_ ← print "process generated exception"; mret (-1)) k w'
  | _ => (o, w')
  end.

(** ** ProcessPool *)

Record ProcessPool : Type := mkPool {
  process_seq_ : Z; process_ : gmap string ProcessHandle
}.

Definition ProcessPool_new : ProcessPool := {| process_seq_ := 0; process_ := ∅ |}.

Definition is_vail (current_thread_id : Z) : M bool :=
  r ← call sys_gettid; mret (current_thread_id =? r_ret r).

(** [sprintf(process_name, "process_poll_%d", process_seq_)] *)
Definition pool_name (seq : Z) : string := "process_poll_" +:+ pretty seq.

(** [unordered_map::insert] keeps an existing entry. *)
Definition insert_new (m : gmap string ProcessHandle) (key : string) (h : ProcessHandle)
    : gmap string ProcessHandle :=
  match m !! key with Some _ => m | None => <[key := h]> m end.

(** In the child, the [pthread_atfork] handler of [main] sets the thread-local
    first.  A [fork] that fails returns -1, which is not 0. *)
Definition new_process (current_thread_id : Z) (pool : ProcessPool) (fn : Billboard → M Z)
    : M (option ProcessHandle * ProcessPool) :=
  ok ← is_vail current_thread_id;
  if negb ok || (4 <=? process_seq_ pool) then mret (None, pool)
  else
    let process_name := pool_name (process_seq_ pool) in
    let handle := ProcessHandle_new process_name (Some (λ _ billboard, fn billboard)) in
    billboard ← Billboard_new current_thread_id;
    let handle := set_billboard handle billboard in
    child_id ← call sys_fork;
    if negb (r_ret child_id =? 0) then
      b ← lift (get_billboard handle);
      b ← Billboard_start current_thread_id b;
      let handle := set_billboard handle b in
      mret (Some handle,
            {| process_seq_ := process_seq_ pool;
               process_ := insert_new (process_ pool) process_name handle |})
    else
      tid ← call sys_gettid;
      b ← lift (get_billboard handle);
      b ← Billboard_start (r_ret tid) b;
      code ← invoke (set_billboard handle b);
      lift (Exit code).

(** [main]: one call per function. *)
Fixpoint new_processes (current_thread_id : Z) (pool : ProcessPool) (fns : list (Billboard → M Z))
    : M ProcessPool :=
  match fns with
  | [] => mret pool
  | fn :: fns =>
      '(_, pool) ← new_process current_thread_id pool fn;
      new_processes current_thread_id pool fns
  end.

(** ** Properties *)

Lemma name_loop_last chars acc :
  name_loop chars acc = match last chars with Some c => String c EmptyString | None => acc end.
Proof.
  revert acc. induction chars as [|c chars IH]; intros acc; [done|].
  cbn [name_loop]. rewrite IH, last_cons. by destruct (last chars).
Qed.

(** The user data is returned at the type it was stored with, and at no other; the rest of
    the handle is left alone. *)
Lemma user_data_roundtrip h t t' v :
  get_user_data (set_user_data h t v) t' = (if String.eqb t t' then Some v else None) ∧
  get_process_name (set_user_data h t v) = get_process_name h ∧
  get_billboard (set_user_data h t v) = get_billboard h.
Proof. done. Qed.

(** The handle keeps one character of the name it is given. *)
Lemma process_name_is_last_char n :
  n ≠ EmptyString → String.length (process_name_of n) = 1%nat.
Proof.
  intros Hn. unfold process_name_of. rewrite name_loop_last.
  destruct n as [|c n]; [done|].
  destruct (last (take MAX_PROCESS_NAME (String.list_ascii_of_string (String c n)))) eqn:E; [done|].
  by apply last_None in E.
Qed.

Lemma insert_new_dom m key h ks :
  dom m ⊆ ks → key ∈ ks → dom (insert_new m key h) ⊆ ks.
Proof. intros Hm Hk. unfold insert_new. destruct (m !! key); [done|]. rewrite dom_insert_L. set_solver. Qed.

Lemma new_process_pool tid pool fn k w h1 pool1 w1 :
  process_seq_ pool = 0 → dom (process_ pool) ⊆ {[pool_name 0]} →
  new_process tid pool fn k w = (Ok (h1, pool1), w1) →
  process_seq_ pool1 = 0 ∧ dom (process_ pool1) ⊆ {[pool_name 0]} ∧
  ((∀ h, r_ret (k h sys_gettid) ≠ tid) →
   pool1 = pool ∧ ∃ r, trace w1 = trace w ++ [(sys_gettid, r)]).
Proof.
  intros Hseq Hdom H. unfold new_process, is_vail in H.
  apply bind_inv in H as (ok & w2 & E & H). sys_inv E. apply mret_inv in E as [-> ->].
  destruct (tid =? r_ret v) eqn:Et; cbn [negb orb] in H.
  - rewrite Hseq in H. change (4 <=? 0) with false in H. cbv iota zeta in H.
    apply bind_inv in H as (b & w3 & _ & H). sys_inv H.
    destruct (negb (r_ret v0 =? 0)).
    + sys_inv H. apply bind_inv in H as (b' & w5 & _ & H).
      apply mret_inv in H as [Heq _]. injection Heq as _ ->. cbn [process_seq_ process_].
      split; [done|]. split; [apply insert_new_dom; [done|set_solver]|].
      intros Hne. zbool. subst v. by destruct (Hne (trace w)).
    + sys_inv H. sys_inv H. apply bind_inv in H as (b' & w5 & _ & H).
      apply bind_inv in H as (code & w6 & _ & H). discriminate H.
  - apply mret_inv in H as [Heq ->]. injection Heq as _ ->.
    split; [done|]. split; [done|]. intros _. split; [done|]. by exists v.
Qed.

(** Finding.  [new_process] compares [pthread_self()], an address, with
    [gettid()], a small number: while they differ it makes no billboard and no
    process, whatever is asked of it; and when they agree, the counter that
    bounds the pool is never incremented, so that every process is given the same
    key and the table holds at most one entry. *)
Theorem process_pool_keeps_one tid fns pool k w pool' w' :
  process_seq_ pool = 0 → dom (process_ pool) ⊆ {[pool_name 0]} →
  new_processes tid pool fns k w = (Ok pool', w') →
  process_seq_ pool' = 0 ∧ dom (process_ pool') ⊆ {[pool_name 0]} ∧
  ((∀ h, r_ret (k h sys_gettid) ≠ tid) →
   pool' = pool ∧ ∃ l, trace w' = trace w ++ l ∧ calls l = replicate (length fns) sys_gettid).
Proof.
  revert pool w. induction fns as [|fn fns IH]; intros pool w Hseq Hdom Hrun; cbn [new_processes] in Hrun.
  - apply mret_inv in Hrun as [-> ->]. split; [done|]. split; [done|].
    intros _. split; [done|]. exists []. by rewrite app_nil_r.
  - apply bind_inv in Hrun as ([h1 pool1] & w1 & E1 & Hrun).
    destruct (new_process_pool tid pool fn k w h1 pool1 w1 Hseq Hdom E1) as (Hs1 & Hd1 & Hn1).
    destruct (IH pool1 w1 Hs1 Hd1 Hrun) as (Hs2 & Hd2 & Hn2).
    split; [done|]. split; [done|]. intros Hne.
    destruct (Hn1 Hne) as (-> & r & T1). destruct (Hn2 Hne) as (-> & l & T2 & Hl).
    split; [done|]. exists ((sys_gettid, r) :: l). rewrite T2, T1, <- app_assoc.
    split; [done|]. unfold calls in *. by rewrite fmap_cons, Hl.
Qed.

(** A kernel where the thread has number 77, and [main]'s four functions. *)
Definition tid77 : kernel := λ _ c,
  match c with sys_gettid => ok_reply 77 | _ => ok_reply 0 end.
Definition four : list (Billboard → M Z) := replicate 4 (λ _, mret 0).
Definition after_four : world :=
  (new_processes 140735 ProcessPool_new four tid77 world0).2.

Lemma process_pool_keeps_one_witness :
  process_seq_ ProcessPool_new = 0 ∧ dom (process_ ProcessPool_new) ⊆ {[pool_name 0]} ∧
  ((∀ h, r_ret (tid77 h sys_gettid) ≠ 140735) →
   ProcessPool_new = ProcessPool_new ∧
   ∃ l, trace after_four = trace world0 ++ l ∧ calls l = replicate (length four) sys_gettid).
Proof.
  apply (process_pool_keeps_one 140735 four ProcessPool_new tid77 world0 ProcessPool_new after_four);
    [reflexivity|apply empty_subseteq|reflexivity].
Defined.
