(* ===== verification/Netlink.v ===== *)
(** * Netlink: [main.cpp]

    The program the repository is named after: it subscribes to link and address
    changes on a netlink socket and walks the messages of each datagram with
    [NLMSG_OK] and [NLMSG_NEXT].  The macros are written out as the kernel header
    defines them. *)

From S2P Require Import Prelude Endian Sys Sockops.
From coqutil Require Import Byte Word.LittleEndianList.

Definition NLMSG_ERROR : Z := 2.
Definition NLMSG_DONE : Z := 3.
Definition RTM_NEWLINK : Z := 16.
Definition RTM_DELLINK : Z := 17.
Definition RTM_NEWADDR : Z := 20.
Definition RTM_DELADDR : Z := 21.

(** [struct nlmsghdr]: 16 bytes, of which the length and the type are used. *)
Record nlmsghdr : Type := mkhdr { nlmsg_len : Z; nlmsg_type : Z }.
Definition sizeof_nlmsghdr : Z := 16.

(** The header at offset [off] of the buffer. *)
Definition header_at (buffer : list Byte.byte) (off : Z) : outcome nlmsghdr :=
  h ← load buffer off sizeof_nlmsghdr;
  Ok {| nlmsg_len := le_combine (take 4 h); nlmsg_type := le_combine (take 2 (drop 4 h)) |}.

(** [NLMSG_ALIGN(len)]: [unsigned] arithmetic. *)
Definition NLMSG_ALIGN (len : Z) : Z := Z.ldiff (u32 (len + 3)) 3.

(** [NLMSG_OK(nlh, len)]: the header is read only when 16 bytes are left. *)
Definition NLMSG_OK (buffer : list Byte.byte) (off len : Z) : outcome bool :=
  if sizeof_nlmsghdr <=? len then
    h ← header_at buffer off;
    Ok ((sizeof_nlmsghdr <=? nlmsg_len h) && (nlmsg_len h <=? len))
  else Ok false.

(** The [switch]: a [break] leaves the [switch], not the loop. *)
Definition report (ty : Z) : list string :=
  if (ty =? NLMSG_DONE) || (ty =? NLMSG_ERROR) then []
  else if (ty =? RTM_NEWLINK) || (ty =? RTM_DELLINK) then ["RTM_NEWLINK or RTM_DELLINK"%string]
  else if (ty =? RTM_NEWADDR) || (ty =? RTM_DELADDR) then ["RTM_NEWLINK or RTM_DELLINK"%string]
  else [].

(** The loop over the messages: what it prints. *)
Fixpoint walk (fuel : nat) (buffer : list Byte.byte) (off len : Z) : outcome (list string) :=
  match fuel with
  | O => NoFuel
  | S fuel =>
      ok ← NLMSG_OK buffer off len;
      if (ok : bool) then
        h ← header_at buffer off;
        let n := NLMSG_ALIGN (nlmsg_len h) in
        rest ← walk fuel buffer (off + n) (len - n);
        Ok (report (nlmsg_type h) ++ rest)
      else Ok []
  end.

Fixpoint print_lines (l : list string) : M unit :=
  match l with [] => mret tt | s :: l => _ ← print s; print_lines l end.

(** A turn of [main]'s loop: [select] with a second, [recv] into 1048 bytes whose
    earlier contents are [old]; returns the buffer. *)
Definition netlink_turn (sock : Z) (old : list Byte.byte) : M (list Byte.byte) :=
  _ ← FD_SET sock;
  ret ← call (sys_select (sock + 1) [sock] [] (Some 1));
  if r_ret ret <=? 0 then mret old
  else if bool_decide (sock ∈ r_ints ret) then
    read_size ← call (sys_recv sock 1048 0);
    let buffer := take 1048 (r_bytes read_size ++ drop (length (r_bytes read_size)) old) in
    if r_ret read_size <? 0 then _ ← print "fail to recv."; mret buffer
    else if r_ret read_size =? 0 then _ ← print "read 0 bytes"; mret buffer
    else
      lines ← lift (walk (S (Z.to_nat (r_ret read_size))) buffer 0 (r_ret read_size));
      _ ← print_lines lines;
      mret buffer
  else mret old.

Fixpoint netlink_loop (fuel : nat) (sock : Z) (buffer : list Byte.byte) : M unit :=
  match fuel with
  | O => lift NoFuel
  | S fuel => buffer ← netlink_turn sock buffer; netlink_loop fuel sock buffer
  end.

Definition AF_NETLINK : Z := 16.
Definition NETLINK_ROUTE : Z := 0.
Definition RTMGRP_LINK : Z := 1.
Definition RTMGRP_IPV4_IFADDR : Z := 16.

(** Neither the socket nor the result of [bind] is looked at. *)
Definition netlink_main (fuel : nat) : M unit :=
  netlink_socket ← call (sys_socket AF_NETLINK SOCK_DGRAM NETLINK_ROUTE);
  _ ← call (sys_bind_netlink (r_ret netlink_socket) (Z.lor RTMGRP_LINK RTMGRP_IPV4_IFADDR));
  netlink_loop fuel (r_ret netlink_socket) (replicate 1048 Byte.x00).

(** ** The walk stays inside the datagram *)

Lemma NLMSG_ALIGN_bounds n : 0 ≤ n < 2 ^ 31 → n ≤ NLMSG_ALIGN n < n + 4.
Proof.
  intros Hn. unfold NLMSG_ALIGN, u32. rewrite Z.mod_small by lia.
  change 3 with (Z.ones 2) at 2 4. rewrite Z.ldiff_ones_r by lia.
  rewrite Z.shiftl_mul_pow2, Z.shiftr_div_pow2 by lia. change (2 ^ 2) with 4.
  pose proof (Z.div_mod (n + 3) 4 ltac:(lia)). pose proof (Z.mod_pos_bound (n + 3) 4 ltac:(lia)). lia.
Qed.

Lemma header_at_Ok buffer off :
  0 ≤ off → off + 16 ≤ lenZ buffer →
  ∃ h, header_at buffer off = Ok h ∧ 0 ≤ nlmsg_len h.
Proof.
  intros Ho Hl. unfold header_at, sizeof_nlmsghdr. rewrite load_Ok by lia. cbn [mbind outcome_bind].
  eexists. split; [done|]. cbn [nlmsg_len]. apply le_combine_bound.
Qed.

(** Whatever bytes a datagram of [len] bytes holds, the walk reads no header
    outside it and ends after at most one turn per byte. *)
Lemma walk_stays_inside buffer off len fuel :
  0 ≤ off → off + len ≤ lenZ buffer → lenZ buffer < 2 ^ 31 → len < Z.of_nat fuel →
  (0 < fuel)%nat → ∃ lines, walk fuel buffer off len = Ok lines.
Proof.
  revert off len. induction fuel as [|fuel IH]; intros off len Ho Hl Hmax Hf Hpos; [lia|].
  cbn [walk]. unfold NLMSG_OK, sizeof_nlmsghdr.
  destruct (16 <=? len) eqn:E; zbool; [|by eexists].
  destruct (header_at_Ok buffer off) as (h & Hh & Hlen); [lia|lia|].
  rewrite Hh. cbn [mbind outcome_bind].
  destruct ((16 <=? nlmsg_len h) && (nlmsg_len h <=? len)) eqn:Eb; [|by eexists].
  apply andb_prop in Eb as [E1 E2]. zbool.
  pose proof (NLMSG_ALIGN_bounds (nlmsg_len h) ltac:(lia)) as Ha. cbv zeta.
  destruct (IH (off + NLMSG_ALIGN (nlmsg_len h)) (len - NLMSG_ALIGN (nlmsg_len h)))
    as (rest & ->); try lia. by eexists.
Qed.

(** [recv] copies no more than it was asked for, and returns how many bytes it
    copied, or nothing positive. *)
Definition recv_contract (k : kernel) : Prop :=
  ∀ h fd n flags, let r := k h (sys_recv fd n flags) in
    lenZ (r_bytes r) ≤ Z.max 0 n ∧ (r_ret r ≤ 0 ∨ r_ret r = lenZ (r_bytes r)).

(** How often a history waits for the socket. *)
Definition is_select (e : event) : bool := match e.1 with sys_select _ _ _ _ => true | _ => false end.
Definition selects (h : list event) : nat := length (filter (λ e, is_select e = true) h).

Lemma selects_app h l : selects (h ++ l) = (selects h + selects l)%nat.
Proof. unfold selects. by rewrite filter_app, length_app. Qed.

Lemma selects_other h e : is_select e = false → selects (h ++ [e]) = selects h.
Proof. intros He. rewrite selects_app. unfold selects at 2. rewrite filter_cons_False by congruence. cbn. lia. Qed.
Lemma selects_select h e : is_select e = true → selects (h ++ [e]) = S (selects h).
Proof. intros He. rewrite selects_app. unfold selects at 2. rewrite filter_cons_True by done. cbn. lia. Qed.

Lemma print_lines_returns l k w :
  ∃ w', print_lines l k w = (Ok tt, w') ∧ selects (trace w') = selects (trace w).
Proof.
  revert w. induction l as [|s l IH]; intros w; [by eexists|].
  cbn [print_lines]. rewrite run_print_bind.
  match goal with |- context [print_lines l k ?w1] => destruct (IH w1) as (w' & -> & Hs) end.
  exists w'. split; [done|]. rewrite Hs. by apply selects_other.
Qed.

Lemma lenZ_received (bs old : list Byte.byte) :
  lenZ old = 1048 → lenZ (take 1048 (bs ++ drop (length bs) old)) = 1048.
Proof. unfold lenZ. rewrite length_take, length_app, length_drop. lia. Qed.

(** A turn comes to its end, whatever is in the datagram. *)
Lemma netlink_turn_returns k sock old w :
  recv_contract k → 0 ≤ sock < FD_SETSIZE → lenZ old = 1048 →
  ∃ buffer w', netlink_turn sock old k w = (Ok buffer, w') ∧ lenZ buffer = 1048 ∧
    selects (trace w') = S (selects (trace w)).
Proof.
  intros Hk Hs Hold. unfold netlink_turn, FD_SET.
  rewrite (proj2 (Z.leb_le 0 sock)), (proj2 (Z.ltb_lt sock FD_SETSIZE)) by lia. cbn [andb].
  rewrite (run_bind_Ok _ _ _ _ _ _ eq_refl), run_call_bind.
  destruct (r_ret _ <=? 0); [eexists _, _; split; [done|]; split; [done|]; by apply selects_select|].
  destruct (bool_decide _); [|eexists _, _; split; [done|]; split; [done|]; by apply selects_select].
  rewrite run_call_bind. match goal with |- context [k ?h ?c] => set (r := k h c) in * end.
  assert (Hr : lenZ (r_bytes r) ≤ 1048 ∧ (r_ret r ≤ 0 ∨ r_ret r = lenZ (r_bytes r)))
    by (apply (Hk _ sock 1048 0)).
  pose proof (lenZ_received (r_bytes r) old Hold) as HL. cbv zeta.
  set (buffer := take 1048 _) in *.
  destruct (r_ret r <? 0) eqn:E; [rewrite run_print_bind; eexists _, _; split; [done|]; split; [done|]; cbn [trace];
    by do 2 rewrite selects_other by done; apply selects_select|].
  destruct (r_ret r =? 0) eqn:E0; [rewrite run_print_bind; eexists _, _; split; [done|]; split; [done|]; cbn [trace];
    by do 2 rewrite selects_other by done; apply selects_select|]. zbool.
  destruct (walk_stays_inside buffer 0 (r_ret r) (S (Z.to_nat (r_ret r)))) as [lines ->];
    [lia..|]. rewrite run_lift_bind.
  match goal with |- context [(_ ≫= _) k ?w1] => destruct (print_lines_returns lines k w1) as (w' & Hp & Hsel) end.
  rewrite (run_bind_Ok _ _ _ _ _ _ Hp). eexists _, _. split; [done|]. split; [done|].
  rewrite Hsel. cbn [trace]. rewrite selects_other by done. by apply selects_select.
Qed.

Lemma netlink_loop_runs k sock fuel buffer w :
  recv_contract k → 0 ≤ sock < FD_SETSIZE → lenZ buffer = 1048 →
  ∃ w', netlink_loop fuel sock buffer k w = (NoFuel, w') ∧
    selects (trace w') = (selects (trace w) + fuel)%nat.
Proof.
  intros Hk Hs. revert buffer w. induction fuel as [|fuel IH]; intros b w Hb.
  - eexists. split; [done|]. lia.
  - cbn [netlink_loop]. destruct (netlink_turn_returns k sock b w Hk Hs Hb) as (b' & w1 & Ht & Hb' & H1).
    rewrite (run_bind_Ok _ _ _ _ _ _ Ht). destruct (IH b' w1 Hb') as (w' & -> & H').
    exists w'. split; [done|]. lia.
Qed.

(** C34: The listener.  On every kernel whose [recv] keeps its contract, whatever bytes the
    datagrams hold: when the socket is a descriptor that fits an [fd_set], [main] makes as
    many turns as it is given, each with one [select], and is then still running: every
    walk over a datagram ends, and none reads outside the buffer.  When [socket] fails, or
    its descriptor is 1024 or more, the first turn is undefined: the result of [socket] is
    not tested. *)
Theorem netlink_main_safe fuel k w :
  recv_contract k →
  let sock := r_ret (k (trace w) (sys_socket AF_NETLINK SOCK_DGRAM NETLINK_ROUTE)) in
  let '(o, w') := netlink_main (S fuel) k w in
  if (0 <=? sock) && (sock <? FD_SETSIZE)
  then o = NoFuel ∧ selects (trace w') = (selects (trace w) + S fuel)%nat
  else o = Undef OutOfBounds ∧ selects (trace w') = selects (trace w).
Proof.
  intros Hk sock. unfold netlink_main. rewrite run_call_bind, run_call_bind. fold sock.
  match goal with |- context [netlink_loop _ _ _ _ ?w] => set (w1 := w) end.
  assert (selects (trace w1) = selects (trace w)) as E1 by (subst w1; cbn [trace]; by rewrite !selects_other).
  destruct ((0 <=? sock) && (sock <? FD_SETSIZE)) eqn:Es.
  - apply andb_prop in Es as [E2 E3]. zbool.
    destruct (netlink_loop_runs k sock (S fuel) (replicate 1048 Byte.x00) w1 Hk) as (w' & -> & H'); [lia|done|].
    rewrite H', E1. done.
  - cbn [netlink_loop]. unfold netlink_turn, FD_SET. by rewrite Es.
Qed.

(** A kernel that always has a datagram of twenty 0xff bytes. *)
Definition noisy : kernel := λ _ c,
  match c with
  | sys_socket _ _ _ => ok_reply 3
  | sys_select _ l _ _ => ints_reply 1 l
  | sys_recv _ n _ => data_reply (take (Z.to_nat n) (replicate 20 Byte.xff))
  | _ => ok_reply 0
  end.

Lemma netlink_main_safe_witness :
  let '(o, w') := netlink_main 5 noisy world0 in o = NoFuel ∧ selects (trace w') = 5%nat.
Proof.
  apply (netlink_main_safe 4 noisy world0).
  intros h fd n flags. cbn [noisy data_reply r_ret r_bytes]. split; [|by right].
  unfold lenZ. rewrite length_take. lia.
Defined.

(** ** Well-formed datagrams *)

(** A message: its type and payload. *)
Record message : Type := mkmsg { m_type : Z; m_payload : list Byte.byte }.

Definition message_len (m : message) : Z := 16 + lenZ (m_payload m).

(** Header (the flags, sequence number and port are zero), payload, padding. *)
Definition encode1 (m : message) : list Byte.byte :=
  le_split 4 (message_len m) ++ le_split 2 (m_type m) ++ replicate 10 Byte.x00 ++ m_payload m ++
  replicate (Z.to_nat (NLMSG_ALIGN (message_len m) - message_len m)) Byte.x00.
Definition encode (ms : list message) : list Byte.byte := ms ≫= encode1.

Definition message_ok (m : message) : Prop :=
  0 ≤ m_type m < 2 ^ 16 ∧ message_len m < 2 ^ 31.

Lemma lenZ_encode1 m : message_ok m → lenZ (encode1 m) = NLMSG_ALIGN (message_len m).
Proof.
  intros [_ Hl]. pose proof (lenZ_nonneg (m_payload m)).
  pose proof (NLMSG_ALIGN_bounds (message_len m) ltac:(unfold message_len in *; lia)).
  unfold encode1, message_len, lenZ in *.
  rewrite !length_app, !length_le_split, !length_replicate. lia.
Qed.

Lemma header_encode1 pre m post :
  message_ok m →
  header_at (pre ++ encode1 m ++ post) (lenZ pre) =
    Ok {| nlmsg_len := message_len m; nlmsg_type := m_type m |}.
Proof.
  intros Hm. pose proof (lenZ_encode1 m Hm) as HL. destruct Hm as [Ht Hl].
  pose proof (lenZ_nonneg (m_payload m)) as Hp. pose proof (lenZ_nonneg post).
  pose proof (NLMSG_ALIGN_bounds (message_len m) ltac:(unfold message_len in *; lia)).
  unfold header_at, sizeof_nlmsghdr. unfold message_len in *.
  rewrite load_Ok by (rewrite ?lenZ_app; unfold lenZ in *; lia).
  cbn [mbind outcome_bind].
  assert (Hs : slice (pre ++ encode1 m ++ post) (lenZ pre) 16 =
               le_split 4 (16 + lenZ (m_payload m)) ++ le_split 2 (m_type m) ++ replicate 10 Byte.x00).
  { unfold slice, lenZ at 1. rewrite Nat2Z.id, drop_app_length. unfold encode1, message_len.
    rewrite <- !app_assoc. rewrite !app_assoc. rewrite <- (app_assoc _ (le_split 2 _)).
    rewrite <- !(app_assoc (_ ++ _ ++ replicate 10 _)).
    apply take_app_length'. rewrite !length_app, !length_le_split, length_replicate. done. }
  rewrite Hs, (take_app_length' (le_split 4 _)), (drop_app_length' (le_split 4 _)),
    (take_app_length' (le_split 2 _)) by (by rewrite length_le_split).
  rewrite !le_combine_split_small by (unfold lenZ in *; lia). done.
Qed.

(** C33: Well-formed datagrams.  On the encoding of any list of messages the walk
    prints exactly the reports of their types, in order: alignment padding is
    skipped and no message is missed or seen twice. *)
Theorem walk_encode ms :
  Forall message_ok ms →
  walk (S (length (encode ms))) (encode ms) 0 (lenZ (encode ms)) =
    Ok (ms ≫= λ m, report (m_type m)).
Proof.
  intros Hms.
  assert (G : ∀ pre fuel, (length (encode ms) < fuel)%nat →
    walk fuel (pre ++ encode ms) (lenZ pre) (lenZ (encode ms)) = Ok (ms ≫= λ m, report (m_type m)));
    [|apply (G [] (S (length (encode ms)))); lia].
  induction Hms as [|m ms Hm Hms IH]; intros pre fuel Hf.
  - destruct fuel; [cbn in Hf; lia|reflexivity].
  - destruct fuel as [|fuel]; [lia|]. cbn [walk]. unfold NLMSG_OK, sizeof_nlmsghdr.
    change (encode (m :: ms)) with (encode1 m ++ encode ms) in *.
    pose proof (header_encode1 pre m (encode ms) Hm) as Hh.
    pose proof (lenZ_encode1 m Hm) as HL. rewrite length_app in Hf.
    pose proof (lenZ_nonneg (encode ms)). pose proof (lenZ_nonneg (m_payload m)).
    pose proof (NLMSG_ALIGN_bounds (message_len m) ltac:(destruct Hm; unfold message_len in *; lia)).
    assert (16 ≤ message_len m) by (unfold message_len; lia).
    rewrite lenZ_app, (proj2 (Z.leb_le 16 (_ + _))) by lia.
    rewrite Hh. cbn [mbind outcome_bind nlmsg_len nlmsg_type].
    rewrite (proj2 (Z.leb_le 16 (message_len m))), (proj2 (Z.leb_le (message_len m) (_ + _))) by lia.
    cbn [andb]. cbv zeta. rewrite <- HL, app_assoc.
    replace (lenZ pre + lenZ (encode1 m)) with (lenZ (pre ++ encode1 m)) by (by rewrite lenZ_app).
    replace (lenZ (encode1 m) + lenZ (encode ms) - lenZ (encode1 m)) with (lenZ (encode ms)) by lia.
    rewrite IH; [done|]. unfold lenZ in *. lia.
Qed.

Definition sample_messages : list message :=
  [mkmsg RTM_NEWLINK [Byte.x01; Byte.x02; Byte.x03]; mkmsg RTM_DELADDR []; mkmsg NLMSG_DONE []].

Lemma walk_encode_witness :
  walk (S (length (encode sample_messages))) (encode sample_messages) 0
       (lenZ (encode sample_messages)) =
    Ok (sample_messages ≫= λ m, report (m_type m)).
Proof. apply (walk_encode sample_messages). repeat constructor; cbv; discriminate. Defined.
