(* ===== verification/FdPass.v ===== *)
(** * FdPass: [set/unixsocket/main.cpp]

    Two processes joined by a socket pair: one accepts connections and passes
    their descriptors in ancillary data ([SCM_RIGHTS]), the other receives them
    and answers each connection with a fixed page.  The control buffer is modelled
    byte by byte, with the macros of [<sys/socket.h>] written out. *)

From S2P Require Import Prelude Endian Buffer Sys.
From coqutil Require Import Byte Word.LittleEndianList.

Definition SCM_RIGHTS : Z := 1.
Definition sizeof_cmsghdr : Z := 16.
Definition CMSG_ALIGN (n : Z) : Z := (n + 7) / 8 * 8.
Definition CMSG_SPACE (n : Z) : Z := CMSG_ALIGN n + CMSG_ALIGN sizeof_cmsghdr.
Definition CMSG_LEN (n : Z) : Z := CMSG_ALIGN sizeof_cmsghdr + n.

(** The offset of the first header in the control buffer; null when the buffer is
    too short for one. *)
Definition CMSG_FIRSTHDR (msg_controllen : Z) : option Z :=
  if sizeof_cmsghdr <=? msg_controllen then Some 0 else None.
Definition CMSG_DATA (p_cmsg : Z) : Z := p_cmsg + sizeof_cmsghdr.

(** The kernel reads the header and the [cmsg_len] bytes it announces. *)
Definition sys_sendmsg (sock_fd : Z) (iov control : list Byte.byte) : syscall :=
  sys_misc "sendmsg" [sock_fd] (iov ++ control).
(** The reply carries the control bytes; [msg_controllen] is its first integer. *)
Definition sys_recvmsg (sock_fd : Z) : syscall := sys_misc "recvmsg" [sock_fd] [].

Definition deref_hdr (p : option Z) : outcome Z :=
  match p with Some o => Ok o | None => Undef NullPointer end.

Definition init_cells (bs : list Byte.byte) : list cell := Some <$> bs.

Definition send_fd (sock_fd send_fd : Z) : M unit :=
  let cmsgbuf := replicate (Z.to_nat (CMSG_SPACE 4)) None in
  control ← lift (
    p_cmsg ← deref_hdr (CMSG_FIRSTHDR (lenZ cmsgbuf));
    b ← store cmsgbuf (p_cmsg + 8) (init_cells (le_split 4 SOL_SOCKET));
    b ← store b (p_cmsg + 12) (init_cells (le_split 4 SCM_RIGHTS));
    b ← store b p_cmsg (init_cells (le_split 8 (CMSG_LEN 4)));
    b ← store b (CMSG_DATA p_cmsg) (init_cells (le_split 4 send_fd));
    c ← load b p_cmsg (CMSG_LEN 4);
    defined c);
  ret ← call (sys_sendmsg sock_fd [Byte.x00] control);
  if negb (r_ret ret =? 1) then lift (Exit 0) else mret tt.

Definition recv_fd (sock_fd : Z) : M Z :=
  let cmsgbuf := replicate (Z.to_nat (CMSG_SPACE 4)) None in
  b ← lift (
    p ← deref_hdr (CMSG_FIRSTHDR (lenZ cmsgbuf));
    store cmsgbuf (CMSG_DATA p) (init_cells (le_split 4 (-1))));
  ret ← call (sys_recvmsg sock_fd);
  if negb (r_ret ret =? 1) then lift (Exit 0) else
  let b := take (length b) (init_cells (r_bytes ret) ++ drop (length (r_bytes ret)) b) in
  match CMSG_FIRSTHDR (r_int ret 0) with
  | None => lift (Exit 0)
  | Some p_cmsg =>
      d ← lift (c ← load b (CMSG_DATA p_cmsg) 4; defined c);
      let recv_fd := i32 (le_combine d) in
      if recv_fd =? -1 then lift (Exit 0) else mret recv_fd
  end.

(** ** The process that accepts *)

(** [pollfds[0]], [pollfds[1]] and [async_fd]. *)
Record acceptor : Type := mkacceptor { listening : pollfd; channel : pollfd; async_fd : Z }.

Definition set_events (p : pollfd) (e : Z) : pollfd := mkpollfd (fd p) e (revents p).
Definition set_reported (p : pollfd) (r : Z) : pollfd := mkpollfd (fd p) (events p) r.
Definition reports (mask : Z) (p : pollfd) : bool := negb (Z.land (revents p) mask =? 0).

Definition on_listening (s : acceptor) : M acceptor :=
  if reports POLLIN (listening s) then
    r ← call (sys_accept (fd (listening s)));
    _ ← (if r_ret r <? 0 then print "main process accept" else mret tt);
    mret (mkacceptor (listening s) (set_events (channel s) (Z.lor POLLOUT POLLIN)) (r_ret r))
  else mret s.

Definition on_channel (sock : Z) (s : acceptor) : M acceptor :=
  if reports POLLOUT (channel s) then
    if negb (async_fd s =? -1) then
      _ ← send_fd sock (async_fd s);
      mret (mkacceptor (listening s) (set_events (channel s) POLLIN) (-1))
    else mret (mkacceptor (listening s) (channel s) (-1))
  else mret s.

Definition parent_turn (sock : Z) (s : acceptor) : M acceptor :=
  r ← call (sys_poll [listening s; channel s] (-1));
  if r_ret r <? 0 then _ ← print "main process error"; mret s
  else
    s ← on_listening (mkacceptor (set_reported (listening s) (r_int r 0))
                                 (set_reported (channel s) (r_int r 1)) (async_fd s));
    on_channel sock s.

Fixpoint parent_loop (fuel : nat) (sock : Z) (s : acceptor) : M Z :=
  match fuel with
  | O => lift NoFuel
  | S fuel => s ← parent_turn sock s; parent_loop fuel sock s
  end.

Definition parent_process (fuel : nat) (sock : Z) : M Z :=
  sock_fd ← call (sys_socket AF_INET SOCK_STREAM 0);
  _ ← (if r_ret sock_fd <? 0 then print "main process socket" else mret tt);
  e ← call (sys_bind (r_ret sock_fd) (mkaddr AF_INET (host2network uint16_t 9901) 0));
  _ ← (if r_ret e <? 0 then print "main process bind" else mret tt);
  _ ← call (sys_listen (r_ret sock_fd) 30);
  parent_loop fuel sock
    (mkacceptor (mkpollfd (r_ret sock_fd) POLLIN 0) (mkpollfd sock POLLIN 0) (-1)).

(** ** The process that answers *)

(** [response], with its terminating zero. *)
Definition http_head : list Byte.byte := text "HTTP/1.1	200	OK
Content-Type: text/html;charset=utf-8
Content-length: 77

".
Definition http_body : list Byte.byte := text "<html>
  <head>
  </head>
  <body>
    <h1>网页文字</h1>
  </body>
</html>".
Definition http_response : list Byte.byte := http_head ++ http_body ++ [Byte.x00].

(** [close], and [fd = -1; revents = 0]. *)
Definition drop_conn (p : pollfd) : M (pollfd * bool) :=
  _ ← call (sys_close (fd p)); mret (mkpollfd (-1) (events p) 0, false).

(** The [POLLOUT] part of the body, and the count-down after it. *)
Definition conn_out (p : pollfd) : M (pollfd * bool) :=
  if reports POLLOUT p then
    _ ← print "subprocess out";
    _ ← call (sys_write (fd p) http_response);
    _ ← call (sys_close (fd p));
    mret (mkpollfd (-1) (events p) (revents p), true)
  else mret (p, true).

(** A connection with an event; the flag tells whether [answer_num] is counted
    down ([continue] skips it). *)
Definition child_conn (p : pollfd) : M (pollfd * bool) :=
  if reports POLLIN p then
    r ← call (sys_read (fd p) 2048);
    let buf := copied_in (replicate 2048 Byte.x00) r in
    e ← get_errno;
    if (r_ret r <? 0) && negb (e =? EINTR) then
      _ ← print "subprocess read error"; drop_conn p
    else if r_ret r =? 0 then drop_conn p
    else
      _ ← lift (c_string buf);
      _ ← print "new message";
      conn_out (set_events p POLLOUT)
  else conn_out p.

Definition child_ready (p : pollfd) : bool :=
  negb (fd p =? -1) && reports (Z.lor POLLIN POLLOUT) p.

(** The loop over the connections. *)
Fixpoint child_conns (answer_num : Z) (l : list pollfd) : M (list pollfd) :=
  match l with
  | [] => mret []
  | p :: l =>
      if answer_num =? 0 then mret (p :: l)
      else if child_ready p then
        '(p, counted) ← child_conn p;
        l ← child_conns (if (counted : bool) then answer_num - 1 else answer_num) l;
        mret (p :: l)
      else l ← child_conns answer_num l; mret (p :: l)
  end.

(** What a successful [poll] wrote; a failed one leaves the array alone. *)
Fixpoint poll_reported (l : list pollfd) (rs : list Z) : list pollfd :=
  match l with
  | [] => []
  | p :: l => set_reported p (default 0 (head rs)) :: poll_reported l (tail rs)
  end.

(** A turn: [ch] is the channel's entry, [l] the connections. *)
Definition child_turn (ch : pollfd) (l : list pollfd) : M (pollfd * list pollfd) :=
  r ← call (sys_poll (ch :: l) (-1));
  _ ← (if r_ret r <? 0 then print "child process poll" else mret tt);
  let ps := if r_ret r <? 0 then ch :: l else poll_reported (ch :: l) (r_ints r) in
  match ps with
  | [] => undef OutOfBounds
  | ch :: l =>
      if reports POLLIN ch then
        connecttion_fd ← recv_fd (fd ch);
        _ ← print "subprocess new connect";
        l ← child_conns (r_ret r - 1) (l ++ [mkpollfd connecttion_fd POLLIN 0]);
        mret (ch, l)
      else l ← child_conns (r_ret r) l; mret (ch, l)
  end.

Fixpoint child_loop (fuel : nat) (ch : pollfd) (l : list pollfd) : M Z :=
  match fuel with
  | O => lift NoFuel
  | S fuel => '(ch, l) ← child_turn ch l; child_loop fuel ch l
  end.

Definition child_process (fuel : nat) (sock : Z) : M Z :=
  child_loop fuel (mkpollfd sock POLLIN 0) [].

(** [main]: the forked process accepts, the other one answers. *)
Definition fdpass_main (fuel : nat) : M unit :=
  r ← call sys_socketpair;
  child_pid ← call sys_fork;
  if r_ret child_pid =? 0 then
    _ ← call (sys_close (r_int r 1));
    code ← parent_process fuel (r_int r 0); lift (Exit code)
  else
    _ ← call (sys_close (r_int r 0));
    code ← child_process fuel (r_int r 1); lift (Exit code).

(** ** The descriptor in transit *)

(** The control message that carries [fd]. *)
Definition rights_message (fd : Z) : list Byte.byte :=
  le_split 8 20 ++ le_split 4 SOL_SOCKET ++ le_split 4 SCM_RIGHTS ++ le_split 4 fd.

Lemma rights_length fd : length (rights_message fd) = 20%nat.
Proof. unfold rights_message. by rewrite !length_app, !length_le_split. Qed.

Lemma i32_of_fd fd : 0 ≤ fd < 2 ^ 31 → i32 (le_combine (le_split 4 fd)) = fd.
Proof.
  intros H. rewrite le_combine_split_small by lia. unfold i32, signed. cbv zeta.
  rewrite Z.mod_small by lia. change (2 ^ (32 - 1)) with (2 ^ 31).
  by rewrite (proj2 (Z.ltb_lt fd (2 ^ 31))) by lia.
Qed.

Lemma send_fd_run sock fd k w :
  send_fd sock fd k w =
    let c := sys_sendmsg sock [Byte.x00] (rights_message fd) in
    let r := k (trace w) c in
    ((if negb (r_ret r =? 1) then Exit 0 else Ok tt), advance w c r).
Proof.
  unfold send_fd. cbv zeta.
  match goal with |- (lift ?o ≫= _) k w = _ => assert (o = Ok (rights_message fd)) as -> end.
  { unfold rights_message. cbn -[Z.land Z.shiftr byte.of_Z]. reflexivity. }
  rewrite run_lift_bind, run_call_bind. by destruct (r_ret _ =? 1).
Qed.

(** The reply to a [recvmsg] that delivers [fd]. *)
Definition delivers (r : reply) (fd : Z) : Prop :=
  r_ret r = 1 ∧ r_bytes r = rights_message fd ∧ sizeof_cmsghdr ≤ r_int r 0.

(** The twenty bytes of a control message over a buffer whose last four hold
    nothing. *)
Lemma rights_data fd tl :
  (c ← load (init_cells (rights_message fd) ++ tl) 16 4; defined c) = Ok (le_split 4 fd).
Proof.
  rewrite load_Ok by (unfold lenZ, init_cells; rewrite ?length_app, ?length_fmap, ?rights_length; lia).
  reflexivity.
Qed.

Lemma recv_fd_run sock fd k w :
  let r := k (trace w) (sys_recvmsg sock) in
  delivers r fd → 0 ≤ fd < 2 ^ 31 →
  recv_fd sock k w = (Ok fd, advance w (sys_recvmsg sock) r).
Proof.
  intros r (Hret & Hb & Hc) Hfd. unfold recv_fd. cbv zeta.
  match goal with |- (lift ?o ≫= _) k w = _ =>
    assert (∃ b, o = Ok b ∧ length b = 24%nat) as (b & -> & Hlen) by (by eexists) end.
  rewrite run_lift_bind, run_call_bind. fold r. rewrite Hret, Hb. change (negb (1 =? 1)) with false.
  unfold CMSG_FIRSTHDR. rewrite (proj2 (Z.leb_le _ _) Hc). cbv beta iota.
  rewrite take_ge
    by (unfold init_cells; rewrite length_app, length_fmap, length_drop, rights_length; lia).
  change (CMSG_DATA 0) with 16. rewrite rights_data, run_lift_bind. cbv zeta.
  rewrite i32_of_fd by done. by rewrite (proj2 (Z.eqb_neq fd (-1))) by lia.
Qed.

(** C12: Descriptor passing.  [send_fd] writes one byte and the control message of its
    descriptor in a single call, and ends the process unless that byte was taken;
    [recv_fd], when the kernel delivers such a message for a descriptor, returns
    that descriptor. *)
Theorem fd_passing_roundtrip sock fd k w sock' fd' k' w' :
  0 ≤ fd' < 2 ^ 31 → delivers (k' (trace w') (sys_recvmsg sock')) fd' →
  (send_fd sock fd k w).2 =
    advance w (sys_sendmsg sock [Byte.x00] (rights_message fd))
            (k (trace w) (sys_sendmsg sock [Byte.x00] (rights_message fd))) ∧
  ((send_fd sock fd k w).1 = Ok tt ↔
     r_ret (k (trace w) (sys_sendmsg sock [Byte.x00] (rights_message fd))) = 1) ∧
  (recv_fd sock' k' w').1 = Ok fd'.
Proof.
  intros Hfd Hd. rewrite send_fd_run. cbv zeta. cbn [fst snd]. split; [done|]. split.
  - destruct (r_ret _ =? 1) eqn:E; zbool; cbn [negb]; [by rewrite E|by split].
  - by rewrite (recv_fd_run sock' fd').
Qed.

(** A kernel that takes every message, and delivers descriptor 9. *)
Definition courier : kernel := λ _ c,
  match c with
  | sys_misc "recvmsg" _ _ => mkreply 1 None (rights_message 9) [24]
  | _ => ok_reply 1
  end.

Lemma fd_passing_roundtrip_witness : (recv_fd 4 courier world0).1 = Ok 9.
Proof. apply (fd_passing_roundtrip 3 7 courier world0 4 9 courier world0); done. Defined.

(** ** No connection is left out *)
















(** The page announces 77 bytes of contents; it has 78, and the zero that ends the
    literal is sent as well. *)
Lemma http_lengths : lenZ http_body = 78 ∧ lenZ http_response = lenZ http_head + 79.
Proof. by vm_compute. Qed.

(** ** What the accepting process passes on *)

(** The first [n] turns of the loop. *)
Fixpoint parent_turns (n : nat) (sock : Z) (s : acceptor) : M acceptor :=
  match n with O => mret s | S n => s ← parent_turn sock s; parent_turns n sock s end.

Definition accepted_of (e : event) : option Z :=
  match e with (sys_accept _, r) => if r_ret r =? -1 then None else Some (r_ret r) | _ => None end.
(** The descriptor in the control message behind the one byte of data. *)
Definition sent_of (e : event) : option Z :=
  match e with
  | (sys_misc "sendmsg" _ data, _) => Some (i32 (le_combine (drop 17 data)))
  | _ => None
  end.
Definition closes (e : event) : Prop := match e.1 with sys_close _ => True | _ => False end.

Definition pending (s : acceptor) : list Z := if async_fd s =? -1 then [] else [async_fd s].

(** [accept] returns a descriptor or -1. *)
Definition accept_contract (k : kernel) : Prop :=
  ∀ h fd, -1 ≤ r_ret (k h (sys_accept fd)) < 2 ^ 31.

(** [l] are calls of the accepting process that lead from [pending] list [p] to
    [p']: what is sent and what is pending afterwards was pending or accepted, in
    that order, and nothing is closed. *)
Definition forwards (p : list Z) (l : list event) (p' : list Z) : Prop :=
  omap sent_of l ++ p' `sublist_of` p ++ omap accepted_of l ∧ Forall (λ e, ¬ closes e) l.

Ltac each_event := rewrite ?Forall_cons, ?Forall_nil; split_and!; solve [done|by intros []].

Lemma forwards_refl p : forwards p [] p.
Proof. split; [|constructor]. cbn. by rewrite app_nil_r. Qed.

Lemma forwards_trans p1 l1 p2 l2 p3 :
  forwards p1 l1 p2 → forwards p2 l2 p3 → forwards p1 (l1 ++ l2) p3.
Proof.
  intros [S1 C1] [S2 C2]. split; [|by apply Forall_app].
  rewrite !omap_app, <- app_assoc. etrans; [by apply sublist_app|].
  rewrite app_assoc. rewrite app_assoc. by apply sublist_app.
Qed.

(** Calls that neither accept, send nor close. *)
Lemma forwards_other p l :
  Forall (λ e, accepted_of e = None ∧ sent_of e = None ∧ ¬ closes e) l → forwards p l p.
Proof.
  intros H. split; [|eapply Forall_impl; [exact H|]; by intros ? (_ & _ & ?)].
  assert (omap sent_of l = [] ∧ omap accepted_of l = []) as [-> ->].
  { induction H as [|e l (Ha & Hs & _) _ [IH1 IH2]]; [done|]. cbn. by rewrite Ha, Hs, IH1, IH2. }
  by rewrite app_nil_r.
Qed.

Lemma on_listening_forwards k s w :
  ∃ s' l w', on_listening s k w = (Ok s', w') ∧ trace w' = trace w ++ l ∧
             forwards (pending s) l (pending s') ∧
             (accept_contract k → -1 ≤ async_fd s < 2 ^ 31 → -1 ≤ async_fd s' < 2 ^ 31).
Proof.
  unfold on_listening. destruct (reports POLLIN (listening s)).
  2:{ exists s, [], w. rewrite app_nil_r. split_and!; [done|done|apply forwards_refl|done]. }
  rewrite run_call_bind. set (r := k (trace w) _).
  assert (HP : forwards (pending s) [(sys_accept (fd (listening s)), r)]
                 (if r_ret r =? -1 then [] else [r_ret r])).
  { split; [|each_event]. cbn. destruct (r_ret r =? -1); cbn;
      [apply sublist_nil_l|by apply sublist_inserts_l]. }
  destruct (r_ret r <? 0).
  - rewrite run_print_bind. eexists _, _, _. split; [reflexivity|]. cbn [trace].
    rewrite <- app_assoc. split; [reflexivity|]. split; [|intros Hk _; apply Hk].
    eapply forwards_trans; [exact HP|]. apply forwards_other. each_event.
  - eexists _, _, _. split; [reflexivity|]. split; [reflexivity|].
    split; [exact HP|intros Hk _; apply Hk].
Qed.

Lemma drop_sendmsg fd : 0 ≤ fd < 2 ^ 31 → i32 (le_combine (drop 17 (Byte.x00 :: rights_message fd))) = fd.
Proof. intros H. rewrite <- (i32_of_fd fd H) at 2. done. Qed.

Lemma on_channel_forwards k sock s w s' w' :
  -1 ≤ async_fd s < 2 ^ 31 → on_channel sock s k w = (Ok s', w') →
  ∃ l, trace w' = trace w ++ l ∧ forwards (pending s) l (pending s') ∧ -1 ≤ async_fd s' < 2 ^ 31.
Proof.
  intros Hr. unfold on_channel. destruct (reports POLLOUT (channel s)).
  2:{ intros [-> ->]%mret_inv. exists []. rewrite app_nil_r. split_and!; [done|apply forwards_refl|lia..]. }
  destruct (async_fd s =? -1) eqn:E; zbool; cbn [negb]; intros H.
  - apply mret_inv in H as [-> ->]. exists []. rewrite app_nil_r. split; [done|].
    split; [|cbn; lia]. unfold pending. rewrite E. cbn. split; [done|constructor].
  - apply bind_inv in H as ([] & w1 & Hs & H). apply mret_inv in H as [-> ->].
    rewrite send_fd_run in Hs. cbv zeta in Hs. injection Hs as _ <-.
    eexists. split; [reflexivity|]. split; [|cbn; lia]. split; [|each_event].
    cbn -[drop rights_message i32]. change ([Byte.x00] ++ rights_message (async_fd s)) with (Byte.x00 :: rights_message (async_fd s)).
    rewrite drop_sendmsg by lia. unfold pending. by rewrite (proj2 (Z.eqb_neq _ _) E).
Qed.

Lemma parent_turn_forwards k sock s w s' w' :
  accept_contract k → -1 ≤ async_fd s < 2 ^ 31 → parent_turn sock s k w = (Ok s', w') →
  ∃ l, trace w' = trace w ++ l ∧ forwards (pending s) l (pending s') ∧ -1 ≤ async_fd s' < 2 ^ 31.
Proof.
  intros Hk Hr H. unfold parent_turn in H. rewrite run_call_bind in H.
  set (r := k (trace w) _) in *.
  assert (HP : forwards (pending s) [(sys_poll [listening s; channel s] (-1), r)] (pending s))
    by (apply forwards_other; each_event).
  destruct (r_ret r <? 0).
  - rewrite run_print_bind in H. apply mret_inv in H as [-> ->]. cbn [trace].
    rewrite <- app_assoc. eexists. split; [reflexivity|]. split; [|done].
    eapply forwards_trans; [exact HP|]. apply forwards_other; each_event.
  - match type of H with (on_listening ?s0 ≫= _) k ?w1 = _ =>
      destruct (on_listening_forwards k s0 w1) as (s2 & l2 & w2 & E2 & T2 & F2 & R2) end.
    rewrite (run_bind_Ok _ _ _ _ _ _ E2) in H.
    destruct (on_channel_forwards k sock s2 w2 s' w') as (l3 & T3 & F3 & R3); [by apply R2|done|].
    eexists. rewrite T3, T2. cbn [trace]. rewrite <- !app_assoc. split; [reflexivity|].
    split; [|done]. eapply forwards_trans; [exact HP|]. by eapply forwards_trans.
Qed.

(** The accepting process.  Over any number of turns the descriptors it sends, and
    then the one it still holds, are descriptors it has accepted, each at most once
    and in the order of the accepts; and it never closes one: neither those it has
    handed over nor those it dropped. *)
Theorem parent_forwards_in_order n k sock s w s' w' :
  accept_contract k → -1 ≤ async_fd s < 2 ^ 31 → parent_turns n sock s k w = (Ok s', w') →
  ∃ l, trace w' = trace w ++ l ∧
       omap sent_of l ++ pending s' `sublist_of` pending s ++ omap accepted_of l ∧
       Forall (λ e, ¬ closes e) l.
Proof.
  intros Hk Hr H. cut (∃ l, trace w' = trace w ++ l ∧ forwards (pending s) l (pending s'));
    [intros (l & ? & ? & ?); by exists l|].
  revert s w Hr H. induction n as [|n IH]; intros s w Hr H; cbn [parent_turns] in H.
  - apply mret_inv in H as [-> ->]. exists []. rewrite app_nil_r. split; [done|apply forwards_refl].
  - apply bind_inv in H as (s1 & w1 & H1 & H).
    destruct (parent_turn_forwards k sock s w s1 w1 Hk Hr H1) as (l1 & T1 & F1 & R1).
    destruct (IH s1 w1 R1 H) as (l2 & T2 & F2). exists (l1 ++ l2).
    rewrite T2, T1, app_assoc. split; [done|]. by eapply forwards_trans.
Qed.

(** The state before the loop, and replies for three turns: two connections come
    before the channel can be written. *)
Definition acceptor0 : acceptor := mkacceptor (mkpollfd 3 POLLIN 0) (mkpollfd 4 POLLIN 0) (-1).
Definition two_accepts : list reply :=
  [ints_reply 1 [POLLIN; 0]; ok_reply 5; ints_reply 1 [POLLIN; 0]; ok_reply 6;
   ints_reply 1 [0; POLLOUT]; ok_reply 1].
Definition busy : kernel := script two_accepts.
Definition after_three : acceptor * world :=
  match parent_turns 3 4 acceptor0 busy world0 with (Ok s, w) => (s, w) | (_, w) => (acceptor0, w) end.

Lemma busy_accepts : accept_contract busy.
Proof.
  intros h fd. unfold busy, script. generalize (length h) as n. intros n.
  do 6 (destruct n as [|n]; [vm_compute; split; congruence|]). vm_compute. split; congruence.
Qed.

Lemma parent_forwards_in_order_witness :
  ∃ l, trace after_three.2 = trace world0 ++ l ∧
       omap sent_of l ++ pending after_three.1 `sublist_of` pending acceptor0 ++ omap accepted_of l ∧
       Forall (λ e, ¬ closes e) l.
Proof.
  apply (parent_forwards_in_order 3 busy 4 acceptor0 world0 after_three.1 after_three.2).
  - exact busy_accepts.
  - cbn. lia.
  - reflexivity.
Defined.

(** Finding.  There is one variable for the accepted descriptor: a second
    connection before the channel is writable overwrites the first, which is
    neither passed on nor closed. *)
Theorem parent_loses_connection :
  omap accepted_of (trace after_three.2) = [5; 6] ∧ omap sent_of (trace after_three.2) = [6] ∧
  pending after_three.1 = [].
Proof. by vm_compute. Qed.
