(* ===== verification/FdPair.v ===== *)
(** * FdPair: the two processes of [set/unixsocket/main.cpp] together

    [FdPass] follows the accepting process and one pass of the answering one.  Here the
    answering process is followed over any number of turns (what it holds, what it
    touches, what it closes), and then both are joined by the channel between them. *)

From S2P Require Import Prelude Sys FdPass.

(** ** What the calls say *)

(** The descriptor [recv_fd] makes of a reply. *)
Definition received_of (e : event) : option Z :=
  match e with
  | (sys_misc "recvmsg" _ _, r) =>
      match (recv_fd 0 (λ _ _, r) world0).1 with Ok fd => Some fd | _ => None end
  | _ => None
  end.

Definition closed_of (e : event) : option Z :=
  match e.1 with sys_close f => Some f | _ => None end.

(** The connection a call is made on. *)
Definition touched (e : event) : option Z :=
  match e.1 with sys_read f _ | sys_write f _ | sys_close f => Some f | _ => None end.

Definition open_fds (l : list pollfd) : list Z := filter (λ f, f ≠ -1) (fd <$> l).

(** [evs] are calls of a process that holds [o] before and [o'] after them: what it
    received was held before it was closed, once each; and it touches nothing else. *)
Record adopts (o : list Z) (evs : list event) (o' : list Z) : Prop := {
  ad_conserves : o ++ omap received_of evs ≡ₚ o' ++ omap closed_of evs;
  ad_touches e f : e ∈ evs → touched e = Some f → f ∈ o ++ omap received_of evs
}.

Lemma adopts_refl o : adopts o [] o.
Proof. split; [done|]. by intros e f ?%elem_of_nil. Qed.

Lemma adopts_trans o1 l1 o2 l2 o3 :
  adopts o1 l1 o2 → adopts o2 l2 o3 → adopts o1 (l1 ++ l2) o3.
Proof.
  intros [P1 T1] [P2 T2]. split.
  - rewrite !omap_app, app_assoc, P1, <- app_assoc, (Permutation_app_comm (omap closed_of l1)).
    rewrite app_assoc, P2, <- app_assoc. by rewrite (Permutation_app_comm (omap closed_of l2)).
  - intros e f [He|He]%elem_of_app Hf; rewrite omap_app, app_assoc, elem_of_app.
    + left. by apply (T1 e).
    + specialize (T2 e f He Hf). apply elem_of_app in T2 as [T2|T2]; [|by right].
      left. rewrite P1. apply elem_of_app. by left.
Qed.

(** The entries of a list are independent. *)
Lemma adopts_frame o evs o' r : adopts o evs o' → adopts (r ++ o) evs (r ++ o').
Proof.
  intros [P T]. split; [by rewrite <- !app_assoc, P|].
  intros e f He Hf. specialize (T e f He Hf). rewrite <- app_assoc. apply elem_of_app. by right.
Qed.

Lemma adopts_frame_r o evs o' r : adopts o evs o' → adopts (o ++ r) evs (o' ++ r).
Proof.
  intros [P T]. split.
  - by rewrite <- !app_assoc, (Permutation_app_comm r), (Permutation_app_comm r), !app_assoc, P.
  - intros e f He Hf. specialize (T e f He Hf). set_solver.
Qed.

(** Calls on no connection. *)
Lemma adopts_other o evs :
  Forall (λ e, received_of e = None ∧ touched e = None) evs → adopts o evs o.
Proof.
  intros H. assert (omap received_of evs = [] ∧ omap closed_of evs = []) as [E1 E2].
  { induction H as [|e l (Hr & Ht) _ [IH1 IH2]]; [done|]. cbn. rewrite Hr.
    assert (closed_of e = None) as -> by (unfold closed_of, touched in *; by destruct e.1). done. }
  split; [by rewrite E1, E2|]. intros e f He Hf.
  apply (proj1 (Forall_forall _ _) H) in He as [_ He]. congruence.
Qed.

(** A descriptor comes in. *)
Lemma adopts_receive o sock r f :
  received_of (sys_recvmsg sock, r) = Some f → adopts o [(sys_recvmsg sock, r)] (o ++ [f]).
Proof.
  intros Hr. assert (omap received_of [(sys_recvmsg sock, r)] = [f]) as E.
  { change (match received_of (sys_recvmsg sock, r) with Some y => [y] | None => [] end = [f]). by rewrite Hr. }
  split; [by rewrite E, app_nil_r|]. by intros e g ->%list_elem_of_singleton.
Qed.

Ltac other := apply adopts_other; repeat constructor.

(** Calls on the connection [f], which is held, or closed at the end. *)
Lemma adopts_on f evs o' :
  Forall (λ e, received_of e = None ∧ (touched e = None ∨ touched e = Some f)) evs →
  (omap closed_of evs = [] ∧ o' = [f] ∨ omap closed_of evs = [f] ∧ o' = []) →
  adopts [f] evs o'.
Proof.
  intros H Hc. assert (omap received_of evs = []) as E.
  { clear Hc. induction H as [|e l (Hr & _) _ IH]; [done|]. cbn. by rewrite Hr. }
  split; [destruct Hc as [[-> ->]|[-> ->]]; by rewrite E|].
  intros e g He Hg. apply (proj1 (Forall_forall _ _) H) in He as [_ [He|He]]; [congruence|].
  rewrite He in Hg. injection Hg as ->. set_solver.
Qed.

(** ** The answering process *)

Definition slot_fds (p : pollfd) : list Z := if fd p =? -1 then [] else [fd p].

Lemma open_fds_cons p l : open_fds (p :: l) = slot_fds p ++ open_fds l.
Proof.
  unfold open_fds, slot_fds. rewrite fmap_cons, filter_cons.
  destruct (fd p =? -1) eqn:E; zbool; [by rewrite decide_False by (intros H; by apply H)|by rewrite decide_True].
Qed.

Lemma open_fds_app l1 l2 : open_fds (l1 ++ l2) = open_fds l1 ++ open_fds l2.
Proof. unfold open_fds. by rewrite fmap_app, filter_app. Qed.

Lemma slot_fds_held p : fd p ≠ -1 → slot_fds p = [fd p].
Proof. intros H. unfold slot_fds. by rewrite (proj2 (Z.eqb_neq _ _)). Qed.

(** [on_conn]: the calls collected in [evs] are made on one connection. *)
Ltac on_conn := apply adopts_on;
  [ repeat (apply Forall_cons; split; [split; [done|first [by left|by right]]|]); by apply Forall_nil
  | first [left; by split|right; by split] ].

Lemma conn_out_adopts k p w p' c w' :
  fd p ≠ -1 → conn_out p k w = (Ok (p', c), w') →
  ∃ evs, trace w' = trace w ++ evs ∧ adopts (slot_fds p) evs (slot_fds p').
Proof.
  intros Hp. rewrite (slot_fds_held p Hp). unfold conn_out. destruct (reports POLLOUT p); intros H.
  - do 3 sys_inv H. apply mret_inv in H as [[= -> ->] ->].
    eexists. rewrite E1, E0, E, <- !app_assoc. split; [reflexivity|]. on_conn.
  - apply mret_inv in H as [[= -> ->] ->]. exists []. rewrite app_nil_r, (slot_fds_held p Hp).
    split; [done|apply adopts_refl].
Qed.

Lemma drop_conn_adopts k p w p' c w' :
  fd p ≠ -1 → drop_conn p k w = (Ok (p', c), w') →
  ∃ evs, trace w' = trace w ++ evs ∧ adopts (slot_fds p) evs (slot_fds p').
Proof.
  intros Hp. rewrite (slot_fds_held p Hp). unfold drop_conn. intros H.
  sys_inv H. apply mret_inv in H as [[= -> ->] ->]. eexists. split; [exact E|]. on_conn.
Qed.

(** Calls on the connection before one of the above. *)
Lemma adopts_before f l1 o w w1 w2 :
  adopts [f] l1 [f] → trace w1 = trace w ++ l1 →
  (∃ l2, trace w2 = trace w1 ++ l2 ∧ adopts [f] l2 o) →
  ∃ evs, trace w2 = trace w ++ evs ∧ adopts [f] evs o.
Proof.
  intros A1 T1 (l & T2 & A2). exists (l1 ++ l). rewrite T2, T1, app_assoc.
  split; [done|]. by eapply adopts_trans.
Qed.

Lemma child_conn_adopts k p w p' c w' :
  child_ready p = true → child_conn p k w = (Ok (p', c), w') →
  ∃ evs, trace w' = trace w ++ evs ∧ adopts (slot_fds p) evs (slot_fds p').
Proof.
  intros Hr. assert (fd p ≠ -1) as Hp by (unfold child_ready in Hr; by zbool).
  unfold child_conn. destruct (reports POLLIN p); [|by apply conn_out_adopts].
  intros H. sys_inv H. sys_inv H. unfold get_errno in E0. injection E0 as _ <-.
  rewrite (slot_fds_held p Hp).
  destruct ((r_ret v <? 0) && _).
  - sys_inv H. eapply adopts_before; [| |by rewrite <- (slot_fds_held p Hp); eapply drop_conn_adopts].
    2: by rewrite E0, E, <- app_assoc. on_conn.
  - destruct (r_ret v =? 0).
    + eapply adopts_before; [|exact E|by rewrite <- (slot_fds_held p Hp); eapply drop_conn_adopts].
      on_conn.
    + sys_inv H. sys_inv H. eapply adopts_before;
        [| |rewrite <- (slot_fds_held p Hp); apply (conn_out_adopts k (set_events p POLLOUT)) in H; done].
      2: by rewrite E0, E, <- app_assoc. on_conn.
Qed.

Lemma child_conns_adopts k n l w l' w' :
  child_conns n l k w = (Ok l', w') →
  ∃ evs, trace w' = trace w ++ evs ∧ adopts (open_fds l) evs (open_fds l').
Proof.
  revert n w l' w'. induction l as [|p l IH]; intros n w l' w' H; cbn [child_conns] in H.
  - apply mret_inv in H as [-> ->]. exists []. rewrite app_nil_r. split; [done|apply adopts_refl].
  - destruct (n =? 0).
    { apply mret_inv in H as [-> ->]. exists []. rewrite app_nil_r. split; [done|apply adopts_refl]. }
    rewrite open_fds_cons. destruct (child_ready p) eqn:Er.
    + apply bind_inv in H as ([p1 c] & w1 & E1 & H). apply bind_inv in H as (l1 & w2 & E2 & H).
      apply mret_inv in H as [-> ->]. rewrite open_fds_cons.
      destruct (child_conn_adopts k p w p1 c w1 Er E1) as (e1 & T1 & A1).
      destruct (IH _ _ _ _ E2) as (e2 & T2 & A2). exists (e1 ++ e2). rewrite T2, T1, app_assoc.
      split; [done|]. eapply adopts_trans; [by apply adopts_frame_r|by apply adopts_frame].
    + apply bind_inv in H as (l1 & w2 & E2 & H). apply mret_inv in H as [-> ->].
      rewrite open_fds_cons. destruct (IH _ _ _ _ E2) as (e2 & T2 & A2). exists e2.
      split; [done|]. by apply adopts_frame.
Qed.

(** [recv_fd] makes one call, and its result depends on the reply alone. *)
Lemma recv_fd_received k sock w f w' :
  recv_fd sock k w = (Ok f, w') →
  ∃ r, trace w' = trace w ++ [(sys_recvmsg sock, r)] ∧ received_of (sys_recvmsg sock, r) = Some f ∧ f ≠ -1.
Proof.
  unfold received_of, sys_recvmsg, recv_fd. cbv zeta.
  match goal with |- (lift ?o ≫= _) k w = _ → _ => destruct o as [b|?| |?|?|] end; try done.
  rewrite run_lift_bind, run_call_bind.
  change (sys_misc "recvmsg" [sock] []) with (sys_recvmsg sock).
  set (r := k (trace w) (sys_recvmsg sock)). intros H. exists r.
  rewrite run_lift_bind, run_call_bind.
  destruct (r_ret r =? 1); cbn [negb] in *; [|done].
  destruct (CMSG_FIRSTHDR (r_int r 0)) as [o|]; [|done].
  match goal with |- context [(lift ?o ≫= _) _ _] => destruct o as [d|?| |?|?|] end; try done.
  rewrite !run_lift_bind in *. destruct (i32 _ =? -1) eqn:E; [done|]. zbool.
  apply mret_inv in H as [-> ->]. done.
Qed.

Lemma child_turn_adopts k ch l w ch' l' w' :
  child_turn ch l k w = (Ok (ch', l'), w') →
  ∃ evs, trace w' = trace w ++ evs ∧ adopts (open_fds l) evs (open_fds l').
Proof.
  unfold child_turn. intros H. sys_inv H. apply bind_inv in H as ([] & w1 & E1 & H).
  assert (∃ es, trace w1 = trace w ++ es ∧ Forall (λ e, received_of e = None ∧ touched e = None) es) as (e1 & T1 & F1).
  { destruct (r_ret v <? 0).
    - apply print_inv in E1 as [o E1]. eexists. rewrite E1, E, <- app_assoc. split; [done|]. repeat constructor.
    - apply mret_inv in E1 as [_ ->]. eexists. rewrite E. split; [done|]. repeat constructor. }
  set (ps := if r_ret v <? 0 then _ else _) in H.
  assert (∃ ch2 l2, ps = ch2 :: l2 ∧ open_fds l2 = open_fds l) as (ch2 & l2 & Hps & Ho).
  { subst ps. destruct (r_ret v <? 0); [by eexists _, _|]. eexists _, _. split; [reflexivity|].
    clear. generalize (tail (r_ints v)). induction l as [|p l IH]; intros rs; [done|].
    cbn [poll_reported]. by rewrite !open_fds_cons, IH. }
  rewrite Hps in H. clear ps Hps. rewrite <- Ho.
  destruct (reports POLLIN ch2).
  - apply bind_inv in H as (f & w2 & E2 & H). apply recv_fd_received in E2 as (r & T2 & Hr & Hf).
    sys_inv H. apply bind_inv in H as (l3 & w4 & E4 & H). apply mret_inv in H as [[= -> ->] ->].
    apply child_conns_adopts in E4 as (e4 & T4 & A4).
    rewrite open_fds_app in A4. change (open_fds [mkpollfd f POLLIN 0]) with (filter (λ f, f ≠ -1) [f]) in A4.
    rewrite filter_cons, decide_True in A4 by done.
    eexists. rewrite T4, E0, T2, T1, <- !app_assoc. split; [reflexivity|].
    eapply adopts_trans; [by apply adopts_other|].
    eapply (adopts_trans _ [_] (open_fds l2 ++ [f])); [|eapply (adopts_trans _ [_]); [|exact A4]].
    + by apply adopts_receive.
    + other.
  - apply bind_inv in H as (l3 & w4 & E4 & H). apply mret_inv in H as [[= -> ->] ->].
    apply child_conns_adopts in E4 as (e4 & T4 & A4).
    eexists. rewrite T4, T1, <- app_assoc. split; [reflexivity|].
    eapply adopts_trans; [by apply adopts_other|exact A4].
Qed.

(** The first [n] turns of the loop. *)
Fixpoint child_turns (n : nat) (ch : pollfd) (l : list pollfd) : M (pollfd * list pollfd) :=
  match n with O => mret (ch, l) | S n => '(ch, l) ← child_turn ch l; child_turns n ch l end.

Lemma child_turns_adopt n k ch l w ch' l' w' :
  child_turns n ch l k w = (Ok (ch', l'), w') →
  ∃ evs, trace w' = trace w ++ evs ∧ adopts (open_fds l) evs (open_fds l').
Proof.
  revert ch l w. induction n as [|n IH]; intros ch l w H; cbn [child_turns] in H.
  - apply mret_inv in H as [[= -> ->] ->]. exists []. rewrite app_nil_r. split; [done|apply adopts_refl].
  - apply bind_inv in H as ([ch1 l1] & w1 & E1 & H).
    apply child_turn_adopts in E1 as (e1 & T1 & A1). destruct (IH _ _ _ H) as (e2 & T2 & A2).
    exists (e1 ++ e2). rewrite T2, T1, app_assoc. split; [done|]. by eapply adopts_trans.
Qed.

(** ** Both processes *)

(** The channel is reliable and in order: what has come out is the start of what went in.
    [same f g]: descriptor [f] of the one process and [g] of the other are the same
    connection. *)
Definition carries (same : Z → Z → Prop) (sent received : list Z) : Prop :=
  ∃ n, Forall2 same (take n sent) received.

(** C16: From the accept to the answer.  After any number of turns of both processes, over
    a channel that keeps the order: the connections the answering process has received
    are connections the other one accepted, each once, in the order of the accepts; it
    has read, answered and closed no other; each one is still held or was closed exactly
    once; and the accepting process has closed none of its copies. *)
Theorem fd_pair_end_to_end same n m kp kc sock s ch wp s' wp' wc ch' l' wc' lp lc :
  accept_contract kp → async_fd s = -1 →
  parent_turns n sock s kp wp = (Ok s', wp') → trace wp' = trace wp ++ lp →
  child_turns m ch [] kc wc = (Ok (ch', l'), wc') → trace wc' = trace wc ++ lc →
  carries same (omap sent_of lp) (omap received_of lc) →
  (∃ acc, acc `sublist_of` omap accepted_of lp ∧ Forall2 same acc (omap received_of lc)) ∧
  (∀ e f, e ∈ lc → touched e = Some f → f ∈ omap received_of lc) ∧
  omap received_of lc ≡ₚ open_fds l' ++ omap closed_of lc ∧
  Forall (λ e, ¬ closes e) lp.
Proof.
  intros Hk Hs Hp Tp Hc Tc [i Hi].
  destruct (parent_forwards_in_order n kp sock s wp s' wp' Hk ltac:(lia) Hp) as (l1 & T1 & Hsub & Hcl).
  rewrite Tp in T1. apply app_inv_head in T1 as <-.
  destruct (child_turns_adopt m kc ch [] wc ch' l' wc' Hc) as (l2 & T2 & [A1 A2]).
  rewrite Tc in T2. apply app_inv_head in T2 as <-.
  split; [|by split_and!].
  exists (take i (omap sent_of lp)). split; [|done].
  unfold pending in Hsub at 2. rewrite Hs in Hsub. cbn [app Z.eqb] in Hsub.
  etrans; [apply sublist_take|]. etrans; [|exact Hsub]. by apply sublist_inserts_r.
Qed.

(** The parent of [after_three] passes its descriptor 6 on, which is 9 in the other
    process: it is received, read, answered and closed. *)
Definition child_request : kernel := script
  [ints_reply 1 [POLLIN]; mkreply 1 None (rights_message 9) [24]; ok_reply 0;
   ints_reply 1 [0; POLLIN]; data_reply [Byte.x47; Byte.x45; Byte.x54]; ok_reply 0;
   ints_reply 1 [0; POLLOUT]; ok_reply 0; ok_reply 0; ok_reply 0].
Definition child0 : pollfd := mkpollfd 4 POLLIN 0.
Definition after_answer : list pollfd * world :=
  match child_turns 3 child0 [] child_request world0 with
  | (Ok (_, l), w) => (l, w) | (_, w) => ([], w)
  end.

Lemma fd_pair_end_to_end_witness :
  omap accepted_of (trace after_three.2) = [5; 6] ∧ omap received_of (trace after_answer.2) = [9] ∧
  (∃ acc, acc `sublist_of` omap accepted_of (trace after_three.2) ∧
          Forall2 (λ f g, g = f + 3) acc (omap received_of (trace after_answer.2))) ∧
  omap received_of (trace after_answer.2) ≡ₚ open_fds after_answer.1 ++ omap closed_of (trace after_answer.2).
Proof.
  split; [reflexivity|]. split; [reflexivity|].
  assert (carries (λ f g, g = f + 3) (omap sent_of (trace after_three.2)) (omap received_of (trace after_answer.2))) as Hc.
  { exists 1%nat. change (Forall2 (λ f g, g = f + 3) [6] [9]). by repeat constructor. }
  destruct (fd_pair_end_to_end (λ f g, g = f + 3) 3 3 busy child_request 4 acceptor0 child0 world0
              after_three.1 after_three.2 world0 (mkpollfd 4 POLLIN 0) after_answer.1 after_answer.2
              (trace after_three.2) (trace after_answer.2) busy_accepts eq_refl eq_refl eq_refl eq_refl eq_refl Hc)
    as (H1 & _ & H3 & _).
  by split.
Defined.
