(* ===== verification/Inotify.v ===== *)
(** * Inotify: [set/inotify/main.cpp]

    The directory watcher: [epoll] tells that the inotify descriptor can be read,
    and the program walks over the events in what it read.  The loop over the
    [epoll] events and the walk over the bytes share one variable, [i]. *)

From S2P Require Import Prelude Endian Buffer BufferSpec Sys.
From coqutil Require Import Byte Word.LittleEndianList.

Definition IN_MODIFY : Z := 2.
Definition IN_CLOSE : Z := 24.
Definition IN_OPEN : Z := 32.
Definition IN_MOVED_TO : Z := 128.
Definition IN_CREATE : Z := 256.
Definition IN_DELETE : Z := 512.
Definition IN_IGNORED : Z := 32768.
Definition IN_ISDIR : Z := 1073741824.
Definition EPOLLIN : Z := 1.
Definition EPOLLET : Z := 2147483648.
Definition EPOLL_CTL_ADD : Z := 1.

Definition EVENT_SIZE : Z := 16.
Definition BUF_LEN : Z := 1024 * (EVENT_SIZE + 16).

Definition sys_epoll_create (n : Z) : syscall := sys_misc "epoll_create" [n] [].
Definition sys_inotify_init : syscall := sys_misc "inotify_init" [] [].
Definition sys_inotify_add_watch (fd : Z) (path : string) (mask : Z) : syscall :=
  sys_misc "inotify_add_watch" [fd; mask] (text path).
Definition sys_epoll_ctl (epfd op fd events : Z) : syscall :=
  sys_misc "epoll_ctl" [epfd; op; fd; events] [].
(** The reply lists the descriptor and the events of each entry in turn. *)
Definition sys_epoll_wait (epfd n timeout : Z) : syscall :=
  sys_misc "epoll_wait" [epfd; n; timeout] [].
(** [printf(fmt, name)] *)
Definition sys_printf (fmt : string) (name : list Byte.byte) : syscall := sys_misc fmt [] name.

(** [struct inotify_event] without its [name], which follows it. *)
Record inotify_event : Type := mkevent { ev_wd : Z; ev_mask : Z; ev_cookie : Z; ev_len : Z }.

Definition event_at (buffer : list cell) (i : Z) : outcome inotify_event :=
  c ← load buffer i EVENT_SIZE; h ← defined c;
  Ok {| ev_wd := i32 (le_combine (take 4 h)); ev_mask := le_combine (take 4 (drop 4 h));
        ev_cookie := le_combine (take 4 (drop 8 h)); ev_len := le_combine (drop 12 h) |}.

(** [%s] with [event->name]: up to a zero byte. *)
Definition event_name (buffer : list cell) (i : Z) : outcome (list Byte.byte) :=
  cell_string (drop (Z.to_nat (i + EVENT_SIZE)) buffer).

Definition flagged (mask bit : Z) : bool := negb (Z.land mask bit =? 0).

(** The chain of tests on the mask. *)
Definition event_format (mask : Z) : option string :=
  if flagged mask IN_CREATE then
    Some (if flagged mask IN_ISDIR then "The directory %s was created." else "The file %s was created.")
  else if flagged mask IN_DELETE then
    Some (if flagged mask IN_ISDIR then "The directory %s was deleted." else "The file %s was deleted.")
  else if flagged mask IN_MODIFY then
    Some (if flagged mask IN_ISDIR then "The directory %s was modified." else "The file %s was modified.")
  else if flagged mask IN_IGNORED then Some "The file %s was IN_IGNORED."
  else if flagged mask IN_MOVED_TO then Some "The file %s was IN_MOVED_TO."
  else if flagged mask IN_OPEN then Some "The file %s was IN_MOVED_TO."
  else if flagged mask IN_CLOSE then Some "The file %s was IN_MOVED_TO."
  else None.

(** What one event prints: a format and the name put into it. *)
Definition event_lines (buffer : list cell) (i : Z) (e : inotify_event)
    : outcome (list (string * list Byte.byte)) :=
  l1 ← (if negb (ev_len e =? 0) then n ← event_name buffer i; Ok [("%s"%string, n)] else Ok []);
  l2 ← (match event_format (ev_mask e) with
        | Some f => n ← event_name buffer i; Ok [(f, n)]
        | None => Ok []
        end);
  Ok (l1 ++ l2).

(** [while (i < length)]: the lines, and the value of [i] at the end.  The sum is
    computed in [size_t] and converted back to [int]. *)
Fixpoint event_walk (fuel : nat) (buffer : list cell) (i length : Z)
    : outcome (list (string * list Byte.byte) * Z) :=
  match fuel with
  | O => NoFuel
  | S fuel =>
      if i <? length then
        e ← event_at buffer i;
        l ← event_lines buffer i e;
        '(rest, i) ← event_walk fuel buffer (i32 (u64 i ⊕ (EVENT_SIZE ⊕ ev_len e))) length;
        Ok (l ++ rest, i)
      else Ok ([], i)
  end.

Fixpoint print_events (l : list (string * list Byte.byte)) : M unit :=
  match l with
  | [] => mret tt
  | (f, n) :: l => _ ← call (sys_printf f n); print_events l
  end.

(** The inotify descriptor is readable. *)
Definition on_epollin (fuel : nat) (fd : Z) (buffer : list cell) (i : Z) : M (list cell * Z) :=
  length ← call (sys_read fd BUF_LEN);
  let buffer := take (List.length buffer)
                  ((Some <$> r_bytes length) ++ drop (List.length (r_bytes length)) buffer) in
  _ ← (if r_ret length <? 0 then print "read" else mret tt);
  '(lines, i) ← lift (event_walk fuel buffer i (r_ret length));
  _ ← print_events lines;
  mret (buffer, i).

(** [for (i = 0; i < nfds; ++i)] over the entries of [epoll_wait]. *)
Fixpoint epoll_entries (fuel : nat) (fd : Z) (evs : list (Z * Z)) (nfds : Z)
    (buffer : list cell) (i : Z) : M (list cell) :=
  match fuel with
  | O => lift NoFuel
  | S fuel' =>
      if i <? nfds then
        match evs !! Z.to_nat i with
        | None => undef OutOfBounds
        | Some (efd, eev) =>
            '(buffer, i) ← (if (efd =? fd) && negb (Z.land eev EPOLLIN =? 0)
                            then on_epollin fuel fd buffer i else mret (buffer, i));
            epoll_entries fuel' fd evs nfds buffer (i + 1)
        end
      else mret buffer
  end.

Fixpoint pairs (l : list Z) : list (Z * Z) :=
  match l with a :: b :: l => (a, b) :: pairs l | _ => [] end.

(** One turn of the endless loop; [None] when [main] returns. *)
Definition inotify_turn (fuel : nat) (epfd fd : Z) (buffer : list cell) : M (option (list cell)) :=
  r ← call (sys_epoll_wait epfd 20 100000);
  if r_ret r =? -1 then _ ← print "epoll error"; mret None
  else b ← epoll_entries fuel fd (pairs (r_ints r)) (r_ret r) buffer 0; mret (Some b).

Fixpoint inotify_loop (turns fuel : nat) (epfd fd : Z) (buffer : list cell) : M Z :=
  match turns with
  | O => lift NoFuel
  | S turns =>
      b ← inotify_turn fuel epfd fd buffer;
      match b with Some b => inotify_loop turns fuel epfd fd b | None => mret (-1) end
  end.

Definition watch_mask : Z :=
  Z.lor (Z.lor (Z.lor (Z.lor (Z.lor (Z.lor IN_MODIFY IN_CREATE) IN_DELETE) IN_IGNORED) IN_MOVED_TO)
               IN_OPEN) IN_CLOSE.

(** The message of a failed watch prints [argv[i]] before [i] has a value. *)
Definition inotify_main (turns fuel : nat) : M Z :=
  epfd ← call (sys_epoll_create 256);
  fd ← call sys_inotify_init;
  if r_ret fd =? -1 then _ ← print "inotify_init fail"; lift (Exit 1) else
  wd ← call (sys_inotify_add_watch (r_ret fd) "/data/cc" watch_mask);
  if r_ret wd =? -1 then undef Indeterminate else
  _ ← call (sys_epoll_ctl (r_ret epfd) EPOLL_CTL_ADD (r_ret fd) (Z.lor EPOLLIN EPOLLET));
  inotify_loop turns fuel (r_ret epfd) (r_ret fd) (replicate (Z.to_nat BUF_LEN) None).

(** ** Events as the kernel writes them *)

Record fs_event : Type := mkfs {
  fe_wd : Z; fe_mask : Z; fe_cookie : Z; fe_name : list Byte.byte; fe_pad : nat
}.

Definition fe_len (e : fs_event) : Z := lenZ (fe_name e) + Z.of_nat (S (fe_pad e)).

(** The name is followed by at least one zero byte, which [len] counts. *)
Definition encode_event (e : fs_event) : list Byte.byte :=
  le_split 4 (fe_wd e) ++ le_split 4 (fe_mask e) ++ le_split 4 (fe_cookie e) ++
  le_split 4 (fe_len e) ++ fe_name e ++ replicate (S (fe_pad e)) Byte.x00.
Definition encode_events (es : list fs_event) : list Byte.byte := es ≫= encode_event.

Definition fs_event_ok (e : fs_event) : Prop :=
  0 ≤ fe_mask e < 2 ^ 32 ∧ fe_len e < 2 ^ 15 ∧ Byte.x00 ∉ fe_name e.

(** What is to be printed for an event. *)
Definition fs_lines (e : fs_event) : list (string * list Byte.byte) :=
  ("%s"%string, fe_name e) ::
  match event_format (fe_mask e) with Some f => [(f, fe_name e)] | None => [] end.

Lemma lenZ_encode_event e : lenZ (encode_event e) = 16 + fe_len e.
Proof.
  unfold encode_event, fe_len, lenZ. rewrite !length_app, !length_le_split, length_replicate. lia.
Qed.

Lemma fe_len_pos e : 0 < fe_len e.
Proof. unfold fe_len. pose proof (lenZ_nonneg (fe_name e)). lia. Qed.

Lemma event_at_encode pre e tl :
  fs_event_ok e →
  event_at ((Some <$> pre) ++ (Some <$> encode_event e) ++ tl) (lenZ pre) =
    Ok (mkevent (i32 (le_combine (le_split 4 (fe_wd e)))) (fe_mask e)
                (le_combine (le_split 4 (fe_cookie e))) (fe_len e)).
Proof.
  intros (Hm & Hl & _). pose proof (fe_len_pos e). unfold event_at, EVENT_SIZE.
  pose proof (lenZ_encode_event e) as HL.
  rewrite load_Ok
    by (rewrite ?lenZ_app, ?lenZ_fmap; pose proof (lenZ_nonneg pre); pose proof (lenZ_nonneg tl); lia).
  assert (slice ((Some <$> pre) ++ (Some <$> encode_event e) ++ tl) (lenZ pre) 16 =
    Some <$> (le_split 4 (fe_wd e) ++ le_split 4 (fe_mask e) ++ le_split 4 (fe_cookie e) ++
              le_split 4 (fe_len e))) as ->.
  { unfold slice, lenZ at 1. rewrite Nat2Z.id, drop_app_length' by (by rewrite length_fmap).
    reflexivity. }
  cbn [mbind outcome_bind]. rewrite defined_fmap. cbn [mbind outcome_bind].
  do 2 f_equal; cbn [take drop].
  - apply (le_combine_split_small 4). change (2 ^ (8 * Z.of_nat 4)) with (2 ^ 32). lia.
  - apply (le_combine_split_small 4). change (2 ^ (8 * Z.of_nat 4)) with (2 ^ 32). lia.
Qed.

Lemma event_name_encode pre e tl :
  fs_event_ok e →
  event_name ((Some <$> pre) ++ (Some <$> encode_event e) ++ tl) (lenZ pre) = Ok (fe_name e).
Proof.
  intros (_ & _ & Hn). unfold event_name, EVENT_SIZE.
  replace (Z.to_nat (lenZ pre + 16)) with (length (Some <$> pre) + 16)%nat
    by (rewrite length_fmap; unfold lenZ; lia).
  rewrite <- drop_drop, drop_app_length. unfold encode_event.
  rewrite <- (cell_string_name (fe_name e) ((Some <$> replicate (fe_pad e) Byte.x00) ++ tl) Hn).
  f_equal. rewrite !fmap_app, <- !app_assoc. reflexivity.
Qed.

Lemma event_step pre e tl :
  fs_event_ok e →
  let b := (Some <$> pre) ++ (Some <$> encode_event e) ++ tl in
  (h ← event_at b (lenZ pre); l ← event_lines b (lenZ pre) h; Ok (l, ev_len h)) =
    Ok (fs_lines e, fe_len e).
Proof.
  intros He. cbv zeta. rewrite event_at_encode by done. cbn [mbind outcome_bind ev_len].
  unfold event_lines. cbn [ev_len ev_mask]. rewrite event_name_encode by done.
  pose proof (fe_len_pos e). rewrite (proj2 (Z.eqb_neq (fe_len e) 0)) by lia.
  unfold fs_lines. by destruct (event_format (fe_mask e)).
Qed.

Lemma advance_index i n :
  0 ≤ i → 0 ≤ n → i + 16 + n < 2 ^ 31 → i32 (u64 i ⊕ (EVENT_SIZE ⊕ n)) = i + (16 + n).
Proof.
  intros. unfold EVENT_SIZE. rewrite !u64_small by (rewrite ?u64_small; lia).
  unfold i32, signed. cbv zeta. rewrite Z.mod_small by lia.
  change (2 ^ (32 - 1)) with (2 ^ 31). rewrite (proj2 (Z.ltb_lt _ (2 ^ 31))) by lia. lia.
Qed.

(** The walk from an offset that is the start of an event. *)
Lemma event_walk_encode es pre tl fuel :
  Forall fs_event_ok es → (length es < fuel)%nat →
  lenZ pre + lenZ (encode_events es) < 2 ^ 31 →
  event_walk fuel ((Some <$> pre) ++ (Some <$> encode_events es) ++ tl) (lenZ pre)
             (lenZ pre + lenZ (encode_events es)) =
    Ok (es ≫= fs_lines, lenZ pre + lenZ (encode_events es)).
Proof.
  intros Hes. revert pre fuel. induction Hes as [|e es He Hes IH]; intros pre fuel Hf Hmax.
  - destruct fuel as [|fuel]; [cbn in Hf; lia|]. cbn [event_walk encode_events mbind list_bind].
    by rewrite Z.add_0_r, Z.ltb_irrefl.
  - destruct fuel as [|fuel]; [lia|]. cbn [length] in Hf.
    change (encode_events (e :: es)) with (encode_event e ++ encode_events es) in *.
    rewrite lenZ_app in *. pose proof (lenZ_encode_event e) as HL. pose proof (fe_len_pos e).
    pose proof (lenZ_nonneg pre). pose proof (lenZ_nonneg (encode_events es)).
    cbn [event_walk]. rewrite (proj2 (Z.ltb_lt (lenZ pre) _)) by lia.
    rewrite fmap_app, <- (app_assoc (Some <$> encode_event e)).
    pose proof (event_step pre e ((Some <$> encode_events es) ++ tl) He) as HS. cbv zeta in HS.
    apply bind_Ok in HS as (h & -> & (l & El & [= -> Eh])%bind_Ok).
    cbn [mbind outcome_bind]. rewrite El. cbn [mbind outcome_bind]. rewrite Eh.
    rewrite advance_index by lia.
    specialize (IH (pre ++ encode_event e) fuel ltac:(lia)).
    rewrite lenZ_app, fmap_app, <- !app_assoc, <- HL in *.
    rewrite <- !Z.add_assoc in *. rewrite IH by lia. done.
Qed.

Lemma print_events_run l k w :
  ∃ evs w', print_events l k w = (Ok tt, w') ∧ trace w' = trace w ++ evs ∧
            calls evs = uncurry sys_printf <$> l.
Proof.
  revert w. induction l as [|[f n] l IH]; intros w; cbn [print_events].
  - exists [], w. by rewrite app_nil_r.
  - rewrite run_call_bind. edestruct IH as (evs & w' & E & T & C). rewrite E.
    eexists (_ :: evs), w'. split; [done|]. rewrite T. cbn [trace]. rewrite <- app_assoc.
    split; [reflexivity|]. unfold calls in *. cbn. by rewrite C.
Qed.

(** The buffer after a read of [bs] bytes into its start. *)
Lemma received_cells (buffer : list cell) (bs : list Byte.byte) :
  lenZ bs ≤ lenZ buffer →
  take (length buffer) ((Some <$> bs) ++ drop (length bs) buffer) =
    (Some <$> bs) ++ drop (length bs) buffer.
Proof.
  intros H. apply take_ge. rewrite length_app, length_fmap, length_drop. unfold lenZ in H. lia.
Qed.

Lemma on_epollin_reports es fd buffer fuel k w :
  Forall fs_event_ok es → lenZ (encode_events es) ≤ BUF_LEN → lenZ buffer = BUF_LEN →
  (length es < fuel)%nat →
  k (trace w) (sys_read fd BUF_LEN) = data_reply (encode_events es) →
  ∃ buffer' evs w', on_epollin fuel fd buffer 0 k w = (Ok (buffer', lenZ (encode_events es)), w') ∧
    lenZ buffer' = BUF_LEN ∧ trace w' = trace w ++ evs ∧
    calls evs = sys_read fd BUF_LEN :: (uncurry sys_printf <$> (es ≫= fs_lines)).
Proof.
  intros Hes Hlen Hb Hf Hr. unfold on_epollin. rewrite run_call_bind, Hr.
  cbv zeta. cbn [r_ret r_bytes data_reply]. rewrite received_cells by lia.
  pose proof (lenZ_nonneg (encode_events es)).
  rewrite (proj2 (Z.ltb_ge (lenZ (encode_events es)) 0)), (run_bind_Ok _ _ _ _ _ _ eq_refl) by lia.
  assert (event_walk fuel ((Some <$> encode_events es) ++ drop (length (encode_events es)) buffer) 0
            (lenZ (encode_events es)) = Ok (es ≫= fs_lines, lenZ (encode_events es))) as ->.
  { apply (event_walk_encode es [] _ fuel Hes Hf). unfold lenZ at 1. cbn [length].
    revert Hlen. change BUF_LEN with 32768. lia. }
  rewrite run_lift_bind.
  match goal with |- context [(_ ≫= _) k ?w1] =>
    destruct (print_events_run (es ≫= fs_lines) k w1) as (evs & w' & Ep & Tp & Cp) end.
  rewrite (run_bind_Ok _ _ _ _ _ _ Ep). eexists _, _, w'. split; [reflexivity|]. split.
  - rewrite lenZ_app, lenZ_fmap. unfold lenZ in *. rewrite length_drop. lia.
  - rewrite Tp. cbn [trace]. rewrite <- app_assoc. split; [reflexivity|]. unfold calls in *. cbn. by rewrite Cp.
Qed.

(** C23: A turn of the watcher.  When [epoll] reports the inotify descriptor and the read
    returns any sequence of events, each with its name, the program prints for each
    of them, in order, its name and the line for its mask, and goes on with its
    loop: the padding behind a name is skipped and the walk ends at the last
    byte. *)
Theorem inotify_turn_reports es epfd fd buffer fuel k w :
  Forall fs_event_ok es → lenZ (encode_events es) ≤ BUF_LEN → lenZ buffer = BUF_LEN →
  (length es + 1 < fuel)%nat →
  replies k (trace w) [sys_epoll_wait epfd 20 100000; sys_read fd BUF_LEN]
    [ints_reply 1 [fd; EPOLLIN]; data_reply (encode_events es)] →
  ∃ buffer' evs w', inotify_turn fuel epfd fd buffer k w = (Ok (Some buffer'), w') ∧
    lenZ buffer' = BUF_LEN ∧ trace w' = trace w ++ evs ∧
    calls evs = sys_epoll_wait epfd 20 100000 :: sys_read fd BUF_LEN ::
                (uncurry sys_printf <$> (es ≫= fs_lines)).
Proof.
  intros Hes Hlen Hb Hf H. unfold inotify_turn.
  apply call_replies in H as [E1 [Hr _]]. rewrite (run_bind_Ok _ _ _ _ _ _ E1).
  change (r_ret (ints_reply 1 [fd; EPOLLIN]) =? -1) with false. cbv iota.
  destruct fuel as [|[|fuel]]; [lia..|].
  destruct (on_epollin_reports es fd buffer (S (S fuel)) k _ Hes Hlen Hb ltac:(lia) Hr)
    as (b & evs & w' & E & Hl & T & C).
  cbn [epoll_entries r_ret r_ints ints_reply pairs]. change (0 <? 1) with true. cbv iota.
  change ([(fd, EPOLLIN)] !! Z.to_nat 0) with (Some (fd, EPOLLIN)). cbv iota beta.
  rewrite Z.eqb_refl. change (true && negb (Z.land EPOLLIN EPOLLIN =? 0)) with true. cbv iota.
  pose proof (lenZ_nonneg (encode_events es)).
  eexists b, _, w'. split; [|split; [done|split]].
  - rewrite !run_bind, E. by rewrite (proj2 (Z.ltb_ge (lenZ (encode_events es) + 1) 1)) by lia.
  - rewrite T. cbn [advance trace]. rewrite <- app_assoc. reflexivity.
  - unfold calls in *. cbn. by rewrite C.
Qed.

(** Two events. *)
Definition two_events : list fs_event :=
  [mkfs 1 IN_CREATE 0 (text "notes") 10; mkfs 1 (Z.lor IN_DELETE IN_ISDIR) 0 (text "old") 12].
Definition watcher : kernel :=
  script [ints_reply 1 [7; EPOLLIN]; data_reply (encode_events two_events)].

Lemma inotify_turn_reports_witness :
  ∃ buffer' evs w',
    inotify_turn 9 6 7 (replicate (Z.to_nat BUF_LEN) None) watcher world0 = (Ok (Some buffer'), w') ∧
    lenZ buffer' = BUF_LEN ∧ trace w' = trace world0 ++ evs ∧
    calls evs = sys_epoll_wait 6 20 100000 :: sys_read 7 BUF_LEN ::
                (uncurry sys_printf <$> (two_events ≫= fs_lines)).
Proof.
  apply (inotify_turn_reports two_events 6 7 (replicate (Z.to_nat BUF_LEN) None) 9 watcher world0).
  - repeat constructor; try (vm_compute; congruence).
    all: vm_compute; rewrite ?not_elem_of_cons; intros Hin; repeat (apply elem_of_cons in Hin as [?|Hin]; [done|]); by apply elem_of_nil in Hin.
  - vm_compute. congruence.
  - apply lenZ_replicate. vm_compute. congruence.
  - cbn. lia.
  - apply replies_script. reflexivity.
Defined.

(** Finding.  An event without a name (the watched directory itself, or a watch that
    was removed) has [len] 0 and nothing behind it, but its name is printed all the
    same: at the end of what was read that is memory nobody has written. *)
Theorem nameless_event_reads_garbage wd mask cookie tl fuel f :
  0 ≤ mask < 2 ^ 32 → event_format mask = Some f →
  let bs := le_split 4 wd ++ le_split 4 mask ++ le_split 4 cookie ++ le_split 4 0 in
  event_walk (S fuel) ((Some <$> bs) ++ None :: tl) 0 16 = Undef Indeterminate.
Proof.
  intros Hm Hf bs. cbn [event_walk]. change (0 <? 16) with true. cbv iota.
  unfold event_at, EVENT_SIZE.
  rewrite load_Ok by (rewrite ?lenZ_app, ?lenZ_fmap; change (lenZ bs) with 16;
                      pose proof (lenZ_nonneg (@None Byte.byte :: tl)); lia).
  assert (slice ((Some <$> bs) ++ None :: tl) 0 16 = Some <$> bs) as -> by reflexivity.
  cbn [mbind outcome_bind]. rewrite defined_fmap. cbn [mbind outcome_bind].
  unfold event_lines. cbn [ev_len ev_mask].
  change (le_combine (drop 12 bs)) with 0. change (negb (0 =? 0)) with false. cbv iota.
  assert (le_combine (take 4 (drop 4 bs)) = mask) as ->.
  { apply (le_combine_split_small 4). change (2 ^ (8 * Z.of_nat 4)) with (2 ^ 32). lia. }
  cbn [mbind outcome_bind]. rewrite Hf. reflexivity.
Qed.
