(* ===== verification/Reactor.v ===== *)
(** * Reactor: [set/rtt/Fd.h], [Socket.h], [Connector.h], [IReactor.h],
      [Poll.h] and [Accept.h]

    A socket carries the events it is interested in; a reactor keeps the table
    of registered sockets and the [pollfd] array handed to [poll].  Sockets are
    objects with identity (the reactor stores [std::shared_ptr]s), so they live
    in a store; what [std::enable_shared_from_this] keeps is a field. *)

From S2P Require Import Prelude Endian Sys Sockops.

(** ** Fd *)

(** Bit-fields of widths 1, 2 and 3 that hold a [bool]. *)
Record Fd : Type := mkFd { read_ : Z; write_ : Z; error_ : Z; fd_id_ : Z }.

Definition bitfield (w : Z) (b : bool) : Z := Z.b2z b mod 2 ^ w.

Definition Fd_new (id : Z) (readenable writeenable errorenable : bool) : Fd :=
  {| read_ := bitfield 1 readenable; write_ := bitfield 2 writeenable;
     error_ := bitfield 3 errorenable; fd_id_ := id |}.

Definition readenable (f : Fd) : bool := negb (read_ f =? 0).
Definition writeenable (f : Fd) : bool := negb (write_ f =? 0).
Definition errorenable (f : Fd) : bool := negb (error_ f =? 0).
Definition responsable (f : Fd) : bool := readenable f || writeenable f || errorenable f.

(** The setters, before the virtual [update()] they end with. *)
Definition set_read (b : bool) (f : Fd) : Fd :=
  {| read_ := bitfield 1 b; write_ := write_ f; error_ := error_ f; fd_id_ := fd_id_ f |}.
Definition set_write (b : bool) (f : Fd) : Fd :=
  {| read_ := read_ f; write_ := bitfield 2 b; error_ := error_ f; fd_id_ := fd_id_ f |}.
Definition set_error (b : bool) (f : Fd) : Fd :=
  {| read_ := read_ f; write_ := write_ f; error_ := bitfield 3 b; fd_id_ := fd_id_ f |}.

(** ** Socket *)

Inductive socket_model : Type := LISTEN_SHARED | LISTEN_EXCLUSE | NORMAL.

#[global] Instance socket_model_eq_dec : EqDecision socket_model.
Proof. solve_decision. Defined.

(** A callback, by name. *)
Abbreviation callback := (option string).

(** [weak_this] is the [enable_shared_from_this] part: the object the control
    block owns, when a [shared_ptr] owns this object. *)
Record Socket : Type := mkSocket {
  base : Fd; id_ : Z; model_ : socket_model; weak_this : option nat;
  read_fun_ : callback; write_fun_ : callback
}.

(** [Socket(uint32_t id, ...)]: the base keeps the [uint32_t], [id_] is an [int]. *)
Definition Socket_new (id : Z) (model : socket_model) : Socket :=
  {| base := Fd_new (u32 id) false false false; id_ := i32 (u32 id); model_ := model;
     weak_this := None; read_fun_ := None; write_fun_ := None |}.

(** [Socket(reactor, model)]: a new TCP socket; a failure is not looked at. *)
Definition Socket_create (model : socket_model) : M Socket :=
  '(sock_fd, _) ← createSocket; mret (Socket_new sock_fd model).

Definition getId (s : Socket) : Z := id_ s.
Definition getModel (s : Socket) : socket_model := model_ s.

(** The implicit copy constructor: every member but [weak_this]. *)
Definition socket_copy (s : Socket) : Socket :=
  {| base := base s; id_ := id_ s; model_ := model_ s; weak_this := None;
     read_fun_ := read_fun_ s; write_fun_ := write_fun_ s |}.

Definition shared_from_this (s : Socket) : outcome nat :=
  match weak_this s with Some p => Ok p | None => Throw bad_weak_ptr end.

Definition shutdonw (s : Socket) : M unit :=
  c ← shutdown (id_ s) WR; hold_error_condition c.
Definition Socket_close (s : Socket) : M unit :=
  c ← close (id_ s); hold_error_condition c.

Definition set_base (s : Socket) (f : Fd) : Socket :=
  {| base := f; id_ := id_ s; model_ := model_ s; weak_this := weak_this s;
     read_fun_ := read_fun_ s; write_fun_ := write_fun_ s |}.
Definition setReadFunction (s : Socket) (f : callback) : Socket :=
  {| base := base s; id_ := id_ s; model_ := model_ s; weak_this := weak_this s;
     read_fun_ := f; write_fun_ := write_fun_ s |}.
Definition setWriteFunction (s : Socket) (f : callback) : Socket :=
  {| base := base s; id_ := id_ s; model_ := model_ s; weak_this := weak_this s;
     read_fun_ := read_fun_ s; write_fun_ := f |}.

(** ** The reactor interface *)

Class IReactor (R : Type) : Type := {
  r_add : R → Socket → outcome R;
  r_remove : R → Socket → R;
  r_update : R → Socket → R
}.

Section socket_reactor.
Context {R : Type} `{!IReactor R}.

(** [reactor_.lock()] is the argument [r]: [None] when the reactor is gone. *)
Definition registor (r : option R) (s : Socket) : outcome (bool * option R) :=
  match r with
  | None => Ok (false, None)
  | Some r => r ← r_add r s; Ok (true, Some r)
  end.

Definition Socket_update (r : option R) (s : Socket) : option R :=
  match r with None => None | Some r => Some (r_update r s) end.

(** The setters of [Fd] on a socket: change the bit, then [update()]. *)
Definition setReadenable (r : option R) (s : Socket) : Socket * option R :=
  let s := set_base s (set_read true (base s)) in (s, Socket_update r s).
Definition setReaddisable (r : option R) (s : Socket) : Socket * option R :=
  let s := set_base s (set_read false (base s)) in (s, Socket_update r s).
Definition setWriteenable (r : option R) (s : Socket) : Socket * option R :=
  let s := set_base s (set_write true (base s)) in (s, Socket_update r s).
Definition setWritedisable (r : option R) (s : Socket) : Socket * option R :=
  let s := set_base s (set_write false (base s)) in (s, Socket_update r s).
Definition setErrorenable (r : option R) (s : Socket) : Socket * option R :=
  let s := set_base s (set_error true (base s)) in (s, Socket_update r s).
Definition setErrordisable (r : option R) (s : Socket) : Socket * option R :=
  let s := set_base s (set_error false (base s)) in (s, Socket_update r s).
End socket_reactor.

(** ** Poll *)

(** [fdtbs_] maps a descriptor to the socket object; [event_handler_] is set or
    not. *)
Record Poll : Type := mkPoll {
  fds_ : list pollfd; fdtbs_ : gmap Z nat; event_handler_ : callback
}.

Definition Poll_new : Poll := {| fds_ := []; fdtbs_ := ∅; event_handler_ := None |}.

Definition registerEventFun (p : Poll) (handle : string) : Poll :=
  {| fds_ := fds_ p; fdtbs_ := fdtbs_ p; event_handler_ := Some handle |}.

Definition contains (p : Poll) (fd : Z) : bool := bool_decide (is_Some (fdtbs_ p !! fd)).

Definition event_bits (s : Socket) : Z :=
  let event := 0 in
  let event := if readenable (base s) then Z.lor event POLLIN else event in
  let event := if writeenable (base s) then Z.lor event POLLOUT else event in
  if errorenable (base s) then Z.lor event POLLERR else event.

(** [std::find_if] on the descriptor, then a write through the iterator. *)
Fixpoint update_first (id : Z) (f : pollfd → pollfd) (l : list pollfd) : list pollfd :=
  match l with
  | [] => []
  | p :: l => if fd p =? id then f p :: l else p :: update_first id f l
  end.

(** [add] once it has a [shared_ptr]: the table, an existing entry, a new one. *)
Definition add_commit (p : Poll) (socket : Socket) (ptr : nat) : Poll :=
  let id := getId socket in
  let tbs := if contains p id then fdtbs_ p else <[id := ptr]> (fdtbs_ p) in
  let event := event_bits socket in
  let fds := update_first id
               (λ e, {| fd := getId socket; events := event; revents := revents e |}) (fds_ p) in
  {| fds_ := fds ++ [{| fd := id; events := event; revents := 0 |}];
     fdtbs_ := tbs; event_handler_ := event_handler_ p |}.

(** [auto socket = dynamic_cast<const net::Socket&>(unique)] copies the object. *)
Definition add (p : Poll) (unique : Socket) : outcome Poll :=
  let socket := socket_copy unique in
  let already :=
    match getModel socket with
    | LISTEN_SHARED => false
    | LISTEN_EXCLUSE | NORMAL => contains p (getId unique)
    end in
  if already then Ok p
  else
    ptr ← shared_from_this socket;
    Ok (add_commit p socket ptr).

Definition remove (p : Poll) (unique : Socket) : Poll :=
  let socket := socket_copy unique in
  if negb (contains p (getId socket)) then p
  else {| fds_ := filter (λ e, fd e ≠ getId unique) (fds_ p);
          fdtbs_ := delete (getId socket) (fdtbs_ p);
          event_handler_ := event_handler_ p |}.

Definition update (p : Poll) (unique : Socket) : Poll :=
  let socket := socket_copy unique in
  {| fds_ := update_first (getId socket)
               (λ e, {| fd := fd e; events := event_bits socket; revents := revents e |}) (fds_ p);
     fdtbs_ := fdtbs_ p; event_handler_ := event_handler_ p |}.

#[global] Instance Poll_reactor : IReactor Poll :=
  { r_add := add; r_remove := remove; r_update := update }.

(** A call of the event handler: the socket object and the three flags. *)
Record dispatch : Type := mkdispatch {
  d_socket : nat; d_read : bool; d_write : bool; d_error : bool
}.

(** [num] is a [size_t]; [store] holds the sockets the table points to. *)
Fixpoint event_handler (p : Poll) (store : gmap nat Socket) (num : Z)
    (listend_fds : list pollfd) : outcome (list dispatch) :=
  match listend_fds with
  | [] => Ok []
  | f :: rest =>
      if num =? 0 then Ok [] else
      if negb (fd f =? -1) && contains p (fd f) then
        match fdtbs_ p !! fd f with
        | None => Undef NullPointer
        | Some ptr =>
            match store !! ptr with
            | None => Undef NullPointer
            | Some socket =>
                if responsable (base socket) then
                  match event_handler_ p with
                  | None => Throw bad_function_call
                  | Some _ =>
                      ds ← event_handler p store (num ⊖ 1) rest;
                      Ok (mkdispatch ptr
                            (negb (Z.land (revents f) POLLIN =? 0))
                            (negb (Z.land (revents f) POLLOUT =? 0))
                            (negb (Z.land (revents f) POLLERR =? 0)) :: ds)
                  end
                else event_handler p store num rest
            end
        end
      else event_handler p store num rest
  end.

(** What [poll] wrote into the array. *)
Fixpoint with_revents (l : list pollfd) (rs : list Z) : list pollfd :=
  match l with
  | [] => []
  | p :: l =>
      {| fd := fd p; events := events p; revents := default 0 (head rs) |}
        :: with_revents l (tail rs)
  end.

(** [run(timestamp)]: the array is copied under the lock, [poll] blocks without
    it; the timeout is the [uint64_t] converted to [int]. *)
Definition Poll_run (p : Poll) (store : gmap nat Socket) (timestamp : Z)
    : M (error_condition * list dispatch) :=
  let listend_fds := fds_ p in
  r ← call (sys_poll listend_fds (i32 timestamp));
  if r_ret r <? 0 then c ← from_errno; mret (c, [])
  else
    tv ← call sys_gettimeofday;
    if r_ret tv <? 0 then c ← from_errno; mret (c, [])
    else
      ds ← lift (event_handler p store (r_ret r) (with_revents listend_fds (r_ints r)));
      mret (no_error, ds).

(** ** Connector and Accept *)

(** [std::any]: empty, or a [T*] (the only use is with [Translation*]). *)
Inductive any : Type := any_empty | any_pointer (p : nat).

Record Connector : Type := mkConnector { c_socket : Socket; data_ : any }.

Definition Connector_new (fd : Z) (model : socket_model) : Connector :=
  {| c_socket := Socket_new fd model; data_ := any_empty |}.
Definition setData (c : Connector) (p : nat) : Connector :=
  {| c_socket := c_socket c; data_ := any_pointer p |}.
(** [std::any_cast<T*>(data_)] *)
Definition getData (c : Connector) : outcome nat :=
  match data_ c with any_pointer p => Ok p | any_empty => Throw bad_any_cast end.
Definition getRawHandler (c : Connector) : Z := getId (c_socket c).

Record Accept : Type := mkAccept { a_socket : Socket; on_new_connect_ : bool }.

Definition Accept_new (model : socket_model) : M Accept :=
  s ← Socket_create model;
  mret {| a_socket := setReadFunction s (Some "create"); on_new_connect_ := false |}.

Definition setOnNewConnect (a : Accept) : Accept :=
  {| a_socket := a_socket a; on_new_connect_ := true |}.

Section accept.
Context {R : Type} `{!IReactor R}.

Definition build (a : Accept) (r : option R) (ip : string) (port : Z)
    : M (error_condition * Accept * option R) :=
  addr ← call (sys_inet_net_pton AF_INET ip);
  if r_ret addr <? 0 then
    _ ← print "ip is seted fail"; c ← from_errno; mret (c, a, r)
  else
    let peer_addr := mkaddr AF_INET (host2network uint16_t (u16 port)) (r_int addr 0) in
    b ← call (sys_bind (getId (a_socket a)) peer_addr);
    if r_ret b <? 0 then
      _ ← print "bind fail"; c ← from_errno; mret (c, a, r)
    else
      _ ← listen (getId (a_socket a)) 10;
      '(_, r) ← lift (registor r (a_socket a));
      let '(s, r) := setReaddisable r (a_socket a) in
      mret (no_error, {| a_socket := s; on_new_connect_ := on_new_connect_ a |}, r).
End accept.

(** [create()], with the registered callback and the state it works on. *)
Definition create {S} (a : Accept) (on_new_connect : Connector → S → M S) (st : S)
    : M (option Connector * S) :=
  '(connect_fd, cond) ← accept (getId (a_socket a));
  if is_error cond then
    _ ← hold_error_condition cond; mret (None, st)
  else
    let connector := Connector_new connect_fd NORMAL in
    st ← (if on_new_connect_ a then on_new_connect connector st else mret st);
    mret (Some connector, st).
