(* ===== verification/ReactorSpec.v ===== *)
(** * ReactorSpec: the tables of the reactor and its dispatch

    The invariant that ties the [pollfd] array of [Poll] to its table of sockets,
    what each operation of [Reactor] does to it, and which sockets a pass of
    [event_handler] calls. *)

From S2P Require Import Prelude Sys Sockops Reactor.

(** ** Consistent tables *)

(** The array and the table hold the same descriptors, each once in the array. *)
Record consistent (p : Poll) : Prop := {
  same_fds : ∀ id, id ∈ fd <$> fds_ p ↔ is_Some (fdtbs_ p !! id);
  nodup_fds : NoDup (fd <$> fds_ p)
}.

Lemma contains_spec p id : contains p id = true ↔ is_Some (fdtbs_ p !! id).
Proof. unfold contains. apply bool_decide_eq_true. Qed.

Lemma contains_false p id : contains p id = false ↔ fdtbs_ p !! id = None.
Proof. unfold contains. rewrite bool_decide_eq_false. by rewrite eq_None_not_Some. Qed.

(** Writing through the iterator of [find_if] keeps the descriptors when the
    written entry keeps its own. *)
Lemma update_first_fds id f l :
  (∀ e, fd e = id → fd (f e) = id) → fd <$> update_first id f l = fd <$> l.
Proof.
  intros Hf. induction l as [|e l IH]; [done|]. cbn [update_first].
  destruct (fd e =? id) eqn:E; zbool; rewrite !fmap_cons; [|by rewrite IH].
  by rewrite (Hf e E), E.
Qed.

Lemma update_first_notin id f l : id ∉ fd <$> l → update_first id f l = l.
Proof.
  induction l as [|e l IH]; [done|]. cbn [update_first]. rewrite fmap_cons, not_elem_of_cons.
  intros [Hne Hl]. rewrite (proj2 (Z.eqb_neq _ _)) by done. by rewrite IH.
Qed.

Lemma Poll_new_consistent : consistent Poll_new.
Proof.
  constructor; cbn; [|constructor]. intros id.
  rewrite lookup_empty. split; [set_solver|]. intros [? ?]; discriminate.
Qed.

(** What [add] does to fresh descriptors once it holds a [shared_ptr]. *)
Lemma add_commit_fresh p s ptr :
  consistent p → contains p (getId s) = false →
  add_commit p s ptr =
    {| fds_ := fds_ p ++ [{| fd := getId s; events := event_bits s; revents := 0 |}];
       fdtbs_ := <[getId s := ptr]> (fdtbs_ p); event_handler_ := event_handler_ p |}.
Proof.
  intros [Hs Hn] Hc. unfold add_commit. rewrite Hc.
  rewrite update_first_notin; [done|]. rewrite Hs.
  apply contains_false in Hc. rewrite Hc. by intros [? ?].
Qed.

Lemma add_commit_consistent p s ptr :
  consistent p → contains p (getId s) = false → consistent (add_commit p s ptr).
Proof.
  intros Hp Hc. rewrite add_commit_fresh by done. destruct Hp as [Hs Hn].
  apply contains_false in Hc.
  constructor; cbn [fds_ fdtbs_]; rewrite fmap_app; cbn.
  - intros id. rewrite elem_of_app, Hs, list_elem_of_singleton.
    destruct (decide (id = getId s)) as [->|Hne].
    + rewrite lookup_insert_eq. split; eauto.
    + rewrite lookup_insert_ne by done. split; [|auto]. by intros [?|?].
  - apply NoDup_app. split; [done|]. split; [|apply NoDup_singleton].
    intros id Hid. rewrite list_elem_of_singleton. intros ->.
    apply Hs in Hid. rewrite Hc in Hid. by destruct Hid.
Qed.

Lemma filter_fds id (l : list pollfd) : fd <$> filter (λ e, fd e ≠ id) l = filter (.≠ id) (fd <$> l).
Proof.
  induction l as [|e l IH]; [done|]. rewrite fmap_cons, !filter_cons.
  repeat case_decide; try done. by rewrite fmap_cons, IH.
Qed.

Lemma remove_consistent p s : consistent p → consistent (remove p s).
Proof.
  intros Hp. unfold remove. destruct (contains _ _) eqn:Hc; cbn [negb]; [|done].
  destruct Hp as [Hs Hn]. cbn [socket_copy getId id_] in *.
  constructor; cbn [fds_ fdtbs_]; rewrite filter_fds.
  - intros i. rewrite list_elem_of_filter, Hs. unfold getId.
    destruct (decide (i = id_ s)) as [->|Hne].
    + rewrite lookup_delete_eq. split; [by intros [? _]|by intros [? ?]].
    + rewrite lookup_delete_ne by done. naive_solver.
  - by apply NoDup_filter.
Qed.

Lemma update_consistent p s : consistent p → consistent (update p s).
Proof.
  intros [Hs Hn]. unfold update.
  constructor; cbn [fds_ fdtbs_]; rewrite update_first_fds; try done.
Qed.

Lemma remove_add_commit p s ptr :
  consistent p → contains p (getId s) = false → remove (add_commit p s ptr) s = p.
Proof.
  intros Hp Hc. rewrite add_commit_fresh by done. unfold remove.
  rewrite (proj2 (contains_spec _ _)) by (cbn; rewrite lookup_insert_eq; eauto).
  cbn [negb socket_copy getId id_ fds_ fdtbs_ event_handler_].
  destruct Hp as [Hs Hn]. apply contains_false in Hc. unfold getId in *.
  rewrite filter_app, delete_insert_eq, delete_id by done. rewrite filter_cons.
  cbn [fd]. rewrite decide_False by (intros H; by apply H).
  rewrite filter_nil, app_nil_r.
  assert (Hf : filter (λ e, fd e ≠ id_ s) (fds_ p) = fds_ p).
  { apply filter_all. intros e He Heq.
    assert (Hin : id_ s ∈ fd <$> fds_ p) by (rewrite <- Heq; by apply list_elem_of_fmap_2).
    apply Hs in Hin. rewrite Hc in Hin. by destruct Hin. }
  rewrite Hf. by destruct p.
Qed.

(** ** Registration through the public interface *)

Inductive poll_op : Type :=
| PAdd (s : Socket) | PRemove (s : Socket) | PUpdate (s : Socket) | PHandler (h : string).

(** One call; an exception leaves the tables as they were when it was thrown
    (nothing has been written at that point). *)
Definition poll_exec (p : Poll) (o : poll_op) : Poll :=
  match o with
  | PAdd s => match add p s with Ok p' => p' | _ => p end
  | PRemove s => remove p s
  | PUpdate s => update p s
  | PHandler h => registerEventFun p h
  end.

Lemma add_copies p s :
  add p s = Throw bad_weak_ptr ∨ (contains p (getId s) = true ∧ add p s = Ok p).
Proof.
  unfold add. cbn [socket_copy getModel model_ getId id_].
  destruct (model_ s); [by left|..]; unfold getId; destruct (contains p (id_ s)); auto.
Qed.

Lemma poll_exec_empty p o :
  fds_ p = [] → fdtbs_ p = ∅ → fds_ (poll_exec p o) = [] ∧ fdtbs_ (poll_exec p o) = ∅.
Proof.
  intros Hf Ht. destruct o as [s|s|s|h]; cbn [poll_exec]; auto.
  - destruct (add_copies p s) as [->|[_ ->]]; auto.
  - unfold remove. rewrite (proj2 (contains_false p _)) by (by rewrite Ht). auto.
  - unfold update. cbn. by rewrite Hf.
Qed.

(** C31: The reactor registers nothing.  [Poll::add] copies the socket it is given and asks the copy
    for a [shared_ptr]; no control block owns the copy, so registering throws
    [std::bad_weak_ptr].  Hence, whatever sequence of calls the reactor
    receives ([add], [remove], [update], [registerEventFun], in any order), every
    [add] throws, both tables stay empty, and [run] dispatches no event, whatever
    [poll] answers. *)
Theorem poll_never_registers os store timestamp k w :
  let p := foldl poll_exec Poll_new os in
  fds_ p = [] ∧ fdtbs_ p = ∅ ∧
  (∀ s, add p s = Throw bad_weak_ptr) ∧
  ∃ c w', Poll_run p store timestamp k w = (Ok (c, []), w').
Proof.
  intros p.
  assert (Hp : fds_ p = [] ∧ fdtbs_ p = ∅).
  { subst p. assert (H0 : fds_ Poll_new = [] ∧ fdtbs_ Poll_new = ∅) by done.
    revert H0. generalize Poll_new. induction os as [|o os IH]; intros p [Hf Ht]; [done|].
    cbn [foldl]. apply IH. by apply poll_exec_empty. }
  destruct Hp as [Hf Ht]. split; [done|]. split; [done|]. split.
  - intros s. destruct (add_copies p s) as [?|[Hc _]]; [done|].
    apply contains_spec in Hc as [x Hx]. rewrite Ht in Hx. discriminate.
  - unfold Poll_run. rewrite Hf. cbn [with_revents event_handler]. sys_run.
    destruct (r_ret _ <? 0); [by do 2 eexists|]. sys_run.
    destruct (r_ret _ <? 0); by do 2 eexists.
Qed.

(** The part of [add] behind [shared_from_this], which no call gets to as the code
    stands ([poll_never_registers]).  On a consistent reactor a fresh socket is entered once in both tables, removing
    it restores the previous state, and [remove] and [update] keep the tables
    consistent. *)
Theorem poll_tables_roundtrip p s ptr :
  consistent p → contains p (getId s) = false →
  consistent (add_commit p s ptr) ∧
  fdtbs_ (add_commit p s ptr) !! getId s = Some ptr ∧
  remove (add_commit p s ptr) s = p ∧
  (∀ s', consistent (remove p s') ∧ consistent (update p s')).
Proof.
  intros Hp Hc. split; [by apply add_commit_consistent|].
  split; [rewrite add_commit_fresh by done; apply lookup_insert_eq|].
  split; [by apply remove_add_commit|].
  intros s'. split; [by apply remove_consistent|by apply update_consistent].
Qed.

(** Finding.  Entering a shared listening socket a second time updates its
    entry and then appends another one for the same descriptor. *)
Theorem add_commit_duplicates p s ptr ptr' :
  consistent p → contains p (getId s) = false →
  ¬ NoDup (fd <$> fds_ (add_commit (add_commit p s ptr) s ptr')).
Proof.
  intros Hp Hc Hn. rewrite (add_commit_fresh p) in Hn by done.
  unfold add_commit in Hn. cbn [fds_] in Hn.
  rewrite fmap_app, update_first_fds, fmap_app in Hn by done. cbn in Hn.
  apply NoDup_app in Hn as (_ & Hd & _). apply (Hd (getId s)); set_solver.
Qed.

(** ** Dispatch *)

(** The entries the loop of [event_handler] counts. *)
Definition answering (p : Poll) (store : gmap nat Socket) (e : pollfd) : bool :=
  negb (fd e =? -1) &&
  match fdtbs_ p !! fd e with
  | Some ptr => match store !! ptr with
                | Some s => responsable (base s) | None => false end
  | None => false
  end.

Definition dispatch_of (p : Poll) (e : pollfd) : dispatch :=
  mkdispatch (default 0%nat (fdtbs_ p !! fd e))
    (negb (Z.land (revents e) POLLIN =? 0)) (negb (Z.land (revents e) POLLOUT =? 0))
    (negb (Z.land (revents e) POLLERR =? 0)).

(** The table only points to live objects. *)
Definition alive (p : Poll) (store : gmap nat Socket) : Prop :=
  ∀ id ptr, fdtbs_ p !! id = Some ptr → is_Some (store !! ptr).

(** C30: Dispatch.  The handler is called, in array order, for the first [num]
    registered sockets that are interested in some event, with the flags of
    their [revents]; it is not called for any other entry. *)
Theorem event_handler_spec p store num l h :
  alive p store → event_handler_ p = Some h → 0 ≤ num < 2 ^ 64 →
  event_handler p store num l =
    Ok (dispatch_of p <$> take (Z.to_nat num) (List.filter (answering p store) l)).
Proof.
  intros Ha Hh. revert num. induction l as [|e l IH]; intros num Hnum; cbn [event_handler].
  { cbn [List.filter]. by rewrite take_nil. }
  destruct (num =? 0) eqn:E0; zbool; [by subst|].
  cbn [List.filter]. unfold answering at 1, contains.
  destruct (fd e =? -1) eqn:E1; cbn [negb andb]; [by apply IH|].
  destruct (fdtbs_ p !! fd e) as [ptr|] eqn:Ep.
  2: { rewrite bool_decide_false by (by intros [? ?]). cbn [andb]. by apply IH. }
  rewrite bool_decide_true by eauto. cbn [andb].
  destruct (Ha _ _ Ep) as [s Hs]. rewrite Hs.
  destruct (responsable (base s)); [|by apply IH].
  rewrite Hh, u64_small, IH by lia. cbn [mbind outcome_bind].
  replace (Z.to_nat num) with (S (Z.to_nat (num - 1))) by lia. cbn [take].
  rewrite fmap_cons. unfold dispatch_of at 2. by rewrite Ep.
Qed.

(** Finding.  The budget [num] counts ready descriptors, but the loop spends
    it on sockets with no event: with one ready descriptor behind an idle one,
    the idle socket is handed an empty notification and the ready one nothing. *)
Theorem event_handler_starves id1 id2 ptr1 ptr2 s1 s2 h :
  id1 ≠ id2 → id1 ≠ -1 → id2 ≠ -1 → responsable (base s1) = true → ptr1 ≠ ptr2 →
  let p := {| fds_ := []; fdtbs_ := {[id1 := ptr1; id2 := ptr2]}; event_handler_ := Some h |} in
  event_handler p {[ptr1 := s1; ptr2 := s2]} 1
    [mkpollfd id1 POLLIN 0; mkpollfd id2 POLLIN POLLIN] =
  Ok [mkdispatch ptr1 false false false].
Proof.
  intros H12 H1 H2 Hr Hp p. cbn [event_handler]. unfold contains. subst p.
  cbn [fd fdtbs_ event_handler_]. rewrite (proj2 (Z.eqb_neq id1 (-1))) by done.
  rewrite lookup_insert_eq, bool_decide_true by eauto. cbn [negb andb].
  rewrite lookup_insert_eq, Hr. reflexivity.
Qed.

(** The event mask of a socket has exactly the bits of the events it is
    interested in. *)
Theorem event_bits_spec s :
  negb (Z.land (event_bits s) POLLIN =? 0) = readenable (base s) ∧
  negb (Z.land (event_bits s) POLLOUT =? 0) = writeenable (base s) ∧
  negb (Z.land (event_bits s) POLLERR =? 0) = errorenable (base s).
Proof.
  unfold event_bits.
  destruct (readenable (base s)), (writeenable (base s)), (errorenable (base s)); done.
Qed.

(** Finding.  [Accept::build] registers the listening socket with the
    reactor, so with a live [Poll] and a successful [bind] it ends in
    [std::bad_weak_ptr] for every kernel: the acceptor is never built. *)
Theorem accept_build_throws a p ip port k w :
  model_ (a_socket a) = LISTEN_SHARED →
  let r1 := k (trace w) (sys_inet_net_pton AF_INET ip) in
  0 ≤ r_ret r1 →
  (∀ addr h, 0 ≤ r_ret (k h (sys_bind (getId (a_socket a)) addr))) →
  (build a (Some p) ip port k w).1 = Throw bad_weak_ptr.
Proof.
  intros Hm r1 H1 H2. unfold build. sys_run. fold r1.
  rewrite (proj2 (Z.ltb_ge (r_ret r1) 0)) by done. sys_run.
  rewrite (proj2 (Z.ltb_ge _ 0)) by apply H2. sys_run. unfold listen. sys_run.
  destruct (r_ret _ <? 0); cbn [from_errno]; sys_run; unfold registor;
    (destruct (add_copies p (a_socket a)) as [E|[_ E]];
     [cbn [r_add Poll_reactor]; rewrite E; done
     |exfalso; unfold add in E; cbn [socket_copy getModel model_] in E;
      rewrite Hm in E; discriminate]).
Qed.

(** ** Concrete instances *)

Definition listener (id : Z) : Socket := Socket_new id LISTEN_SHARED.
Definition watching (id : Z) : Socket :=
  set_base (Socket_new id NORMAL) (set_read true (base (Socket_new id NORMAL))).

Lemma poll_tables_roundtrip_witness :
  let p := add_commit Poll_new (listener 3) 1%nat in
  consistent p ∧ fdtbs_ p !! 3 = Some 1%nat ∧ remove p (listener 3) = Poll_new ∧
  (∀ s', consistent (remove Poll_new s') ∧ consistent (update Poll_new s')).
Proof.
  exact (poll_tables_roundtrip Poll_new (listener 3) 1%nat Poll_new_consistent eq_refl).
Defined.

Lemma add_commit_duplicates_witness :
  ¬ NoDup (fd <$> fds_ (add_commit (add_commit Poll_new (listener 3) 1%nat) (listener 3) 1%nat)).
Proof.
  exact (add_commit_duplicates Poll_new (listener 3) 1%nat 1%nat Poll_new_consistent eq_refl).
Defined.

Definition two_sockets : Poll :=
  registerEventFun (add_commit (add_commit Poll_new (watching 3) 0%nat) (watching 4) 1%nat) "handleEvent".
Definition two_store : gmap nat Socket := {[0%nat := watching 3; 1%nat := watching 4]}.

Lemma event_handler_spec_witness :
  event_handler two_sockets two_store 2 [mkpollfd 3 1 POLLIN; mkpollfd 4 1 POLLOUT] =
    Ok (dispatch_of two_sockets <$> take 2 (List.filter (answering two_sockets two_store)
          [mkpollfd 3 1 POLLIN; mkpollfd 4 1 POLLOUT])) ∧
  event_handler two_sockets two_store 2 [mkpollfd 3 1 POLLIN; mkpollfd 4 1 POLLOUT] =
    Ok [mkdispatch 0 true false false; mkdispatch 1 false true false].
Proof.
  split; [|vm_compute; reflexivity].
  apply (event_handler_spec two_sockets two_store 2 _ "handleEvent");
    [|reflexivity|split; [discriminate|reflexivity]].
  intros id ptr Hl. unfold two_sockets, two_store in *.
  cbn [registerEventFun fdtbs_] in Hl.
  assert (Hp : ptr = 0%nat ∨ ptr = 1%nat).
  { revert Hl. unfold add_commit. cbn [fdtbs_ Poll_new].
    repeat match goal with |- context [if ?b then _ else _] => destruct b end;
      rewrite ?lookup_insert, ?lookup_empty; repeat case_decide; intros [=]; auto. }
  destruct Hp as [->| ->]; vm_compute; eauto.
Defined.

Lemma event_handler_starves_witness :
  event_handler {| fds_ := []; fdtbs_ := {[3 := 0%nat; 4 := 1%nat]}; event_handler_ := Some "h" |}
    {[0%nat := watching 3; 1%nat := watching 4]} 1
    [mkpollfd 3 POLLIN 0; mkpollfd 4 POLLIN POLLIN] = Ok [mkdispatch 0 false false false].
Proof.
  apply (event_handler_starves 3 4 0%nat 1%nat (watching 3) (watching 4) "h");
    (discriminate || reflexivity).
Defined.

Lemma accept_build_throws_witness :
  (build {| a_socket := listener 3; on_new_connect_ := true |} (Some Poll_new) "127.0.0.1" 9909
     (λ _ _, ok_reply 0) world0).1 = Throw bad_weak_ptr.
Proof.
  apply (accept_build_throws {| a_socket := listener 3; on_new_connect_ := true |});
    [reflexivity|discriminate|intros; discriminate].
Defined.
