(* ===== verification/Rtt.v ===== *)
(** * Rtt: [set/rtt/rtt_common.h] and [set/rtt/rtt_client.cpp]

    The 24-byte package both ends exchange, the microsecond clock, and the
    client: it stamps a package, sends it, reads the server's answer and
    computes the round-trip time and the clock difference. *)

From S2P Require Import Prelude Endian Buffer Sys Sockops.
From coqutil Require Import Byte Word.LittleEndianList.
From stdpp Require Import pretty.

#[local] Open Scope Z_scope.

(** ** The package *)

(** The fields hold the integers as they are in memory (network order on the
    wire, so byte-swapped on this host). *)
Record rtt_package : Type := mkpkg { c_send_ts : Z; s_recv_ts : Z; s_send_ts : Z }.

Definition sizeof_rtt_package : Z := 24.

(** The object representation, and the object a byte string is copied over
    (missing bytes leave the zeros [bzero] wrote). *)
Definition pkg_bytes (p : rtt_package) : list Byte.byte :=
  le_split 8 (c_send_ts p) ++ le_split 8 (s_recv_ts p) ++ le_split 8 (s_send_ts p).

Definition pkg_of_bytes (bs : list Byte.byte) : rtt_package :=
  let m := take 24 (bs ++ replicate 24 Byte.x00) in
  {| c_send_ts := le_combine (slice m 0 8); s_recv_ts := le_combine (slice m 8 8);
     s_send_ts := le_combine (slice m 16 8) |}.

(** [timeval2ui64]: [long] arithmetic, converted to [uint64_t] on return. *)
Definition timeval2ui64 (tv_sec tv_usec : Z) : outcome Z :=
  let p := tv_sec * 1000000 in
  if (p <? - 2 ^ 63) || (2 ^ 63 <=? p) then Undef SignedOverflow else
  let s := p + tv_usec in
  if (s <? - 2 ^ 63) || (2 ^ 63 <=? s) then Undef SignedOverflow else Ok (u64 s).

(** [gettimeofday(&val, nullptr)] followed by [timeval2ui64(val)]. *)
Definition now : M Z :=
  tv ← call sys_gettimeofday; lift (timeval2ui64 (r_int tv 0) (r_int tv 1)).

(** ** The client *)

Definition RttClient_new : M Z := '(sock_fd_, _) ← createSocket; mret sock_fd_.

(** The two values [Connect] returns, from the four time stamps. *)
Definition rtt_of (c sr ss recv_time : Z) : Z := (recv_time ⊖ c) ⊖ (ss ⊖ sr).
Definition diff_of (c sr ss recv_time : Z) : Z :=
  let a := recv_time ⊖ ss in
  let b := sr ⊖ c in
  i64 ((Z.max a b ⊖ Z.min a b) / 2).

Definition Connect (sock_fd_ : Z) (ip : string) (port : Z) : M (Z * Z) :=
  addr ← call (sys_inet_net_pton AF_INET ip);
  if r_ret addr <? 0 then e ← get_errno; throw (system_error e) else
  let peer_addr := mkaddr AF_INET (host2network uint16_t port) (r_int addr 0) in
  _ ← connect sock_fd_ peer_addr;
  t ← now;
  let pck := {| c_send_ts := host2network uint64_t t; s_recv_ts := 0; s_send_ts := 0 |} in
  write_size ← call (sys_write sock_fd_ (pkg_bytes pck));
  _ ← lift (cassert (u64 (r_ret write_size) =? sizeof_rtt_package));
  read_size ← call (sys_read sock_fd_ sizeof_rtt_package);
  let pck := pkg_of_bytes (r_bytes read_size) in
  _ ← lift (cassert (u64 (r_ret read_size) =? sizeof_rtt_package));
  recv_time ← now;
  let s_recv := network2host uint64_t (s_recv_ts pck) in
  let c_send := network2host uint64_t (c_send_ts pck) in
  let s_send := network2host uint64_t (s_send_ts pck) in
  _ ← print "c send time"; _ ← print "s recv time";
  _ ← print "s send time"; _ ← print "c recv time";
  mret (rtt_of c_send s_recv s_send recv_time, diff_of c_send s_recv s_send recv_time).

(** [main] of [rtt_client.cpp]; [%lu] shows both numbers as unsigned. *)
Definition client_port : Z := 9966.
Definition client_line (v : Z * Z) : string :=
  "rtt is " +:+ pretty (u64 v.1) +:+ ", time diff is " +:+ pretty (u64 v.2) +:+ " ".
Definition rtt_client_main : M Z :=
  sock_fd_ ← RttClient_new;
  rtt ← Connect sock_fd_ "127.0.0.1" client_port;
  _ ← print (client_line rtt);
  mret 0.

(** ** Lemmas on the package *)

Lemma length_pkg_bytes p : length (pkg_bytes p) = 24%nat.
Proof. unfold pkg_bytes. by rewrite !length_app, !length_le_split. Qed.

Lemma pkg_of_bytes_exact bs :
  length bs = 24%nat →
  pkg_of_bytes bs = {| c_send_ts := le_combine (take 8 bs);
                       s_recv_ts := le_combine (take 8 (drop 8 bs));
                       s_send_ts := le_combine (take 8 (drop 16 bs)) |}.
Proof.
  intros Hl. unfold pkg_of_bytes. rewrite take_app_le, take_ge by lia. done.
Qed.

Lemma pkg_roundtrip p :
  in_range uint64_t (c_send_ts p) → in_range uint64_t (s_recv_ts p) →
  in_range uint64_t (s_send_ts p) → pkg_of_bytes (pkg_bytes p) = p.
Proof.
  intros H1 H2 H3. rewrite pkg_of_bytes_exact by apply length_pkg_bytes.
  unfold pkg_bytes. destruct p as [c sr ss]. cbn [c_send_ts s_recv_ts s_send_ts] in *.
  assert (L : ∀ x, length (le_split 8 x) = 8%nat) by (intros; apply length_le_split).
  f_equal.
  - rewrite take_app_length' by done. by apply le_combine_split_small.
  - rewrite drop_app_length', take_app_length' by done. by apply le_combine_split_small.
  - change 16%nat with (8 + 8)%nat.
    rewrite <- drop_drop, drop_app_length', drop_app_length', take_ge by (rewrite ?L; done).
    by apply le_combine_split_small.
Qed.

Lemma timeval2ui64_Ok s u :
  0 ≤ s < 2 ^ 43 → 0 ≤ u < 1000000 → timeval2ui64 s u = Ok (s * 1000000 + u).
Proof.
  intros Hs Hu. unfold timeval2ui64.
  rewrite (proj2 (Z.ltb_ge (s * 1000000) _)), (proj2 (Z.leb_gt _ (s * 1000000))) by lia.
  cbn [orb].
  rewrite (proj2 (Z.ltb_ge (s * 1000000 + u) _)), (proj2 (Z.leb_gt _ (s * 1000000 + u))) by lia.
  by rewrite u64_small by lia.
Qed.

(** ** The two results *)

Lemma u64_sub_mod a b : u64 a ⊖ u64 b = u64 (a - b).
Proof. unfold u64. by rewrite <- Zminus_mod. Qed.

Lemma i64_half x : 0 ≤ x < 2 ^ 64 → i64 (x / 2) = x / 2.
Proof.
  intros H. assert (0 ≤ x / 2 < 2 ^ 63).
  { split; [apply Z.div_pos; lia|apply Z.div_lt_upper_bound; lia]. }
  unfold i64, signed. rewrite Z.mod_small by lia.
  by rewrite (proj2 (Z.ltb_lt (x / 2) (2 ^ (64 - 1)))) by lia.
Qed.

(** The four stamps of one exchange that starts at client time [T0]: the request
    travels [d1], the server works for [p], the answer travels [d2], and the
    server's clock is [theta] ahead of the client's. *)
Section exchange.
Variables T0 d1 p d2 theta : Z.
Definition stamp_c : Z := u64 T0.
Definition stamp_sr : Z := u64 (T0 + d1 + theta).
Definition stamp_ss : Z := u64 (T0 + d1 + p + theta).
Definition stamp_recv : Z := u64 (T0 + d1 + p + d2).

Lemma legs :
  stamp_recv ⊖ stamp_ss = u64 (d2 - theta) ∧ stamp_sr ⊖ stamp_c = u64 (d1 + theta).
Proof.
  unfold stamp_c, stamp_sr, stamp_ss, stamp_recv. rewrite !u64_sub_mod.
  split; f_equal; lia.
Qed.

(** The round-trip time is independent of the two clocks: whatever the offset
    between them, the time the server spends and the epoch, and through wrap-around
    of the stamps, the result is the time spent on the wire. *)
Lemma rtt_legs : rtt_of stamp_c stamp_sr stamp_ss stamp_recv = u64 (d1 + d2).
Proof.
  unfold rtt_of, stamp_c, stamp_sr, stamp_ss, stamp_recv.
  rewrite (u64_sub_mod _ T0), (u64_sub_mod (T0 + d1 + p + theta)), u64_sub_mod.
  f_equal. lia.
Qed.

(** While the offset is within the two travel times, the reported difference
    is half of [|d1 - d2 + 2 theta|]; with equal travel times it is the absolute
    clock offset. *)
Theorem diff_within_delay :
  0 ≤ d1 < 2 ^ 62 → 0 ≤ d2 < 2 ^ 62 → - d1 ≤ theta ≤ d2 →
  diff_of stamp_c stamp_sr stamp_ss stamp_recv = Z.abs (d1 - d2 + 2 * theta) / 2 ∧
  (d1 = d2 → diff_of stamp_c stamp_sr stamp_ss stamp_recv = Z.abs theta).
Proof.
  intros H1 H2 Ht. unfold diff_of. destruct legs as [-> ->]. u64_solve.
  assert (E : i64 ((Z.max (d2 - theta) (d1 + theta) - Z.min (d2 - theta) (d1 + theta)) / 2)
              = Z.abs (d1 - d2 + 2 * theta) / 2).
  { replace (Z.max _ _ - Z.min _ _) with (Z.abs (d1 - d2 + 2 * theta)) by lia.
    apply i64_half; lia. }
  split; [done|]. intros ->. rewrite E.
  replace (Z.abs _) with (Z.abs theta * 2) by lia. by rewrite Z.div_mul.
Qed.

(** Finding.  Once the server's clock is ahead by more than the answer's
    travel time, the subtraction [recv_time - s_send_ts] wraps around and the
    reported difference is more than [2^62] microseconds, whatever the real
    offset is. *)
Theorem diff_wraps_beyond_delay :
  0 ≤ d1 < 2 ^ 60 → 0 ≤ d2 < 2 ^ 60 → d2 < theta < 2 ^ 60 →
  2 ^ 62 < diff_of stamp_c stamp_sr stamp_ss stamp_recv ∧
  rtt_of stamp_c stamp_sr stamp_ss stamp_recv = d1 + d2.
Proof.
  intros H1 H2 Ht. split.
  - unfold diff_of. destruct legs as [-> ->].
    rewrite (u64_wrap_neg (d2 - theta)), (u64_small (d1 + theta)) by lia.
    rewrite Z.max_l, Z.min_r, u64_small, i64_half by lia.
    apply Z.lt_le_trans with ((2 ^ 63 + 2) / 2); [done|apply Z.div_le_mono; lia].
  - rewrite rtt_legs. apply u64_small. lia.
Qed.
End exchange.

Lemma diff_within_delay_witness :
  diff_of (stamp_c 1000) (stamp_sr 1000 50 7) (stamp_ss 1000 50 3 7)
          (stamp_recv 1000 50 3 50) = Z.abs (50 - 50 + 2 * 7) / 2 ∧
  (50 = 50 → diff_of (stamp_c 1000) (stamp_sr 1000 50 7) (stamp_ss 1000 50 3 7)
                     (stamp_recv 1000 50 3 50) = Z.abs 7).
Proof. apply (diff_within_delay 1000 50 3 50 7); lia. Defined.

Lemma diff_wraps_beyond_delay_witness :
  2 ^ 62 < diff_of (stamp_c 1000) (stamp_sr 1000 50 90) (stamp_ss 1000 50 3 90)
                   (stamp_recv 1000 50 3 50) ∧
  rtt_of (stamp_c 1000) (stamp_sr 1000 50 90) (stamp_ss 1000 50 3 90)
         (stamp_recv 1000 50 3 50) = 50 + 50.
Proof. apply (diff_wraps_beyond_delay 1000 50 3 50 90); lia. Defined.

(** ** The client's protocol *)

(** [now] makes one call and returns a 64-bit value, or overflows. *)
Lemma now_run k w :
  let r := k (trace w) sys_gettimeofday in
  now k w = (timeval2ui64 (r_int r 0) (r_int r 1),
             {| trace := trace w ++ [(sys_gettimeofday, r)];
                errno := match r_errno r with Some e => e | None => errno w end |}).
Proof. reflexivity. Qed.

Lemma timeval2ui64_range s u t : timeval2ui64 s u = Ok t → in_range uint64_t t.
Proof. unfold timeval2ui64. zcases; cbn; intros; simplify_eq. by destruct orb, orb; simplify_eq; apply u64_range. Qed.

Lemma now_inv k w t w' :
  now k w = (Ok t, w') →
  ∃ tv, trace w' = trace w ++ [(sys_gettimeofday, tv)] ∧
        timeval2ui64 (r_int tv 0) (r_int tv 1) = Ok t.
Proof. rewrite now_run. intros [= Ht <-]. by eexists. Qed.

Lemma connect_inv fd a k w c w' :
  connect fd a k w = (Ok c, w') → ∃ r, trace w' = trace w ++ [(sys_connect fd a, r)].
Proof.
  unfold connect. intros H. sys_inv H. exists v. destruct (r_ret v <? 0); by injection H as _ <-.
Qed.

Lemma cassert_inv b u : cassert b = Ok u → b = true.
Proof. by destruct b. Qed.

Lemma stamped_image t :
  in_range uint64_t t →
  be_combine (take 8 (pkg_bytes {| c_send_ts := host2network uint64_t t;
                                   s_recv_ts := 0; s_send_ts := 0 |})) = t.
Proof.
  intros Ht. unfold pkg_bytes. cbn [c_send_ts].
  rewrite take_app_length' by (by rewrite length_le_split).
  change 8%nat with (sizeof uint64_t). rewrite host2network_image. by apply be_combine_split.
Qed.

(** The calls of a successful measurement. *)
Definition Connect_calls (sock_fd_ : Z) (ip : string) (port addr : Z)
    (request : list Byte.byte) : list syscall :=
  [sys_inet_net_pton AF_INET ip;
   sys_connect sock_fd_ (mkaddr AF_INET (host2network uint16_t port) addr);
   sys_gettimeofday; sys_write sock_fd_ request; sys_read sock_fd_ 24; sys_gettimeofday;
   sys_print "c send time"; sys_print "s recv time";
   sys_print "s send time"; sys_print "c recv time"].

Definition field (bs : list Byte.byte) (i : nat) : Z := be_combine (take 8 (drop (8 * i) bs)).

Lemma pkg_of_bytes_fields bs :
  length bs = 24%nat →
  network2host uint64_t (c_send_ts (pkg_of_bytes bs)) = field bs 0 ∧
  network2host uint64_t (s_recv_ts (pkg_of_bytes bs)) = field bs 1 ∧
  network2host uint64_t (s_send_ts (pkg_of_bytes bs)) = field bs 2.
Proof.
  intros Hl. rewrite pkg_of_bytes_exact by done. cbn [c_send_ts s_recv_ts s_send_ts].
  rewrite !network2host_stream by (cbn [sizeof]; rewrite length_take, ?length_drop; lia).
  done.
Qed.

(** [v] is the result of a measurement whose calls lead from [w] to [w']. *)
Definition measurement (sock_fd_ : Z) (ip : string) (port : Z) (w : world) (v : Z * Z)
    (w' : world) : Prop :=
  ∃ addr request rp rc tv rw rr tv' o1 o2 o3 o4 t t',
    trace w' = trace w ++ zip (Connect_calls sock_fd_ ip port addr request)
                              [rp; rc; tv; rw; rr; tv'; o1; o2; o3; o4] ∧
    timeval2ui64 (r_int tv 0) (r_int tv 1) = Ok t ∧
    timeval2ui64 (r_int tv' 0) (r_int tv' 1) = Ok t' ∧
    length request = 24%nat ∧ be_combine (take 8 request) = t ∧
    u64 (r_ret rw) = 24 ∧ u64 (r_ret rr) = 24 ∧
    (length (r_bytes rr) = 24%nat →
     let ans := r_bytes rr in
     v = (rtt_of (field ans 0) (field ans 1) (field ans 2) t',
          diff_of (field ans 0) (field ans 1) (field ans 2) t')).

(** The calls and the result of a [Connect] that returns. *)
Lemma Connect_measures sock_fd_ ip port k w v w' :
  Connect sock_fd_ ip port k w = (Ok v, w') → measurement sock_fd_ ip port w v w'.
Proof.
  unfold Connect. intros H. sys_inv H.
  destruct (r_ret v0 <? 0); [by sys_inv H|]. sys_inv H. apply connect_inv in E0 as [rc E0].
  apply bind_inv in H as (t & w3 & Et & H). apply now_inv in Et as (tv & Et & Htv).
  do 2 sys_inv H. do 2 sys_inv H.
  apply bind_inv in H as (t' & w6 & Et' & H). apply now_inv in Et' as (tv' & Et' & Htv').
  do 4 sys_inv H. apply mret_inv in H as [-> ->].
  repeat match goal with H : cassert _ = _ |- _ => apply cassert_inv, Z.eqb_eq in H end.
  do 14 eexists. split; [|split; [exact Htv|split; [exact Htv'|]]].
  { repeat match goal with H : trace _ = _ |- _ => rewrite H; clear H end.
    rewrite <- !app_assoc. reflexivity. }
  split; [apply length_pkg_bytes|].
  split; [by apply stamped_image, (timeval2ui64_range _ _ _ Htv)|].
  split; [done|]. split; [done|]. intros Hl. cbv zeta.
  by destruct (pkg_of_bytes_fields _ Hl) as (-> & -> & ->).
Qed.

(** C25: Protocol of the client.  Whenever [Connect] returns, it made exactly the
    calls of a measurement, in order; the request is 24 bytes that carry the
    first clock reading in network order; [write] and [read] both reported 24
    bytes (anything else fails an assertion); and the result is computed from
    the three big-endian fields of the answer and the second clock reading. *)
Theorem Connect_protocol sock_fd_ ip port k w v w' :
  Connect sock_fd_ ip port k w = (Ok v, w') → measurement sock_fd_ ip port w v w'.
Proof. apply Connect_measures. Qed.

(** [main] creates a socket, measures over it and writes the line of the two results. *)
Theorem rtt_client_main_reports k w w' :
  rtt_client_main k w = (Ok 0, w') →
  ∃ fd c w1 w2 v o,
    createSocket k w = (Ok (fd, c), w1) ∧
    measurement fd "127.0.0.1" client_port w1 v w2 ∧
    trace w' = trace w2 ++ [(sys_print (client_line v), o)].
Proof.
  unfold rtt_client_main, RttClient_new. intros H.
  apply bind_inv in H as (fd & w1 & E1 & H). apply bind_inv in E1 as ([fd' c] & w1' & E1 & E2).
  apply mret_inv in E2 as [-> ->].
  apply bind_inv in H as (v & w2 & E2 & H). apply Connect_measures in E2.
  sys_inv H. apply mret_inv in H as [_ ->].
  do 6 eexists. split; [exact E1|]. split; [exact E2|]. done.
Qed.

(** A run: sent at 1.000000 s, stamped by the server at 1.000070 s and
    1.000080 s, received at 1.000100 s. *)
Definition answer_bytes (c sr ss : Z) : list Byte.byte :=
  be_split 8 c ++ be_split 8 sr ++ be_split 8 ss.

Definition sample_kernel : kernel :=
  script [ints_reply 32 [0x0100007f]; ok_reply 0; ints_reply 0 [1; 0]; ok_reply 24;
          data_reply (answer_bytes 1000000 1000070 1000080); ints_reply 0 [1; 100]].

Lemma Connect_protocol_witness :
  (Connect 3 "127.0.0.1" 9966 sample_kernel world0).1 = Ok (90, 25) ∧
  measurement 3 "127.0.0.1" 9966 world0 (90, 25)
    (Connect 3 "127.0.0.1" 9966 sample_kernel world0).2.
Proof.
  split; [vm_compute; reflexivity|].
  apply (Connect_protocol 3 "127.0.0.1" 9966 sample_kernel). vm_compute. reflexivity.
Defined.
