(* ===== verification/Thread.v ===== *)
(** * Thread: [set/thread_pool/Count.h] and [set/thread_pool/Thread.h]

    [Count] is a count-down latch on a [uint16_t]; [Thread] starts a thread and
    uses a latch of one so that its constructor returns only once the new thread
    has set its name.  The two threads interleave as a transition system. *)

From S2P Require Import Prelude.

(** ** Count *)

Record Count : Type := mkCount { count_ : Z }.

Definition Count_new (count : Z) : Count := mkCount (u16 count).

(** [down]: the new count, and whether it notifies. *)
Definition down (c : Count) : Count * bool :=
  let n := u16 (count_ c - 1) in (mkCount n, n =? 0).

(** The predicate [wait] blocks on. *)
Definition wait_over (c : Count) : bool := count_ c =? 0.

Fixpoint downs (n : nat) (c : Count) : Count :=
  match n with O => c | S n => downs n (down c).1 end.

Lemma downs_count n c :
  0 ≤ count_ c < 2 ^ 16 → Z.of_nat n ≤ count_ c → count_ (downs n c) = count_ c - Z.of_nat n.
Proof.
  revert c. induction n as [|n IH]; intros c Hc Hn; [cbn; lia|].
  cbn [downs down fst]. unfold u16. rewrite Z.mod_small by lia.
  rewrite IH; cbn [count_]; lia.
Qed.

(** The latch.  A latch of [count] opens exactly with its [count]-th [down],
    and one [down] more wraps the counter around and closes it again, for good:
    a later [wait] blocks. *)
Theorem count_opens_once count n :
  0 < count < 2 ^ 16 → Z.of_nat n ≤ count →
  (wait_over (downs n (Count_new count)) = true ↔ Z.of_nat n = count) ∧
  wait_over (down (downs (Z.to_nat count) (Count_new count))).1 = false.
Proof.
  intros Hc Hn. assert (H16 : count_ (Count_new count) = count) by (cbn; unfold u16; rewrite Z.mod_small; lia).
  assert (HD : ∀ m, Z.of_nat m ≤ count → count_ (downs m (Count_new count)) = count - Z.of_nat m).
  { intros m Hm. rewrite downs_count; rewrite H16; lia. }
  unfold wait_over. split.
  - rewrite HD by lia. rewrite Z.eqb_eq. lia.
  - cbn [down fst count_]. rewrite HD by lia.
    replace (count - Z.of_nat (Z.to_nat count) - 1) with (-1) by lia. reflexivity.
Qed.

Lemma count_opens_once_witness :
  (wait_over (downs 1 (Count_new 1)) = true ↔ Z.of_nat 1 = 1) ∧
  wait_over (down (downs (Z.to_nat 1) (Count_new 1))).1 = false.
Proof. apply (count_opens_once 1 1); lia. Defined.

(** ** Thread *)

(** The creating thread: before the member [thread_] is initialised; after the new thread
    exists; after its handle is stored in [thread_], before [once_.wait()]; with the mutex,
    before the test of the predicate; asleep on the condition variable; awake, without the
    mutex; after the wait (the constructor returns); after the destructor's [join]. *)
Inductive parent : Type :=
| PInit | PSpawned | PStored | PLocked | PWaiting | PWoken | PReturned | PJoined.

(** The new thread in [Thread::run]: not there yet; before [set_thread_name]; before
    [once_.down()]; in it with the mutex; counted down and, at zero, notified, still with
    the mutex; in the callback; finished (a callback that throws is caught). *)
Inductive child : Type := CNone | CStart | CNamed | CLocked | CDown | CRunning | CDone.

#[global] Instance parent_eq_dec : EqDecision parent.
Proof. solve_decision. Defined.
#[global] Instance child_eq_dec : EqDecision child.
Proof. solve_decision. Defined.

(** [handle_read]: [set_thread_name] read [thread_], and whether the handle was
    there. *)
Record Thread : Type := mkThread {
  name_ : string; once_ : Count; par : parent; chi : child; handle_read : option bool
}.

Definition Thread_new (name : string) : Thread :=
  mkThread name (Count_new 1) PInit CNone None.

(** [thread_] holds the handle once the creating thread has stored it. *)
Definition stored (p : parent) : bool :=
  match p with PInit | PSpawned => false | _ => true end.

Definition set_thread_name (t : Thread) : option bool :=
  if bool_decide (name_ t = EmptyString) then handle_read t else Some (stored (par t)).

(** [mut_] is free. *)
Definition mut_free (p : parent) (c : child) : bool :=
  match p, c with PLocked, _ | _, (CLocked | CDown) => false | _, _ => true end.

(** [notify_all], if it is called. *)
Definition notified (b : bool) (p : parent) : parent :=
  match p with PWaiting => if b then PWoken else PWaiting | _ => p end.

Section Steps.
(** Whether the callback ends (it returns, or throws). *)
Variable func_ends : bool.

Inductive tstep : Thread → Thread → Prop :=
| t_spawn n o h :
    tstep (mkThread n o PInit CNone h) (mkThread n o PSpawned CStart h)
| t_store n o c h :
    tstep (mkThread n o PSpawned c h) (mkThread n o PStored c h)
| t_wait_lock n o c h :
    mut_free PStored c = true → tstep (mkThread n o PStored c h) (mkThread n o PLocked c h)
| t_wait_test n o c h :
    tstep (mkThread n o PLocked c h)
          (mkThread n o (if wait_over o then PReturned else PWaiting) c h)
| t_wait_relock n o c h :
    mut_free PWoken c = true → tstep (mkThread n o PWoken c h) (mkThread n o PLocked c h)
| t_join n o h :
    tstep (mkThread n o PReturned CDone h) (mkThread n o PJoined CDone h)
| t_name n o p h :
    tstep (mkThread n o p CStart h)
          (mkThread n o p CNamed (set_thread_name (mkThread n o p CStart h)))
| t_down_lock n o p h :
    mut_free p CNamed = true → tstep (mkThread n o p CNamed h) (mkThread n o p CLocked h)
| t_down n o p h :
    tstep (mkThread n o p CLocked h) (mkThread n (down o).1 (notified (down o).2 p) CDown h)
| t_down_unlock n o p h :
    tstep (mkThread n o p CDown h) (mkThread n o p CRunning h)
| t_func n o p h :
    func_ends = true → tstep (mkThread n o p CRunning h) (mkThread n o p CDone h).

(** A wait that wakes up without a notification. *)
Inductive tspurious : Thread → Thread → Prop :=
| t_spurious n o c h : tspurious (mkThread n o PWaiting c h) (mkThread n o PWoken c h).

Definition any_tstep (t t' : Thread) : Prop := tstep t t' ∨ tspurious t t'.
Definition treachable (n : string) (t : Thread) : Prop := rtc any_tstep (Thread_new n) t.

(** The new thread has counted the latch down; is past it; has been through
    [set_thread_name]. *)
Definition counted (c : child) : bool :=
  match c with CDown | CRunning | CDone => true | _ => false end.
Definition past_latch (c : child) : bool :=
  match c with CRunning | CDone => true | _ => false end.
Definition past_name (c : child) : bool :=
  match c with CNone | CStart => false | _ => true end.

(** Which control points go together. *)
Definition together (p : parent) (c : child) : bool :=
  match p, c with
  | PInit, CNone => true
  | PInit, _ | _, CNone => false
  | PLocked, _ => match c with CLocked | CDown => false | _ => true end
  | PWaiting, _ => negb (counted c)
  | PReturned, _ => past_latch c
  | PJoined, CDone => true
  | PJoined, _ => false
  | _, _ => true
  end.

Record tinv (n : string) (t : Thread) : Prop := {
  ti_count : count_ (once_ t) = if counted (chi t) then 0 else 1;
  ti_together : together (par t) (chi t) = true;
  ti_done : chi t = CDone → func_ends = true;
  ti_name : name_ t = n;
  ti_read : past_name (chi t) = true → n ≠ EmptyString → is_Some (handle_read t)
}.

Lemma tinv_step n t t' : any_tstep t t' → tinv n t → tinv n t'.
Proof.
  intros [Hs|[m o c h]] [Hc Ht Hd Hn Hr]; [|by constructor; cbn in *; [|destruct c| | |]].
  destruct Hs as [m o h|m o c h|m o c h Hf|m o c h|m o c h Hf|m o h|m o p h|m o p h Hf|m o p h|m o p h|m o p h He];
    cbn in *; constructor; cbn; try done; try (by destruct c); try (by destruct p).
  - unfold wait_over. rewrite Hc. by destruct c.
  - intros _ Hne. unfold set_thread_name. cbn. subst m. by rewrite bool_decide_eq_false_2.
  - by rewrite Hc.
  - rewrite Hc. by destruct p.
Qed.

Lemma tinv_reachable n t : treachable n t → tinv n t.
Proof.
  intros Hr. unfold treachable in Hr.
  assert (H0 : tinv n (Thread_new n)) by done.
  induction Hr; eauto using tinv_step.
Qed.

(** How many steps are left, spurious wake-ups apart. *)
Definition pweight (p : parent) : nat :=
  match p with
  | PInit => 12 | PSpawned => 4 | PStored | PWoken => 3 | PLocked => 2
  | PWaiting | PReturned => 1 | PJoined => 0
  end.
Definition cweight (c : child) : nat :=
  match c with
  | CStart => 7 | CNamed => 6 | CLocked => 5 | CDown => 2 | CRunning => 1 | CNone | CDone => 0
  end.
Definition tweight (t : Thread) : nat := pweight (par t) + cweight (chi t).

Lemma tstep_weight t t' : tstep t t' → (tweight t' < tweight t)%nat.
Proof.
  destruct 1; unfold tweight; cbn; try lia.
  - destruct (wait_over o); cbn; lia.
  - destruct p; cbn; try lia. destruct (_ =? 0); cbn; lia.
Qed.

Lemma tsteps_weight k t t' : nsteps tstep k t t' → (k + tweight t' ≤ tweight t)%nat.
Proof. induction 1 as [|k t1 t2 t3 H _ IH]; [lia|]. apply tstep_weight in H. lia. Qed.

(** Where the two threads are when neither can go on. *)
Lemma tstuck n t :
  tinv n t → (∀ t', ¬ tstep t t') →
  if func_ends then par t = PJoined ∧ chi t = CDone else par t = PReturned ∧ chi t = CRunning.
Proof.
  intros [Hc Ht Hd _ _] Hs. destruct t as [m o p c h]. cbn in *.
  assert (c ≠ CLocked ∧ c ≠ CDown ∧ c ≠ CStart) as (C1 & C2 & C3).
  { split_and!; intros ->; [eapply Hs, t_down|eapply Hs, t_down_unlock|eapply Hs, t_name]. }
  assert (p ≠ PLocked) as P1 by (intros ->; eapply Hs, t_wait_test).
  assert (p ≠ PSpawned) as P2 by (intros ->; eapply Hs, t_store).
  assert (c ≠ CNamed) as C4 by (intros ->; eapply Hs, t_down_lock; by destruct p).
  assert (p ≠ PStored) as P3 by (intros ->; eapply Hs, t_wait_lock; by destruct c).
  assert (p ≠ PWoken) as P4 by (intros ->; eapply Hs, t_wait_relock; by destruct c).
  assert (p ≠ PInit) as P5 by (intros ->; destruct c; try done; eapply Hs, t_spawn).
  destruct func_ends eqn:Ef.
  - assert (c ≠ CRunning) as C5 by (intros ->; by eapply Hs, t_func).
    destruct c; try done; destruct p; try done. exfalso. eapply Hs, t_join.
  - destruct c; try done; try (by destruct p). by specialize (Hd eq_refl).
Qed.
End Steps.

(** C35: Handshake.  In every interleaving and with spurious wake-ups: when the constructor
    has returned, the new thread has been through [set_thread_name] (with a name, it has
    used the handle, stored or not: [thread_name_race]) and through the latch, which it
    opens once; when the destructor's join has returned, the callback is over; neither
    thread sleeps for good: a state in which no thread can go on is one where both are
    finished or, when the callback never ends, one where the constructor has returned and
    the destructor waits for it; and that is reached after at most 12 steps. *)
Theorem thread_handshake func_ends n t :
  treachable func_ends n t →
  (par t = PReturned ∨ par t = PJoined →
     past_latch (chi t) = true ∧ count_ (once_ t) = 0 ∧ (n ≠ EmptyString → is_Some (handle_read t))) ∧
  (par t = PJoined → chi t = CDone) ∧
  ((∀ t', ¬ tstep func_ends t t') →
     if func_ends then par t = PJoined ∧ chi t = CDone else par t = PReturned ∧ chi t = CRunning) ∧
  (∀ k, nsteps (tstep func_ends) k (Thread_new n) t → (k ≤ 12)%nat).
Proof.
  intros Hr. pose proof (tinv_reachable _ _ _ Hr) as Hi. pose proof Hi as [Hc Ht _ _ Hn].
  split; [|split; [|split]].
  - intros [E|E]; rewrite E in Ht; destruct (chi t); try done; split_and!; auto.
  - intros E. rewrite E in Ht. by destruct (chi t).
  - by eapply tstuck.
  - intros k Hk. apply tsteps_weight in Hk. cbn in Hk. lia.
Qed.

(** Finding.  The new thread names itself through the member [thread_] while
    the creating thread may not have stored the handle there yet: for every
    non-empty name a run exists in which it reads [thread_] too early. *)
Theorem thread_name_race n :
  n ≠ EmptyString →
  ∃ t, treachable true n t ∧ chi t = CNamed ∧ handle_read t = Some false.
Proof.
  intros Hn. eexists. split.
  - eapply rtc_l; [left; apply t_spawn|]. eapply rtc_l; [left; apply t_name|]. apply rtc_refl.
  - split; [done|]. cbn. unfold set_thread_name. cbn. by rewrite bool_decide_eq_false_2.
Qed.

(** A complete life of a thread: the constructor goes to sleep before the latch opens. *)
Definition joined : Thread := mkThread "thread" (mkCount 0) PJoined CDone (Some true).

Lemma joined_steps : nsteps (tstep true) 12 (Thread_new "thread") joined.
Proof.
  econstructor; [apply t_spawn|]. econstructor; [apply t_store|].
  econstructor; [apply t_wait_lock; reflexivity|]. econstructor; [apply t_wait_test|].
  econstructor; [apply t_name|]. econstructor; [apply t_down_lock; reflexivity|].
  econstructor; [apply t_down|]. econstructor; [apply t_down_unlock|].
  econstructor; [apply t_wait_relock; reflexivity|]. econstructor; [apply t_wait_test|].
  econstructor; [apply t_func; reflexivity|]. econstructor; [apply t_join|]. apply nsteps_O.
Defined.

Lemma thread_handshake_witness :
  treachable true "thread" joined ∧ par joined = PJoined ∧ chi joined = CDone ∧
  past_latch (chi joined) = true ∧ (12 ≤ 12)%nat.
Proof.
  assert (treachable true "thread" joined) as Hr.
  { apply (rtc_subrel (tstep true)); [by left|]. exact (rtc_nsteps_2 _ _ _ joined_steps). }
  destruct (thread_handshake true "thread" joined Hr) as (H1 & H2 & _ & H4).
  split; [done|]. split; [done|]. split; [by apply H2|]. split; [by apply H1; right|].
  exact (H4 12%nat joined_steps).
Defined.

Lemma thread_name_race_witness :
  ∃ t, treachable true "thread" t ∧ chi t = CNamed ∧ handle_read t = Some false.
Proof. apply (thread_name_race "thread"). discriminate. Defined.
