(* ===== verification/ThreadPool.v ===== *)
(** * ThreadPool: [set/thread_pool/ThreadPool.h]

    Worker threads share a deque of tasks, a stop flag, a mutex and a condition
    variable.  The pool is a transition system: a step is one critical section
    (mutual exclusion makes it atomic), one notification, or the end of a task;
    worker and client threads interleave in any order, and a wait may wake up
    spuriously.  Ghost fields record what was pushed, started and finished. *)

From S2P Require Import Prelude.

Abbreviation task := nat.

(** A worker in [bind_run]: about to lock; running a task; blocked in
    [cond_.wait]; left the loop. *)
Inductive worker : Type := WReady | WRun (t : task) | WWait | WExit.

#[global] Instance worker_eq_dec : EqDecision worker.
Proof. solve_decision. Defined.

(** What a client thread still has to do.  [push] and [stop] are a critical
    section followed by a notification outside of it. *)
Inductive action : Type := APush (t : task) | ANotifyOne | AStop | ANotifyAll.

#[global] Instance action_eq_dec : EqDecision action.
Proof. solve_decision. Defined.

Definition push (t : task) : list action := [APush t; ANotifyOne].
Definition stop : list action := [AStop; ANotifyAll].

(** A client thread makes calls of the two, one after the other. *)
Inductive call : Type := CPush (t : task) | CStop.

#[global] Instance call_eq_dec : EqDecision call.
Proof. solve_decision. Defined.

Definition call_actions (c : call) : list action :=
  match c with CPush t => push t | CStop => stop end.
Definition client_of (cs : list call) : list action := cs ≫= call_actions.

Record pool : Type := mkpool {
  stoped : bool;
  tasks : list task;
  workers : list worker;
  clients : list (list action);
  pushed : list task;
  started : list task;
  finished : list task
}.

(** [ThreadPool()]: [hardware_concurrency] threads, 4 when it is unknown. *)
Definition max_thread_nums (hardware_concurrency : nat) : nat :=
  if (hardware_concurrency <? 1)%nat then 4 else hardware_concurrency.

Definition ThreadPool_new (hardware_concurrency : nat) (cs : list (list action)) : pool :=
  mkpool false [] (replicate (max_thread_nums hardware_concurrency) WReady) cs [] [] [].

(** [~ThreadPool() {}] destroys [trds_]: a [std::thread] stays joinable until it
    is joined or detached, and destroying a joinable one calls
    [std::terminate]. *)
Definition ThreadPool_destroy (p : pool) : outcome unit :=
  match workers p with [] => Ok tt | _ => Exit 134 end.

(** [notify_all]. *)
Definition wake (w : worker) : worker := match w with WWait => WReady | _ => w end.

(** One step of a worker, as [bind_run] takes it. *)
Definition set_worker (p : pool) (j : nat) (w : worker) : pool :=
  mkpool (stoped p) (tasks p) (<[j := w]> (workers p)) (clients p) (pushed p) (started p)
         (finished p).
Definition set_client (p : pool) (i : nat) (as' : list action) : pool :=
  mkpool (stoped p) (tasks p) (workers p) (<[i := as']> (clients p)) (pushed p) (started p)
         (finished p).

(** The critical section of [bind_run]. *)
Definition critical (p : pool) (j : nat) : pool :=
  match tasks p with
  | t :: ts =>
      mkpool (stoped p) ts (<[j := WRun t]> (workers p)) (clients p) (pushed p)
             (started p ++ [t]) (finished p)
  | [] => if stoped p then set_worker p j WExit else set_worker p j WWait
  end.

(** The task returns, or throws and the exception is caught. *)
Definition finish (p : pool) (j : nat) (t : task) : pool :=
  mkpool (stoped p) (tasks p) (<[j := WReady]> (workers p)) (clients p) (pushed p)
         (started p) (finished p ++ [t]).

Definition emplace_back (p : pool) (t : task) : pool :=
  mkpool (stoped p) (tasks p ++ [t]) (workers p) (clients p) (pushed p ++ [t]) (started p)
         (finished p).
Definition set_stoped (p : pool) : pool :=
  mkpool true (tasks p) (workers p) (clients p) (pushed p) (started p) (finished p).
Definition notify_all (p : pool) : pool :=
  mkpool (stoped p) (tasks p) (wake <$> workers p) (clients p) (pushed p) (started p)
         (finished p).

Inductive step : pool → pool → Prop :=
| s_critical p j :
    workers p !! j = Some WReady → step p (critical p j)
| s_finish p j t :
    workers p !! j = Some (WRun t) → step p (finish p j t)
| s_push p i t rest :
    clients p !! i = Some (APush t :: rest) →
    step p (set_client (emplace_back p t) i rest)
| s_stop p i rest :
    clients p !! i = Some (AStop :: rest) →
    step p (set_client (set_stoped p) i rest)
| s_notify_one p i rest j :
    clients p !! i = Some (ANotifyOne :: rest) → workers p !! j = Some WWait →
    step p (set_client (set_worker p j WReady) i rest)
| s_notify_nobody p i rest :
    clients p !! i = Some (ANotifyOne :: rest) → WWait ∉ workers p →
    step p (set_client p i rest)
| s_notify_all p i rest :
    clients p !! i = Some (ANotifyAll :: rest) →
    step p (set_client (notify_all p) i rest).

(** A wait that returns without a notification. *)
Inductive spurious : pool → pool → Prop :=
| s_spurious p j :
    workers p !! j = Some WWait → spurious p (set_worker p j WReady).

Definition any_step (p p' : pool) : Prop := step p p' ∨ spurious p p'.

(** ** Conservation and order *)

Definition running1 (w : worker) : option task := match w with WRun t => Some t | _ => None end.
Definition running (ws : list worker) : list task := omap running1 ws.

Lemma omap_insert {A B} (f : A → option B) (l : list A) j x y :
  l !! j = Some x →
  option_list (f x) ++ omap f (<[j := y]> l) ≡ₚ option_list (f y) ++ omap f l.
Proof.
  revert j. induction l as [|z l IH]; intros [|j] Hj; try done; cbn in Hj.
  - injection Hj as ->. cbn [insert list_insert]. cbn.
    destruct (f x), (f y); cbn; try done. apply Permutation_swap.
  - cbn [insert list_insert]. specialize (IH j Hj). cbn.
    destruct (f z) as [b|]; [|done].
    change (b :: omap f (<[j:=y]> l)) with ([b] ++ omap f (<[j:=y]> l)).
    change (b :: omap f l) with ([b] ++ omap f l).
    rewrite !(Permutation_app_swap_app _ [b]). by rewrite IH.
Qed.

Lemma running_insert ws j w w' :
  ws !! j = Some w →
  option_list (running1 w) ++ running (<[j := w']> ws) ≡ₚ option_list (running1 w') ++ running ws.
Proof. apply omap_insert. Qed.

Lemma running_wake ws : running (wake <$> ws) = running ws.
Proof.
  unfold running. induction ws as [|w ws IH]; [done|].
  rewrite fmap_cons. cbn [omap list_omap]. rewrite IH. by destruct w.
Qed.

Record conserved (p : pool) : Prop := {
  co_fifo : pushed p = started p ++ tasks p;
  co_done : started p ≡ₚ finished p ++ running (workers p)
}.

Lemma conserved_step p p' : any_step p p' → conserved p → conserved p'.
Proof.
  intros [Hs|Hs] [Hf Hd].
  - destruct Hs as [p j Hj|p j t Hj|p i t rest Hi|p i rest Hi|p i rest j Hi Hj|p i rest Hi Hn|p i rest Hi];
      unfold critical, finish, set_client, set_worker, emplace_back, set_stoped, notify_all;
      try (constructor; cbn; done).
    + pose proof (running_insert (workers p) j WReady) as HR.
      destruct (tasks p) as [|t ts] eqn:Et; [destruct (stoped p)|]; constructor; cbn;
        rewrite ?Et; try done.
      * by rewrite (HR WExit Hj : running _ ≡ₚ running _).
      * by rewrite (HR WWait Hj : running _ ≡ₚ running _).
      * by rewrite Hf, <- app_assoc.
      * rewrite (HR (WRun t) Hj : running _ ≡ₚ t :: running _), Hd. solve_Permutation.
    + constructor; cbn; [done|]. rewrite Hd.
      rewrite <- (running_insert (workers p) j (WRun t) WReady Hj : t :: running _ ≡ₚ running _).
      solve_Permutation.
    + constructor; cbn; [|done]. by rewrite Hf, app_assoc.
    + constructor; cbn; [done|].
      by rewrite (running_insert (workers p) j WWait WReady Hj : running _ ≡ₚ running _).
    + constructor; cbn; [done|]. by rewrite running_wake.
  - destruct Hs as [p j Hj]. constructor; cbn; [done|].
    by rewrite (running_insert (workers p) j WWait WReady Hj : running _ ≡ₚ running _).
Qed.

Lemma running_replicate n : running (replicate n WReady) = [].
Proof. unfold running. by induction n. Qed.

Lemma conserved_new n cs : conserved (ThreadPool_new n cs).
Proof. constructor; cbn; [done|]. by rewrite running_replicate. Qed.

Definition reachable (p0 p : pool) : Prop := rtc any_step p0 p.

Lemma invariant_rtc (I : pool → Prop) p0 p :
  (∀ p p', any_step p p' → I p → I p') → I p0 → reachable p0 p → I p.
Proof. intros Hs H0 Hr. induction Hr; eauto. Qed.

(** ** Wake-ups *)

(** The rest of a client that is inside [push] or [stop], or between two calls: the
    notification of the call is still ahead. *)
Fixpoint proper (c : list action) : Prop :=
  match c with
  | [] => True
  | APush _ :: r => head r = Some ANotifyOne ∧ proper r
  | AStop :: r => head r = Some ANotifyAll ∧ proper r
  | _ :: r => proper r
  end.

Definition awake (w : worker) : bool :=
  match w with WReady | WRun _ => true | _ => false end.

(** Somebody is about to do [a]. *)
Definition pending (p : pool) (a : action) : Prop :=
  ∃ i rest, clients p !! i = Some (a :: rest).

Record attended (p : pool) : Prop := {
  at_proper : Forall proper (clients p);
  at_task : WWait ∈ workers p → tasks p ≠ [] →
            pending p ANotifyOne ∨ ∃ w, w ∈ workers p ∧ awake w = true;
  at_stop : WWait ∈ workers p → stoped p = true → pending p ANotifyAll;
  at_exit : WExit ∈ workers p → stoped p = true
}.

Lemma client_proper cs : proper (client_of cs).
Proof. induction cs as [|[t|] cs IH]; [done|..]; by repeat split. Qed.

Lemma clients_proper (ccs : list (list call)) : Forall proper (client_of <$> ccs).
Proof. apply Forall_fmap, Forall_forall. intros cs _. apply client_proper. Qed.

Lemma proper_tail a r : proper (a :: r) → proper r.
Proof. destruct a; cbn; tauto. Qed.

(** A client that has not moved is still about to do what it was. *)
Lemma pending_other p i b rest' a :
  pending p a → clients p !! i = Some (b :: rest') → a ≠ b →
  ∀ p', clients p' = <[i := rest']> (clients p) → pending p' a.
Proof.
  intros (i' & r & Hi') Hi Hne p' Hp'. exists i', r. rewrite Hp'.
  rewrite list_lookup_insert_ne; [done|]. intros ->. rewrite Hi in Hi'. congruence.
Qed.

(** The client that moves is next at the notification of its operation. *)
Lemma pending_next p i b rest a :
  clients p !! i = Some (b :: rest) → head rest = Some a →
  ∀ p', clients p' = <[i := rest]> (clients p) → pending p' a.
Proof.
  intros Hi Hh p' Hp'. destruct rest as [|a' rest]; [done|]. injection Hh as ->.
  exists i, rest. rewrite Hp'. apply list_lookup_insert_eq. by eapply lookup_lt_Some.
Qed.

Lemma proper_clients p i b rest :
  Forall proper (clients p) → clients p !! i = Some (b :: rest) →
  Forall proper (<[i := rest]> (clients p)).
Proof.
  intros HF Hi. apply Forall_insert; [done|]. rewrite Forall_lookup in HF.
  by eapply proper_tail, HF.
Qed.

Lemma elem_of_insert_worker (ws : list worker) j w x :
  x ∈ <[j := w]> ws → x = w ∨ x ∈ ws.
Proof.
  intros [k Hk]%list_elem_of_lookup. destruct (decide (j = k)) as [<-|Hne].
  - apply lookup_lt_Some in Hk as Hl. rewrite length_insert in Hl.
    rewrite list_lookup_insert_eq in Hk by done. left. congruence.
  - rewrite list_lookup_insert_ne in Hk by done. right. by eapply list_elem_of_lookup_2.
Qed.

Lemma insert_worker_elem (ws : list worker) j w w' : ws !! j = Some w → w' ∈ <[j := w']> ws.
Proof. intros Hj. apply list_elem_of_insert. by eapply lookup_lt_Some. Qed.

Lemma wake_not_waiting (ws : list worker) : WWait ∉ wake <$> ws.
Proof. intros ([] & H & _)%list_elem_of_fmap; discriminate. Qed.

Lemma wake_exit (ws : list worker) : WExit ∈ wake <$> ws → WExit ∈ ws.
Proof. intros ([] & H & Hin)%list_elem_of_fmap; try discriminate. done. Qed.

(** The moves of a worker keep the clients. *)
Lemma attended_worker p j w ts w' st fin :
  attended p → workers p !! j = Some w →
  (w' = WWait → ts = [] ∧ stoped p = false) → (w' = WExit → stoped p = true ∧ ts = []) →
  (awake w' = false → ts = []) →
  attended (mkpool (stoped p) ts (<[j := w']> (workers p)) (clients p) (pushed p) st fin).
Proof.
  intros [Hp Ht Hs He] Hj Hw Hx Ha. constructor; cbn; [done|..].
  - intros _ Hts. right. exists w'. split; [by eapply insert_worker_elem|].
    destruct (awake w') eqn:E; [done|]. by rewrite Ha in Hts.
  - intros Hin Hst. apply elem_of_insert_worker in Hin as [<-|Hin]; [|by apply Hs].
    destruct Hw as [_ Hf]; [done|]. congruence.
  - intros Hin. apply elem_of_insert_worker in Hin as [<-|Hin]; [by apply Hx|by apply He].
Qed.

Lemma attended_step p p' : any_step p p' → attended p → attended p'.
Proof.
  intros [Hst|Hst] Hat; pose proof Hat as [Hp Ht Hs He].
  - destruct Hst as [p j Hj|p j t Hj|p i t rest Hi|p i rest Hi|p i rest j Hi Hj|p i rest Hi Hn|p i rest Hi].
    + unfold critical, set_worker.
      destruct (tasks p) as [|t ts] eqn:Et; [destruct (stoped p) eqn:Es|];
        rewrite <- ?Et; rewrite <- ?Es; by eapply attended_worker; rewrite ?Et, ?Es.
    + by eapply attended_worker.
    + assert (Hh : head rest = Some ANotifyOne)
        by (rewrite Forall_lookup in Hp; by destruct (Hp i _ Hi)).
      constructor; cbn; [by eapply proper_clients| | |done].
      * intros _ _. left. by eapply pending_next.
      * intros Hin Hstop. by eapply pending_other; [apply Hs|..].
    + assert (Hh : head rest = Some ANotifyAll)
        by (rewrite Forall_lookup in Hp; by destruct (Hp i _ Hi)).
      constructor; cbn; [by eapply proper_clients| | |done].
      * intros Hin Hts. destruct (Ht Hin Hts) as [Hpe|Hw]; [|by right].
        left. by eapply pending_other.
      * intros _ _. by eapply pending_next.
    + constructor; cbn; [by eapply proper_clients| | |].
      * intros _ _. right. exists WReady. split; [by eapply insert_worker_elem|done].
      * intros Hin Hstop. apply elem_of_insert_worker in Hin as [Heq|Hin]; [done|].
        by eapply pending_other; [apply Hs|..].
      * intros [?|Hin]%elem_of_insert_worker; [done|by apply He].
    + constructor; cbn; [by eapply proper_clients|done|done|done].
    + constructor; cbn; [by eapply proper_clients| | |].
      * by intros ?%wake_not_waiting.
      * by intros ?%wake_not_waiting.
      * intros Hin%wake_exit. by apply He.
  - destruct Hst as [p j Hj]. by eapply (attended_worker p j WWait (tasks p) WReady).
Qed.

Lemma attended_new n cs : Forall proper cs → attended (ThreadPool_new n cs).
Proof. intros Hcs. constructor; cbn; [done|done|..]; by intros [? _]%elem_of_replicate. Qed.

(** ** Termination *)

Definition wweight (w : worker) : nat :=
  match w with WReady => 2 | WRun _ => 3 | WWait | WExit => 0 end.
Definition aweight (n : nat) (a : action) : nat :=
  match a with APush _ => 3 | ANotifyOne => 3 | AStop => 1 | ANotifyAll => 2 * n + 1 end.

Definition measure (p : pool) : nat :=
  2 * length (tasks p) + sum_list_with wweight (workers p) +
  sum_list_with (sum_list_with (aweight (length (workers p)))) (clients p).

Lemma sum_wake ws :
  (sum_list_with wweight (wake <$> ws) ≤ sum_list_with wweight ws + 2 * length ws)%nat.
Proof.
  induction ws as [|w ws IH]; [done|]. rewrite fmap_cons, !sum_cons. cbn [length].
  destruct w; cbn [wake wweight]; lia.
Qed.

(** [sums] brings in the sums of the lists that have one element changed. *)
Ltac sums :=
  cbn [length] in *; repeat match goal with
  | H : workers ?p !! ?j = Some ?w |- context [<[?j := ?w']> (workers ?p)] =>
      pose proof (sum_insert wweight (workers p) j w w' H);
      generalize dependent (sum_list_with wweight (<[j := w']> (workers p))); intros
  | H : clients ?p !! ?i = Some ?c |- context [sum_list_with ?f (<[?i := ?c']> (clients ?p))] =>
      pose proof (sum_insert f (clients p) i c c' H);
      generalize dependent (sum_list_with f (<[i := c']> (clients p))); intros
  end; rewrite ?sum_cons in *; cbn [length wweight aweight] in *.

Lemma step_decreases p p' : step p p' → (measure p' < measure p)%nat.
Proof.
  intros Hst. unfold measure.
  destruct Hst as [p j Hj|p j t Hj|p i t rest Hi|p i rest Hi|p i rest j Hi Hj|p i rest Hi Hn|p i rest Hi];
    unfold critical, finish, set_client, set_worker, emplace_back, set_stoped, notify_all.
  1: destruct (tasks p) as [|t ts] eqn:Et; [destruct (stoped p)|]; rewrite ?Et.
  all: cbn [tasks workers clients]; rewrite ?length_insert, ?length_app, ?length_fmap; sums; try lia.
  pose proof (sum_wake (workers p)). lia.
Qed.

(** A run of [k] steps and [s] spurious wake-ups. *)
Inductive run : nat → nat → pool → pool → Prop :=
| run_nil p : run 0 0 p p
| run_step k s p1 p2 p3 : step p1 p2 → run k s p2 p3 → run (S k) s p1 p3
| run_spurious k s p1 p2 p3 : spurious p1 p2 → run k s p2 p3 → run k (S s) p1 p3.

Lemma spurious_measure p p' : spurious p p' → measure p' = (measure p + 2)%nat.
Proof.
  intros [q j Hj]. unfold measure, set_worker. cbn [tasks workers clients].
  rewrite length_insert. sums. lia.
Qed.

Lemma run_measure k s p p' : run k s p p' → (k + measure p' ≤ measure p + 2 * s)%nat.
Proof.
  induction 1 as [|k s p1 p2 p3 Hs _ IH|k s p1 p2 p3 Hs _ IH]; [lia|..].
  - apply step_decreases in Hs. lia.
  - apply spurious_measure in Hs. lia.
Qed.

(** What a call costs in a pool of [n] workers. *)
Definition call_cost (n : nat) (c : call) : nat :=
  match c with CPush _ => 6 | CStop => 2 * n + 2 end.

Lemma client_cost n cs : sum_list_with (aweight n) (client_of cs) = sum_list_with (call_cost n) cs.
Proof.
  induction cs as [|c cs IH]; [done|]. change (client_of (c :: cs)) with (call_actions c ++ client_of cs).
  rewrite sum_list_with_app, sum_cons, IH. destruct c; cbn; lia.
Qed.

Lemma measure_new n ccs :
  measure (ThreadPool_new n (client_of <$> ccs)) =
  (2 * max_thread_nums n + sum_list_with (sum_list_with (call_cost (max_thread_nums n))) ccs)%nat.
Proof.
  unfold measure, ThreadPool_new. cbn [tasks workers clients length].
  rewrite length_replicate. generalize (max_thread_nums n). intros N.
  assert (sum_list_with wweight (replicate N WReady) = 2 * N)%nat as ->.
  { induction N as [|N IH]; [done|]. cbn [replicate]. rewrite sum_cons, IH. cbn. lia. }
  assert (sum_list_with (sum_list_with (aweight N)) (client_of <$> ccs)
          = sum_list_with (sum_list_with (call_cost N)) ccs) as ->; [|lia].
  induction ccs as [|cs ccs IH]; [done|]. by rewrite fmap_cons, !sum_cons, client_cost, IH.
Qed.

(** ** States in which nothing can move *)

Definition stuck (p : pool) : Prop := ∀ p', ¬ step p p'.

Lemma stuck_clients p : stuck p → ∀ c, c ∈ clients p → c = [].
Proof.
  intros Hs c [i Hi]%list_elem_of_lookup. destruct c as [|[t| | |] rest]; [done|..]; exfalso.
  - by eapply Hs, s_push.
  - destruct (decide (WWait ∈ workers p)) as [[j Hj]%list_elem_of_lookup|Hn].
    + by eapply Hs, s_notify_one.
    + by eapply Hs, s_notify_nobody.
  - by eapply Hs, s_stop.
  - by eapply Hs, s_notify_all.
Qed.

Lemma stuck_workers p : stuck p → ∀ w, w ∈ workers p → w = WWait ∨ w = WExit.
Proof.
  intros Hs w [j Hj]%list_elem_of_lookup. destruct w as [|t| |]; auto; exfalso.
  - by eapply Hs, s_critical.
  - by eapply Hs, s_finish.
Qed.

Lemma running_idle ws : (∀ w, w ∈ ws → w = WWait ∨ w = WExit) → running ws = [].
Proof.
  unfold running. induction ws as [|w ws IH]; [done|]. intros H. cbn [omap list_omap].
  destruct (H w ltac:(by left)) as [-> | ->]; cbn; apply IH; intros; apply H; by right.
Qed.

Lemma stuck_no_pending p a : stuck p → ¬ pending p a.
Proof.
  intros Hs (i & rest & Hi). by discriminate (stuck_clients p Hs _ (list_elem_of_lookup_2 _ _ _ Hi)).
Qed.

Lemma stuck_attended p :
  stuck p → attended p →
  (WWait ∈ workers p → tasks p = [] ∧ stoped p = false) ∧
  (stoped p = true → ∀ w, w ∈ workers p → w = WExit).
Proof.
  intros Hs [_ Ht Hst _]. split.
  - intros Hin. split.
    + destruct (tasks p) eqn:Et; [done|]. exfalso.
      destruct (Ht Hin ltac:(done)) as [Hp|(w & Hw & Ha)]; [by eapply stuck_no_pending|].
      by destruct (stuck_workers p Hs w Hw) as [-> | ->].
    + destruct (stoped p); [|done]. exfalso. by eapply stuck_no_pending, Hst.
  - intros Hstop w Hw. destruct (stuck_workers p Hs w Hw) as [-> | ->]; [|done].
    exfalso. by eapply stuck_no_pending, Hst.
Qed.

(** ** One client that pushes and then stops *)

Definition submission (ts : list task) : list call := (CPush <$> ts) ++ [CStop].
Definition submit (ts : list task) : list action := client_of (submission ts).

(** Where the client is, when it is to push [ts] in all. *)
Definition submit_client (ts : list task) (p : pool) : Prop :=
  (stoped p = false ∧ ∃ left, pushed p ++ left = ts ∧
     (clients p = [submit left] ∨ clients p = [ANotifyOne :: submit left])) ∨
  (stoped p = true ∧ pushed p = ts ∧ (clients p = [[ANotifyAll]] ∨ clients p = [[]])).

Record sealed (ts : list task) (p : pool) : Prop := {
  se_client : submit_client ts p;
  se_exit : WExit ∈ workers p → stoped p = true ∧ tasks p = []
}.

Lemma singleton_lookup {A} (x : A) i y : [x] !! i = Some y → i = 0%nat ∧ y = x.
Proof. destruct i; [|done]. intros [= ->]. done. Qed.

(** The client's moves. *)
Lemma submit_client_move ts p i a rest :
  submit_client ts p → clients p !! i = Some (a :: rest) →
  i = 0%nat ∧ <[i := rest]> (clients p) = [rest] ∧
  match a with
  | APush t => stoped p = false ∧ ∃ left, pushed p ++ t :: left = ts ∧
                 rest = ANotifyOne :: submit left
  | ANotifyOne => stoped p = false ∧ ∃ left, pushed p ++ left = ts ∧ rest = submit left
  | AStop => stoped p = false ∧ pushed p = ts ∧ rest = [ANotifyAll]
  | ANotifyAll => stoped p = true ∧ pushed p = ts ∧ rest = []
  end.
Proof.
  intros [(Hs & left & Hl & [Hc|Hc])|(Hs & Hl & [Hc|Hc])] Hi; rewrite Hc in Hi |- *;
    apply singleton_lookup in Hi as [-> Hi]; (split; [done|]; split; [done|]); try discriminate.
  - destruct left as [|t left]; injection Hi as -> ->; [by rewrite app_nil_r in Hl|].
    split; [done|]. by exists left.
  - injection Hi as -> ->. split; [done|]. by exists left.
  - by injection Hi as -> ->.
Qed.

Lemma sealed_worker ts p j w' tk st fin :
  sealed ts p → (w' = WExit → stoped p = true ∧ tk = []) → (tasks p = [] → tk = []) →
  sealed ts (mkpool (stoped p) tk (<[j := w']> (workers p)) (clients p) (pushed p) st fin).
Proof.
  intros [Hc He] Hw Ht. constructor; [done|]. cbn.
  intros [<-|Hin]%elem_of_insert_worker; [by apply Hw|]. destruct (He Hin). auto.
Qed.

Lemma sealed_step ts p p' : any_step p p' → sealed ts p → sealed ts p'.
Proof.
  intros [Hst|Hst] Hse; pose proof Hse as [Hc He].
  - destruct Hst as [p j Hj|p j t Hj|p i t rest Hi|p i rest Hi|p i rest j Hi Hj|p i rest Hi Hn|p i rest Hi];
      try (pose proof (submit_client_move ts p i _ rest Hc Hi) as (_ & Hcl & Hm);
           unfold set_client, emplace_back, set_stoped, set_worker, notify_all;
           cbn [clients]; rewrite Hcl).
    + unfold critical, set_worker.
      destruct (tasks p) as [|t ts'] eqn:Et; [destruct (stoped p) eqn:Es|];
        rewrite <- ?Et; rewrite <- ?Es; apply sealed_worker; rewrite ?Et, ?Es; done.
    + by apply sealed_worker.
    + destruct Hm as (Hs & left & Hl & ->). constructor; unfold submit_client; cbn.
      * left. split; [done|]. exists left. rewrite <- app_assoc. auto.
      * intros Hin. destruct (He Hin). congruence.
    + destruct Hm as (Hs & Hl & ->). constructor; unfold submit_client; cbn.
      * right. auto.
      * intros Hin. destruct (He Hin). congruence.
    + destruct Hm as (Hs & left & Hl & ->). constructor; unfold submit_client; cbn.
      * left. split; [done|]. exists left. auto.
      * by intros [?|Hin]%elem_of_insert_worker; [|apply He].
    + destruct Hm as (Hs & left & Hl & ->). constructor; unfold submit_client; cbn; [|done].
      left. split; [done|]. exists left. auto.
    + destruct Hm as (Hs & Hl & ->). constructor; unfold submit_client; cbn.
      * right. auto.
      * intros Hin%wake_exit. by apply He.
  - destruct Hst as [p j Hj]. by apply sealed_worker.
Qed.

Lemma sealed_new n ts : sealed ts (ThreadPool_new n [submit ts]).
Proof.
  constructor; cbn; [|by intros [? _]%elem_of_replicate].
  left. split; [done|]. exists ts. auto.
Qed.

Lemma workers_step p p' : any_step p p' → length (workers p') = length (workers p).
Proof.
  intros [Hst|Hst]; destruct Hst; cbn; rewrite ?length_insert, ?length_fmap; try done.
  unfold critical. destruct (tasks p), (stoped p); cbn; by rewrite ?length_insert.
Qed.

Lemma workers_reachable n cs p :
  reachable (ThreadPool_new n cs) p → length (workers p) = max_thread_nums n.
Proof.
  apply (invariant_rtc (λ p, length (workers p) = max_thread_nums n)).
  - intros p1 p2 Hs <-. by apply workers_step.
  - apply length_replicate.
Qed.

Lemma max_thread_nums_pos n : (0 < max_thread_nums n)%nat.
Proof. unfold max_thread_nums. destruct (Nat.ltb_spec n 1); lia. Qed.

(** ** Properties *)

(** C5: Conservation.  In every interleaving, with spurious wake-ups too, the
    tasks taken by the workers are a prefix of the tasks pushed, in the order
    they were pushed, the rest is in the deque; and every task taken is finished
    or is being run by one worker: none is lost, none is run twice. *)
Theorem pool_conservation n cs p :
  reachable (ThreadPool_new n cs) p →
  pushed p = started p ++ tasks p ∧ started p ≡ₚ finished p ++ running (workers p).
Proof.
  intros Hr. destruct (invariant_rtc conserved _ p conserved_step (conserved_new n cs) Hr). done.
Qed.

(** C6: No lost wake-up.  Whatever calls of [push] and [stop] the client threads make, in
    every interleaving and with spurious wake-ups: a worker sleeps while tasks are queued
    only if another worker is awake or a notification is on its way, and sleeps after
    [stop] only if the broadcast of [stop] is on its way; so when no thread can go on any
    more, a worker that sleeps has nothing to do and was not told to stop. *)
Theorem pool_no_lost_wakeup n ccs p :
  reachable (ThreadPool_new n (client_of <$> ccs)) p → WWait ∈ workers p →
  (tasks p ≠ [] → pending p ANotifyOne ∨ ∃ w, w ∈ workers p ∧ awake w = true) ∧
  (stoped p = true → pending p ANotifyAll) ∧
  (stuck p → tasks p = [] ∧ stoped p = false).
Proof.
  intros Hr Hw.
  pose proof (invariant_rtc attended _ p attended_step (attended_new n _ (clients_proper ccs)) Hr) as Ha.
  destruct Ha as [Hp Ht Hs He] eqn:E. split; [auto|]. split; [auto|].
  intros Hst. by apply stuck_attended.
Qed.

(** C7: Termination.  In any state of a pool, a run of [k] steps with [s] spurious
    wake-ups among them uses up the measure of the state, which a spurious wake-up raises
    by 2: [k] is at most [measure p + 2 * s].  For a new pool the measure is 2 for each
    worker, 6 for each [push] and [2 * n + 2] for each [stop] of the calls to be made. *)
Theorem pool_terminates :
  (∀ k s p p', run k s p p' → (k + measure p' ≤ measure p + 2 * s)%nat) ∧
  (∀ n ccs, measure (ThreadPool_new n (client_of <$> ccs)) =
     (2 * max_thread_nums n + sum_list_with (sum_list_with (call_cost (max_thread_nums n))) ccs)%nat).
Proof. split; [exact run_measure|exact measure_new]. Qed.

(** Completion.  For a client that pushes every task and then stops, a state that cannot
    move any more is one in which all tasks were run and finished, in the order
    of the pushes, the deque is empty and every worker has left its loop. *)
Theorem pool_submit_completes n ts p :
  reachable (ThreadPool_new n [submit ts]) p → stuck p →
  tasks p = [] ∧ started p = ts ∧ finished p ≡ₚ ts ∧ ∀ w, w ∈ workers p → w = WExit.
Proof.
  intros Hr Hs. pose proof (workers_reachable _ _ _ Hr) as Hlen.
  pose proof (max_thread_nums_pos n) as Hpos.
  destruct (invariant_rtc conserved _ p conserved_step (conserved_new _ _) Hr) as [Hf Hd].
  destruct (invariant_rtc (sealed ts) _ p (sealed_step ts) (sealed_new _ _) Hr) as [Hc He].
  pose proof (invariant_rtc attended _ p attended_step
    (attended_new n _ (proj2 (Forall_singleton _ _) (client_proper (submission ts)))) Hr) as Hat.
  destruct (stuck_attended p Hs Hat) as [_ Hex].
  destruct Hc as [(_ & left & _ & Hcl)|(Hstop & Hpu & _)].
  { exfalso. destruct Hcl as [Hcl|Hcl]; [destruct left|];
      discriminate (stuck_clients p Hs _ ltac:(rewrite Hcl; by left)). }
  assert (Hx : WExit ∈ workers p).
  { destruct (workers p) as [|w ws] eqn:Ew; [cbn in Hlen; lia|].
    rewrite <- (Hex Hstop w) by (rewrite ?Ew; by left). by left. }
  destruct (He Hx) as [_ Ht]. rewrite Ht, app_nil_r in Hf. rewrite Hpu in Hf.
  split; [done|]. split; [done|]. split; [|by apply Hex].
  rewrite (running_idle (workers p) (stuck_workers p Hs)), app_nil_r in Hd. by rewrite <- Hd, <- Hf.
Qed.

(** The destructor neither joins nor detaches its threads, so destroying a pool, at any
    moment, ends the process through [std::terminate]. *)
Lemma pool_destroyed_joinable n cs p :
  reachable (ThreadPool_new n cs) p → ThreadPool_destroy p = Exit 134.
Proof.
  intros Hr%workers_reachable. pose proof (max_thread_nums_pos n). unfold ThreadPool_destroy.
  destruct (workers p); [cbn in Hr; lia|done].
Qed.

(** ** A run with one worker and one task

    The worker sleeps before the task is pushed, is woken, runs it, and leaves
    after the stop. *)

Definition one_task : pool := ThreadPool_new 1 [submit [5%nat]].
Definition asleep : pool :=
  mkpool false [5%nat] [WWait] [ANotifyOne :: stop] [5%nat] [] [].
Definition all_done : pool := mkpool true [] [WExit] [[]] [5%nat] [5%nat] [5%nat].

Lemma asleep_reachable : reachable one_task asleep.
Proof.
  eapply rtc_l; [left; eapply (s_critical _ 0); reflexivity|].
  eapply rtc_l; [left; eapply (s_push _ 0); reflexivity|]. apply rtc_refl.
Defined.

Lemma all_done_reachable : reachable one_task all_done.
Proof.
  unfold reachable. etrans; [exact asleep_reachable|].
  eapply rtc_l; [left; eapply (s_notify_one _ 0 _ 0); reflexivity|].
  eapply rtc_l; [left; eapply (s_critical _ 0); reflexivity|].
  eapply rtc_l; [left; eapply (s_finish _ 0); reflexivity|].
  eapply rtc_l; [left; eapply (s_stop _ 0); reflexivity|].
  eapply rtc_l; [left; eapply (s_notify_all _ 0); reflexivity|].
  eapply rtc_l; [left; eapply (s_critical _ 0); reflexivity|]. apply rtc_refl.
Defined.

Lemma all_done_stuck : stuck all_done.
Proof.
  intros p' Hs. inversion Hs; subst;
    repeat match goal with
    | H : _ !! ?i = Some _ |- _ => destruct i as [|[|i]]; cbn in H; try discriminate H; clear H
    end.
Defined.

Lemma pool_conservation_witness :
  pushed all_done = started all_done ++ tasks all_done ∧
  started all_done ≡ₚ finished all_done ++ running (workers all_done).
Proof. exact (pool_conservation 1 _ all_done all_done_reachable). Defined.

Lemma pool_no_lost_wakeup_witness :
  (tasks asleep ≠ [] →
   pending asleep ANotifyOne ∨ ∃ w, w ∈ workers asleep ∧ awake w = true) ∧
  (stoped asleep = true → pending asleep ANotifyAll) ∧
  (stuck asleep → tasks asleep = [] ∧ stoped asleep = false).
Proof.
  apply (pool_no_lost_wakeup 1 [submission [5%nat]] asleep); [exact asleep_reachable|by left].
Defined.

(** The run above has 8 steps; its pool may make 12. *)
Lemma pool_terminates_witness :
  run 8 0 one_task all_done ∧ (8 + measure all_done ≤ measure one_task + 2 * 0)%nat ∧ measure one_task = 12%nat.
Proof.
  destruct pool_terminates as [Hk Hn].
  assert (run 8 0 one_task all_done) as Hr.
  { eapply run_step; [eapply (s_critical _ 0); reflexivity|].
    eapply run_step; [eapply (s_push _ 0); reflexivity|].
    eapply run_step; [eapply (s_notify_one _ 0 _ 0); reflexivity|].
    eapply run_step; [eapply (s_critical _ 0); reflexivity|].
    eapply run_step; [eapply (s_finish _ 0); reflexivity|].
    eapply run_step; [eapply (s_stop _ 0); reflexivity|].
    eapply run_step; [eapply (s_notify_all _ 0); reflexivity|].
    eapply run_step; [eapply (s_critical _ 0); reflexivity|]. apply run_nil. }
  split; [done|]. split; [by apply Hk|]. exact (Hn 1%nat [submission [5%nat]]).
Defined.

Lemma pool_submit_completes_witness :
  tasks all_done = [] ∧ started all_done = [5%nat] ∧ finished all_done ≡ₚ [5%nat] ∧
  ∀ w, w ∈ workers all_done → w = WExit.
Proof. exact (pool_submit_completes 1 [5%nat] all_done all_done_reachable all_done_stuck). Defined.
