(* ===== verification/PoolSteps.v ===== *)
(** * PoolSteps: [set/thread_pool/ThreadPool.h], statement by statement

    [ThreadPool] takes a critical section for one step.  Here the mutex is there: a thread
    locks, tests, moves, pops and unlocks in steps of its own, a wait releases the mutex
    and takes it again, and any other thread may run in between.  The detailed pool is
    shown to implement the other one, so that what holds of that one holds of the code. *)

From S2P Require Import Prelude ThreadPool.

(** ** The threads *)

(** A worker in [bind_run]: before the lock; holding it, before the test of the deque;
    the front moved out; popped; running the task; at the [break]; gone; before the
    [wait]; in it; woken, without the mutex; with it again. *)
Inductive fworker : Type :=
| FReady | FLocked | FMoved (t : task) | FPopped (t : task) | FRun (t : task)
| FStopping | FExit | FSleeping | FWaiting | FWoken | FRelocked.

#[global] Instance fworker_eq_dec : EqDecision fworker.
Proof. solve_decision. Defined.

(** A client in [push] or [stop]: outside the critical section; holding the mutex; with
    its effect done. *)
Inductive cphase : Type := COutside | CLocked | CEffect.

#[global] Instance cphase_eq_dec : EqDecision cphase.
Proof. solve_decision. Defined.

Inductive holder : Type := Wk (j : nat) | Cl (i : nat).

#[global] Instance holder_eq_dec : EqDecision holder.
Proof. solve_decision. Defined.

Record fpool : Type := mkfpool {
  fmutex : option holder; fstoped : bool; ftasks : list task;
  fworkers : list fworker; fclients : list (cphase * list action);
  fpushed : list task; fstarted : list task; ffinished : list task
}.

Definition fpool_new (hardware_concurrency : nat) (cs : list (list action)) : fpool :=
  mkfpool None false [] (replicate (max_thread_nums hardware_concurrency) FReady)
          ((λ c, (COutside, c)) <$> cs) [] [] [].

(** ** Steps *)

(** Worker [j] goes on as [w], with the mutex [m]. *)
Definition fset (p : fpool) (m : option holder) (j : nat) (w : fworker) : fpool :=
  mkfpool m (fstoped p) (ftasks p) (<[j := w]> (fworkers p)) (fclients p)
          (fpushed p) (fstarted p) (ffinished p).
(** Client [i] goes on with [c]. *)
Definition cset (p : fpool) (m : option holder) (i : nat) (c : cphase * list action) : fpool :=
  mkfpool m (fstoped p) (ftasks p) (fworkers p) (<[i := c]> (fclients p))
          (fpushed p) (fstarted p) (ffinished p).
Definition fwake (w : fworker) : fworker := match w with FWaiting => FWoken | _ => w end.

(** [bind_run] *)
Definition worker_step (p : fpool) (j : nat) (w : fworker) : option fpool :=
  match w with
  | FReady => match fmutex p with None => Some (fset p (Some (Wk j)) j FLocked) | Some _ => None end
  | FLocked =>
      match ftasks p with
      | t :: _ => Some (fset p (fmutex p) j (FMoved t))
      | [] => Some (fset p (fmutex p) j (if fstoped p then FStopping else FSleeping))
      end
  | FMoved t =>
      Some (mkfpool (fmutex p) (fstoped p) (tail (ftasks p)) (<[j := FPopped t]> (fworkers p))
                    (fclients p) (fpushed p) (fstarted p ++ [t]) (ffinished p))
  | FPopped t => Some (fset p None j (FRun t))
  | FRun t =>
      Some (mkfpool (fmutex p) (fstoped p) (ftasks p) (<[j := FReady]> (fworkers p))
                    (fclients p) (fpushed p) (fstarted p) (ffinished p ++ [t]))
  | FStopping => Some (fset p None j FExit)
  | FSleeping => Some (fset p None j FWaiting)
  | FWoken => match fmutex p with None => Some (fset p (Some (Wk j)) j FRelocked) | Some _ => None end
  | FRelocked => Some (fset p None j FReady)
  | FExit | FWaiting => None
  end.

(** [push] and [stop] up to their notification. *)
Definition client_step (p : fpool) (i : nat) (c : cphase * list action) : option fpool :=
  match c with
  | (COutside, (APush _ | AStop) :: _) =>
      match fmutex p with None => Some (cset p (Some (Cl i)) i (CLocked, c.2)) | Some _ => None end
  | (CLocked, APush t :: rest) =>
      Some (mkfpool (fmutex p) (fstoped p) (ftasks p ++ [t]) (fworkers p)
                    (<[i := (CEffect, rest)]> (fclients p)) (fpushed p ++ [t]) (fstarted p) (ffinished p))
  | (CLocked, AStop :: rest) =>
      Some (mkfpool (fmutex p) true (ftasks p) (fworkers p)
                    (<[i := (CEffect, rest)]> (fclients p)) (fpushed p) (fstarted p) (ffinished p))
  | (CEffect, rest) => Some (cset p None i (COutside, rest))
  | (COutside, ANotifyAll :: rest) =>
      Some (mkfpool (fmutex p) (fstoped p) (ftasks p) (fwake <$> fworkers p)
                    (<[i := (COutside, rest)]> (fclients p)) (fpushed p) (fstarted p) (ffinished p))
  | _ => None
  end.

Inductive fstep : fpool → fpool → Prop :=
| f_worker p j w p' : fworkers p !! j = Some w → worker_step p j w = Some p' → fstep p p'
| f_client p i c p' : fclients p !! i = Some c → client_step p i c = Some p' → fstep p p'
| f_notify_one p i rest j :
    fclients p !! i = Some (COutside, ANotifyOne :: rest) → fworkers p !! j = Some FWaiting →
    fstep p (fset (cset p (fmutex p) i (COutside, rest)) (fmutex p) j FWoken)
| f_notify_nobody p i rest :
    fclients p !! i = Some (COutside, ANotifyOne :: rest) → FWaiting ∉ fworkers p →
    fstep p (cset p (fmutex p) i (COutside, rest)).

(** A wait that returns without a notification. *)
Inductive fspurious : fpool → fpool → Prop :=
| f_spurious p j : fworkers p !! j = Some FWaiting → fspurious p (fset p (fmutex p) j FWoken).

Definition any_fstep (p p' : fpool) : Prop := fstep p p' ∨ fspurious p p'.

(** ** The pool behind it *)

Definition abs_worker (w : fworker) : worker :=
  match w with
  | FReady | FLocked | FMoved _ | FSleeping | FWoken | FRelocked => WReady
  | FPopped t | FRun t => WRun t
  | FStopping | FExit => WExit
  | FWaiting => WWait
  end.

Definition abs_pool (p : fpool) : pool :=
  mkpool (fstoped p) (ftasks p) (abs_worker <$> fworkers p) (snd <$> fclients p)
         (fpushed p) (fstarted p) (ffinished p).

(** ** Mutual exclusion *)

Definition in_section (w : fworker) : bool :=
  match w with
  | FLocked | FMoved _ | FPopped _ | FStopping | FSleeping | FRelocked => true
  | _ => false
  end.

Definition in_phase (ph : cphase) : bool := match ph with COutside => false | _ => true end.

(** What a worker has seen under the mutex still holds. *)
Definition seen (tk : list task) (st : bool) (w : fworker) : Prop :=
  match w with
  | FMoved t => ∃ ts, tk = t :: ts
  | FSleeping => tk = [] ∧ st = false
  | _ => True
  end.

Definition needs_mutex (c : list action) : Prop :=
  match c with APush _ :: _ | AStop :: _ => True | _ => False end.

Record finv (p : fpool) : Prop := {
  fi_worker j w : fworkers p !! j = Some w →
    in_section w = bool_decide (fmutex p = Some (Wk j)) ∧ seen (ftasks p) (fstoped p) w;
  fi_client i c : fclients p !! i = Some c →
    in_phase c.1 = bool_decide (fmutex p = Some (Cl i)) ∧
    (c.1 = CLocked → needs_mutex c.2);
  fi_holder x : fmutex p = Some x →
    match x with Wk j => is_Some (fworkers p !! j) | Cl i => is_Some (fclients p !! i) end
}.

Lemma seen_outside tk st w : in_section w = false → seen tk st w.
Proof. by destruct w. Qed.

(** A step of [x]: the others keep what they hold, and what they have seen, because the
    deque and the flag change only under the mutex. *)
Lemma finv_move p p' x :
  finv p →
  (∀ y, y ≠ x → fmutex p' = Some y ↔ fmutex p = Some y) →
  (ftasks p' = ftasks p ∧ fstoped p' = fstoped p ∨ fmutex p = Some x) →
  (∀ j w', fworkers p' !! j = Some w' → Wk j ≠ x →
     fworkers p !! j = Some w' ∨ w' = FWoken ∧ fworkers p !! j = Some FWaiting) →
  (∀ i c', fclients p' !! i = Some c' → Cl i ≠ x → fclients p !! i = Some c') →
  (∀ j w', x = Wk j → fworkers p' !! j = Some w' →
     in_section w' = bool_decide (fmutex p' = Some x) ∧ seen (ftasks p') (fstoped p') w') →
  (∀ i c', x = Cl i → fclients p' !! i = Some c' →
     in_phase c'.1 = bool_decide (fmutex p' = Some x) ∧ (c'.1 = CLocked → needs_mutex c'.2)) →
  length (fworkers p') = length (fworkers p) → length (fclients p') = length (fclients p) →
  match x with Wk j => is_Some (fworkers p !! j) | Cl i => is_Some (fclients p !! i) end →
  finv p'.
Proof.
  intros Hi Hm Hs Hw Hc Hxw Hxc Lw Lc Hx. split.
  - intros j w' Hj. destruct (decide (Wk j = x)) as [<-|Hne]; [by apply (Hxw j)|].
    assert (in_section w' = bool_decide (fmutex p = Some (Wk j)) ∧ seen (ftasks p) (fstoped p) w') as [E S].
    { destruct (Hw j w' Hj Hne) as [H|[-> H]]; [by apply (fi_worker p Hi j)|].
      by destruct (fi_worker p Hi j _ H) as [E _]. }
    split; [rewrite E; apply bool_decide_ext; symmetry; by apply Hm|].
    destruct Hs as [[-> ->]|Hs]; [done|]. apply seen_outside. rewrite E. apply bool_decide_eq_false. congruence.
  - intros i c' Hi'. destruct (decide (Cl i = x)) as [<-|Hne]; [by apply (Hxc i)|].
    destruct (fi_client p Hi i c' (Hc i c' Hi' Hne)) as [E S]. split; [|done].
    rewrite E. apply bool_decide_ext. symmetry. by apply Hm.
  - intros y Hy. assert (match y with Wk j => is_Some (fworkers p !! j) | Cl i => is_Some (fclients p !! i) end) as H.
    { destruct (decide (y = x)) as [->|Hne]; [done|]. apply (fi_holder p Hi), Hm; done. }
    destruct y; rewrite lookup_lt_is_Some in *; congruence.
Qed.

(** A worker's step. *)
Lemma finv_worker p p' j w w' :
  finv p → fworkers p !! j = Some w → fworkers p' = <[j := w']> (fworkers p) → fclients p' = fclients p →
  (∀ y, y ≠ Wk j → fmutex p' = Some y ↔ fmutex p = Some y) →
  (ftasks p' = ftasks p ∧ fstoped p' = fstoped p ∨ fmutex p = Some (Wk j)) →
  in_section w' = bool_decide (fmutex p' = Some (Wk j)) → seen (ftasks p') (fstoped p') w' →
  finv p'.
Proof.
  intros Hi Hj Ew Ec Hm Hs H1 H2. pose proof (lookup_lt_Some _ _ _ Hj) as Hlt.
  apply (finv_move p p' (Wk j)); rewrite ?Ew, ?Ec; try done.
  - intros u q Hu Hne. left. rewrite list_lookup_insert_ne in Hu; [done|congruence].
  - intros u q [= <-] Hu. rewrite list_lookup_insert_eq in Hu by done. by injection Hu as <-.
  - by rewrite length_insert.
Qed.

Lemma finv_client p p' i c c' :
  finv p → fclients p !! i = Some c → fclients p' = <[i := c']> (fclients p) →
  (fworkers p' = fworkers p ∨ fworkers p' = fwake <$> fworkers p ∨
     ∃ j, fworkers p !! j = Some FWaiting ∧ fworkers p' = <[j := FWoken]> (fworkers p)) →
  (∀ y, y ≠ Cl i → fmutex p' = Some y ↔ fmutex p = Some y) →
  (ftasks p' = ftasks p ∧ fstoped p' = fstoped p ∨ fmutex p = Some (Cl i)) →
  in_phase c'.1 = bool_decide (fmutex p' = Some (Cl i)) → (c'.1 = CLocked → needs_mutex c'.2) →
  finv p'.
Proof.
  intros Hi Hc Ec Ew Hm Hs H1 H2. pose proof (lookup_lt_Some _ _ _ Hc) as Hlt.
  apply (finv_move p p' (Cl i)); rewrite ?Ec; try done.
  - intros j w' Hj _. destruct Ew as [E|[E|(u & Hu & E)]]; rewrite E in Hj; [by left| |].
    + apply list_lookup_fmap_Some in Hj as (w & -> & Hj). destruct w; cbn; rewrite Hj; auto.
    + apply list_lookup_insert_Some in Hj as [(<- & <- & _)|[_ Hj]]; auto.
  - intros u q Hu Hne. rewrite list_lookup_insert_ne in Hu; [done|congruence].
  - intros u q [= <-] Hu. rewrite list_lookup_insert_eq in Hu by done. by injection Hu as <-.
  - destruct Ew as [E|[E|(u & _ & E)]]; rewrite E, ?length_fmap, ?length_insert; done.
  - by rewrite length_insert.
Qed.

(** Who holds the mutex when nobody, or the thread itself, did before. *)
Lemma holder_take (m : option holder) x y : m = None → y ≠ x → Some x = Some y ↔ m = Some y.
Proof. intros ->. split; congruence. Qed.
Lemma holder_drop (m : option holder) x y : m = Some x → y ≠ x → None = Some y ↔ m = Some y.
Proof. intros ->. split; congruence. Qed.

(** [settle] closes what a step owes the invariant. *)
Ltac settle :=
  cbn [fset cset fmutex fstoped ftasks fworkers fclients in_section in_phase seen fst snd needs_mutex];
  first
    [ done | by left | by right | by rewrite bool_decide_true | by rewrite bool_decide_false
    | by eexists | intros ? ?; by apply (holder_take None) | intros ? ?; by eapply holder_drop ].

Lemma finv_worker_step p j w p' :
  finv p → fworkers p !! j = Some w → worker_step p j w = Some p' → finv p'.
Proof.
  intros Hi Hj H. destruct (fi_worker p Hi j w Hj) as [Hm Hs].
  assert (in_section w = true → fmutex p = Some (Wk j)) as Hin
    by (intros E; rewrite E in Hm; symmetry in Hm; by apply bool_decide_eq_true in Hm).
  assert (in_section w = false → fmutex p ≠ Some (Wk j)) as Hout
    by (intros E; rewrite E in Hm; symmetry in Hm; by apply bool_decide_eq_false in Hm).
  assert (∀ p' w', fworkers p' = <[j := w']> (fworkers p) → fclients p' = fclients p →
    (∀ y, y ≠ Wk j → fmutex p' = Some y ↔ fmutex p = Some y) →
    (ftasks p' = ftasks p ∧ fstoped p' = fstoped p ∨ fmutex p = Some (Wk j)) →
    in_section w' = bool_decide (fmutex p' = Some (Wk j)) → seen (ftasks p') (fstoped p') w' → finv p') as Hgo
    by (intros; by eapply finv_worker).
  destruct w; cbn [worker_step] in H; try done; try specialize (Hin eq_refl); try specialize (Hout eq_refl).
  - destruct (fmutex p) eqn:Em; [done|]. injection H as <-. apply (Hgo _ FLocked); settle.
  - destruct (ftasks p) as [|t ts] eqn:Et; injection H as <-.
    + apply (Hgo _ (if fstoped p then FStopping else FSleeping)); destruct (fstoped p) eqn:Es; settle.
    + apply (Hgo _ (FMoved t)); settle.
  - injection H as <-. apply (Hgo _ (FPopped t)); settle.
  - injection H as <-. apply (Hgo _ (FRun t)); settle.
  - injection H as <-. apply (Hgo _ FReady); settle.
  - injection H as <-. apply (Hgo _ FExit); settle.
  - injection H as <-. apply (Hgo _ FWaiting); settle.
  - destruct (fmutex p) eqn:Em; [done|]. injection H as <-. apply (Hgo _ FRelocked); settle.
  - injection H as <-. apply (Hgo _ FReady); settle.
Qed.

Lemma finv_client_step p i c p' :
  finv p → fclients p !! i = Some c → client_step p i c = Some p' → finv p'.
Proof.
  intros Hi Hc H. destruct (fi_client p Hi i c Hc) as [Hm Hn].
  assert (∀ p' c', fclients p' = <[i := c']> (fclients p) →
    fworkers p' = fworkers p ∨ fworkers p' = fwake <$> fworkers p →
    (∀ y, y ≠ Cl i → fmutex p' = Some y ↔ fmutex p = Some y) →
    (ftasks p' = ftasks p ∧ fstoped p' = fstoped p ∨ fmutex p = Some (Cl i)) →
    in_phase c'.1 = bool_decide (fmutex p' = Some (Cl i)) →
    (c'.1 = CLocked → needs_mutex c'.2) → finv p') as Hgo
    by (intros ? ? ? Hw ? ? ? ?; eapply finv_client; try done; destruct Hw; auto).
  destruct c as [[| |] rest]; cbn [fst] in Hm.
  - symmetry in Hm. apply bool_decide_eq_false in Hm.
    destruct rest as [|[t| | |] rest]; cbn [client_step] in H; try done.
    + destruct (fmutex p) eqn:Em; [done|]. injection H as <-. apply (Hgo _ (CLocked, APush t :: rest)); settle.
    + destruct (fmutex p) eqn:Em; [done|]. injection H as <-. apply (Hgo _ (CLocked, AStop :: rest)); settle.
    + injection H as <-. apply (Hgo _ (COutside, rest)); settle.
  - symmetry in Hm. apply bool_decide_eq_true in Hm.
    destruct rest as [|[t| | |] rest]; cbn [client_step] in H; try done;
      injection H as <-; apply (Hgo _ (CEffect, rest)); settle.
  - symmetry in Hm. apply bool_decide_eq_true in Hm.
    cbn [client_step] in H. destruct rest; injection H as <-; eapply Hgo; try reflexivity; settle.
Qed.

Lemma finv_step p p' : finv p → any_fstep p p' → finv p'.
Proof.
  intros Hi Hst. revert Hi.
  destruct Hst as [[p0 j w p1 Hj H|p0 i c p1 Hc H|p0 i rest j Hc Hj|p0 i rest Hc Hn]|[p0 j Hj]]; intros Hi.
  - exact (finv_worker_step p0 j w p1 Hi Hj H).
  - exact (finv_client_step p0 i c p1 Hi Hc H).
  - pose proof (proj1 (fi_client _ Hi i _ Hc)) as Hm.
    eapply (finv_client p0 _ i _ (COutside, rest)); try done; cbn; [|by left].
    right; right. by exists j.
  - pose proof (proj1 (fi_client _ Hi i _ Hc)) as Hm.
    eapply (finv_client p0 _ i _ (COutside, rest)); try done; cbn; by left.
  - pose proof (proj1 (fi_worker _ Hi j _ Hj)) as Hm.
    eapply (finv_worker p0 _ j _ FWoken); try done. cbn. by left.
Qed.

Lemma finv_new n cs : finv (fpool_new n cs).
Proof.
  split; cbn; [| |done].
  - intros j w [-> _]%lookup_replicate. done.
  - intros i c Hc. apply list_lookup_fmap_Some in Hc as (a & -> & _). done.
Qed.

(** ** Simulation *)

Lemma abs_same (ws : list fworker) j w w' :
  ws !! j = Some w → abs_worker w' = abs_worker w → abs_worker <$> <[j := w']> ws = abs_worker <$> ws.
Proof. intros Hj E. rewrite list_fmap_insert, E. apply list_insert_id. by rewrite list_lookup_fmap, Hj. Qed.

Lemma abs_lookup p j w : fworkers p !! j = Some w → workers (abs_pool p) !! j = Some (abs_worker w).
Proof. intros H. cbn. by rewrite list_lookup_fmap, H. Qed.

Lemma abs_client p i c : fclients p !! i = Some c → clients (abs_pool p) !! i = Some c.2.
Proof. intros H. cbn. by rewrite list_lookup_fmap, H. Qed.

Lemma abs_clients_same (l : list (cphase * list action)) i c c' :
  l !! i = Some c → c'.2 = c.2 → snd <$> <[i := c']> l = snd <$> l.
Proof. intros Hi E. rewrite list_fmap_insert, E. apply list_insert_id. by rewrite list_lookup_fmap, Hi. Qed.

(** A statement of a worker is a step of the pool, or is not seen in it. *)
Lemma worker_simulates p j w p' :
  finv p → fworkers p !! j = Some w → worker_step p j w = Some p' →
  step (abs_pool p) (abs_pool p') ∨ abs_pool p = abs_pool p'.
Proof.
  intros Hi Hj H. pose proof (proj2 (fi_worker p Hi j w Hj)) as Hs.
  pose proof (abs_lookup p j w Hj) as Ha.
  assert (∀ m w', abs_worker w' = abs_worker w → abs_pool (fset p m j w') = abs_pool p) as Hq.
  { intros m w' E. unfold abs_pool. cbn. by rewrite (abs_same _ _ w). }
  destruct w; cbn [worker_step abs_worker seen] in *; try done.
  - destruct (fmutex p); [done|]. injection H as <-. right. by rewrite Hq.
  - destruct (ftasks p) as [|t ts] eqn:Et; injection H as <-; [|right; by rewrite Hq].
    destruct (fstoped p) eqn:Es; [|right; by rewrite Hq].
    left. replace (abs_pool (fset p (fmutex p) j FStopping)) with (critical (abs_pool p) j); [by constructor|].
    unfold critical, abs_pool, set_worker. cbn. by rewrite Et, Es, list_fmap_insert.
  - destruct Hs as [ts Hs]. injection H as <-. left.
    match goal with |- step _ (abs_pool ?q) => replace (abs_pool q) with (critical (abs_pool p) j); [by constructor|] end.
    unfold critical, abs_pool. cbn. by rewrite Hs, list_fmap_insert.
  - injection H as <-. right. by rewrite Hq.
  - injection H as <-. left.
    match goal with |- step _ (abs_pool ?q) => replace (abs_pool q) with (finish (abs_pool p) j t); [by constructor|] end.
    unfold finish, abs_pool. cbn. by rewrite list_fmap_insert.
  - injection H as <-. right. by rewrite Hq.
  - destruct Hs as [Et Es]. injection H as <-. left.
    replace (abs_pool (fset p None j FWaiting)) with (critical (abs_pool p) j); [by constructor|].
    unfold critical, abs_pool, set_worker. cbn. by rewrite Et, Es, list_fmap_insert.
  - destruct (fmutex p); [done|]. injection H as <-. right. by rewrite Hq.
  - injection H as <-. right. by rewrite Hq.
Qed.

Lemma abs_wake (ws : list fworker) : abs_worker <$> (fwake <$> ws) = wake <$> (abs_worker <$> ws).
Proof. rewrite <- !list_fmap_compose. apply list_fmap_ext. by intros ? [] _. Qed.

Lemma client_simulates p i c p' :
  fclients p !! i = Some c → client_step p i c = Some p' →
  step (abs_pool p) (abs_pool p') ∨ abs_pool p = abs_pool p'.
Proof.
  intros Hc H. pose proof (abs_client p i c Hc) as Ha.
  assert (∀ m ph, abs_pool (cset p m i (ph, c.2)) = abs_pool p) as Hq.
  { intros m ph. unfold abs_pool. cbn. by rewrite (abs_clients_same _ _ c). }
  destruct c as [[| |] rest]; cbn [fst snd] in *.
  - destruct rest as [|[t| | |] rest]; cbn [client_step] in H; try done.
    + destruct (fmutex p); [done|]. injection H as <-. right. by rewrite Hq.
    + destruct (fmutex p); [done|]. injection H as <-. right. by rewrite Hq.
    + injection H as <-. left.
      match goal with |- step _ (abs_pool ?q) =>
        replace (abs_pool q) with (set_client (notify_all (abs_pool p)) i rest); [by constructor|] end.
      unfold set_client, notify_all, abs_pool. cbn. by rewrite abs_wake, list_fmap_insert.
  - destruct rest as [|[t| | |] rest]; cbn [client_step] in H; try done; injection H as <-; left.
    + match goal with |- step _ (abs_pool ?q) =>
        replace (abs_pool q) with (set_client (emplace_back (abs_pool p) t) i rest); [by constructor|] end.
      unfold set_client, emplace_back, abs_pool. cbn. by rewrite list_fmap_insert.
    + match goal with |- step _ (abs_pool ?q) =>
        replace (abs_pool q) with (set_client (set_stoped (abs_pool p)) i rest); [by constructor|] end.
      unfold set_client, set_stoped, abs_pool. cbn. by rewrite list_fmap_insert.
  - cbn [client_step] in H. destruct rest; injection H as <-; right; symmetry; apply Hq.
Qed.

Lemma pool_simulates p p' :
  finv p → any_fstep p p' → any_step (abs_pool p) (abs_pool p') ∨ abs_pool p = abs_pool p'.
Proof.
  intros Hi Hst. revert Hi.
  destruct Hst as [[p0 j w p1 Hj H|p0 i c p1 Hc H|p0 i rest j Hc Hj|p0 i rest Hc Hn]|[p0 j Hj]]; intros Hi.
  - destruct (worker_simulates p0 j w p1 Hi Hj H); [by left; left|by right].
  - destruct (client_simulates p0 i c p1 Hc H); [by left; left|by right].
  - left; left. apply abs_client in Hc. apply abs_lookup in Hj.
    match goal with |- step _ (abs_pool ?q) =>
      replace (abs_pool q) with (set_client (set_worker (abs_pool p0) j WReady) i rest); [by constructor|] end.
    unfold set_client, set_worker, abs_pool. cbn. by rewrite !list_fmap_insert.
  - left; left. apply abs_client in Hc.
    match goal with |- step _ (abs_pool ?q) => replace (abs_pool q) with (set_client (abs_pool p0) i rest) end.
    + constructor; [done|]. cbn. intros ([] & E & Hin)%list_elem_of_fmap; done.
    + unfold set_client, abs_pool. cbn. by rewrite !list_fmap_insert.
  - left; right. apply abs_lookup in Hj.
    match goal with |- spurious _ (abs_pool ?q) => replace (abs_pool q) with (set_worker (abs_pool p0) j WReady); [by constructor|] end.
    unfold set_worker, abs_pool. cbn. by rewrite list_fmap_insert.
Qed.

Lemma abs_new n cs : abs_pool (fpool_new n cs) = ThreadPool_new n cs.
Proof.
  unfold abs_pool, fpool_new, ThreadPool_new. cbn. rewrite fmap_replicate, <- list_fmap_compose.
  by rewrite (list_fmap_ext _ id), list_fmap_id by done.
Qed.

Lemma finv_reachable n cs p : rtc any_fstep (fpool_new n cs) p → finv p ∧ reachable (ThreadPool_new n cs) (abs_pool p).
Proof.
  rewrite <- abs_new. generalize (finv_new n cs). generalize (fpool_new n cs). intros p0 H0 Hr.
  induction Hr as [p|p1 p2 p3 H12 _ IH]; [split; [done|apply rtc_refl]|].
  destruct (IH (finv_step _ _ H0 H12)) as [Hi Hr]. split; [done|].
  destruct (pool_simulates p1 p2 H0 H12) as [Hs| ->]; [by apply rtc_l with (abs_pool p2)|done].
Qed.

(** ** Progress *)

Definition fstuck (p : fpool) : Prop := ∀ p', ¬ fstep p p'.

(** Whoever holds the mutex can go on. *)
Lemma holder_steps p x : finv p → fmutex p = Some x → ∃ p', fstep p p'.
Proof.
  intros Hi Hx. pose proof (fi_holder p Hi x Hx) as Hs. destruct x as [j|i]; destruct Hs as [y Hy].
  - destruct (fi_worker p Hi j y Hy) as [Hm _]. rewrite bool_decide_true in Hm by done.
    destruct (worker_step p j y) as [p'|] eqn:E; [exists p'; by eapply f_worker|].
    exfalso. destruct y; cbn in E; try done. by destruct (ftasks p).
  - destruct (fi_client p Hi i y Hy) as [Hm Hn]. rewrite bool_decide_true in Hm by done.
    destruct (client_step p i y) as [p'|] eqn:E; [exists p'; by eapply f_client|].
    exfalso. destruct y as [[| |] rest]; cbn in Hm, Hn; [done| |by destruct rest].
    specialize (Hn eq_refl). by destruct rest as [|[]].
Qed.

Lemma stuck_free p : finv p → fstuck p → fmutex p = None.
Proof.
  intros Hi Hs. destruct (fmutex p) as [x|] eqn:E; [|done].
  destruct (holder_steps p x Hi E) as [p' H]. by destruct (Hs p').
Qed.

Lemma stuck_client_outside p i c : finv p → fstuck p → fclients p !! i = Some c → c.1 = COutside.
Proof.
  intros Hi Hs Hc. destruct (fi_client p Hi i c Hc) as [Hm _].
  rewrite (stuck_free p Hi Hs), bool_decide_false in Hm by done. by destruct c as [[] ?].
Qed.

(** A detailed pool that cannot go on stands for a pool that cannot. *)
Lemma stuck_abs p : finv p → fstuck p → stuck (abs_pool p).
Proof.
  intros Hi Hs q Hq. pose proof (stuck_free p Hi Hs) as Hm.
  assert (∀ j w, fworkers p !! j = Some w → worker_step p j w = None) as Hw.
  { intros j w Hj. destruct (worker_step p j w) eqn:E; [|done]. exfalso. by eapply Hs, f_worker. }
  assert (∀ i r, clients (abs_pool p) !! i = Some r → fclients p !! i = Some (COutside, r)) as Hout.
  { intros i r Hc. cbn in Hc. apply list_lookup_fmap_Some in Hc as ([ph r'] & -> & Hc).
    pose proof (stuck_client_outside p i _ Hi Hs Hc) as E. cbn in E. by subst. }
  assert (∀ i r, clients (abs_pool p) !! i = Some r → client_step p i (COutside, r) = None) as Hc.
  { intros i r H%Hout. destruct (client_step p i (COutside, r)) eqn:E; [|done]. exfalso. by eapply Hs, f_client. }
  assert (∀ j w, workers (abs_pool p) !! j = Some w →
            (w = WExit ∨ w = WWait) ∧ (w = WWait → fworkers p !! j = Some FWaiting)) as Hab.
  { intros j w H. cbn in H. apply list_lookup_fmap_Some in H as (f & -> & H). specialize (Hw j f H).
    destruct f; cbn in *; rewrite ?Hm in Hw; try done; try (by split; [auto|]). by destruct (ftasks p). }
  inversion Hq as [? j Hj|? j t Hj|? i t rest H|? i rest H|? i rest j H Hj|? i rest H Hn|? i rest H]; subst.
  - by destruct (Hab j _ Hj) as [[?|?] _].
  - by destruct (Hab j _ Hj) as [[?|?] _].
  - specialize (Hc i _ H). cbn in Hc. by rewrite Hm in Hc.
  - specialize (Hc i _ H). cbn in Hc. by rewrite Hm in Hc.
  - eapply Hs, f_notify_one; [by apply Hout|by apply (proj2 (Hab j WWait Hj))].
  - eapply Hs, f_notify_nobody; [by apply Hout|]. intros Hin. apply Hn. cbn.
    apply list_elem_of_fmap. by exists FWaiting.
  - by specialize (Hc i _ H).
Qed.

(** ** Termination *)

Section Measure.
Variable n : nat.   (** the number of workers *)

Definition fweight (w : fworker) : nat :=
  match w with
  | FExit | FWaiting => 0 | FStopping | FSleeping | FMoved _ => 1 | FLocked => 2 | FReady => 3
  | FRelocked => 4 | FWoken | FRun _ => 5 | FPopped _ => 6
  end.
Definition act_weight (a : action) : nat :=
  match a with APush _ => 13 | AStop => 3 | ANotifyOne => 6 | ANotifyAll => 5 * n + 1 end.
Definition phase_weight (ph : cphase) : nat :=
  match ph with COutside => 2 | CLocked => 1 | CEffect => 3 end.
Definition client_weight (c : cphase * list action) : nat :=
  (phase_weight c.1 + sum_list_with act_weight c.2)%nat.

Definition fmeasure (p : fpool) : nat :=
  (sum_list_with fweight (fworkers p) + 10 * length (ftasks p) + sum_list_with client_weight (fclients p))%nat.

Lemma wake_weight ws : (sum_list_with fweight (fwake <$> ws) ≤ sum_list_with fweight ws + 5 * length ws)%nat.
Proof.
  induction ws as [|w ws IH]; [done|]. rewrite fmap_cons, !sum_cons. cbn [length].
  assert (fweight (fwake w) ≤ fweight w + 5)%nat by (destruct w; cbn; lia). lia.
Qed.

Lemma worker_measure p j w p' :
  finv p → fworkers p !! j = Some w → worker_step p j w = Some p' → (fmeasure p' < fmeasure p)%nat.
Proof.
  intros Hi Hj H. pose proof (proj2 (fi_worker p Hi j w Hj)) as Hs.
  assert (∀ w', (sum_list_with fweight (<[j := w']> (fworkers p)) + fweight w
                 = sum_list_with fweight (fworkers p) + fweight w')%nat) as Hsum
    by (intros w'; by apply sum_insert).
  unfold fmeasure. destruct w as [| |t|t|t| | | | | |]; cbn [worker_step seen fweight] in *; try done.
  - destruct (fmutex p); [done|]. injection H as <-. specialize (Hsum FLocked). cbn in *. lia.
  - destruct (ftasks p) as [|t ts] eqn:Et; injection H as <-.
    + specialize (Hsum (if fstoped p then FStopping else FSleeping)). cbn. rewrite Et.
      destruct (fstoped p); cbn in *; lia.
    + specialize (Hsum (FMoved t)). cbn in *. rewrite Et. cbn. lia.
  - destruct Hs as [ts Hs]. injection H as <-. specialize (Hsum (FPopped t)). cbn in *. rewrite Hs. cbn. lia.
  - injection H as <-. specialize (Hsum (FRun t)). cbn in *. lia.
  - injection H as <-. specialize (Hsum FReady). cbn in *. lia.
  - injection H as <-. specialize (Hsum FExit). cbn in *. lia.
  - injection H as <-. specialize (Hsum FWaiting). cbn in *. lia.
  - destruct (fmutex p); [done|]. injection H as <-. specialize (Hsum FRelocked). cbn in *. lia.
  - injection H as <-. specialize (Hsum FReady). cbn in *. lia.
Qed.

Lemma client_measure p i c p' :
  length (fworkers p) = n → fclients p !! i = Some c → client_step p i c = Some p' →
  (fmeasure p' < fmeasure p)%nat.
Proof.
  intros Hn Hc H.
  assert (∀ c', (sum_list_with client_weight (<[i := c']> (fclients p)) + client_weight c
                 = sum_list_with client_weight (fclients p) + client_weight c')%nat) as Hsum
    by (intros c'; by apply sum_insert).
  unfold fmeasure, client_weight in *. pose proof (wake_weight (fworkers p)) as Hw.
  destruct c as [[| |] rest]; [destruct rest as [|[t| | |] rest]|destruct rest as [|[t| | |] rest]|];
    cbn [client_step] in H; try done.
  - destruct (fmutex p); [done|]. injection H as <-. specialize (Hsum (CLocked, APush t :: rest)). cbn in *. lia.
  - destruct (fmutex p); [done|]. injection H as <-. specialize (Hsum (CLocked, AStop :: rest)). cbn in *. lia.
  - injection H as <-. specialize (Hsum (COutside, rest)). cbn in *. lia.
  - injection H as <-. specialize (Hsum (CEffect, rest)). cbn in *. rewrite length_app. cbn. lia.
  - injection H as <-. specialize (Hsum (CEffect, rest)). cbn in *. lia.
  - assert (p' = cset p None i (COutside, rest)) as -> by (by destruct rest; injection H as <-).
    specialize (Hsum (COutside, rest)). cbn in *. lia.
Qed.

Lemma fstep_length p p' : fstep p p' → length (fworkers p') = length (fworkers p).
Proof.
  intros [p0 j w p1 Hj H|p0 i c p1 Hc H|p0 i rest j Hc Hj|p0 i rest Hc Hw]; cbn; rewrite ?length_insert; try done.
  - destruct w; cbn in H; try done;
      repeat match type of H with context [match ?x with _ => _ end] => destruct x end;
      try done; injection H as <-; cbn; by rewrite length_insert.
  - destruct c as [[| |] [|[t| | |] rest]]; cbn in H; try done;
      try (destruct (fmutex p0); [done|]); injection H as <-; cbn; by rewrite ?length_fmap.
Qed.

Lemma fstep_measure p p' :
  finv p → length (fworkers p) = n → fstep p p' → (fmeasure p' < fmeasure p)%nat.
Proof.
  intros Hi Hn Hst. revert Hi Hn.
  destruct Hst as [p0 j w p1 Hj H|p0 i c p1 Hc H|p0 i rest j Hc Hj|p0 i rest Hc Hw]; intros Hi Hn.
  - by eapply (worker_measure p0).
  - by eapply (client_measure p0).
  - pose proof (sum_insert fweight (fworkers p0) j _ FWoken Hj) as H1.
    pose proof (sum_insert client_weight (fclients p0) i _ (COutside, rest) Hc) as H2.
    unfold fmeasure, client_weight in *. cbn in *. lia.
  - pose proof (sum_insert client_weight (fclients p0) i _ (COutside, rest) Hc) as H2.
    unfold fmeasure, client_weight in *. cbn in *. lia.
Qed.

Lemma fsteps_bounded k p p' :
  finv p → length (fworkers p) = n → nsteps fstep k p p' → (k + fmeasure p' ≤ fmeasure p)%nat.
Proof.
  intros Hi Hn Hk. induction Hk as [p|k p1 p2 p3 H12 _ IH]; [lia|].
  pose proof (fstep_measure p1 p2 Hi Hn H12). pose proof (fstep_length p1 p2 H12).
  specialize (IH (finv_step p1 p2 Hi ltac:(by left)) ltac:(lia)). lia.
Qed.
End Measure.

(** ** [set/thread_pool/main.cpp] *)

(** The tasks [main] pushes: the one that throws, and the ten that print a number. *)
Definition main_tasks : list task := seq 0 11.

(** The process: its threads run, or it is over with a status. *)
Inductive process : Type := Running (p : fpool) | Over (status : Z) (p : fpool).

(** [return 0]: the main thread has made its calls, and [tp] is destroyed. *)
Definition end_of_main (p : fpool) : option process :=
  match fclients p !! 0%nat with
  | Some (COutside, []) =>
      Some (Over (match ThreadPool_destroy (abs_pool p) with Exit c => c | _ => 0 end) p)
  | _ => None
  end.

Inductive main_step : process → process → Prop :=
| m_thread p p' : fstep p p' → main_step (Running p) (Running p')
| m_return p q : end_of_main p = Some q → main_step (Running p) q.

Inductive any_main_step : process → process → Prop :=
| m_step s s' : main_step s s' → any_main_step s s'
| m_spurious p p' : fspurious p p' → any_main_step (Running p) (Running p').

Definition main_start (k : nat) : process := Running (fpool_new k [submit main_tasks]).

Lemma end_of_main_returns p q :
  end_of_main p = Some q → fclients p !! 0%nat = Some (COutside, []) ∧ ∃ c, q = Over c p.
Proof.
  unfold end_of_main. destruct (fclients p !! 0%nat) as [[[| |] [|a r]]|]; try done.
  intros [= <-]. by split; [|eexists].
Qed.

(** While the process runs, its threads are those of a pool. *)
Lemma main_running p0 s :
  rtc any_main_step (Running p0) s →
  match s with
  | Running p => rtc any_fstep p0 p
  | Over c p => rtc any_fstep p0 p ∧ end_of_main p = Some (Over c p)
  end.
Proof.
  intros Hr. refine (rtc_ind_r (R:=any_main_step) (λ s, match s with
    | Running p => rtc any_fstep p0 p
    | Over c p => rtc any_fstep p0 p ∧ end_of_main p = Some (Over c p) end) (Running p0) _ _ s Hr); [apply rtc_refl|].
  intros s1 s2 _ [s3 s4 Hm|p p' Hm] IH.
  - destruct Hm as [p p' Hm|p q Hm]; [eapply rtc_r; [exact IH|by left]|].
    destruct (end_of_main_returns p q Hm) as (_ & c & ->). done.
  - eapply rtc_r; [exact IH|by right].
Qed.

(** When [main] returns it has pushed every task and set the flag. *)
Lemma main_returned k ts p :
  rtc any_fstep (fpool_new k [submit ts]) p → fclients p !! 0%nat = Some (COutside, []) →
  fpushed p = ts ∧ fstoped p = true.
Proof.
  intros Hr Hc. destruct (finv_reachable k _ p Hr) as [_ Ha].
  destruct (invariant_rtc (sealed ts) _ _ (sealed_step ts) (sealed_new _ _) Ha) as [Hcl _].
  assert (clients (abs_pool p) !! 0%nat = Some []) as H0 by (cbn; by rewrite list_lookup_fmap, Hc).
  destruct Hcl as [(_ & left & _ & [E|E])|(Hs & Hp & _)]; [| |done]; rewrite E in H0; [|done].
  by destruct left.
Qed.

(** A process that cannot go on is over. *)
Lemma main_progress k ts s :
  rtc any_main_step (Running (fpool_new k [submit ts])) s → (∀ s', ¬ main_step s s') → ∃ c p, s = Over c p.
Proof.
  intros Hr Hs. destruct s as [p|c p]; [|by eauto]. exfalso. apply main_running in Hr.
  destruct (finv_reachable k _ p Hr) as [Hi Ha].
  assert (fstuck p) as Hst by (intros p' H; by eapply Hs, m_thread).
  pose proof (stuck_clients _ (stuck_abs p Hi Hst)) as Hcl.
  assert (length (fclients p) = 1%nat) as Hlen.
  { destruct (invariant_rtc (sealed ts) _ _ (sealed_step ts) (sealed_new _ _) Ha) as [H _].
    rewrite <- (length_fmap snd (fclients p)). change (length (clients (abs_pool p)) = 1%nat).
    by destruct H as [(_ & left & _ & [-> | ->])|(_ & _ & [-> | ->])]. }
  destruct (fclients p) as [|[ph r] l] eqn:Ec; [done|].
  assert (ph = COutside) as -> by (apply (stuck_client_outside p 0 (ph, r)); rewrite ?Ec; done).
  assert (r = []) as -> by (apply Hcl; cbn; rewrite Ec; by left).
  eapply Hs, m_return. unfold end_of_main. by rewrite Ec.
Qed.

(** The main thread alone, while no worker waits. *)
Lemma submits_alone ts tk ws pu sa fi :
  FWaiting ∉ ws →
  rtc fstep (mkfpool None false tk ws [(COutside, submit ts)] pu sa fi)
            (mkfpool None true (tk ++ ts) (fwake <$> ws) [(COutside, [])] (pu ++ ts) sa fi).
Proof.
  intros Hw. revert tk pu. induction ts as [|t ts IH]; intros tk pu.
  - rewrite !app_nil_r. do 3 (eapply rtc_l; [by eapply (f_client _ 0)|]).
    eapply rtc_l; [by eapply (f_client _ 0)|]. apply rtc_refl.
  - do 3 (eapply rtc_l; [by eapply (f_client _ 0)|]).
    eapply rtc_l; [by eapply (f_notify_nobody _ 0)|]. cbn.
    specialize (IH (tk ++ [t]) (pu ++ [t])). by rewrite <- !app_assoc in IH.
Qed.

(** One worker alone, with the mutex free. *)
Lemma drains_alone ts st ws cl pu sa fi :
  rtc fstep (mkfpool None st ts (FReady :: ws) cl pu sa fi)
            (mkfpool None st [] (FReady :: ws) cl pu (sa ++ ts) (fi ++ ts)).
Proof.
  revert sa fi. induction ts as [|t ts IH]; intros sa fi; [rewrite !app_nil_r; apply rtc_refl|].
  do 5 (eapply rtc_l; [by eapply (f_worker _ 0)|]). cbn.
  specialize (IH (sa ++ [t]) (fi ++ [t])). by rewrite <- !app_assoc in IH.
Qed.

Lemma fsteps_main p p' : rtc fstep p p' → rtc main_step (Running p) (Running p').
Proof. induction 1 as [|p1 p2 p3 H _ IH]; [apply rtc_refl|]. eapply rtc_l; [by apply m_thread|done]. Qed.

(** [main] may return before a task is taken, and after all of them are over. *)
Lemma main_extremes k :
  (∃ p, rtc main_step (main_start k) (Over 134 p) ∧ fstarted p = []) ∧
  (∃ p, rtc main_step (main_start k) (Over 134 p) ∧ ffinished p = main_tasks).
Proof.
  unfold main_start, fpool_new. destruct (max_thread_nums k) as [|n] eqn:En;
    [pose proof (max_thread_nums_pos k); lia|].
  assert (FWaiting ∉ replicate (S n) FReady) as Hw by (by intros [? _]%elem_of_replicate).
  assert (fwake <$> replicate (S n) FReady = replicate (S n) FReady) as Hf by apply fmap_replicate.
  pose proof (submits_alone main_tasks [] _ [] [] [] Hw) as Hm. rewrite Hf in Hm.
  split; eexists; split.
  - eapply rtc_r; [apply fsteps_main, Hm|by apply m_return].
  - done.
  - eapply rtc_r; [apply fsteps_main; etrans; [apply Hm|apply drains_alone]|by apply m_return].
  - done.
Qed.

Lemma main_bounded k m s :
  nsteps main_step m (main_start k) s →
  (m ≤ S (fmeasure (max_thread_nums k) (fpool_new k [submit main_tasks])))%nat.
Proof.
  unfold main_start. set (p0 := fpool_new _ _). intros Hm.
  assert (∃ p m', nsteps fstep m' p0 p ∧ (m ≤ S m')%nat) as (p & m' & Hp & Hle).
  { clearbody p0. remember (Running p0) as s0 eqn:E. revert p0 E.
    induction Hm as [s0|m s1 s2 s3 Hs Hm IH]; intros p0 ->; [exists p0, 0%nat; split; [constructor|lia]|].
    inversion Hs as [? p1 H1|? q Hq]; subst.
    - destruct (IH p1 eq_refl) as (p & m' & Hp & Hle). exists p, (S m'). split; [by econstructor|lia].
    - destruct (end_of_main_returns p0 s2 Hq) as (_ & c & ->).
      inversion Hm as [|? ? s4 ? H4]; subst; [exists p0, 0%nat; split; [constructor|lia]|inversion H4]. }
  apply (fsteps_bounded (max_thread_nums k)) in Hp; [lia|apply finv_new|apply length_replicate].
Qed.

(** ** The theorems *)

(** C21: The code implements the pool.  Whatever the interleaving of the single statements,
    spurious wake-ups included, a state of the code is a state the pool of [ThreadPool]
    reaches; no two threads, workers or clients, are inside their critical sections at
    once; and a state in which no thread can go on is one in which the pool cannot. *)
Theorem pool_steps_refine k cs p :
  rtc any_fstep (fpool_new k cs) p →
  reachable (ThreadPool_new k cs) (abs_pool p) ∧
  (∀ j w j' w', fworkers p !! j = Some w → fworkers p !! j' = Some w' →
     in_section w = true → in_section w' = true → j = j') ∧
  (∀ j w i c, fworkers p !! j = Some w → fclients p !! i = Some c →
     in_section w = true → in_phase c.1 = true → False) ∧
  (∀ i c i' c', fclients p !! i = Some c → fclients p !! i' = Some c' →
     in_phase c.1 = true → in_phase c'.1 = true → i = i') ∧
  (fstuck p → stuck (abs_pool p)).
Proof.
  intros Hr. destruct (finv_reachable k cs p Hr) as [Hi Ha]. split; [done|].
  assert (∀ j w, fworkers p !! j = Some w → in_section w = true → fmutex p = Some (Wk j)) as Hw.
  { intros j w Hj E. destruct (fi_worker p Hi j w Hj) as [Hm _]. rewrite E in Hm. symmetry in Hm.
    by apply bool_decide_eq_true in Hm. }
  assert (∀ i c, fclients p !! i = Some c → in_phase c.1 = true → fmutex p = Some (Cl i)) as Hc.
  { intros i c Hj E. destruct (fi_client p Hi i c Hj) as [Hm _]. rewrite E in Hm. symmetry in Hm.
    by apply bool_decide_eq_true in Hm. }
  split; [|split; [|split]].
  - intros j w j' w' Hj Hj' E E'. pose proof (Hw j w Hj E). pose proof (Hw j' w' Hj' E'). congruence.
  - intros j w i c Hj Hj' E E'. pose proof (Hw j w Hj E). pose proof (Hc i c Hj' E'). congruence.
  - intros i c i' c' Hj Hj' E E'. pose proof (Hc i c Hj E). pose proof (Hc i' c' Hj' E'). congruence.
  - by apply stuck_abs.
Qed.

(** C4: Completion of the code.  For a client that pushes every task and then calls
    [stop], while the pool object lives on (at the end of [main] it does not, see
    [pool_main_outcome]): the statements of all threads come to an end, after a number of
    steps bounded in the number of workers and of tasks unless there are spurious
    wake-ups, and then all tasks were run and finished, in the order of the pushes, and
    every worker has left [bind_run]. *)
Theorem pool_code_completes k ts :
  (∀ m p, nsteps fstep m (fpool_new k [submit ts]) p →
     (m ≤ fmeasure (max_thread_nums k) (fpool_new k [submit ts]))%nat) ∧
  (∀ p, rtc any_fstep (fpool_new k [submit ts]) p → fstuck p →
     ftasks p = [] ∧ fstarted p = ts ∧ ffinished p ≡ₚ ts ∧ ∀ w, w ∈ fworkers p → w = FExit).
Proof.
  split.
  - intros m p Hm. apply (fsteps_bounded (max_thread_nums k)) in Hm; [lia|apply finv_new|].
    cbn. apply length_replicate.
  - intros p Hr Hs. destruct (finv_reachable k _ p Hr) as [Hi Ha].
    destruct (pool_submit_completes k ts (abs_pool p) Ha (stuck_abs p Hi Hs)) as (H1 & H2 & H3 & H4).
    split_and!; [done..|]. intros w Hin. apply list_elem_of_lookup in Hin as [j Hj].
    assert (abs_worker w = WExit) as E by (apply H4, list_elem_of_fmap; exists w; split; [done|]; by eapply list_elem_of_lookup_2).
    destruct w; try done. exfalso. by eapply Hs, f_worker.
Qed.

(** C2: What [main] does.  Whatever the interleaving, the process ends, after a bounded
    number of steps but for spurious wake-ups, and always through [std::terminate]
    (status 134), because the end of the scope destroys the pool with its threads
    joinable.  By then all tasks have been pushed and the pool was told to stop, the tasks
    that were taken are the first of them and each was finished or is being run; how many
    is left to chance: there are runs in which none was started, and runs in which all
    are over. *)
Theorem pool_main_outcome k :
  (∀ m s, nsteps main_step m (main_start k) s →
     (m ≤ S (fmeasure (max_thread_nums k) (fpool_new k [submit main_tasks])))%nat) ∧
  (∀ s, rtc any_main_step (main_start k) s → (∀ s', ¬ main_step s s') → ∃ c p, s = Over c p) ∧
  (∀ c p, rtc any_main_step (main_start k) (Over c p) →
     c = 134 ∧ fstoped p = true ∧ fpushed p = main_tasks ∧ fstarted p ++ ftasks p = main_tasks ∧
     fstarted p ≡ₚ ffinished p ++ running (abs_worker <$> fworkers p)) ∧
  (∃ p, rtc main_step (main_start k) (Over 134 p) ∧ fstarted p = []) ∧
  (∃ p, rtc main_step (main_start k) (Over 134 p) ∧ ffinished p = main_tasks).
Proof.
  split; [apply main_bounded|]. split; [intros s; apply main_progress|].
  split; [|apply main_extremes].
  intros c p Hr. destruct (main_running _ _ Hr) as [Hp He].
  destruct (end_of_main_returns p _ He) as (Hc & _).
  destruct (main_returned k main_tasks p Hp Hc) as [Hpu Hst].
  destruct (finv_reachable k _ p Hp) as [_ Ha].
  destruct (invariant_rtc conserved _ _ conserved_step (conserved_new _ _) Ha) as [Hf Hd].
  unfold end_of_main in He. rewrite Hc in He. injection He as He.
  rewrite (pool_destroyed_joinable k _ _ Ha) in He. cbn in Hf, Hd. rewrite Hpu in Hf. done.
Qed.

(** ** Runs *)

(** The next statement of a thread; [notify_one] wakes the first worker that waits. *)
Definition fexec (x : holder) (p : fpool) : option fpool :=
  match x with
  | Wk j => match fworkers p !! j with Some w => worker_step p j w | None => None end
  | Cl i =>
      match fclients p !! i with
      | Some (COutside, ANotifyOne :: rest) =>
          match list_find (λ w, w = FWaiting) (fworkers p) with
          | Some (j, _) => Some (fset (cset p (fmutex p) i (COutside, rest)) (fmutex p) j FWoken)
          | None => Some (cset p (fmutex p) i (COutside, rest))
          end
      | Some c => client_step p i c
      | None => None
      end
  end.

Lemma fexec_sound x p p' : fexec x p = Some p' → fstep p p'.
Proof.
  destruct x as [j|i]; cbn.
  - destruct (fworkers p !! j) as [w|] eqn:E; [|done]. by apply f_worker.
  - destruct (fclients p !! i) as [[ph r]|] eqn:E; [|done].
    destruct ph; [destruct r as [|[t| | |] r]| |]; try (by apply (f_client _ _ _ _ E)).
    destruct (list_find _ _) as [[j w]|] eqn:F; intros [= <-].
    + apply list_find_Some in F as (Hj & -> & _). by apply f_notify_one.
    + apply list_find_None in F. apply f_notify_nobody; [done|].
      intros Hin. by apply (proj1 (Forall_forall _ _) F FWaiting Hin).
Qed.

Fixpoint fexecs (xs : list holder) (p : fpool) : option fpool :=
  match xs with
  | [] => Some p
  | x :: xs => match fexec x p with Some p' => fexecs xs p' | None => None end
  end.

Lemma fexecs_reachable xs p p' : fexecs xs p = Some p' → rtc any_fstep p p'.
Proof.
  revert p. induction xs as [|x xs IH]; intros p; cbn; [intros [= <-]; apply rtc_refl|].
  destruct (fexec x p) as [p1|] eqn:E; [|done]. intros H.
  apply rtc_l with p1; [left; by eapply fexec_sound|by apply IH].
Qed.

(** One worker goes to sleep, is woken by the push, runs the task and leaves. *)
Definition one_worker : fpool := fpool_new 1 [submit [7%nat]].
Definition sleepy : list holder :=
  replicate 3 (Wk 0) ++ replicate 4 (Cl 0) ++ replicate 2 (Wk 0) ++ replicate 4 (Cl 0) ++ replicate 8 (Wk 0).

Lemma pool_steps_refine_witness :
  ∃ p, fexecs sleepy one_worker = Some p ∧
       reachable (ThreadPool_new 1 [submit [7%nat]]) (abs_pool p) ∧ finished (abs_pool p) = [7%nat].
Proof.
  eexists. split; [vm_compute; reflexivity|]. split; [|reflexivity].
  apply (pool_steps_refine 1 [submit [7%nat]]).
  apply (fexecs_reachable sleepy). vm_compute. reflexivity.
Defined.

Lemma pool_code_completes_witness :
  ∃ p, fexecs sleepy one_worker = Some p ∧ ftasks p = [] ∧ fstarted p = [7%nat] ∧
       ∀ w, w ∈ fworkers p → w = FExit.
Proof.
  eexists. split; [vm_compute; reflexivity|].
  match goal with |- ftasks ?q = _ ∧ _ =>
    destruct (proj2 (pool_code_completes 1 [7%nat]) q) as (H1 & H2 & _ & H4); [| |by split] end.
  - apply (fexecs_reachable sleepy). vm_compute. reflexivity.
  - intros q Hq. inversion Hq as [? j w ? Hj H|? i c ? Hc H|? i rest j Hc Hj|? i rest Hc Hn]; subst.
    + destruct j as [|j]; [|by destruct j]. injection Hj as <-. done.
    + destruct i as [|i]; [|by destruct i]. injection Hc as <-. done.
    + destruct j as [|j]; [done|by destruct j].
    + destruct i as [|i]; [done|by destruct i].
Defined.
