(* ===== verification/Threads.v ===== *)
(** * Threads: programs that synchronise through a flag and a condition variable

    The socket demonstrations ([set/tcp_rest], [set/api], [set/sigurg]) run a
    client and a server thread in one process; the client waits on a
    [std::condition_variable] until an atomic flag is set.  A thread is a tree of
    the operations it performs; a process is a list of threads over shared flags
    and mutexes and one kernel, and a step is one operation of one thread.

    [cv.wait(lk, pred)] is not one step: it evaluates the predicate, and only
    then releases the mutex and blocks. *)

From S2P Require Import Prelude Sys.

(** ** Threads *)

(** How a thread ends the whole process: a failed [assert], or undefined
    behaviour. *)
Inductive stop_reason : Type := AssertionFailed | Faulted (u : ub).

Inductive prog : Type :=
| PRet
| PStop (r : stop_reason)
| PCall (c : syscall) (f : reply → prog)
| PLock (m : nat) (p : prog)                    (** [std::unique_lock] *)
| PUnlock (m : nat) (p : prog)
| PWait (cv m fl : nat) (p : prog)              (** [cv.wait(lk, flag == true)] *)
| PSet (fl : nat) (p : prog)                    (** [flag = true] *)
| PNotifyOne (cv : nat) (p : prog)
| PNotifyAll (cv : nat) (p : prog).

Declare Scope prog_scope.
Delimit Scope prog_scope with prog.
Notation "r ⇐ c ; p" := (PCall c (λ r, p))
  (at level 100, c at next level, p at level 200, right associativity) : prog_scope.

(** [if (b) printf(...)] before the rest. *)
Definition say_if (b : bool) (s : string) (p : prog) : prog :=
  if b then PCall (sys_print s) (λ _, p) else p.
Definition say (s : string) (p : prog) : prog := PCall (sys_print s) (λ _, p).

(** Where a thread is: about to perform the first operation of its program; in a
    wait whose predicate was false, with the mutex still held; blocked on the
    condition variable; woken, without the mutex yet. *)
Inductive tstate : Type :=
| TRun (p : prog)
| TDoze (cv m fl : nat) (p : prog)
| TBlocked (cv m fl : nat) (p : prog)
| TWake (cv m fl : nat) (p : prog).

(** ** Processes *)

Record process : Type := mkprocess {
  threads : list tstate;
  flags : gset nat;
  owner : gmap nat nat;
  stopped : option stop_reason;
  hist : list (nat * event)
}.

Definition spawn (ps : list prog) : process := mkprocess (TRun <$> ps) ∅ ∅ None [].

Definition set_thread (i : nat) (t : tstate) (s : process) : process :=
  mkprocess (<[i := t]> (threads s)) (flags s) (owner s) (stopped s) (hist s).
Definition take_mutex (m i : nat) (s : process) : process :=
  mkprocess (threads s) (flags s) (<[m := i]> (owner s)) (stopped s) (hist s).
Definition release_mutex (m : nat) (s : process) : process :=
  mkprocess (threads s) (flags s) (delete m (owner s)) (stopped s) (hist s).
Definition set_flag (fl : nat) (s : process) : process :=
  mkprocess (threads s) ({[fl]} ∪ flags s) (owner s) (stopped s) (hist s).
Definition log_call (i : nat) (e : event) (s : process) : process :=
  mkprocess (threads s) (flags s) (owner s) (stopped s) (hist s ++ [(i, e)]).

Definition wake_on (cv : nat) (t : tstate) : tstate :=
  match t with
  | TBlocked cv' m fl p => if decide (cv' = cv) then TWake cv' m fl p else t
  | _ => t
  end.
Definition wake_all (cv : nat) (s : process) : process :=
  mkprocess (wake_on cv <$> threads s) (flags s) (owner s) (stopped s) (hist s).
Definition blocked_on (cv : nat) (t : tstate) : Prop :=
  match t with TBlocked cv' _ _ _ => cv' = cv | _ => False end.

Inductive pstep (k : kernel) : process → process → Prop :=
| p_call s i c f :
    threads s !! i = Some (TRun (PCall c f)) → stopped s = None →
    pstep k s (set_thread i (TRun (f (k (snd <$> hist s) c)))
                 (log_call i (c, k (snd <$> hist s) c) s))
| p_stop s i r :
    threads s !! i = Some (TRun (PStop r)) → stopped s = None →
    pstep k s (mkprocess (threads s) (flags s) (owner s) (Some r) (hist s))
| p_lock s i m p :
    threads s !! i = Some (TRun (PLock m p)) → stopped s = None → owner s !! m = None →
    pstep k s (set_thread i (TRun p) (take_mutex m i s))
| p_unlock s i m p :
    threads s !! i = Some (TRun (PUnlock m p)) → stopped s = None →
    pstep k s (set_thread i (TRun p) (release_mutex m s))
| p_pred_true s i cv m fl p :
    threads s !! i = Some (TRun (PWait cv m fl p)) → stopped s = None → fl ∈ flags s →
    pstep k s (set_thread i (TRun p) s)
| p_pred_false s i cv m fl p :
    threads s !! i = Some (TRun (PWait cv m fl p)) → stopped s = None → fl ∉ flags s →
    pstep k s (set_thread i (TDoze cv m fl p) s)
| p_block s i cv m fl p :
    threads s !! i = Some (TDoze cv m fl p) → stopped s = None →
    pstep k s (set_thread i (TBlocked cv m fl p) (release_mutex m s))
| p_reacquire s i cv m fl p :
    threads s !! i = Some (TWake cv m fl p) → stopped s = None → owner s !! m = None →
    pstep k s (set_thread i (TRun (PWait cv m fl p)) (take_mutex m i s))
| p_set s i fl p :
    threads s !! i = Some (TRun (PSet fl p)) → stopped s = None →
    pstep k s (set_thread i (TRun p) (set_flag fl s))
| p_notify_one s i cv p j t :
    threads s !! i = Some (TRun (PNotifyOne cv p)) → stopped s = None →
    threads s !! j = Some t → blocked_on cv t →
    pstep k s (set_thread j (wake_on cv t) (set_thread i (TRun p) s))
| p_notify_nobody s i cv p :
    threads s !! i = Some (TRun (PNotifyOne cv p)) → stopped s = None →
    (∀ j t, threads s !! j = Some t → ¬ blocked_on cv t) →
    pstep k s (set_thread i (TRun p) s)
| p_notify_all s i cv p :
    threads s !! i = Some (TRun (PNotifyAll cv p)) → stopped s = None →
    pstep k s (wake_all cv (set_thread i (TRun p) s)).

(** A wait that returns without a notification. *)
Inductive spuriously : process → process → Prop :=
| p_spurious s i cv m fl p :
    threads s !! i = Some (TBlocked cv m fl p) →
    spuriously s (set_thread i (TWake cv m fl p) s).

Definition any_pstep (k : kernel) (s s' : process) : Prop := pstep k s s' ∨ spuriously s s'.

(** What a thread still has to do. *)
Definition todo (t : tstate) : prog :=
  match t with
  | TRun p => p
  | TDoze cv m fl p | TBlocked cv m fl p | TWake cv m fl p => PWait cv m fl p
  end.

Lemma todo_wake_on cv t : todo (wake_on cv t) = todo t.
Proof. destruct t; cbn; try done. by case_decide. Qed.

(** ** Order by a flag

    A flag is set only after a [good] call, and the [bad] calls come only after a
    wait for the flag: then, in every interleaving, a [bad] call is preceded by a
    [good] one. *)

Section order.
Context (fl : nat) (good bad : syscall → Prop).

(** No [bad] call before a wait for [fl]. *)
Inductive guarded : prog → Prop :=
| g_ret : guarded PRet
| g_stop r : guarded (PStop r)
| g_call c f : ¬ bad c → (∀ r, guarded (f r)) → guarded (PCall c f)
| g_lock m p : guarded p → guarded (PLock m p)
| g_unlock m p : guarded p → guarded (PUnlock m p)
| g_wait cv m p : guarded (PWait cv m fl p)
| g_wait_other cv m fl' p : guarded p → guarded (PWait cv m fl' p)
| g_set fl' p : guarded p → guarded (PSet fl' p)
| g_notify_one cv p : guarded p → guarded (PNotifyOne cv p)
| g_notify_all cv p : guarded p → guarded (PNotifyAll cv p).

(** [fl] is not set before a [good] call. *)
Inductive announced : prog → Prop :=
| a_ret : announced PRet
| a_stop r : announced (PStop r)
| a_good c f : good c → announced (PCall c f)
| a_call c f : (∀ r, announced (f r)) → announced (PCall c f)
| a_lock m p : announced p → announced (PLock m p)
| a_unlock m p : announced p → announced (PUnlock m p)
| a_wait cv m fl' p : announced p → announced (PWait cv m fl' p)
| a_set fl' p : fl' ≠ fl → announced p → announced (PSet fl' p)
| a_notify_one cv p : announced p → announced (PNotifyOne cv p)
| a_notify_all cv p : announced p → announced (PNotifyAll cv p).

Definition seen (h : list (nat * event)) : Prop := ∃ j e, (j, e) ∈ h ∧ good e.1.

(** Every [bad] call of the history has a [good] one before it. *)
Definition ordered (h : list (nat * event)) : Prop :=
  ∀ h1 i e h2, h = h1 ++ (i, e) :: h2 → bad e.1 → seen h1.

Definition client_ok (s : process) (t : tstate) : Prop := guarded (todo t) ∨ fl ∈ flags s.
Definition server_ok (s : process) (t : tstate) : Prop := announced (todo t) ∨ seen (hist s).

Record order_inv (s : process) : Prop := {
  oi_flag : fl ∈ flags s → seen (hist s);
  oi_client : Forall (client_ok s) (threads s);
  oi_server : Forall (server_ok s) (threads s);
  oi_order : ordered (hist s)
}.

Lemma seen_snoc h x : seen h → seen (h ++ [x]).
Proof. intros (j & e & Hin & Hg). exists j, e. split; [set_solver|done]. Qed.

Lemma ordered_snoc h i e : ordered h → (bad e.1 → seen h) → ordered (h ++ [(i, e)]).
Proof.
  intros Ho Hb h1 j e' h2 Heq Hbad.
  destruct (decide (h2 = [])) as [->|Hne].
  - apply app_inj_tail in Heq as [-> [= -> ->]]. auto.
  - destruct (exists_last Hne) as (h3 & z & ->).
    rewrite app_comm_cons, app_assoc in Heq. apply app_inj_tail in Heq as [-> _].
    by apply (Ho h1 j e' h3).
Qed.

(** A thread moves on, nothing else changes for the invariant. *)
Lemma order_inv_move s s' i t' :
  order_inv s → flags s ⊆ flags s' → hist s' = hist s → threads s' = <[i := t']> (threads s) →
  (fl ∈ flags s' → fl ∉ flags s → seen (hist s)) →
  client_ok s' t' → server_ok s t' → order_inv s'.
Proof.
  intros [Hf Hc Hs Ho] Hfl Hh Ht Hnew Ct St. constructor; rewrite ?Hh, ?Ht; [|..|done].
  - intros Hin. destruct (decide (fl ∈ flags s)); auto.
  - apply Forall_insert; [|done]. eapply Forall_impl; [exact Hc|].
    intros t [?|?]; [by left|right; set_solver].
  - unfold server_ok. rewrite Hh. by apply Forall_insert.
Qed.

Lemma guarded_rest s i p :
  order_inv s → threads s !! i = Some (TRun p) → guarded p ∨ fl ∈ flags s.
Proof. intros [_ Hc _ _] Hi. by apply (Forall_lookup_1 _ _ _ _ Hc Hi). Qed.
Lemma announced_rest s i p :
  order_inv s → threads s !! i = Some (TRun p) → announced p ∨ seen (hist s).
Proof. intros [_ _ Hs _] Hi. by apply (Forall_lookup_1 _ _ _ _ Hs Hi). Qed.

Lemma order_inv_call s i c f r :
  order_inv s → threads s !! i = Some (TRun (PCall c f)) →
  order_inv (set_thread i (TRun (f r)) (log_call i (c, r) s)).
Proof.
  intros Hi Ht. pose proof (guarded_rest _ _ _ Hi Ht) as Hg.
  pose proof (announced_rest _ _ _ Hi Ht) as Ha. destruct Hi as [Hf Hc Hs Ho].
  constructor; cbn.
  - intros Hin. by apply seen_snoc, Hf.
  - apply Forall_insert; [done|]. destruct Hg as [Hg|]; [|by right].
    left. inversion Hg; subst; cbn; auto.
  - apply Forall_insert.
    + eapply Forall_impl; [exact Hs|]. intros t [?|?]; [by left|right; by apply seen_snoc].
    + destruct Ha as [Ha|]; [|right; by apply seen_snoc].
      inversion Ha; subst; [right|left; cbn; auto].
      exists i, (c, r). split; [set_solver|done].
  - apply ordered_snoc; [done|]. intros Hb. destruct Hg as [Hg|Hin]; [|by apply Hf].
    inversion Hg as [| |? ? Hn| | | | | | |]; subst. by destruct (Hn Hb).
Qed.

Lemma order_inv_wake s i t cv :
  order_inv s → threads s !! i = Some t → order_inv (set_thread i (wake_on cv t) s).
Proof.
  intros Hi Ht. apply (order_inv_move s _ i (wake_on cv t)); try done;
    unfold client_ok, server_ok; rewrite todo_wake_on;
    destruct Hi as [_ Hc Hs _];
    [by apply (Forall_lookup_1 _ _ _ _ Hc Ht)|by apply (Forall_lookup_1 _ _ _ _ Hs Ht)].
Qed.

(** The obligations of [order_inv_move] for a thread that leaves the operation
    at the head of its program. *)
Ltac order_move i q Hi Ht :=
  pose proof (guarded_rest _ _ _ Hi Ht) as Hg; pose proof (announced_rest _ _ _ Hi Ht) as Ha;
  apply (order_inv_move _ _ i q Hi); cbn; try done; try set_solver;
  [destruct Hg as [Hg|]; [left|right; cbn; set_solver]; inversion Hg; subst; cbn; auto using guarded
  |destruct Ha as [Ha|]; [left|by right]; inversion Ha; subst; cbn; auto using announced].

Lemma order_inv_wake_all s cv : order_inv s → order_inv (wake_all cv s).
Proof.
  intros [Hf Hc Hs Ho]. constructor; cbn; try done; apply Forall_fmap.
  - eapply Forall_impl; [exact Hc|]. intros t Hok. unfold compose, client_ok in *.
    by rewrite todo_wake_on.
  - eapply Forall_impl; [exact Hs|]. intros t Hok. unfold compose, server_ok in *.
    by rewrite todo_wake_on.
Qed.

Lemma order_inv_todo s i t t' :
  order_inv s → threads s !! i = Some t → todo t' = todo t →
  client_ok s t' ∧ server_ok s t'.
Proof.
  intros [_ Hc Hs _] Ht E. unfold client_ok, server_ok. rewrite E.
  split; [by apply (Forall_lookup_1 _ _ _ _ Hc Ht)|by apply (Forall_lookup_1 _ _ _ _ Hs Ht)].
Qed.

Lemma order_inv_step k s s' : any_pstep k s s' → order_inv s → order_inv s'.
Proof.
  intros [Hst|Hst] Hi.
  - destruct Hst as [s i c f Ht _|s i r Ht _|s i m p Ht _ _|s i m p Ht _|s i cv m fl' p Ht _ Hin
      |s i cv m fl' p Ht _ Hn|s i cv m fl' p Ht _|s i cv m fl' p Ht _ _|s i fl' p Ht _
      |s i cv p j t Ht _ Hj Hb|s i cv p Ht _ _|s i cv p Ht _].
    + by apply order_inv_call.
    + destruct Hi. by constructor.
    + order_move i (TRun p) Hi Ht.
    + order_move i (TRun p) Hi Ht.
    + destruct (decide (fl' = fl)) as [->|Hne]; [|order_move i (TRun p) Hi Ht; by inversion Hg].
      pose proof (announced_rest _ _ _ Hi Ht) as Ha.
      apply (order_inv_move s _ i (TRun p) Hi); try done; [by right|].
      destruct Ha as [Ha|]; [left|by right]. by inversion Ha.
    + destruct (order_inv_todo s i _ (TDoze cv m fl' p) Hi Ht eq_refl).
      by apply (order_inv_move s _ i (TDoze cv m fl' p)).
    + destruct (order_inv_todo s i _ (TBlocked cv m fl' p) Hi Ht eq_refl).
      by apply (order_inv_move s _ i (TBlocked cv m fl' p)).
    + destruct (order_inv_todo s i _ (TRun (PWait cv m fl' p)) Hi Ht eq_refl).
      by apply (order_inv_move s _ i (TRun (PWait cv m fl' p))).
    + pose proof (guarded_rest _ _ _ Hi Ht) as Hg. pose proof (announced_rest _ _ _ Hi Ht) as Ha.
      apply (order_inv_move s _ i (TRun p) Hi); cbn; try done; try set_solver.
      * intros Hin Hni. destruct Ha as [Ha|]; [|done]. inversion Ha; subst. set_solver.
      * destruct Hg as [Hg|]; [left; by inversion Hg|right; cbn; set_solver].
      * destruct Ha as [Ha|]; [left; by inversion Ha|by right].
    + assert (order_inv (set_thread i (TRun p) s)) by order_move i (TRun p) Hi Ht.
      apply order_inv_wake; [done|]. cbn.
      rewrite list_lookup_insert_ne; [done|]. intros ->. rewrite Ht in Hj. by injection Hj as <-.
    + order_move i (TRun p) Hi Ht.
    + apply order_inv_wake_all. order_move i (TRun p) Hi Ht.
  - destruct Hst as [s i cv m fl' p Ht].
    destruct (order_inv_todo s i _ (TWake cv m fl' p) Hi Ht eq_refl).
    by apply (order_inv_move s _ i (TWake cv m fl' p)).
Qed.

Lemma order_by_flag k ps s :
  Forall guarded ps → Forall announced ps → rtc (any_pstep k) (spawn ps) s → ordered (hist s).
Proof.
  intros Hg Ha Hr. cut (order_inv s); [by destruct 1|].
  apply (rtc_ind_r (R:=any_pstep k) order_inv (spawn ps)); [| |done].
  - constructor; cbn; [set_solver| | |by intros [|]].
    + apply Forall_fmap. eapply Forall_impl; [exact Hg|]. by left.
    + apply Forall_fmap. eapply Forall_impl; [exact Ha|]. by left.
  - eauto using order_inv_step.
Qed.
End order.

(** ** A wait that no thread ends *)

Section silence.
Context (cv : nat).

(** Never notifies [cv]. *)
Inductive silent : prog → Prop :=
| n_ret : silent PRet
| n_stop r : silent (PStop r)
| n_call c f : (∀ r, silent (f r)) → silent (PCall c f)
| n_lock m p : silent p → silent (PLock m p)
| n_unlock m p : silent p → silent (PUnlock m p)
| n_wait cv' m fl p : silent p → silent (PWait cv' m fl p)
| n_set fl p : silent p → silent (PSet fl p)
| n_notify_one cv' p : cv' ≠ cv → silent p → silent (PNotifyOne cv' p)
| n_notify_all cv' p : cv' ≠ cv → silent p → silent (PNotifyAll cv' p).

(** Thread [i] is blocked on [cv] and no other thread will notify it. *)
Record deserted (i : nat) (t : tstate) (s : process) : Prop := {
  de_blocked : threads s !! i = Some t ∧ blocked_on cv t;
  de_silent : ∀ j u, j ≠ i → threads s !! j = Some u → silent (todo u)
}.

Lemma deserted_set i t s j u s' :
  deserted i t s → j ≠ i → silent (todo u) → threads s' = <[j := u]> (threads s) →
  deserted i t s'.
Proof.
  intros [[Hi Hb] Hs] Hne Hu E. constructor; rewrite E.
  - by rewrite list_lookup_insert_ne.
  - intros j' u' Hj' Hl. destruct (decide (j' = j)) as [->|Hjj].
    + assert (is_Some (threads s !! j)) as [v Hv].
      { apply lookup_lt_is_Some. apply lookup_lt_Some in Hl. by rewrite length_insert in Hl. }
      rewrite list_lookup_insert_eq in Hl by (by eapply lookup_lt_Some). by injection Hl as <-.
    + rewrite list_lookup_insert_ne in Hl by done. eauto.
Qed.

Lemma blocked_not_running i t s p :
  deserted i t s → threads s !! i ≠ Some (TRun p).
Proof. intros [[Hi Hb] _] E. rewrite Hi in E. injection E as ->. done. Qed.

Ltac deserted_move s i t j q Hd Hj :=
  let Hne := fresh "Hne" in let Hq := fresh "Hq" in
  assert (j ≠ i) as Hne
    by (intros ->; destruct Hd as [[?Hi ?Hb] _]; congruence ||
        (match goal with E : threads s !! i = Some ?a |- _ => rewrite E in Hj end;
         injection Hj as ->; done));
  pose proof (de_silent _ _ _ Hd _ _ Hne Hj) as Hq; cbn [todo] in Hq;
  apply (deserted_set i t s j q); cbn [todo]; try done; by inversion Hq.

Lemma deserted_step k i t s s' : pstep k s s' → deserted i t s → deserted i t s'.
Proof.
  intros Hst Hd.
  destruct Hst as [s j c f Ht _|s j r Ht _|s j m p Ht _ _|s j m p Ht _|s j cv' m fl p Ht _ Hin
    |s j cv' m fl p Ht _ Hn|s j cv' m fl p Ht _|s j cv' m fl p Ht _ _|s j fl p Ht _
    |s j cv' p j' u Ht _ Hj Hb|s j cv' p Ht _ _|s j cv' p Ht _].
  - deserted_move s i t j (TRun (f (k (snd <$> hist s) c))) Hd Ht.
  - destruct Hd. by constructor.
  - deserted_move s i t j (TRun p) Hd Ht.
  - deserted_move s i t j (TRun p) Hd Ht.
  - deserted_move s i t j (TRun p) Hd Ht.
  - deserted_move s i t j (TDoze cv' m fl p) Hd Ht.
  - destruct (decide (j = i)) as [->|Hne].
    { destruct Hd as [[Hi Hb] _]. rewrite Hi in Ht. by injection Ht as ->. }
    pose proof (de_silent _ _ _ Hd _ _ Hne Ht) as Hq.
    by apply (deserted_set i t s j (TBlocked cv' m fl p)).
  - deserted_move s i t j (TRun (PWait cv' m fl p)) Hd Ht.
  - deserted_move s i t j (TRun p) Hd Ht.
  - assert (Hne : j ≠ i) by (intros ->; by destruct (blocked_not_running _ _ _ _ Hd Ht)).
    assert (Hd' : deserted i t (set_thread j (TRun p) s)) by deserted_move s i t j (TRun p) Hd Ht.
    pose proof (de_silent _ _ _ Hd _ _ Hne Ht) as Hq. inversion Hq as [| | | | | | |? ? Hcv _|]; subst.
    assert (Hji : j' ≠ i).
    { intros ->. destruct Hd as [[Hi Hbt] _]. rewrite Hi in Hj. injection Hj as <-.
      destruct t; cbn in *; try done. congruence. }
    apply (deserted_set i t (set_thread j (TRun p) s) j' (wake_on cv' u)); try done.
    rewrite todo_wake_on. apply (de_silent _ _ _ Hd j' u Hji Hj).
  - deserted_move s i t j (TRun p) Hd Ht.
  - assert (Hne : j ≠ i) by (intros ->; by destruct (blocked_not_running _ _ _ _ Hd Ht)).
    assert (Hd' : deserted i t (set_thread j (TRun p) s)) by deserted_move s i t j (TRun p) Hd Ht.
    pose proof (de_silent _ _ _ Hd _ _ Hne Ht) as Hq. inversion Hq as [| | | | | | | |? ? Hcv _]; subst.
    destruct Hd' as [[Hi Hb] Hs]. constructor; cbn [wake_all threads].
    + split; [|done]. rewrite list_lookup_fmap, Hi. cbn.
      destruct t; cbn in *; try done. subst. by rewrite decide_False.
    + intros j' u Hj' Hl. rewrite list_lookup_fmap in Hl.
      destruct (threads (set_thread j (TRun p) s) !! j') as [u'|] eqn:E; [|done].
      injection Hl as <-. rewrite todo_wake_on. eauto.
Qed.

(** Without a spurious wake-up the thread stays blocked for good. *)
Lemma deserted_forever k i t s s' :
  deserted i t s → rtc (pstep k) s s' → threads s' !! i = Some t.
Proof.
  intros Hd Hr. cut (deserted i t s'); [by intros [[??] _]|].
  induction Hr; eauto using deserted_step.
Qed.
End silence.

(** ** Executing a schedule

    The next operation of thread [i], as a function: a notification goes to the
    first blocked thread. *)

#[global] Instance blocked_on_dec cv t : Decision (blocked_on cv t).
Proof. destruct t; cbn; apply _. Defined.

Fixpoint first_blocked (cv : nat) (l : list tstate) (j : nat) : option (nat * tstate) :=
  match l with
  | [] => None
  | t :: l => if decide (blocked_on cv t) then Some (j, t) else first_blocked cv l (S j)
  end.

Definition pexec (k : kernel) (i : nat) (s : process) : option process :=
  match stopped s, threads s !! i with
  | None, Some (TRun p) =>
      match p with
      | PRet => None
      | PStop r => Some (mkprocess (threads s) (flags s) (owner s) (Some r) (hist s))
      | PCall c f =>
          let r := k (snd <$> hist s) c in
          Some (set_thread i (TRun (f r)) (log_call i (c, r) s))
      | PLock m p =>
          match owner s !! m with
          | None => Some (set_thread i (TRun p) (take_mutex m i s)) | Some _ => None
          end
      | PUnlock m p => Some (set_thread i (TRun p) (release_mutex m s))
      | PWait cv m fl p =>
          if decide (fl ∈ flags s) then Some (set_thread i (TRun p) s)
          else Some (set_thread i (TDoze cv m fl p) s)
      | PSet fl p => Some (set_thread i (TRun p) (set_flag fl s))
      | PNotifyOne cv p =>
          match first_blocked cv (threads s) 0 with
          | Some (j, t) => Some (set_thread j (wake_on cv t) (set_thread i (TRun p) s))
          | None => Some (set_thread i (TRun p) s)
          end
      | PNotifyAll cv p => Some (wake_all cv (set_thread i (TRun p) s))
      end
  | None, Some (TDoze cv m fl p) =>
      Some (set_thread i (TBlocked cv m fl p) (release_mutex m s))
  | None, Some (TWake cv m fl p) =>
      match owner s !! m with
      | None => Some (set_thread i (TRun (PWait cv m fl p)) (take_mutex m i s)) | Some _ => None
      end
  | _, _ => None
  end.

Fixpoint schedule (k : kernel) (js : list nat) (s : process) : option process :=
  match js with
  | [] => Some s
  | i :: js => s' ← pexec k i s; schedule k js s'
  end.

Lemma first_blocked_Some cv l n j t :
  first_blocked cv l n = Some (j, t) → (n ≤ j)%nat ∧ l !! (j - n)%nat = Some t ∧ blocked_on cv t.
Proof.
  revert n. induction l as [|u l IH]; intros n; [done|]. cbn.
  case_decide; [intros [= <- <-]; rewrite Nat.sub_diag; split; [lia|done]|].
  intros (Hle & Hl & Hb)%IH. split; [lia|]. split; [|done].
  replace (j - n)%nat with (S (j - S n)) by lia. done.
Qed.

Lemma first_blocked_None cv l n j t :
  first_blocked cv l n = None → l !! j = Some t → ¬ blocked_on cv t.
Proof.
  revert n j. induction l as [|u l IH]; intros n j; [done|]. cbn.
  case_decide as Hu; [done|]. intros Hf Hj. destruct j as [|j]; [by injection Hj as <-|eauto].
Qed.

Lemma pexec_sound k i s s' : pexec k i s = Some s' → pstep k s s'.
Proof.
  unfold pexec. destruct (stopped s) eqn:Es; [done|].
  destruct (threads s !! i) as [[p|cv m fl p|cv m fl p|cv m fl p]|] eqn:Et; try done.
  - destruct p as [|r|c f|m p|m p|cv m fl p|fl p|cv p|cv p]; try done.
    + intros [= <-]. by apply (p_stop k s i).
    + intros [= <-]. by apply (p_call k s i).
    + destruct (owner s !! m) eqn:Eo; intros [= <-]. by apply (p_lock k s i).
    + intros [= <-]. by apply (p_unlock k s i).
    + case_decide; intros [= <-]; [by apply (p_pred_true k s i cv m fl)|
                                   by apply (p_pred_false k s i cv m fl)].
    + intros [= <-]. by apply (p_set k s i).
    + destruct (first_blocked cv (threads s) 0) as [[j t]|] eqn:Ef; intros [= <-].
      * apply first_blocked_Some in Ef as (_ & Hj & Hb). rewrite Nat.sub_0_r in Hj.
        by apply (p_notify_one k s i cv p j t).
      * apply (p_notify_nobody k s i cv p); [done|done|]. intros j t Hj.
        by apply (first_blocked_None cv (threads s) 0 j).
    + intros [= <-]. by apply (p_notify_all k s i).
  - intros [= <-]. by apply (p_block k s i).
  - destruct (owner s !! m) eqn:Eo; intros [= <-]. by apply (p_reacquire k s i).
Qed.

Lemma schedule_sound k js s s' : schedule k js s = Some s' → rtc (pstep k) s s'.
Proof.
  revert s. induction js as [|i js IH]; intros s; cbn; [intros [= ->]; apply rtc_refl|].
  destruct (pexec k i s) as [s1|] eqn:E; [|done]. cbn. intros H.
  eapply rtc_l; [by eapply pexec_sound|]. by apply IH.
Qed.

Lemma schedule_any k js s s' : schedule k js s = Some s' → rtc (any_pstep k) s s'.
Proof.
  intros H%schedule_sound. eapply rtc_subrel; [|exact H]. by left.
Qed.

(** ** A thread on its own

    In a process with one thread no mutex is contended and no flag is set by
    somebody else: a wait for a flag that is not set never ends. *)
Fixpoint run_alone (fls : gset nat) (p : prog) : M unit :=
  match p with
  | PRet => mret tt
  | PStop AssertionFailed => lift AssertFail
  | PStop (Faulted u) => undef u
  | PCall c f => r ← call c; run_alone fls (f r)
  | PLock _ p | PUnlock _ p | PNotifyOne _ p | PNotifyAll _ p => run_alone fls p
  | PWait _ _ fl p => if decide (fl ∈ fls) then run_alone fls p else lift NoFuel
  | PSet fl p => run_alone ({[fl]} ∪ fls) p
  end.

Lemma run_alone_say_if fls b s p k w :
  ∃ w', run_alone fls (say_if b s p) k w = run_alone fls p k w'.
Proof. destruct b; [|by exists w]. eexists. cbn [say_if run_alone]. by rewrite run_call_bind. Qed.
