(* ===== verification/Handshake.v ===== *)
(** * Handshake: [set/tcp_rest], [set/api] and [set/sigurg]

    Demonstrations of socket behaviour: a server thread binds and listens, sets an
    atomic flag and notifies a condition variable; client threads wait for the
    flag and connect.  Each function is a thread of [Threads]; a server's endless
    loop takes the number of its rounds. *)

From S2P Require Import Prelude Endian Sys Threads.

#[local] Open Scope prog_scope.

Definition zeroes : list Byte.byte := replicate 1024 Byte.x00.

(** [addr.sin_addr.s_addr = ip; addr.sin_port = htons(1234)] *)
Definition port_1234 (ip : Z) : sockaddr_in := mkaddr AF_INET (host2network uint16_t 1234) ip.

(** [condition], [mutex], [atom] and [condition1], [mutex1], [atom1]; the programs
    with one condition variable use the first three. *)
Abbreviation condition := 0%nat (only parsing).
Abbreviation condition1 := 1%nat (only parsing).

(** ** [set/tcp_rest/main.cpp] *)

Definition reset_main : M Z :=
  fd ← call (sys_socket AF_INET SOCK_STREAM 0);
  _ ← (if r_ret fd <? 0 then print "socket error" else mret tt);
  ip ← call (sys_inet_addr "127.0.0.1");
  e ← call (sys_connect (r_ret fd) (port_1234 (r_ret ip)));
  _ ← (if r_ret e <? 0 then print "socket error" else mret tt);
  mret 0.

(** ** [set/tcp_rest/main2.cpp]: a write after the peer has closed *)

(** The locks are released at the returns, [lk1] before [lk]. *)
Definition reset2_client : prog :=
  fd ⇐ sys_socket AF_INET SOCK_STREAM 0;
  say_if (r_ret fd <? 0) "socket error" (
  result ⇐ sys_setsockopt (r_ret fd) IPPROTO_TCP TCP_NODELAY 1;
  ip ⇐ sys_inet_addr "127.0.0.1";
  PLock 0 (PWait condition 0 0 (
  e ⇐ sys_connect (r_ret fd) (port_1234 (r_ret ip));
  if r_ret e <? 0 then say "socket error" (PUnlock 0 PRet) else
  ws1 ⇐ sys_write (r_ret fd) zeroes;
  if r_ret ws1 <? 0 then say "write error" (c ⇐ sys_close (r_ret fd); PUnlock 0 PRet) else
  PLock 1 (PWait condition1 1 1 (
  ws ⇐ sys_write (r_ret fd) zeroes;
  if r_ret ws <? 0 then
    say "write error" (c ⇐ sys_close (r_ret fd); PUnlock 1 (PUnlock 0 PRet))
  else PUnlock 1 (PUnlock 0 PRet)))))).

Fixpoint reset2_accept (rounds : nat) (fd : Z) : prog :=
  match rounds with
  | O => PRet
  | S rounds =>
      cd ⇐ sys_accept fd;
      say_if (r_ret cd <? 0) "accept error" (
      c ⇐ sys_close (r_ret cd);
      PSet 1 (PNotifyOne condition1 (say "connect close" (reset2_accept rounds fd))))
  end.

(** The part of [server] both programs share: up to the notification. *)
Definition reset_listen (loop : Z → prog) : prog :=
  fd ⇐ sys_socket AF_INET SOCK_STREAM 0;
  say_if (r_ret fd <? 0) "socket error" (
  result ⇐ sys_setsockopt (r_ret fd) IPPROTO_TCP TCP_NODELAY 1;
  e ⇐ sys_bind (r_ret fd) (port_1234 0);
  say_if (r_ret e <? 0) "bind error" (
  e ⇐ sys_listen (r_ret fd) 100;
  say_if (r_ret e <? 0) "listen error" (
  PSet 0 (PNotifyOne condition (loop (r_ret fd)))))).

Definition reset2_server (rounds : nat) : prog := reset_listen (reset2_accept rounds).

(** ** [set/tcp_rest/main3.cpp]: the server reads first, the client writes twice *)

Definition reset3_client : prog :=
  fd ⇐ sys_socket AF_INET SOCK_STREAM 0;
  say_if (r_ret fd <? 0) "socket error" (
  result ⇐ sys_setsockopt (r_ret fd) IPPROTO_TCP TCP_NODELAY 1;
  ip ⇐ sys_inet_addr "127.0.0.1";
  PLock 0 (PWait condition 0 0 (
  e ⇐ sys_connect (r_ret fd) (port_1234 (r_ret ip));
  if r_ret e <? 0 then say "socket error" (PUnlock 0 PRet) else
  ws1 ⇐ sys_write (r_ret fd) zeroes;
  if r_ret ws1 <? 0 then say "write error" (c ⇐ sys_close (r_ret fd); PUnlock 0 PRet) else
  PLock 1 (PWait condition1 1 1 (
  ws ⇐ sys_write (r_ret fd) zeroes;
  if r_ret ws <? 0 then
    say "write error" (c ⇐ sys_close (r_ret fd); PUnlock 1 (PUnlock 0 PRet))
  else
  ws2 ⇐ sys_write (r_ret fd) zeroes;
  if r_ret ws2 <? 0 then
    say "write error" (c ⇐ sys_close (r_ret fd); PUnlock 1 (PUnlock 0 PRet))
  else c ⇐ sys_close (r_ret fd); PUnlock 1 (PUnlock 0 PRet)))))).

Fixpoint reset3_accept (rounds : nat) (fd : Z) : prog :=
  match rounds with
  | O => PRet
  | S rounds =>
      connectfd ⇐ sys_accept fd;
      say_if (r_ret connectfd <? 0) "accept error" (
      e ⇐ sys_read (r_ret connectfd) 1024;
      say_if (r_ret e <? 0) "read error" (
      c ⇐ sys_close (r_ret connectfd);
      PSet 1 (PNotifyOne condition1 (say "connect close" (reset3_accept rounds fd)))))
  end.

Definition reset3_server (rounds : nat) : prog := reset_listen (reset3_accept rounds).

(** [main]: the mask is set before the two threads are made, and then it spins. *)
Definition reset2_main (rounds : nat) : syscall * list prog :=
  (sys_sigprocmask SIG_SETMASK [SIGPIPE], [reset2_client; reset2_server rounds]).
Definition reset3_main (rounds : nat) : syscall * list prog :=
  (sys_sigprocmask SIG_SETMASK [SIGPIPE], [reset3_client; reset3_server rounds]).

(** ** [set/api]: the addresses of both ends *)

(** The local [sockaddr_in], zeroed before [getsockname] or [getpeername] fills
    it. *)
Definition name_family (r : reply) : Z := if r_ret r =? 0 then r_int r 0 else 0.

Fixpoint api_accept (rounds : nat) (fd : Z) : prog :=
  match rounds with
  | O => PRet
  | S rounds =>
      connectfd ⇐ sys_accept fd;
      say_if (r_ret connectfd =? -1) "create accept connectfd err" (
      e ⇐ sys_recv (r_ret connectfd) 1024 0;
      say_if (r_ret e =? -1) "recv err" (
      here ⇐ sys_getsockname (r_ret connectfd);
      if negb (name_family here =? AF_INET) then PStop AssertionFailed else
      say "local addr is" (
      peer ⇐ sys_getpeername (r_ret connectfd);
      if negb (name_family peer =? AF_INET) then PStop AssertionFailed else
      say "peer addr is" (say "" (
      c ⇐ sys_close (r_ret connectfd);
      api_accept rounds fd)))))
  end.

(** Up to the [bind]. *)
Definition api_bind (rest : Z → prog) : prog :=
  fd ⇐ sys_socket AF_INET SOCK_STREAM 0;
  say_if (r_ret fd =? -1) "create socket err" (
  o1 ⇐ sys_setsockopt (r_ret fd) SOL_SOCKET SO_REUSEADDR 1;
  o2 ⇐ sys_setsockopt (r_ret fd) SOL_SOCKET SO_REUSEPORT 1;
  e ⇐ sys_bind (r_ret fd) (port_1234 0);
  say_if (negb (r_ret e =? 0)) "create bind err" (rest (r_ret fd))).

Definition api_server (rounds : nat) : prog :=
  api_bind (λ fd,
    e ⇐ sys_listen fd 100;
    say_if (negb (r_ret e =? 0)) "create listen err" (
    PSet 0 (PNotifyAll condition (api_accept rounds fd)))).

(** [main1.cpp]: without the [listen]. *)
Definition api1_server (rounds : nat) : prog :=
  api_bind (λ fd, PSet 0 (PNotifyAll condition (api_accept rounds fd))).

(** [INADDR_ANY], or the address given. *)
Definition local_ip (local_addr : option string) (rest : Z → prog) : prog :=
  match local_addr with
  | None => rest 0
  | Some a => ip ⇐ sys_inet_addr a; rest (r_ret ip)
  end.

(** After the wait for the flag. *)
Definition oob_connect (fd remote_ip : Z) : prog :=
  e ⇐ sys_connect fd (port_1234 remote_ip);
  if negb (r_ret e =? -1) then
    se ⇐ sys_send fd [Byte.x31; Byte.x32; Byte.x33; Byte.x34] MSG_OOB;
    say_if (r_ret se =? -1) "create send err" (c ⇐ sys_close fd; PRet)
  else say "create connect err" PRet.

Definition api_client (remote_addr : string) (local_addr : option string) : prog :=
  fd ⇐ sys_socket AF_INET SOCK_STREAM 0;
  say_if (r_ret fd =? -1) "create socket err" (
  local_ip local_addr (λ ip,
  e ⇐ sys_bind (r_ret fd) (mkaddr AF_INET (host2network uint16_t 0) ip);
  say_if (negb (r_ret e =? 0)) "create bind err" (
  remote ⇐ sys_inet_addr remote_addr;
  PLock 0 (PWait condition 0 0 (PUnlock 0 (
  oob_connect (r_ret fd) (r_ret remote))))))).

Definition api_main (rounds : nat) : list prog :=
  [api_server rounds;
   api_client "127.0.0.1" (Some "172.16.5.4"); api_client "172.16.5.4" (Some "127.0.0.1");
   api_client "127.0.0.1" None; api_client "172.16.5.4" None]%string.

(** The client of [main1.cpp] is a copy; its [main] does not start one. *)
Definition api1_client : string → option string → prog := api_client.

Definition api1_main (rounds : nat) : list prog := [api1_server rounds].

(** ** [set/sigurg]: out-of-band data *)

(** [printf("recv msg : %s\n", buf)] *)
Definition print_buf (buf : list Byte.byte) (p : prog) : prog :=
  match c_string buf with Ok _ => say "recv msg" p | _ => PStop (Faulted OutOfBounds) end.

(** [sig_urg], the handler; its text ends in a slash and an [n]. *)
Definition sig_urg (sig : Z) : prog := say "generator urg sig/n" PRet.

(** [addsig(sig, sig_handler)]: the handler is entered with every signal blocked, and
    interrupted calls are restarted. *)
Definition addsig (sig : Z) (p : prog) : prog :=
  s ⇐ sys_sigaction sig (Z.lor 0 SA_RESTART); p.

Fixpoint urg_accept (rounds : nat) (fd : Z) : prog :=
  match rounds with
  | O => PRet
  | S rounds =>
      connectfd ⇐ sys_accept fd;
      say_if (r_ret connectfd =? -1) "create accept connectfd err" (
      addsig SIGURG (
      pid ⇐ sys_getpid;
      own ⇐ sys_fcntl (r_ret connectfd) F_SETOWN (r_ret pid);
      e ⇐ sys_recv (r_ret connectfd) 1024 0;
      say_if (r_ret e =? -1) "recv err" (
      let buf := copied_in zeroes e in
      print_buf buf (
      e ⇐ sys_recv (r_ret connectfd) 1024 MSG_OOB;
      say_if (r_ret e =? -1) "recv err" (
      print_buf (copied_in buf e) (
      c ⇐ sys_close (r_ret connectfd);
      urg_accept rounds fd))))))
  end.

Definition urg_server (rounds : nat) : prog :=
  fd ⇐ sys_socket AF_INET SOCK_STREAM 0;
  say_if (r_ret fd =? -1) "create socket err" (
  e ⇐ sys_bind (r_ret fd) (port_1234 0);
  say_if (negb (r_ret e =? 0)) "create bind err" (
  e ⇐ sys_listen (r_ret fd) 100;
  say_if (negb (r_ret e =? 0)) "create listen err" (
  PSet 0 (PNotifyOne condition (urg_accept rounds (r_ret fd)))))).

Definition urg_client : prog :=
  fd ⇐ sys_socket AF_INET SOCK_STREAM 0;
  say_if (r_ret fd =? -1) "create socket err" (
  e ⇐ sys_bind (r_ret fd) (mkaddr AF_INET (host2network uint16_t 4567) 0);
  say_if (negb (r_ret e =? 0)) "create bind err" (
  remote ⇐ sys_inet_addr "127.0.0.1";
  PLock 0 (PWait condition 0 0 (PUnlock 0 (
  oob_connect (r_ret fd) (r_ret remote)))))).

Definition urg_main (rounds : nat) : list prog := [urg_server rounds; urg_client].

(** ** No client connects before the server listens *)

Definition is_listen (c : syscall) : Prop := match c with sys_listen _ _ => True | _ => False end.
Definition is_connect (c : syscall) : Prop := match c with sys_connect _ _ => True | _ => False end.

Abbreviation waits_first := (guarded 0%nat is_connect).
Abbreviation listens_first := (announced 0%nat is_listen).

Create HintDb handshake.
#[local] Hint Constructors guarded announced : handshake.

Lemma guarded_say_if fl bad b s p :
  ¬ bad (sys_print s) → guarded fl bad p → guarded fl bad (say_if b s p).
Proof. intros. destruct b; cbn; auto with handshake. Qed.
Lemma announced_say_if fl good b s p :
  announced fl good p → announced fl good (say_if b s p).
Proof. intros. destruct b; cbn; auto with handshake. Qed.
#[local] Hint Resolve guarded_say_if announced_say_if : handshake.

(** Walks down a thread. *)
Ltac walk_prog :=
  repeat first
    [ progress intros
    | apply guarded_say_if; [by intros []|] | apply announced_say_if
    | apply g_wait | apply a_good; exact I | apply a_call | apply a_set; [done|]
    | match goal with
      | |- guarded _ _ (if ?b then _ else _) => destruct b
      | |- announced _ _ (if ?b then _ else _) => destruct b
      | |- guarded _ _ (match ?o with _ => _ end) => destruct o
      | |- announced _ _ (match ?o with _ => _ end) => destruct o
      | |- guarded _ _ (PCall _ _) => apply g_call; [by intros []|]
      | |- guarded _ _ _ => constructor
      | |- announced _ _ PRet => constructor
      | |- announced _ _ (PStop _) => constructor
      | |- announced _ _ _ => constructor
      end ].

Lemma reset2_client_ok : waits_first reset2_client ∧ listens_first reset2_client.
Proof. unfold reset2_client, say. split; walk_prog. Qed.

Lemma reset3_client_ok : waits_first reset3_client ∧ listens_first reset3_client.
Proof. unfold reset3_client, say. split; walk_prog. Qed.

Lemma reset2_server_ok n : waits_first (reset2_server n) ∧ listens_first (reset2_server n).
Proof.
  unfold reset2_server, reset_listen. split; walk_prog.
  induction n as [|n IH]; cbn [reset2_accept]; unfold say; walk_prog; exact IH.
Qed.

Lemma reset3_server_ok n : waits_first (reset3_server n) ∧ listens_first (reset3_server n).
Proof.
  unfold reset3_server, reset_listen. split; walk_prog.
  induction n as [|n IH]; cbn [reset3_accept]; unfold say; walk_prog; exact IH.
Qed.

Lemma oob_connect_ok fd ip : listens_first (oob_connect fd ip).
Proof. unfold oob_connect, say. walk_prog. Qed.

Lemma api_client_ok remote local :
  waits_first (api_client remote local) ∧ listens_first (api_client remote local).
Proof.
  unfold api_client, local_ip, say. split; destruct local; walk_prog; apply oob_connect_ok.
Qed.

Lemma api_server_ok n : waits_first (api_server n) ∧ listens_first (api_server n).
Proof.
  unfold api_server, api_bind. split; walk_prog.
  induction n as [|n IH]; cbn [api_accept]; unfold say; walk_prog; exact IH.
Qed.

Lemma urg_client_ok : waits_first urg_client ∧ listens_first urg_client.
Proof. unfold urg_client, say. split; walk_prog; apply oob_connect_ok. Qed.

Lemma urg_server_ok n : waits_first (urg_server n) ∧ listens_first (urg_server n).
Proof.
  unfold urg_server. split; walk_prog.
  induction n as [|n IH]; cbn [urg_accept]; unfold print_buf, addsig, say; walk_prog; exact IH.
Qed.

(** The four programs: their threads, and the index of a client. *)
Definition demonstrations (n : nat) : list (list prog * nat) :=
  [((reset2_main n).2, 0%nat); ((reset3_main n).2, 0%nat); (api_main n, 1%nat); (urg_main n, 1%nat)].

(** C13: In every interleaving of each of the four programs, spurious wake-ups
    included, and for every kernel, a client calls [connect] only after the server
    has called [listen]. *)
Theorem listen_before_connect n ps i k s :
  (ps, i) ∈ demonstrations n → rtc (any_pstep k) (spawn ps) s →
  ordered is_listen is_connect (hist s).
Proof.
  intros Hps. apply (order_by_flag 0).
  all: repeat (apply elem_of_cons in Hps as [[= -> _]|Hps]); [..|by apply elem_of_nil in Hps].
  all: unfold reset2_main, reset3_main, api_main, urg_main; cbn [snd];
    rewrite !Forall_cons, Forall_nil; split_and!; try done.
  all: first [apply reset2_client_ok|apply reset3_client_ok|apply reset2_server_ok
             |apply reset3_server_ok|apply api_client_ok|apply api_server_ok
             |apply urg_client_ok|apply urg_server_ok].
Qed.

(** A kernel where every call succeeds. *)
Definition willing : kernel := λ _ _, ok_reply 0.

(** The client connects after the handshake. *)
Definition after_connect : process :=
  default (spawn []) (schedule willing ([0; 0; 0] ++ replicate 8 1 ++ [0; 0; 0])%nat
                               (spawn (reset2_main 1).2)).

Lemma listen_before_connect_witness :
  ordered is_listen is_connect (hist after_connect) ∧
  (∃ e, (0%nat, e) ∈ hist after_connect ∧ is_connect e.1).
Proof.
  split.
  - apply (listen_before_connect 1 (reset2_main 1).2 0 willing); [apply list_elem_of_here|].
    apply (schedule_any willing ([0; 0; 0] ++ replicate 8 1 ++ [0; 0; 0])%nat). reflexivity.
  - eexists (sys_connect _ _, _). split; [|exact I]. vm_compute. repeat first [apply list_elem_of_here|apply list_elem_of_further].
Defined.

(** ** The wake-up that is lost

    The flag is set and the condition variable notified without the mutex, so both
    may fall between the client's test of the flag and its going to sleep. *)

Ltac walk_silent :=
  repeat first
    [ progress intros | assumption
    | match goal with
      | |- silent _ (if ?b then _ else _) => destruct b
      | |- silent _ (match ?o with _ => _ end) => destruct o
      | |- silent _ (PNotifyOne _ _) => apply n_notify_one; [done|]
      | |- silent _ (PNotifyAll _ _) => apply n_notify_all; [done|]
      | |- silent _ _ => constructor
      end ].

Lemma reset2_accept_silent n fd : silent condition (reset2_accept n fd).
Proof. induction n as [|n IH]; cbn [reset2_accept]; unfold say_if, say; walk_silent. Qed.
Lemma reset3_accept_silent n fd : silent condition (reset3_accept n fd).
Proof. induction n as [|n IH]; cbn [reset3_accept]; unfold say_if, say; walk_silent. Qed.
Lemma api_accept_silent n fd : silent condition (api_accept n fd).
Proof. induction n as [|n IH]; cbn [api_accept]; unfold say_if, say; walk_silent. Qed.
Lemma urg_accept_silent n fd : silent condition (urg_accept n fd).
Proof. induction n as [|n IH]; cbn [urg_accept]; unfold print_buf, say_if, say; walk_silent. Qed.
(** [i] is blocked on the condition variable although the flag is set, and stays so
    whatever the other threads do. *)
Definition stranded (k : kernel) (i : nat) (s : process) : Prop :=
  0%nat ∈ flags s ∧
  ∃ t, blocked_on condition t ∧ ∀ s', rtc (pstep k) s s' → threads s' !! i = Some t.

Lemma stranded_by k i js ps s t :
  schedule k js (spawn ps) = Some s → 0%nat ∈ flags s → deserted condition i t s →
  rtc (pstep k) (spawn ps) s ∧ stranded k i s.
Proof.
  intros Hs Hf Hd. split; [by eapply schedule_sound|]. split; [done|].
  exists t. split; [by destruct Hd as [[??] _]|]. intros s' Hr. by eapply deserted_forever.
Qed.

(** The client tests the flag, the server sets it and notifies, the client goes to
    sleep: the number of operations of each up to there. *)
Definition race (client server : nat) (before notified : nat) : list nat :=
  replicate before client ++ replicate notified server ++ [client].

Lemma reset2_race n : ∃ s, rtc (pstep willing) (spawn (reset2_main n).2) s ∧ stranded willing 0 s.
Proof.
  eexists. eapply (stranded_by _ _ (race 0 1 5 6)); [vm_compute; reflexivity|vm_compute; set_solver|].
  constructor; cbn; [done|]. intros [|[|j]] u Hj; cbn; try done.
  intros [= <-]. apply reset2_accept_silent.
Qed.

Lemma reset3_race n : ∃ s, rtc (pstep willing) (spawn (reset3_main n).2) s ∧ stranded willing 0 s.
Proof.
  eexists. eapply (stranded_by _ _ (race 0 1 5 6)); [vm_compute; reflexivity|vm_compute; set_solver|].
  constructor; cbn; [done|]. intros [|[|j]] u Hj; cbn; try done.
  intros [= <-]. apply reset3_accept_silent.
Qed.

Lemma urg_race n : ∃ s, rtc (pstep willing) (spawn (urg_main n)) s ∧ stranded willing 1 s.
Proof.
  eexists. eapply (stranded_by _ _ (race 1 0 5 5)); [vm_compute; reflexivity|vm_compute; set_solver|].
  constructor; cbn; [done|]. intros [|[|j]] u Hj; cbn; try done.
  intros [= <-]. apply urg_accept_silent.
Qed.

Lemma api_race n : ∃ s, rtc (pstep willing) (spawn (api_main n)) s ∧ stranded willing 1 s.
Proof.
  eexists. eapply (stranded_by _ _ (race 1 0 6 7)); [vm_compute; reflexivity|vm_compute; set_solver|].
  constructor; cbn; [done|]. intros [|[|[|[|[|j]]]]] u Hj; cbn; try done; intros [= <-].
  all: first [apply api_accept_silent|walk_silent].
Qed.

(** C37: Finding.  Each of the four programs can lose its wake-up: there is a run after
    which the flag is set, the client is blocked on the condition variable and,
    unless it wakes up spuriously, stays blocked whatever happens next. *)
Theorem handshake_loses_wakeup n ps i :
  (ps, i) ∈ demonstrations n →
  ∃ s, rtc (pstep willing) (spawn ps) s ∧ stranded willing i s.
Proof.
  intros Hps.
  repeat (apply elem_of_cons in Hps as [[= -> ->]|Hps]); [..|by apply elem_of_nil in Hps].
  - apply reset2_race.
  - apply reset3_race.
  - apply api_race.
  - apply urg_race.
Qed.

Lemma handshake_loses_wakeup_witness :
  ∃ s, rtc (pstep willing) (spawn (urg_main 3)) s ∧ stranded willing 1 s.
Proof.
  apply (handshake_loses_wakeup 3 (urg_main 3) 1).
  apply list_elem_of_further, list_elem_of_further, list_elem_of_further, list_elem_of_here.
Defined.

(** ** [main1.cpp]: a server that does not listen *)

(** What the system does for a socket that is not listening, and for the
    descriptor -1. *)
Definition not_listening (k : kernel) : Prop :=
  (∀ h fd, r_ret (k h (sys_accept fd)) = -1) ∧
  (∀ h, r_ret (k h (sys_getsockname (-1))) = -1).

(** Steps over a message that may be printed. *)
Ltac skip_say :=
  match goal with |- context [run_alone ?f (say_if ?b ?s ?p) ?k ?w1] =>
    let E := fresh in destruct (run_alone_say_if f b s p k w1) as [? E]; rewrite E; clear E end.

(** Finding.  Without [listen] the first [accept] fails, the loop goes on with the
    descriptor -1, and the assertion on the family of its address ends the
    process. *)
Theorem api1_server_aborts rounds k w :
  not_listening k → (run_alone ∅ (api1_server (S rounds)) k w).1 = AssertFail.
Proof.
  intros [Ha Hn]. unfold api1_server, api_bind. cbn [run_alone]. rewrite run_call_bind.
  skip_say. cbn [run_alone]. rewrite !run_call_bind.
  skip_say. cbn [run_alone api_accept]. rewrite run_call_bind, Ha.
  skip_say. cbn [run_alone]. rewrite run_call_bind.
  skip_say. cbn [run_alone]. rewrite run_call_bind. unfold name_family. by rewrite Hn.
Qed.

Lemma api1_server_aborts_witness :
  (run_alone ∅ (api1_server 1) (λ _ _, err_reply 22) world0).1 = AssertFail.
Proof. apply (api1_server_aborts 0). by split. Defined.
