(* ===== verification/Hook.v ===== *)
(** * Hook: [set/hook/kprobe_example.c]

    A kernel module that plants a probe on [do_fork] and counts the calls.  First the
    functions of the module one after the other; then the counter, which is incremented
    without a lock, as the CPUs that run [do_fork] at the same time see it.

    The kernel is a parameter: [register_kprobe] gives the result of the registration and
    the probe as it leaves it, [pointer_text] what [%p] prints. *)

From S2P Require Import Prelude.
From stdpp Require Import pretty.

#[local] Open Scope Z_scope.

(** The handlers a probe can point to. *)
Inductive routine : Type := Handler_pre | Handler_post | Handler_fault.

#[global] Instance routine_eq_dec : EqDecision routine.
Proof. solve_decision. Defined.

Record kprobe : Type := mkkprobe {
  symbol_name : string; probe_addr : Z;
  pre_handler : option routine; post_handler : option routine; fault_handler : option routine
}.

(** The variables of the module; [planted]: the kernel calls the handlers of [kp];
    [dmesg]: the lines given to [printk] at level [KERN_INFO]. *)
Record hook : Type := mkhook {
  total_count : Z; kp : kprobe; planted : bool; dmesg : list string
}.

Abbreviation K := (SM hook).

Definition newline : string := String (Ascii.Ascii false true false true false false false false) EmptyString.

(** The module as it is loaded. *)
Definition probe0 : kprobe := mkkprobe "do_fork" 0 None None None.
Definition module0 : hook := mkhook 0 probe0 false [].

Definition printk (text : string) : K unit :=
  smod (λ s, mkhook (total_count s) (kp s) (planted s) (dmesg s ++ [text])).

Definition set_kp (p : kprobe) (on : bool) : K unit :=
  smod (λ s, mkhook (total_count s) p on (dmesg s)).

(** [++] on an [int] *)
Definition int_succ (v : Z) : outcome Z := if v =? 2 ^ 31 - 1 then Undef SignedOverflow else Ok (v + 1).

Definition count_text (n : Z) : string := "累计调用do_fork[" +:+ pretty n +:+ "]次" +:+ newline.

Definition handler_pre : K Z :=
  c ← sget total_count;
  c' ← slift (int_succ c);
  _ ← smod (λ s, mkhook c' (kp s) (planted s) (dmesg s));
  c2 ← sget total_count;
  _ ← printk (count_text c2);
  mret 0.

Definition handler_post : K unit := mret tt.

Section Kernel.
Variable register_kprobe : kprobe → Z * kprobe.
Variable pointer_text : Z → string.

Definition fault_text (addr trapnr : Z) : string :=
  "fault_handler: p->addr = 0x" +:+ pointer_text addr +:+ ", trap #" +:+ pretty trapnr +:+ "n".

Definition handler_fault (p : kprobe) (trapnr : Z) : K Z :=
  _ ← printk (fault_text (probe_addr p) trapnr);
  mret 0.

Definition failed_text (ret : Z) : string :=
  "register_kprobe failed, returned " +:+ pretty ret +:+ newline.
Definition planted_text (addr : Z) : string :=
  "Planted kprobe at " +:+ pointer_text addr +:+ newline.
Definition removed_text (addr : Z) : string :=
  "kprobe at " +:+ pointer_text addr +:+ " unregistered" +:+ newline.

Definition kprobe_init : K Z :=
  p ← sget kp;
  let p := mkkprobe (symbol_name p) (probe_addr p)
                    (Some Handler_pre) (Some Handler_post) (Some Handler_fault) in
  let '(ret, p') := register_kprobe p in
  _ ← set_kp p' (0 <=? ret);
  if ret <? 0
  then _ ← printk (failed_text ret); mret ret
  else _ ← printk (planted_text (probe_addr p')); mret 0.

(** [unregister_kprobe] takes the probe out; its address stays. *)
Definition kprobe_exit : K unit :=
  p ← sget kp;
  _ ← set_kp p false;
  printk (removed_text (probe_addr p)).

(** A call of [do_fork]: the kernel runs the handlers of a planted probe, the second one
    when the first has returned 0. *)
Definition fork_hit : K unit := λ s,
  if planted s then
    match pre_handler (kp s), post_handler (kp s) with
    | Some Handler_pre, Some Handler_post =>
        (r ← handler_pre; if (r : Z) =? 0 then handler_post else mret tt) s
    | _, _ => (Ok tt, s)
    end
  else (Ok tt, s).

Fixpoint fork_hits (n : nat) : K unit :=
  match n with O => mret tt | S n => _ ← fork_hit; fork_hits n end.

(** What [register_kprobe] is documented to do: it returns 0 or a negative error, and
    fills in the address alone. *)
Class Registers : Prop := {
  reg_code p : (register_kprobe p).1 ≤ 0;
  reg_keeps p : ∃ a, (register_kprobe p).2 =
    mkkprobe (symbol_name p) a (pre_handler p) (post_handler p) (fault_handler p)
}.

(** The lines of [n] calls when [c] were counted before. *)
Definition count_lines (c : Z) (n : nat) : list string :=
  (λ i, count_text (c + 1 + Z.of_nat i)) <$> seq 0 n.

Lemma count_lines_S c n : count_lines c (S n) = count_text (c + 1) :: count_lines (c + 1) n.
Proof.
  unfold count_lines. cbn [seq fmap list_fmap]. f_equal; [f_equal; lia|].
  rewrite <- fmap_S_seq, <- list_fmap_compose. apply list_fmap_ext. intros i x _. cbn. f_equal. lia.
Qed.

Lemma fork_hit_counts s :
  planted s = true → pre_handler (kp s) = Some Handler_pre → post_handler (kp s) = Some Handler_post →
  total_count s < 2 ^ 31 - 1 →
  fork_hit s = (Ok tt, mkhook (total_count s + 1) (kp s) true (dmesg s ++ [count_text (total_count s + 1)])).
Proof.
  intros Hp H1 H2 Hc. unfold fork_hit. rewrite Hp, H1, H2.
  unfold handler_pre, mbind, SM_bind, sget, slift, int_succ.
  rewrite (proj2 (Z.eqb_neq _ _)) by lia. cbn. by rewrite Hp.
Qed.

Lemma fork_hits_count n s :
  planted s = true → pre_handler (kp s) = Some Handler_pre → post_handler (kp s) = Some Handler_post →
  total_count s + Z.of_nat n < 2 ^ 31 →
  fork_hits n s =
    (Ok tt, mkhook (total_count s + Z.of_nat n) (kp s) true (dmesg s ++ count_lines (total_count s) n)).
Proof.
  revert s. induction n as [|n IH]; intros s Hp H1 H2 Hc.
  - cbn. rewrite app_nil_r, Z.add_0_r. destruct s. cbn in Hp. by subst.
  - cbn [fork_hits]. rewrite (sm_bind_Ok _ _ _ _ _ (fork_hit_counts s Hp H1 H2 ltac:(lia))).
    rewrite IH; cbn [total_count kp planted dmesg]; [|done|done|done|lia].
    rewrite count_lines_S, <- app_assoc, Nat2Z.inj_succ, <- Z.add_1_l, Z.add_assoc. reflexivity.
Qed.

Lemma fork_hits_unplanted n s : planted s = false → fork_hits n s = (Ok tt, s).
Proof.
  intros Hp. induction n as [|n IH]; [done|]. cbn [fork_hits].
  rewrite (sm_bind_Ok _ _ s tt s); [done|]. unfold fork_hit. by rewrite Hp.
Qed.

(** The module.  A failed registration is reported, passed on, and plants nothing;
    after one that succeeds the calls of [do_fork], fewer than [INT_MAX], are counted and
    logged one by one; and once the module is removed none is counted any more. *)
Theorem module_counts_calls `{Registers} n m :
  Z.of_nat n < 2 ^ 31 →
  let '(ret, p) := register_kprobe (mkkprobe "do_fork" 0 (Some Handler_pre) (Some Handler_post) (Some Handler_fault)) in
  ret ≤ 0 ∧
  (ret < 0 →
     (r ← kprobe_init; _ ← fork_hits n; mret r) module0 =
       (Ok ret, mkhook 0 p false [failed_text ret])) ∧
  (ret = 0 →
     (_ ← kprobe_init; _ ← fork_hits n; _ ← kprobe_exit; fork_hits m) module0 =
       (Ok tt, mkhook (Z.of_nat n) p false
                 ([planted_text (probe_addr p)] ++ count_lines 0 n ++ [removed_text (probe_addr p)]))).
Proof.
  intros Hn. set (p0 := mkkprobe _ _ _ _ _).
  pose proof (reg_code p0) as Hc. destruct (reg_keeps p0) as [a Ha].
  assert (∀ s, kp s = probe0 → kprobe_init s =
    ((_ ← set_kp (register_kprobe p0).2 (0 <=? (register_kprobe p0).1);
      if (register_kprobe p0).1 <? 0
      then _ ← printk (failed_text (register_kprobe p0).1); mret (register_kprobe p0).1
      else _ ← printk (planted_text (probe_addr (register_kprobe p0).2)); mret 0) : K Z) s) as Hi.
  { intros s E. unfold kprobe_init. rewrite (sm_bind_Ok (sget kp) _ s probe0 s) by (unfold sget; by rewrite E).
    cbn [symbol_name probe_addr probe0]. fold p0. by destruct (register_kprobe p0). }
  destruct (register_kprobe p0) as [ret p] eqn:Er. cbn [fst snd] in *. subst p.
  split; [done|]. split; intros Hr.
  - erewrite sm_bind_Ok; [|rewrite Hi by done; rewrite (proj2 (Z.ltb_lt ret 0)) by done; reflexivity].
    rewrite (proj2 (Z.leb_gt 0 ret)) by done.
    erewrite sm_bind_Ok; [reflexivity|]. by apply fork_hits_unplanted.
  - subst ret. erewrite sm_bind_Ok; [|rewrite Hi by done; reflexivity].
    erewrite sm_bind_Ok; [|apply fork_hits_count; [done..|cbn; lia]].
    erewrite sm_bind_Ok; [|reflexivity]. rewrite fork_hits_unplanted by done.
    reflexivity.
Qed.
End Kernel.

(** ** Several CPUs

    [total_count++] is a read and a write, and the line that is logged reads the counter
    again.  [Inside v]: the CPU has read [v]; [Counted]: it has written. *)
Inductive phase : Type := Outside | Inside (v : Z) | Counted.

#[global] Instance phase_eq_dec : EqDecision phase.
Proof. solve_decision. Defined.

(** [written] counts the increments that are over; [shown] are the numbers logged. *)
Record smp : Type := mksmp {
  count : Z; written : nat; cpus : list phase; shown : list Z; overflowed : bool
}.

Definition smp0 (n : nat) : smp := mksmp 0 0 (replicate n Outside) [] false.

(** The next access of CPU [i] in [handler_pre]. *)
Definition cpu_step (i : nat) (s : smp) : option smp :=
  if overflowed s then None else
  match cpus s !! i with
  | Some Outside => Some (mksmp (count s) (written s) (<[i := Inside (count s)]> (cpus s)) (shown s) false)
  | Some (Inside v) =>
      match int_succ v with
      | Ok v' => Some (mksmp v' (S (written s)) (<[i := Counted]> (cpus s)) (shown s) false)
      | _ => Some (mksmp (count s) (written s) (cpus s) (shown s) true)
      end
  | Some Counted => Some (mksmp (count s) (written s) (<[i := Outside]> (cpus s)) (shown s ++ [count s]) false)
  | None => None
  end.

Fixpoint cpu_schedule (is_ : list nat) (s : smp) : option smp :=
  match is_ with
  | [] => Some s
  | i :: is_ => match cpu_step i s with Some s' => cpu_schedule is_ s' | None => None end
  end.

Definition smp_step (s s' : smp) : Prop := ∃ i, cpu_step i s = Some s'.

(** A CPU enters the handler only when no other is inside. *)
Definition alone (i : nat) (s : smp) : Prop := ∀ j p, cpus s !! j = Some p → p ≠ Outside → j = i.
Definition serial_step (s s' : smp) : Prop := ∃ i, alone i s ∧ cpu_step i s = Some s'.

(** No CPU has read more than what was written. *)
Record counted (s : smp) : Prop := {
  cn_count : 0 ≤ count s ≤ Z.of_nat (written s);
  cn_first : (0 < written s)%nat → 1 ≤ count s;
  cn_inside i v : cpus s !! i = Some (Inside v) → 0 ≤ v ≤ Z.of_nat (written s);
  cn_past i : cpus s !! i = Some Counted → (0 < written s)%nat;
  cn_shown : Forall (λ v, 1 ≤ v ≤ Z.of_nat (written s)) (shown s);
  cn_overflow : overflowed s = true → 2 ^ 31 - 1 ≤ Z.of_nat (written s)
}.

(** [cpu_at j H] tells whether [H] speaks of the CPU that moved. *)
Ltac cpu_at H :=
  apply list_lookup_insert_Some in H as [(-> & ? & _)|[_ H]]; [simplify_eq/=|].

Lemma counted_step s s' : counted s → smp_step s s' → counted s'.
Proof.
  intros Hc [i H]. destruct Hc as [H1 H2 H3 H4 H5 H6]. unfold cpu_step in H.
  destruct (overflowed s) eqn:Eo; [done|].
  destruct (cpus s !! i) as [[|v|]|] eqn:Ei; [| | |done].
  - injection H as <-. split; cbn; try done.
    + intros j w Hj. cpu_at Hj; [lia|by apply (H3 j)].
    + intros j Hj. by cpu_at Hj; apply (H4 j).
  - specialize (H3 i v Ei) as Hv. unfold int_succ in H.
    destruct (v =? 2 ^ 31 - 1) eqn:Ev; zbool; injection H as <-; split; cbn; try done; try lia.
    + intros j w Hj. cpu_at Hj. specialize (H3 j w Hj). lia.
    + apply (Forall_impl _ _ _ H5). lia.
  - specialize (H4 i Ei) as Hw. injection H as <-. split; cbn; try done.
    + intros j w Hj. cpu_at Hj. by apply (H3 j).
    + apply Forall_app. split; [done|]. apply Forall_singleton. specialize (H2 Hw). lia.
Qed.

Lemma counted_smp0 n : counted (smp0 n).
Proof.
  split; cbn; try done; try lia.
  - intros i v [? _]%lookup_replicate. done.
  - intros i [? _]%lookup_replicate. done.
Qed.

Lemma counted_reachable n s : rtc smp_step (smp0 n) s → counted s.
Proof.
  intros Hr. assert (counted (smp0 n)) as H0 by apply counted_smp0. revert H0.
  induction Hr as [|s1 s2 s3 H12 _ IH]; [done|]. intros H. by eapply IH, counted_step.
Qed.

(** The numbers from 1 to [n]. *)
Definition numbers (n : nat) : list Z := (λ i, Z.of_nat (S i)) <$> seq 0 n.

Lemma numbers_S n : numbers (S n) = numbers n ++ [Z.of_nat (S n)].
Proof. unfold numbers. by rewrite seq_S, fmap_app. Qed.

(** Serial calls: all CPUs but one are outside, and that one has read the counter, or
    has not shown it yet. *)
Definition exact (s : smp) : Prop :=
  count s = Z.of_nat (written s) ∧
  ∃ i, alone i s ∧
    match cpus s !! i with
    | Some (Inside v) => v = count s ∧ shown s = numbers (written s)
    | Some Counted => shown s ++ [count s] = numbers (written s)
    | _ => shown s = numbers (written s)
    end.

Lemma alone_insert i s c w p l o :
  alone i s → alone i (mksmp c w (<[i := p]> (cpus s)) l o).
Proof. intros Ha j q Hj Hq. cbn in Hj. apply list_lookup_insert_Some in Hj as [(-> & _)|[_ Hj]]; [done|by apply (Ha j q)]. Qed.

(** When two CPUs are alone, both are outside. *)
Lemma exact_at s i : exact s → alone i s →
  match cpus s !! i with
  | Some (Inside v) => v = count s ∧ shown s = numbers (written s)
  | Some Counted => shown s ++ [count s] = numbers (written s)
  | _ => shown s = numbers (written s)
  end.
Proof.
  intros (_ & j & Hj & H) Hi. destruct (decide (i = j)) as [->|Hne]; [done|].
  assert (∀ p, cpus s !! i = Some p → p = Outside) as Ei.
  { intros p E. destruct (decide (p = Outside)) as [|n]; [done|]. by destruct (Hne (Hj i p E n)). }
  assert (∀ p, cpus s !! j = Some p → p = Outside) as Ej.
  { intros p E. destruct (decide (p = Outside)) as [|n]; [done|]. by destruct (Hne (eq_sym (Hi j p E n))). }
  destruct (cpus s !! i) as [p|]; [rewrite (Ei p) by done|];
    (destruct (cpus s !! j) as [q|]; [by rewrite (Ej q) in H by done|done]).
Qed.

Lemma exact_step s s' : exact s → serial_step s s' → overflowed s' = false → exact s'.
Proof.
  intros Hx (i & Ha & H) Ho. pose proof (exact_at s i Hx Ha) as Hs. destruct Hx as [Hc _].
  unfold cpu_step in H. destruct (overflowed s) eqn:Eo; [done|].
  destruct (cpus s !! i) as [[|v|]|] eqn:Ei; [| | |done];
    pose proof (lookup_lt_Some _ _ _ Ei) as Hlt.
  - injection H as <-. split; [done|]. exists i. split; [by apply alone_insert|].
    cbn. by rewrite list_lookup_insert_eq.
  - destruct Hs as [-> Hs]. unfold int_succ in H. destruct (count s =? 2 ^ 31 - 1); injection H as <-; [done|].
    split; [cbn; lia|]. exists i. split; [by apply alone_insert|].
    cbn [count written cpus shown]. rewrite list_lookup_insert_eq, Hs, numbers_S by done. do 2 f_equal. lia.
  - injection H as <-. split; [done|]. exists i. split; [by apply alone_insert|].
    cbn. by rewrite list_lookup_insert_eq.
Qed.

Lemma exact_smp0 n : exact (smp0 n).
Proof.
  split; [done|]. exists 0%nat. split.
  - intros j p [-> _]%lookup_replicate. done.
  - by destruct n.
Qed.

Lemma overflow_stops s s' : cpu_step s s' ≠ None → overflowed s' = false.
Proof. unfold cpu_step. by destruct (overflowed s'). Qed.

Lemma exact_reachable n s :
  rtc serial_step (smp0 n) s → overflowed s = false → exact s.
Proof.
  intros Hr. assert (exact (smp0 n)) as H0 by apply exact_smp0. revert H0.
  induction Hr as [|s1 s2 s3 H12 Hr IH]; [done|]. intros H Ho. apply IH; [|done].
  apply (exact_step s1); [done|done|].
  destruct Hr as [|s2 s4 s3 (j & _ & Hj) _]; [done|]. apply (overflow_stops j). by rewrite Hj.
Qed.

(** C20: The counter.  Whatever the interleaving of the CPUs, the counter lies between 1
    and the number of calls once there is one, so do the numbers logged, and it overflows
    only after [INT_MAX] calls; it is that number, and the log counts up one by one, when
    no two CPUs are inside the handler at once. *)
Theorem probe_count_bounds n s :
  (rtc smp_step (smp0 n) s →
     count s ≤ Z.of_nat (written s) ∧ ((0 < written s)%nat → 1 ≤ count s) ∧
     Forall (λ v, 1 ≤ v ≤ Z.of_nat (written s)) (shown s) ∧
     (overflowed s = true → 2 ^ 31 - 1 ≤ Z.of_nat (written s))) ∧
  (rtc serial_step (smp0 n) s → overflowed s = false →
     count s = Z.of_nat (written s) ∧
     (Forall (λ p, p = Outside) (cpus s) → shown s = numbers (written s))).
Proof.
  split.
  - intros Hr%counted_reachable. destruct Hr. naive_solver.
  - intros Hr Ho. destruct (exact_reachable n s Hr Ho) as (Hc & i & _ & Hs). split; [done|].
    intros Hall. destruct (cpus s !! i) as [p|] eqn:E; [|done].
    by rewrite (proj1 (Forall_lookup _ _) Hall i p E) in Hs.
Qed.

Lemma cpu_schedule_reachable l s s' : cpu_schedule l s = Some s' → rtc smp_step s s'.
Proof.
  revert s. induction l as [|i l IH]; intros s; cbn; [intros [= <-]; apply rtc_refl|].
  destruct (cpu_step i s) as [s1|] eqn:E; [|done]. intros H.
  apply rtc_l with s1; [by exists i|by apply IH].
Qed.

Lemma cpu_schedule_app l1 l2 s s' :
  cpu_schedule l1 s = Some s' → cpu_schedule (l1 ++ l2) s = cpu_schedule l2 s'.
Proof.
  revert s. induction l1 as [|i l1 IH]; intros s; cbn; [by intros [= ->]|].
  destruct (cpu_step i s); [apply IH|done].
Qed.

(** The second CPU runs [n] calls while the first is between its read and its write. *)
Lemma second_cpu_runs n c w l :
  c + Z.of_nat n < 2 ^ 31 →
  ∃ l', cpu_schedule (concat (replicate n [1; 1; 1]%nat)) (mksmp c w [Inside 0; Outside] l false) =
        Some (mksmp (c + Z.of_nat n) (w + n) [Inside 0; Outside] l' false).
Proof.
  revert c w l. induction n as [|n IH]; intros c w l Hc.
  - exists l. cbn. by rewrite Z.add_0_r, Nat.add_0_r.
  - cbn [replicate concat]. erewrite cpu_schedule_app;
      [|cbn; unfold int_succ; rewrite (proj2 (Z.eqb_neq c _)) by lia; reflexivity].
    destruct (IH (c + 1) (S w) (l ++ [c + 1]) ltac:(lia)) as [l' E]. cbn in E |- *. rewrite E.
    exists l'. do 2 f_equal; lia.
Qed.

(** Finding: two CPUs are enough to lose any number of calls. *)
Theorem probe_loses_counts n :
  Z.of_nat n < 2 ^ 31 →
  ∃ s, rtc smp_step (smp0 2) s ∧ written s = S n ∧ count s = 1.
Proof.
  intros Hn. destruct (second_cpu_runs n 0 0 [] ltac:(lia)) as [l' E].
  eexists. split.
  - apply (cpu_schedule_reachable ([0%nat] ++ concat (replicate n [1; 1; 1]%nat) ++ [0%nat])).
    erewrite cpu_schedule_app; [|reflexivity]. erewrite cpu_schedule_app; [|exact E]. reflexivity.
  - done.
Qed.

(** Finding: the line of the fault handler does not end. *)
Theorem fault_line_open :
  ∃ t, fault_text (λ _, "0") 0 14 = t +:+ "n".
Proof. by exists "fault_handler: p->addr = 0x0, trap #14". Qed.

(** *** Witnesses *)

Definition register_at (a ret : Z) (p : kprobe) : Z * kprobe :=
  (ret, mkkprobe (symbol_name p) a (pre_handler p) (post_handler p) (fault_handler p)).

#[global] Instance register_at_ok a ret : ret ≤ 0 → Registers (register_at a ret).
Proof. intros H. split; [done|]. intros p. by exists a. Qed.

Lemma module_counts_calls_witness :
  (_ ← kprobe_init (register_at 4096 0) (λ _, "x"); _ ← fork_hits 2;
   _ ← kprobe_exit (λ _, "x"); fork_hits 5) module0 =
  (Ok tt, mkhook 2 (register_at 4096 0 (mkkprobe "do_fork" 0 (Some Handler_pre) (Some Handler_post) (Some Handler_fault))).2 false
            ([planted_text (λ _, "x") 4096] ++ count_lines 0 2 ++ [removed_text (λ _, "x") 4096])).
Proof.
  destruct (module_counts_calls (register_at 4096 0) (λ _, "x")
              (H := register_at_ok 4096 0 (Z.le_refl 0)) 2 5 eq_refl) as (_ & _ & H).
  apply (H eq_refl).
Defined.

Lemma probe_count_bounds_witness :
  ∃ s, rtc smp_step (smp0 2) s ∧ written s = 3%nat ∧ count s = 2 ∧
       count s ≤ Z.of_nat (written s) ∧ Forall (λ v, 1 ≤ v ≤ Z.of_nat (written s)) (shown s).
Proof.
  assert (rtc smp_step (smp0 2) (mksmp 2 3 [Outside; Outside] [1; 1; 2] false)) as Hr.
  { apply (cpu_schedule_reachable [0; 1; 0; 1; 0; 1; 0; 0; 0]%nat). reflexivity. }
  eexists. split; [exact Hr|]. split; [done|]. split; [done|].
  destruct (proj1 (probe_count_bounds 2 _) Hr) as (H1 & _ & H3 & _). by split.
Defined.
