(* ===== verification/Atomic.v ===== *)
(** * Atomic: [set/atomic/main.cpp], [main1.cpp] and [main2.cpp]

    Three small programs that coordinate threads through atomics, each a
    transition system over the threads' control points and the shared variables.
    A spinning load that fails leaves the state unchanged and is not a step.  In
    the first two one variable carries all the synchronisation; the third stores
    two variables with relaxed order, and the memory keeps the stores a reader may
    still observe. *)

From S2P Require Import Prelude.

(** ** [Foo]: print in order *)

Module Foo.

(** Control points: before the print (after the spin), before the store, done. *)
Inductive pc : Type := Spin | Print | Store | Done.

#[global] Instance pc_eq_dec : EqDecision pc.
Proof. solve_decision. Defined.

Record state : Type := mkstate {
  cnt : Z; first : pc; second : pc; third : pc; out : list string
}.

(** [Foo()], and the three threads at the start of their functions. *)
Definition init : state := mkstate 1 Print Spin Spin [].

Inductive step : state → state → Prop :=
| first_print c b t o :
    step (mkstate c Print b t o) (mkstate c Store b t (o ++ ["first"]))
| first_store c b t o :
    step (mkstate c Store b t o) (mkstate 2 Done b t o)
| second_load c a t o :
    c = 2 → step (mkstate c a Spin t o) (mkstate c a Print t o)
| second_print c a t o :
    step (mkstate c a Print t o) (mkstate c a Store t (o ++ ["second"]))
| second_store c a t o :
    step (mkstate c a Store t o) (mkstate 3 a Done t o)
| third_load c a b o :
    c = 3 → step (mkstate c a b Spin o) (mkstate c a b Print o)
| third_print c a b o :
    step (mkstate c a b Print o) (mkstate c a b Done (o ++ ["third"])).

(** The states a run goes through. *)
Definition stages : list state :=
  [ mkstate 1 Print Spin Spin []; mkstate 1 Store Spin Spin ["first"];
    mkstate 2 Done Spin Spin ["first"]; mkstate 2 Done Print Spin ["first"];
    mkstate 2 Done Store Spin ["first"; "second"]; mkstate 3 Done Done Spin ["first"; "second"];
    mkstate 3 Done Done Print ["first"; "second"];
    mkstate 3 Done Done Done ["first"; "second"; "third"] ]%string.

(** The only step of a stage goes to the next one. *)
Lemma stage_next i s s' :
  stages !! i = Some s → step s s' → stages !! S i = Some s'.
Proof.
  intros Hi Hs.
  do 8 (destruct i as [|i]; [injection Hi as <-; inversion Hs; subst; try lia; reflexivity|]).
  done.
Qed.

Lemma foo_stage_reachable s : rtc step init s → ∃ i, stages !! i = Some s.
Proof.
  intros Hr. apply (rtc_ind_r (R:=step) (λ s, ∃ i, stages !! i = Some s) init); [by exists 0%nat| |done].
  intros s1 s2 _ Hs [i Hi]. exists (S i). by eapply stage_next.
Qed.

Lemma foo_stage_moves i s : stages !! i = Some s → (i < 7)%nat → ∃ s', step s s'.
Proof.
  intros Hi Hlt.
  do 7 (destruct i as [|i]; [injection Hi as <-; eexists; by constructor|]). lia.
Qed.

(** In every interleaving what has been printed is a prefix of first, second,
    third, and a state without next step has printed all three: no order of the
    threads deadlocks or swaps the words. *)
Theorem foo_prints_in_order s :
  rtc step init s →
  out s `prefix_of` ["first"; "second"; "third"]%string ∧
  ((∀ s', ¬ step s s') → out s = ["first"; "second"; "third"]%string).
Proof.
  intros [i Hi]%foo_stage_reachable. split.
  - do 8 (destruct i as [|i]; [injection Hi as <-; by eexists|]). done.
  - intros Hst. destruct (decide (i < 7)%nat) as [Hlt|Hge].
    + destruct (foo_stage_moves i s Hi Hlt) as [s' Hs]. by destruct (Hst s').
    + apply lookup_lt_Some in Hi as Hlt. cbn in Hlt.
      assert (i = 7)%nat as -> by lia. by injection Hi as <-.
Qed.

Lemma foo_prints_in_order_witness :
  let s := mkstate 2 Done Spin Spin ["first"%string] in
  out s `prefix_of` ["first"; "second"; "third"]%string ∧
  ((∀ s', ¬ step s s') → out s = ["first"; "second"; "third"]%string).
Proof.
  apply (foo_prints_in_order (mkstate 2 Done Spin Spin ["first"%string])).
  eapply rtc_l; [apply first_print|]. eapply rtc_l; [apply first_store|]. apply rtc_refl.
Defined.
End Foo.

(** ** The relaxed litmus test *)

Module Litmus.

(** The order the accesses use. *)
Inductive memory_order : Type := seq_cst | relaxed.

(** Each location keeps its stores, oldest first; [view_x] and [view_y] are the
    oldest stores the reader may still see. *)
Record state : Type := mkstate {
  x : list bool; y : list bool; z : Z;
  writer : nat; reader : nat; view_x : nat; view_y : nat
}.

Definition init : state := mkstate [false] [false] 0 0 0 0 0.

(** A load may return the [i]-th store. *)
Definition visible (mo : memory_order) (h : list bool) (view i : nat) : Prop :=
  (view ≤ i)%nat ∧ match mo with seq_cst => S i = length h | relaxed => True end.

Inductive step (mo : memory_order) : state → state → Prop :=
| store_x h g n r u v :
    step mo (mkstate h g n 0 r u v) (mkstate (h ++ [true]) g n 1 r u v)
| store_y h g n r u v :
    step mo (mkstate h g n 1 r u v) (mkstate h (g ++ [true]) n 2 r u v)
| load_y h g n w u v i :
    g !! i = Some true → visible mo g v i →
    step mo (mkstate h g n w 0 u v) (mkstate h g n w 1 u i)
| load_x h g n w u v i b :
    h !! i = Some b → visible mo h u i →
    step mo (mkstate h g n w 1 u v) (mkstate h g (if b : bool then n + 1 else n) w 2 i v).

(** Both threads have been joined; [assert(z.load() != 0)]. *)
Definition joined (s : state) : bool := (writer s =? 2)%nat && (reader s =? 2)%nat.
Definition final_assert (s : state) : outcome unit := cassert (negb (z s =? 0)).

Record inv (s : state) : Prop := {
  in_x : x s = match writer s with 0%nat => [false] | _ => [false; true] end;
  in_y : y s = match writer s with 0%nat | 1%nat => [false] | _ => [false; true] end;
  in_order : reader s ≠ 0%nat → writer s = 2%nat;
  in_writer : (writer s ≤ 2)%nat;
  in_z : reader s = 2%nat → z s = 1;
  in_z0 : (reader s < 2)%nat → z s = 0
}.

Lemma inv_step s s' : step seq_cst s s' → inv s → inv s'.
Proof.
  intros Hs [Hx Hy Ho Hw Hz Hz0]. destruct Hs as [h g n r u v|h g n r u v|h g n w u v i Hi Hv|h g n w u v i b Hi Hv];
    cbn in *; constructor; cbn; try done; try lia; subst; try done.
  - intros _. destruct w as [|[|[|w]]]; try lia; destruct i as [|i]; cbn in Hi; done.
  - intros _. specialize (Ho ltac:(lia)). subst w. destruct Hv as [_ Hv]. cbn in Hv.
    assert (i = 1)%nat as -> by lia. injection Hi as <-. rewrite Hz0; lia.
Qed.

(** C40: With sequentially consistent accesses the assertion at the end of [main]
    always holds; with the relaxed accesses the program uses it can fail: the
    reader may see the store to [y] and not yet the one to [x]. *)
Theorem litmus_assertion :
  (∀ s, rtc (step seq_cst) init s → joined s = true → final_assert s = Ok tt) ∧
  (∃ s, rtc (step relaxed) init s ∧ joined s = true ∧ final_assert s = AssertFail).
Proof.
  split.
  - intros s Hr Hj. assert (Hi : inv s).
    { apply (rtc_ind_r (R:=step seq_cst) inv init); [constructor; cbn; first [done|lia]| |done]. eauto using inv_step. }
    unfold joined in Hj. apply andb_prop in Hj as [_ Hj]. apply Nat.eqb_eq in Hj.
    unfold final_assert. by rewrite (in_z s Hi Hj).
  - exists (mkstate [false; true] [false; true] 0 2 2 0 1). split; [|done].
    eapply rtc_l; [apply store_x|]. eapply rtc_l; [apply store_y|].
    eapply rtc_l; [apply (load_y _ _ _ _ _ _ _ 1); [reflexivity|split; [lia|done]]|].
    eapply rtc_l; [apply (load_x _ _ _ _ _ _ _ 0 false); [reflexivity|split; [lia|done]]|].
    apply rtc_refl.
Qed.
End Litmus.

(** ** [ZeroEvenOdd]: 0 1 0 2 0 3 ... *)

Module ZeroEvenOdd.

(** A thread in its loop: the counter, and whether it spins, prints or stores.  A
    counter above [n] has left the loop. *)
Inductive pc : Type := Spin | Print | Store.
Record thread : Type := mkthread { i : Z; at_ : pc }.

Record state : Type := mkstate {
  flag : Z; zero : thread; even : thread; odd : thread; out : list Z
}.

Definition init : state :=
  mkstate 0 (mkthread 1 Spin) (mkthread 2 Spin) (mkthread 1 Spin) [].

(** [i % 2 == 0 ? 2 : 1] *)
Definition turn_of (k : Z) : Z := if k mod 2 =? 0 then 2 else 1.

Section steps.
Context (n : Z).

Inductive step : state → state → Prop :=
| zero_load f k e o out :
    k ≤ n → f = 0 →
    step (mkstate f (mkthread k Spin) e o out) (mkstate f (mkthread k Print) e o out)
| zero_print f k e o out :
    step (mkstate f (mkthread k Print) e o out) (mkstate f (mkthread k Store) e o (out ++ [0]))
| zero_store f k e o out :
    step (mkstate f (mkthread k Store) e o out)
         (mkstate (turn_of k) (mkthread (k + 1) Spin) e o out)
| even_load f z k o out :
    k ≤ n → f = 2 →
    step (mkstate f z (mkthread k Spin) o out) (mkstate f z (mkthread k Print) o out)
| even_print f z k o out :
    step (mkstate f z (mkthread k Print) o out) (mkstate f z (mkthread k Store) o (out ++ [k]))
| even_store f z k o out :
    step (mkstate f z (mkthread k Store) o out) (mkstate 0 z (mkthread (k + 2) Spin) o out)
| odd_load f z e k out :
    k ≤ n → f = 1 →
    step (mkstate f z e (mkthread k Spin) out) (mkstate f z e (mkthread k Print) out)
| odd_print f z e k out :
    step (mkstate f z e (mkthread k Print) out) (mkstate f z e (mkthread k Store) (out ++ [k]))
| odd_store f z e k out :
    step (mkstate f z e (mkthread k Store) out) (mkstate 0 z e (mkthread (k + 2) Spin) out).
End steps.

(** The output after [k] numbers. *)
Fixpoint expected (k : nat) : list Z :=
  match k with O => [] | S k => expected k ++ [0; Z.of_nat (S k)] end.

(** The next even and odd number after [k]. *)
Definition next_even (k : Z) : Z := if k mod 2 =? 0 then k + 2 else k + 1.
Definition next_odd (k : Z) : Z := if k mod 2 =? 0 then k + 1 else k + 2.

(** The stages between the [k]-th and the next number: [zero] is to print, or has
    printed and is to store; then the thread of the number [k + 1] is to print, or
    has printed and is to store. *)
Definition consumer (k : nat) (p : pc) : thread * thread :=
  let j := Z.of_nat k in
  if (j + 1) mod 2 =? 0 then (mkthread (j + 1) p, mkthread (next_odd j) Spin)
  else (mkthread (next_even j) Spin, mkthread (j + 1) p).

Definition zero_stage (k : nat) (p : pc) : state :=
  let j := Z.of_nat k in
  mkstate 0 (mkthread (j + 1) p) (mkthread (next_even j) Spin) (mkthread (next_odd j) Spin)
    (expected k ++ match p with Store => [0] | _ => [] end).

Definition consumer_stage (k : nat) (p : pc) : state :=
  let j := Z.of_nat k in
  mkstate (turn_of (j + 1)) (mkthread (j + 2) Spin) (consumer k p).1 (consumer k p).2
    (match p with Store => expected (S k) | _ => expected k ++ [0] end).

(** A stage of the run that prints [n] numbers. *)
Inductive stage (n : Z) : state → Prop :=
| st_start k : Z.of_nat k ≤ Z.max 0 n → stage n (zero_stage k Spin)
| st_zero k p : p ≠ Spin → Z.of_nat k + 1 ≤ n → stage n (zero_stage k p)
| st_consumer k p : Z.of_nat k + 1 ≤ n → stage n (consumer_stage k p).

Lemma parity j : (j + 1) mod 2 = 1 - j mod 2.
Proof.
  pose proof (Z.mod_pos_bound j 2 ltac:(lia)).
  rewrite Z.add_mod by lia. change (1 mod 2) with 1.
  destruct (decide (j mod 2 = 0)) as [-> | Hne]; [done|].
  replace (j mod 2) with 1 by lia. done.
Qed.

(** Opens the parity of the number whose turn it is. *)
Ltac parities k :=
  let H := fresh "Hpar" in
  pose proof (parity (Z.of_nat k)); pose proof (parity (Z.of_nat k + 1));
  pose proof (Z.mod_pos_bound (Z.of_nat k) 2 ltac:(lia));
  destruct (decide (Z.of_nat k mod 2 = 0)) as [H|H].

Lemma consumer_done k :
  (let '(e, o) := consumer k Store in
   if (Z.of_nat k + 1) mod 2 =? 0
   then (mkthread (i e + 2) Spin, o) else (e, mkthread (i o + 2) Spin)) =
  (mkthread (next_even (Z.of_nat (S k))) Spin, mkthread (next_odd (Z.of_nat (S k))) Spin).
Proof.
  rewrite Nat2Z.inj_succ, <- Z.add_1_r. unfold consumer, next_even, next_odd.
  parities k.
  - rewrite H, Hpar. change (1 - 0 =? 0) with false. change (0 =? 0) with true. cbn.
    f_equal; f_equal; lia.
  - rewrite H. replace (Z.of_nat k mod 2) with 1 by lia.
    change (1 - 1 =? 0) with true. change (1 =? 0) with false. cbn. f_equal; f_equal; lia.
Qed.

Lemma consumer_spin k :
  consumer k Spin =
  (mkthread (next_even (Z.of_nat k)) Spin, mkthread (next_odd (Z.of_nat k)) Spin).
Proof.
  unfold consumer, next_even, next_odd. parities k.
  - rewrite H, Hpar. reflexivity.
  - rewrite H. replace (Z.of_nat k mod 2) with 1 by lia. reflexivity.
Qed.

Lemma zero_stage_step n k p s' :
  step n (zero_stage k p) s' →
  s' = match p with
       | Spin => zero_stage k Print
       | Print => zero_stage k Store
       | Store => consumer_stage k Spin
       end ∧ (p = Spin → Z.of_nat k + 1 ≤ n).
Proof.
  intros Hs. destruct p; inversion Hs; subst; try lia; split; try done;
    unfold zero_stage, consumer_stage; rewrite ?app_nil_r; try done.
  rewrite consumer_spin. cbn [fst snd]. f_equal. f_equal. lia.
Qed.

Lemma expected_print k : (expected k ++ [0]) ++ [Z.of_nat k + 1] = expected (S k).
Proof. cbn [expected]. rewrite <- app_assoc. cbn. do 3 f_equal. lia. Qed.

Lemma consumer_stage_step n k p s' :
  step n (consumer_stage k p) s' → Z.of_nat k + 1 ≤ n →
  s' = match p with
       | Spin => consumer_stage k Print
       | Print => consumer_stage k Store
       | Store => zero_stage (S k) Spin
       end.
Proof.
  intros Hs Hk. pose proof (consumer_done k) as Hd. revert Hs Hd.
  unfold consumer_stage, consumer, turn_of, zero_stage.
  destruct ((Z.of_nat k + 1) mod 2 =? 0) eqn:Ep; cbn [fst snd]; intros Hs Hd;
    destruct p; inversion Hs; subst; try lia; try done; try (by rewrite expected_print);
    cbn [i] in Hd; injection Hd as Hd1 Hd2; rewrite app_nil_r; rewrite <- Hd1, <- Hd2;
    f_equal; f_equal; lia.
Qed.

Lemma stage_step n s s' : step n s s' → stage n s → stage n s'.
Proof.
  intros Hs Hst. destruct Hst as [k Hk|k p Hp Hk|k p Hk].
  - apply zero_stage_step in Hs as [-> Hk']. apply st_zero; [done|by apply Hk'].
  - apply zero_stage_step in Hs as [-> _].
    destruct p; [done|by apply st_zero|by apply st_consumer].
  - apply consumer_stage_step in Hs as ->; [|done].
    destruct p; [by apply st_consumer|by apply st_consumer|apply st_start; lia].
Qed.

Lemma stage_reachable n s : rtc (step n) init s → stage n s.
Proof.
  apply (rtc_ind_r (R:=step n) (stage n) init).
  - change init with (zero_stage 0 Spin). apply st_start. lia.
  - eauto using stage_step.
Qed.

Lemma expected_prefix k m : (k ≤ m)%nat → expected k `prefix_of` expected m.
Proof.
  induction 1 as [|m _ IH]; [done|]. cbn [expected]. by apply prefix_app_r.
Qed.

Lemma expected_zero_prefix k m : (k < m)%nat → expected k ++ [0] `prefix_of` expected m.
Proof.
  intros H. etrans; [|by apply (expected_prefix (S k))].
  rewrite <- expected_print. by apply prefix_app_r.
Qed.

Lemma stage_prefix n s : stage n s → out s `prefix_of` expected (Z.to_nat n).
Proof.
  intros [k Hk|k p Hp Hk|k p Hk]; cbn [out zero_stage consumer_stage].
  - rewrite app_nil_r. apply expected_prefix. lia.
  - destruct p; [done|rewrite app_nil_r; apply expected_prefix|apply expected_zero_prefix]; lia.
  - destruct p; [apply expected_zero_prefix|apply expected_zero_prefix|apply expected_prefix]; lia.
Qed.

(** The threads' counters stay below the overflow of an [int]. *)
Definition counters_below (b : Z) (s : state) : Prop :=
  i (zero s) ≤ b ∧ i (even s) ≤ b ∧ i (odd s) ≤ b.

Lemma stage_counters n s : 0 ≤ n → stage n s → counters_below (n + 2) s.
Proof.
  intros Hn [k Hk|k p Hp Hk|k p Hk]; unfold counters_below, zero_stage, consumer_stage, consumer,
    next_even, next_odd; cbn [zero even odd i]; zcases; cbn [fst snd i]; lia.
Qed.

Lemma stage_moves n s :
  stage n s → (∃ s', step n s s') ∨ out s = expected (Z.to_nat n).
Proof.
  intros [k Hk|k p Hp Hk|k p Hk].
  - destruct (decide (Z.of_nat k + 1 ≤ n)).
    + left. eexists. by apply zero_load.
    + right. cbn. rewrite app_nil_r. f_equal. lia.
  - left. destruct p; [done|eexists; apply zero_print|eexists; apply zero_store].
  - left. unfold consumer_stage, consumer, turn_of. destruct (_ =? 0); destruct p; eexists;
      first [by apply even_load|apply even_print|apply even_store
            |by apply odd_load|apply odd_print|apply odd_store].
Qed.

(** C36: In every interleaving the three threads print a prefix of
    0 1 0 2 0 3 ... 0 n, the loop counters stay within [n + 2], and a state
    without next step has printed the whole sequence. *)
Theorem zero_even_odd_sequence n s :
  0 ≤ n → rtc (step n) init s →
  out s `prefix_of` expected (Z.to_nat n) ∧ counters_below (n + 2) s ∧
  ((∀ s', ¬ step n s s') → out s = expected (Z.to_nat n)).
Proof.
  intros Hn Hs%stage_reachable. split; [by apply stage_prefix|].
  split; [by apply stage_counters|]. intros Hst.
  destruct (stage_moves n s Hs) as [[s' Hs']|]; [by destruct (Hst s')|done].
Qed.

Lemma zero_even_odd_sequence_witness :
  let s := mkstate 1 (mkthread 2 Spin) (mkthread 2 Spin) (mkthread 1 Spin) [0] in
  out s `prefix_of` expected (Z.to_nat 10) ∧ counters_below (10 + 2) s ∧
  ((∀ s', ¬ step 10 s s') → out s = expected (Z.to_nat 10)).
Proof.
  apply (zero_even_odd_sequence 10
           (mkstate 1 (mkthread 2 Spin) (mkthread 2 Spin) (mkthread 1 Spin) [0])); [lia|].
  eapply rtc_l; [apply zero_load; lia|]. eapply rtc_l; [apply zero_print|].
  eapply rtc_l; [apply zero_store|]. apply rtc_refl.
Defined.
End ZeroEvenOdd.
