(* ===== verification/Bar.v ===== *)
(** * Bar: [set/str/bar.h] and [set/str/bar_view.h]

    [Bar], a growable string on [malloc]ed memory, and [SsoString], a string with
    a local cache.  Memory is a heap of blocks with identities, so that ownership
    (two objects that hold one block, a block released while still held) is
    visible.  [delete] on a [malloc]ed block releases it, as it does with the C
    library of the build. *)

From S2P Require Import Prelude.

Abbreviation byte := Byte.byte.
Abbreviation cell := (option byte).

(** [blocks] are the live allocations, [next] the next fresh identity. *)
Record heap : Type := mkheap { blocks : gmap nat (list cell); next : nat }.

Abbreviation H := (SM heap).

(** [malloc(n)]: a fresh block of indeterminate cells. *)
Definition malloc (n : Z) : H nat := λ h,
  (Ok (next h),
   mkheap (<[next h := replicate (Z.to_nat n) None]> (blocks h)) (S (next h))).

Definition free (p : nat) : H unit := λ h,
  match blocks h !! p with
  | None => (Undef DanglingPointer, h)
  | Some _ => (Ok tt, mkheap (delete p (blocks h)) (next h))
  end.

(** The block a pointer points to. *)
Definition deref (p : option nat) : H (nat * list cell) := λ h,
  match p with
  | None => (Undef NullPointer, h)
  | Some p => match blocks h !! p with
              | None => (Undef DanglingPointer, h)
              | Some b => (Ok (p, b), h)
              end
  end.

Definition set_block (p : nat) (b : list cell) : H unit := λ h,
  (Ok tt, mkheap (<[p := b]> (blocks h)) (next h)).

(** [memcpy(dst + off, src, n)] from an array. *)
Definition memcpy (dst : option nat) (off : Z) (src : list cell) (n : Z) : H unit :=
  '(p, b) ← deref dst;
  d ← slift (load src 0 n);
  b ← slift (store b off d);
  set_block p b.

(** ** Bar *)

Record Bar : Type := mkBar { data_ : option nat; capacity_ : Z; len_ : Z }.

(** [Bar(const char*, size_t)] *)
Definition Bar_new (str : list cell) (len : Z) : H Bar :=
  p ← malloc len;
  _ ← memcpy (Some p) 0 str len;
  mret {| data_ := Some p; capacity_ := len; len_ := len |}.

(** The constructor from a C string: up to its terminator, which has to be there. *)
Fixpoint strlen (str : list cell) : outcome Z :=
  match str with
  | [] => Undef OutOfBounds
  | None :: _ => Undef Indeterminate
  | Some Byte.x00 :: _ => Ok 0
  | Some _ :: str => n ← strlen str; Ok (1 + n)
  end.
Definition Bar_cstr (str : list cell) : H Bar := n ← slift (strlen str); Bar_new str n.

(** [Bar(size_t)] *)
Definition Bar_capacity (capacity : Z) : H Bar :=
  p ← malloc capacity; mret {| data_ := Some p; capacity_ := capacity; len_ := 0 |}.

(** [Bar(size_t, const char*, size_t)] from the block at [src] *)
Definition Bar_grown (capacity : Z) (src : option nat) (len : Z) : H Bar :=
  b ← Bar_capacity capacity;
  '(_, s) ← deref src;
  _ ← memcpy (data_ b) 0 s len;
  mret {| data_ := data_ b; capacity_ := capacity_ b; len_ := len |}.

(** [Bar(Bar&)] *)
Definition Bar_copy (other : Bar) : H Bar :=
  '(_, s) ← deref (data_ other); Bar_new s (len_ other).

(** [Bar(Bar&&)]: the source keeps its pointer. *)
Definition Bar_move (other : Bar) : H (Bar * Bar) := mret (other, other).

Definition Bar_destroy (b : Bar) : H unit :=
  match data_ b with Some p => free p | None => mret tt end.

(** [copy_swap(Bar other)], with the destruction of the parameter. *)
Definition copy_swap (this other : Bar) : H Bar :=
  let this' := {| data_ := data_ other; capacity_ := capacity_ other; len_ := len_ other |} in
  let other' := {| data_ := None; capacity_ := 0; len_ := 0 |} in
  _ ← Bar_destroy other'; mret this'.

(** [this->copy_swap(std::move(Bar(capacity, data_, len_)))]: the temporary is
    moved into the parameter and destroyed at the end of the expression. *)
Definition grow (this : Bar) (capacity : Z) : H Bar :=
  temp ← Bar_grown capacity (data_ this) (len_ this);
  '(param, temp) ← Bar_move temp;
  this ← copy_swap this param;
  _ ← Bar_destroy temp;
  mret this.

(** [operator=(Bar&)] has no [return]. *)
Definition Bar_assign (this other : Bar) : H Bar :=
  param ← Bar_copy other;
  _ ← copy_swap this param;
  slift (Undef MissingReturn).

(** [append(char)] *)
Definition append_char (this : Bar) (c : byte) : H Bar :=
  this ← (if len_ this =? capacity_ this then grow this (capacity_ this ⊗ 2) else mret this);
  let len := len_ this ⊕ 1 in
  '(p, b) ← deref (data_ this);
  b ← slift (store b len [Some c]);
  _ ← set_block p b;
  mret {| data_ := data_ this; capacity_ := capacity_ this; len_ := len |}.

(** [append(const char*, size_t)] *)
Definition append_str (this : Bar) (str : list cell) (len : Z) : H Bar :=
  this ← (if capacity_ this <? len_ this ⊕ len then grow this (capacity_ this ⊗ 2 ⊕ len)
          else mret this);
  _ ← memcpy (data_ this) (len_ this) str len;
  mret this.

(** [append(const Bar&)] *)
Definition append_bar (this other : Bar) : H Bar :=
  '(_, s) ← deref (data_ other); append_str this s (len_ other).

(** [append] of a C string. *)
Definition append_cstr (this : Bar) (str : list cell) : H Bar :=
  n ← slift (strlen str); append_str this str n.

(** [append(const std::string&)]: the characters and the terminator of [c_str()]. *)
Definition append_string (this : Bar) (other : list byte) : H Bar :=
  append_str this ((Some <$> other) ++ [Some Byte.x00]) (lenZ other).

Definition size (b : Bar) : Z := len_ b.
Definition capactiy (b : Bar) : Z := capacity_ b.
Definition data_of (b : Bar) : option nat := data_ b.

(** ** SsoString *)

Definition locl_cache_len : Z := 19.

(** [cache] is the union's array of 20 characters; [data], [len] and the capacity
    are set only for long strings. *)
Record context : Type := mkctx {
  data : option nat; len : option Z; cache : list cell; ctx_capacity : option Z
}.

Definition context_new : context := mkctx None None (replicate 20 None) None.

(** [SsoString(str, len)]: [str] without its terminator, which [strcpy] adds. *)
Definition SsoString_new (str : list byte) (len : Z) : H context :=
  _ ← slift (cassert (lenZ str =? len));
  if len <=? locl_cache_len then
    c ← slift (store (cache context_new) 0 ((Some <$> str) ++ [Some Byte.x00]));
    c ← slift (store c (len + 1) [Some Byte.x00]);
    mret (mkctx None None c None)
  else
    p ← malloc len;
    mret (mkctx (Some p) (Some (u32 len)) (cache context_new) (Some (u32 len))).

(** From a C string, given by its characters. *)
Definition SsoString_cstr (str : list byte) : H context := SsoString_new str (lenZ str).

(** ** Ownership *)

(** Identities not given out yet are not in use. *)
Definition fresh_above (h : heap) : Prop := ∀ q, (next h ≤ q)%nat → blocks h !! q = None.

(** [b] holds the block of [cells], its capacity. *)
Record owns (b : Bar) (h : heap) (p : nat) (cells : list cell) : Prop := {
  ow_ptr : data_ b = Some p;
  ow_block : blocks h !! p = Some cells;
  ow_cap : lenZ cells = capacity_ b;
  ow_len : 0 ≤ len_ b ≤ capacity_ b;
  ow_max : capacity_ b < 2 ^ 61;
  ow_fresh : fresh_above h
}.

(** The overloads for C strings see the characters before the terminator. *)
Lemma strlen_terminated s tl :
  Byte.x00 ∉ s → strlen ((Some <$> s) ++ Some Byte.x00 :: tl) = Ok (lenZ s).
Proof.
  induction s as [|b s IH]; intros Hn; [done|]. cbn [fmap list_fmap app strlen].
  assert (b ≠ Byte.x00) by set_solver. rewrite IH by set_solver. cbn [mbind outcome_bind].
  assert (lenZ (b :: s) = 1 + lenZ s) as -> by (unfold lenZ; cbn [length]; lia).
  by destruct b.
Qed.

Lemma Bar_cstr_new s tl h :
  Byte.x00 ∉ s →
  Bar_cstr ((Some <$> s) ++ Some Byte.x00 :: tl) h =
  Bar_new ((Some <$> s) ++ Some Byte.x00 :: tl) (lenZ s) h.
Proof. intros Hs. unfold Bar_cstr. rewrite strlen_terminated by done. reflexivity. Qed.

Lemma owns_lt b h p cells : owns b h p cells → (p < next h)%nat.
Proof.
  intros [_ Hb _ _ _ Hf]. destruct (decide (next h ≤ p)%nat) as [Hle|]; [|lia].
  by rewrite Hf in Hb.
Qed.

Lemma deref_Some p h b : blocks h !! p = Some b → deref (Some p) h = (Ok (p, b), h).
Proof. intros H. cbn. by rewrite H. Qed.

Lemma deref_None p h : blocks h !! p = None → deref (Some p) h = (Undef DanglingPointer, h).
Proof. intros H. unfold deref. by rewrite H. Qed.

Lemma free_Some p h b :
  blocks h !! p = Some b → free p h = (Ok tt, mkheap (delete p (blocks h)) (next h)).
Proof. intros H. unfold free. by rewrite H. Qed.

Lemma memcpy_Ok dst off src n h b :
  blocks h !! dst = Some b → 0 ≤ off → 0 ≤ n ≤ lenZ src → off + n ≤ lenZ b →
  memcpy (Some dst) off src n h =
    (Ok tt, mkheap (<[dst := splice b off (slice src 0 n)]> (blocks h)) (next h)).
Proof.
  intros Hb Ho Hn Hl. unfold memcpy. rewrite (sm_bind_Ok _ _ _ _ _ (deref_Some _ _ _ Hb)).
  rewrite load_Ok by lia. rewrite (sm_bind_Ok (slift (Ok _)) _ _ _ _ eq_refl).
  rewrite store_Ok by len_solve. done.
Qed.

(** What growing leaves: the new block is released, the old one is kept. *)
Lemma grow_releases b h p cells capacity :
  owns b h p cells → capacity_ b ≤ capacity < 2 ^ 63 →
  ∃ h', grow b capacity h = (Ok (mkBar (Some (next h)) capacity (len_ b)), h') ∧
        blocks h' !! next h = None ∧ blocks h' !! p = Some cells.
Proof.
  intros Ho Hc. pose proof (owns_lt _ _ _ _ Ho) as Hlt. destruct Ho as [Hp Hb Hcap Hlen Hmax Hf].
  set (h1 := mkheap (<[next h := replicate (Z.to_nat capacity) None]> (blocks h)) (S (next h))).
  assert (Hp1 : blocks h1 !! p = Some cells) by (cbn; rewrite lookup_insert_ne by lia; done).
  assert (Hn1 : blocks h1 !! next h = Some (replicate (Z.to_nat capacity) None))
    by apply lookup_insert_eq.
  assert (Hg : Bar_grown capacity (data_ b) (len_ b) h =
    (Ok (mkBar (Some (next h)) capacity (len_ b)),
     mkheap (<[next h := splice (replicate (Z.to_nat capacity) None) 0 (slice cells 0 (len_ b))]>
               (blocks h1)) (S (next h)))).
  { unfold Bar_grown.
    rewrite (sm_bind_Ok (Bar_capacity capacity) _ _ (mkBar (Some (next h)) capacity 0) h1) by done.
    rewrite Hp, (sm_bind_Ok _ _ _ _ _ (deref_Some _ _ _ Hp1)). cbn [data_ capacity_].
    rewrite (sm_bind_Ok _ _ _ _ _
      (memcpy_Ok (next h) 0 cells (len_ b) h1 _ Hn1 ltac:(lia) ltac:(lia) ltac:(len_solve))).
    done. }
  unfold grow. rewrite (sm_bind_Ok _ _ _ _ _ Hg).
  rewrite (sm_bind_Ok (Bar_move _) _ _ _ _ eq_refl), (sm_bind_Ok (copy_swap _ _) _ _ _ _ eq_refl).
  unfold Bar_destroy. cbn [data_]. eexists. split.
  { rewrite (sm_bind_Ok _ _ _ _ _ (free_Some _ _ _ (lookup_insert_eq _ _ _))). done. }
  cbn [blocks]. split; [by rewrite lookup_delete_eq|].
  rewrite lookup_delete_ne, lookup_insert_ne by lia. done.
Qed.

(** Finding.  Growing a [Bar] always ends in a use of released memory: the
    move constructor leaves the temporary its pointer, so the temporary's
    destructor releases the block [this] has just taken over, and the append that
    made the string grow writes through it. *)
Theorem bar_growth_dangles b h p cells c str n :
  owns b h p cells → 0 ≤ n < 2 ^ 61 →
  (len_ b = capacity_ b → (append_char b c h).1 = Undef DanglingPointer) ∧
  (capacity_ b < len_ b + n → (append_str b str n h).1 = Undef DanglingPointer).
Proof.
  intros Ho Hn. pose proof Ho as [Hp Hb Hcap Hlen Hmax Hf]. split; intros Hg.
  - unfold append_char. rewrite Hg, Z.eqb_refl, (u64_small (capacity_ b * 2)) by lia.
    destruct (grow_releases b h p cells (capacity_ b * 2) Ho ltac:(lia)) as (h' & E & Hd & _).
    rewrite (sm_bind_Ok _ _ _ _ _ E). unfold memcpy, mbind, SM_bind. cbn [data_].
    by rewrite (deref_None _ _ Hd).
  - unfold append_str. rewrite (u64_small (len_ b + n)), (proj2 (Z.ltb_lt (capacity_ b) _)) by lia.
    rewrite (u64_small (capacity_ b * 2)), u64_small by lia.
    destruct (grow_releases b h p cells (capacity_ b * 2 + n) Ho ltac:(lia)) as (h' & E & Hd & _).
    rewrite (sm_bind_Ok _ _ _ _ _ E). unfold memcpy, mbind, SM_bind. cbn [data_].
    by rewrite (deref_None _ _ Hd).
Qed.

(** The copy constructor makes an independent block with the same characters. *)
Theorem bar_copy_is_deep b h p cells :
  owns b h p cells →
  ∃ b' h', Bar_copy b h = (Ok b', h') ∧ data_ b' ≠ data_ b ∧ size b' = size b ∧
    blocks h' !! p = Some cells ∧
    ∃ p', data_ b' = Some p' ∧ blocks h' !! p' = Some (slice cells 0 (len_ b)).
Proof.
  intros Ho. pose proof (owns_lt _ _ _ _ Ho) as Hlt. destruct Ho as [Hp Hb Hcap Hlen Hmax Hf].
  set (h1 := mkheap (<[next h := replicate (Z.to_nat (len_ b)) None]> (blocks h)) (S (next h))).
  assert (Hn1 : blocks h1 !! next h = Some (replicate (Z.to_nat (len_ b)) None))
    by apply lookup_insert_eq.
  unfold Bar_copy, Bar_new. rewrite Hp, (sm_bind_Ok _ _ _ _ _ (deref_Some _ _ _ Hb)).
  rewrite (sm_bind_Ok (malloc (len_ b)) _ _ (next h) h1) by done.
  rewrite (sm_bind_Ok _ _ _ _ _
    (memcpy_Ok (next h) 0 cells (len_ b) h1 _ Hn1 ltac:(lia) ltac:(lia) ltac:(len_solve))).
  eexists _, _. split; [done|]. cbn. split; [intros [=]; lia|]. split; [done|]. split.
  - rewrite !lookup_insert_ne by lia. done.
  - eexists. split; [done|]. rewrite lookup_insert_eq. f_equal.
    apply list_eq. intros k. unfold splice. rewrite take_0. cbn [app].
    rewrite drop_ge; [by rewrite app_nil_r|].
    rewrite length_replicate. pose proof (length_slice cells 0 (len_ b)). unfold lenZ in *. lia.
Qed.

(** Finding.  Without growth, [append(char)] stores at [len_ + 1]: it skips a
    cell and, when one cell is left, writes past the block; and [append] of a
    string stores at the end but does not advance it, so that a second append of
    the same length overwrites the first. *)
Theorem bar_append_misplaces b h p cells c s1 s2 :
  owns b h p cells → len_ b < capacity_ b → lenZ s1 = lenZ s2 →
  len_ b + lenZ s1 ≤ capacity_ b →
  (len_ b + 1 < capacity_ b →
   ∃ h', append_char b c h = (Ok (mkBar (data_ b) (capacity_ b) (len_ b + 1)), h') ∧
         blocks h' !! p = Some (splice cells (len_ b + 1) [Some c])) ∧
  (len_ b + 1 = capacity_ b → (append_char b c h).1 = Undef OutOfBounds) ∧
  (∃ h1 h2, append_str b s1 (lenZ s1) h = (Ok b, h1) ∧ append_str b s2 (lenZ s2) h1 = (Ok b, h2) ∧
            blocks h1 !! p = Some (splice cells (len_ b) s1) ∧
            blocks h2 !! p = Some (splice cells (len_ b) s2)).
Proof.
  intros [Hp Hb Hcap Hlen Hmax Hf] Hroom Hs Hfit.
  assert (Hchar : append_char b c h =
    ('(p, bl) ← deref (data_ b); bl ← slift (store bl (len_ b + 1) [Some c]);
     _ ← set_block p bl; mret {| data_ := data_ b; capacity_ := capacity_ b; len_ := len_ b + 1 |}) h).
  { unfold append_char. rewrite (proj2 (Z.eqb_neq (len_ b) (capacity_ b))) by lia.
    rewrite (sm_bind_Ok (mret b) _ h b h) by done. by rewrite u64_small by lia. }
  split; [|split].
  - intros Hr. rewrite Hchar, Hp, (sm_bind_Ok _ _ _ _ _ (deref_Some _ _ _ Hb)).
    rewrite store_Ok by (unfold lenZ in *; cbn; lia). eexists. split; [done|].
    cbn. apply lookup_insert_eq.
  - intros Hr. rewrite Hchar, Hp, (sm_bind_Ok _ _ _ _ _ (deref_Some _ _ _ Hb)).
    rewrite store_Undef by (unfold lenZ in *; cbn; lia). done.
  - assert (Hstr : ∀ s h0 bl, lenZ s = lenZ s1 → blocks h0 !! p = Some bl → lenZ bl = capacity_ b →
      append_str b s (lenZ s) h0 =
        (Ok b, mkheap (<[p := splice bl (len_ b) s]> (blocks h0)) (next h0))).
    { intros s h0 bl Hls Hb0 Hl0. pose proof (lenZ_nonneg s). unfold append_str.
      rewrite (u64_small (len_ b + lenZ s)), (proj2 (Z.ltb_ge (capacity_ b) _)) by lia.
      rewrite (sm_bind_Ok (mret b) _ h0 b h0) by done. rewrite Hp.
      rewrite (sm_bind_Ok _ _ _ _ _ (memcpy_Ok p (len_ b) s (lenZ s) h0 bl Hb0 ltac:(lia) ltac:(lia) ltac:(lia))).
      by rewrite slice_all. }
    eexists _, _. split; [by apply Hstr|]. split; [apply Hstr; [done|apply lookup_insert_eq|]|].
    + rewrite lenZ_splice by lia. done.
    + cbn. split; [apply lookup_insert_eq|]. rewrite lookup_insert_eq. f_equal.
      apply splice_splice; lia.
Qed.

Lemma sso_short str :
  lenZ str ≤ 19 →
  store (cache context_new) 0 ((Some <$> str) ++ [Some Byte.x00]) =
    Ok (splice (cache context_new) 0 ((Some <$> str) ++ [Some Byte.x00])) ∧
  lenZ (splice (cache context_new) 0 ((Some <$> str) ++ [Some Byte.x00])) = 20.
Proof.
  intros Hl. assert (Hd : lenZ ((Some <$> str) ++ [Some Byte.x00]) = lenZ str + 1)
    by (rewrite lenZ_app, lenZ_fmap; done).
  assert (Hc : lenZ (cache context_new) = 20) by done.
  split; [apply store_Ok; lia|]. rewrite lenZ_splice; lia.
Qed.

(** Findings on [SsoString].  A string of less than 19 characters is cached
    with its terminator (its length is not recorded); with 19 characters, which
    the code takes for short, the second terminator is written past the cache; and
    a longer string is allocated but its characters are never copied. *)
Theorem sso_string_cases str h :
  let n := lenZ str in
  (n < 19 → ∃ c, SsoString_new str n h = (Ok c, h) ∧ len c = None ∧
                 slice (cache c) 0 (n + 1) = (Some <$> str) ++ [Some Byte.x00]) ∧
  (n = 19 → (SsoString_new str n h).1 = Undef OutOfBounds) ∧
  (19 < n → ∃ c h', SsoString_new str n h = (Ok c, h') ∧ data c = Some (next h) ∧
                    blocks h' !! next h = Some (replicate (Z.to_nat n) None)).
Proof.
  cbv zeta. unfold SsoString_new. rewrite Z.eqb_refl. unfold locl_cache_len.
  change (cassert true) with (Ok tt). rewrite (sm_bind_Ok (slift (Ok tt)) _ h tt h eq_refl).
  split; [|split]; intros Hn.
  - destruct (sso_short str ltac:(lia)) as [Hs Hl]. pose proof (lenZ_nonneg str).
    rewrite (proj2 (Z.leb_le (lenZ str) 19)) by lia. rewrite Hs. eexists. split.
    { rewrite (sm_bind_Ok (slift (Ok _)) _ _ _ _ eq_refl).
      rewrite store_Ok by (change (lenZ [Some Byte.x00]) with 1; lia).
      rewrite (sm_bind_Ok (slift (Ok _)) _ _ _ _ eq_refl). done. }
    split; [done|]. cbn [cache].
    assert (Hd : lenZ ((Some <$> str) ++ [Some Byte.x00]) = lenZ str + 1)
      by (rewrite lenZ_app, lenZ_fmap; done).
    rewrite slice_splice_disjoint by (change (lenZ [Some Byte.x00]) with 1; lia).
    rewrite <- Hd. apply slice_splice_same; [lia|]. change (lenZ (cache context_new)) with 20. lia.
  - destruct (sso_short str ltac:(lia)) as [Hs Hl]. rewrite Hn. change (19 <=? 19) with true.
    rewrite Hs. rewrite (sm_bind_Ok (slift (Ok _)) _ _ _ _ eq_refl).
    rewrite store_Undef; [done|]. right. rewrite Hl. done.
  - rewrite (proj2 (Z.leb_gt (lenZ str) 19)) by lia. eexists _, _. split; [done|].
    split; [done|]. apply lookup_insert_eq.
Qed.

(** ** Concrete strings *)

Definition heap0 : heap := mkheap {[0%nat := replicate 4 (Some Byte.x61)]} 1.
Definition full : Bar := mkBar (Some 0%nat) 4 4.
Definition half : Bar := mkBar (Some 0%nat) 4 2.

Lemma heap0_fresh : fresh_above heap0.
Proof. intros q Hq. cbn in *. apply lookup_singleton_ne. lia. Defined.

Lemma full_owns : owns full heap0 0 (replicate 4 (Some Byte.x61)).
Proof. constructor; try exact heap0_fresh; cbn; try reflexivity; lia. Defined.

Lemma half_owns : owns half heap0 0 (replicate 4 (Some Byte.x61)).
Proof. constructor; try exact heap0_fresh; cbn; try reflexivity; lia. Defined.

Lemma bar_growth_dangles_witness :
  (4 = 4 → (append_char full Byte.x62 heap0).1 = Undef DanglingPointer) ∧
  (4 < 4 + 1 → (append_str full [Some Byte.x62] 1 heap0).1 = Undef DanglingPointer).
Proof.
  apply (bar_growth_dangles full heap0 0 (replicate 4 (Some Byte.x61)) Byte.x62 [Some Byte.x62] 1
           full_owns). lia.
Defined.

Lemma bar_append_misplaces_witness :
  (2 + 1 < 4 →
   ∃ h', append_char half Byte.x62 heap0 = (Ok (mkBar (Some 0%nat) 4 (2 + 1)), h') ∧
         blocks h' !! 0%nat = Some (splice (replicate 4 (Some Byte.x61)) (2 + 1) [Some Byte.x62])) ∧
  (2 + 1 = 4 → (append_char half Byte.x62 heap0).1 = Undef OutOfBounds) ∧
  (∃ h1 h2, append_str half [Some Byte.x62] 1 heap0 = (Ok half, h1) ∧
     append_str half [Some Byte.x63] 1 h1 = (Ok half, h2) ∧
     blocks h1 !! 0%nat = Some (splice (replicate 4 (Some Byte.x61)) 2 [Some Byte.x62]) ∧
     blocks h2 !! 0%nat = Some (splice (replicate 4 (Some Byte.x61)) 2 [Some Byte.x63])).
Proof.
  apply (bar_append_misplaces half heap0 0 (replicate 4 (Some Byte.x61)) Byte.x62
           [Some Byte.x62] [Some Byte.x63] half_owns);
    [reflexivity|reflexivity|vm_compute; discriminate].
Defined.
