(* ===== verification/Inventory.v ===== *)
(** * Inventory: [set/inventory/main.cpp]

    A registry of weak observers.  A [Request] is an object owned by
    [std::shared_ptr]s; the inventory keeps [std::weak_ptr]s to those that
    registered, which can be locked while the object has an owner. *)

From S2P Require Import Prelude.

(** [strong] owners; [alive] until the destructor has run. *)
Record Request : Type := mkRequest { strong : nat; alive : bool }.

(** [requests] are the objects, by identity; [obs_] the weak pointers, in order of
    registration; [out] the objects that printed. *)
Record Inventory : Type := mkInventory {
  requests : gmap nat Request; obs_ : list nat; out : list nat
}.

Abbreviation I := (SM Inventory).

(** [weak_ptr::lock()] succeeds while there is an owner. *)
Definition lockable (s : Inventory) (r : nat) : bool :=
  match requests s !! r with Some q => (0 <? strong q)%nat | None => false end.

(** [std::make_shared<Request>()] *)
Definition make_shared (r : nat) : I unit :=
  smod (λ s, mkInventory (<[r := mkRequest 1 true]> (requests s)) (obs_ s) (out s)).

(** [Inventory::register1] with [weak_from_this()] *)
Definition register1 (r : nat) : I unit :=
  smod (λ s, mkInventory (requests s) (obs_ s ++ [r]) (out s)).

(** [Inventory::remove(request)]: only a weak pointer that can be locked is
    compared. *)
Definition Inventory_remove (r : nat) : I unit :=
  smod (λ s, mkInventory (requests s)
               (List.filter (λ e, negb (lockable s e && (e =? r)%nat)) (obs_ s)) (out s)).

(** [Request::print()] locks a member of the object. *)
Definition print_request (r : nat) : I unit := λ s,
  match requests s !! r with
  | Some q => if alive q then (Ok tt, mkInventory (requests s) (obs_ s) (out s ++ [r]))
              else (Undef DanglingPointer, s)
  | None => (Undef DanglingPointer, s)
  end.

Fixpoint print_each (l : list nat) : I unit :=
  match l with
  | [] => mret tt
  | r :: l =>
      ok ← sget (λ s, lockable s r);
      _ ← (if (ok : bool) then print_request r else mret tt);
      print_each l
  end.

(** [Inventory::printAll()] walks a copy of the list. *)
Definition printAll : I unit := l ← sget obs_; print_each l.

(** [Request::~Request()]: locks a member, then removes itself. *)
Definition Request_destroy (r : nat) : I unit := λ s,
  match requests s !! r with
  | Some q =>
      if alive q then
        (_ ← Inventory_remove r;
         smod (λ s, mkInventory (<[r := mkRequest (strong q) false]> (requests s)) (obs_ s) (out s))) s
      else (Undef DanglingPointer, s)
  | None => (Undef DanglingPointer, s)
  end.

(** The end of a [std::shared_ptr]: the last owner destroys the object. *)
Definition release (r : nat) : I unit := λ s,
  match requests s !! r with
  | Some q =>
      let s' := mkInventory (<[r := mkRequest (strong q - 1) (alive q)]> (requests s))
                            (obs_ s) (out s) in
      if (strong q =? 1)%nat then Request_destroy r s' else (Ok tt, s')
  | None => (Undef DanglingPointer, s)
  end.

(** [main]: the destructor is called explicitly, and runs again when the
    [shared_ptr] goes out of scope; [early] tells whether the other thread prints
    before the explicit call. *)
Definition main (early : bool) : I unit :=
  _ ← make_shared 0;
  _ ← register1 0;
  _ ← (if early then printAll else mret tt);
  _ ← Request_destroy 0;
  _ ← (if early then mret tt else printAll);
  release 0.

(** ** Properties *)

(** Objects that have an owner are alive: what holds as long as destructors only
    run through their owners. *)
Definition owned (s : Inventory) : Prop :=
  ∀ r q, requests s !! r = Some q → (0 < strong q)%nat → alive q = true.

(** The registered objects that still have an owner. *)
Definition live (s : Inventory) : list nat := List.filter (lockable s) (obs_ s).

Lemma print_each_live l s :
  owned s →
  print_each l s = (Ok tt, mkInventory (requests s) (obs_ s) (out s ++ List.filter (lockable s) l)).
Proof.
  revert s. induction l as [|r l IH]; intros s Ho; cbn [print_each List.filter].
  - destruct s. cbn. by rewrite app_nil_r.
  - rewrite (sm_bind_Ok (sget _) _ s (lockable s r) s) by done.
    destruct (lockable s r) eqn:El; [|rewrite (sm_bind_Ok (mret tt) _ s tt s) by done; by apply IH].
    assert (Hp : print_request r s = (Ok tt, mkInventory (requests s) (obs_ s) (out s ++ [r]))).
    { unfold lockable in El. unfold print_request.
      destruct (requests s !! r) as [q|] eqn:Er; [|done].
      apply Nat.ltb_lt in El. by rewrite (Ho r q Er El). }
    rewrite (sm_bind_Ok _ _ _ _ _ Hp), IH by done. cbn [requests obs_ out].
    by rewrite <- app_assoc.
Qed.

(** Observers.  While every object with an owner is alive, [printAll] prints
    exactly the registered objects that still have one, in order of registration,
    and touches no destroyed object; and giving up the last owner destroys the
    object, keeps that invariant, and takes the object out of what [printAll]
    prints. *)
Theorem inventory_prints_live s r :
  owned s → requests s !! r = Some (mkRequest 1 true) →
  printAll s = (Ok tt, mkInventory (requests s) (obs_ s) (out s ++ live s)) ∧
  ∃ s', release r s = (Ok tt, s') ∧ owned s' ∧ r ∉ live s' ∧ obs_ s' = obs_ s.
Proof.
  intros Ho Hr. split; [by apply print_each_live|].
  unfold release. rewrite Hr. cbn [strong alive Nat.eqb Nat.sub]. unfold Request_destroy.
  cbn [requests]. rewrite lookup_insert_eq. cbn [alive strong].
  eexists. split; [reflexivity|]. cbn [requests obs_ out].
  split; [|split].
  - intros r' q' Hq' Hpos. cbn [requests] in Hq'. rewrite insert_insert_eq in Hq'.
    destruct (decide (r = r')) as [<-|Hne].
    + rewrite lookup_insert_eq in Hq'. injection Hq' as <-. cbn in Hpos. lia.
    + rewrite lookup_insert_ne in Hq' by done. by apply (Ho r' q').
  - unfold live. intros Hin%list_elem_of_In. apply filter_In in Hin as [_ Hl].
    unfold lockable in Hl. cbn [requests] in Hl. by rewrite insert_insert_eq, lookup_insert_eq in Hl.
  - apply filter_all_bool. intros e He. unfold lockable. cbn [requests].
    destruct (decide (r = e)) as [<-|Hne].
    + by rewrite lookup_insert_eq.
    + rewrite (proj2 (Nat.eqb_neq e r)) by done. by rewrite andb_false_r.
Qed.

(** Finding.  An object that is destroyed by its last owner cannot lock its own
    weak pointer, so [remove] leaves the entry in the list for good (the list only
    grows); and [main], which calls the destructor explicitly, destroys the object
    a second time when its [shared_ptr] ends. *)
Theorem inventory_main_double_destruction early s :
  requests s = ∅ → obs_ s = [] → (main early s).1 = Undef DanglingPointer.
Proof.
  intros Hr Ho. destruct s as [rq ob o]. cbn in Hr, Ho. subst. by destruct early.
Qed.

Definition one_request : Inventory :=
  mkInventory {[7%nat := mkRequest 1 true]} [7%nat; 7%nat] [].

Lemma inventory_prints_live_witness :
  printAll one_request = (Ok tt, mkInventory (requests one_request) [7%nat; 7%nat]
                                             ([] ++ live one_request)) ∧
  ∃ s', release 7 one_request = (Ok tt, s') ∧ owned s' ∧ 7%nat ∉ live s' ∧ obs_ s' = [7%nat; 7%nat].
Proof.
  apply (inventory_prints_live one_request 7); [|reflexivity].
  intros r q Hq _. cbn in Hq. apply lookup_singleton_Some in Hq as [_ <-]. reflexivity.
Defined.

Lemma inventory_main_double_destruction_witness :
  (main false (mkInventory ∅ [] [])).1 = Undef DanglingPointer.
Proof. apply (inventory_main_double_destruction false (mkInventory ∅ [] [])); reflexivity. Defined.
