(* ===== verification/Registry.v ===== *)
(** * Registry: [set/inventory/main.cpp] with its threads and mutexes

    [Inventory] treats the operations of the registry one after the other.  Here they
    are run by any number of threads, at the granularity of the mutexes (the one of the
    inventory and one per request) and of the reference counts: a [std::shared_ptr] that
    goes out of scope may run a destructor, and the destructor takes both mutexes. *)

From S2P Require Import Prelude.

(** ** Statements *)

Inductive instr : Type :=
| LockInv | UnlockInv                     (** [Inventory::mut_] *)
| LockReq (r : nat) | UnlockReq (r : nat) (** [Request::mut_] of [r] *)
| Push (r : nat)                          (** [obs_.emplace_back] *)
| Copy                                    (** [obs = obs_], the end of the scope and the loop *)
| TryPrint (e : nat)                      (** [if (auto r = e.lock(); r) r->print()] *)
| Write (r : nat)                         (** [write(STDOUT_FILENO, ...)] *)
| Erase (r : nat)                         (** [std::erase_if] *)
| EraseFrom (r : nat) (todo kept : list nat)
| Release (r : nat)                       (** the end of a [std::shared_ptr] *)
| Destroyed (r : nat)                     (** the members of [r] are gone *)
| Join (t : nat).

#[global] Instance instr_eq_dec : EqDecision instr.
Proof. solve_decision. Defined.

(** [Request::register1], which calls [Inventory::register1]. *)
Definition register_prog (r : nat) : list instr :=
  [LockReq r; LockInv; Push r; UnlockInv; UnlockReq r].

(** [Inventory::printAll] *)
Definition print_all_prog : list instr := [LockInv; Copy].

(** [r->print()] on a pointer that was locked, and the end of that pointer. *)
Definition print_prog (r : nat) : list instr := [LockReq r; Write r; UnlockReq r; Release r].

(** [Inventory::remove] *)
Definition remove_prog (r : nat) : list instr := [LockInv; Erase r; UnlockInv].

(** [Request::~Request] *)
Definition destructor (r : nat) : list instr :=
  LockReq r :: remove_prog r ++ [UnlockReq r; Destroyed r].

(** ** States *)

(** [strong]: the reference counts; [dead]: the requests whose destructor has run;
    [reentered]: whether a destructor was started by a thread that holds the mutex of the
    inventory; [fault]: the first undefined behaviour. *)
Record reg : Type := mkreg {
  strong : gmap nat nat; dead : gset nat; observers : list nat;
  inv_lock : option nat; req_lock : gmap nat nat;
  threads : list (list instr); printed : list nat;
  reentered : bool; fault : option ub
}.

#[global] Instance ub_eq_dec : EqDecision ub.
Proof. solve_decision. Defined.
#[global] Instance reg_eq_dec : EqDecision reg.
Proof. solve_decision. Defined.

Definition owners (s : reg) (r : nat) : nat := default 0%nat (strong s !! r).

(** Thread [t] goes on with [k]. *)
Definition go (t : nat) (k : list instr) (s : reg) : reg :=
  mkreg (strong s) (dead s) (observers s) (inv_lock s) (req_lock s)
        (<[t := k]> (threads s)) (printed s) (reentered s) (fault s).
Definition set_strong (r n : nat) (s : reg) : reg :=
  mkreg (<[r := n]> (strong s)) (dead s) (observers s) (inv_lock s) (req_lock s)
        (threads s) (printed s) (reentered s) (fault s).
Definition set_observers (l : list nat) (s : reg) : reg :=
  mkreg (strong s) (dead s) l (inv_lock s) (req_lock s)
        (threads s) (printed s) (reentered s) (fault s).
Definition set_inv (o : option nat) (s : reg) : reg :=
  mkreg (strong s) (dead s) (observers s) o (req_lock s)
        (threads s) (printed s) (reentered s) (fault s).
Definition set_req (m : gmap nat nat) (s : reg) : reg :=
  mkreg (strong s) (dead s) (observers s) (inv_lock s) m
        (threads s) (printed s) (reentered s) (fault s).
Definition set_dead (d : gset nat) (s : reg) : reg :=
  mkreg (strong s) d (observers s) (inv_lock s) (req_lock s)
        (threads s) (printed s) (reentered s) (fault s).
Definition set_reentered (b : bool) (s : reg) : reg :=
  mkreg (strong s) (dead s) (observers s) (inv_lock s) (req_lock s)
        (threads s) (printed s) b (fault s).
Definition say_request (r : nat) (s : reg) : reg :=
  mkreg (strong s) (dead s) (observers s) (inv_lock s) (req_lock s)
        (threads s) (printed s ++ [r]) (reentered s) (fault s).
Definition faulted (u : ub) (s : reg) : reg :=
  mkreg (strong s) (dead s) (observers s) (inv_lock s) (req_lock s)
        (threads s) (printed s) (reentered s) (Some u).

(** ** Steps *)

(** Locking a mutex held by [o]: free, held by the thread itself, or by another one, in
    which case the thread waits. *)
Definition acquire (t : nat) (o : option nat) (taken s : reg) : option reg :=
  match o with
  | None => Some taken
  | Some o => if (o =? t)%nat then Some (faulted LockAlreadyHeld s) else None
  end.

(** One statement [i] of thread [t], with [k] behind it; [None]: the thread has to
    wait. *)
Definition exec_instr (t : nat) (i : instr) (k : list instr) (s : reg) : option reg :=
  match i with
  | LockInv => acquire t (inv_lock s) (go t k (set_inv (Some t) s)) s
  | UnlockInv => Some (go t k (set_inv None s))
  | LockReq r =>
      if bool_decide (r ∈ dead s) then Some (faulted DanglingPointer s)
      else acquire t (req_lock s !! r) (go t k (set_req (<[r := t]> (req_lock s)) s)) s
  | UnlockReq r =>
      if bool_decide (r ∈ dead s) then Some (faulted DanglingPointer s)
      else Some (go t k (set_req (delete r (req_lock s)) s))
  | Push r => Some (go t k (set_observers (observers s ++ [r]) s))
  | Copy => Some (go t (UnlockInv :: (TryPrint <$> observers s) ++ k) s)
  | TryPrint e =>
      if (0 <? owners s e)%nat
      then Some (go t (print_prog e ++ k) (set_strong e (S (owners s e)) s))
      else Some (go t k s)
  | Write r => Some (go t k (say_request r s))
  | Erase r => Some (go t (EraseFrom r (observers s) [] :: k) s)
  | EraseFrom r [] kept => Some (go t k (set_observers kept s))
  | EraseFrom r (e :: todo) kept =>
      if (0 <? owners s e)%nat
      then Some (go t (Release e :: EraseFrom r todo (if (e =? r)%nat then kept else kept ++ [e]) :: k)
                      (set_strong e (S (owners s e)) s))
      else Some (go t (EraseFrom r todo (kept ++ [e]) :: k) s)
  | Release r =>
      match owners s r with
      | O => Some (faulted DanglingPointer s)
      | S O => Some (go t (destructor r ++ k)
                      (set_reentered (reentered s || bool_decide (inv_lock s = Some t))
                        (set_strong r 0 s)))
      | S n => Some (go t k (set_strong r n s))
      end
  | Destroyed r => Some (go t k (set_dead ({[r]} ∪ dead s) s))
  | Join u => match threads s !! u with
              | Some [] | None => Some (go t k s)
              | _ => None
              end
  end.

Definition istep (t : nat) (s : reg) : option reg :=
  match fault s, threads s !! t with
  | None, Some (i :: k) => exec_instr t i k s
  | _, _ => None
  end.

Definition rstep (s s' : reg) : Prop := ∃ t, istep t s = Some s'.
Definition rreachable (s s' : reg) : Prop := rtc rstep s s'.

Definition finished (s : reg) : Prop := Forall (λ k, k = []) (threads s).

(** ** The client programs

    A client owns the requests it will release: it registers those, prints and lets go. *)
Inductive action : Type := ARegister (r : nat) | APrintAll | ARelease (r : nat).
Definition action_prog (a : action) : list instr :=
  match a with
  | ARegister r => register_prog r
  | APrintAll => print_all_prog
  | ARelease r => [Release r]
  end.
Definition client_prog (l : list action) : list instr := l ≫= action_prog.

(** A request is registered by a thread that still holds a pointer to it. *)
Fixpoint holds_while_used (l : list action) : Prop :=
  match l with
  | [] => True
  | ARegister r :: l => ARelease r ∈ l ∧ holds_while_used l
  | _ :: l => holds_while_used l
  end.

Definition is_release (r : nat) (k : list instr) : nat := length (filter (λ i, i = Release r) k).
Definition is_destroyed (r : nat) (k : list instr) : nat := length (filter (λ i, i = Destroyed r) k).

(** The start: every pointer is owned by the thread that will release it. *)
Definition start_of (ps : list (list action)) : reg :=
  let ks := client_prog <$> ps in
  let rs := concat ps ≫= λ a, match a with ARelease r => [r] | _ => [] end in
  mkreg (list_to_map ((λ r, (r, sum_list_with (is_release r) ks)) <$> rs)) ∅ [] None ∅ ks [] false None.

(** [main] from the start of its thread on: the request 0 is registered and owned by
    [e]; the destructor is called by hand. *)
Definition registry_main : reg :=
  mkreg {[0%nat := 1%nat]} ∅ [0%nat] None ∅
        [destructor 0 ++ [Join 1; Release 0]; print_all_prog] [] false None.

(** ** No request is touched after its destructor

    The reference count of a request is the number of pointers the threads have still to
    let go; a statement that touches a request is followed, in its own thread, by the end
    of a pointer to it, or is part of its destructor. *)

Definition needs (i : instr) : option nat :=
  match i with LockReq r | UnlockReq r | Push r | Write r => Some r | _ => None end.

Fixpoint scoped (k : list instr) : Prop :=
  match k with
  | [] => True
  | i :: k =>
      match needs i with Some r => Release r ∈ k ∨ Destroyed r ∈ k | None => True end ∧ scoped k
  end.

(** 1 when the destructor of [r] is over. *)
Definition gone (r : nat) (d : gset nat) : nat := if decide (r ∈ d) then 1 else 0.

(** Destructors of [r] that have started. *)
Definition doomed (r : nat) (d : gset nat) (th : list (list instr)) : nat :=
  (sum_list_with (is_destroyed r) th + gone r d)%nat.

Record safe (o : nat → nat) (d : gset nat) (th : list (list instr)) : Prop := {
  sf_count r : o r = sum_list_with (is_release r) th;
  sf_gone r : (0 < doomed r d th)%nat → o r = 0%nat;
  sf_once r : (doomed r d th ≤ 1)%nat;
  sf_scoped t k : th !! t = Some k → scoped k
}.

Lemma is_release_cons r i k :
  is_release r (i :: k) = ((if decide (i = Release r) then 1 else 0) + is_release r k)%nat.
Proof. unfold is_release. rewrite filter_cons. by case_decide. Qed.
Lemma is_destroyed_cons r i k :
  is_destroyed r (i :: k) = ((if decide (i = Destroyed r) then 1 else 0) + is_destroyed r k)%nat.
Proof. unfold is_destroyed. rewrite filter_cons. by case_decide. Qed.
Lemma is_release_prints r l k : is_release r ((TryPrint <$> l) ++ k) = is_release r k.
Proof. induction l as [|e l IH]; [done|]. cbn [fmap list_fmap app]. rewrite is_release_cons, decide_False by done. exact IH. Qed.
Lemma is_destroyed_prints r l k : is_destroyed r ((TryPrint <$> l) ++ k) = is_destroyed r k.
Proof. induction l as [|e l IH]; [done|]. cbn [fmap list_fmap app]. rewrite is_destroyed_cons, decide_False by done. exact IH. Qed.
Lemma scoped_prints l k : scoped k → scoped ((TryPrint <$> l) ++ k).
Proof. intros H. by induction l as [|e l IH]. Qed.

Lemma elem_release r k : Release r ∈ k → (0 < is_release r k)%nat.
Proof.
  induction k as [|i k IH]; [by intros ?%elem_of_nil|].
  intros [<-|Hin]%elem_of_cons; rewrite is_release_cons; [rewrite decide_True by done; lia|].
  specialize (IH Hin). lia.
Qed.
Lemma elem_destroyed r k : Destroyed r ∈ k → (0 < is_destroyed r k)%nat.
Proof.
  induction k as [|i k IH]; [by intros ?%elem_of_nil|].
  intros [<-|Hin]%elem_of_cons; rewrite is_destroyed_cons; [rewrite decide_True by done; lia|].
  specialize (IH Hin). lia.
Qed.

Lemma sum_at {A} (f : A → nat) (l : list A) i x : l !! i = Some x → (f x ≤ sum_list_with f l)%nat.
Proof.
  revert i. induction l as [|y l IH]; intros [|i] H; try done; rewrite sum_cons.
  - injection H as ->. lia.
  - specialize (IH i H). lia.
Qed.

(** What a thread is about to touch is alive. *)
Lemma safe_alive o d th t i k r :
  safe o d th → th !! t = Some (i :: k) → needs i = Some r → r ∉ d.
Proof.
  intros Hs Ht Hi Hd. pose proof (sf_scoped _ _ _ Hs t _ Ht) as [Hn _]. rewrite Hi in Hn.
  pose proof (sf_gone _ _ _ Hs r) as Hg. pose proof (sf_once _ _ _ Hs r) as Ho.
  pose proof (sf_count _ _ _ Hs r) as Hc. unfold doomed, gone in *. rewrite decide_True in * by done.
  destruct Hn as [Hn%elem_release|Hn%elem_destroyed].
  - pose proof (sum_at (is_release r) th t _ Ht) as Hle. rewrite is_release_cons in Hle. lia.
  - pose proof (sum_at (is_destroyed r) th t _ Ht) as Hle. rewrite is_destroyed_cons in Hle. lia.
Qed.

(** A step that changes the counts, the dead and one thread accordingly. *)
Lemma safe_update o d th o' d' t k k' :
  safe o d th → th !! t = Some k → scoped k' →
  (∀ r, o' r + is_release r k = o r + is_release r k')%nat →
  (∀ r, ((is_destroyed r k' + gone r d' = is_destroyed r k + gone r d)%nat ∧ (o r = 0%nat → o' r = 0%nat)) ∨
        ((is_destroyed r k' + gone r d' = S (is_destroyed r k + gone r d))%nat ∧ o r = 1%nat ∧ o' r = 0%nat)) →
  safe o' d' (<[t := k']> th).
Proof.
  intros Hs Ht Hk' Hc Hd. split.
  - intros r. pose proof (sum_insert (is_release r) th t k k' Ht). pose proof (sf_count _ _ _ Hs r).
    specialize (Hc r). lia.
  - intros r Hp. pose proof (sum_insert (is_destroyed r) th t k k' Ht) as E.
    pose proof (sf_gone _ _ _ Hs r) as Hg. unfold doomed in *.
    destruct (Hd r) as [[H1 H2]|(_ & _ & H)]; [|done]. apply H2, Hg. lia.
  - intros r. pose proof (sum_insert (is_destroyed r) th t k k' Ht) as E.
    pose proof (sf_gone _ _ _ Hs r) as Hg. pose proof (sf_once _ _ _ Hs r). unfold doomed in *.
    destruct (Hd r) as [[H1 _]|(H1 & H2 & _)]; [lia|].
    destruct (sum_list_with (is_destroyed r) th + gone r d)%nat eqn:Ed; [lia|]. rewrite Hg in H2 by lia. done.
  - intros u q Hu. destruct (decide (u = t)) as [->|Hne].
    + apply list_lookup_insert_Some in Hu as [(_ & <- & _)|[]]; [done|done].
    + rewrite list_lookup_insert_ne in Hu by done. by apply (sf_scoped _ _ _ Hs u).
Qed.

Definition safe_state (s : reg) : Prop := safe (owners s) (dead s) (threads s).

Lemma owners_set r n s x : owners (set_strong r n s) x = if decide (r = x) then n else owners s x.
Proof.
  unfold owners. cbn [strong set_strong].
  case_decide as E; [subst; by rewrite lookup_insert_eq|by rewrite lookup_insert_ne].
Qed.

Lemma gone_add x r d : gone x ({[r]} ∪ d) = if decide (r = x) then 1%nat else gone x d.
Proof. unfold gone. repeat case_decide; set_solver. Qed.

(** [tally] compares what two programs owe. *)
Ltac tally :=
  intros; cbn [app print_prog destructor remove_prog];
  rewrite ?is_release_cons, ?is_destroyed_cons, ?is_release_prints, ?is_destroyed_prints, ?gone_add;
  repeat (case_decide; simplify_eq); try lia.

(** A statement that neither owns nor ends anything, replaced by [k']. *)
Lemma safe_quiet s s' t i k k' :
  safe_state s → threads s !! t = Some (i :: k) → scoped k' →
  owners s' = owners s → dead s' = dead s → threads s' = <[t := k']> (threads s) →
  (∀ r, is_release r (i :: k) = is_release r k') → (∀ r, is_destroyed r (i :: k) = is_destroyed r k') →
  safe_state s'.
Proof.
  intros Hs Ht Hk' Eo Ed Eth Hr Hd. unfold safe_state. rewrite Eo, Ed, Eth.
  apply (safe_update _ _ _ _ _ t (i :: k) k' Hs Ht Hk').
  - intros r. by rewrite Hr.
  - intros r. left. by rewrite Hd.
Qed.

(** One more pointer to [e], which has an owner. *)
Lemma safe_lock s t i k k' e :
  safe_state s → threads s !! t = Some (i :: k) → scoped k' → (0 < owners s e)%nat →
  (∀ r, is_release r k' = ((if decide (e = r) then 1 else 0) + is_release r (i :: k))%nat) →
  (∀ r, is_destroyed r (i :: k) = is_destroyed r k') →
  safe_state (go t k' (set_strong e (S (owners s e)) s)).
Proof.
  intros Hs Ht Hk' He Hr Hd. unfold safe_state.
  apply (safe_update (owners s) (dead s) (threads s) _ _ t (i :: k) k' Hs Ht Hk').
  - intros r. change (owners (go t k' ?s1)) with (owners s1). rewrite owners_set, Hr.
    case_decide; subst; lia.
  - intros r. left. rewrite Hd. split; [done|].
    change (owners (go t k' ?s1)) with (owners s1). rewrite owners_set. case_decide; subst; lia.
Qed.

Lemma scoped_print e k : scoped k → scoped (print_prog e ++ k).
Proof. intros Hk. cbn. split_and!; try done; left; set_solver. Qed.
Lemma scoped_destructor r k : scoped k → scoped (destructor r ++ k).
Proof. intros Hk. cbn. split_and!; try done; right; set_solver. Qed.

(** The end of a pointer: there is one, and its program owes it. *)
Lemma safe_owner s t r k :
  safe_state s → threads s !! t = Some (Release r :: k) → (0 < owners s r)%nat.
Proof.
  intros Hs Et. pose proof (sf_count _ _ _ Hs r). pose proof (sum_at (is_release r) _ t _ Et) as Hle.
  rewrite is_release_cons, decide_True in Hle by done. lia.
Qed.

Lemma safe_release_last s t r k b :
  safe_state s → threads s !! t = Some (Release r :: k) → owners s r = 1%nat → scoped k →
  safe_state (go t (destructor r ++ k) (set_reentered b (set_strong r 0 s))).
Proof.
  intros Hs Et Eo Hk.
  apply (safe_update _ _ _ _ _ t _ _ Hs Et (scoped_destructor r k Hk)); intros x;
    change (owners (go t ?k' (set_reentered ?b ?s1))) with (owners s1); rewrite owners_set; [tally|].
  destruct (decide (r = x)) as [<-|Hne]; [right|left].
  - split_and!; [|done|done]. cbn [dead go set_reentered set_strong]. tally.
  - split; [cbn [dead go set_reentered set_strong]; tally|done].
Qed.

Lemma safe_release_shared s t r k n :
  safe_state s → threads s !! t = Some (Release r :: k) → owners s r = S (S n) → scoped k →
  safe_state (go t k (set_strong r (S n) s)).
Proof.
  intros Hs Et Eo Hk. apply (safe_update _ _ _ _ _ t _ _ Hs Et Hk); intros x;
    change (owners (go t k ?s1)) with (owners s1); rewrite owners_set; [tally|].
  left. cbn [dead go set_strong]. split; [tally|]. destruct (decide (r = x)) as [->|]; [by rewrite Eo|done].
Qed.

Lemma safe_destroyed s t r k :
  safe_state s → threads s !! t = Some (Destroyed r :: k) → scoped k →
  safe_state (go t k (set_dead ({[r]} ∪ dead s) s)).
Proof.
  intros Hs Et Hk. apply (safe_update _ _ _ _ _ t _ _ Hs Et Hk); intros x;
    change (owners (go t k (set_dead ?d s))) with (owners s); [tally|].
  left. split; [|done]. cbn [dead go set_dead].
  pose proof (sf_once _ _ _ Hs r) as Ho. unfold doomed in Ho.
  pose proof (sum_at (is_destroyed r) _ t _ Et) as Hle.
  rewrite is_destroyed_cons, decide_True in Hle by done.
  rewrite gone_add, is_destroyed_cons. repeat (case_decide; simplify_eq); lia.
Qed.

Lemma safe_step t s s' :
  safe_state s → istep t s = Some s' → safe_state s' ∧ fault s' ≠ Some DanglingPointer.
Proof.
  intros Hs. unfold istep. destruct (fault s) eqn:Ef; [done|].
  destruct (threads s !! t) as [[|i k]|] eqn:Et; [done| |done].
  assert (∀ r, needs i = Some r → bool_decide (r ∈ dead s) = false) as Halive.
  { intros r Hr. apply bool_decide_false. by eapply safe_alive. }
  pose proof (sf_scoped _ _ _ Hs t _ Et) as [_ Hk].
  assert (∀ o taken, fault taken = None → safe_state taken → acquire t o taken s = Some s' →
            safe_state s' ∧ fault s' ≠ Some DanglingPointer) as Hacq.
  { intros [o|] taken Hf Ht; cbn; [destruct (o =? t)%nat; [|done]|]; intros [= <-]; [by split|].
    split; [done|]. by rewrite Hf. }
  assert (∀ s1 k', fault s1 = None → scoped k' → owners s1 = owners s → dead s1 = dead s →
            threads s1 = <[t := k']> (threads s) →
            (∀ r, is_release r (i :: k) = is_release r k') → (∀ r, is_destroyed r (i :: k) = is_destroyed r k') →
            safe_state s1 ∧ fault s1 ≠ Some DanglingPointer) as Hq.
  { intros s1 k' -> ? ? ? ? ? ?. split; [by eapply safe_quiet|done]. }
  destruct i as [| |r|r|r| |e|r|r|r todo kept|r|r|u]; cbn [exec_instr]; rewrite ?Halive by done.
  - apply Hacq; [done|]. eapply (Hq _ k); [done..|tally|tally].
  - intros [= <-]. apply (Hq _ k); [done..|tally|tally].
  - apply Hacq; [done|]. eapply (Hq _ k); [done..|tally|tally].
  - intros [= <-]. apply (Hq _ k); [done..|tally|tally].
  - intros [= <-]. apply (Hq _ k); [done..|tally|tally].
  - intros [= <-]. apply (Hq _ (UnlockInv :: (TryPrint <$> observers s) ++ k)); try done; [|tally|tally].
    split; [done|by apply scoped_prints].
  - destruct (0 <? owners s e)%nat eqn:Eo; intros [= <-].
    + apply Nat.ltb_lt in Eo. split; [|cbn; by rewrite Ef].
      eapply safe_lock; [done|done|by apply scoped_print|done|tally|tally].
    + apply (Hq _ k); [done..|tally|tally].
  - intros [= <-]. apply (Hq _ k); [done..|tally|tally].
  - intros [= <-]. apply (Hq _ (EraseFrom r (observers s) [] :: k)); [done..|tally|tally].
  - destruct todo as [|e todo]; [|destruct (0 <? owners s e)%nat eqn:Eo]; intros [= <-].
    + apply (Hq _ k); [done..|tally|tally].
    + apply Nat.ltb_lt in Eo. split; [|cbn; by rewrite Ef].
      eapply safe_lock; [done|done|by cbn|done|tally|tally].
    + apply (Hq _ (EraseFrom r todo (kept ++ [e]) :: k)); [done..|tally|tally].
  - pose proof (safe_owner s t r k Hs Et).
    destruct (owners s r) as [|[|n]] eqn:Eo; [lia| |]; intros [= <-]; (split; [|cbn; by rewrite Ef]).
    + by apply safe_release_last.
    + by apply safe_release_shared.
  - intros [= <-]. split; [by apply safe_destroyed|cbn; by rewrite Ef].
  - destruct (threads s !! u) as [[|]|]; [|done|]; intros [= <-];
      (apply (Hq _ k); [done..|tally|tally]).
Qed.

(** ** Where the locks are *)

(** Whether a thread with the rest [k] of its program holds the mutex of the inventory,
    and that of the request [r]. *)
Fixpoint held_inv (k : list instr) : bool :=
  match k with
  | [] | LockInv :: _ => false
  | UnlockInv :: _ | Copy :: _ => true
  | _ :: k => held_inv k
  end.
Fixpoint held_req (r : nat) (k : list instr) : bool :=
  match k with
  | [] => false
  | LockReq x :: k => if (x =? r)%nat then false else held_req r k
  | UnlockReq x :: k => if (x =? r)%nat then true else held_req r k
  | _ :: k => held_req r k
  end.
Definition no_req (k : list instr) : Prop := ∀ r, held_req r k = false.

(** The order of the locks: a request's mutex is taken by a thread that holds none, the
    inventory's second; a pointer ends while no request's mutex is held, or within
    [erase_if]. *)
Fixpoint ordered (k : list instr) : Prop :=
  match k with
  | [] => True
  | i :: k =>
      match i with
      | LockInv | Erase _ | EraseFrom _ _ _ => held_inv k = true
      | UnlockInv => held_inv k = false
      | Copy | TryPrint _ => held_inv k = false ∧ no_req k
      | LockReq r => held_inv k = false ∧ ∀ x, held_req x k = true ↔ x = r
      | UnlockReq r => held_req r k = false
      | Release _ => held_inv k = true ∨ no_req k
      | Join _ => False
      | _ => True
      end ∧ ordered k
  end.

Record locked (s : reg) : Prop := {
  lk_inv t k : threads s !! t = Some k → inv_lock s = Some t ↔ held_inv k = true;
  lk_inv_live t : inv_lock s = Some t → is_Some (threads s !! t);
  lk_req r t k : threads s !! t = Some k → req_lock s !! r = Some t ↔ held_req r k = true;
  lk_req_live r t : req_lock s !! r = Some t → is_Some (threads s !! t);
  lk_order t k : threads s !! t = Some k → ordered k
}.

Lemma locked_update s s' t k k' :
  locked s → threads s !! t = Some k → threads s' = <[t := k']> (threads s) → ordered k' →
  (∀ u, u ≠ t → inv_lock s' = Some u ↔ inv_lock s = Some u) →
  (inv_lock s' = Some t ↔ held_inv k' = true) →
  (∀ r u, u ≠ t → req_lock s' !! r = Some u ↔ req_lock s !! r = Some u) →
  (∀ r, req_lock s' !! r = Some t ↔ held_req r k' = true) →
  locked s'.
Proof.
  intros Hl Ht Eth Ho Hi Hit Hr Hrt.
  assert (∀ u q, threads s' !! u = Some q → (u = t ∧ q = k') ∨ (u ≠ t ∧ threads s !! u = Some q)) as Hth.
  { intros u q Hu. rewrite Eth in Hu. destruct (decide (u = t)) as [->|Hne]; [left|right; split; [done|]].
    - apply list_lookup_insert_Some in Hu as [(_ & <- & _)|[]]; done.
    - by rewrite list_lookup_insert_ne in Hu. }
  assert (∀ u, is_Some (threads s !! u) → is_Some (threads s' !! u)) as Hlive.
  { intros u Hu. apply lookup_lt_is_Some. rewrite Eth, length_insert. by apply lookup_lt_is_Some. }
  split.
  - intros u q [[-> ->]|[Hne Hu]]%Hth; [done|]. rewrite Hi by done. by apply lk_inv.
  - intros u Hu. apply Hlive. destruct (decide (u = t)) as [->|Hne]; [by eexists|].
    apply (lk_inv_live s Hl), Hi; done.
  - intros r u q [[-> ->]|[Hne Hu]]%Hth; [done|]. rewrite Hr by done. by apply lk_req.
  - intros r u Hu. apply Hlive. destruct (decide (u = t)) as [->|Hne]; [by eexists|].
    apply (lk_req_live s Hl r), Hr; done.
  - intros u q [[-> ->]|[Hne Hu]]%Hth; [done|]. by apply (lk_order s Hl u).
Qed.

(** A statement that takes and gives back no lock. *)
Lemma locked_quiet s s' t k k' :
  locked s → threads s !! t = Some k → threads s' = <[t := k']> (threads s) → ordered k' →
  inv_lock s' = inv_lock s → req_lock s' = req_lock s →
  held_inv k' = held_inv k → (∀ r, held_req r k' = held_req r k) → locked s'.
Proof.
  intros Hl Ht Eth Ho Ei Er Hi Hr. apply (locked_update s s' t k k' Hl Ht Eth Ho).
  - by rewrite Ei.
  - rewrite Ei, Hi. by apply lk_inv.
  - by rewrite Er.
  - intros r. rewrite Er, Hr. by apply lk_req.
Qed.

Lemma held_prints l k :
  held_inv ((TryPrint <$> l) ++ k) = held_inv k ∧ ∀ r, held_req r ((TryPrint <$> l) ++ k) = held_req r k.
Proof. by induction l as [|e l [IH1 IH2]]. Qed.

Lemma ordered_prints l k :
  held_inv k = false → no_req k → ordered k → ordered ((TryPrint <$> l) ++ k).
Proof.
  intros Hi Hr Ho. induction l as [|e l IH]; [done|]. cbn [fmap list_fmap app ordered].
  destruct (held_prints l k) as [E1 E2]. split; [split|done]; [by rewrite E1|].
  intros r. by rewrite E2.
Qed.

Lemma ordered_print e k : held_inv k = false → no_req k → ordered k → ordered (print_prog e ++ k).
Proof.
  intros Hi Hr Ho. cbn. split_and!; try done; [|by right].
  intros x. destruct (e =? x)%nat eqn:E; [apply Nat.eqb_eq in E|apply Nat.eqb_neq in E]; [done|].
  rewrite Hr. split; [done|by intros ->].
Qed.

Lemma ordered_destructor r k : held_inv k = false → no_req k → ordered k → ordered (destructor r ++ k).
Proof.
  intros Hi Hr Ho. cbn. split_and!; try done.
  intros x. destruct (r =? x)%nat eqn:E; [apply Nat.eqb_eq in E|apply Nat.eqb_neq in E]; [done|].
  rewrite Hr. split; [done|by intros ->].
Qed.

(** Taking and giving back the two kinds of mutexes. *)
Lemma locked_take_inv s t k :
  locked s → threads s !! t = Some (LockInv :: k) → inv_lock s = None →
  locked (go t k (set_inv (Some t) s)).
Proof.
  intros Hl Ht En. pose proof (lk_order s Hl t _ Ht) as [Hh Ho].
  eapply locked_update; [exact Hl|exact Ht|reflexivity|exact Ho|..]; cbn [inv_lock req_lock go set_inv].
  - intros u Hu. rewrite En. split; congruence.
  - by rewrite Hh.
  - done.
  - intros r. apply (lk_req s Hl r t _ Ht).
Qed.

Lemma locked_drop_inv s t k :
  locked s → threads s !! t = Some (UnlockInv :: k) → locked (go t k (set_inv None s)).
Proof.
  intros Hl Ht. pose proof (lk_order s Hl t _ Ht) as [Hh Ho].
  assert (inv_lock s = Some t) as Ei by (by apply (lk_inv s Hl t _ Ht)).
  eapply locked_update; [exact Hl|exact Ht|reflexivity|exact Ho|..]; cbn [inv_lock req_lock go set_inv].
  - intros u Hu. rewrite Ei. split; congruence.
  - by rewrite Hh.
  - done.
  - intros r. apply (lk_req s Hl r t _ Ht).
Qed.

Lemma locked_take_req s t r k :
  locked s → threads s !! t = Some (LockReq r :: k) → req_lock s !! r = None →
  locked (go t k (set_req (<[r := t]> (req_lock s)) s)).
Proof.
  intros Hl Ht En. pose proof (lk_order s Hl t _ Ht) as [[Hh Hx] Ho].
  eapply locked_update; [exact Hl|exact Ht|reflexivity|exact Ho|..]; cbn [inv_lock req_lock go set_req].
  - done.
  - apply (lk_inv s Hl t _ Ht).
  - intros x u Hu. rewrite lookup_insert_Some. destruct (decide (r = x)) as [<-|Hne]; [|naive_solver].
    rewrite En. naive_solver.
  - intros x. rewrite lookup_insert_Some, Hx. destruct (decide (r = x)) as [<-|Hne]; [naive_solver|].
    pose proof (lk_req s Hl x t _ Ht) as Hq. cbn [held_req] in Hq.
    rewrite (proj2 (Nat.eqb_neq r x)), Hx in Hq by done. naive_solver.
Qed.

Lemma locked_drop_req s t r k :
  locked s → threads s !! t = Some (UnlockReq r :: k) →
  locked (go t k (set_req (delete r (req_lock s)) s)).
Proof.
  intros Hl Ht. pose proof (lk_order s Hl t _ Ht) as [Hh Ho].
  assert (req_lock s !! r = Some t) as Er.
  { apply (lk_req s Hl r t _ Ht). cbn. by rewrite Nat.eqb_refl. }
  eapply locked_update; [exact Hl|exact Ht|reflexivity|exact Ho|..]; cbn [inv_lock req_lock go set_req].
  - done.
  - apply (lk_inv s Hl t _ Ht).
  - intros x u Hu. rewrite lookup_delete_Some. destruct (decide (r = x)) as [<-|Hne]; [|naive_solver].
    rewrite Er. naive_solver.
  - intros x. rewrite lookup_delete_Some. destruct (decide (r = x)) as [<-|Hne]; [rewrite Hh; naive_solver|].
    pose proof (lk_req s Hl x t _ Ht) as Hq. cbn [held_req] in Hq.
    rewrite (proj2 (Nat.eqb_neq r x)) in Hq by done. naive_solver.
Qed.

(** A thread never waits for a mutex of its own. *)
Lemma acquire_other s t o taken s' :
  o ≠ Some t → acquire t o taken s = Some s' → o = None ∧ s' = taken.
Proof.
  intros Ho. destruct o as [o|]; cbn; [|by intros [= <-]].
  destruct (o =? t)%nat eqn:E; [|done]. apply Nat.eqb_eq in E. by subst.
Qed.

Lemma locked_step t s s' :
  safe_state s → locked s → istep t s = Some s' → reentered s' = false →
  locked s' ∧ fault s' = None.
Proof.
  intros Hs Hl. unfold istep. destruct (fault s) eqn:Ef; [done|].
  destruct (threads s !! t) as [[|i k]|] eqn:Et; [done| |done].
  assert (∀ r, needs i = Some r → bool_decide (r ∈ dead s) = false) as Halive.
  { intros r Hr. apply bool_decide_false. by eapply safe_alive. }
  pose proof (lk_order s Hl t _ Et) as [Hi Ho].
  pose proof (lk_inv s Hl t _ Et) as Hinv.
  assert (∀ s1 k', threads s1 = <[t := k']> (threads s) → ordered k' → inv_lock s1 = inv_lock s →
     req_lock s1 = req_lock s → held_inv k' = held_inv (i :: k) →
     (∀ r, held_req r k' = held_req r (i :: k)) → fault s1 = None → locked s1 ∧ fault s1 = None) as Hq.
  { intros. split; [by eapply locked_quiet|done]. }
  destruct i as [| |r|r|r| |e|r|r|r todo kept|r|r|u]; cbn [exec_instr]; rewrite ?Halive by done.
  - intros [En ->]%acquire_other _; [|rewrite Hinv; done]. split; [by apply locked_take_inv|done].
  - intros [= <-] _. split; [by apply locked_drop_inv|done].
  - intros [En ->]%acquire_other _; [split; [by apply locked_take_req|done]|].
    rewrite (lk_req s Hl r t _ Et). cbn. by rewrite Nat.eqb_refl.
  - intros [= <-] _. split; [by apply locked_drop_req|done].
  - intros [= <-] _. by apply (Hq _ k).
  - intros [= <-] _. destruct Hi as [Hi1 Hi2]. destruct (held_prints (observers s) k) as [E1 E2].
    apply (Hq _ (UnlockInv :: (TryPrint <$> observers s) ++ k)); try done.
    split; [by rewrite E1|by apply ordered_prints].
  - destruct Hi as [Hi1 Hi2]. destruct (0 <? owners s e)%nat; intros [= <-] _; [|by apply (Hq _ k)].
    apply (Hq _ (print_prog e ++ k)); try done; [by apply ordered_print|].
    intros x. cbn. destruct (e =? x)%nat; [by rewrite Hi2|done].
  - intros [= <-] _. by apply (Hq _ k).
  - intros [= <-] _. by apply (Hq _ (EraseFrom r (observers s) [] :: k)).
  - destruct todo as [|e todo]; [|destruct (0 <? owners s e)%nat]; intros [= <-] _.
    + by apply (Hq _ k).
    + eapply Hq; try done. cbn. split; [by left|done].
    + by apply (Hq _ (EraseFrom r todo (kept ++ [e]) :: k)).
  - destruct (owners s r) as [|[|n]] eqn:Eo.
    + pose proof (safe_owner s t r k Hs Et). lia.
    + intros [= <-]. cbn [reentered go set_reentered].
      intros [_ Hn%bool_decide_eq_false]%orb_false_iff. cbn [held_inv] in Hinv.
      assert (held_inv k = false) as Hk by (destruct (held_inv k); [naive_solver|done]).
      destruct Hi as [Hi|Hi]; [congruence|].
      apply (Hq _ (destructor r ++ k)); try done; [by apply ordered_destructor|].
      intros x. cbn. destruct (r =? x)%nat; [by rewrite Hi|done].
    + intros [= <-] _. by apply (Hq _ k).
  - intros [= <-] _. by apply (Hq _ k).
  - done.
Qed.

(** ** Progress *)

Definition runs (t : nat) (s : reg) : Prop := is_Some (istep t s).

(** Only a lock can make a thread wait. *)
Lemma runs_head s t i k :
  fault s = None → threads s !! t = Some (i :: k) → ordered (i :: k) →
  match i with
  | LockInv => inv_lock s = None
  | LockReq r => req_lock s !! r = None
  | _ => True
  end → runs t s.
Proof.
  intros Hf Ht [Ho _] Hi. unfold runs, istep. rewrite Hf, Ht.
  destruct i as [| |r|r|r| |e|r|r|r todo kept|r|r|u]; cbn [exec_instr]; try done.
  - rewrite Hi. by eexists.
  - case_bool_decide; [by eexists|]. rewrite Hi. by eexists.
  - case_bool_decide; by eexists.
  - destruct (0 <? owners s e)%nat; by eexists.
  - destruct todo as [|e todo]; [by eexists|]. destruct (0 <? owners s e)%nat; by eexists.
  - destruct (owners s r) as [|[|n]]; by eexists.
Qed.

(** The thread that holds the mutex of the inventory runs. *)
Lemma holder_runs s t : locked s → fault s = None → inv_lock s = Some t → runs t s.
Proof.
  intros Hl Hf Hi. destruct (lk_inv_live s Hl t Hi) as [k Ht].
  pose proof (proj1 (lk_inv s Hl t k Ht) Hi) as Hh. pose proof (lk_order s Hl t k Ht) as Ho.
  destruct k as [|i k]; [done|]. apply (runs_head s t i k Hf Ht Ho).
  destruct i; try done. destruct Ho as [[Hn _] _]. cbn in Hh. congruence.
Qed.

(** When that mutex is free, so does the thread that holds the mutex of a request. *)
Lemma req_holder_runs s r t :
  locked s → fault s = None → inv_lock s = None → req_lock s !! r = Some t → runs t s.
Proof.
  intros Hl Hf Hi Hr. destruct (lk_req_live s Hl r t Hr) as [k Ht].
  pose proof (proj1 (lk_req s Hl r t k Ht) Hr) as Hh. pose proof (lk_order s Hl t k Ht) as Ho.
  destruct k as [|i k]; [done|]. apply (runs_head s t i k Hf Ht Ho).
  destruct i as [| |x| | | | | | | | | |]; try done. exfalso. destruct Ho as [[_ Hx] _]. cbn in Hh.
  destruct (x =? r)%nat eqn:E; [done|]. apply Hx in Hh as ->. by rewrite Nat.eqb_refl in E.
Qed.

Lemma progress s : locked s → fault s = None → ¬ finished s → ∃ t, runs t s.
Proof.
  intros Hl Hf Hn.
  destruct (inv_lock s) as [o|] eqn:Ei; [exists o; by apply holder_runs|].
  assert (∃ t i k, threads s !! t = Some (i :: k)) as (t & i & k & Ht).
  { apply not_Forall_Exists in Hn; [|intros x; apply _]. apply Exists_exists in Hn as ([|i k] & Hin & Hne); [by destruct Hne|].
    apply list_elem_of_lookup in Hin as [t Ht]. by exists t, i, k. }
  pose proof (lk_order s Hl t _ Ht) as Ho.
  destruct i as [| |r| | | | | | | | | |]; try (exists t; by eapply runs_head).
  destruct (req_lock s !! r) as [o|] eqn:Er; [exists o; by eapply req_holder_runs|].
  exists t. by eapply runs_head.
Qed.

(** ** The start *)

Lemma lookup_table {V} (f : nat → V) rs r :
  (list_to_map ((λ r, (r, f r)) <$> rs) : gmap nat V) !! r = if decide (r ∈ rs) then Some (f r) else None.
Proof.
  induction rs as [|x rs IH]; [by rewrite decide_False by apply not_elem_of_nil|].
  cbn [fmap list_fmap list_to_map foldr uncurry curry]. cbn. destruct (decide (x = r)) as [->|Hne].
  - rewrite lookup_insert_eq, decide_True by (by left). done.
  - rewrite lookup_insert_ne by done. etrans; [exact IH|].
    do 2 case_decide; try done; set_solver.
Qed.

Lemma is_release_app r k1 k2 : is_release r (k1 ++ k2) = (is_release r k1 + is_release r k2)%nat.
Proof. unfold is_release. by rewrite filter_app, length_app. Qed.

Lemma client_releases r l : (0 < is_release r (client_prog l))%nat → ARelease r ∈ l.
Proof.
  induction l as [|a l IH]; [cbn; lia|]. cbn [client_prog mbind list_bind].
  rewrite is_release_app. intros H. destruct a as [x| |x]; [right; apply IH; done..|].
  destruct (decide (x = r)) as [->|Hne]; [by left|]. right. apply IH.
  cbn [action_prog] in H. rewrite is_release_cons, decide_False in H by congruence. exact H.
Qed.

Lemma client_destroys r l : is_destroyed r (client_prog l) = 0%nat.
Proof. induction l as [|[x| |x] l IH]; [done|..]; exact IH. Qed.

Lemma client_scoped l : holds_while_used l → scoped (client_prog l).
Proof.
  induction l as [|[x| |x] l IH]; intros H; [done| |cbn; by split_and!; [| |apply IH]|cbn; by split; [|apply IH]].
  destruct H as [Hin H]. specialize (IH H).
  assert (Release x ∈ client_prog l) as Hr.
  { apply list_elem_of_bind. exists (ARelease x). split; [by left|done]. }
  change (client_prog (ARegister x :: l)) with (register_prog x ++ client_prog l). cbn.
  split_and!; try done; left; set_solver.
Qed.

Lemma client_ordered l :
  held_inv (client_prog l) = false ∧ no_req (client_prog l) ∧ ordered (client_prog l).
Proof.
  induction l as [|[x| |x] l (H1 & H2 & H3)]; [done|..].
  - change (client_prog (ARegister x :: l)) with (register_prog x ++ client_prog l). split; [done|]. split.
    + intros r. cbn. destruct (x =? r)%nat; [done|apply H2].
    + cbn. split_and!; try done. intros r. destruct (x =? r)%nat eqn:E.
      * apply Nat.eqb_eq in E. by subst.
      * apply Nat.eqb_neq in E. rewrite H2. split; [done|by intros ->].
  - split; [done|]. split; [exact H2|]. cbn. by split_and!.
  - split; [exact H1|]. split; [exact H2|]. split; [by right|done].
Qed.

Lemma start_safe ps : Forall holds_while_used ps → safe_state (start_of ps).
Proof.
  intros Hp. unfold safe_state, start_of. cbn [dead threads].
  assert (∀ r, sum_list_with (is_destroyed r) (client_prog <$> ps) = 0%nat) as Hd.
  { intros r. induction ps as [|p ps IH]; [done|]. rewrite fmap_cons, sum_cons, client_destroys, IH; [done|].
    by apply Forall_cons in Hp as [_ Hp]. }
  split.
  - intros r. unfold owners. cbn [strong].
    rewrite (lookup_table (λ r, sum_list_with (is_release r) (client_prog <$> ps))).
    case_decide as Hin; [done|]. cbn. destruct (sum_list_with _ _) eqn:E; [done|]. exfalso. apply Hin. clear -E.
    revert n E. induction ps as [|p ps IH]; intros n E; [done|].
    rewrite fmap_cons, sum_cons in E. cbn [concat]. rewrite bind_app, elem_of_app.
    destruct (is_release r (client_prog p)) eqn:Ep; [right; by eapply (IH n)|left].
    apply list_elem_of_bind. exists (ARelease r). split; [by left|]. apply client_releases. lia.
  - intros r. unfold doomed, gone. rewrite Hd, decide_False by set_solver. lia.
  - intros r. unfold doomed, gone. rewrite Hd, decide_False by set_solver. lia.
  - intros t k Ht. apply list_lookup_fmap_Some in Ht as (l & -> & Hl). apply client_scoped.
    by eapply Forall_lookup_1.
Qed.

Lemma start_locked ps : locked (start_of ps).
Proof.
  assert (∀ t k, threads (start_of ps) !! t = Some k →
            held_inv k = false ∧ no_req k ∧ ordered k) as H.
  { intros t k Ht. apply list_lookup_fmap_Some in Ht as (l & -> & _). apply client_ordered. }
  split; try done.
  - intros t k (-> & _ & _)%H. done.
  - intros r t k (_ & Hn & _)%H. cbn [req_lock start_of]. by rewrite Hn, lookup_empty.
  - intros t k (_ & _ & Ho)%H. done.
Qed.

(** ** Termination *)

Section Bounded.
Context (N : nat).   (** registrations at most *)

Definition weight (i : instr) : nat :=
  match i with
  | Copy => 2 + 5 * N
  | TryPrint _ => 5
  | Erase _ => 2 + 2 * N
  | EraseFrom _ todo _ => 1 + 2 * length todo
  | _ => 1
  end.
Definition work (k : list instr) : nat := sum_list_with weight k.

(** Requests that have an owner. *)
Definition alive (m : gmap nat nat) : nat := size (filter (λ p, p.2 ≠ 0%nat) m).

Definition measure (s : reg) : nat :=
  (sum_list_with work (threads s) + alive (strong s) * (7 + 2 * N)
   + match fault s with Some _ => 0 | None => 1 end)%nat.

Definition is_push (k : list instr) : nat :=
  length (filter (λ i, match i with Push _ => true | _ => false end = true) k).
Definition pushes (s : reg) : nat := sum_list_with is_push (threads s).

(** What an [erase_if] under way will leave behind. *)
Definition rest_of (i : instr) : nat :=
  match i with EraseFrom _ todo kept => length todo + length kept | _ => 0 end.

Record bounded (s : reg) : Prop := {
  bd_now : (length (observers s) + pushes s ≤ N)%nat;
  bd_later t k i : threads s !! t = Some k → i ∈ k → (rest_of i + pushes s ≤ N)%nat
}.

Lemma is_push_cons i k :
  is_push (i :: k) = ((if decide (match i with Push _ => true | _ => false end = true) then 1 else 0)
                      + is_push k)%nat.
Proof. unfold is_push. rewrite filter_cons. by case_decide. Qed.
Lemma is_push_prints l k : is_push ((TryPrint <$> l) ++ k) = is_push k.
Proof. induction l as [|e l IH]; [done|]. cbn [fmap list_fmap app]. rewrite is_push_cons, decide_False by done. exact IH. Qed.
Lemma work_app k1 k2 : work (k1 ++ k2) = (work k1 + work k2)%nat.
Proof. unfold work. induction k1 as [|i k1 IH]; [done|]. cbn [app]. rewrite !sum_cons, IH. lia. Qed.
Lemma work_prints l : work (TryPrint <$> l) = (5 * length l)%nat.
Proof. induction l as [|e l IH]; [done|]. unfold work in *. rewrite fmap_cons, sum_cons, IH. cbn. lia. Qed.

Lemma alive_more m r n n' :
  m !! r = Some (S n) → alive (<[r := S n']> m) = alive m.
Proof.
  intros H. unfold alive. rewrite map_filter_insert, decide_True by done.
  rewrite map_size_insert_Some; [done|]. exists (S n). by apply map_lookup_filter_Some.
Qed.
Lemma alive_less m r n :
  m !! r = Some (S n) → (alive m = S (alive (<[r := 0%nat]> m)))%nat.
Proof.
  intros H. unfold alive. rewrite map_filter_insert, decide_False by (intros E; by apply E).
  rewrite map_filter_delete, map_size_delete_Some by (exists (S n); by apply map_lookup_filter_Some).
  assert (size (filter (λ p : nat * nat, p.2 ≠ 0%nat) m) ≠ 0%nat); [|lia].
  apply map_size_non_empty_iff. intros E. assert (filter (λ p : nat * nat, p.2 ≠ 0%nat) m !! r = Some (S n)) as E2
    by (by apply map_lookup_filter_Some). rewrite E in E2. done.
Qed.
Lemma owners_some s r n : owners s r = S n → strong s !! r = Some (S n).
Proof. unfold owners. destruct (strong s !! r); [by cbn; intros ->|done]. Qed.

(** What a statement [i] of thread [t] that goes on with [k'] does to the measure. *)
Record moves (s s' : reg) (t : nat) (i : instr) (k k' : list instr) : Prop := {
  mv_threads : threads s' = <[t := k']> (threads s);
  mv_fault : fault s' = None;
  mv_work : (work k' + alive (strong s') * (7 + 2 * N)
             < work (i :: k) + alive (strong s) * (7 + 2 * N))%nat;
  mv_push : (is_push k' ≤ is_push (i :: k))%nat;
  mv_obs : (length (observers s') + is_push k' ≤ length (observers s) + is_push (i :: k))%nat ∨
           length (observers s') = rest_of i;
  mv_new j : j ∈ k' → j ∈ k ∨ rest_of j = 0%nat ∨ (rest_of j ≤ rest_of i)%nat ∨
                      rest_of j = length (observers s)
}.

(** [count_work] evaluates the weights of the head of a program. *)
Ltac count_work :=
  cbn [observers strong go set_strong set_observers set_inv set_req set_dead set_reentered say_request
       app print_prog destructor remove_prog];
  rewrite ?is_push_cons, ?is_push_prints, ?length_app;
  unfold work; rewrite ?sum_cons; cbn [weight length];
  repeat (rewrite decide_False by done); repeat (rewrite decide_True by done); try lia.

Ltac settle := try done; try (by left); try solve [count_work | left; count_work].

(** A step that faults, or goes on with less to do. *)
Definition advances (s s' : reg) (t : nat) (i : instr) (k : list instr) : Prop :=
  (∃ u, s' = faulted u s) ∨ ∃ k', moves s s' t i k k'.

Lemma advances_intro s t i k s1 k' :
  threads s1 = <[t := k']> (threads s) → fault s1 = None →
  (work k' + alive (strong s1) * (7 + 2 * N) < work (i :: k) + alive (strong s) * (7 + 2 * N))%nat →
  (is_push k' ≤ is_push (i :: k))%nat →
  (length (observers s1) + is_push k' ≤ length (observers s) + is_push (i :: k))%nat ∨
    length (observers s1) = rest_of i →
  (∀ j, j ∈ k' → j ∈ k ∨ rest_of j = 0%nat ∨ (rest_of j ≤ rest_of i)%nat ∨ rest_of j = length (observers s)) →
  advances s s1 t i k.
Proof. intros H1 H2 H3 H4 H5 H6. right. exists k'. by split. Qed.

Lemma advances_acquire s t i k s' taken o :
  advances s taken t i k → acquire t o taken s = Some s' → advances s s' t i k.
Proof.
  intros H. destruct o as [o|]; cbn; [destruct (o =? t)%nat; [|done]|]; intros [= <-]; [by left; eexists|done].
Qed.

Lemma erase_advances s s' t r todo kept k :
  fault s = None → exec_instr t (EraseFrom r todo kept) k s = Some s' →
  advances s s' t (EraseFrom r todo kept) k.
Proof.
  intros Hf. pose proof (advances_intro s t (EraseFrom r todo kept) k) as Hm. cbn [exec_instr].
  destruct todo as [|e todo]; [|destruct (0 <? owners s e)%nat eqn:Eo]; intros [= <-].
  - apply (Hm _ k); settle. by right.
  - apply Nat.ltb_lt in Eo. destruct (owners s e) as [|n] eqn:En; [lia|].
      eapply Hm; [reflexivity|settle..].
    + cbn [strong go set_strong]. rewrite (alive_more _ _ n) by (by apply owners_some). count_work.
    + intros j [->|[->|Hj]%elem_of_cons]%elem_of_cons; [by right; left| |by left].
      right; right; left. cbn. destruct (e =? r)%nat; rewrite ?length_app; cbn; lia.
  - eapply Hm; [reflexivity|settle..].
      intros j [->|Hj]%elem_of_cons; [|by left]. right; right; left. cbn. rewrite length_app. cbn. lia.
Qed.

Lemma release_advances s s' t r k :
  fault s = None → exec_instr t (Release r) k s = Some s' → advances s s' t (Release r) k.
Proof.
  intros Hf. pose proof (advances_intro s t (Release r) k) as Hm. cbn [exec_instr].
  destruct (owners s r) as [|[|n]] eqn:Eo; intros [= <-]; [by left; eexists| |].
  - eapply Hm; [reflexivity|settle..].
    + cbn [strong go set_strong set_reentered].
      rewrite (alive_less (strong s) r 0) by (by apply owners_some). count_work.
    + intros j. cbn. rewrite !elem_of_cons. naive_solver.
  - apply (Hm _ k); settle.
      cbn [strong go set_strong]. rewrite (alive_more _ _ (S n)) by (by apply owners_some). count_work.
Qed.

Lemma exec_moves s s' t i k :
  fault s = None → (length (observers s) ≤ N)%nat →
  exec_instr t i k s = Some s' → advances s s' t i k.
Proof.
  intros Hf Hn. pose proof (advances_intro s t i k) as Hm. pose proof (advances_acquire s t i k s') as Hacq.
  destruct i as [| |r|r|r| |e|r|r|r todo kept|r|r|u]; cbn [exec_instr].
  - apply Hacq. apply (Hm _ k); settle.
  - intros [= <-]. apply (Hm _ k); settle.
  - case_bool_decide; [intros [= <-]; by left; eexists|].
    apply Hacq. apply (Hm _ k); settle.
  - case_bool_decide; [intros [= <-]; by left; eexists|].
    intros [= <-]. apply (Hm _ k); settle.
  - intros [= <-]. apply (Hm _ k); settle.
  - intros [= <-]. apply (Hm _ (UnlockInv :: (TryPrint <$> observers s) ++ k)); settle.
    + count_work. fold (work ((TryPrint <$> observers s) ++ k)). rewrite work_app, work_prints.
      fold (work k). lia.
    + intros j [->|[(e & -> & _)%list_elem_of_fmap|Hj]%elem_of_app]%elem_of_cons; [by right; left..|by left].
  - destruct (0 <? owners s e)%nat eqn:Eo; intros [= <-].
    + apply Nat.ltb_lt in Eo. destruct (owners s e) as [|n] eqn:En; [lia|].
      apply (Hm _ (print_prog e ++ k)); settle.
      * cbn [strong go set_strong]. rewrite (alive_more _ _ n) by (by apply owners_some). count_work.
      * intros j. cbn. rewrite !elem_of_cons. naive_solver.
    + apply (Hm _ k); settle.
  - intros [= <-]. apply (Hm _ k); settle.
  - intros [= <-]. apply (Hm _ (EraseFrom r (observers s) [] :: k)); settle.
    intros j [->|Hj]%elem_of_cons; [|by left]. right; right; right. cbn. lia.
  - by apply erase_advances.
  - by apply release_advances.
  - intros [= <-]. apply (Hm _ k); settle.
  - destruct (threads s !! u) as [[|]|]; [|done|]; intros [= <-];
      (apply (Hm _ k); settle).
Qed.

Lemma bounded_moves s s' t i k k' :
  bounded s → threads s !! t = Some (i :: k) → moves s s' t i k k' → bounded s'.
Proof.
  intros Hb Ht [Eth _ _ Hp Ho Hn].
  pose proof (sum_insert is_push (threads s) t _ k' Ht) as Es. rewrite <- Eth in Es.
  pose proof (bd_now s Hb). pose proof (bd_later s Hb t _ i Ht ltac:(by left)). unfold pushes in *.
  split; unfold pushes.
  - lia.
  - intros u q j Hu Hj. destruct (decide (u = t)) as [->|Hne].
    + rewrite Eth in Hu. apply list_lookup_insert_Some in Hu as [(_ & <- & _)|[]]; [|done].
      destruct (Hn j Hj) as [Hk|Hk]; [|lia].
      pose proof (bd_later s Hb t _ j Ht ltac:(by right)). unfold pushes in *. lia.
    + rewrite Eth, list_lookup_insert_ne in Hu by done.
      pose proof (bd_later s Hb u q j Hu Hj). unfold pushes in *. lia.
Qed.

Lemma bounded_step s s' :
  bounded s → rstep s s' → bounded s' ∧ (measure s' < measure s)%nat.
Proof.
  intros Hb [t H]. unfold istep in H. destruct (fault s) eqn:Ef; [done|].
  destruct (threads s !! t) as [[|i k]|] eqn:Et; [done| |done].
  pose proof (bd_now s Hb) as Hn.
  apply exec_moves in H as [[u ->]|[k' Hm]]; [|by split; [by eapply bounded_moves|]; destruct Hm as [Eth Ef' Hw _ _ _];
    pose proof (sum_insert work (threads s) t _ k' Et); unfold measure; rewrite Eth, Ef, Ef'; lia|done|lia].
  split; [by destruct Hb|]. unfold measure. cbn. rewrite Ef. lia.
Qed.

Lemma bounded_run s s' n : bounded s → nsteps rstep n s s' → (n + measure s' ≤ measure s)%nat.
Proof.
  intros Hb Hr. induction Hr as [s|n s1 s2 s3 Hs Hr IH]; [lia|].
  destruct (bounded_step _ _ Hb Hs) as [Hb2 Hm]. specialize (IH Hb2). lia.
Qed.
End Bounded.

Lemma start_bounded ps : bounded (pushes (start_of ps)) (start_of ps).
Proof.
  split; [done|]. intros t k i Ht Hi.
  apply list_lookup_fmap_Some in Ht as (l & -> & _).
  apply list_elem_of_bind in Hi as (a & Hi & _).
  assert (rest_of i = 0%nat) as ->; [|lia].
  destruct a; cbn in Hi; rewrite ?elem_of_cons in Hi; set_solver.
Qed.

(** ** The theorems *)

Definition full (s : reg) : Prop :=
  safe_state s ∧ fault s ≠ Some DanglingPointer ∧ (reentered s = false → locked s ∧ fault s = None).

Lemma reentered_stays t s s' : istep t s = Some s' → reentered s' = false → reentered s = false.
Proof.
  unfold istep. destruct (fault s); [done|]. destruct (threads s !! t) as [[|i k]|]; [done| |done].
  assert (∀ o taken, reentered taken = reentered s → acquire t o taken s = Some s' →
            reentered s' = false → reentered s = false) as Hacq.
  { intros [o|] taken E; cbn; [destruct (o =? t)%nat; [|done]|]; intros [= <-]; cbn; congruence. }
  destruct i as [| |r|r|r| |e|r|r|r [|e todo] kept|r|r|u]; cbn [exec_instr];
    repeat match goal with
    | |- context [bool_decide (_ ∈ _)] => case_bool_decide
    | |- context [(0 <? ?x)%nat] => destruct (0 <? x)%nat
    | |- context [owners s ?r] => destruct (owners s r) as [|[|?]]
    | |- context [threads s !! ?u] => destruct (threads s !! u) as [[|]|]
    end; try done; try (by apply Hacq); intros [= <-]; cbn; try done.
  by intros [? _]%orb_false_iff.
Qed.

Lemma full_step s s' : full s → rstep s s' → full s'.
Proof.
  intros (Hs & Hf & Hl) [t Ht]. destruct (safe_step t s s' Hs Ht) as [Hs2 Hf2].
  split; [done|]. split; [done|]. intros Hn.
  destruct (Hl (reentered_stays t s s' Ht Hn)) as [Hl1 _]. by apply (locked_step t s s').
Qed.

Lemma full_reachable ps s :
  Forall holds_while_used ps → rreachable (start_of ps) s → full s.
Proof.
  intros Hp Hr. assert (full (start_of ps)) as H0.
  { split; [by apply start_safe|]. split; [done|]. intros _. split; [apply start_locked|done]. }
  clear Hp. revert H0. induction Hr as [|s1 s2 s3 Hs _ IH]; [done|]. intros H. by eapply IH, full_step.
Qed.

(** C17: Lifetimes.  However many threads register, print and let go of requests, and
    however their statements interleave, no thread ever touches a request whose
    destructor has run: not its mutex, and not its reference count.  Side condition
    [holds_while_used]: a thread registers a request only while it holds a pointer to it,
    which it lets go of later ([main], which also calls the destructor itself, is not such
    a client). *)
Theorem registry_no_dangling ps s :
  Forall holds_while_used ps → rreachable (start_of ps) s → fault s ≠ Some DanglingPointer.
Proof. intros Hp Hr. by destruct (full_reachable ps s Hp Hr) as (_ & Hf & _). Qed.

(** C19: Completion.  For threads that register a request only while they
    hold a pointer to it ([holds_while_used]), every run is finite, with a bound that depends on the
    programs alone; and a run that cannot go on has finished all of them without a fault,
    unless a destructor was started inside [remove]. *)
Theorem registry_completes ps :
  Forall holds_while_used ps →
  (∀ n s, nsteps rstep n (start_of ps) s → (n ≤ measure (pushes (start_of ps)) (start_of ps))%nat) ∧
  (∀ s, rreachable (start_of ps) s → reentered s = false → (∀ s', ¬ rstep s s') →
        finished s ∧ fault s = None).
Proof.
  intros Hp. split.
  - intros n s Hr. pose proof (bounded_run _ _ _ _ (start_bounded ps) Hr). lia.
  - intros s Hr Hn Hstuck. destruct (full_reachable ps s Hp Hr) as (_ & _ & Hl).
    destruct (Hl Hn) as [Hlk Hf]. split; [|done].
    destruct (decide (finished s)) as [|Hnf]; [done|]. exfalso.
    destruct (progress s Hlk Hf Hnf) as [t [s' Ht]]. apply (Hstuck s'). by exists t.
Qed.

(** ** Schedules

    A list of thread numbers is run; it stops where a thread has to wait. *)
Fixpoint schedule (ts : list nat) (s : reg) : option reg :=
  match ts with
  | [] => Some s
  | t :: ts => match istep t s with Some s' => schedule ts s' | None => None end
  end.

Lemma schedule_reachable ts s s' : schedule ts s = Some s' → rreachable s s'.
Proof.
  revert s. induction ts as [|t ts IH]; intros s; cbn; [intros [= <-]; apply rtc_refl|].
  destruct (istep t s) as [s1|] eqn:E; [|done]. intros H.
  apply rtc_l with s1; [by exists t|by apply IH].
Qed.

Definition two_clients : list (list action) :=
  [[ARegister 0; APrintAll; ARelease 0]; [ARegister 1; ARelease 1]].

Lemma two_clients_hold : Forall holds_while_used two_clients.
Proof. unfold two_clients. rewrite !Forall_cons, Forall_nil. cbn. set_solver. Qed.

(** Both register, the first prints both, then both let go, one after the other. *)
Definition calm : list nat :=
  replicate 5 0%nat ++ replicate 5 1%nat ++ replicate 24 0%nat ++ replicate 10 1%nat.

Lemma registry_no_dangling_witness :
  ∃ s, schedule calm (start_of two_clients) = Some s ∧ printed s = [0%nat; 1%nat] ∧
       fault s ≠ Some DanglingPointer.
Proof.
  eexists. split; [vm_compute; reflexivity|]. split; [reflexivity|].
  apply (registry_no_dangling two_clients); [apply two_clients_hold|].
  apply (schedule_reachable calm). vm_compute. reflexivity.
Defined.

Lemma no_step_finished s : finished s → ∀ s', ¬ rstep s s'.
Proof.
  intros Hf s' [t H]. unfold istep in H. destruct (fault s); [done|].
  destruct (threads s !! t) as [[|i k]|] eqn:E; [done| |done].
  by pose proof (proj1 (Forall_lookup _ _) Hf t _ E).
Qed.

Lemma registry_completes_witness :
  (∀ n s, nsteps rstep n (start_of two_clients) s → (n ≤ 85)%nat) ∧
  ∃ s, schedule calm (start_of two_clients) = Some s ∧ finished s ∧ fault s = None.
Proof.
  destruct (registry_completes two_clients two_clients_hold) as [Hb Hc]. split.
  - intros n s Hr. specialize (Hb n s Hr). vm_compute in Hb. lia.
  - eexists. split; [vm_compute; reflexivity|].
    apply Hc; [apply (schedule_reachable calm); vm_compute; reflexivity|reflexivity|].
    apply no_step_finished. repeat constructor.
Defined.

(** ** The reentry

    [remove] locks every weak pointer to compare it; when the owner lets go in the
    meantime, the comparison holds the last pointer, and the destructor it starts asks for
    the mutex [remove] holds. *)
Definition two_owners : list (list action) :=
  [[ARegister 0; ARelease 0]; [ARegister 1; ARelease 1]].

Theorem remove_relocks :
  ∃ s, schedule (replicate 5 0 ++ replicate 5 1 ++ replicate 6 0 ++ [1] ++ replicate 3 0)%nat
         (start_of two_owners) = Some s ∧
       reentered s = true ∧ inv_lock s = Some 0%nat ∧ fault s = Some LockAlreadyHeld.
Proof. eexists. split; [vm_compute; reflexivity|]. done. Qed.

(** ** [main]

    Its states are few: a list of them that contains the first and is closed under steps
    contains every reachable one. *)
Definition successors (s : reg) : list reg :=
  omap (λ t, istep t s) (seq 0 (length (threads s))).

Fixpoint explore (fuel : nat) (todo seen : list reg) : list reg :=
  match fuel, todo with
  | S fuel, s :: todo =>
      if bool_decide (s ∈ seen) then explore fuel todo seen
      else explore fuel (successors s ++ todo) (s :: seen)
  | _, _ => seen
  end.

Definition closed (l : list reg) : bool :=
  forallb (λ s, forallb (λ s', bool_decide (s' ∈ l)) (successors s)) l.

Lemma step_successor s s' : rstep s s' → s' ∈ successors s.
Proof.
  intros [t H]. apply list_elem_of_omap. exists t. split; [|done].
  apply elem_of_seq. split; [lia|]. unfold istep in H. destruct (fault s); [done|].
  destruct (threads s !! t) eqn:E; [|done]. apply lookup_lt_Some in E. lia.
Qed.

Lemma closed_reachable l s s' : closed l = true → s ∈ l → rreachable s s' → s' ∈ l.
Proof.
  intros Hc Hs Hr. induction Hr as [|s1 s2 s3 H12 _ IH]; [done|]. apply IH.
  unfold closed in Hc. rewrite forallb_forall in Hc.
  specialize (Hc s1 (proj1 (list_elem_of_In _ _) Hs)). rewrite forallb_forall in Hc.
  specialize (Hc s2 (proj1 (list_elem_of_In _ _) (step_successor _ _ H12))).
  by apply bool_decide_eq_true in Hc.
Qed.

Definition main_states : list reg := explore 400 [registry_main] [].

Lemma main_states_all s : rreachable registry_main s → s ∈ main_states.
Proof.
  apply closed_reachable; [vm_compute; reflexivity|].
  apply (bool_decide_unpack _). vm_compute. exact I.
Qed.

(** Every run of [main] that stops has touched the request after its destructor; the
    printing thread may be the one that does. *)
Theorem registry_main_dangles :
  (∀ s, rreachable registry_main s → (∀ s', ¬ rstep s s') → fault s = Some DanglingPointer) ∧
  ∃ s, schedule ([1; 1; 1] ++ replicate 9 0 ++ [1; 1])%nat registry_main = Some s ∧
       fault s = Some DanglingPointer.
Proof.
  split; [|eexists; split; [vm_compute; reflexivity|done]].
  intros s Hr Hstuck. apply main_states_all in Hr.
  assert (forallb (λ s, match successors s with
                        | [] => bool_decide (fault s = Some DanglingPointer) | _ => true end) main_states = true)
    as Hall by (vm_compute; reflexivity).
  rewrite forallb_forall in Hall. specialize (Hall s (proj1 (list_elem_of_In _ _) Hr)). cbn in Hall.
  destruct (successors s) as [|s1 l] eqn:E; [by apply bool_decide_eq_true in Hall|].
  exfalso. assert (s1 ∈ successors s) as H1 by (rewrite E; by left).
  apply list_elem_of_omap in H1 as (t & _ & H1). apply (Hstuck s1). by exists t.
Qed.
