(* ===== verification/RegistrySpec.v ===== *)
(** * RegistrySpec: the threads of [Registry] against the operations of [Inventory]

    [Inventory] gives each operation of the registry as one function of its state.  Here
    the statements of an operation, run by a thread while no other is inside one, are
    shown to do what that function does. *)

From S2P Require Import Prelude Inventory Registry.

(** The state of [Inventory] behind a state of the threads. *)
Definition abs (s : reg) : Inventory :=
  mkInventory (map_imap (λ r n, Some (mkRequest n (bool_decide (r ∉ dead s)))) (strong s))
              (observers s) (printed s).

Definition atomic_action (a : action) : SM Inventory unit :=
  match a with
  | ARegister r => register1 r
  | APrintAll => printAll
  | ARelease r => release r
  end.

(** A state in which thread [t] is about to run [k], no mutex is held and nothing went
    wrong. *)
Definition calm_at (t : nat) (m : gmap nat nat) (d : gset nat) (ob : list nat) (th : list (list instr))
    (pr : list nat) (k : list instr) : reg :=
  mkreg m d ob None ∅ (<[t := k]> th) pr false None.

(** Thread [t] alone leads from [s] to [s']. *)
Definition solo (t : nat) (s s' : reg) : Prop := rtc (λ s s', istep t s = Some s') s s'.

(** Whether a weak pointer to [e] can be locked. *)
Definition has_owner (m : gmap nat nat) (e : nat) : bool := (0 <? default 0%nat (m !! e))%nat.

Lemma has_owner_some m e : has_owner m e = true → ∃ n, m !! e = Some (S n).
Proof.
  unfold has_owner. intros H%Nat.ltb_lt. destruct (m !! e) as [[|n]|]; cbn in H; [lia| |lia]. by exists n.
Qed.

Section Solo.
Context (t : nat) (th : list (list instr)) (Ht : (t < length th)%nat).

Abbreviation at_ m d ob il rl pr k := (mkreg m d ob il rl (<[t := k]> th) pr false None).

Lemma istep_at m d ob il rl pr i k :
  istep t (at_ m d ob il rl pr (i :: k)) = exec_instr t i k (at_ m d ob il rl pr (i :: k)).
Proof. unfold istep. cbn [fault threads]. by rewrite list_lookup_insert_eq. Qed.

Lemma solo_step s s1 s' : istep t s = Some s1 → solo t s1 s' → solo t s s'.
Proof. intros H1 H2. by apply rtc_l with s1. Qed.

Lemma solo_step_at m d ob il rl pr i k m' d' ob' il' rl' pr' k' s' :
  exec_instr t i k (at_ m d ob il rl pr (i :: k)) =
    Some (mkreg m' d' ob' il' rl' (<[t := k']> (<[t := i :: k]> th)) pr' false None) →
  solo t (at_ m' d' ob' il' rl' pr' k') s' → solo t (at_ m d ob il rl pr (i :: k)) s'.
Proof.
  intros H1 H2. eapply solo_step; [by rewrite istep_at|]. by rewrite list_insert_insert_eq.
Qed.

(** [one] runs the next statement. *)
Ltac one := eapply solo_step_at; [cbn [exec_instr]; try reflexivity|].

Lemma owners_at m d ob il rl pr k e n :
  m !! e = Some n → owners (at_ m d ob il rl pr k) e = n.
Proof. intros H. unfold owners. cbn [strong]. by rewrite H. Qed.

Lemma lock_req_alone m d ob il pr r k s' :
  r ∉ d → solo t (at_ m d ob il {[r := t]} pr k) s' → solo t (at_ m d ob il ∅ pr (LockReq r :: k)) s'.
Proof.
  intros Hd H. one; [|exact H]. cbn [dead]. rewrite bool_decide_false by done. reflexivity.
Qed.
Lemma unlock_req_alone m d ob il pr r k s' :
  r ∉ d → solo t (at_ m d ob il ∅ pr k) s' → solo t (at_ m d ob il {[r := t]} pr (UnlockReq r :: k)) s'.
Proof.
  intros Hd H. one; [cbn [dead]; rewrite bool_decide_false by done; reflexivity|].
  cbn [req_lock]. by rewrite delete_singleton_eq.
Qed.

(** The pointer a locked weak pointer gave is not the last one. *)
Lemma release_shared m d ob il rl pr e n k s' :
  m !! e = Some (S n) →
  solo t (at_ m d ob il rl pr k) s' →
  solo t (at_ (<[e := S (S n)]> m) d ob il rl pr (Release e :: k)) s'.
Proof.
  intros Hm H. one.
  - rewrite (owners_at _ _ _ _ _ _ _ _ (S (S n))) by (by rewrite lookup_insert_eq). reflexivity.
  - cbn. by rewrite insert_insert_eq, insert_id.
Qed.

Lemma has_owner_at m d ob il rl pr k e :
  (0 <? owners (at_ m d ob il rl pr k) e)%nat = has_owner m e.
Proof. done. Qed.

(** The loop of [printAll]. *)
Lemma solo_prints m d ob pr l k s' :
  (∀ e, has_owner m e = true → e ∉ d) →
  solo t (at_ m d ob None ∅ (pr ++ List.filter (has_owner m) l) k) s' →
  solo t (at_ m d ob None ∅ pr ((TryPrint <$> l) ++ k)) s'.
Proof.
  intros Hd. revert pr. induction l as [|e l IH]; intros pr H; cbn [List.filter fmap list_fmap app] in *.
  - by rewrite app_nil_r in H.
  - destruct (has_owner m e) eqn:Eo.
    + destruct (has_owner_some m e Eo) as [n En].
      one; [rewrite has_owner_at, Eo, (owners_at _ _ _ _ _ _ _ _ _ En); reflexivity|]. cbn [strong print_prog app].
      apply lock_req_alone; [by apply Hd|]. one. cbn.
      apply unlock_req_alone; [by apply Hd|]. apply (release_shared _ _ _ _ _ _ _ n); [done|].
      apply IH. by rewrite <- app_assoc.
    + one; [rewrite has_owner_at, Eo; reflexivity|]. by apply IH.
Qed.

(** The loop of [remove]. *)
Lemma solo_erase m d ob il rl pr r todo kept k s' :
  solo t (at_ m d (kept ++ List.filter (λ e, negb (has_owner m e && (e =? r)%nat)) todo) il rl pr k) s' →
  solo t (at_ m d ob il rl pr (EraseFrom r todo kept :: k)) s'.
Proof.
  revert kept. induction todo as [|e todo IH]; intros kept H; cbn [List.filter] in H.
  - one. by rewrite app_nil_r in H.
  - destruct (has_owner m e) eqn:Eo; cbn [andb negb] in H.
    + destruct (has_owner_some m e Eo) as [n En].
      one; [rewrite has_owner_at, Eo, (owners_at _ _ _ _ _ _ _ _ _ En); reflexivity|]. cbn [strong].
      apply (release_shared _ _ _ _ _ _ _ n); [done|]. apply IH.
      destruct (e =? r)%nat; cbn [negb] in H; [done|]. by rewrite <- app_assoc.
    + one; [rewrite has_owner_at, Eo; reflexivity|]. apply IH. by rewrite <- app_assoc.
Qed.

(** The destructor. *)
Lemma solo_destructor m d ob pr r k s' :
  r ∉ d →
  solo t (at_ m ({[r]} ∪ d) (List.filter (λ e, negb (has_owner m e && (e =? r)%nat)) ob) None ∅ pr k) s' →
  solo t (at_ m d ob None ∅ pr (destructor r ++ k)) s'.
Proof.
  intros Hd H. cbn [destructor remove_prog app]. apply lock_req_alone; [done|].
  one. cbn. one. cbn. apply solo_erase. one. cbn. apply unlock_req_alone; [done|]. one. exact H.
Qed.
End Solo.

(** ** The operations *)

Lemma lockable_abs s e : lockable (abs s) e = has_owner (strong s) e.
Proof.
  unfold lockable, has_owner. cbn [requests abs]. rewrite map_lookup_imap. by destruct (strong s !! e).
Qed.

(** No mutex is held, nothing went wrong, and what has an owner is alive. *)
Record quiet (s : reg) : Prop := {
  qt_fault : fault s = None; qt_inv : inv_lock s = None; qt_req : req_lock s = ∅;
  qt_reentered : reentered s = false; qt_owned : owned (abs s)
}.

(** The requests an operation is called on are there. *)
Definition allowed (a : action) (s : reg) : Prop :=
  match a with
  | ARegister r | ARelease r => has_owner (strong s) r = true
  | APrintAll => True
  end.

Lemma owned_alive s : owned (abs s) → ∀ e, has_owner (strong s) e = true → e ∉ dead s.
Proof.
  intros Ho e He. destruct (has_owner_some _ _ He) as [n En].
  specialize (Ho e (mkRequest (S n) (bool_decide (e ∉ dead s)))). cbn [Inventory.strong Inventory.alive] in Ho.
  apply (bool_decide_eq_true_1 _), Ho; [|lia]. cbn. by rewrite map_lookup_imap, En.
Qed.


Lemma imap_release (m : gmap nat nat) (d d' : gset nat) r n :
  (∀ e, e ≠ r → e ∈ d ↔ e ∈ d') →
  map_imap (λ r n, Some (mkRequest n (bool_decide (r ∉ d')))) (<[r := n]> m) =
  <[r := mkRequest n (bool_decide (r ∉ d'))]> (map_imap (λ r n, Some (mkRequest n (bool_decide (r ∉ d)))) m).
Proof.
  intros Hd. apply map_eq. intros e. rewrite map_lookup_imap.
  destruct (decide (r = e)) as [<-|Hne]; [by rewrite !lookup_insert_eq|].
  rewrite !lookup_insert_ne, map_lookup_imap by done. destruct (m !! e); [|done]. cbn. do 2 f_equal.
  apply bool_decide_ext. by rewrite (Hd e).
Qed.

(** A request without an owner is not taken out. *)
Lemma filter_keeps (own : nat → bool) r ob :
  own r = false → List.filter (λ e, negb (own e && (e =? r)%nat)) ob = ob.
Proof.
  intros Hr. apply filter_all_bool. intros e _. destruct (e =? r)%nat eqn:E; [|by rewrite andb_false_r].
  apply Nat.eqb_eq in E as ->. by rewrite Hr.
Qed.

(** [release] of the last pointer and of another one. *)
Lemma release_last t th m d ob pr r k k' :
  r ∉ d → m !! r = Some 1%nat →
  release r (abs (calm_at t m d ob th pr k)) =
    (Ok tt, abs (calm_at t (<[r := 0%nat]> m) ({[r]} ∪ d) ob th pr k')).
Proof.
  intros Hd Hm. unfold release, abs, calm_at. cbn [requests obs_ out strong dead observers printed].
  rewrite map_lookup_imap, Hm, (bool_decide_true (r ∉ d)) by done. cbn [mbind option_bind Inventory.strong Inventory.alive].
  change (1 =? 1)%nat with true. change (1 - 1)%nat with 0%nat. cbv iota. unfold Request_destroy.
  cbn [requests]. rewrite lookup_insert_eq. cbn [Inventory.alive Inventory.strong].
  unfold Inventory_remove, mbind, SM_bind, smod. cbn [requests obs_ out].
  rewrite filter_keeps by (unfold lockable; cbn [requests]; by rewrite lookup_insert_eq).
  rewrite insert_insert_eq, (imap_release m d ({[r]} ∪ d)) by set_solver.
  by rewrite (bool_decide_false (r ∉ {[r]} ∪ d)) by set_solver.
Qed.

Lemma release_other t th m d ob pr r n k k' :
  r ∉ d → m !! r = Some (S (S n)) →
  release r (abs (calm_at t m d ob th pr k)) =
    (Ok tt, abs (calm_at t (<[r := S n]> m) d ob th pr k')).
Proof.
  intros Hd Hm. unfold release, abs, calm_at. cbn [requests obs_ out strong dead observers printed].
  rewrite map_lookup_imap, Hm, (bool_decide_true (r ∉ d)) by done. cbn [mbind option_bind Inventory.strong Inventory.alive].
  change (S (S n) =? 1)%nat with false. change (S (S n) - 1)%nat with (S n). cbv iota.
  by rewrite (imap_release m d d), bool_decide_true by done.
Qed.

(** Each operation, from its first statement to its last. *)
Lemma action_runs t th m d ob pr a k :
  (t < length th)%nat →
  let s := calm_at t m d ob th pr (action_prog a ++ k) in
  owned (abs s) → allowed a s →
  ∃ m' d' ob' pr', solo t s (calm_at t m' d' ob' th pr' k) ∧
    atomic_action a (abs s) = (Ok tt, abs (calm_at t m' d' ob' th pr' k)).
Proof.
  intros Hlt s Ho Ha. pose proof (owned_alive s Ho) as Hd. cbn [strong dead s calm_at] in Hd.
  destruct a as [r| |r]; cbn [allowed strong s calm_at] in Ha.
  - exists m, d, (ob ++ [r]), pr. split; [|done]. subst s. unfold calm_at. cbn [action_prog register_prog app].
    apply lock_req_alone; [done|by apply Hd|].
    do 3 (eapply solo_step_at; [done|cbn [exec_instr]; reflexivity|]; cbn).
    apply unlock_req_alone; [done|by apply Hd|]. apply rtc_refl.
  - exists m, d, ob, (pr ++ List.filter (has_owner m) ob). split.
    + subst s. unfold calm_at. cbn [action_prog print_all_prog app].
      do 3 (eapply solo_step_at; [done|cbn [exec_instr]; reflexivity|]; cbn).
      apply solo_prints; [done|done|]. apply rtc_refl.
    + cbn [atomic_action]. unfold printAll. rewrite (sm_bind_Ok (sget obs_) _ _ _ _ eq_refl), print_each_live by done.
      assert (List.filter (lockable (abs s)) ob = List.filter (has_owner m) ob) as E
        by (apply filter_ext; intros e; apply lockable_abs).
      cbn [obs_ abs observers s calm_at]. fold s. by rewrite E.
  - destruct (has_owner_some m r Ha) as [[|n] En].
    + exists (<[r := 0%nat]> m), ({[r]} ∪ d), ob, pr. split; [|by apply release_last; [apply Hd|]].
      subst s. unfold calm_at. cbn [action_prog app]. eapply solo_step_at; [done| |].
      * cbn [exec_instr]. rewrite (owners_at _ _ _ _ _ _ _ _ _ _ _ En). cbn [reentered inv_lock].
        rewrite (bool_decide_false (None = Some t)) by done. reflexivity.
      * cbn. apply solo_destructor; [done|by apply Hd|]. rewrite filter_keeps; [apply rtc_refl|].
        unfold has_owner. by rewrite lookup_insert_eq.
    + exists (<[r := S n]> m), d, ob, pr. split; [|by apply release_other; [apply Hd|]].
      subst s. unfold calm_at. cbn [action_prog app]. eapply solo_step_at; [done| |].
      * cbn [exec_instr]. rewrite (owners_at _ _ _ _ _ _ _ _ _ _ _ En). reflexivity.
      * cbn. apply rtc_refl.
Qed.

Lemma owned_dead s : (∀ e, has_owner (strong s) e = true → e ∉ dead s) → owned (abs s).
Proof.
  intros H r q Hq Hp. cbn in Hq. rewrite map_lookup_imap in Hq.
  destruct (strong s !! r) as [n|] eqn:E; [|done]. injection Hq as <-. cbn in Hp |- *.
  apply bool_decide_eq_true_2, H. unfold has_owner. rewrite E. by apply Nat.ltb_lt.
Qed.

(** An operation of [Inventory] on what has an owner keeps what has an owner alive. *)
Lemma action_keeps_owned a i i' :
  owned i → atomic_action a i = (Ok tt, i') → owned i'.
Proof.
  intros Ho H. destruct a as [r| |r]; cbn [atomic_action] in H.
  - injection H as <-. exact Ho.
  - unfold printAll in H. rewrite (sm_bind_Ok (sget obs_) _ _ _ _ eq_refl), print_each_live in H by done.
    injection H as <-. exact Ho.
  - unfold release in H. destruct (requests i !! r) as [q|] eqn:Eq; [|done].
    assert (∀ v al, ((0 < v)%nat → al = true) →
      owned (mkInventory (<[r := mkRequest v al]> (requests i)) (obs_ i) (out i))) as Hins.
    { intros v al Hv x qx Hx Hp. cbn in Hx. destruct (decide (r = x)) as [<-|Hne].
      - rewrite lookup_insert_eq in Hx. injection Hx as <-. cbn in *. by apply Hv.
      - rewrite lookup_insert_ne in Hx by done. by apply (Ho x). }
    destruct (Inventory.strong q =? 1)%nat eqn:E1.
    + unfold Request_destroy in H. cbn [requests] in H. rewrite lookup_insert_eq in H.
      cbn [Inventory.alive Inventory.strong] in H. destruct (Inventory.alive q); [|done].
      injection H as <-. apply Nat.eqb_eq in E1. rewrite E1. cbn. rewrite insert_insert_eq.
      intros x qx Hx Hp. apply (Hins 0%nat false ltac:(lia) x qx Hx Hp).
    + injection H as <-. apply Hins. intros Hp. apply (Ho r q Eq). lia.
Qed.

(** One operation: while no other thread is inside one, a thread that runs it to its end
    leaves no mutex held, and has done what the function of [Inventory] does in one
    step. *)
Lemma registry_operation t a k s :
  quiet s → allowed a s → threads s !! t = Some (action_prog a ++ k) →
  ∃ s', rreachable s s' ∧ threads s' = <[t := k]> (threads s) ∧ quiet s' ∧
        atomic_action a (abs s) = (Ok tt, abs s').
Proof.
  intros [Hf Hi Hr Hre Ho] Ha Hk. pose proof (lookup_lt_Some _ _ _ Hk) as Hlt.
  assert (s = calm_at t (strong s) (dead s) (observers s) (threads s) (printed s) (action_prog a ++ k)) as E.
  { destruct s. cbn in *. subst. unfold calm_at. by rewrite list_insert_id. }
  destruct (action_runs t (threads s) (strong s) (dead s) (observers s) (printed s) a k Hlt)
    as (m' & d' & ob' & pr' & H1 & H2); [by rewrite <- E..|]. rewrite <- E in H1, H2.
  exists (calm_at t m' d' ob' (threads s) pr' k). split; [|split; [reflexivity|split; [|exact H2]]].
  - eapply rtc_subrel; [|exact H1]. intros x y H. by exists t.
  - split; try done. by eapply action_keeps_owned.
Qed.

(** ** Operations one after the other *)

(** Thread [t] performs its next operation [a]. *)
Inductive picks : list (nat * action) → list (list action) → list (list action) → Prop :=
| picks_nil ps : picks [] ps ps
| picks_cons t a l rest ps ps' :
    ps !! t = Some (a :: rest) → picks l (<[t := rest]> ps) ps' → picks ((t, a) :: l) ps ps'.

Fixpoint atomic_actions (l : list action) : SM Inventory unit :=
  match l with [] => mret tt | a :: l => _ ← atomic_action a; atomic_actions l end.

(** Every operation finds its request owned. *)
Definition permitted1 (a : action) (i : Inventory) : bool :=
  match a with ARegister r | ARelease r => lockable i r | APrintAll => true end.
Fixpoint permitted (l : list action) (i : Inventory) : bool :=
  match l with
  | [] => true
  | a :: l => permitted1 a i && permitted l (atomic_action a i).2
  end.

Lemma permitted1_allowed a s : permitted1 a (abs s) = true → allowed a s.
Proof. destruct a; cbn [permitted1 allowed]; rewrite ?lockable_abs; done. Qed.

(** C18: Refinement.  Whatever order the threads perform their operations in, one at a
    time, as long as every request that is registered or released still has an owner at
    that moment ([permitted]), the statements of these lead to a state in which no mutex is held, nothing went
    wrong, and the registry is what the functions of [Inventory] make of it in that
    order. *)
Theorem registry_refines_inventory l ps ps' s :
  quiet s → threads s = client_prog <$> ps → picks l ps ps' → permitted l.*2 (abs s) = true →
  ∃ s', rreachable s s' ∧ threads s' = client_prog <$> ps' ∧ quiet s' ∧
        atomic_actions l.*2 (abs s) = (Ok tt, abs s').
Proof.
  intros Hq Hth Hp. revert s Hq Hth.
  induction Hp as [ps|t a l rest ps ps' Ht Hp IH]; intros s Hq Hth Hok.
  - exists s. split_and!; [apply rtc_refl|done..].
  - cbn [fmap list_fmap permitted snd atomic_actions] in *. apply andb_prop in Hok as [Ha Hok].
    destruct (registry_operation t a (client_prog rest) s Hq (permitted1_allowed a s Ha)) as (s1 & R1 & T1 & Q1 & A1).
    { by rewrite Hth, list_lookup_fmap, Ht. }
    rewrite A1 in Hok. destruct (IH s1 Q1) as (s2 & R2 & T2 & Q2 & A2); [|done|].
    { rewrite T1, Hth, list_fmap_insert. done. }
    exists s2. split_and!; [unfold rreachable in *; by etrans|done|done|]. by rewrite (sm_bind_Ok _ _ _ _ _ A1).
Qed.

(** *** Witness *)

Lemma start_quiet ps : quiet (start_of ps).
Proof. split; try done. apply owned_dead. set_solver. Qed.

Lemma registry_refines_inventory_witness :
  ∃ s', rreachable (start_of two_clients) s' ∧ quiet s' ∧ printed s' = [0%nat; 1%nat] ∧ observers s' = [0%nat; 1%nat].
Proof.
  destruct (registry_refines_inventory
    [(0%nat, ARegister 0); (1%nat, ARegister 1); (0%nat, APrintAll); (0%nat, ARelease 0); (1%nat, ARelease 1)]
    two_clients [[]; []] (start_of two_clients) (start_quiet two_clients) eq_refl) as (s' & R & _ & Q & A).
  - do 5 (econstructor; [reflexivity|]). constructor.
  - vm_compute. reflexivity.
  - exists s'. split; [exact R|]. split; [exact Q|].
    apply (f_equal snd) in A. cbn [snd] in A. split; [change (out (abs s') = [0%nat; 1%nat])|change (obs_ (abs s') = [0%nat; 1%nat])];
      rewrite <- A; vm_compute; reflexivity.
Defined.
