(* ===== verification/Loop.v ===== *)
(** * Loop: [set/loop/Loop.h] and [set/loop/Loop.cpp]

    The event loop: two queues of callbacks, a priority queue of timers and an
    I/O handle.  A callback is a name; what it does when called (schedule more
    work, quit, throw) is given by an environment, which also gives the clock
    and what the I/O handle, and other threads while the loop blocks in it, do.

    The priority queue of the standard library is an interface with its laws:
    the theorems hold for every way of ordering equal timestamps. *)

From Stdlib Require Import Sorting.Sorted.
From S2P Require Import Prelude.

Abbreviation task := nat.

(** ** Timers *)

Record timer : Type := mktimer { timestamp : Z; runnable : task }.

#[global] Instance timer_eq_dec : EqDecision timer.
Proof. solve_decision. Defined.

(** [std::priority_queue<timer, std::vector<timer>, std::greater<timer>>] *)
Class TimerQueue (Q : Type) : Type := {
  tq_new : Q;
  tq_push : timer → Q → Q;
  tq_top : Q → option timer;
  tq_pop : Q → Q;
  tq_elems : Q → list timer;
  tq_elems_new : tq_elems tq_new = [];
  tq_elems_push t q : tq_elems (tq_push t q) ≡ₚ t :: tq_elems q;
  tq_top_None q : tq_top q = None → tq_elems q = [];
  tq_top_Some q t :
    tq_top q = Some t →
    tq_elems q ≡ₚ t :: tq_elems (tq_pop q) ∧
    ∀ t', t' ∈ tq_elems q → timestamp t ≤ timestamp t'
}.

(** An instance: a list kept in order. *)
Fixpoint tinsert (t : timer) (l : list timer) : list timer :=
  match l with
  | [] => [t]
  | t' :: l' => if timestamp t <? timestamp t' then t :: l else t' :: tinsert t l'
  end.

Record sorted_timers : Type := mkst {
  st_list : list timer;
  st_sorted : Sorted (λ a b, timestamp a ≤ timestamp b) st_list
}.

Lemma tinsert_elems t l : tinsert t l ≡ₚ t :: l.
Proof.
  induction l as [|t' l IH]; [done|]. cbn [tinsert].
  destruct (timestamp t <? timestamp t'); [done|]. rewrite IH. apply Permutation_swap.
Qed.

Lemma tinsert_sorted t l :
  Sorted (λ a b, timestamp a ≤ timestamp b) l →
  Sorted (λ a b, timestamp a ≤ timestamp b) (tinsert t l).
Proof.
  intros Hs. induction Hs as [|t' l Hs IH Hhd]; cbn [tinsert]; [by repeat constructor|].
  destruct (timestamp t <? timestamp t') eqn:E; zbool.
  - constructor; [by constructor|]. constructor. lia.
  - constructor; [done|].
    destruct Hhd as [|t'' l Ht]; cbn [tinsert]; [by constructor|].
    destruct (timestamp t <? timestamp t''); by constructor.
Qed.

Lemma sorted_tail t l :
  Sorted (λ a b, timestamp a ≤ timestamp b) (t :: l) →
  Sorted (λ a b, timestamp a ≤ timestamp b) l.
Proof. by inversion 1. Qed.

Lemma sorted_head_min t l t' :
  Sorted (λ a b, timestamp a ≤ timestamp b) (t :: l) → t' ∈ t :: l →
  timestamp t ≤ timestamp t'.
Proof.
  intros Hs Hin.
  apply Sorted_StronglySorted in Hs; [|intros a b c; lia].
  inversion Hs as [|? ? _ HF]; subst. apply elem_of_cons in Hin as [->|Hin]; [lia|].
  rewrite Forall_forall in HF. by apply HF.
Qed.

Definition st_pop (q : sorted_timers) : sorted_timers :=
  match q with
  | mkst [] H => mkst [] H
  | mkst (t :: l) H => mkst l (sorted_tail t l H)
  end.

#[global] Program Instance sorted_timers_queue : TimerQueue sorted_timers := {
  tq_new := mkst [] (Sorted_nil _);
  tq_push t q := mkst (tinsert t (st_list q)) (tinsert_sorted t _ (st_sorted q));
  tq_top q := head (st_list q);
  tq_pop := st_pop;
  tq_elems := st_list
}.
Next Obligation. done. Qed.
Next Obligation. intros. apply tinsert_elems. Qed.
Next Obligation. by intros [[|? ?] ?]. Qed.
Next Obligation.
  intros [[|t' l] H] t; [done|]. cbn. intros [= ->]. split; [done|].
  intros t'' Hin. by apply (sorted_head_min t l).
Qed.

(** ** The loop's state *)

Inductive queue_id : Type := idle_q | runable_q.
Inductive mutex_id : Type := idle_mut_ | run_mut_.

#[global] Instance queue_id_eq_dec : EqDecision queue_id.
Proof. solve_decision. Defined.
#[global] Instance mutex_id_eq_dec : EqDecision mutex_id.
Proof. solve_decision. Defined.

(** What an observer sees: an access to a queue and the mutex held for it, a
    callback that starts, a run of the I/O handle and its timeout. *)
Inductive levent : Type :=
| EvAccess (q : queue_id) (m : mutex_id)
| EvRun (t : task)
| EvIo (outtime : Z).

#[global] Instance levent_eq_dec : EqDecision levent.
Proof. solve_decision. Defined.

(** What a callback does to the loop. *)
Inductive cmd : Type :=
| CPushIdle (t : task)
| CPushRunable (t : task)
| CRunAt (ts : Z) (t : task)
| CQuit
| CThrow.

(** [body t] is what callback [t] does; [clock n] is the [n]-th reading of the
    clock, in microseconds; [io n] is what happens during the [n]-th time the
    loop is at its I/O handle. *)
Record env : Type := mkenv { body : task → list cmd; clock : nat → Z; io : nat → list cmd }.

(** [time_locked]: this thread holds [time_mut_].  [outtime] is the
    thread-local of [Loop.cpp].  [ticks] and [polls] count clock readings and
    visits of the I/O handle; [log] is the history. *)
Record Loop (Q : Type) : Type := mkLoop {
  is_quit_ : bool;
  idle_ : list task;
  runable_ : list task;
  timer_ : Q;
  io_handle_ : bool;
  time_locked : bool;
  outtime : Z;
  ticks : nat;
  polls : nat;
  log : list levent
}.
Arguments mkLoop {Q}.
Arguments is_quit_ {Q}.
Arguments idle_ {Q}.
Arguments runable_ {Q}.
Arguments timer_ {Q}.
Arguments io_handle_ {Q}.
Arguments time_locked {Q}.
Arguments outtime {Q}.
Arguments ticks {Q}.
Arguments polls {Q}.
Arguments log {Q}.

Section loop.
Context {Q : Type} `{!TimerQueue Q}.
Implicit Types l : Loop Q.

(** Updates of one field. *)
Definition set_quit (b : bool) l : Loop Q :=
  mkLoop b (idle_ l) (runable_ l) (timer_ l) (io_handle_ l) (time_locked l) (outtime l)
         (ticks l) (polls l) (log l).
Definition queue (q : queue_id) l : list task :=
  match q with idle_q => idle_ l | runable_q => runable_ l end.
Definition set_queue (q : queue_id) (ts : list task) l : Loop Q :=
  mkLoop (is_quit_ l) (match q with idle_q => ts | runable_q => idle_ l end)
         (match q with idle_q => runable_ l | runable_q => ts end)
         (timer_ l) (io_handle_ l) (time_locked l) (outtime l) (ticks l) (polls l) (log l).
Definition set_timer (t : Q) l : Loop Q :=
  mkLoop (is_quit_ l) (idle_ l) (runable_ l) t (io_handle_ l) (time_locked l) (outtime l)
         (ticks l) (polls l) (log l).
Definition set_locked (b : bool) l : Loop Q :=
  mkLoop (is_quit_ l) (idle_ l) (runable_ l) (timer_ l) (io_handle_ l) b (outtime l)
         (ticks l) (polls l) (log l).
Definition set_outtime (t : Z) l : Loop Q :=
  mkLoop (is_quit_ l) (idle_ l) (runable_ l) (timer_ l) (io_handle_ l) (time_locked l) t
         (ticks l) (polls l) (log l).
Definition tick l : Loop Q :=
  mkLoop (is_quit_ l) (idle_ l) (runable_ l) (timer_ l) (io_handle_ l) (time_locked l)
         (outtime l) (S (ticks l)) (polls l) (log l).
Definition poll_done l : Loop Q :=
  mkLoop (is_quit_ l) (idle_ l) (runable_ l) (timer_ l) (io_handle_ l) (time_locked l)
         (outtime l) (ticks l) (S (polls l)) (log l).
Definition emit (e : levent) l : Loop Q :=
  mkLoop (is_quit_ l) (idle_ l) (runable_ l) (timer_ l) (io_handle_ l) (time_locked l)
         (outtime l) (ticks l) (polls l) (log l ++ [e]).

(** ** Construction and the calls any thread may make *)

Definition Loop_new : Loop Q :=
  mkLoop true [] [] tq_new false false 0 0 0 [].

(** [~Loop]: [assert(is_quit_ == true)]. *)
Definition Loop_destroy (l : Loop Q) : outcome unit := cassert (is_quit_ l).

Definition push_runnable (runnables : queue_id) (r : task) (mut : mutex_id)
    : SM (Loop Q) unit :=
  smod (λ l, emit (EvAccess runnables mut)
               (set_queue runnables (queue runnables l ++ [r]) l)).

Definition pushIdle (r : task) : SM (Loop Q) unit := push_runnable runable_q r idle_mut_.
Definition pushRunable (r : task) : SM (Loop Q) unit := push_runnable idle_q r run_mut_.

Definition quit : SM (Loop Q) unit := smod (set_quit true).

Definition runAt (ts : Z) (func : task) : SM (Loop Q) unit :=
  held ← sget time_locked;
  if (held : bool) then slift (Undef LockAlreadyHeld)
  else smod (λ l, set_timer (tq_push (mktimer ts func) (timer_ l)) l).

Definition registerIoHandle : SM (Loop Q) unit :=
  smod (λ l, mkLoop (is_quit_ l) (idle_ l) (runable_ l) (timer_ l) true (time_locked l)
                    (outtime l) (ticks l) (polls l) (log l)).

(** ** Running callbacks *)

Definition exec_cmd (c : cmd) : SM (Loop Q) unit :=
  match c with
  | CPushIdle t => pushIdle t
  | CPushRunable t => pushRunable t
  | CRunAt ts t => runAt ts t
  | CQuit => quit
  | CThrow => slift (Throw user_exception)
  end.

Fixpoint exec_cmds (cs : list cmd) : SM (Loop Q) unit :=
  match cs with
  | [] => mret tt
  | c :: cs => _ ← exec_cmd c; exec_cmds cs
  end.

Context (E : env).

Definition run_task (t : task) : SM (Loop Q) unit :=
  _ ← smod (emit (EvRun t)); exec_cmds (body E t).

Fixpoint for_each (funcs : list task) : SM (Loop Q) unit :=
  match funcs with
  | [] => mret tt
  | t :: funcs => _ ← run_task t; for_each funcs
  end.

(** The queue is swapped out under the lock and run without it. *)
Definition handle_runnable (runnables : queue_id) (mut : mutex_id) : SM (Loop Q) unit :=
  funcs ← sget (queue runnables);
  _ ← smod (λ l, emit (EvAccess runnables mut) (set_queue runnables [] l));
  for_each funcs.

Definition get_current_timestamp : SM (Loop Q) Z :=
  n ← sget ticks; _ ← smod tick; mret (u64 (clock E n)).

Definition get_outtime : SM (Loop Q) Z :=
  t ← get_current_timestamp;
  o ← sget outtime;
  mret (if o <? t then t ⊖ o else 0).

Definition handle_io_source (outtime : Z) : SM (Loop Q) unit :=
  n ← sget polls;
  _ ← smod poll_done;
  has ← sget io_handle_;
  _ ← (if (has : bool) then smod (emit (EvIo outtime)) else mret tt);
  exec_cmds (io E n).

(** The loop of [handle_timer]; returns the last value of [t].  The number of
    timers bounds it: no callback can add one while the mutex is held. *)
Fixpoint timer_loop (fuel : nat) (now t : Z) : SM (Loop Q) Z :=
  match fuel with
  | O => slift NoFuel
  | S fuel =>
      q ← sget timer_;
      match tq_top q with
      | None => mret t
      | Some e =>
          let t := timestamp e in
          if now <? t then mret t
          else
            _ ← run_task (runnable e);
            _ ← smod (λ l, set_timer (tq_pop (timer_ l)) l);
            timer_loop fuel now t
      end
  end.

(** [std::unique_lock] releases [time_mut_] on every way out. *)
Definition handle_timer (now : Z) : SM (Loop Q) unit := λ l,
  let '(o, l') := timer_loop (S (length (tq_elems (timer_ l)))) now (outtime l)
                             (set_locked true l) in
  match o with
  | Ok t => (Ok tt, set_outtime t (set_locked false l'))
  | Throw e => (Throw e, set_locked false l')
  | AssertFail => (AssertFail, l') | Undef u => (Undef u, l')
  | Exit c => (Exit c, l') | NoFuel => (NoFuel, l')
  end.

(** One turn of the loop of [run]. *)
Definition turn : SM (Loop Q) unit :=
  _ ← handle_runnable idle_q idle_mut_;
  o ← get_outtime;
  _ ← handle_io_source o;
  now ← get_current_timestamp;
  _ ← handle_timer now;
  handle_runnable runable_q run_mut_.

Fixpoint run_loop (fuel : nat) : SM (Loop Q) unit :=
  match fuel with
  | O => slift NoFuel
  | S fuel =>
      stop ← sget is_quit_;
      if (stop : bool) then mret tt else _ ← turn; run_loop fuel
  end.

Definition run (fuel : nat) : SM (Loop Q) unit :=
  _ ← smod (set_quit false); run_loop fuel.
End loop.
