(* ===== verification/LoopSpec.v ===== *)
(** * LoopSpec: what the event loop runs, and in which order

    The effect of a callback on the loop, composed along the stages of a turn; the
    theorems on the queues, the timers, quitting and the locks, and
    [set/loop/main.cpp]. *)

From Stdlib Require Import Sorting.Sorted.
From S2P Require Import Prelude Loop.

(** ** Effects of callbacks *)

(** The callbacks an event history ran, in order. *)
Definition ran (e : levent) : option task := match e with EvRun t => Some t | _ => None end.
Definition runs (evs : list levent) : list task := omap ran evs.

Lemma runs_app a b : runs (a ++ b) = runs a ++ runs b.
Proof. apply omap_app. Qed.

(** What a list of commands leaves on each queue and among the timers. *)
Definition push_of (q : queue_id) (c : cmd) : option task :=
  match q, c with
  | idle_q, CPushRunable t => Some t
  | runable_q, CPushIdle t => Some t
  | _, _ => None
  end.
Definition pushed (q : queue_id) (cs : list cmd) : list task := omap (push_of q) cs.

Definition timer_of (c : cmd) : option timer :=
  match c with CRunAt ts t => Some (mktimer ts t) | _ => None end.
Definition scheduled (cs : list cmd) : list timer := omap timer_of cs.

Definition is_quit (c : cmd) : bool := match c with CQuit => true | _ => false end.
Definition quits (cs : list cmd) : bool := existsb is_quit cs.

Lemma pushed_app q a b : pushed q (a ++ b) = pushed q a ++ pushed q b.
Proof. apply omap_app. Qed.
Lemma quits_app a b : quits (a ++ b) = quits a || quits b.
Proof. apply existsb_app. Qed.

(** A command that neither throws nor, when the timer mutex is held, adds a
    timer. *)
Definition allowed (locked : bool) (c : cmd) : bool :=
  match c with CThrow => false | CRunAt _ _ => negb locked | _ => true end.

Section spec.
Context {Q : Type} `{!TimerQueue Q}.
Implicit Types l : Loop Q.

(** [l'] is [l] after the commands [cs], with the callbacks [ts] run. *)
Record after l (cs : list cmd) (ts : list task) l' : Prop := mkafter {
  af_idle : idle_ l' = idle_ l ++ pushed idle_q cs;
  af_runable : runable_ l' = runable_ l ++ pushed runable_q cs;
  af_timer : tq_elems (timer_ l') ≡ₚ scheduled cs ++ tq_elems (timer_ l);
  af_timer_eq : scheduled cs = [] → timer_ l' = timer_ l;
  af_quit : is_quit_ l' = is_quit_ l || quits cs;
  af_locked : time_locked l' = time_locked l;
  af_outtime : outtime l' = outtime l;
  af_ticks : ticks l' = ticks l;
  af_polls : polls l' = polls l;
  af_io : io_handle_ l' = io_handle_ l;
  af_runs : runs (log l') = runs (log l) ++ ts
}.

Lemma after_refl l : after l [] [] l.
Proof. constructor; cbn; rewrite ?app_nil_r, ?orb_false_r; done. Qed.

Lemma after_trans l cs ts l1 cs' ts' l2 :
  after l cs ts l1 → after l1 cs' ts' l2 → after l (cs ++ cs') (ts ++ ts') l2.
Proof.
  intros [] []. unfold pushed, scheduled, quits in *.
  constructor; unfold pushed, scheduled, quits; rewrite ?omap_app, ?existsb_app; try congruence.
  - rewrite af_idle1, af_idle0. by rewrite app_assoc.
  - rewrite af_runable1, af_runable0. by rewrite app_assoc.
  - rewrite af_timer1, af_timer0, !app_assoc.
    by rewrite (Permutation_app_comm (omap timer_of cs')).
  - intros [? ?]%app_nil. rewrite af_timer_eq1, af_timer_eq0; done.
  - rewrite af_quit1, af_quit0. by rewrite orb_assoc.
  - rewrite af_runs1, af_runs0. by rewrite app_assoc.
Qed.

Lemma exec_cmd_after c l :
  allowed (time_locked l) c = true →
  ∃ l', exec_cmd c l = (Ok tt, l') ∧ after l [c] [] l'.
Proof.
  destruct c as [t|t|ts t| |]; cbn [allowed exec_cmd]; intros Ha; [..|done];
    [| |unfold runAt, sget, mbind, SM_bind; destruct (time_locked l) eqn:El; [done|]|];
    (eexists; split; [reflexivity|]);
    constructor; cbn; rewrite ?orb_false_r, ?orb_true_r, ?app_nil_r, ?runs_app, ?app_nil_r;
    try done.
  apply tq_elems_push.
Qed.

Lemma exec_cmds_after cs l :
  forallb (allowed (time_locked l)) cs = true →
  ∃ l', exec_cmds cs l = (Ok tt, l') ∧ after l cs [] l'.
Proof.
  revert l. induction cs as [|c cs IH]; intros l Ha; cbn [exec_cmds].
  - exists l. split; [done|apply after_refl].
  - cbn [forallb] in Ha. apply andb_prop in Ha as [Hc Hcs].
    destruct (exec_cmd_after c l Hc) as (l1 & E1 & A1).
    rewrite <- (af_locked _ _ _ _ A1) in Hcs. destruct (IH l1 Hcs) as (l2 & E2 & A2).
    exists l2. split; [by rewrite (sm_bind_Ok _ _ _ _ _ E1)|].
    exact (after_trans _ _ _ _ _ _ _ A1 A2).
Qed.

Context (E : env).

(** The commands of a list of callbacks. *)
Definition bodies (ts : list task) : list cmd := ts ≫= body E.

Lemma bodies_cons t ts : bodies (t :: ts) = body E t ++ bodies ts.
Proof. done. Qed.

Lemma bodies_app ts ts' : bodies (ts ++ ts') = bodies ts ++ bodies ts'.
Proof. unfold bodies. by rewrite bind_app. Qed.

Lemma emit_run_after t l : after l [] [t] (emit (EvRun t) l).
Proof.
  constructor; cbn; rewrite ?app_nil_r, ?orb_false_r, ?runs_app; done.
Qed.

Lemma run_task_after t l :
  forallb (allowed (time_locked l)) (body E t) = true →
  ∃ l', run_task E t l = (Ok tt, l') ∧ after l (body E t) [t] l'.
Proof.
  intros Ha. destruct (exec_cmds_after (body E t) (emit (EvRun t) l) Ha) as (l' & E' & A).
  exists l'. split; [exact E'|]. exact (after_trans _ _ _ _ _ _ _ (emit_run_after t l) A).
Qed.

Lemma for_each_after ts l :
  forallb (allowed (time_locked l)) (bodies ts) = true →
  ∃ l', for_each E ts l = (Ok tt, l') ∧ after l (bodies ts) ts l'.
Proof.
  revert l. induction ts as [|t ts IH]; intros l Ha; cbn [for_each].
  - exists l. split; [done|apply after_refl].
  - rewrite bodies_cons, forallb_app in Ha. apply andb_prop in Ha as [Hc Hcs].
    destruct (run_task_after t l Hc) as (l1 & E1 & A1).
    rewrite <- (af_locked _ _ _ _ A1) in Hcs. destruct (IH l1 Hcs) as (l2 & E2 & A2).
    exists l2. split; [by rewrite (sm_bind_Ok _ _ _ _ _ E1)|].
    exact (after_trans _ _ _ _ _ _ _ A1 A2).
Qed.

(** Swapping a queue out. *)
Definition swapped (q : queue_id) (m : mutex_id) l : Loop Q :=
  emit (EvAccess q m) (set_queue q [] l).

Lemma handle_runnable_after q m l :
  forallb (allowed (time_locked l)) (bodies (queue q l)) = true →
  ∃ l', handle_runnable E q m l = (Ok tt, l') ∧
        after (swapped q m l) (bodies (queue q l)) (queue q l) l'.
Proof. intros Ha. apply (for_each_after _ (swapped q m l)). done. Qed.

Lemma runs_swapped q m l : runs (log (swapped q m l)) = runs (log l).
Proof. cbn. by rewrite runs_app, app_nil_r. Qed.

(** ** Timers *)

Lemma allowed_locked_scheduled cs : forallb (allowed true) cs = true → scheduled cs = [].
Proof.
  induction cs as [|c cs IH]; [done|]. cbn [forallb]. intros [Hc Hcs]%andb_prop.
  unfold scheduled. cbn. destruct c; cbn in *; by auto.
Qed.

Lemma after_set_timer l cs ts l1 q :
  after l cs ts l1 → scheduled cs = [] → after (set_timer q l) cs ts (set_timer q l1).
Proof. intros [] Hs. constructor; cbn; try done. by rewrite Hs. Qed.

(** [rs] are the timers that fire, in order, when the queue goes to [q']. *)
Record fired (now : Z) (q : Q) (rs : list timer) (q' : Q) : Prop := {
  fi_elems : rs ++ tq_elems q' ≡ₚ tq_elems q;
  fi_sorted : StronglySorted (λ a b, timestamp a ≤ timestamp b) rs;
  fi_due : Forall (λ e, timestamp e ≤ now) rs;
  fi_left : Forall (λ e, now < timestamp e) (tq_elems q')
}.

Lemma fired_cons now q e rs q' :
  tq_top q = Some e → timestamp e ≤ now → fired now (tq_pop q) rs q' →
  fired now q (e :: rs) q'.
Proof.
  intros Ht Hle [Hp Hs Hd Hl]. destruct (tq_top_Some q e Ht) as [Hq Hmin].
  assert (Hall : e :: rs ++ tq_elems q' ≡ₚ tq_elems q) by (by rewrite Hp).
  constructor; [done| |by constructor|done].
  constructor; [done|]. apply Forall_forall. intros x Hx. apply Hmin.
  rewrite <- Hall. apply elem_of_cons. right. apply elem_of_app. by left.
Qed.

(** Every timer that is due is allowed to run under the mutex. *)
Definition due_allowed (now : Z) (q : Q) : Prop :=
  ∀ e, e ∈ tq_elems q → timestamp e ≤ now → forallb (allowed true) (body E (runnable e)) = true.

Lemma timer_loop_after fuel now t l :
  time_locked l = true → (length (tq_elems (timer_ l)) < fuel)%nat →
  due_allowed now (timer_ l) →
  ∃ t' l' rs, timer_loop E fuel now t l = (Ok t', l') ∧ fired now (timer_ l) rs (timer_ l') ∧
    after (set_timer (timer_ l') l) (bodies (runnable <$> rs)) (runnable <$> rs) l' ∧
    scheduled (bodies (runnable <$> rs)) = [] ∧
    t' = from_option timestamp (default t (last (timestamp <$> rs))) (tq_top (timer_ l')).
Proof.
  revert t l. induction fuel as [|fuel IH]; intros t l Hlk Hf Hdue; [lia|].
  cbn [timer_loop]. unfold sget, mbind at 1, SM_bind at 1.
  destruct (tq_top (timer_ l)) as [e|] eqn:Et.
  - destruct (tq_top_Some _ _ Et) as [Hq Hmin].
    destruct (now <? timestamp e) eqn:En; zbool.
    + exists (timestamp e), l, []. split; [done|]. split; [|split; [|by rewrite Et]].
      * constructor; [done|constructor|done|]. apply Forall_forall. intros x Hx.
        specialize (Hmin x Hx). lia.
      * destruct l. apply after_refl.
    + assert (He : e ∈ tq_elems (timer_ l)) by (rewrite Hq; by left).
      specialize (Hdue e He En) as Hb.
      destruct (run_task_after (runnable e) l) as (l1 & E1 & A1); [by rewrite Hlk|].
      rewrite (sm_bind_Ok _ _ _ _ _ E1).
      pose proof (allowed_locked_scheduled _ Hb) as Hsch.
      pose proof (af_timer_eq _ _ _ _ A1 Hsch) as Hteq.
      set (l2 := set_timer (tq_pop (timer_ l1)) l1).
      destruct (IH (timestamp e) l2) as (t' & l' & rs & E2 & F2 & A2 & S2 & T2).
      { cbn. by rewrite (af_locked _ _ _ _ A1). }
      { cbn. rewrite Hteq. rewrite Hq in Hf. cbn in Hf. lia. }
      { intros x Hx. apply Hdue. cbn in Hx. rewrite Hteq in Hx. rewrite Hq. by right. }
      exists t', l', (e :: rs). split; [exact E2|]. cbn in F2. rewrite Hteq in F2.
      split; [by apply fired_cons|]. rewrite fmap_cons, bodies_cons.
      split; [|split].
      * change (runnable e :: (runnable <$> rs)) with ([runnable e] ++ (runnable <$> rs)).
        eapply after_trans; [by apply after_set_timer|exact A2].
      * unfold scheduled in *. by rewrite omap_app, Hsch, S2.
      * rewrite T2. f_equal. cbn. rewrite last_cons. by destruct (last _).
  - exists t, l, []. split; [done|]. split; [|split; [|by rewrite Et]].
    + constructor; [done|constructor|done|]. by rewrite (tq_top_None _ Et).
    + destruct l. apply after_refl.
Qed.

(** What a call of [handle_timer] does, as a whole. *)
Record timed (now : Z) l (rs : list timer) l' : Prop := {
  ti_fired : fired now (timer_ l) rs (timer_ l');
  ti_after : after (set_outtime (outtime l') (set_timer (timer_ l') l))
               (bodies (runnable <$> rs)) (runnable <$> rs) l';
  ti_none : scheduled (bodies (runnable <$> rs)) = [];
  ti_outtime :
    outtime l' = from_option timestamp (default (outtime l) (last (timestamp <$> rs)))
                             (tq_top (timer_ l'))
}.

Lemma handle_timer_timed now l :
  time_locked l = false → due_allowed now (timer_ l) →
  ∃ l' rs, handle_timer E now l = (Ok tt, l') ∧ timed now l rs l'.
Proof.
  intros Hlk Hdue.
  destruct (timer_loop_after (S (length (tq_elems (timer_ l)))) now (outtime l)
              (set_locked true l)) as (t' & l' & rs & E1 & F1 & A1 & S1 & T1);
    [done|cbn; lia|done|].
  unfold handle_timer. rewrite E1.
  exists (set_outtime t' (set_locked false l')), rs. split; [done|].
  constructor; [exact F1| |exact S1|exact T1].
  destruct A1. constructor; cbn; try done.
Qed.

(** C38: Queues.  When no queued callback throws (nor calls [runAt] while the mutex of the
    timers is held), [handle_runnable] runs exactly the callbacks queued when it is
    called, each once and in the order they were pushed, and leaves on the queue
    exactly those that these callbacks push; what they push on the other queue
    goes behind what is there. *)
Theorem handle_runnable_fifo q m l :
  forallb (allowed (time_locked l)) (bodies (queue q l)) = true →
  ∃ l', handle_runnable E q m l = (Ok tt, l') ∧
    runs (log l') = runs (log l) ++ queue q l ∧
    queue q l' = pushed q (bodies (queue q l)) ∧
    (∀ q', q' ≠ q → queue q' l' = queue q' l ++ pushed q' (bodies (queue q l))).
Proof.
  intros Ha. destruct (handle_runnable_after q m l Ha) as (l' & Hr & A).
  exists l'. split; [done|].
  split; [by rewrite (af_runs _ _ _ _ A), runs_swapped|].
  split; [destruct q; cbn [queue]; rewrite (af_idle _ _ _ _ A) || rewrite (af_runable _ _ _ _ A); done|].
  intros q' Hne. destruct q, q'; try done; cbn [queue];
    rewrite (af_idle _ _ _ _ A) || rewrite (af_runable _ _ _ _ A); done.
Qed.

(** C10: Timers.  When no callback of a timer that is due throws or calls [runAt], which would
    relock the mutex, and the mutex is free, [handle_timer] returns, and has run exactly the timers that are
    due, in order of their timestamps, each once; those that remain are later
    than [now]; the mutex is free again, and [outtime] is the earliest remaining
    timestamp when there is one. *)
Theorem handle_timer_runs_due now l :
  time_locked l = false → due_allowed now (timer_ l) →
  ∃ l' rs, handle_timer E now l = (Ok tt, l') ∧ fired now (timer_ l) rs (timer_ l') ∧
    runs (log l') = runs (log l) ++ (runnable <$> rs) ∧ time_locked l' = false ∧
    (∀ e, tq_top (timer_ l') = Some e → outtime l' = timestamp e).
Proof.
  intros Hlk Hdue. destruct (handle_timer_timed now l Hlk Hdue) as (l' & rs & Hr & [F A _ T]).
  exists l', rs. split; [done|]. split; [done|].
  split; [by rewrite (af_runs _ _ _ _ A)|].
  split; [by rewrite (af_locked _ _ _ _ A)|]. intros e He. by rewrite T, He.
Qed.

(** Finding.  A timer callback that calls [runAt] locks [time_mut_], which
    [handle_timer] holds while it calls: the program has no defined behaviour
    (in practice it deadlocks), so a periodic timer cannot re-arm itself. *)
Theorem runAt_in_timer_deadlocks now l e ts t cs :
  time_locked l = false → tq_top (timer_ l) = Some e → timestamp e ≤ now →
  body E (runnable e) = CRunAt ts t :: cs →
  (handle_timer E now l).1 = Undef LockAlreadyHeld.
Proof.
  intros Hlk Ht Hle Hb. unfold handle_timer. cbn [timer_loop].
  unfold sget, mbind at 1, SM_bind at 1. cbn [timer_ set_locked]. rewrite Ht.
  rewrite (proj2 (Z.ltb_ge now (timestamp e))) by done.
  unfold run_task. rewrite Hb. reflexivity.
Qed.

(** Finding.  The poll timeout is inverted: with [outtime] the next deadline,
    it is zero while the deadline is ahead (the loop spins) and the time that
    has passed since once it is behind. *)
Theorem get_outtime_inverted l :
  0 ≤ clock E (ticks l) < 2 ^ 64 → 0 ≤ outtime l < 2 ^ 64 →
  (get_outtime E l).1 = Ok (Z.max 0 (clock E (ticks l) - outtime l)).
Proof.
  intros Hc Ho.
  change (get_outtime E l).1 with
    (Ok (if outtime l <? u64 (clock E (ticks l))
         then u64 (clock E (ticks l)) ⊖ outtime l else 0)).
  rewrite (u64_small (clock E _)) by done.
  destruct (outtime l <? clock E (ticks l)) eqn:Elt; zbool; u64_solve;
    f_equal; lia.
Qed.

(** ** Turns *)

(** Callbacks neither throw nor add timers, and nothing throws at the I/O handle. *)
Record calm : Prop := {
  calm_body : ∀ t, forallb (allowed true) (body E t) = true;
  calm_io : ∀ n, forallb (allowed false) (io E n) = true
}.

Lemma allowed_unlock b c : allowed true c = true → allowed b c = true.
Proof. by destruct c, b. Qed.

Lemma bodies_allowed b ts : calm → forallb (allowed b) (bodies ts) = true.
Proof.
  intros [Hb _]. induction ts as [|t ts IH]; [done|].
  rewrite bodies_cons, forallb_app, IH, andb_true_r. specialize (Hb t).
  rewrite forallb_forall in *. intros c Hc. by apply allowed_unlock, Hb.
Qed.

(** The state in which the commands at the I/O handle run. *)
Definition at_io l : Loop Q :=
  let o := if outtime l <? u64 (clock E (ticks l))
           then u64 (clock E (ticks l)) ⊖ outtime l else 0 in
  let l1 := poll_done (tick l) in if io_handle_ l then emit (EvIo o) l1 else l1.

Lemma io_stage l :
  (get_outtime E ≫= handle_io_source E) l = exec_cmds (io E (polls l)) (at_io l).
Proof. by destruct l as [? ? ? ? [] ? ? ? ? ?]. Qed.

Lemma at_io_fields l :
  idle_ (at_io l) = idle_ l ∧ runable_ (at_io l) = runable_ l ∧ timer_ (at_io l) = timer_ l ∧
  is_quit_ (at_io l) = is_quit_ l ∧ time_locked (at_io l) = time_locked l ∧
  polls (at_io l) = S (polls l) ∧ runs (log (at_io l)) = runs (log l).
Proof. unfold at_io. destruct (io_handle_ l); cbn; rewrite ?runs_app, ?app_nil_r; done. Qed.

(** What a turn needs of the callbacks: none throws, and none of the timers that may fire
    in it, those that are due at its second reading of the clock, calls [runAt]. *)
Record turn_safe l : Prop := {
  ts_body : ∀ t, forallb (allowed false) (body E t) = true;
  ts_io : forallb (allowed false) (io E (polls l)) = true;
  ts_due : ∀ e, e ∈ scheduled (bodies (idle_ l) ++ io E (polls l)) ++ tq_elems (timer_ l) →
    timestamp e ≤ u64 (clock E (S (ticks l))) → forallb (allowed true) (body E (runnable e)) = true
}.

Lemma calm_safe l : calm → turn_safe l.
Proof.
  intros [Hb Hio]. split; [|done|done]. intros t. specialize (Hb t).
  rewrite forallb_forall in *. intros c Hc. by apply allowed_unlock, Hb.
Qed.

Lemma safe_bodies l ts : turn_safe l → forallb (allowed false) (bodies ts) = true.
Proof.
  intros [Hb _ _]. induction ts as [|t ts IH]; [done|]. by rewrite bodies_cons, forallb_app, IH, Hb.
Qed.

(** A turn, from the queues and timers it finds: [rs] are the timers that fire and [left]
    those that do not, [cs] the commands of the first stage, of the I/O handle and of the
    timers. *)
Record turned l l' (rs left : list timer) (cs : list cmd) : Prop := {
  tu_runs : runs (log l') = runs (log l) ++ idle_ l ++ (runnable <$> rs) ++
                            runable_ l ++ pushed runable_q cs;
  tu_cmds : cs = bodies (idle_ l) ++ io E (polls l) ++ bodies (runnable <$> rs);
  tu_idle : idle_ l' = pushed idle_q (cs ++ bodies (runable_ l ++ pushed runable_q cs));
  tu_runable : runable_ l' = pushed runable_q (bodies (runable_ l ++ pushed runable_q cs));
  tu_quit : is_quit_ l' = is_quit_ l || quits (cs ++ bodies (runable_ l ++ pushed runable_q cs));
  tu_timer : rs ++ left ≡ₚ scheduled (bodies (idle_ l) ++ io E (polls l)) ++ tq_elems (timer_ l);
  tu_left : tq_elems (timer_ l') ≡ₚ scheduled (bodies (runable_ l ++ pushed runable_q cs)) ++ left;
  tu_due : Forall (λ e, timestamp e ≤ u64 (clock E (S (ticks l)))) rs;
  tu_later : Forall (λ e, u64 (clock E (S (ticks l))) < timestamp e) left;
  tu_sorted : StronglySorted (λ a b, timestamp a ≤ timestamp b) rs;
  tu_locked : time_locked l' = false;
  tu_polls : polls l' = S (polls l)
}.

Lemma turn_split l l1 l2 l3 l4 :
  handle_runnable E idle_q idle_mut_ l = (Ok tt, l1) →
  exec_cmds (io E (polls l1)) (at_io l1) = (Ok tt, l2) →
  handle_timer E (u64 (clock E (ticks l2))) (tick l2) = (Ok tt, l3) →
  handle_runnable E runable_q run_mut_ l3 = (Ok tt, l4) →
  turn E l = (Ok tt, l4).
Proof.
  intros H1 H2 H3 H4. unfold turn. rewrite (sm_bind_Ok _ _ _ _ _ H1).
  rewrite <- io_stage in H2. unfold mbind, SM_bind in *.
  destruct (get_outtime E l1) as [[o| | | | |] l1']; try discriminate.
  rewrite H2. unfold get_current_timestamp, mbind, SM_bind, sget, smod, mret, SM_ret.
  rewrite H3. exact H4.
Qed.

Lemma calm_unscheduled ts : calm → scheduled (bodies ts) = [].
Proof. intros Hc. by apply allowed_locked_scheduled, bodies_allowed. Qed.

(** The first queue and the I/O handle. *)
Lemma turn_front l :
  turn_safe l → time_locked l = false →
  ∃ l1 l2, handle_runnable E idle_q idle_mut_ l = (Ok tt, l1) ∧
    exec_cmds (io E (polls l1)) (at_io l1) = (Ok tt, l2) ∧
    after (swapped idle_q idle_mut_ l) (bodies (idle_ l)) (idle_ l) l1 ∧
    after (at_io l1) (io E (polls l)) [] l2 ∧ time_locked l2 = false ∧ ticks l2 = S (ticks l) ∧
    tq_elems (timer_ l2) ≡ₚ scheduled (bodies (idle_ l) ++ io E (polls l)) ++ tq_elems (timer_ l).
Proof.
  intros Hsafe Hlk.
  destruct (handle_runnable_after idle_q idle_mut_ l) as (l1 & E1 & A1);
    [rewrite Hlk; by eapply safe_bodies|].
  destruct (at_io_fields l1) as (I1 & I2 & I3 & I4 & I5 & I6 & I7).
  assert (Hlk1 : time_locked l1 = false) by (by rewrite (af_locked _ _ _ _ A1)).
  assert (Hp1 : polls l1 = polls l) by (by rewrite (af_polls _ _ _ _ A1)).
  destruct (exec_cmds_after (io E (polls l1)) (at_io l1)) as (l2 & E2 & A2);
    [rewrite I5, Hlk1, Hp1; apply Hsafe|].
  exists l1, l2. rewrite Hp1 in A2. split_and!; try done.
  - by rewrite (af_locked _ _ _ _ A2), I5.
  - rewrite (af_ticks _ _ _ _ A2). unfold at_io. destruct (io_handle_ l1); cbn; by rewrite (af_ticks _ _ _ _ A1).
  - rewrite (af_timer _ _ _ _ A2), I3, (af_timer _ _ _ _ A1). cbn. unfold scheduled.
    rewrite omap_app, !app_assoc. by rewrite (Permutation_app_comm (omap timer_of (io E (polls l)))).
Qed.

Lemma turn_turned l :
  turn_safe l → time_locked l = false →
  ∃ l' rs left cs, turn E l = (Ok tt, l') ∧ turned l l' rs left cs.
Proof.
  intros Hsafe Hlk.
  destruct (turn_front l Hsafe Hlk) as (l1 & l2 & E1 & E2 & A1 & A2 & Hlk2 & Htk & HT2).
  destruct (at_io_fields l1) as (I1 & I2 & I3 & I4 & I5 & I6 & I7).
  destruct (handle_timer_timed (u64 (clock E (ticks l2))) (tick l2)) as (l3 & rs & E3 & T3).
  { done. }
  { intros e. cbn [timer_ tick]. rewrite HT2, Htk. apply Hsafe. }
  destruct (handle_runnable_after runable_q run_mut_ l3) as (l4 & E4 & A4).
  { rewrite (af_locked _ _ _ _ (ti_after _ _ _ _ T3)). cbn. rewrite Hlk2.
    by eapply safe_bodies. }
  exists l4, rs, (tq_elems (timer_ l3)), (bodies (idle_ l) ++ io E (polls l) ++ bodies (runnable <$> rs)).
  split; [by apply (turn_split l l1 l2 l3)|].
  assert (HT : rs ++ tq_elems (timer_ l3) ≡ₚ scheduled (bodies (idle_ l) ++ io E (polls l)) ++ tq_elems (timer_ l)).
  { rewrite (fi_elems _ _ _ _ (ti_fired _ _ _ _ T3)). by rewrite <- HT2. }
  pose proof (af_timer _ _ _ _ A4) as HL. cbn in HL.
  destruct A1, A2, T3 as [F3 [] S3 T3], A4. cbn [queue] in *.
  rewrite I1, I2, I4, I5, I6, I7 in *. rewrite runs_swapped in *.
  unfold swapped in *. cbn [idle_ runable_ is_quit_ time_locked polls emit set_queue
                            set_outtime set_timer tick log] in *.
  cbn in af_idle0, af_runable0, af_quit0, af_idle2, af_runable2, af_quit2, af_runs2, af_polls0.
  rewrite ?af_polls0 in *.
  assert (HR : runable_ l3 = runable_ l ++
                 pushed runable_q (bodies (idle_ l) ++ io E (polls l) ++ bodies (runnable <$> rs))).
  { rewrite af_runable2, af_runable1, af_runable0. unfold pushed.
    by rewrite !omap_app, !app_assoc. }
  unfold pushed, quits in *.
  rewrite app_nil_r in af_runs1.
  constructor; unfold pushed, quits; rewrite <- ?HR; rewrite ?omap_app, ?existsb_app in *;
    rewrite <- ?HR; try congruence.
  - rewrite af_runs3, af_runs2, af_runs1, af_runs0, HR, !app_assoc. done.
  - rewrite af_idle3, af_idle2, af_idle1, af_idle0, !app_assoc. done.
  - by rewrite af_runable3.
  - rewrite af_quit3, af_quit2, af_quit1, af_quit0, !orb_assoc. done.
  - exact HL.
  - rewrite Htk in F3. apply F3.
  - rewrite Htk in F3. apply F3.
  - apply F3.
Qed.

Lemma run_loop_turn fuel l l' :
  is_quit_ l = false → turn E l = (Ok tt, l') →
  run_loop E (S fuel) l = run_loop E fuel l'.
Proof.
  intros Hq Ht. cbn [run_loop]. unfold sget, mbind at 1, SM_bind at 1. rewrite Hq.
  by rewrite (sm_bind_Ok _ _ _ _ _ Ht).
Qed.

(** Nobody ever calls [quit]. *)
Definition never_quits : Prop :=
  (∀ t, quits (body E t) = false) ∧ ∀ n, quits (io E n) = false.

Lemma bodies_never_quit ts : never_quits → quits (bodies ts) = false.
Proof.
  intros [Hb _]. induction ts as [|t ts IH]; [done|]. unfold quits in *.
  by rewrite bodies_cons, existsb_app, Hb, IH.
Qed.

Lemma run_loop_diverges fuel l :
  calm → never_quits → is_quit_ l = false → time_locked l = false →
  (run_loop E fuel l).1 = NoFuel.
Proof.
  intros Hc Hn. revert l. induction fuel as [|fuel IH]; intros l Hq Hlk; [done|].
  destruct (turn_turned l (calm_safe l Hc) Hlk) as (l' & rs & left & cs & Ht & []).
  rewrite (run_loop_turn _ _ _ Hq Ht). apply IH; [|done].
  rewrite tu_quit0, Hq, tu_cmds0. unfold quits. rewrite !existsb_app.
  rewrite !(bodies_never_quit _ Hn). by destruct Hn as [_ ->].
Qed.

(** C9: Order of a turn.  When no callback throws and none of the timers due in this turn
    calls [runAt], one turn of the loop first runs what [pushRunable] had queued; then,
    after the I/O handle, exactly the timers that are due by the clock, in order of their
    timestamps, among those it found and those scheduled so far in the turn, while all
    others are later and stay; and last what [pushIdle] had queued together with what
    [pushIdle] added during the turn: the two queues have each other's role. *)
Theorem turn_order l :
  turn_safe l → time_locked l = false →
  let now := u64 (clock E (S (ticks l))) in
  ∃ l' rs left, turn E l = (Ok tt, l') ∧ time_locked l' = false ∧
    rs ++ left ≡ₚ scheduled (bodies (idle_ l) ++ io E (polls l)) ++ tq_elems (timer_ l) ∧
    StronglySorted (λ a b, timestamp a ≤ timestamp b) rs ∧
    Forall (λ e, timestamp e ≤ now) rs ∧ Forall (λ e, now < timestamp e) left ∧
    let last_stage := runable_ l ++
      pushed runable_q (bodies (idle_ l) ++ io E (polls l) ++ bodies (runnable <$> rs)) in
    runs (log l') = runs (log l) ++ idle_ l ++ (runnable <$> rs) ++ last_stage ∧
    tq_elems (timer_ l') ≡ₚ scheduled (bodies last_stage) ++ left.
Proof.
  intros Hs Hlk now. destruct (turn_turned l Hs Hlk) as (l' & rs & left & cs & Ht & []).
  exists l', rs, left. by subst cs.
Qed.

(** Finding.  A [quit] that comes before [run] is lost, because [run] clears
    the flag: unless a callback or another thread quits later, [run] never
    returns, however long it is given. *)
Theorem quit_before_run_is_lost fuel l :
  calm → never_quits → time_locked l = false →
  (run E fuel (quit l).2).1 = NoFuel.
Proof. intros Hc Hn Hlk. by apply run_loop_diverges. Qed.

(** Termination.  When [quit] is called during the [k]-th turn from now, [run]
    returns after that turn, with the flag set, so that the destructor's
    assertion holds. *)
Theorem run_returns_after_quit k fuel l :
  calm → time_locked l = false → quits (io E (polls l + k)) = true → (k + 1 < fuel)%nat →
  ∃ l', run E fuel l = (Ok tt, l') ∧ Loop_destroy l' = Ok tt.
Proof.
  intros Hc Hlk Hquit Hf. unfold run, smod, mbind, SM_bind.
  assert (G : ∀ l, time_locked l = false → quits (io E (polls l + k)) = true →
                   ∃ l', run_loop E fuel l = (Ok tt, l') ∧ is_quit_ l' = true).
  { clear l Hlk Hquit. revert fuel Hf. induction k as [|k IH]; intros fuel Hf l Hlk Hquit;
      (destruct fuel as [|[|fuel]]; [lia|lia|]);
      (destruct (is_quit_ l) eqn:Hq;
         [exists l; split; [by cbn [run_loop]; unfold sget, mbind, SM_bind; rewrite Hq|done]|]);
      destruct (turn_turned l (calm_safe l Hc) Hlk) as (l' & rs & left & cs & Ht & []);
      rewrite (run_loop_turn _ _ _ Hq Ht).
    - assert (Hq' : is_quit_ l' = true).
      { rewrite tu_quit0, Hq, tu_cmds0. unfold quits in *. rewrite !existsb_app.
        rewrite Nat.add_0_r in Hquit. rewrite Hquit, ?orb_true_r. done. }
      exists l'. split; [by cbn [run_loop]; unfold sget, mbind, SM_bind; rewrite Hq'|done].
    - apply IH; [lia|done|]. rewrite tu_polls0. by replace (S _ + k)%nat with (polls l + S k)%nat by lia. }
  destruct (G (set_quit false l) Hlk Hquit) as (l' & Hr & Hq'). exists l'.
  split; [done|]. unfold Loop_destroy. by rewrite Hq'.
Qed.

(** Every access to [q] in a history is made under [m]. *)
Definition protects (m : mutex_id) (q : queue_id) (evs : list levent) : bool :=
  forallb (λ e, match e with
                | EvAccess q' m' => negb (bool_decide (q' = q)) || bool_decide (m' = m)
                | _ => true
                end) evs.

Lemma exec_cmds_grows cs l : log l `prefix_of` log (exec_cmds cs l).2.
Proof.
  revert l. induction cs as [|c cs IH]; intros l; [done|]. cbn [exec_cmds].
  unfold mbind, SM_bind. destruct (exec_cmd c l) as [o l1] eqn:Ec.
  assert (Hl : log l `prefix_of` log l1).
  { destruct c; cbn in Ec; try (injection Ec as <- <-; first [done|by eexists]).
    unfold runAt, sget, mbind, SM_bind in Ec. destruct (time_locked l); by injection Ec as <- <-. }
  destruct o; try done. etrans; [done|apply IH].
Qed.

Lemma for_each_grows ts l : log l `prefix_of` log (for_each E ts l).2.
Proof.
  revert l. induction ts as [|t ts IH]; intros l; [done|]. cbn [for_each].
  unfold mbind, SM_bind. destruct (run_task E t l) as [o l1] eqn:Er.
  assert (Hl : log l `prefix_of` log l1).
  { pose proof (exec_cmds_grows (body E t) (emit (EvRun t) l)) as Hg.
    change (exec_cmds (body E t) (emit (EvRun t) l)) with (run_task E t l) in Hg.
    rewrite Er in Hg. etrans; [|exact Hg]. by eexists. }
  destruct o; try done. etrans; [done|apply IH].
Qed.

Lemma unprotected_two m q m1 m2 evs evs' :
  m1 ≠ m2 → ((evs ++ [EvAccess q m1]) ++ [EvAccess q m2]) `prefix_of` evs' →
  protects m q evs' = false.
Proof.
  intros Hne [rest ->]. unfold protects. rewrite !forallb_app. cbn [forallb].
  rewrite !(bool_decide_eq_true_2 (q = q)) by done. cbn [negb orb].
  destruct (decide (m1 = m)) as [->|Hm1].
  - rewrite (bool_decide_eq_false_2 (m2 = m)) by congruence. by rewrite ?andb_false_r.
  - rewrite (bool_decide_eq_false_2 (m1 = m)) by done. by rewrite ?andb_false_r.
Qed.

(** Finding.  No mutex protects either queue: a push locks one mutex and the
    stage of the loop that empties the same queue locks the other, so a push from
    another thread races with the loop. *)
Theorem queues_unprotected t l m :
  protects m runable_q (log ((pushIdle t ≫= λ _, handle_runnable E runable_q run_mut_) l).2) = false ∧
  protects m idle_q (log ((pushRunable t ≫= λ _, handle_runnable E idle_q idle_mut_) l).2) = false.
Proof.
  split.
  - apply (unprotected_two m runable_q idle_mut_ run_mut_ (log l)); [done|].
    apply (for_each_grows _ (swapped runable_q run_mut_ (pushIdle t l).2)).
  - apply (unprotected_two m idle_q run_mut_ idle_mut_ (log l)); [done|].
    apply (for_each_grows _ (swapped idle_q idle_mut_ (pushRunable t l).2)).
Qed.
End spec.

(** ** [set/loop/main.cpp] *)

(** Callback 0 prints, callback 1 quits; the main thread pushes them with
    [pushRunable] while the loop is in its turns [i] and [j]. *)
Definition main_env (i j : nat) : env :=
  {| body := λ t, match t with 1%nat => [CQuit] | _ => [] end;
     clock := λ n, Z.of_nat n;
     io := λ n, (if decide (n = i) then [CPushRunable 0%nat] else []) ++
                (if decide (n = j) then [CPushRunable 1%nat] else []) |}.

Lemma main_env_calm i j : calm (main_env i j).
Proof.
  constructor; [by intros [|[|t]]|]. intros n. cbn.
  destruct (decide (n = i)), (decide (n = j)); done.
Qed.

(** The number of turns, and what has run, when the loop of [main] returns. *)
Definition main_run (i j fuel : nat) : outcome unit * list task :=
  let '(o, l) := run (main_env i j) fuel (Loop_new : Loop sorted_timers) in
  (_ ← o; Loop_destroy l, runs (log l)).

(** The loop of [main] before turn [n]: [q] is queued, [rs] has run. *)
Record mstate (n : nat) (q rs : list task) (quit : bool) (l : Loop sorted_timers) : Prop := {
  ms_idle : idle_ l = q;
  ms_runable : runable_ l = [];
  ms_timer : tq_elems (timer_ l) = [];
  ms_locked : time_locked l = false;
  ms_polls : polls l = n;
  ms_quit : is_quit_ l = quit;
  ms_runs : runs (log l) = rs
}.

Lemma main_bodies i j q ts :
  pushed q (bodies (main_env i j) ts) = [] ∧
  quits (bodies (main_env i j) ts) = bool_decide (1%nat ∈ ts).
Proof.
  induction ts as [|t ts [IH1 IH2]]; [by destruct q|]. rewrite bodies_cons.
  unfold pushed, quits in *. rewrite omap_app, existsb_app, IH1, IH2, app_nil_r.
  split; [by destruct q, t as [|[|t]]|].
  destruct t as [|[|t]]; cbn; [..]; symmetry.
  - apply bool_decide_ext. rewrite elem_of_cons. naive_solver.
  - apply bool_decide_eq_true_2. by left.
  - apply bool_decide_ext. rewrite elem_of_cons. naive_solver.
Qed.

Lemma main_io i j n :
  pushed runable_q (io (main_env i j) n) = [] ∧ quits (io (main_env i j) n) = false ∧
  scheduled (io (main_env i j) n) = [].
Proof. cbn. by destruct (decide (n = i)), (decide (n = j)). Qed.

Lemma main_turn i j n q rs l fuel :
  mstate n q rs false l →
  ∃ l', run_loop (main_env i j) (S fuel) l = run_loop (main_env i j) fuel l' ∧
    mstate (S n) (pushed idle_q (io (main_env i j) n)) (rs ++ q) (bool_decide (1%nat ∈ q)) l'.
Proof.
  intros [Hq Hr Ht Hlk Hn Hquit Hrs]. destruct (main_io i j n) as (I1 & I2 & I3).
  destruct (turn_turned (main_env i j) l (calm_safe _ l (main_env_calm i j)) Hlk)
    as (l' & fs & left & cs & Hturn & []).
  exists l'. split; [by apply run_loop_turn|].
  assert (fs ++ left = []) as [-> ->]%app_nil.
  { apply Permutation_nil_r. rewrite tu_timer0, Hn, Ht, app_nil_r. unfold scheduled in *.
    by rewrite omap_app, I3, (calm_unscheduled _ _ (main_env_calm i j)). }
  assert (tq_elems (timer_ l') = []) as Ht'.
  { apply Permutation_nil_r. by rewrite tu_left0, (calm_unscheduled _ _ (main_env_calm i j)). }
  rewrite Hq, Hr, Hn, Hquit, Hrs in *. rewrite fmap_nil in *.
  change (bodies (main_env i j) []) with (@nil cmd) in *. rewrite ?app_nil_l, ?app_nil_r in *.
  assert (Hp : pushed runable_q cs = []).
  { subst cs. rewrite pushed_app, I1. by rewrite (proj1 (main_bodies i j runable_q q)). }
  rewrite Hp in *. change (bodies (main_env i j) []) with (@nil cmd) in *.
  rewrite ?app_nil_l, ?app_nil_r in *. subst cs.
  constructor; try done.
  - rewrite tu_idle0, pushed_app. by rewrite (proj1 (main_bodies i j idle_q q)).
  - rewrite tu_quit0, quits_app, I2, orb_false_r. apply (main_bodies i j idle_q q).
Qed.

(** Turns in which nothing is pushed. *)
Lemma main_skip i j k n rs l fuel :
  mstate n [] rs false l → (∀ m, (n ≤ m < n + k)%nat → m ≠ i ∧ m ≠ j) →
  ∃ l', run_loop (main_env i j) (k + fuel) l = run_loop (main_env i j) fuel l' ∧
        mstate (n + k) [] rs false l'.
Proof.
  revert n l. induction k as [|k IH]; intros n l Hms Hno.
  - exists l. by rewrite Nat.add_0_r.
  - destruct (main_turn i j n [] rs l (k + fuel) Hms) as (l1 & E1 & H1).
    destruct (Hno n) as [Hi Hj]; [lia|]. cbn in H1.
    rewrite (decide_False _ _ Hi), (decide_False _ _ Hj), !app_nil_r in H1.
    rewrite bool_decide_eq_false_2 in H1 by apply not_elem_of_nil. cbn in H1.
    destruct (IH (S n) l1 H1) as (l2 & E2 & H2); [intros; apply Hno; lia|].
    exists l2. split; [by rewrite <- E2, <- E1|].
    by replace (n + S k)%nat with (S n + k)%nat by lia.
Qed.

(** The turn that runs what was queued, when that contains the quitting callback. *)
Lemma main_last i j n q rs l fuel :
  mstate n q rs false l → 1%nat ∈ q →
  ∃ l', run_loop (main_env i j) (S (S fuel)) l = (Ok tt, l') ∧
        is_quit_ l' = true ∧ runs (log l') = rs ++ q.
Proof.
  intros Hms Hin. destruct (main_turn i j n q rs l (S fuel) Hms) as (l' & -> & []).
  rewrite bool_decide_eq_true_2 in ms_quit0 by done. exists l'. split; [|done].
  cbn [run_loop]. unfold sget, mbind, SM_bind. by rewrite ms_quit0.
Qed.

Lemma main_push i j n q rs l fuel :
  mstate n q rs false l → (1%nat ∉ q) →
  ∃ l', run_loop (main_env i j) (S fuel) l = run_loop (main_env i j) fuel l' ∧
    mstate (S n) ((if decide (n = i) then [0%nat] else []) ++
                  (if decide (n = j) then [1%nat] else [])) (rs ++ q) false l'.
Proof.
  intros Hms Hq. destruct (main_turn i j n q rs l fuel Hms) as (l' & E' & H').
  exists l'. split; [done|]. rewrite bool_decide_eq_false_2 in H' by done.
  cbn in H'. by destruct (decide (n = i)), (decide (n = j)).
Qed.

Lemma main_late i j rs l :
  i ≠ j → mstate j [] rs false l →
  ∃ l', run_loop (main_env i j) 3 l = (Ok tt, l') ∧ is_quit_ l' = true ∧
        runs (log l') = rs ++ [1%nat].
Proof.
  intros Hne Hms. destruct (main_push i j j [] rs l 2 Hms) as (l1 & -> & H1);
    [apply not_elem_of_nil|].
  rewrite (decide_False _ _ (not_eq_sym Hne)), (decide_True _ _ eq_refl), app_nil_r in H1.
  apply (main_last i j _ _ _ _ 0 H1). by left.
Qed.

(** [set/loop/main.cpp].  Whenever, during the loop's turns, the main thread
    pushes the two callbacks (in this order), the loop runs the printing callback
    once, then the quitting one, and returns, and the destructor's assertion
    holds. *)
Theorem loop_main_prints_and_quits i j :
  (i ≤ j)%nat → main_run i j (j + 3) = (Ok tt, [0%nat; 1%nat]).
Proof.
  intros Hij.
  assert (H0 : mstate 0 [] [] false (set_quit false (Loop_new : Loop sorted_timers)))
    by done.
  enough (∃ l', run_loop (main_env i j) (j + 3) (set_quit false Loop_new) = (Ok tt, l') ∧
                is_quit_ l' = true ∧ runs (log l') = [0%nat; 1%nat]) as (l' & Hr & Hq & Hl).
  { unfold main_run, run, smod, mbind at 1, SM_bind at 1.
    rewrite Hr. unfold Loop_destroy. by rewrite Hq, Hl. }
  replace (j + 3)%nat with (i + (j - i + 3))%nat by lia.
  destruct (main_skip i j i 0 [] _ (j - i + 3) H0) as (l1 & -> & H1); [lia|].
  replace (j - i + 3)%nat with (S (j - i + 2)) by lia.
  destruct (main_push i j _ _ _ _ (j - i + 2) H1) as (l2 & -> & H2); [apply not_elem_of_nil|].
  rewrite (decide_True _ _ (eq_refl : (0 + i = i)%nat)) in H2.
  destruct (decide (0 + i = j)%nat) as [Hj|Hj]; cbn in H2.
  - replace (j - i + 2)%nat with 2%nat by lia.
    by apply (main_last i j _ _ _ _ 0 H2); right; left.
  - replace (j - i + 2)%nat with (S (j - i - 1 + 2)) by lia.
    destruct (main_push i j _ _ _ _ (j - i - 1 + 2) H2) as (l3 & -> & H3);
      [by rewrite list_elem_of_singleton|].
    cbn [Nat.add] in H3. rewrite (decide_False _ _ (Nat.neq_succ_diag_l i)) in H3.
    destruct (decide (S i = j)) as [Hj'|Hj']; cbn in H3.
    + replace (j - i - 1 + 2)%nat with 2%nat by lia.
      by apply (main_last i j _ _ _ _ 0 H3); left.
    + replace (j - i - 1 + 2)%nat with ((j - S (S i)) + 3)%nat by lia.
      destruct (main_skip i j (j - S (S i)) (S (S i)) [0%nat] _ 3 H3) as (l4 & -> & H4); [lia|].
      replace (S (S i) + (j - S (S i)))%nat with j in H4 by lia.
      by apply (main_late i j [0%nat] l4).
Qed.

(** ** Concrete runs *)

(** Callback 0 queues callback 2 behind itself, callback 3 re-arms a timer. *)
Definition sample_env : env :=
  {| body := λ t, match t with
                  | 0%nat => [CPushRunable 2%nat]
                  | 3%nat => [CRunAt 50 3%nat]
                  | _ => []
                  end;
     clock := λ n, 100 + Z.of_nat n; io := λ _, [] |}.

Definition calm_sample : env := {| body := λ _, []; clock := λ n, Z.of_nat n; io := λ _, [] |}.

Lemma calm_sample_calm : calm calm_sample.
Proof. by constructor. Defined.

Definition two_queued : Loop sorted_timers :=
  set_queue idle_q [0%nat; 1%nat] Loop_new.

Definition with_timers (ts : list timer) : Loop sorted_timers :=
  set_timer (foldr tq_push tq_new ts) Loop_new.

Lemma handle_runnable_fifo_witness :
  ∃ l', handle_runnable sample_env idle_q idle_mut_ two_queued = (Ok tt, l') ∧
    runs (log l') = [] ++ [0%nat; 1%nat] ∧ queue idle_q l' = [2%nat] ∧
    (∀ q', q' ≠ idle_q → queue q' l' = queue q' two_queued ++
                          pushed q' (bodies sample_env [0%nat; 1%nat])).
Proof. apply (handle_runnable_fifo sample_env idle_q idle_mut_ two_queued). reflexivity. Defined.

Lemma handle_timer_runs_due_witness :
  ∃ l' rs, handle_timer sample_env 10 (with_timers [mktimer 9 0; mktimer 20 3; mktimer 4 1])
             = (Ok tt, l') ∧
    fired 10 (timer_ (with_timers [mktimer 9 0; mktimer 20 3; mktimer 4 1])) rs (timer_ l') ∧
    runs (log l') = [] ++ (runnable <$> rs) ∧ time_locked l' = false ∧
    (∀ e, tq_top (timer_ l') = Some e → outtime l' = timestamp e).
Proof.
  apply (handle_timer_runs_due sample_env 10
           (with_timers [mktimer 9 0; mktimer 20 3; mktimer 4 1])); [reflexivity|].
  intros e He Hle. cbn in He.
  repeat (apply elem_of_cons in He as [->|He]; [cbn in *; try reflexivity; lia|]).
  by apply not_elem_of_nil in He.
Defined.

Lemma runAt_in_timer_deadlocks_witness :
  (handle_timer sample_env 10 (with_timers [mktimer 4 3])).1 = Undef LockAlreadyHeld.
Proof.
  apply (runAt_in_timer_deadlocks sample_env 10 (with_timers [mktimer 4 3])
           (mktimer 4 3) 50 3%nat []); [reflexivity|reflexivity|cbn; lia|reflexivity].
Defined.

Lemma get_outtime_inverted_witness :
  (get_outtime sample_env (set_outtime 130 two_queued)).1 = Ok (Z.max 0 (100 - 130)).
Proof. apply (get_outtime_inverted sample_env (set_outtime 130 two_queued)); cbn; lia. Defined.

(** Two callbacks are queued, the second of which schedules a timer; of three timers one is
    due at the second reading of the clock. *)
Definition turn_env : env :=
  {| body := λ t, match t with 1%nat => [CRunAt 7 4%nat] | 5%nat => [CPushIdle 6%nat] | _ => [] end;
     clock := λ n, 4 + Z.of_nat n; io := λ _, [] |}.
Definition turn_state : Loop sorted_timers :=
  set_queue idle_q [0%nat; 1%nat] (with_timers [mktimer 9 0; mktimer 5 5; mktimer 20 3]).

Lemma turn_order_witness :
  ∃ l' rs left, turn turn_env turn_state = (Ok tt, l') ∧ rs ++ left ≡ₚ [mktimer 7 4; mktimer 5 5; mktimer 9 0; mktimer 20 3] ∧
    Forall (λ e, timestamp e ≤ 5) rs ∧ Forall (λ e, 5 < timestamp e) left ∧
    runs (log l') = [0%nat; 1%nat; 5%nat; 6%nat].
Proof.
  destruct (turn_order turn_env turn_state) as (l' & rs & left & H1 & _ & H2 & _ & H3 & H4 & H5 & _).
  - split; [|done|].
    + by intros [|[|[|[|[|[|t]]]]]].
    + intros e He Hle. cbn in He.
      repeat (apply elem_of_cons in He as [->|He]; [cbn in *; try reflexivity; lia|]).
      by apply not_elem_of_nil in He.
  - reflexivity.
  - exists l', rs, left. split; [done|]. split; [done|]. split; [done|]. split; [done|].
    assert (l' = (turn turn_env turn_state).2) as -> by (by rewrite H1). vm_compute. reflexivity.
Defined.

Lemma quit_before_run_is_lost_witness :
  (run calm_sample 1000 (quit (Loop_new : Loop sorted_timers)).2).1 = NoFuel.
Proof.
  apply (quit_before_run_is_lost calm_sample 1000 Loop_new);
    [exact calm_sample_calm|by split|reflexivity].
Defined.

Lemma run_returns_after_quit_witness :
  ∃ l', run {| body := λ _, []; clock := λ n, Z.of_nat n;
               io := λ n, match n with 4%nat => [CQuit] | _ => [] end |}
            6 (Loop_new : Loop sorted_timers) = (Ok tt, l') ∧ Loop_destroy l' = Ok tt.
Proof.
  apply (run_returns_after_quit _ 4 6 Loop_new);
    [constructor; [done|by intros [|[|[|[|[|]]]]]]|reflexivity|reflexivity|cbn; lia].
Defined.

Lemma loop_main_prints_and_quits_witness :
  main_run 2 5 8 = (Ok tt, [0%nat; 1%nat]).
Proof. apply (loop_main_prints_and_quits 2 5). lia. Defined.
