(* ===== verification/LoopThreads.v ===== *)
(** * LoopThreads: [set/loop/Loop.cpp] and the threads that call it

    [Loop] follows the thread that runs the loop.  Here other threads call [pushIdle],
    [pushRunable], [runAt], [quit] and [registerIoHandle] meanwhile.  Of each thread only what it does to the
    mutexes and to the members it shares with the others is kept, one access at a time, and
    of the members the value of [is_quit_]; what the callbacks do is arbitrary.  A race is a state in which two threads are both
    about to access the same member. *)

From S2P Require Import Prelude.

(** [idle_mut_], [run_mut_], [time_mut_]. *)
Inductive lock : Type := MIdle | MRun | MTime.
(** [idle_], [runable_], [timer_], [is_quit_], [io_handle_]. *)
Inductive member : Type := OIdle | ORunable | OTimer | OQuit | OHandle.

#[global] Instance lock_eq_dec : EqDecision lock.
Proof. solve_decision. Defined.
#[global] Instance member_eq_dec : EqDecision member.
Proof. solve_decision. Defined.

(** [SSet b] writes [is_quit_]; [STest] is the test of it in [run]. *)
Inductive stmt : Type :=
| SLock (m : lock) | SUnlock (m : lock) | SUse (o : member) | SSet (b : bool) | STest.

#[global] Instance stmt_eq_dec : EqDecision stmt.
Proof. solve_decision. Defined.

(** The member a statement accesses. *)
Definition touches (i : stmt) : option member :=
  match i with SUse o => Some o | SSet _ | STest => Some OQuit | _ => None end.

(** ** The functions *)

(** [push_runnable], and [runAt], which has the same shape. *)
Definition push_prog (o : member) (m : lock) : list stmt := [SLock m; SUse o; SUnlock m].

Inductive lcall : Type := LPushIdle | LPushRunable | LRunAt | LQuit | LRegister.

#[global] Instance lcall_eq_dec : EqDecision lcall.
Proof. solve_decision. Defined.

Definition call_prog (c : lcall) : list stmt :=
  match c with
  | LPushIdle => push_prog ORunable MIdle
  | LPushRunable => push_prog OIdle MRun
  | LRunAt => push_prog OTimer MTime
  | LQuit => [SSet true]
  | LRegister => [SUse OHandle]
  end.
Definition calls_prog (cs : list lcall) : list stmt := cs ≫= call_prog.

(** [handle_runnable]: the swap under the mutex, then the callbacks, which make the calls
    [cs] between them. *)
Definition handle_runnable_prog (o : member) (m : lock) (cs : list lcall) : list stmt :=
  push_prog o m ++ calls_prog cs.

(** [handle_timer]: for each timer that is due [empty]/[top], its callback, and [pop]; and
    a last look at the queue. *)
Definition timer_prog (cs : list lcall) : list stmt :=
  SUse OTimer :: calls_prog cs ++ [SUse OTimer].
Definition handle_timer_prog (css : list (list lcall)) : list stmt :=
  SLock MTime :: (css ≫= timer_prog) ++ [SUse OTimer; SUnlock MTime].

(** A turn of [run]: what the callbacks of the first queue, the I/O handle, the timers and
    the callbacks of the second queue call. *)
Record tcalls : Type := mkturn {
  of_idle : list lcall; of_io : list lcall; of_timers : list (list lcall); of_runable : list lcall
}.
(** [handle_io_source]: the handle is tested, called through, and calls back. *)
Definition handle_io_prog (cs : list lcall) : list stmt := SUse OHandle :: calls_prog cs.
Definition turn_prog (c : tcalls) : list stmt :=
  handle_runnable_prog OIdle MIdle (of_idle c) ++ handle_io_prog (of_io c) ++
  handle_timer_prog (of_timers c) ++ handle_runnable_prog ORunable MRun (of_runable c).

(** [run]: the flag is cleared, and tested before each turn. *)
Definition run_prog : list stmt := [SSet false; STest].

(** ** States and steps *)

Record lstate : Type := mklstate {
  owner : lock → option nat;
  is_quit : bool;
  turn_no : nat;                (** how many turns have begun *)
  progs : list (list stmt)
}.

Definition upd {A} (f : lock → A) (m : lock) (a : A) : lock → A :=
  λ x, if decide (x = m) then a else f x.

Section Steps.
(** What is called from within each turn. *)
Variable turns : nat → tcalls.

(** The next statement of thread [t]; [None]: it is done, or waits for a mutex.  The test
    leaves the loop, or begins a turn at whose end it is made again. *)
Definition lstep (t : nat) (s : lstate) : option lstate :=
  match progs s !! t with
  | Some (i :: k) =>
      let go o q n k := Some (mklstate o q n (<[t := k]> (progs s))) in
      match i with
      | SLock m => match owner s m with
                   | None => go (upd (owner s) m (Some t)) (is_quit s) (turn_no s) k
                   | Some _ => None
                   end
      | SUnlock m => go (upd (owner s) m None) (is_quit s) (turn_no s) k
      | SUse _ => go (owner s) (is_quit s) (turn_no s) k
      | SSet b => go (owner s) b (turn_no s) k
      | STest => if is_quit s then go (owner s) (is_quit s) (turn_no s) k
                 else go (owner s) (is_quit s) (S (turn_no s)) (turn_prog (turns (turn_no s)) ++ STest :: k)
      end
  | _ => None
  end.

Definition any_lstep (s s' : lstate) : Prop := ∃ t, lstep t s = Some s'.
End Steps.

Definition all_done (s : lstate) : Prop := Forall (λ k, k = []) (progs s).

(** Thread 0 runs the loop, the others are clients; [Loop()] sets the flag. *)
Definition loop_start (clients : list (list lcall)) : lstate :=
  mklstate (λ _, None) true 0 (run_prog :: (calls_prog <$> clients)).

(** Thread [t] is about to access [o]. *)
Definition uses (s : lstate) (t : nat) (o : member) : Prop :=
  ∃ i k, progs s !! t = Some (i :: k) ∧ touches i = Some o.

(** [run] has cleared the flag. *)
Definition entered (s : lstate) : Prop := ∀ t k, progs s !! t = Some k → SSet false ∉ k.

(** ** The discipline

    [follows g h k]: a thread that holds the mutexes [h] and goes on with [k] accesses each
    member [o] with the mutex [g o] held, releases what it takes, and takes [time_mut_]
    before the others. *)
Definition may_lock (h : lock → bool) (m : lock) : bool :=
  match m with
  | MTime => negb (h MIdle || h MRun || h MTime)
  | _ => negb (h MIdle || h MRun)
  end.

Fixpoint follows (g : member → option lock) (h : lock → bool) (k : list stmt) : bool :=
  match k with
  | [] => negb (h MIdle || h MRun || h MTime)
  | SLock m :: k => may_lock h m && follows g (upd h m true) k
  | SUnlock m :: k => h m && follows g (upd h m false) k
  | SUse o :: k => match g o with Some m => h m | None => true end && follows g h k
  | SSet _ :: k => follows g h k
  | STest :: k => negb (h MIdle || h MRun || h MTime) && follows g h k
  end.

(** A client holds the mutex of the function it is in; the loop's thread also empties the
    queues, under the other mutex. *)
Definition client_guard (o : member) : option lock :=
  match o with OIdle => Some MRun | ORunable => Some MIdle | OTimer => Some MTime | _ => None end.
Definition loop_guard (o : member) : option lock :=
  match o with OTimer => Some MTime | _ => None end.
Definition guard (t : nat) : member → option lock :=
  match t with O => loop_guard | _ => client_guard end.

Lemma follows_ext g h h' k : (∀ m, h m = h' m) → follows g h k = follows g h' k.
Proof.
  revert h h'. induction k as [|[m|m|o|b|] k IH]; intros h h' E; cbn [follows].
  - by rewrite !E.
  - rewrite (IH (upd h m true) (upd h' m true)) by (intros x; unfold upd; by rewrite E).
    destruct m; cbn; by rewrite !E.
  - rewrite (IH (upd h m false) (upd h' m false)) by (intros x; unfold upd; by rewrite E). by rewrite E.
  - rewrite (IH h h') by done. destruct (g o); by rewrite ?E.
  - by apply IH.
  - by rewrite (IH h h'), !E by done.
Qed.

(** ** The functions follow it *)

Definition none : lock → bool := λ _, false.
Definition timing : lock → bool := upd none MTime true.

(** [neutral g h p]: [p] may stand before anything that holds [h]. *)
Definition neutral (g : member → option lock) (h : lock → bool) (p : list stmt) : Prop :=
  ∀ k, follows g h k = true → follows g h (p ++ k) = true.

Lemma neutral_nil g h : neutral g h [].
Proof. by intros k. Qed.
Lemma neutral_app g h p q : neutral g h p → neutral g h q → neutral g h (p ++ q).
Proof. intros Hp Hq k Hk. rewrite <- app_assoc. by apply Hp, Hq. Qed.
Lemma neutral_bind {A} g h (f : A → list stmt) l :
  Forall (λ a, neutral g h (f a)) l → neutral g h (l ≫= f).
Proof. induction 1 as [|a l Ha _ IH]; [apply neutral_nil|]. by apply (neutral_app g h (f a)). Qed.

Lemma neutral_use g h o :
  match g o with Some m => h m | None => true end = true → neutral g h [SUse o].
Proof. intros Ho k Hk. cbn. by rewrite Ho. Qed.

Lemma neutral_set g h b : neutral g h [SSet b].
Proof. by intros k. Qed.

Lemma neutral_push g h o m :
  may_lock h m = true → h m = false → match g o with Some m' => upd h m true m' | None => true end = true →
  neutral g h (push_prog o m).
Proof.
  intros Hm Hh Ho k Hk. cbn [push_prog app follows]. rewrite Hm, Ho. cbn [andb].
  assert (upd h m true m = true) as -> by (unfold upd; by rewrite decide_True). cbn [andb].
  rewrite <- Hk. apply follows_ext. intros x. unfold upd. case_decide; [by subst|done].
Qed.

(** What a callback may call without [time_mut_], and with it. *)
Lemma calls_neutral g cs :
  g = client_guard ∨ g = loop_guard → neutral g none (calls_prog cs).
Proof.
  intros Hg. apply neutral_bind. apply Forall_forall. intros c _.
  destruct c; [by apply neutral_push; destruct Hg as [-> | ->]..|apply neutral_set|].
  by apply neutral_use; destruct Hg as [-> | ->].
Qed.
Lemma timer_calls_neutral cs : LRunAt ∉ cs → neutral loop_guard timing (calls_prog cs).
Proof.
  intros Hc. apply neutral_bind. apply Forall_forall. intros c Hin.
  destruct c; [by apply neutral_push..|done|apply neutral_set|by apply neutral_use].
Qed.

Lemma handle_timer_neutral css :
  Forall (λ cs, LRunAt ∉ cs) css → neutral loop_guard none (handle_timer_prog css).
Proof.
  intros Hc k Hk. cbn [handle_timer_prog app follows].
  apply andb_true_intro. split; [done|].
  rewrite <- app_assoc. apply (neutral_bind loop_guard timing timer_prog).
  - apply (Forall_impl _ _ _ Hc). intros cs Hcs.
    apply (neutral_app _ _ [SUse OTimer]); [by apply neutral_use|].
    apply neutral_app; [by apply timer_calls_neutral|by apply neutral_use].
  - cbn. rewrite <- Hk. apply follows_ext. by intros [].
Qed.

Definition timers_ok (c : tcalls) : Prop := Forall (λ cs, LRunAt ∉ cs) (of_timers c).

Lemma handle_runnable_neutral o m cs :
  o ≠ OTimer → m ≠ MTime → neutral loop_guard none (handle_runnable_prog o m cs).
Proof.
  intros Ho Hm. apply neutral_app; [|by apply calls_neutral; right].
  apply neutral_push; [by destruct m|done|by destruct o].
Qed.

Lemma turn_neutral c : timers_ok c → neutral loop_guard none (turn_prog c).
Proof.
  intros Hc. apply neutral_app; [by apply handle_runnable_neutral|].
  apply neutral_app.
  { apply (neutral_app _ _ [SUse OHandle]); [by apply neutral_use|by apply calls_neutral; right]. }
  apply neutral_app; [by apply handle_timer_neutral|by apply handle_runnable_neutral].
Qed.

Lemma client_follows cs : follows client_guard none (calls_prog cs) = true.
Proof. rewrite <- (app_nil_r (calls_prog cs)). by apply calls_neutral; [left|]. Qed.

(** ** The invariant *)

Definition holds (s : lstate) (t : nat) : lock → bool := λ m, bool_decide (owner s m = Some t).

Record disciplined (s : lstate) : Prop := {
  di_follows t k : progs s !! t = Some k → follows (guard t) (holds s t) k = true;
  di_owner m t : owner s m = Some t → is_Some (progs s !! t)
}.

(** A step of [t] that changes what it holds, and nothing else. *)
Lemma disciplined_update s t k k' o' q n :
  disciplined s → progs s !! t = Some k →
  (∀ m u, u ≠ t → o' m = Some u ↔ owner s m = Some u) →
  follows (guard t) (λ m, bool_decide (o' m = Some t)) k' = true →
  disciplined (mklstate o' q n (<[t := k']> (progs s))).
Proof.
  intros [Hf Ho] Ht Hu Hk'. pose proof (lookup_lt_Some _ _ _ Ht) as Hlt. split.
  - intros u c Hq. cbn [progs] in Hq. destruct (decide (u = t)) as [->|Hne].
    + rewrite list_lookup_insert_eq in Hq by done. by injection Hq as <-.
    + rewrite list_lookup_insert_ne in Hq by done. rewrite <- (Hf u c Hq). apply follows_ext.
      intros m. apply bool_decide_ext. by apply Hu.
  - intros m u Hm. cbn [owner progs] in *. destruct (decide (u = t)) as [->|Hne].
    + by rewrite list_lookup_insert_eq.
    + rewrite list_lookup_insert_ne by done. by apply (Ho m), Hu.
Qed.

(** Only the loop's thread makes the test. *)
Definition tests_in_loop (s : lstate) : Prop :=
  ∀ t k, progs s !! t = Some k → STest ∈ k → t = 0%nat.

(** The calls do not make the test, and do not clear the flag. *)
Definition plain (i : stmt) : bool := match i with STest | SSet false => false | _ => true end.

Lemma calls_plain cs : Forall (λ i, plain i = true) (calls_prog cs).
Proof. apply Forall_bind, Forall_forall. intros c _. by destruct c; repeat constructor. Qed.

Lemma turn_plain c : Forall (λ i, plain i = true) (turn_prog c).
Proof.
  unfold turn_prog, handle_runnable_prog, handle_io_prog, handle_timer_prog.
  rewrite !Forall_app, !Forall_cons, !Forall_app. split_and!; try apply calls_plain; try (by repeat constructor).
  apply Forall_bind, Forall_forall. intros cs _.
  apply Forall_cons_2; [done|]. apply Forall_app_2; [apply calls_plain|by repeat constructor].
Qed.

Lemma plain_not i k : Forall (λ i, plain i = true) k → plain i = false → i ∉ k.
Proof. intros Hk Hi Hin. apply (proj1 (Forall_forall _ _) Hk) in Hin. congruence. Qed.

Section Invariant.
Context (turns : nat → tcalls) (Hturns : ∀ n, timers_ok (turns n)).

Lemma lstep_progs t s s' :
  lstep turns t s = Some s' → ∃ i k, progs s !! t = Some (i :: k) ∧
    (i ≠ STest ∨ is_quit s = true) ∧ progs s' = <[t := k]> (progs s) ∨
    i = STest ∧ is_quit s = false ∧ progs s !! t = Some (i :: k) ∧
    progs s' = <[t := turn_prog (turns (turn_no s)) ++ STest :: k]> (progs s).
Proof.
  unfold lstep. destruct (progs s !! t) as [[|i k]|] eqn:Et; try done. intros H. exists i, k.
  destruct i as [m|m|o|b|]; [destruct (owner s m); [done|]|..|destruct (is_quit s) eqn:Eq];
    injection H as <-; cbn; auto.
Qed.

Lemma tests_step s s' : tests_in_loop s → any_lstep turns s s' → tests_in_loop s'.
Proof.
  intros Hi [t H] u c Hu Hin. apply lstep_progs in H as (i & k & [(Et & _ & E)|(-> & _ & Et & E)]); rewrite E in Hu;
    apply list_lookup_insert_Some in Hu as [(-> & <- & _)|[_ Hu]]; try (by eapply Hi).
  - apply (Hi u _ Et). by right.
  - apply (Hi u _ Et). by left.
Qed.

Lemma disciplined_step s s' : tests_in_loop s → disciplined s → any_lstep turns s s' → disciplined s'.
Proof.
  intros Htest Hd [t H]. unfold lstep in H. destruct (progs s !! t) as [[|i k]|] eqn:Et; try done.
  pose proof (di_follows s Hd t _ Et) as Hf.
  destruct i as [m|m|o|b|]; cbn [follows] in Hf.
  - destruct (owner s m) eqn:Em; [done|]. injection H as <-. apply andb_prop in Hf as [_ Hf].
    apply (disciplined_update s t (SLock m :: k)); [done|done| |].
    + intros x u Hu. unfold upd. case_decide; [subst; rewrite Em; split; congruence|done].
    + rewrite <- Hf. apply follows_ext. intros x. unfold upd, holds. case_decide; [by rewrite bool_decide_true|done].
  - injection H as <-. apply andb_prop in Hf as [Hm Hf]. unfold holds in Hm. apply bool_decide_eq_true in Hm.
    apply (disciplined_update s t (SUnlock m :: k)); [done|done| |].
    + intros x u Hu. unfold upd. case_decide; [subst; rewrite Hm; split; congruence|done].
    + rewrite <- Hf. apply follows_ext. intros x. unfold upd, holds. case_decide; [by rewrite bool_decide_false|done].
  - injection H as <-. apply andb_prop in Hf as [_ Hf]. by apply (disciplined_update s t (SUse o :: k)).
  - injection H as <-. by apply (disciplined_update s t (SSet b :: k)).
  - apply andb_prop in Hf as [Hn Hf].
    destruct (is_quit s); injection H as <-; (eapply disciplined_update; [done|exact Et|done|]); [done|].
    assert (t = 0%nat) as -> by (apply (Htest t _ Et); by left).
    assert (∀ m, holds s 0 m = none m) as E.
    { intros m. apply negb_true_iff in Hn. apply orb_false_iff in Hn as [[H1 H2]%orb_false_iff H3]. by destruct m. }
    rewrite (follows_ext _ _ none) by exact E. apply (turn_neutral _ (Hturns _)). cbn.
    rewrite <- Hf. apply follows_ext. intros m. symmetry. apply E.
Qed.

Lemma disciplined_start clients : disciplined (loop_start clients) ∧ tests_in_loop (loop_start clients).
Proof.
  split; [split; [|done]|]; intros t k Hk.
  - rewrite (follows_ext _ _ none) by done. destruct t as [|t]; cbn in Hk; [by injection Hk as <-|].
    apply list_lookup_fmap_Some in Hk as (cs & -> & _). apply client_follows.
  - destruct t as [|t]; [done|]. cbn in Hk. apply list_lookup_fmap_Some in Hk as (cs & -> & _).
    intros Hin. by apply (plain_not STest _ (calls_plain cs) eq_refl) in Hin.
Qed.

Lemma disciplined_reachable clients s : rtc (any_lstep turns) (loop_start clients) s → disciplined s.
Proof.
  intros Hr. destruct (disciplined_start clients) as [H0 T0]. revert H0 T0.
  induction Hr as [|s1 s2 s3 H12 _ IH]; [done|]. intros H T.
  apply IH; [by eapply disciplined_step|by eapply tests_step].
Qed.
End Invariant.

(** ** Races and deadlocks *)

(** A guarded access is made by the owner of the mutex. *)
Lemma guarded_holds s t o m :
  disciplined s → guard t o = Some m → uses s t o → owner s m = Some t.
Proof.
  intros Hd Hg (i & k & Hk & Hi). pose proof (di_follows s Hd t _ Hk) as Hf.
  destruct i as [m'|m'|o'|b|]; try done; injection Hi as <-; [|by destruct t..].
  cbn [follows] in Hf. rewrite Hg in Hf. apply andb_prop in Hf as [Hf _]. by apply bool_decide_eq_true in Hf.
Qed.

(** An access under a mutex excludes every other access under it. *)
Lemma guarded_alone s t u o m :
  disciplined s → guard t o = Some m → guard u o = Some m → uses s t o → uses s u o → t = u.
Proof.
  intros Hd Gt Gu Ht Hu. pose proof (guarded_holds s t o m Hd Gt Ht).
  pose proof (guarded_holds s u o m Hd Gu Hu). congruence.
Qed.

Section Progress.
Variable turns : nat → tcalls.

(** A thread that cannot go on waits for a mutex that is taken. *)
Lemma stuck_waits s t i k :
  progs s !! t = Some (i :: k) → lstep turns t s = None → ∃ m u, i = SLock m ∧ owner s m = Some u.
Proof.
  unfold lstep. intros ->. destruct i as [m|m|o|b|]; [|try done..].
  - destruct (owner s m) as [u|] eqn:E; [|done]. intros _. by exists m, u.
  - by destruct (is_quit s).
Qed.

(** The owner of a mutex has something left to do. *)
Lemma owner_continues s m u :
  disciplined s → owner s m = Some u → ∃ i k, progs s !! u = Some (i :: k) ∧ follows (guard u) (holds s u) (i :: k) = true.
Proof.
  intros Hd Hm. destruct (di_owner s Hd m u Hm) as [k Hk]. pose proof (di_follows s Hd u k Hk) as Hf.
  destruct k as [|i k]; [|by exists i, k]. exfalso. cbn [follows] in Hf. unfold holds in Hf.
  destruct m; rewrite (bool_decide_true _ Hm), ?orb_true_r in Hf; done.
Qed.

(** The owner of one of the two inner mutexes never waits. *)
Lemma inner_owner_steps s m u :
  disciplined s → owner s m = Some u → m ≠ MTime → is_Some (lstep turns u s).
Proof.
  intros Hd Hm Hne. destruct (owner_continues s m u Hd Hm) as (i & k & Hk & Hf).
  destruct (lstep turns u s) eqn:El; [by eexists|]. exfalso.
  destruct (stuck_waits s u i k Hk El) as (m' & v & -> & _).
  cbn [follows] in Hf. apply andb_prop in Hf as [Hf _]. unfold may_lock, holds in Hf.
  destruct m; [| |done]; destruct m'; rewrite (bool_decide_true _ Hm), ?orb_true_r in Hf; done.
Qed.

Lemma owner_steps s m u : disciplined s → owner s m = Some u → ∃ v, is_Some (lstep turns v s).
Proof.
  intros Hd Hm. destruct (decide (m = MTime)) as [->|Hne]; [|exists u; by eapply inner_owner_steps].
  destruct (owner_continues s MTime u Hd Hm) as (i & k & Hk & Hf).
  destruct (lstep turns u s) eqn:El; [exists u; rewrite El; by eexists|].
  destruct (stuck_waits s u i k Hk El) as (m' & v & -> & Hv).
  exists v. apply (inner_owner_steps s m' v Hd Hv). intros ->.
  cbn [follows] in Hf. apply andb_prop in Hf as [Hf _]. unfold may_lock, holds in Hf.
  by rewrite (bool_decide_true _ Hm), !orb_true_r in Hf.
Qed.

Lemma loop_progress s : disciplined s → all_done s ∨ ∃ s', any_lstep turns s s'.
Proof.
  intros Hd. destruct (decide (all_done s)) as [|Hn]; [by left|]. right.
  apply not_Forall_Exists, Exists_exists in Hn as (k & Hin & Hk); [|apply _].
  apply list_elem_of_lookup in Hin as [t Ht]. destruct k as [|i k]; [by destruct Hk|].
  destruct (lstep turns t s) as [s'|] eqn:El; [by exists s', t|].
  destruct (stuck_waits s t i k Ht El) as (m & u & _ & Hm).
  destruct (owner_steps s m u Hd Hm) as [v [s' Hs]]. by exists s', v.
Qed.

(** Once the flag is set and nobody clears it any more, each step is one statement less. *)
Definition left_over (s : lstate) : nat := sum_list_with length (progs s).

Lemma entered_step s s' : entered s → any_lstep turns s s' → entered s'.
Proof.
  intros He [t H] u c Hu. apply lstep_progs in H as (i & k & [(Et & _ & E)|(-> & _ & Et & E)]); rewrite E in Hu;
    apply list_lookup_insert_Some in Hu as [(-> & <- & _)|[_ Hu]]; try (by eapply He).
  - intros Hin. apply (He u _ Et). by right.
  - intros [Hin|Hin]%elem_of_app; [by apply (plain_not (SSet false) _ (turn_plain _) eq_refl) in Hin|]. by apply (He u _ Et).
Qed.

Lemma quit_stays s s' : entered s → is_quit s = true → any_lstep turns s s' → is_quit s' = true.
Proof.
  intros He Hq [t H]. unfold lstep in H. destruct (progs s !! t) as [[|i k]|] eqn:Et; try done.
  destruct i as [m|m|o|b|]; [destruct (owner s m); [done|]|..|rewrite Hq in H]; injection H as <-; try done.
  destruct b; [done|]. by destruct (He t _ Et); left.
Qed.

Lemma step_left s s' : is_quit s = true → any_lstep turns s s' → left_over s = S (left_over s').
Proof.
  intros Hq [t H]. apply lstep_progs in H as (i & k & [(Et & _ & E)|(_ & Hq' & _)]); [|congruence].
  pose proof (sum_insert length (progs s) t _ k Et) as Hs. cbn [length] in Hs.
  unfold left_over. rewrite E. lia.
Qed.

Lemma steps_left n s s' :
  entered s → is_quit s = true → nsteps (any_lstep turns) n s s' → left_over s = (n + left_over s')%nat.
Proof.
  intros He Hq Hn. induction Hn as [|n s1 s2 s3 H12 _ IH]; [done|].
  rewrite (step_left _ _ Hq H12), IH; [lia|by eapply entered_step|by eapply quit_stays].
Qed.

(** The loop's thread ends only with the flag set. *)
Definition loop_shape (s : lstate) : Prop :=
  (∀ t k, progs s !! t = Some k → SSet false ∈ k → t = 0%nat ∧ k = run_prog) ∧
  ∃ k, progs s !! 0%nat = Some k ∧ (k = [] ∧ is_quit s = true ∨ ∃ k', k = k' ++ [STest] ∧ STest ∉ k').

Lemma shape_start clients : loop_shape (loop_start clients).
Proof.
  split; [|exists run_prog; split; [done|]; right; exists [SSet false]; split; [done|]; by rewrite elem_of_cons, elem_of_nil; intros [|]].
  intros [|t] k Hk Hin; cbn in Hk; [by injection Hk as <-|].
  apply list_lookup_fmap_Some in Hk as (cs & -> & _). exfalso.
  by apply (plain_not (SSet false) _ (calls_plain cs) eq_refl) in Hin.
Qed.

(** The flag is cleared at the beginning of [run] only. *)
Lemma shape_flag s s' t :
  loop_shape s → lstep turns t s = Some s' → is_quit s = true → is_quit s' = false → progs s !! 0%nat = Some run_prog.
Proof.
  intros [Hc _] H Hq Hq'. unfold lstep in H. destruct (progs s !! t) as [[|i k]|] eqn:Et; try done.
  assert (i = SSet false) as ->.
  { destruct i as [m|m|o|b|]; [destruct (owner s m); [done|]|..|rewrite Hq in H]; injection H as <-; cbn in Hq'; congruence. }
  by destruct (Hc t _ Et ltac:(by left)) as [-> <-].
Qed.

Lemma shape_step s s' : loop_shape s → any_lstep turns s s' → loop_shape s'.
Proof.
  intros Hsh [t H]. pose proof Hsh as [Hc (k0 & Hk0 & Hs)]. pose proof (shape_flag s s' t Hsh H) as Hfl.
  apply lstep_progs in H as (i & k & Hp).
  assert (progs s !! t = Some (i :: k)) as Et by (destruct Hp as [Hp|Hp]; apply Hp).
  pose proof (lookup_lt_Some _ _ _ Et) as Hlt. split.
  - intros u c Hu Hin. destruct Hp as [(_ & _ & E)|(-> & _ & _ & E)]; rewrite E in Hu;
      apply list_lookup_insert_Some in Hu as [(-> & <- & _)|[_ Hu]]; try (by eapply Hc); exfalso.
    + destruct (Hc u _ Et ltac:(by right)) as [_ [= -> ->]]. by apply list_elem_of_singleton in Hin.
    + apply elem_of_app in Hin as [Hin|Hin]; [by apply (plain_not (SSet false) _ (turn_plain _) eq_refl) in Hin|].
      by destruct (Hc u _ Et Hin) as [_ [=]].
  - destruct (decide (t = 0%nat)) as [->|Hne].
    + rewrite Hk0 in Et. injection Et as ->. destruct Hs as [[? _]|(k' & Ek & Hk')]; [done|].
      destruct Hp as [(_ & Hq & E)|(-> & Hq & _ & E)]; rewrite E; eexists; (split; [by apply list_lookup_insert_eq|]).
      * destruct k' as [|i' k']; injection Ek as -> ->; [left; split; [done|]|].
        -- destruct Hq as [Hq|Hq]; [done|]. destruct (is_quit s') eqn:Eq'; [done|].
           specialize (Hfl Hq eq_refl). by rewrite Hk0 in Hfl.
        -- right. exists k'. split; [done|]. by intros ?; apply Hk'; right.
      * right. destruct k' as [|i' k']; [|injection Ek as <- _; by destruct Hk'; left]. injection Ek as ->.
        eexists. split; [done|]. by apply plain_not; [apply turn_plain|].
    + exists k0. split.
      { destruct Hp as [(_ & _ & E)|(_ & _ & _ & E)]; rewrite E; by rewrite list_lookup_insert_ne. }
      destruct Hs as [[-> Hq]|Hs]; [left; split; [done|]|by right].
      destruct (is_quit s') eqn:Eq'; [done|]. specialize (Hfl Hq eq_refl). by rewrite Hk0 in Hfl.
Qed.

Lemma shape_reachable clients s : rtc (any_lstep turns) (loop_start clients) s → loop_shape s.
Proof.
  intros Hr. pose proof (shape_start clients) as H0. revert H0.
  induction Hr as [|s1 s2 s3 H12 _ IH]; [done|]. intros H. by eapply IH, shape_step.
Qed.

(** From a state in which the flag is set for good, every run ends. *)
Definition winds_down (s : lstate) : Prop :=
  ∀ n s', nsteps (any_lstep turns) n s s' →
    (n ≤ left_over s)%nat ∧ ((∀ s'', ¬ any_lstep turns s' s'') → all_done s' ∧ n = left_over s).

Lemma done_left s : all_done s → left_over s = 0%nat.
Proof. unfold all_done, left_over. induction 1 as [|k l -> _ IH]; [done|]. by rewrite sum_cons, IH. Qed.

Lemma quit_winds_down s :
  (∀ s', rtc (any_lstep turns) s s' → disciplined s') → entered s → is_quit s = true → winds_down s.
Proof.
  intros Hd He Hq n s' Hn. pose proof (steps_left n s s' He Hq Hn) as Hl. split; [lia|].
  intros Hst. destruct (loop_progress s') as [Hdone|[s'' H]].
  - apply Hd. by apply (rtc_nsteps_2 n).
  - split; [done|]. rewrite (done_left s' Hdone) in Hl. lia.
  - by destruct (Hst s'').
Qed.
End Progress.

(** ** The theorems *)

(** C22: The loop and its clients.  Whatever the callbacks and the other threads call, as
    long as no timer callback calls [runAt], in every state that is reached: the timers
    are not accessed by two threads at once, and neither are the queues by two clients, so
    that a race on a queue involves the thread of the loop; some thread can go on, unless
    all are done; [run] has returned only if [is_quit_] is set; and once [run] has cleared
    the flag, a call of [quit], from whatever thread, makes every run end: [run] finishes
    its turn and returns, and all threads are done after as many steps as they have
    statements left. *)
Theorem loop_threads_share turns clients s :
  (∀ n, timers_ok (turns n)) → rtc (any_lstep turns) (loop_start clients) s →
  (∀ t u o, t ≠ u → uses s t o → uses s u o →
     o ≠ OTimer ∧ (o = OQuit ∨ o = OHandle ∨ t = 0%nat ∨ u = 0%nat)) ∧
  (all_done s ∨ ∃ s', any_lstep turns s s') ∧
  (progs s !! 0%nat = Some [] → is_quit s = true) ∧
  (∀ t k s', entered s → progs s !! t = Some (call_prog LQuit ++ k) → lstep turns t s = Some s' →
     winds_down turns s').
Proof.
  intros Ht Hr. pose proof (disciplined_reachable turns Ht clients s Hr) as Hd. split_and!.
  - intros t u o Hne Hu1 Hu2. split.
    + intros ->. apply Hne. apply (guarded_alone s t u OTimer MTime Hd); [by destruct t|by destruct u|done..].
    + destruct t as [|t]; [auto|]. destruct u as [|u]; [auto|].
      destruct o; [exfalso; apply Hne..|by left|by right; left].
      * by apply (guarded_alone s _ _ OIdle MRun Hd).
      * by apply (guarded_alone s _ _ ORunable MIdle Hd).
      * by apply (guarded_alone s _ _ OTimer MTime Hd).
  - by apply loop_progress.
  - intros H0. destruct (shape_reachable turns clients s Hr) as (_ & k & Hk & [[_ Hq]|(k' & -> & _)]); [done|].
    rewrite H0 in Hk. by destruct k'.
  - intros t k s' He Hk H. assert (any_lstep turns s s') as Hst by (by exists t).
    apply quit_winds_down; [|by eapply entered_step|unfold lstep in H; rewrite Hk in H; by injection H as <-].
    intros s2 H2. apply (disciplined_reachable turns Ht clients). etrans; [exact Hr|by eapply rtc_l].
Qed.

(** ** The races that are left *)

Section Schedules.
Variable turns : nat → tcalls.

Fixpoint lschedule (ts : list nat) (s : lstate) : option lstate :=
  match ts with
  | [] => Some s
  | t :: ts => match lstep turns t s with Some s' => lschedule ts s' | None => None end
  end.

Lemma lschedule_nsteps ts s s' : lschedule ts s = Some s' → nsteps (any_lstep turns) (length ts) s s'.
Proof.
  revert s. induction ts as [|t ts IH]; intros s; cbn; [intros [= <-]; constructor|].
  destruct (lstep turns t s) as [s1|] eqn:E; [|done]. intros H. econstructor; [by exists t|by apply IH].
Qed.
End Schedules.

Definition quiet_turn : tcalls := mkturn [] [] [] [].

(** Whether [t] is about to access [o]. *)
Definition uses_b (s : lstate) (t : nat) (o : member) : bool :=
  match progs s !! t with Some (i :: _) => bool_decide (touches i = Some o) | _ => false end.
Lemma uses_spec s t o : uses_b s t o = true → uses s t o.
Proof.
  unfold uses_b, uses. destruct (progs s !! t) as [[|i k]|]; try done.
  intros H%bool_decide_eq_true. by exists i, k.
Qed.

(** Finding.  A turn of the loop and one call of another thread are enough for a race on
    each of the two queues, on [is_quit_], which is a plain [bool], and on [io_handle_]: the
    mutex of a push is not the one of the stage that empties the queue, and the other two
    members have none. *)
Theorem loop_races_reachable :
  ∀ o c, (o, c) ∈ [(OIdle, LPushRunable); (ORunable, LPushIdle); (OQuit, LQuit); (OHandle, LRegister)] →
  ∃ s, rtc (any_lstep (λ _, quiet_turn)) (loop_start [[c]]) s ∧ uses s 0 o ∧ uses s 1 o.
Proof.
  assert (∀ ts o c, match lschedule (λ _, quiet_turn) ts (loop_start [[c]]) with
                    | Some s => uses_b s 0 o && uses_b s 1 o | None => false end = true →
            ∃ s, rtc (any_lstep (λ _, quiet_turn)) (loop_start [[c]]) s ∧ uses s 0 o ∧ uses s 1 o) as H.
  { intros ts o c H. destruct (lschedule _ ts _) as [s|] eqn:E; [|done]. exists s.
    apply andb_prop in H as [H1 H2]. split; [by eapply rtc_nsteps_2, lschedule_nsteps|]. by split; apply uses_spec. }
  intros o c Hin. repeat (apply elem_of_cons in Hin as [[= -> ->]|Hin]); [..|by apply elem_of_nil in Hin].
  - apply (H [0; 0; 0; 1]%nat). reflexivity.
  - apply (H [0; 0; 0; 0; 0; 0; 0; 0; 0; 0; 1]%nat). reflexivity.
  - apply (H []). reflexivity.
  - apply (H [0; 0; 0; 0; 0]%nat). reflexivity.
Qed.

(** *** Witness *)

Definition busy_turn : tcalls := mkturn [LPushIdle] [LRunAt] [[LPushRunable]] [LRegister].
Definition busy_clients : list (list lcall) := [[LRunAt; LPushIdle; LQuit; LRegister]].
Definition busy (n : nat) : tcalls := busy_turn.
(** The loop clears the flag and makes two turns; the client comes to its [quit]. *)
Definition before_quit : list nat := replicate 54 0%nat ++ replicate 6 1%nat.

(** After the [quit] the loop ends its third turn. *)
Lemma loop_threads_share_witness :
  ∃ s s' s'', lschedule busy before_quit (loop_start busy_clients) = Some s ∧
    lstep busy 1 s = Some s' ∧ winds_down busy s' ∧
    lschedule busy (1%nat :: replicate 17 0%nat) s' = Some s'' ∧ all_done s''.
Proof.
  assert (∀ n, timers_ok (busy n)) as Ht
    by (intros n; constructor; [|constructor]; by rewrite elem_of_cons, elem_of_nil; intros [|]).
  eexists _, _, _. split; [vm_compute; reflexivity|].
  match goal with |- lstep _ _ ?s = _ ∧ _ =>
    destruct (loop_threads_share busy busy_clients s Ht) as (_ & _ & _ & H) end.
  { eapply rtc_nsteps_2, (lschedule_nsteps _ before_quit). vm_compute. reflexivity. }
  split; [vm_compute; reflexivity|]. split.
  - eapply (H 1%nat); [|vm_compute; reflexivity|vm_compute; reflexivity].
    intros [|[|t]] k Hk; [injection Hk as <-..|done];
      intros Hin; repeat (apply elem_of_cons in Hin as [?|Hin]; [done|]); by apply elem_of_nil in Hin.
  - split; [vm_compute; reflexivity|]. by repeat constructor.
Defined.
