(* ===== verification/RttServer.v ===== *)
(** * RttServer: [set/rtt/rtt_server.h] and [set/rtt/rtt_server.cpp]

    The server keeps a [pollfd] array (slot 0 for the listening socket), the
    connectors by descriptor, and per connection a [Translation] with a read and
    a write buffer.  [startDomain] is the service loop; its body is split below
    along the branches of the source. *)

From S2P Require Import Prelude Endian Buffer ByteQueue Sys Sockops Reactor Rtt Loop.

(** ** Translations *)

Inductive TranslationState : Type := UNKNOW | CONNECTTING | CONNECTED | STOP.

(** [state_] has no initialiser. *)
Record Translation : Type := mkTranslation {
  state_ : option TranslationState; rbuffer : circulation_buffer; wbuffer : circulation_buffer
}.

(** Each buffer is move-constructed from a temporary. *)
Definition Translation_new : outcome Translation :=
  r ← circulation_buffer_new (3 * sizeof_rtt_package);
  w ← circulation_buffer_new (3 * sizeof_rtt_package);
  Ok {| state_ := None; rbuffer := (move_construct r).1; wbuffer := (move_construct w).1 |}.

Definition translation_init (t : Translation) : Translation :=
  {| state_ := Some CONNECTED; rbuffer := rbuffer t; wbuffer := wbuffer t |}.

Definition translation_destory (t : Translation) : Translation :=
  {| state_ := state_ t; rbuffer := retrieve_all (rbuffer t); wbuffer := retrieve_all (wbuffer t) |}.

Definition set_rbuffer (t : Translation) (b : circulation_buffer) : Translation :=
  {| state_ := state_ t; rbuffer := b; wbuffer := wbuffer t |}.
Definition set_wbuffer (t : Translation) (b : circulation_buffer) : Translation :=
  {| state_ := state_ t; rbuffer := rbuffer t; wbuffer := b |}.

(** ** The server's state *)

(** [heap] holds the [Translation] objects the connectors' [std::any] point to.
    [loop_] lives in the constructor's thread, [poll_] is the reactor [start]
    registers with, and the thread pool [pool_] is never given a task. *)
Record RttServer : Type := mkServer {
  fds : list pollfd;
  translations_ : gmap Z Connector;
  acceptor_ : Accept;
  heap : gmap nat Translation
}.

Definition set_fds (s : RttServer) (l : list pollfd) : RttServer :=
  {| fds := l; translations_ := translations_ s; acceptor_ := acceptor_ s; heap := heap s |}.
Definition set_translation (s : RttServer) (p : nat) (t : Translation) : RttServer :=
  {| fds := fds s; translations_ := translations_ s; acceptor_ := acceptor_ s;
     heap := <[p := t]> (heap s) |}.

(** [fds[i].events |= on; fds[i].events &= ~off] *)
Definition arm (s : RttServer) (i : nat) (on off : Z) : RttServer :=
  set_fds s (alter (λ p, {| fd := fd p; events := Z.ldiff (Z.lor (events p) on) off;
                            revents := revents p |}) i (fds s)).

Definition dispose (s : RttServer) (i : nat) : outcome RttServer :=
  match fds s !! i with
  | None => Undef OutOfBounds
  | Some p =>
      Ok {| fds := <[i := {| fd := -1; events := 0; revents := revents p |}]> (fds s);
            translations_ := delete (fd p) (translations_ s);
            acceptor_ := acceptor_ s; heap := heap s |}
  end.

(** [std::find_if] for a free slot, filled in place, or a new slot. *)
Fixpoint place (connected_fd : Z) (l : list pollfd) : list pollfd :=
  match l with
  | [] => [{| fd := connected_fd; events := Z.lor POLLIN POLLERR; revents := 0 |}]
  | p :: l =>
      if fd p =? -1
      then {| fd := connected_fd; events := Z.lor POLLIN POLLERR; revents := revents p |} :: l
      else p :: place connected_fd l
  end.

(** The local [transaction] dies with the call: the [setData] that would hand it
    to the connector is commented out. *)
Definition onNewConnect (connector : Connector) (s : RttServer) : M RttServer :=
  let connected_fd := getRawHandler connector in
  let s := set_fds s (place connected_fd (fds s)) in
  _ ← lift (cassert (negb (bool_decide (is_Some (translations_ s !! connected_fd)))));
  transaction ← lift Translation_new;
  let _ := translation_init transaction in
  mret {| fds := fds s; translations_ := <[connected_fd := connector]> (translations_ s);
          acceptor_ := acceptor_ s; heap := heap s |}.

Definition handleEvent (fd : Fd) (readable writeable errorable : bool) (s : RttServer)
    : RttServer := s.

(** [translations_[connected_fd]->getData<Translation>()]: [operator[]] makes a
    null pointer for a descriptor without connector. *)
Definition get_translation (s : RttServer) (connected_fd : Z) : outcome (nat * Translation) :=
  match translations_ s !! connected_fd with
  | None => Undef NullPointer
  | Some c =>
      p ← getData c;
      match heap s !! p with None => Undef DanglingPointer | Some t => Ok (p, t) end
  end.

(** ** One descriptor *)

(** How a branch of the loop body ends. *)
Inductive flow : Type := Fall | Continue | Return (code : Z).

(** Three [peek]/[skip] pairs, on any byte queue. *)
Definition take_package {B} `{!ByteQueueOps B} (b : B) : outcome (Z * Z * Z * B) :=
  c ← bq_peek b uint64_t; b ← bq_skip b 8;
  r ← bq_peek b uint64_t; b ← bq_skip b 8;
  s ← bq_peek b uint64_t; b ← bq_skip b 8;
  Ok (c, r, s, b).

(** The two tests after the [write] of the answer; [ws] is a [ssize_t]. *)
Definition queue_answer (wb : circulation_buffer) (pkg : list Byte.byte) (ws : Z)
    : M (circulation_buffer * bool) :=
  '(wb, armed) ←
    (if ws <=? 0 then
       _ ← print "write fail";
       e ← get_errno;
       if e =? EAGAIN then
         wb ← lift (append wb (Some <$> pkg) (sizeof_rtt_package ⊖ ws)); mret (wb, true)
       else lift AssertFail
     else mret (wb, false));
  if u64 ws <? sizeof_rtt_package then
    wb ← lift (append wb (drop (Z.to_nat ws) (Some <$> pkg)) (sizeof_rtt_package ⊖ ws));
    mret (wb, true)
  else mret (wb, armed).

Definition answer (s : RttServer) (i : nat) (connected_fd : Z) (p : nat) (t : Translation)
    : M (flow * RttServer) :=
  tv ← call sys_gettimeofday;
  '(c, _, _, rb) ← lift (take_package (rbuffer t));
  t1 ← lift (timeval2ui64 (r_int tv 0) (r_int tv 1));
  t2 ← now;
  let pkg := pkg_bytes {| c_send_ts := host2network uint64_t c;
                          s_recv_ts := host2network uint64_t t1;
                          s_send_ts := host2network uint64_t t2 |} in
  ws ← call (sys_write connected_fd pkg);
  '(wb, armed) ← queue_answer (wbuffer t) pkg (r_ret ws);
  let s := set_translation s p (set_wbuffer (set_rbuffer t rb) wb) in
  mret (Fall, if (armed : bool) then arm s i POLLOUT POLLIN else s).

(** The 1024-byte array after a [read] that returned [r]. *)
Definition read_buff (r : reply) : list cell :=
  take 1024 ((Some <$> r_bytes r) ++ replicate 1024 None).

Definition receive (s : RttServer) (i : nat) (connected_fd : Z) (r : reply)
    : M (flow * RttServer) :=
  '(p, t) ← lift (get_translation s connected_fd);
  rb ← lift (bq_append (rbuffer t) (read_buff r) (u64 (r_ret r)));
  let t := set_rbuffer t rb in
  let s := set_translation s p t in
  if bq_size rb <? sizeof_rtt_package then mret (Continue, arm s i POLLIN 0)
  else answer s i connected_fd p t.

Definition on_pollin (s : RttServer) (i : nat) (connected_fd : Z) : M (flow * RttServer) :=
  r ← call (sys_read connected_fd 1024);
  if r_ret r <=? 0 then
    _ ← print "read fail";
    if negb (r_ret r =? EAGAIN) then
      _ ← call (sys_shutdown connected_fd SHUT_RDWR);
      s ← lift (dispose s i); mret (Continue, s)
    else receive s i connected_fd r
  else receive s i connected_fd r.

(** [write(fd, wbuff.peek(), wbuff.readed_size())] reads one run from
    [readindex_] on. *)
Definition on_pollout (s : RttServer) (i : nat) (connected_fd : Z) : M RttServer :=
  _ ← print "POLLOUT";
  '(p, t) ← lift (get_translation s connected_fd);
  let wbuff := wbuffer t in
  data ← lift (c ← load (buf_ wbuff) (readindex_ wbuff) (readed_size wbuff); defined c);
  wr_num ← call (sys_write connected_fd data);
  if r_ret wr_num <? 0 then
    e ← get_errno;
    if negb (e =? EWOULDBLOCK) then
      _ ← call (sys_shutdown connected_fd SHUT_RDWR); lift (dispose s i)
    else mret (arm s i POLLOUT POLLIN)
  else if u64 (r_ret wr_num) =? readed_size wbuff then
    _ ← call (sys_shutdown connected_fd SHUT_RDWR); lift (dispose s i)
  else
    wb ← lift (skip wbuff (u64 (r_ret wr_num)));
    mret (arm (set_translation s p (set_wbuffer t wb)) i POLLOUT POLLIN).

(** [e] is not initialised, and neither is the length [getsockopt] is given: [e] has a
    value only when the kernel wrote one. *)
Definition on_pollerr (s : RttServer) (i : nat) (connected_fd : Z) : M (flow * RttServer) :=
  r ← call (sys_getsockopt connected_fd SOL_SOCKET SO_ERROR);
  match r_ints r !! 0%nat with
  | None => undef Indeterminate
  | Some e =>
      _ ← print "POLLERR";
      if e =? EINTR then mret (Continue, s)
      else s ← lift (dispose s i); mret (Return (-1), s)
  end.

Definition has (mask revents : Z) : bool := negb (Z.land revents mask =? 0).

(** The body of the loop over the descriptors, once [fd_size] is counted down. *)
Definition serve (s : RttServer) (i : nat) (p : pollfd) : M (flow * RttServer) :=
  let connected_fd := fd p in
  '(fl, s) ← (if has POLLIN (revents p) then on_pollin s i connected_fd else mret (Fall, s));
  match fl with
  | Fall =>
      s ← (if has POLLOUT (revents p) then on_pollout s i connected_fd else mret s);
      if has POLLERR (revents p) then on_pollerr s i connected_fd else mret (Fall, s)
  | _ => mret (fl, s)
  end.

Fixpoint serve_all (s : RttServer) (idx : list nat) (fd_size : Z) : M (option Z * RttServer) :=
  match idx with
  | [] => mret (None, s)
  | i :: idx =>
      match fds s !! i with
      | None => undef OutOfBounds
      | Some p =>
          if fd p =? -1 then serve_all s idx fd_size
          else if fd_size <=? 0 then mret (None, s)
          else if has POLLERR (revents p) || has POLLIN (revents p) || has POLLOUT (revents p) then
            '(fl, s) ← serve s i p;
            match fl with
            | Return c => mret (Some c, s)
            | _ => serve_all s idx (fd_size - 1)
            end
          else serve_all s idx fd_size
      end
  end.

(** One turn of [startDomain]; [Some c] when it returns [c]. *)
Definition domain_turn (s : RttServer) : M (option Z * RttServer) :=
  match fds s !! 0%nat with
  | None => undef OutOfBounds
  | Some p0 =>
      if has POLLIN (revents p0) then
        '(connector, s) ← create (acceptor_ s) onNewConnect s;
        match connector with
        | None => _ ← print "accept error"; mret (Some (-1), s)
        | Some c =>
            flag ← call (sys_fcntl (getRawHandler c) F_GETFL 0);
            _ ← (if 0 <=? r_ret flag then
                   if negb (Z.lor (r_ret flag) O_NONBLOCK =? 0)
                   then print "connect fd inhert" else print "connect fd can't inhert"
                 else mret tt);
            serve_all s (seq 1 (length (fds s) - 1)) 0
        end
      else serve_all s (seq 1 (length (fds s) - 1)) 1
  end.

Fixpoint startDomain (fuel : nat) (s : RttServer) : M (Z * RttServer) :=
  match fuel with
  | O => lift NoFuel
  | S fuel =>
      '(r, s) ← domain_turn s;
      match r with Some c => mret (c, s) | None => startDomain fuel s end
  end.

(** ** Construction and [main] *)

(** What the server's loop meets: no callback is ever queued, and its I/O handle
    (the reactor) calls [handleEvent], which does nothing. *)
Definition server_env (clock : nat → Z) : env :=
  {| body := λ _, []; Loop.clock := clock; io := λ _, [] |}.

(** The local [Thread] of the constructor runs the loop and is joined when the
    constructor's body ends; an exception of the loop ends the thread. *)
Definition RttServer_new (fuel : nat) (clock : nat → Z) : M RttServer :=
  acceptor ← Accept_new LISTEN_SHARED;
  let acceptor := setOnNewConnect acceptor in
  let '(o, _) := (registerIoHandle ≫= λ _, run (server_env clock) fuel)
                   (Loop_new : Loop sorted_timers) in
  match o with
  | Ok _ | Throw _ =>
      mret {| fds := []; translations_ := ∅; acceptor_ := acceptor; heap := ∅ |}
  | AssertFail => lift AssertFail | Undef u => undef u
  | Exit c => lift (Exit c) | NoFuel => lift NoFuel
  end.

(** [start()] registers the acceptor with the reactor made by the constructor. *)
Definition start (s : RttServer) : M Z :=
  _ ← build (acceptor_ s) (Some (registerEventFun Poll_new "handleEvent")) "127.0.0.1" 9909;
  mret 1.

Definition server_main (fuel : nat) (clock : nat → Z) : M Z :=
  s ← RttServer_new fuel clock; start s.
