(* ===== verification/RttServerSpec.v ===== *)
(** * RttServerSpec: what the handler does, and where the server stops

    Requests are consumed through the interface of [ByteQueue].  The first half
    follows the branches of [startDomain] for a connection whose connector carries
    a [Translation]: segmentation of a request, the answer, partial writes, and the
    client of [Rtt] put together with it.  [onNewConnect] attaches no such object
    (its [setData] is commented out), so these lemmas describe the handler's code
    and not a run of the program as it is; what such a run does is in the findings
    of this file and in [RttDomain]. *)

From S2P Require Import Prelude Endian Buffer BufferSpec ByteQueue.
From S2P Require Import Sys Sockops Reactor Rtt Loop LoopSpec RttServer.
From coqutil Require Import Byte Word.LittleEndianList.

(** ** Consuming a request, on any byte queue *)

Section consume.
Context {B : Type} `{!ByteQueueOps B, !ByteQueue B}.

Lemma take_u64 (b : B) q :
  bq_rep b q → 8 ≤ lenZ q →
  ∃ b', bq_peek b uint64_t = Ok (field q 0) ∧ bq_skip b 8 = Ok b' ∧
        bq_rep b' (drop 8 q) ∧ bq_room b ≤ bq_room b'.
Proof.
  intros Hrep Hl. destruct (bq_skip_rep b q 8 Hrep) as (b' & Hs & Hrep' & Hroom); [lia|].
  exists b'. split; [|done]. by apply bq_peek_rep.
Qed.

Lemma take_package_rep (b : B) q :
  bq_rep b q → 24 ≤ lenZ q →
  ∃ b', take_package b = Ok (field q 0, field q 1, field q 2, b') ∧
        bq_rep b' (drop 24 q) ∧ bq_room b ≤ bq_room b'.
Proof.
  intros Hrep Hl. unfold lenZ in Hl.
  assert (Hd : ∀ n, lenZ (drop n q) = Z.of_nat (length q - n)) by (intros; unfold lenZ; by rewrite length_drop).
  destruct (take_u64 b q Hrep) as (b1 & P1 & S1 & R1 & O1); [unfold lenZ; lia|].
  destruct (take_u64 b1 _ R1) as (b2 & P2 & S2 & R2 & O2); [rewrite Hd; lia|].
  rewrite drop_drop in R2.
  destruct (take_u64 b2 _ R2) as (b3 & P3 & S3 & R3 & O3); [rewrite Hd; lia|].
  rewrite drop_drop in R3. exists b3. split; [|split; [done|lia]].
  unfold take_package. rewrite P1. cbn [mbind outcome_bind]. rewrite S1. cbn [mbind outcome_bind].
  rewrite P2. cbn [mbind outcome_bind]. rewrite S2. cbn [mbind outcome_bind].
  rewrite P3. cbn [mbind outcome_bind]. rewrite S3. cbn [mbind outcome_bind].
  unfold field. cbn [Nat.mul Nat.add]. by rewrite !drop_0.
Qed.
End consume.

(** ** Receiving *)

(** The connection on [fd] has its translation [t] at [p]. *)
Definition connected (s : RttServer) (fd : Z) (p : nat) (t : Translation) : Prop :=
  (∃ c, translations_ s !! fd = Some c ∧ data_ c = any_pointer p) ∧ heap s !! p = Some t.

Lemma get_translation_connected s fd p t :
  connected s fd p t → get_translation s fd = Ok (p, t).
Proof.
  intros [(c & Hc & Hd) Hp]. unfold get_translation, getData. rewrite Hc, Hd.
  cbn [mbind outcome_bind]. by rewrite Hp.
Qed.

Lemma connected_update s fd p t t' :
  connected s fd p t → connected (set_translation s p t') fd p t'.
Proof. intros [Hc _]. split; [done|]. apply lookup_insert_eq. Qed.

Lemma connected_arm s fd p t i on off : connected s fd p t → connected (arm s i on off) fd p t.
Proof. done. Qed.

Lemma read_buff_data d :
  lenZ d ≤ 1024 → ∃ rest, read_buff (data_reply d) = (Some <$> d) ++ rest.
Proof.
  intros Hd. unfold read_buff, lenZ in *. cbn [r_bytes data_reply].
  rewrite take_app_ge by (rewrite length_fmap; lia). by eexists.
Qed.

(** What [receive] has before it counts the bytes. *)
Lemma receive_append s fd p t q d :
  connected s fd p t → bq_rep (rbuffer t) q → 0 < lenZ d ≤ 1024 →
  lenZ d ≤ bq_room (rbuffer t) →
  ∃ rb, bq_append (rbuffer t) (read_buff (data_reply d)) (u64 (lenZ d)) = Ok rb ∧
        bq_rep rb (q ++ d) ∧ bq_room rb = bq_room (rbuffer t) - lenZ d.
Proof.
  intros Hc Hrep Hd Hroom. destruct (read_buff_data d) as [rest ->]; [lia|].
  rewrite u64_small by lia. by apply bq_append_rep.
Qed.

Lemma on_pollin_receive s i fd d cs rs k w :
  replies k (trace w) (sys_read fd 1024 :: cs) (data_reply d :: rs) → 0 < lenZ d →
  let w1 := advance w (sys_read fd 1024) (data_reply d) in
  on_pollin s i fd k w = receive s i fd (data_reply d) k w1 ∧ replies k (trace w1) cs rs.
Proof.
  intros Hr Hd. destruct (call_replies _ _ _ _ _ _ Hr) as [Hc Hr'].
  split; [|done]. unfold on_pollin. rewrite (run_bind_Ok _ _ _ _ _ _ Hc).
  cbn [r_ret data_reply]. by rewrite (proj2 (Z.leb_gt (lenZ d) 0)).
Qed.

Lemma pollin_short s i fd p t q d cs rs k w :
  connected s fd p t → bq_rep (rbuffer t) q → 0 < lenZ d ≤ 1024 →
  lenZ d ≤ bq_room (rbuffer t) → lenZ (q ++ d) < 24 →
  replies k (trace w) (sys_read fd 1024 :: cs) (data_reply d :: rs) →
  ∃ rb, let s' := arm (set_translation s p (set_rbuffer t rb)) i POLLIN 0 in
        let w' := advance w (sys_read fd 1024) (data_reply d) in
    on_pollin s i fd k w = (Ok (Continue, s'), w') ∧ replies k (trace w') cs rs ∧
    bq_rep rb (q ++ d) ∧ bq_room rb = bq_room (rbuffer t) - lenZ d.
Proof.
  intros Hc Hrep Hd Hroom Hs Hr.
  destruct (on_pollin_receive s i fd d cs rs k w Hr) as [-> Hr']; [lia|].
  destruct (receive_append s fd p t q d) as (rb & Ha & Hrb & Hro); try done.
  exists rb. split; [|done]. unfold receive.
  rewrite (get_translation_connected s fd p t Hc). sys_run.
  cbn [r_ret data_reply]. rewrite Ha. sys_run.
  rewrite (bq_size_rep rb _ Hrb), (proj2 (Z.ltb_lt _ _)) by done. done.
Qed.

(** ** Answering *)

Lemma answer_image c t1 t2 :
  pkg_bytes {| c_send_ts := host2network uint64_t c; s_recv_ts := host2network uint64_t t1;
               s_send_ts := host2network uint64_t t2 |} = answer_bytes c t1 t2.
Proof.
  unfold pkg_bytes, answer_bytes. cbn [c_send_ts s_recv_ts s_send_ts].
  change 8%nat with (sizeof uint64_t). by rewrite !host2network_image.
Qed.

Lemma length_answer_bytes c t1 t2 : length (answer_bytes c t1 t2) = 24%nat.
Proof. unfold answer_bytes. by rewrite !length_app, !length_be_split. Qed.

(** The clock readings that [tv] and [tv'] carry. *)
Definition stamped (tv : reply) (t : Z) : Prop := timeval2ui64 (r_int tv 0) (r_int tv 1) = Ok t.

Definition answer_calls (fd : Z) (ans : list Byte.byte) : list syscall :=
  [sys_gettimeofday; sys_gettimeofday; sys_write fd ans].

(** Up to the [write]: the answer echoes the client's stamp. *)
Lemma answer_write s i fd p t q tv1 tv2 rw t1 t2 cs rs k w :
  bq_rep (rbuffer t) q → 24 ≤ lenZ q → stamped tv1 t1 → stamped tv2 t2 →
  let ans := answer_bytes (field q 0) t1 t2 in
  replies k (trace w) (answer_calls fd ans ++ cs) ([tv1; tv2; rw] ++ rs) →
  ∃ rb w', bq_rep rb (drop 24 q) ∧ bq_room (rbuffer t) ≤ bq_room rb ∧
    trace w' = trace w ++ zip (answer_calls fd ans) [tv1; tv2; rw] ∧
    replies k (trace w') cs rs ∧
    answer s i fd p t k w =
      ('(wb, armed) ← queue_answer (wbuffer t) ans (r_ret rw);
       let s := set_translation s p (set_wbuffer (set_rbuffer t rb) wb) in
       mret (Fall, if (armed : bool) then arm s i POLLOUT POLLIN else s)) k w'.
Proof.
  intros Hrep Hl Ht1 Ht2 ans Hr.
  destruct (take_package_rep _ _ Hrep Hl) as (rb & Htp & Hrb & Hroom).
  destruct (call_replies _ _ _ _ _ _ Hr) as [Hc1 Hr1].
  destruct (call_replies _ _ _ _ _ _ Hr1) as [Hc2 Hr2].
  destruct (call_replies _ _ _ _ _ _ Hr2) as [Hc3 Hr3].
  eexists rb, _. split; [done|]. split; [done|]. split; [|split; [exact Hr3|]].
  { cbn. by rewrite <- !app_assoc. }
  unfold answer. rewrite (run_bind_Ok _ _ _ _ _ _ Hc1), Htp, run_lift_bind.
  unfold stamped in *. rewrite Ht1, run_lift_bind.
  rewrite (run_bind_Ok now _ _ _ t2 (advance (advance w sys_gettimeofday tv1) sys_gettimeofday tv2))
    by (unfold now; rewrite (run_bind_Ok _ _ _ _ _ _ Hc2), Ht2; done).
  cbv zeta. rewrite answer_image. by rewrite (run_bind_Ok _ _ _ _ _ _ Hc3).
Qed.

Lemma pollin_full s i fd p t q d tv1 tv2 rw t1 t2 k w :
  connected s fd p t → bq_rep (rbuffer t) q → 0 < lenZ d ≤ 1024 →
  lenZ d ≤ bq_room (rbuffer t) → 24 ≤ lenZ (q ++ d) → stamped tv1 t1 → stamped tv2 t2 →
  let ans := answer_bytes (field (q ++ d) 0) t1 t2 in
  let cs := sys_read fd 1024 :: answer_calls fd ans in
  let rs := [data_reply d; tv1; tv2; rw] in
  replies k (trace w) cs rs →
  ∃ rb rb' w', bq_rep rb' (drop 24 (q ++ d)) ∧ trace w' = trace w ++ zip cs rs ∧
    on_pollin s i fd k w =
      ('(wb, armed) ← queue_answer (wbuffer t) ans (r_ret rw);
       let s := set_translation (set_translation s p (set_rbuffer t rb)) p
                                (set_wbuffer (set_rbuffer (set_rbuffer t rb) rb') wb) in
       mret (Fall, if (armed : bool) then arm s i POLLOUT POLLIN else s)) k w'.
Proof.
  intros Hc Hrep Hd Hroom Hl Ht1 Ht2 ans cs rs Hr.
  destruct (on_pollin_receive s i fd d _ _ k w Hr) as [Hrun Hr']; [lia|]. rewrite Hrun.
  destruct (receive_append s fd p t q d) as (rb & Ha & Hrb & Hro); try done.
  destruct (answer_write (set_translation s p (set_rbuffer t rb)) i fd p (set_rbuffer t rb)
              (q ++ d) tv1 tv2 rw t1 t2 [] [] k (advance w (sys_read fd 1024) (data_reply d)))
    as (rb' & w' & Hrb' & _ & Htr & _ & Hans); try done.
  exists rb, rb', w'. split; [done|]. split.
  { rewrite Htr. cbn. by rewrite <- !app_assoc. }
  unfold receive. rewrite (get_translation_connected s fd p t Hc), run_lift_bind.
  cbn [r_ret data_reply]. rewrite Ha, run_lift_bind. cbv zeta.
  rewrite (bq_size_rep rb _ Hrb), (proj2 (Z.ltb_ge (lenZ (q ++ d)) _)) by done.
  exact Hans.
Qed.

(** ** The tests after the [write] *)

Lemma queue_answer_full wb pkg k w : queue_answer wb pkg 24 k w = (Ok (wb, false), w).
Proof. reflexivity. Qed.

Lemma cells_drop n (l : list Byte.byte) : drop n (Some <$> l) = (Some <$> drop n l) ++ [].
Proof. by rewrite app_nil_r, fmap_drop. Qed.

Lemma queue_answer_partial wb q pkg ws k w :
  length pkg = 24%nat → bq_rep wb q → 24 ≤ bq_room wb → 0 < ws < 24 →
  ∃ wb', queue_answer wb pkg ws k w = (Ok (wb', true), w) ∧
         bq_rep wb' (q ++ drop (Z.to_nat ws) pkg).
Proof.
  intros Hl Hrep Hroom Hws.
  assert (Hd : lenZ (drop (Z.to_nat ws) pkg) = 24 - ws)
    by (unfold lenZ; rewrite length_drop; lia).
  destruct (bq_append_rep wb q (drop (Z.to_nat ws) pkg) [] Hrep) as (wb' & Ha & Hrep' & _); [lia|].
  exists wb'. split; [|done]. unfold queue_answer.
  rewrite (proj2 (Z.leb_gt ws 0)) by lia.
  rewrite (run_bind_Ok _ _ _ _ (wb, false) w) by done.
  rewrite (u64_small ws), (proj2 (Z.ltb_lt ws _)) by (unfold sizeof_rtt_package; lia).
  unfold sizeof_rtt_package. rewrite (u64_small (24 - ws)) by lia.
  rewrite cells_drop, <- Hd. change append with bq_append. by rewrite Ha.
Qed.

(** ** A request in pieces *)

(** [POLLIN] handled [n] times on the same descriptor, until a request is
    answered. *)
Fixpoint pollin_times (n : nat) (s : RttServer) (i : nat) (fd : Z) : M (flow * RttServer) :=
  match n with
  | O => mret (Continue, s)
  | S n =>
      '(fl, s) ← on_pollin s i fd;
      match fl with Continue => pollin_times n s i fd | _ => mret (fl, s) end
  end.

Lemma segmentation chunks s i fd p t q tv1 tv2 rw t1 t2 k w :
  connected s fd p t → bq_rep (rbuffer t) q → lenZ (concat chunks) ≤ bq_room (rbuffer t) →
  Forall (λ d, 0 < lenZ d) chunks → chunks ≠ [] → lenZ (q ++ concat chunks) = 24 →
  stamped tv1 t1 → stamped tv2 t2 → r_ret rw = 24 →
  let ans := answer_bytes (field (q ++ concat chunks) 0) t1 t2 in
  let cs := replicate (length chunks) (sys_read fd 1024) ++ answer_calls fd ans in
  let rs := (data_reply <$> chunks) ++ [tv1; tv2; rw] in
  replies k (trace w) cs rs →
  ∃ s' t' w', pollin_times (length chunks) s i fd k w = (Ok (Fall, s'), w') ∧
    trace w' = trace w ++ zip cs rs ∧ connected s' fd p t' ∧
    bq_rep (rbuffer t') [] ∧ wbuffer t' = wbuffer t.
Proof.
  intros Hc Hrep Hroom Hne Hnil Hl Ht1 Ht2 Hrw.
  revert s t q w Hc Hrep Hroom Hnil Hl.
  induction chunks as [|d chunks IH]; intros s t q w Hc Hrep Hroom Hnil Hl; [done|].
  intros ans cs rs Hr. inversion Hne as [|? ? Hd Hne']; subst.
  cbn [concat] in Hroom, Hl. rewrite !lenZ_app in Hl. rewrite lenZ_app in Hroom.
  pose proof (lenZ_nonneg (concat chunks)) as Hrest. pose proof (lenZ_nonneg q) as Hq0.
  destruct chunks as [|d' chunks].
  - subst ans cs rs. cbn [concat] in *. rewrite !app_nil_r in *.
    change (lenZ []) with 0 in *.
    destruct (pollin_full s i fd p t q d tv1 tv2 rw t1 t2 k w)
      as (rb & rb' & w' & Hrb' & Htr & Hrun); try done; try (rewrite ?lenZ_app; lia).
    rewrite Hrw, (run_bind_Ok _ _ _ _ _ _ (queue_answer_full _ _ _ _)) in Hrun.
    eexists _, _, w'. cbn [length pollin_times].
    rewrite (run_bind_Ok _ _ _ _ _ _ Hrun). split; [done|]. split; [done|].
    split; [by eapply connected_update, connected_update|]. split; [|done].
    cbn. rewrite drop_ge in Hrb'; [done|]. unfold lenZ in *. rewrite length_app. lia.
  - assert (0 < lenZ (concat (d' :: chunks))).
    { inversion Hne'; subst. cbn [concat]. rewrite lenZ_app.
      pose proof (lenZ_nonneg (concat chunks)). lia. }
    destruct (pollin_short s i fd p t q d _ _ k w Hc Hrep ltac:(lia) ltac:(lia)
                ltac:(rewrite lenZ_app; lia) Hr) as (rb & Hrun & Hr' & Hrb & Hro).
    cbn [length pollin_times] in *. rewrite (run_bind_Ok _ _ _ _ _ _ Hrun).
    destruct (IH Hne' (arm (set_translation s p (set_rbuffer t rb)) i POLLIN 0)
                (set_rbuffer t rb) (q ++ d) (advance w (sys_read fd 1024) (data_reply d)))
      as (s' & t' & w' & E' & Htr & Hc' & Hrb' & Hwb); try done.
    + by eapply connected_arm, connected_update.
    + cbn [set_rbuffer rbuffer]. lia.
    + rewrite !lenZ_app. lia.
    + rewrite <- app_assoc. exact Hr'.
    + exists s', t', w'. split; [done|]. split; [|done].
      rewrite Htr. subst ans cs rs. cbn [concat]. rewrite <- app_assoc. cbn.
      by rewrite <- !app_assoc.
Qed.

(** Request and answer, on a connector that carries a translation.  However the 24 bytes of a request are cut into
    reads, the server answers once, after the last of them, with 24 bytes in
    network order: the client's stamp unchanged, and the two clock readings taken
    around the processing; both buffers are then empty of it. *)
Theorem request_any_segmentation chunks s i fd p t tv1 tv2 rw t1 t2 k w :
  connected s fd p t → bq_rep (rbuffer t) [] → 24 ≤ bq_room (rbuffer t) →
  Forall (λ d, 0 < lenZ d) chunks → length (concat chunks) = 24%nat →
  stamped tv1 t1 → stamped tv2 t2 → r_ret rw = 24 →
  let ans := answer_bytes (field (concat chunks) 0) t1 t2 in
  let cs := replicate (length chunks) (sys_read fd 1024) ++ answer_calls fd ans in
  let rs := (data_reply <$> chunks) ++ [tv1; tv2; rw] in
  replies k (trace w) cs rs →
  ∃ s' t' w', pollin_times (length chunks) s i fd k w = (Ok (Fall, s'), w') ∧
    trace w' = trace w ++ zip cs rs ∧ connected s' fd p t' ∧
    bq_rep (rbuffer t') [] ∧ wbuffer t' = wbuffer t.
Proof.
  intros Hc Hrep Hroom Hne Hl. apply (segmentation chunks s i fd p t []); try done.
  - unfold lenZ. by rewrite Hl.
  - by intros ->.
  - unfold lenZ. cbn. by rewrite Hl.
Qed.

(** ** Partial writes and [POLLOUT] *)

(** The bytes handed to [write] are the queued ones. *)
Lemma pollout_data b q :
  bq_rep b q →
  (c ← load (buf_ b) (readindex_ b) (readed_size b); defined c) = Ok q.
Proof.
  intros Hrep. pose proof (lenZ_nonneg q).
  rewrite (bq_size_rep b q Hrep : readed_size b = _). destruct Hrep as [Hrep Hlin].
  rewrite (window_linear b q (lenZ q) Hrep) by lia. cbn [mbind outcome_bind].
  unfold lenZ. by rewrite Nat2Z.id, take_ge, defined_fmap.
Qed.

(** [POLLOUT] up to the tests on what [write] returned. *)
Lemma on_pollout_writes s i fd p t q o rw cs rs k w :
  connected s fd p t → bq_rep (wbuffer t) q →
  replies k (trace w) (sys_print "POLLOUT" :: sys_write fd q :: cs) (o :: rw :: rs) →
  0 ≤ r_ret rw ≤ lenZ q → lenZ q < 2 ^ 62 →
  let w2 := advance (advance w (sys_print "POLLOUT") o) (sys_write fd q) rw in
  replies k (trace w2) cs rs ∧
  on_pollout s i fd k w =
    (if r_ret rw =? lenZ q then _ ← call (sys_shutdown fd SHUT_RDWR); lift (dispose s i)
     else wb ← lift (bq_skip (wbuffer t) (r_ret rw));
          mret (arm (set_translation s p (set_wbuffer t wb)) i POLLOUT POLLIN)) k w2.
Proof.
  intros Hc Hrep Hr Hn Hmax w2.
  destruct (call_replies _ _ _ _ _ _ Hr) as [Hc1 Hr1].
  destruct (call_replies _ _ _ _ _ _ Hr1) as [Hc2 Hr2]. split; [done|].
  unfold on_pollout. rewrite (run_bind_Ok (print _) _ _ _ tt (advance w (sys_print "POLLOUT") o))
    by (unfold print; by rewrite (run_bind_Ok _ _ _ _ _ _ Hc1)).
  rewrite (get_translation_connected s fd p t Hc), run_lift_bind. cbv zeta.
  rewrite (pollout_data _ _ Hrep), run_lift_bind, (run_bind_Ok _ _ _ _ _ _ Hc2).
  rewrite (proj2 (Z.ltb_ge (r_ret rw) 0)), u64_small by lia.
  by rewrite (bq_size_rep _ _ Hrep : readed_size (wbuffer t) = _).
Qed.

(** Partial writes, on a connector that carries a translation.  When [write] takes [ws] bytes of the answer, the server
    queues the rest and arms [POLLOUT]; the next [POLLOUT] writes exactly the
    missing bytes, so that the peer sees the whole answer once, and, when they
    are all taken, shuts the connection down and frees its slot. *)
Theorem partial_answer_completed s i fd p t ans ws o rw k w k' w' :
  length ans = 24%nat → bq_rep (wbuffer t) [] → 24 ≤ bq_room (wbuffer t) → 0 < ws < 24 →
  ∃ wb, queue_answer (wbuffer t) ans ws k w = (Ok (wb, true), w) ∧
    let rest := drop (Z.to_nat ws) ans in
    take (Z.to_nat ws) ans ++ rest = ans ∧
    (connected s fd p (set_wbuffer t wb) → r_ret rw = lenZ rest →
     replies k' (trace w') [sys_print "POLLOUT"; sys_write fd rest] [o; rw] →
     on_pollout s i fd k' w' =
       (_ ← call (sys_shutdown fd SHUT_RDWR); lift (dispose s i)) k'
         (advance (advance w' (sys_print "POLLOUT") o) (sys_write fd rest) rw)).
Proof.
  intros Hl Hrep Hroom Hws.
  destruct (queue_answer_partial (wbuffer t) [] ans ws k w) as (wb & Hq & Hwb); try done.
  exists wb. split; [done|]. cbv zeta. split; [apply take_drop|]. intros Hc Hrw Hr.
  assert (lenZ (drop (Z.to_nat ws) ans) ≤ 24) by (unfold lenZ; rewrite length_drop; lia).
  pose proof (lenZ_nonneg (drop (Z.to_nat ws) ans)).
  destruct (on_pollout_writes s i fd p (set_wbuffer t wb) (drop (Z.to_nat ws) ans) o rw [] [] k' w')
    as [_ ->]; try done; try lia.
  by rewrite Hrw, Z.eqb_refl.
Qed.

(** Finding.  When [write] fails with [EAGAIN] the handler queues
    [sizeof(rtt_package) - ws] = 25 bytes of the 24-byte package: it reads past
    the object.  When [write] takes nothing and [errno] still holds [EAGAIN], both
    tests fire and the answer is queued twice. *)
Theorem failed_write_misqueues wb pkg o k w :
  length pkg = 24%nat → bq_rep wb [] → 48 ≤ bq_room wb →
  replies k (trace w) [sys_print "write fail"] [o] → r_errno o = None → errno w = EAGAIN →
  (queue_answer wb pkg (-1) k w).1 = Undef OutOfBounds ∧
  ∃ wb' w', queue_answer wb pkg 0 k w = (Ok (wb', true), w') ∧ bq_rep wb' (pkg ++ pkg).
Proof.
  intros Hl Hrep Hroom Hr Ho He. destruct (call_replies _ _ _ _ _ _ Hr) as [Hc _].
  assert (Hp : print "write fail" k w = (Ok tt, advance w (sys_print "write fail") o))
    by (unfold print; by rewrite (run_bind_Ok _ _ _ _ _ _ Hc)).
  assert (He' : errno (advance w (sys_print "write fail") o) = EAGAIN)
    by (cbn; by rewrite Ho).
  assert (Hz : lenZ pkg = 24) by (unfold lenZ; by rewrite Hl).
  unfold queue_answer, sizeof_rtt_package. split.
  - rewrite (proj2 (Z.leb_le (-1) 0)), !run_bind, Hp by lia. cbn [get_errno].
    rewrite run_bind. cbn [get_errno]. rewrite He', Z.eqb_refl.
    rewrite (ring_append_overread wb [] (Some <$> pkg) (24 ⊖ -1)); [done|done|].
    rewrite lenZ_fmap, Hz. split; [done|]. cbn in Hroom. change (24 ⊖ -1) with 25. lia.
  - destruct (bq_append_rep wb [] pkg [] Hrep) as (wb1 & Ha1 & Hr1 & Ho1); [lia|].
    destruct (bq_append_rep wb1 _ pkg [] Hr1) as (wb2 & Ha2 & Hr2 & _); [lia|].
    rewrite app_nil_r, Hz in Ha1, Ha2.
    exists wb2, (advance w (sys_print "write fail") o). split; [|done].
    rewrite Z.leb_refl, !run_bind, Hp. cbn [get_errno].
    rewrite run_bind. cbn [get_errno]. rewrite He', Z.eqb_refl.
    change (24 ⊖ 0) with 24. change append with bq_append.
    rewrite Ha1, run_lift_bind. cbn [mret M_ret].
    change (drop (Z.to_nat 0) (Some <$> pkg)) with (Some <$> pkg).
    change (u64 0 <? 24) with true. cbv iota. by rewrite Ha2.
Qed.

(** ** Faults of the server as it is *)

(** Finding.  A connection accepted by [onNewConnect] has no translation
    (the [setData] is commented out), so the first bytes the peer sends make the
    handler throw [std::bad_any_cast]. *)
Theorem new_connection_throws fd model s s' i d cs rs k w w' k2 w2 :
  let c := Connector_new fd model in
  onNewConnect c s k w = (Ok s', w') → 0 < lenZ d →
  replies k2 (trace w2) (sys_read (getRawHandler c) 1024 :: cs) (data_reply d :: rs) →
  (on_pollin s' i (getRawHandler c) k2 w2).1 = Throw bad_any_cast.
Proof.
  intros c H Hd Hr. unfold onNewConnect in H. do 2 sys_inv H. apply mret_inv in H as [-> _].
  destruct (on_pollin_receive
    {| fds := fds (set_fds s (place (getRawHandler c) (fds s)));
       translations_ := <[getRawHandler c:=c]> (translations_ s);
       acceptor_ := acceptor_ s; heap := heap s |}
    i (getRawHandler c) d cs rs k2 w2 Hr Hd) as [Hp _].
  cbn [fds translations_ acceptor_ heap set_fds] in *. rewrite Hp.
  unfold receive, get_translation. cbn [translations_].
  by rewrite lookup_insert_eq.
Qed.

(** No descriptor has anything to report. *)
Definition quiescent (s : RttServer) : Prop :=
  fds s ≠ [] ∧
  Forall (λ p, has POLLERR (revents p) || has POLLIN (revents p) || has POLLOUT (revents p) = false)
         (fds s).

Lemma serve_all_quiescent s idx n k w :
  Forall (λ i, is_Some (fds s !! i)) idx → quiescent s →
  serve_all s idx n k w = (Ok (None, s), w).
Proof.
  intros Hidx [_ Hq]. induction Hidx as [|i idx [p Hp] _ IH]; [done|].
  cbn [serve_all]. rewrite Hp. rewrite Forall_lookup in Hq. specialize (Hq i p Hp).
  destruct (fd p =? -1); [done|]. destruct (n <=? 0); [done|]. by rewrite Hq.
Qed.

Lemma domain_turn_quiescent s k w :
  quiescent s → domain_turn s k w = (Ok (None, s), w).
Proof.
  intros Hq. destruct Hq as [Hne HF]. unfold domain_turn.
  destruct (fds s) as [|p0 l] eqn:El; [done|]. cbn [lookup list_lookup].
  inversion HF as [|? ? Hp0 _]; subst. apply orb_false_iff in Hp0 as [[_ ->]%orb_false_iff _].
  rewrite serve_all_quiescent; [done| |by split; rewrite El].
  apply Forall_forall. intros i Hi. rewrite El. apply lookup_lt_is_Some.
  apply list_elem_of_In, in_seq in Hi. cbn in *. lia.
Qed.

(** Finding.  [startDomain] never calls [poll]: with no event recorded in the
    array it repeats the same turn for ever, without a single system call. *)
Theorem startDomain_spins fuel s k w :
  quiescent s → startDomain fuel s k w = (NoFuel, w).
Proof.
  intros Hq. induction fuel as [|fuel IH]; [done|]. cbn [startDomain].
  by rewrite (run_bind_Ok _ _ _ _ _ _ (domain_turn_quiescent s k w Hq)).
Qed.

(** Finding.  The server never gets to [start]: its constructor joins a thread
    that runs the event loop, and nothing ever calls [quit]. *)
Theorem server_never_starts fuel clock k w : (server_main fuel clock k w).1 = NoFuel.
Proof.
  assert (HR : (RttServer_new fuel clock k w).1 = NoFuel).
  { unfold RttServer_new, Accept_new, Socket_create, createSocket.
    set (l0 := (registerIoHandle (Loop_new : Loop sorted_timers)).2).
    assert (HL : ((registerIoHandle ≫= λ _, run (server_env clock) fuel)
                    (Loop_new : Loop sorted_timers)).1 = NoFuel).
    { apply (run_loop_diverges (server_env clock) fuel (set_quit false l0)); by repeat constructor. }
    destruct ((registerIoHandle ≫= λ _, run (server_env clock) fuel) Loop_new) as [o l] eqn:El.
    cbn [fst] in HL. subst o. sys_run. by destruct (0 <? _). }
  unfold server_main. rewrite run_bind.
  destruct (RttServer_new fuel clock k w) as [o w']. cbn in HR. by subst o.
Qed.

(** ** Client and server together *)

Definition request_bytes (t : Z) : list Byte.byte :=
  pkg_bytes {| c_send_ts := host2network uint64_t t; s_recv_ts := 0; s_send_ts := 0 |}.

(** The clock shows [t] microseconds. *)
Definition tv_reply (t : Z) : reply := ints_reply 0 [t / 1000000; t mod 1000000].

Lemma tv_reply_stamped t : 0 ≤ t < 2 ^ 62 → stamped (tv_reply t) t.
Proof.
  intros Ht. change (timeval2ui64 (t / 1000000) (t mod 1000000) = Ok t).
  pose proof (Z.mod_pos_bound t 1000000 ltac:(lia)).
  pose proof (Z.div_pos t 1000000 ltac:(lia) ltac:(lia)).
  pose proof (Z.div_mod t 1000000 ltac:(lia)) as Hdm.
  rewrite timeval2ui64_Ok by lia. f_equal. lia.
Qed.

Lemma now_replies t tv cs rs k w :
  stamped tv t → replies k (trace w) (sys_gettimeofday :: cs) (tv :: rs) →
  now k w = (Ok t, advance w sys_gettimeofday tv) ∧
  replies k (trace (advance w sys_gettimeofday tv)) cs rs.
Proof.
  intros Ht Hr. destruct (call_replies _ _ _ _ _ _ Hr) as [Hc Hr']. split; [|done].
  unfold now. by rewrite (run_bind_Ok _ _ _ _ _ _ Hc), Ht.
Qed.

(** A measurement in which every call succeeds. *)
Lemma Connect_replies sock ip port addr t t' ans tv tv' rp rc rw k w :
  r_int rp 0 = addr → 0 ≤ r_ret rp → stamped tv t → stamped tv' t' → r_ret rw = 24 →
  length ans = 24%nat →
  replies k (trace w)
    (take 6 (Connect_calls sock ip port addr (request_bytes t)))
    [rp; rc; tv; rw; data_reply ans; tv'] →
  (Connect sock ip port k w).1 =
    Ok (rtt_of (field ans 0) (field ans 1) (field ans 2) t',
        diff_of (field ans 0) (field ans 1) (field ans 2) t').
Proof.
  intros Hp Hp0 Ht Ht' Hw Hl Hr.
  destruct (call_replies _ _ _ _ _ _ Hr) as [Hc1 Hr1].
  destruct (call_replies _ _ _ _ _ _ Hr1) as [Hc2 Hr2].
  destruct (now_replies _ _ _ _ _ _ Ht Hr2) as [Hc3 Hr3].
  destruct (call_replies _ _ _ _ _ _ Hr3) as [Hc4 Hr4].
  destruct (call_replies _ _ _ _ _ _ Hr4) as [Hc5 Hr5].
  destruct (now_replies _ _ _ _ _ _ Ht' Hr5) as [Hc6 _].
  unfold Connect. rewrite (run_bind_Ok _ _ _ _ _ _ Hc1).
  rewrite (proj2 (Z.ltb_ge (r_ret rp) 0)) by done. cbv zeta. rewrite Hp.
  assert (Hcon : ∃ c, connect sock (mkaddr AF_INET (host2network uint16_t port) addr) k
                        (advance w (sys_inet_net_pton AF_INET ip) rp) = (Ok c, _))
    by (unfold connect; rewrite (run_bind_Ok _ _ _ _ _ _ Hc2); destruct (r_ret rc <? 0); by eexists).
  destruct Hcon as [c Hcon]. rewrite (run_bind_Ok _ _ _ _ _ _ Hcon).
  rewrite (run_bind_Ok _ _ _ _ _ _ Hc3).
  change (pkg_bytes _) with (request_bytes t).
  rewrite (run_bind_Ok _ _ _ _ _ _ Hc4), Hw.
  change (cassert (u64 24 =? sizeof_rtt_package)) with (Ok tt). rewrite run_lift_bind.
  rewrite (run_bind_Ok _ _ _ _ _ _ Hc5).
  cbn [r_ret r_bytes data_reply]. unfold lenZ at 1. rewrite Hl.
  change (cassert (u64 (Z.of_nat 24) =? sizeof_rtt_package)) with (Ok tt). rewrite run_lift_bind.
  rewrite (run_bind_Ok _ _ _ _ _ _ Hc6).
  destruct (pkg_of_bytes_fields ans Hl) as (-> & -> & ->). reflexivity.
Qed.

Lemma field_answer c t1 t2 :
  in_range uint64_t c → in_range uint64_t t1 → in_range uint64_t t2 →
  field (answer_bytes c t1 t2) 0 = c ∧ field (answer_bytes c t1 t2) 1 = t1 ∧
  field (answer_bytes c t1 t2) 2 = t2.
Proof.
  intros Hc H1 H2. unfold field, answer_bytes. cbn [Nat.mul Nat.add].
  assert (L : ∀ x, length (be_split 8 x) = 8%nat) by (intros; apply length_be_split).
  change 16%nat with (8 + 8)%nat. rewrite drop_0, <- drop_drop.
  rewrite (drop_app_length' (be_split 8 c)), (drop_app_length' (be_split 8 t1)) by (by rewrite L).
  rewrite !take_app_length' by (by rewrite L). rewrite take_ge by (by rewrite L).
  by rewrite !(be_combine_split uint64_t).
Qed.

Lemma field_request t : in_range uint64_t t → field (request_bytes t) 0 = t.
Proof. intros Ht. unfold field. rewrite drop_0. by apply stamped_image. Qed.

(** End to end, on a connector that carries a translation.  The client's request, read by the server in one piece, and
    the server's answer, read by the client: the client reports exactly the time
    the two packages spent on the wire, whatever the offset between the clocks
    and the time the server took. *)
Theorem rtt_end_to_end s i fd p t T0 d1 pr d2 theta sock ip port addr rw rw' rc ks ws kc wc :
  let T1 := T0 + d1 + theta in let T2 := T0 + d1 + pr + theta in
  let T3 := T0 + d1 + pr + d2 in let ans := answer_bytes T0 T1 T2 in
  Forall (λ T, 0 ≤ T < 2 ^ 62) [T0; T1; T2; T3] → 0 ≤ d1 < 2 ^ 62 → 0 ≤ d2 < 2 ^ 62 →
  connected s fd p t → bq_rep (rbuffer t) [] → 24 ≤ bq_room (rbuffer t) →
  replies ks (trace ws) (sys_read fd 1024 :: answer_calls fd ans)
    [data_reply (request_bytes T0); tv_reply T1; tv_reply T2; rw] → r_ret rw = 24 →
  replies kc (trace wc) (take 6 (Connect_calls sock ip port addr (request_bytes T0)))
    [ints_reply 32 [addr]; rc; tv_reply T0; rw'; data_reply ans; tv_reply T3] → r_ret rw' = 24 →
  (∃ s' w', on_pollin s i fd ks ws = (Ok (Fall, s'), w') ∧
            (sys_write fd ans, rw) ∈ trace w') ∧
  (Connect sock ip port kc wc).1 =
    Ok (d1 + d2, diff_of (stamp_c T0) (stamp_sr T0 d1 theta) (stamp_ss T0 d1 pr theta)
                         (stamp_recv T0 d1 pr d2)).
Proof.
  intros T1 T2 T3 ans HT Hd1 Hd2 Hc Hrep Hroom Hs Hrw Hcl Hrw'.
  repeat (apply Forall_cons in HT as [? HT]).
  assert (HR : ∀ T, 0 ≤ T < 2 ^ 62 → in_range uint64_t T)
    by (intros T HT'; unfold in_range; change (bits uint64_t) with 64; lia).
  assert (Hlen : lenZ (request_bytes T0) = 24) by (unfold lenZ, request_bytes; by rewrite length_pkg_bytes).
  split.
  - destruct (pollin_full s i fd p t [] (request_bytes T0) (tv_reply T1) (tv_reply T2) rw T1 T2 ks ws)
      as (rb & rb' & w' & _ & Htr & Hrun); rewrite ?app_nil_l, ?field_request by auto;
      try done; try lia; try (by apply tv_reply_stamped).
    rewrite app_nil_l, field_request in Hrun, Htr by auto.
    rewrite Hrw, (run_bind_Ok _ _ _ _ _ _ (queue_answer_full _ _ _ _)) in Hrun.
    eexists _, w'. split; [exact Hrun|]. rewrite Htr. apply elem_of_app. right.
    cbn. do 3 right. by left.
  - rewrite (Connect_replies sock ip port addr T0 T3 ans (tv_reply T0) (tv_reply T3)
               (ints_reply 32 [addr]) rc rw' kc wc);
      try done; try (by apply tv_reply_stamped).
    unfold ans. destruct (field_answer T0 T1 T2) as (-> & -> & ->); auto.
    pose proof (rtt_legs T0 d1 pr d2 theta) as Hrtt.
    unfold stamp_c, stamp_sr, stamp_ss, stamp_recv in *. fold T1 T2 T3 in Hrtt |- *.
    rewrite !u64_small in Hrtt |- * by lia. rewrite Hrtt. by rewrite u64_small by lia.
Qed.

(** ** Concrete runs *)

(** A server with the listening socket 3 and one connection, 7, whose translation
    is at 0. *)
Definition new_buffer : circulation_buffer := fresh 72.
Definition sample_translation : Translation :=
  {| state_ := Some CONNECTED; rbuffer := new_buffer; wbuffer := new_buffer |}.
Definition sample_server : RttServer :=
  {| fds := [mkpollfd 3 1 0; mkpollfd 7 9 0];
     translations_ := {[7 := setData (Connector_new 7 NORMAL) 0%nat]};
     acceptor_ := {| a_socket := Socket_new 3 LISTEN_SHARED; on_new_connect_ := true |};
     heap := {[0%nat := sample_translation]} |}.

Lemma sample_connected : connected sample_server 7 0 sample_translation.
Proof. split; [|reflexivity]. eexists. split; reflexivity. Defined.

Lemma new_buffer_rep : bq_rep new_buffer [].
Proof.
  split; [split; [constructor; [reflexivity|cbn; unfold padding; lia..]|reflexivity]|].
  discriminate.
Defined.

(** A request in three pieces, of 10, 6 and 8 bytes. *)
Definition sample_chunks : list (list Byte.byte) :=
  let r := request_bytes 1000000 in [take 10 r; take 6 (drop 10 r); drop 16 r].
Definition sample_replies : list reply :=
  (data_reply <$> sample_chunks) ++ [tv_reply 1000070; tv_reply 1000080; ok_reply 24].

Lemma request_any_segmentation_witness :
  let ans := answer_bytes (field (concat sample_chunks) 0) 1000070 1000080 in
  let cs := replicate (length sample_chunks) (sys_read 7 1024) ++ answer_calls 7 ans in
  ∃ s' t' w', pollin_times (length sample_chunks) sample_server 1 7
                (script sample_replies) world0 = (Ok (Fall, s'), w') ∧
    trace w' = trace world0 ++ zip cs sample_replies ∧ connected s' 7 0 t' ∧
    bq_rep (rbuffer t') [] ∧ wbuffer t' = new_buffer.
Proof.
  apply (request_any_segmentation sample_chunks sample_server 1 7 0 sample_translation
           (tv_reply 1000070) (tv_reply 1000080) (ok_reply 24) 1000070 1000080
           (script sample_replies) world0);
    [exact sample_connected|exact new_buffer_rep|cbv; discriminate
    |repeat constructor|reflexivity|reflexivity|reflexivity|reflexivity|].
  apply (replies_script sample_replies). reflexivity.
Defined.

Lemma failed_write_misqueues_witness :
  let w := {| trace := []; errno := EAGAIN |} in let pkg := answer_bytes 1 2 3 in
  (queue_answer new_buffer pkg (-1) (script [ok_reply 0]) w).1 = Undef OutOfBounds ∧
  ∃ wb' w', queue_answer new_buffer pkg 0 (script [ok_reply 0]) w = (Ok (wb', true), w') ∧
            bq_rep wb' (pkg ++ pkg).
Proof.
  apply (failed_write_misqueues new_buffer (answer_bytes 1 2 3) (ok_reply 0)
           (script [ok_reply 0]) {| trace := []; errno := EAGAIN |});
    [reflexivity|exact new_buffer_rep|cbv; discriminate|by split|reflexivity|reflexivity].
Defined.

Definition accepted : RttServer :=
  match (onNewConnect (Connector_new 8 NORMAL) sample_server (script []) world0).1 with
  | Ok s => s | _ => sample_server
  end.

Lemma new_connection_throws_witness :
  onNewConnect (Connector_new 8 NORMAL) sample_server (script []) world0 = (Ok accepted, world0) ∧
  (on_pollin accepted 2 8 (script [data_reply (request_bytes 5)]) world0).1 = Throw bad_any_cast.
Proof.
  assert (H : onNewConnect (Connector_new 8 NORMAL) sample_server (script []) world0 =
              (Ok accepted, world0)) by (vm_compute; reflexivity).
  split; [exact H|].
  apply (new_connection_throws 8 NORMAL sample_server accepted 2 (request_bytes 5) [] []
           (script []) world0 world0 (script [data_reply (request_bytes 5)]) world0);
    [exact H|reflexivity|by split].
Defined.

Lemma startDomain_spins_witness :
  startDomain 1000 sample_server (script []) world0 = (NoFuel, world0).
Proof.
  apply (startDomain_spins 1000 sample_server (script []) world0).
  split; [discriminate|repeat constructor].
Defined.

Definition server_replies : list reply :=
  [data_reply (request_bytes 1000000); tv_reply 1000070; tv_reply 1000080; ok_reply 24].
Definition client_replies : list reply :=
  [ints_reply 32 [0x0100007f]; ok_reply 0; tv_reply 1000000; ok_reply 24;
   data_reply (answer_bytes 1000000 1000070 1000080); tv_reply 1000100].

Lemma rtt_end_to_end_witness :
  (∃ s' w', on_pollin sample_server 1 7 (script server_replies) world0 = (Ok (Fall, s'), w') ∧
     (sys_write 7 (answer_bytes 1000000 (1000000 + 40 + 30) (1000000 + 40 + 10 + 30)), ok_reply 24)
       ∈ trace w') ∧
  (Connect 4 "127.0.0.1" 9966 (script client_replies) world0).1 =
    Ok (40 + 50, diff_of (stamp_c 1000000) (stamp_sr 1000000 40 30) (stamp_ss 1000000 40 10 30)
                         (stamp_recv 1000000 40 10 50)).
Proof.
  apply (rtt_end_to_end sample_server 1 7 0 sample_translation 1000000 40 10 50 30 4
           "127.0.0.1" 9966 0x0100007f (ok_reply 24) (ok_reply 24) (ok_reply 0)
           (script server_replies) world0 (script client_replies) world0);
    [repeat constructor; lia|lia|lia|exact sample_connected|exact new_buffer_rep
    |cbv; discriminate
    |apply (replies_script server_replies); reflexivity|reflexivity
    |apply (replies_script client_replies); reflexivity|reflexivity].
Defined.

(** Finding: the client asks for another port than the one the server is given. *)
Theorem client_misses_server k w w' :
  rtt_client_main k w = (Ok 0, w') →
  ∃ fd addr, sys_connect fd addr ∈ calls (trace w') ∧ sin_port addr ≠ host2network uint16_t 9909.
Proof.
  intros H. destruct (rtt_client_main_reports k w w' H) as (fd & c & w1 & w2 & v & o & _ & Hm & ->).
  destruct Hm as (addr & rq & rp & rc & tv & rw & rr & tv' & o1 & o2 & o3 & o4 & t & t' & -> & _).
  exists fd, (mkaddr AF_INET (host2network uint16_t client_port) addr). split.
  - unfold calls. rewrite !fmap_app. cbn. set_solver.
  - vm_compute. discriminate.
Qed.
