(* ===== verification/RttDomain.v ===== *)
(** * RttDomain: the table of connections and the service loop of the RTT server

    [RttServer] keeps an array of [pollfd] slots and a map from descriptors to
    connectors.  Nothing installs a listening entry, and [onNewConnect] does not
    hand the translation it makes to the connector.  This file follows the two
    operations that change the tables from the members' initial values on, and
    [startDomain] over every kernel and whatever events are recorded in the
    array. *)

From S2P Require Import Prelude Sys Sockops Reactor Buffer RttServer.

(** ** Slots *)

Definition live (l : list pollfd) : list Z := filter (λ z, z ≠ -1) (fd <$> l).

Lemma live_cons p l : live (p :: l) = if decide (fd p ≠ -1) then fd p :: live l else live l.
Proof. unfold live. by rewrite fmap_cons, filter_cons. Qed.

Lemma elem_of_live f l : f ∈ live l ↔ f ≠ -1 ∧ ∃ i p, l !! i = Some p ∧ fd p = f.
Proof.
  unfold live. rewrite list_elem_of_filter, list_elem_of_fmap. split.
  - intros (Hf & p & -> & [i Hi]%list_elem_of_lookup). eauto.
  - intros (Hf & i & p & Hi & <-). split; [done|]. exists p. split; [done|].
    by eapply list_elem_of_lookup_2.
Qed.

Lemma live_place f l :
  live (place f l) ≡ₚ (if decide (f ≠ -1) then f :: live l else live l).
Proof.
  induction l as [|p l IH]; cbn [place].
  - rewrite live_cons. done.
  - destruct (fd p =? -1) eqn:Ep; zbool; rewrite !live_cons; cbn [fd].
    + by rewrite (decide_False (P := fd p ≠ -1)) by auto.
    + rewrite !(decide_True (P := fd p ≠ -1)), IH by done.
      destruct (decide (f ≠ -1)); [apply Permutation_swap|done].
Qed.

Lemma live_free l i p ev rv :
  l !! i = Some p → fd p ≠ -1 →
  live l ≡ₚ fd p :: live (<[i := {| fd := -1; events := ev; revents := rv |}]> l).
Proof.
  revert i. induction l as [|p' l IH]; intros [|i] Hi Hp; try done; cbn in Hi.
  - injection Hi as ->. cbn [insert list_insert]. rewrite !live_cons. cbn [fd].
    by rewrite decide_True, decide_False by auto.
  - cbn [insert list_insert]. rewrite !live_cons.
    destruct (decide (fd p' ≠ -1)); rewrite (IH i Hi Hp); [apply Permutation_swap|done].
Qed.

Lemma live_unfree l i p ev rv :
  l !! i = Some p → fd p = -1 → live (<[i := {| fd := -1; events := ev; revents := rv |}]> l) = live l.
Proof.
  revert i. induction l as [|p' l IH]; intros [|i] Hi Hp; try done; cbn in Hi.
  - injection Hi as ->. cbn [insert list_insert]. rewrite !live_cons. cbn [fd]. by rewrite Hp.
  - cbn [insert list_insert]. rewrite !live_cons. by rewrite IH.
Qed.

(** What [std::find_if] and the two branches behind it make of the array. *)
Definition fresh_entry (f rv : Z) : pollfd :=
  {| fd := f; events := Z.lor POLLIN POLLERR; revents := rv |}.

Lemma place_first_free f l :
  (∃ i p, l !! i = Some p ∧ fd p = -1 ∧ ((-1) ∉ (fd <$> take i l)) ∧
          place f l = <[i := fresh_entry f (revents p)]> l) ∨
  (((-1) ∉ (fd <$> l)) ∧ place f l = l ++ [fresh_entry f 0]).
Proof.
  induction l as [|p l IH]; cbn [place]; [right; split; [apply not_elem_of_nil|done]|].
  destruct (fd p =? -1) eqn:Ep; zbool.
  - left. exists 0%nat, p. split; [done|]. split; [done|]. split; [apply not_elem_of_nil|done].
  - destruct IH as [(i & q & Hi & Hq & Hn & ->)|[Hn ->]].
    + left. exists (S i), q. split; [done|]. split; [done|]. split; [|done].
      cbn. apply not_elem_of_cons. split; [by intros Hx; apply Ep|done].
    + right. split; [|done]. cbn. apply not_elem_of_cons. split; [by intros Hx; apply Ep|done].
Qed.

(** The table of the server: behind the listening entry, if one was installed,
    the slots in use hold distinct descriptors, these are the ones with a
    connector, and no connector carries data. *)
Record table_ok (l0 : list pollfd) (s : RttServer) : Prop := {
  tab_slots : ∃ conns, fds s = l0 ++ conns ∧ NoDup (live conns) ∧
                       dom (translations_ s) = list_to_set (live conns);
  tab_bare : map_Forall (λ _ c, data_ c = any_empty) (translations_ s)
}.

(** The members after construction, with the listening entry [l0] someone may
    have put in front; and the two operations that change the tables. *)
Definition unserved (l0 : list pollfd) (s : RttServer) : Prop :=
  fds s = l0 ∧ translations_ s = ∅ ∧ (length l0 ≤ 1)%nat ∧ ((-1) ∉ (fd <$> l0)).

Inductive table_step (l0 : list pollfd) : RttServer → RttServer → Prop :=
| table_connect s s' f model k w w' :
    getRawHandler (Connector_new f model) ≠ -1 →
    onNewConnect (Connector_new f model) s k w = (Ok s', w') → table_step l0 s s'
| table_dispose s s' i :
    (length l0 ≤ i)%nat → dispose s i = Ok s' → table_step l0 s s'.

Lemma Translation_new_Ok : ∃ t, Translation_new = Ok t.
Proof. eexists. reflexivity. Qed.

(** [onNewConnect] on every branch. *)
Lemma onNewConnect_spec c s k w :
  onNewConnect c s k w =
    (if bool_decide (is_Some (translations_ s !! getRawHandler c)) then AssertFail
     else Ok {| fds := place (getRawHandler c) (fds s);
                translations_ := <[getRawHandler c := c]> (translations_ s);
                acceptor_ := acceptor_ s; heap := heap s |}, w).
Proof.
  unfold onNewConnect. cbn [translations_ set_fds]. destruct Translation_new_Ok as [t Ht].
  case_bool_decide; [done|]. cbn [negb cassert]. by rewrite run_lift_bind, Ht, run_lift_bind.
Qed.

Lemma place_behind f l0 l : ((-1) ∉ (fd <$> l0)) → place f (l0 ++ l) = l0 ++ place f l.
Proof.
  induction l0 as [|p l0 IH]; [done|]. cbn. rewrite not_elem_of_cons. intros [Hp Hn].
  rewrite (proj2 (Z.eqb_neq _ _)) by (intros Hx; by apply Hp). by rewrite IH.
Qed.

Lemma table_step_ok l0 s s' :
  ((-1) ∉ (fd <$> l0)) → table_ok l0 s → table_step l0 s s' → table_ok l0 s'.
Proof.
  intros Hl0 Hok Hst. destruct Hst as [s s' f model k w w' Hne Hs|s s' i Hi Hs];
    destruct Hok as [(conns & Hf & Hnd & Hdom) Hb].
  - rewrite onNewConnect_spec in Hs. case_bool_decide as Hn; [done|]. injection Hs as <- _.
    rewrite <- elem_of_dom, Hdom, elem_of_list_to_set in Hn.
    split; cbn [translations_ fds].
    + exists (place (getRawHandler (Connector_new f model)) conns).
      rewrite Hf, place_behind by done. split; [done|].
      rewrite live_place, decide_True by done. split; [by constructor|].
      by rewrite dom_insert_L, Hdom.
    + by apply map_Forall_insert_2.
  - unfold dispose in Hs. destruct (fds s !! i) as [p|] eqn:Ep; [|done]. injection Hs as <-.
    rewrite Hf, lookup_app_r in Ep by done.
    split; cbn [translations_ fds]; [|by apply map_Forall_delete].
    rewrite Hf, insert_app_r_alt by done. eexists. split; [done|].
    destruct (decide (fd p = -1)) as [E|E].
    + rewrite (live_unfree _ _ _ _ _ Ep E). split; [done|]. rewrite dom_delete_L, Hdom, E.
      assert ((-1) ∉ live conns) by (rewrite elem_of_live; naive_solver). set_solver.
    + pose proof (live_free conns _ p 0 (revents p) Ep E) as Hp.
      rewrite Hp in Hnd. apply NoDup_cons in Hnd as [Hnin Hnd]. split; [done|].
      rewrite dom_delete_L, Hdom, (list_to_set_perm_L _ _ Hp), list_to_set_cons. set_solver.
Qed.

Lemma unserved_ok l0 s : unserved l0 s → table_ok l0 s.
Proof.
  intros (Hf & Ht & _ & _). split; [|rewrite Ht; apply map_Forall_empty].
  exists []. rewrite Hf, Ht, app_nil_r. split; [done|]. split; [constructor|]. by rewrite dom_empty_L.
Qed.

Lemma table_reachable_ok l0 s0 s :
  unserved l0 s0 → rtc (table_step l0) s0 s → table_ok l0 s.
Proof.
  intros H0 Hr. pose proof H0 as (_ & _ & _ & Hl0). pose proof (unserved_ok l0 s0 H0) as Hok.
  clear H0. induction Hr as [|s s1 s2 Hs _ IH]; [done|]. by eapply IH, table_step_ok.
Qed.

(** Where a new descriptor goes: the first free slot, else a new one at the end. *)
Definition takes_slot (f : Z) (i : nat) (l l' : list pollfd) : Prop :=
  (∃ p, l !! i = Some p ∧ fd p = -1 ∧ ((-1) ∉ (fd <$> take i l)) ∧
        l' = <[i := fresh_entry f (revents p)]> l) ∨
  (i = length l ∧ ((-1) ∉ (fd <$> l)) ∧ l' = l ++ [fresh_entry f 0]).

Lemma place_takes_slot f l : ∃ i, takes_slot f i l (place f l).
Proof.
  destruct (place_first_free f l) as [(i & p & ? & ? & ? & ?)|[? ?]].
  - exists i. left. eauto.
  - exists (length l). by right.
Qed.

(** A slot that was taken and freed again changes no other slot in use. *)
Lemma taken_then_freed f i l l' ev rv :
  takes_slot f i l l' →
  fd <$> l' !! i = Some f ∧
  live (<[i := {| fd := -1; events := ev; revents := rv |}]> l') = live l.
Proof.
  intros [(p & Hi & Hp & _ & ->)|(-> & _ & ->)].
  - rewrite list_lookup_insert_eq, list_insert_insert_eq by (by eapply lookup_lt_Some).
    split; [done|]. by apply (live_unfree l i p).
  - rewrite list_lookup_middle, insert_app_r_alt, Nat.sub_diag by done. split; [done|].
    unfold live. rewrite fmap_app, filter_app. cbn. by rewrite app_nil_r.
Qed.

(** C24: Slots.  Whatever connections are accepted and disposed of, in any order,
    from the members' initial values (an empty array, or one with only a listening
    entry in front of the connections): the slots in use hold distinct
    descriptors, and exactly these have a connector, none of which carries data.
    In every such state a descriptor that is in use fails the assertion of
    [onNewConnect], and a new one takes the first free slot, or a new slot when
    none is free, with its events armed; disposing of the slot it took brings the
    table of connectors and the descriptors in use back to what they were. *)
Theorem slots_invariant l0 s0 s c k w :
  unserved l0 s0 → rtc (table_step l0) s0 s → getRawHandler c ≠ -1 →
  let f := getRawHandler c in
  let used := live (drop (length l0) (fds s)) in
  NoDup used ∧ dom (translations_ s) = list_to_set used ∧
  map_Forall (λ _ c, data_ c = any_empty) (translations_ s) ∧
  (f ∈ used → onNewConnect c s k w = (AssertFail, w)) ∧
  (f ∉ used →
   ∃ s' i s'', onNewConnect c s k w = (Ok s', w) ∧ (length l0 ≤ i)%nat ∧
     takes_slot f i (fds s) (fds s') ∧ translations_ s' = <[f := c]> (translations_ s) ∧
     dispose s' i = Ok s'' ∧ translations_ s'' = translations_ s ∧
     live (fds s'') = live (fds s)).
Proof.
  intros H0 Hr Hc f used. pose proof H0 as (_ & _ & _ & Hl0).
  destruct (table_reachable_ok l0 s0 s H0 Hr) as [(conns & Hf & Hnd & Hdom) Hb].
  subst used. rewrite Hf, drop_app_length. split; [done|]. split; [done|]. split; [done|].
  assert (Hin : f ∈ live conns ↔ is_Some (translations_ s !! f))
    by (rewrite <- elem_of_dom, Hdom; by rewrite elem_of_list_to_set).
  rewrite onNewConnect_spec. fold f. split; intros Hu.
  - by rewrite bool_decide_eq_true_2 by (by apply Hin).
  - rewrite bool_decide_eq_false_2 by (by rewrite <- Hin).
    destruct (place_takes_slot f conns) as [i Hi].
    assert (Hi' : takes_slot f (length l0 + i) (l0 ++ conns) (l0 ++ place f conns)).
    { destruct Hi as [(p & Hi & Hp & Hn & ->)|(-> & Hn & ->)]; [left|right].
      - exists p. rewrite lookup_app_r, take_app_add, insert_app_r_alt by lia.
        rewrite Nat.add_sub', fmap_app, not_elem_of_app. done.
      - rewrite length_app, fmap_app, not_elem_of_app, app_assoc. done. }
    rewrite Hf, place_behind by done.
    destruct (taken_then_freed f _ _ _ 0 0 Hi') as [Hfd _].
    destruct ((l0 ++ place f conns) !! (length l0 + i)%nat) as [q|] eqn:Eq; [|done].
    injection Hfd as Hq.
    eexists _, (length l0 + i)%nat, _. split; [done|]. split; [lia|]. split; [done|].
    split; [done|]. unfold dispose. cbn [fds]. rewrite Eq. split; [done|].
    cbn [translations_ fds]. rewrite Hq. split; [|by apply taken_then_freed with f].
    rewrite delete_insert_id; [done|]. rewrite <- not_elem_of_dom, Hdom.
    by rewrite elem_of_list_to_set.
Qed.

(** ** The service loop *)




Section rejects.
Context (k : kernel).




End rejects.





Section loop.
Context (k : kernel).











End loop.





(** ** Concrete runs *)

(** The members as the constructor leaves them, and behind a listening entry. *)
Definition empty_server (l0 : list pollfd) : RttServer :=
  {| fds := l0; translations_ := ∅;
     acceptor_ := {| a_socket := Socket_new 3 LISTEN_SHARED; on_new_connect_ := true |};
     heap := ∅ |}.
Definition after_connect (f : Z) (s : RttServer) : RttServer :=
  match (onNewConnect (Connector_new f NORMAL) s (script []) world0).1 with Ok s' => s' | _ => s end.
Definition after_dispose (i : nat) (s : RttServer) : RttServer :=
  match dispose s i with Ok s' => s' | _ => s end.

(** Connections 5 and 6 arrive, 5 goes. *)
Definition one_freed : RttServer := after_dispose 0 (after_connect 6 (after_connect 5 (empty_server []))).

(** Descriptor 7 takes the slot 5 had. *)
Lemma slots_invariant_witness :
  ∃ s' i s'', onNewConnect (Connector_new 7 NORMAL) one_freed (script []) world0 = (Ok s', world0) ∧
    (0 ≤ i)%nat ∧ takes_slot 7 i (fds one_freed) (fds s') ∧
    translations_ s' = <[7 := Connector_new 7 NORMAL]> (translations_ one_freed) ∧
    dispose s' i = Ok s'' ∧ translations_ s'' = translations_ one_freed ∧
    live (fds s'') = live (fds one_freed).
Proof.
  apply (slots_invariant [] (empty_server []) one_freed (Connector_new 7 NORMAL) (script []) world0).
  - split; [done|]. split; [done|]. split; [cbn; lia|apply not_elem_of_nil].
  - eapply rtc_l; [by apply (table_connect [] _ (after_connect 5 (empty_server [])) 5 NORMAL (script []) world0 world0)|].
    eapply rtc_l; [by apply (table_connect [] _ (after_connect 6 (after_connect 5 (empty_server []))) 6 NORMAL (script []) world0 world0)|].
    eapply rtc_l; [|apply rtc_refl]. apply (table_dispose [] _ _ 0); [cbn; lia|reflexivity].
  - discriminate.
  - vm_compute. intros H. repeat (apply elem_of_cons in H as [H|H]; [discriminate|]).
    by apply not_elem_of_nil in H.
Defined.


